(* ===== verification/_CoqProject ===== *)
-Q . S2P
Prelude.v
Doubles.v
Schema.v
FilterHash.v
FilterColumns.v
FilterScan.v
FilterSummary.v
FilterPruning.v
PageFile.v
TreeNodes.v
PageAllocator.v
Superblock.v
Fsck.v
FsckWalk.v
FsckRuns.v
FrequencySketch.v
LeafExtentCache.v
IntrusiveList.v
EntryLifetime.v
LeafCacheSafety.v
LeafCacheSections.v
LeafCacheFill.v
LeafCacheRuns.v
FastScanCodes.v
FastScanLeaves.v
Ownership.v
LeafStore.v
LeafStoreSafety.v
LeafStoreCommit.v
LeafStoreRuns.v
FilterBytes.v
CompactLeaf.v
DeleteBatch.v
TopW.v
ScanKernels.v
LeafScan.v
ScalarScan.v
LeafScanRuns.v
CutTopk.v
SweepPool.v
BatchSweep.v
BatchSweepInv.v
BatchRefs.v
BatchSearch.v
BatchRuns.v
BatchScheduler.v
SchedulerInv.v
SchedulerAnswers.v
SchedulerDrain.v
SchedulerRuns.v
