(* ===== verification/Prelude.v ===== *)
(** * Sextant: a verified model of the engine's storage and filter core

    Sextant is a vector index kept in one file: a page file with an allocator and a
    double superblock, a tree of nodes whose leaves hold quantized codes, row ids
    and typed filter columns, a cache of leaf extents, and searches that prune
    leaves by summaries and evaluate predicates on rows.  This library models the
    deterministic core of it, on bytes and machine integers, and proves it correct.

    ** Reading the model

    A C++ value is a [Z] with its wrap-around written out ([u8], [u16], [u32],
    [u64]); a byte buffer is a [list Z]; a struct is a Record and its memory image the
    little-endian encoding of its fields ([encode_fields]); a pointer into a buffer is
    an offset.  A call returns [res A]: [Ok], a thrown [sextant::Error], or
    [UndefinedBehaviour] when the C++ would touch memory outside a buffer or vector or
    an object that was freed; so every theorem that says a call is [Ok] also says that
    it makes no such access.  Counted loops are [for_range]; other loops carry fuel,
    and running out of it is the fault [OutOfFuel], from which no theorem concludes
    anything: each one states that the code returns.  Third-party code is a parameter:
    rapidhash, [std::stod], the C library's trigonometric functions, the kernel's short
    reads and writes, the TOML parser, the trained quantizers.

    ** Files, and the source each one models (all under src/src/ unless said)

    - Prelude: machine integers, faults, loops, byte buffers, encodings.
    - Doubles: [float] and [double] as Standard Library [spec_float].
    - Schema: include/sextant/schema.hpp, column types and predicates.
    - FilterHash: tree/filter_hash.hpp, bloom filters.
    - FilterColumns: tree/filter_column_write.hpp, tree/filter_column_read.hpp and the
      parser of tree/filter_scan.cpp: the per-leaf columns as bytes.
    - FilterScan: tree/filter_scan.cpp, predicate evaluation on rows.
    - FilterSummary, FilterPruning: summaries, their merge, and pruning by them.
    - PageFile: tree/page_file.cpp; the interface [PageStore] with its laws
      [PageStoreLaws], which every component above the file is written against, and
      its instance for the file.
    - TreeNodes: tree/tree_nodes.hpp, headers, checksums and leaf layouts.
    - PageAllocator: tree/page_allocator.cpp.  Superblock: tree/superblock.cpp.
    - Ownership: who owns which extents (the allocator's promise to its clients).
    - Fsck, FsckWalk, FsckRuns: tree/fsck.cpp, the walk, the accounting, the repair.
    - FrequencySketch: storage/frequency_sketch.hpp.
    - LeafExtentCache: tree/leaf_extent_cache.cpp, a shard, its critical sections and
      the lock-free accesses of [unpin], one definition each; LeafCacheSafety,
      LeafCacheSections, LeafCacheFill, LeafCacheRuns: its invariant, kept by every
      section and every access to an entry that is still there, and so by every
      interleaving of them; IntrusiveList: the pointer lists the cache model takes as
      sequences; EntryLifetime: the accesses of [unpin] between those of an eviction.
    - FastScanCodes, FastScanLeaves: the interleaved code blocks of
      tree/coders/coder_util.hpp and tree/coders/global_pq_coder.cpp.
    - LeafStore: tree/ivf_tree_mutate.cpp, reading and writing leaves through the leaf
      table, the commit of a mutation, defragmentation; LeafStoreSafety,
      LeafStoreCommit, LeafStoreRuns: its invariant ([index_ok]: every extent of the
      index owned once), the blobs of a commit, and what the three establish.
    - FilterBytes, CompactLeaf, DeleteBatch: [delete_batch] of the same file, from the
      scan for the ids over the compaction of each leaf to the commit; [leaf_holds]
      says which rows a leaf stores and composes TreeNodes, FastScanLeaves and
      FilterColumns.
    - TopW: the bounded heaps of tree/leaf_coder.hpp, and [topw], the specification
      every client is proved against: the [W] least elements of a list.
    - ScanKernels: the block kernels of simd_kernels.hpp, as lists of lanes.
      LeafScan, LeafScanRuns: [scan_leaf] of the product quantizer coders, from a leaf
      extent to the heap.  ScalarScan: the candidate buffer of the scalar coders.
    - CutTopk: [cut_topk_results_] of tree/ivf_tree_search.cpp, the tail of a search.
    - SweepPool, BatchSweep: the same file's [search_batch], from the probe sets to the
      answer of a swept query, against the interface [LeafCoder] with its promise
      [LeafCoderScan]; BatchSweepInv, BatchRefs: its invariant, kept by every scan and
      harvest, and the cover of all refs by any schedule of the workers; BatchSearch: the
      search of one query, brute-force fallback included, [search_batch] itself, and the
      theorem of what the batch answers; BatchRuns: the instance of the interface for
      the global product quantizer.
    - BatchScheduler: tree/batch_scheduler.cpp, a definition per critical section and
      the threads as step relations ([work], what the threads do, and [env], what
      comes from outside), against the interface [BatchIndex] with its laws
      [BatchIndexLaws]; SchedulerInv: its invariant; SchedulerAnswers: what futures
      resolve to; SchedulerDrain: [stop]; SchedulerRuns: the instance of the interface
      by BatchSearch, with routing a parameter that may give up on a query, and runs.

    ** What the theorems show

    - Storage: an allocation returns pages nobody owns and keeps every other page; any
      step of a client keeps the pages of its other extents; the bitmap
      survives a flush and a load; a commit of the superblock is atomic under a crash
      at any sector.
    - Layout: the regions of every leaf family are disjoint and inside the extent the
      size was computed for; headers round trip; the CRC is the remainder of the long
      division by the generator of IEEE 802.3, and detects short bursts.
    - Filters: filter columns round trip, and reading, selecting and appending rows
      act on the table of cells; the search loop returns exactly the rows that match;
      the batched evaluation is the scalar one on what it handles; a summary never
      prunes a leaf that has a matching row; a bloom filter has no false negative.  The
      queries and columns this holds for are in the theorems' comments.
    - Fsck: its verdict is sound, it writes only to repair, a repair rebuilds bitmap
      and free list, a second run is clean; the walk ends on a tree whose pointers are
      acyclic and only there.
    - Cache: the pin contract under every interleaving, and memory safety but for three
      accesses of [unpin] to an entry another thread has freed, which happen; admission
      keeps the window in budget; the sketch never underestimates; an entry is freed
      once.
    - Codes: encoding and extracting are inverse, appending and compacting are the list
      operations.
    - Searches: a scan of a leaf keeps the least of its codes and of what was offered
      before, on every variant of the kernels whose accumulators do not overflow; the
      integer keys order as the distances do; the tail returns the nearest rows, each
      once, in an order that does not depend on how the candidates were found; and the
      batch search, which reads a leaf once for all queries and forgets it, answers each
      query as the single search does, under its own settings or, when its routing gave
      up, under the base configuration.
    - Scheduler: whatever the interleaving, a future resolves to what the single search
      returns for its query, at a number of neighbours no smaller than its own; each
      query is in one place or resolved once, the sweeps in flight are bounded, no
      wake-up is lost as long as no sweep throws, the most urgent queries are launched
      first, and after [stop] every promise is resolved within a bounded number of steps.
    - Mutations: a written leaf is read back and no other changes; a commit leaves a
      file from which the same leaves and an allocator that owns all extents are
      loaded; defragmentation changes no leaf; a deletion removes exactly the rows with
      the given ids, each with its code and cells.

    ** Bounds

    File sizes are at most [max_pages] = 2^51 pages (the byte offset fits [off_t]).
    Fuel: a read or write loop gets one unit per byte, since every system call that
    does not fail transfers at least one; the walk of fsck gets any fuel, and
    [walk_ends] gives the amount that is enough; other loops are structural.

    ** Not modelled

    Floating-point training and routing (the quantizers, the dot product kernels, the PCA
    plane, k-means, the build pipeline, the descent to the leaves) compute results with
    no exact specification.  The OS layer (direct and buffered I/O, thread pools, mmap),
    the command line tools, the C API, logging, metrics, TOML and the vendored code
    only call libraries or each other. *)
From stdpp Require Export base tactics numbers list gmap.
From Stdlib Require Export ZArith Lia.
#[export] Set Default Goal Selector "!".
Open Scope Z_scope.

(** ** Machine integers: a w-bit unsigned value is a [Z] in [0, 2^w) *)

Definition u8 (x : Z) : Z := x mod 2 ^ 8.
Definition u16 (x : Z) : Z := x mod 2 ^ 16.
Definition u32 (x : Z) : Z := x mod 2 ^ 32.
Definition u64 (x : Z) : Z := x mod 2 ^ 64.
Definition UINT32_MAX : Z := 2 ^ 32 - 1.
Definition UINT64_MAX : Z := 2 ^ 64 - 1.

Lemma u64_id x : 0 ≤ x < 2 ^ 64 → u64 x = x.
Proof. apply Z.mod_small. Qed.

Lemma u32_id x : 0 ≤ x < 2 ^ 32 → u32 x = x.
Proof. apply Z.mod_small. Qed.

(** A byte is a [Z] in [0, 256). *)
Definition is_byte (b : Z) : Prop := 0 ≤ b < 256.

(** ** Errors *)

(** The engine's [ErrorCode] ([include/sextant/error.hpp]). *)
Inductive ErrorCode := IoError | CorruptIndex | InvalidParam | OutOfMemory | NotImplemented.

(** How a call can fail: a thrown [sextant::Error], an access the C++ standard
    leaves undefined, or a loop of the model that used up its fuel. *)
Inductive fault :=
  | Thrown (c : ErrorCode)
  | UndefinedBehaviour
  | OutOfFuel.

#[export] Instance ErrorCode_eq_dec : EqDecision ErrorCode.
Proof. solve_decision. Defined.
#[export] Instance fault_eq_dec : EqDecision fault.
Proof. solve_decision. Defined.

Inductive res (A : Type) :=
  | Ok (a : A)
  | Err (e : fault).
Arguments Ok {A} a.
Arguments Err {A} e.

#[export] Instance res_ret : MRet res := @Ok.
#[export] Instance res_bind : MBind res := λ A B f m,
  match m with Ok a => f a | Err e => Err e end.
#[export] Instance res_fmap : FMap res := λ A B f m,
  match m with Ok a => Ok (f a) | Err e => Err e end.

Definition throw {A} (c : ErrorCode) : res A := Err (Thrown c).

Section res_lemmas.
Context {A B : Type}.
Implicit Types (m : res A) (f : A → res B).

Lemma bind_Ok a f : (Ok a ≫= f) = f a.
Proof. reflexivity. Qed.

Lemma bind_Err e f : (Err e ≫= f) = Err e.
Proof. reflexivity. Qed.

Lemma bind_Ok_inv m f b : (m ≫= f) = Ok b → ∃ a, m = Ok a ∧ f a = Ok b.
Proof. destruct m as [a|e]; [by exists a|done]. Qed.
End res_lemmas.

(** [res_inv] splits every [m ≫= f = Ok b] hypothesis into its two calls. *)
Ltac res_inv :=
  repeat match goal with
  | H : mbind _ ?m = Ok _ |- _ =>
      let a := fresh "v" in let E := fresh "E" in
      apply bind_Ok_inv in H as (a & E & H)
  | H : Ok _ = Ok _ |- _ => injection H as H
  | H : mret _ = Ok _ |- _ => injection H as H
  | H : Err _ = Ok _ |- _ => discriminate H
  | H : throw _ = Ok _ |- _ => discriminate H
  end.

(** ** Vectors indexed by machine integers: out of range is undefined *)

Definition vec_get {A} (l : list A) (i : Z) : res A :=
  if i <? 0 then Err UndefinedBehaviour
  else match l !! Z.to_nat i with Some x => Ok x | None => Err UndefinedBehaviour end.

Definition vec_set {A} (l : list A) (i : Z) (x : A) : res (list A) :=
  if (i <? 0) || (Z.of_nat (length l) <=? i) then Err UndefinedBehaviour
  else Ok (<[Z.to_nat i := x]> l).

Lemma vec_get_Ok {A} (l : list A) i :
  0 ≤ i < Z.of_nat (length l) →
  ∃ x, l !! Z.to_nat i = Some x ∧ vec_get l i = Ok x.
Proof.
  intros Hi. destruct (lookup_lt_is_Some_2 l (Z.to_nat i)) as [x Hx]; [lia|].
  exists x. split; [done|]. unfold vec_get. rewrite Hx.
  destruct (Z.ltb_spec i 0); [lia|done].
Qed.

Lemma vec_set_Ok {A} (l : list A) i x :
  0 ≤ i < Z.of_nat (length l) → vec_set l i x = Ok (<[Z.to_nat i := x]> l).
Proof.
  intros Hi. unfold vec_set.
  destruct (Z.ltb_spec i 0), (Z.leb_spec (Z.of_nat (length l)) i); simpl; try lia; done.
Qed.

(** ** Counted loops *)

(** [for (i = i0; i < i0 + n; ++i) body]. *)
Fixpoint for_range {S} (n : nat) (i : Z) (body : Z → S → res S) (s : S) : res S :=
  match n with
  | O => Ok s
  | Datatypes.S n' => s' ← body i s; for_range n' (i + 1) body s'
  end.

Lemma for_range_ok {S} (I : Z → S → Prop) body n i s :
  I i s →
  (∀ j t, i ≤ j < i + Z.of_nat n → I j t → ∃ t', body j t = Ok t' ∧ I (j + 1) t') →
  ∃ s', for_range n i body s = Ok s' ∧ I (i + Z.of_nat n) s'.
Proof.
  revert i s. induction n as [|n IH]; intros i s Hi Hstep.
  - exists s. split; [done|]. by replace (i + Z.of_nat 0) with i by lia.
  - destruct (Hstep i s) as (s1 & E & H1); [lia|done|].
    destruct (IH (i + 1) s1) as (s2 & E2 & H2).
    + done.
    + intros j t Hj. apply Hstep. lia.
    + exists s2. simpl. rewrite E. split; [done|].
      by replace (i + Z.of_nat (Datatypes.S n)) with (i + 1 + Z.of_nat n) by lia.
Qed.

Lemma for_range_ext {S} (f g : Z → S → res S) n i s :
  (∀ j t, f j t = g j t) → for_range n i f s = for_range n i g s.
Proof.
  intros Hfg. revert i s. induction n as [|n IH]; intros i s; [done|].
  cbn [for_range]. rewrite Hfg. destruct (g i s); [apply IH|done].
Qed.

(** A loop whose good runs another body repeats. *)
Lemma for_range_transfer {S} (R : S → S → Prop) (Good : S → Prop) (f g : Z → S → res S) n i s s' :
  (∀ j t t', f j t = Ok t' → R t t') →
  (∀ t t', R t t' → Good t' → Good t) →
  (∀ j t t', f j t = Ok t' → Good t' → g j t = Ok t') →
  for_range n i f s = Ok s' → Good s' →
  for_range n i g s = Ok s' ∧ Good s.
Proof.
  intros HR Hdown Hfg. revert i s. induction n as [|n IH]; intros i s E HG; cbn [for_range] in *.
  - injection E as ->. done.
  - apply bind_Ok_inv in E as (t & E1 & E2). destruct (IH _ _ E2 HG) as [E3 HGt].
    split; [|by apply (Hdown _ t (HR _ _ _ E1))]. by rewrite (Hfg _ _ _ E1 HGt), bind_Ok.
Qed.

Lemma for_range_preserves {S} (R : S → S → Prop) (f : Z → S → res S) n i s s' :
  (∀ t, R t t) → (∀ t u v, R t u → R u v → R t v) →
  (∀ j t t', f j t = Ok t' → R t t') → for_range n i f s = Ok s' → R s s'.
Proof.
  intros Hr Ht HR. revert i s. induction n as [|n IH]; intros i s E; cbn [for_range] in *.
  - by injection E as ->.
  - apply bind_Ok_inv in E as (t & E1 & E2). apply (Ht _ t); [by apply (HR i)|by apply (IH (i + 1))].
Qed.

(** A loop keeps what its body keeps. *)
Lemma for_range_keeps {S} (I : S → Prop) (f : Z → S → res S) n i s s' :
  (∀ j t t', f j t = Ok t' → I t → I t') → for_range n i f s = Ok s' → I s → I s'.
Proof. intros Hf. apply (for_range_preserves (λ t t', I t → I t')); auto. Qed.

Lemma for_range_indexed {S} (I : Z → S → Prop) (f : Z → S → res S) n i s s' :
  (∀ j t t', i ≤ j < i + Z.of_nat n → f j t = Ok t' → I j t → I (j + 1) t') →
  for_range n i f s = Ok s' → I i s → I (i + Z.of_nat n) s'.
Proof.
  revert i s. induction n as [|n IH]; intros i s Hf E Hi; cbn [for_range] in E.
  - injection E as <-. by rewrite Z.add_0_r.
  - apply bind_Ok_inv in E as (t & E1 & E2).
    replace (i + Z.of_nat (Datatypes.S n)) with (i + 1 + Z.of_nat n) by lia.
    apply (IH _ t); [|done|apply (Hf i s); [lia|done..]]. intros j t1 t2 Hj. apply Hf. lia.
Qed.

(** ** Invariants of step relations *)

Lemma rtc_invariant {A} (P : A → Prop) (R : relation A) x y :
  (∀ x y, P x → R x y → P y) → rtc R x y → P x → P y.
Proof. intros Hstep. induction 1; eauto. Qed.

(** ** Little-endian byte encodings *)

Fixpoint le_enc (n : nat) (z : Z) : list Z :=
  match n with
  | O => []
  | Datatypes.S n' => z mod 256 :: le_enc n' (z / 256)
  end.

Fixpoint le_dec (bs : list Z) : Z :=
  match bs with
  | [] => 0
  | b :: bs' => b + 256 * le_dec bs'
  end.

Lemma length_le_enc n z : length (le_enc n z) = n.
Proof. revert z. induction n as [|n IH]; intros z; simpl; [done|by rewrite IH]. Qed.

Lemma le_enc_bytes n z : Forall is_byte (le_enc n z).
Proof.
  revert z. induction n as [|n IH]; intros z; simpl; constructor; [|apply IH].
  apply Z.mod_pos_bound. lia.
Qed.

Lemma le_dec_enc n z : le_dec (le_enc n z) = z mod 256 ^ Z.of_nat n.
Proof.
  revert z. induction n as [|n IH]; intros z; cbn [le_enc le_dec].
  - by rewrite Z.mod_1_r.
  - rewrite IH, Nat2Z.inj_succ, Z.pow_succ_r by lia.
    rewrite Z.rem_mul_r by (try apply Z.pow_pos_nonneg; lia). lia.
Qed.

(** A value that fits in [n] bytes survives encoding. *)
Lemma le_dec_enc_small n z : 0 ≤ z < 256 ^ Z.of_nat n → le_dec (le_enc n z) = z.
Proof. intros Hz. rewrite le_dec_enc. by apply Z.mod_small. Qed.

Lemma le_dec_bound bs : Forall is_byte bs → 0 ≤ le_dec bs < 256 ^ Z.of_nat (length bs).
Proof.
  induction 1 as [|b bs Hb _ IH]; cbn [le_dec length]; [by vm_compute|].
  rewrite Nat2Z.inj_succ, Z.pow_succ_r by lia. unfold is_byte in Hb. nia.
Qed.

Lemma le_enc_dec bs : Forall is_byte bs → le_enc (length bs) (le_dec bs) = bs.
Proof.
  induction 1 as [|b bs Hb _ IH]; cbn [le_dec length le_enc]; [done|].
  unfold is_byte in Hb. f_equal.
  - rewrite Z.mul_comm, Z.mod_add, Z.mod_small by lia. done.
  - rewrite Z.mul_comm, Z.div_add, Z.div_small, Z.add_0_l by lia. done.
Qed.

(** ** Byte buffers: [memcpy] out of and into an offset *)

Definition bytes_at (buf : list Z) (off n : nat) : list Z := take n (drop off buf).

Definition bytes_put (buf : list Z) (off : nat) (bs : list Z) : list Z :=
  take off buf ++ bs ++ drop (off + length bs) buf.

Lemma bytes_at_app_l buf1 buf2 off n :
  (off + n ≤ length buf1)%nat → bytes_at (buf1 ++ buf2) off n = bytes_at buf1 off n.
Proof.
  intros H. unfold bytes_at. rewrite drop_app_le by lia. rewrite take_app_le; [done|].
  rewrite length_drop. lia.
Qed.

Lemma bytes_at_app_r buf1 buf2 off n :
  (length buf1 ≤ off)%nat →
  bytes_at (buf1 ++ buf2) off n = bytes_at buf2 (off - length buf1) n.
Proof. intros H. unfold bytes_at. by rewrite drop_app_ge. Qed.

Lemma bytes_at_0 buf n : bytes_at buf 0 n = take n buf.
Proof. done. Qed.

Lemma bytes_at_exact buf n : length buf = n → bytes_at buf 0 n = buf.
Proof. intros <-. unfold bytes_at. by rewrite drop_0, firstn_all. Qed.

(** *** The byte at an index, zero past the end *)

Definition byte_at (b : list Z) (i : nat) : Z := default 0 (b !! i).

Lemma byte_at_app a b i :
  byte_at (a ++ b) i = if decide (i < length a)%nat then byte_at a i else byte_at b (i - length a).
Proof.
  unfold byte_at. case_decide.
  - by rewrite lookup_app_l.
  - by rewrite lookup_app_r by lia.
Qed.

Lemma byte_at_take n b i :
  byte_at (take n b) i = if decide (i < n)%nat then byte_at b i else 0.
Proof.
  unfold byte_at. case_decide.
  - by rewrite lookup_take_lt.
  - by rewrite lookup_take_ge by lia.
Qed.

Lemma byte_at_drop n b i : byte_at (drop n b) i = byte_at b (n + i).
Proof. unfold byte_at. by rewrite lookup_drop. Qed.

Lemma byte_at_zeros n i : byte_at (replicate n 0) i = 0.
Proof.
  unfold byte_at. destruct (replicate n 0 !! i) eqn:E; [|done].
  by apply lookup_replicate in E as [-> _].
Qed.

Lemma byte_at_ge b i : (length b ≤ i)%nat → byte_at b i = 0.
Proof. intros H. unfold byte_at. by rewrite lookup_ge_None_2. Qed.

Lemma byte_at_lookup b i : (i < length b)%nat → b !! i = Some (byte_at b i).
Proof. intros H. unfold byte_at. by destruct (lookup_lt_is_Some_2 b i H) as [x ->]. Qed.

Lemma byte_at_is_byte b i : Forall is_byte b → is_byte (byte_at b i).
Proof.
  intros H. unfold byte_at. destruct (b !! i) eqn:E; [|done].
  by apply (Forall_lookup_1 _ _ _ _ H) in E.
Qed.

Lemma bytes_ext a b :
  length a = length b → (∀ i, (i < length a)%nat → byte_at a i = byte_at b i) → a = b.
Proof.
  intros Hl Hi. apply list_eq_same_length with (length a); [done..|].
  intros i x y Hlt Ha Hb. specialize (Hi i Hlt). unfold byte_at in Hi.
  by rewrite Ha, Hb in Hi.
Qed.

Lemma byte_at_bytes_at b off n i :
  byte_at (bytes_at b off n) i = if decide (i < n)%nat then byte_at b (off + i) else 0.
Proof. unfold bytes_at. rewrite byte_at_take. case_decide; [apply byte_at_drop|done]. Qed.

Create Rewrite HintDb bytes.
#[export] Hint Rewrite byte_at_app byte_at_take byte_at_drop byte_at_zeros byte_at_bytes_at
  @length_app @length_take @length_drop @length_replicate @length_fmap length_seq : bytes.

(** Decide a goal about the byte at an index by cases on the index. *)
Ltac byte_cases :=
  autorewrite with bytes;
  repeat (case_decide; autorewrite with bytes in *); try (exfalso; lia);
  try (f_equal; lia); try (rewrite ?byte_at_ge by lia; done).

(** ** Bits of a byte *)

Lemma testbit_byte_high b i : is_byte b → 8 ≤ i → Z.testbit b i = false.
Proof.
  intros [Hb1 Hb2] Hi. destruct (Z.eq_dec b 0) as [->|]; [apply Z.bits_0|].
  apply Z.bits_above_log2; [done|].
  assert (Z.log2 b < 8); [|lia]. apply Z.log2_lt_pow2; lia.
Qed.

Lemma is_byte_high b : 0 ≤ b → (∀ i, 8 ≤ i → Z.testbit b i = false) → is_byte b.
Proof.
  intros Hb Hhi. split; [done|].
  destruct (Z.lt_ge_cases b 256) as [|Hge]; [done|exfalso].
  assert (8 ≤ Z.log2 b) as Hl by (apply (Z.log2_le_mono 256 b) in Hge; done).
  specialize (Hhi _ Hl). rewrite Z.bit_log2 in Hhi by lia. done.
Qed.

(** [(w >> k) & 1] is bit [k]. *)
Lemma shiftr_land_1 w k : 0 ≤ k → Z.land (Z.shiftr w k) 1 = Z.b2z (Z.testbit w k).
Proof.
  intros Hk. change 1 with (Z.ones 1). rewrite Z.land_ones by lia.
  change (2 ^ 1) with 2. rewrite <- Z.bit0_mod, Z.shiftr_spec by lia. done.
Qed.

(** [x & ~(2^k - 1)] on [w]-bit integers rounds down to a multiple of [2^k]. *)
Lemma land_align w k x :
  0 ≤ k ≤ w → 0 ≤ x < 2 ^ w → Z.land x (2 ^ w - 2 ^ k) = x / 2 ^ k * 2 ^ k.
Proof.
  intros Hk Hx. assert (2 ^ w - 2 ^ k = Z.ldiff (Z.ones w) (Z.ones k)) as ->.
  { rewrite <- Z.sub_nocarry_ldiff.
    - rewrite !Z.ones_equiv. lia.
    - apply Z.bits_inj'. intros i Hi. rewrite Z.ldiff_spec, Z.bits_0, !Z.testbit_ones by lia.
      destruct (Z.leb_spec 0 i), (Z.ltb_spec i k), (Z.ltb_spec i w); simpl; try done; lia. }
  rewrite <- Z.shiftr_div_pow2, <- Z.shiftl_mul_pow2, <- Z.ldiff_ones_r by lia.
  apply Z.bits_inj'. intros i Hi. rewrite Z.land_spec, !Z.ldiff_spec.
  destruct (Z.lt_ge_cases i w).
  - rewrite (Z.ones_spec_low w) by lia. by rewrite andb_true_l.
  - destruct (Z.eq_dec x 0) as [->|]; [by rewrite Z.bits_0|].
    assert (Z.log2 x < w) by (apply Z.log2_lt_pow2; lia).
    by rewrite (Z.bits_above_log2 x) by lia.
Qed.

Create HintDb sextant.
#[export] Hint Resolve le_enc_bytes length_le_enc : sextant.

(** ** C structs as sequences of little-endian fields *)

(** A field is its width in bytes and its value; padding is a field of value 0. *)
Definition encode_fields (fs : list (nat * Z)) : list Z :=
  concat ((λ '(w, v), le_enc w v) <$> fs).

Fixpoint decode_fields (ws : list nat) (bs : list Z) : list Z :=
  match ws with
  | [] => []
  | w :: ws' => le_dec (take w bs) :: decode_fields ws' (drop w bs)
  end.

Definition field_fits (f : nat * Z) : Prop := 0 ≤ f.2 < 256 ^ Z.of_nat f.1.

Lemma decode_encode_fields fs rest :
  Forall field_fits fs → decode_fields fs.*1 (encode_fields fs ++ rest) = fs.*2.
Proof.
  induction 1 as [|[w v] fs Hf _ IH]; [done|]. unfold encode_fields in *. cbn.
  rewrite <- app_assoc, take_app_length', drop_app_length' by (by rewrite length_le_enc).
  f_equal; [by apply le_dec_enc_small|apply IH].
Qed.

Lemma length_encode_fields fs : length (encode_fields fs) = sum_list fs.*1.
Proof.
  unfold encode_fields. induction fs as [|[w v] fs IH]; [done|]. cbn.
  by rewrite length_app, length_le_enc, IH.
Qed.

Lemma encode_fields_bytes fs : Forall is_byte (encode_fields fs).
Proof.
  unfold encode_fields. induction fs as [|[w v] fs IH]; cbn; [constructor|].
  apply Forall_app. split; [apply le_enc_bytes|done].
Qed.

Lemma decode_fields_nonneg ws bs :
  Forall is_byte bs → Forall (λ v, 0 ≤ v) (decode_fields ws bs).
Proof.
  revert bs. induction ws as [|w ws IH]; intros bs Hb; cbn [decode_fields]; [constructor|].
  constructor; [|by apply IH, Forall_drop].
  pose proof (le_dec_bound (take w bs) (Forall_take _ _ _ Hb)). lia.
Qed.

(** Decoding looks only at the bytes of the fields. *)
Lemma decode_fields_take ws bs n :
  (sum_list ws ≤ n)%nat → decode_fields ws (take n bs) = decode_fields ws bs.
Proof.
  revert bs n. induction ws as [|w ws IH]; intros bs n Hn; [done|]. cbn in *.
  rewrite take_take, Nat.min_l by lia. f_equal. rewrite skipn_firstn_comm. apply IH. lia.
Qed.

(** ** Memory regions inside a buffer: bounds-checked [memcpy] *)

(** [memcpy(dst, buf + off, n)]: reading outside the buffer is undefined. *)
Definition mem_read (buf : list Z) (off n : Z) : res (list Z) :=
  if bool_decide (0 ≤ off ∧ 0 ≤ n ∧ off + n ≤ Z.of_nat (length buf))
  then Ok (bytes_at buf (Z.to_nat off) (Z.to_nat n)) else Err UndefinedBehaviour.

(** [memcpy(buf + off, bs, |bs|)]: writing outside the buffer is undefined. *)
Definition mem_write (buf : list Z) (off : Z) (bs : list Z) : res (list Z) :=
  if bool_decide (0 ≤ off ∧ off + Z.of_nat (length bs) ≤ Z.of_nat (length buf))
  then Ok (bytes_put buf (Z.to_nat off) bs) else Err UndefinedBehaviour.

(** [mem_uint buf off w]: the [w]-byte little-endian integer at [off]. *)
Definition mem_uint (buf : list Z) (off : Z) (w : nat) : res Z :=
  bs ← mem_read buf off (Z.of_nat w); mret (le_dec bs).

(** [holds buf off bs]: the buffer has [bs] at [off]. *)
Definition holds (buf : list Z) (off : Z) (bs : list Z) : Prop :=
  0 ≤ off ∧ off + Z.of_nat (length bs) ≤ Z.of_nat (length buf) ∧
  bytes_at buf (Z.to_nat off) (length bs) = bs.

(** [same_outside buf buf' lo hi]: the two buffers differ at most in [lo, hi). *)
Definition same_outside (buf buf' : list Z) (lo hi : Z) : Prop :=
  length buf' = length buf ∧
  ∀ i, Z.of_nat i < lo ∨ hi ≤ Z.of_nat i → byte_at buf' i = byte_at buf i.

Lemma length_bytes_put buf off bs :
  (off + length bs ≤ length buf)%nat → length (bytes_put buf off bs) = length buf.
Proof. intros H. unfold bytes_put. rewrite !length_app, length_take, length_drop. lia. Qed.

Lemma byte_at_put buf off bs i :
  (off + length bs ≤ length buf)%nat →
  byte_at (bytes_put buf off bs) i =
    if decide (off ≤ i < off + length bs)%nat then byte_at bs (i - off) else byte_at buf i.
Proof. intros H. unfold bytes_put. byte_cases. Qed.

Lemma mem_read_holds buf off bs :
  holds buf off bs → mem_read buf off (Z.of_nat (length bs)) = Ok bs.
Proof.
  intros (H1 & H2 & H3). unfold mem_read. rewrite bool_decide_true by lia.
  by rewrite Nat2Z.id, H3.
Qed.

Lemma mem_uint_holds buf off w z :
  holds buf off (le_enc w z) → 0 ≤ z < 256 ^ Z.of_nat w → mem_uint buf off w = Ok z.
Proof.
  intros H Hz. apply mem_read_holds in H. rewrite length_le_enc in H. unfold mem_uint.
  rewrite H. simpl. by rewrite le_dec_enc_small.
Qed.

Lemma mem_read_bytes buf off n bs :
  mem_read buf off n = Ok bs → Forall is_byte buf → Forall is_byte bs.
Proof.
  unfold mem_read. case_bool_decide; [|done]. intros [= <-] Hb. by apply Forall_take, Forall_drop.
Qed.

Lemma mem_write_bytes buf off bs buf' :
  mem_write buf off bs = Ok buf' → Forall is_byte buf → Forall is_byte bs → Forall is_byte buf'.
Proof.
  unfold mem_write. case_bool_decide; [|done]. intros [= <-] Hb Hs. unfold bytes_put.
  apply Forall_app; split; [by apply Forall_take|]. apply Forall_app; split; [done|by apply Forall_drop].
Qed.

Lemma holds_app buf off xs ys :
  holds buf off (xs ++ ys) ↔ holds buf off xs ∧ holds buf (off + Z.of_nat (length xs)) ys.
Proof.
  unfold holds. rewrite length_app, Nat2Z.inj_add. split.
  - intros (H1 & H2 & H3). assert (∀ i, (i < length xs + length ys)%nat →
      byte_at buf (Z.to_nat off + i) = byte_at (xs ++ ys) i) as Hb.
    { intros i Hi. rewrite <- H3, byte_at_bytes_at, decide_True by lia. done. }
    split_and!; try lia.
    + apply bytes_ext; [unfold bytes_at; rewrite length_take, length_drop; lia|].
      intros i Hi. unfold bytes_at in Hi. rewrite length_take in Hi.
      rewrite byte_at_bytes_at, decide_True, Hb, byte_at_app, decide_True by lia. done.
    + apply bytes_ext; [unfold bytes_at; rewrite length_take, length_drop; lia|].
      intros i Hi. unfold bytes_at in Hi. rewrite length_take in Hi.
      rewrite byte_at_bytes_at, decide_True by lia.
      replace (Z.to_nat (off + Z.of_nat (length xs)) + i)%nat
        with (Z.to_nat off + (length xs + i))%nat by lia.
      rewrite Hb, byte_at_app, decide_False by lia. f_equal. lia.
  - intros ((H1 & H2 & H3) & _ & H5 & H6). split_and!; try lia.
    apply bytes_ext; [unfold bytes_at; rewrite length_take, length_drop, length_app; lia|].
    intros i Hi. unfold bytes_at in Hi. rewrite length_take in Hi.
    rewrite byte_at_bytes_at, decide_True, byte_at_app by lia. case_decide.
    + rewrite <- H3, byte_at_bytes_at, decide_True by lia. done.
    + rewrite <- H6, byte_at_bytes_at, decide_True by lia. f_equal. lia.
Qed.

Lemma holds_nil buf off : holds buf off [] ↔ 0 ≤ off ≤ Z.of_nat (length buf).
Proof. unfold holds. simpl. split; [lia|]. intros H. split_and!; [lia..|done]. Qed.

Lemma mem_write_ok buf off bs :
  0 ≤ off → off + Z.of_nat (length bs) ≤ Z.of_nat (length buf) →
  ∃ buf', mem_write buf off bs = Ok buf' ∧ holds buf' off bs ∧
    same_outside buf buf' off (off + Z.of_nat (length bs)).
Proof.
  intros H1 H2. unfold mem_write. rewrite bool_decide_true by lia. eexists. split; [done|].
  assert (length (bytes_put buf (Z.to_nat off) bs) = length buf) as Hl
    by (apply length_bytes_put; lia).
  split; [split_and!; [done|rewrite Hl; lia|]|split; [done|]].
  - apply bytes_ext; [unfold bytes_at; rewrite length_take, length_drop, Hl; lia|].
    intros i Hi. unfold bytes_at in Hi. rewrite length_take in Hi.
    rewrite byte_at_bytes_at, decide_True, byte_at_put, decide_True by lia. f_equal. lia.
  - intros i Hi. rewrite byte_at_put, decide_False by lia. done.
Qed.

(** What is stored outside the changed part stays. *)
Lemma holds_same_outside buf buf' lo hi off bs :
  same_outside buf buf' lo hi → (off + Z.of_nat (length bs) ≤ lo ∨ hi ≤ off) →
  holds buf off bs → holds buf' off bs.
Proof.
  intros [Hl Hs] Hd (H1 & H2 & H3). split_and!; [done|by rewrite Hl|].
  rewrite <- H3 at 2. apply bytes_ext; [unfold bytes_at; rewrite !length_take, !length_drop; lia|].
  intros i Hi. unfold bytes_at in Hi. rewrite length_take in Hi.
  rewrite !byte_at_bytes_at, !decide_True by lia. apply Hs. lia.
Qed.

Lemma same_outside_refl buf lo hi : same_outside buf buf lo hi.
Proof. done. Qed.

Lemma same_outside_trans b1 b2 b3 lo hi lo' hi' lo2 hi2 :
  same_outside b1 b2 lo hi → same_outside b2 b3 lo' hi' →
  lo2 ≤ lo → lo2 ≤ lo' → hi ≤ hi2 → hi' ≤ hi2 → same_outside b1 b3 lo2 hi2.
Proof.
  intros [L1 S1] [L2 S2] ????. split; [congruence|]. intros i Hi. rewrite S2, S1 by lia. done.
Qed.

Lemma same_outside_length b1 b2 lo hi : same_outside b1 b2 lo hi → length b2 = length b1.
Proof. by intros [? _]. Qed.

Lemma same_outside_extend b0 b b' lo hi lo' hi' :
  same_outside b0 b lo hi → same_outside b b' lo' hi' → lo ≤ lo' → hi' ≤ hi →
  same_outside b0 b' lo hi.
Proof. intros H1 H2 ??. eapply same_outside_trans; [exact H1|exact H2|lia..]. Qed.
