(* ===== verification/Doubles.v ===== *)
(** * IEEE 754 numbers of the C++ program: [double], [float] and their casts

    Both types are the Standard Library's [spec_float], at precisions 53 and
    24: comparison and arithmetic are [SFcompare], [SFmul], [SFdiv] and the
    rounding is to nearest even. *)
From Stdlib Require Export Floats.SpecFloat.
From S2P Require Import Prelude.

Abbreviation double := spec_float (only parsing).
Abbreviation float := spec_float (only parsing).

(** ** Casts *)

Definition double_of_Z (z : Z) : double := binary_normalize 53 1024 z 0 false.

Definition double_of_float (x : float) : double :=
  match x with S754_finite s m e => binary_round 53 1024 s m e | _ => x end.

Definition float_of_double (x : double) : float :=
  match x with S754_finite s m e => binary_round 24 128 s m e | _ => x end.

(** The magnitude of a finite number, halves rounded up or the fraction cut. *)
Definition round_half_up (m : positive) (e : Z) : Z :=
  if 0 <=? e then Zpos m * 2 ^ e else (Zpos m + 2 ^ (- e - 1)) / 2 ^ (- e).

Definition truncate_pos (m : positive) (e : Z) : Z :=
  if 0 <=? e then Zpos m * 2 ^ e else Zpos m / 2 ^ (- e).

Definition ceil_pos (m : positive) (e : Z) : Z :=
  if 0 <=? e then Zpos m * 2 ^ e else (Zpos m + 2 ^ (- e) - 1) / 2 ^ (- e).

(** [std::llround]: half away from zero; out of [int64_t] the value is
    unspecified. *)
Definition llround (x : double) : res Z :=
  match x with
  | S754_zero _ => Ok 0
  | S754_finite s m e =>
      let v := cond_Zopp s (round_half_up m e) in
      if bool_decide (- 2 ^ 63 ≤ v < 2 ^ 63) then Ok v else Err UndefinedBehaviour
  | _ => Err UndefinedBehaviour
  end.

(** [static_cast] of a [double] to a [w]-bit unsigned integer: truncation, and
    undefined out of range. *)
Definition uint_of_double (w : Z) (x : double) : res Z :=
  match x with
  | S754_zero _ => Ok 0
  | S754_finite false m e =>
      let v := truncate_pos m e in
      if v <? 2 ^ w then Ok v else Err UndefinedBehaviour
  | S754_finite true m e => if truncate_pos m e =? 0 then Ok 0 else Err UndefinedBehaviour
  | _ => Err UndefinedBehaviour
  end.

(** [std::ceil] of a number below [2^53] in magnitude, then cast to [uint32_t]. *)
Definition uint32_of_ceil (x : double) : res Z :=
  match x with
  | S754_zero _ => Ok 0
  | S754_finite false m e =>
      let v := ceil_pos m e in if v <? 2 ^ 32 then Ok v else Err UndefinedBehaviour
  | _ => Err UndefinedBehaviour
  end.

(** ** Object representation: [mw] fraction bits under [ew] exponent bits *)

Definition sf_of_bits (mw ew b : Z) : spec_float :=
  let m := b mod 2 ^ mw in
  let e := (b / 2 ^ mw) mod 2 ^ ew in
  let s := Z.testbit b (mw + ew) in
  let lo := emin (mw + 1) (2 ^ (ew - 1)) in
  if e =? 0 then
    match m with Zpos p => S754_finite s p lo | _ => S754_zero s end
  else if e =? 2 ^ ew - 1 then
    if m =? 0 then S754_infinity s else S754_nan
  else
    match m + 2 ^ mw with Zpos p => S754_finite s p (e + lo - 1) | _ => S754_nan end.

Definition bits_of_sf (mw ew : Z) (x : spec_float) : Z :=
  let lo := emin (mw + 1) (2 ^ (ew - 1)) in
  let sign (s : bool) := if s then 2 ^ (mw + ew) else 0 in
  match x with
  | S754_zero s => sign s
  | S754_infinity s => sign s + (2 ^ ew - 1) * 2 ^ mw
  | S754_nan => (2 ^ ew - 1) * 2 ^ mw + 2 ^ (mw - 1)
  | S754_finite s m e =>
      if Zpos m <? 2 ^ mw then sign s + Zpos m
      else sign s + (e - lo + 1) * 2 ^ mw + (Zpos m - 2 ^ mw)
  end.

Definition double_of_bits (b : Z) : double := sf_of_bits 52 11 b.
Definition bits_of_double (x : double) : Z := bits_of_sf 52 11 x.
Definition float_of_bits (b : Z) : float := sf_of_bits 23 8 b.

Definition valid_double (x : double) : Prop := valid_binary 53 1024 x = true.

(** A [w]-bit pattern read as a signed integer. *)
Definition to_signed (w b : Z) : Z :=
  let v := b mod 2 ^ w in if v <? 2 ^ (w - 1) then v else v - 2 ^ w.

(** ** Lemmas: the width of a mantissa *)

Lemma digits2_pos_log2 m : Zpos (digits2_pos m) = Z.log2 (Zpos m) + 1.
Proof.
  induction m as [m IH|m IH|]; cbn [digits2_pos]; [..|done].
  - rewrite Pos2Z.inj_succ, IH. change (Zpos m~1) with (2 * Zpos m + 1).
    rewrite Z.log2_succ_double by lia. lia.
  - rewrite Pos2Z.inj_succ, IH. change (Zpos m~0) with (2 * Zpos m).
    rewrite Z.log2_double by lia. lia.
Qed.

Lemma valid_double_finite s m e :
  valid_double (S754_finite s m e) →
  -1074 ≤ e ≤ 971 ∧ (Zpos m < 2 ^ 52 ∧ e = -1074 ∨ 2 ^ 52 ≤ Zpos m < 2 ^ 53).
Proof.
  unfold valid_double, valid_binary, bounded, canonical_mantissa, fexp, emin. intros H.
  apply andb_true_iff in H as [H1 H2]. apply Z.eqb_eq in H1. apply Z.leb_le in H2.
  rewrite digits2_pos_log2 in H1. pose proof (Z.log2_spec (Zpos m) eq_refl) as [Hl Hu].
  assert (Z.log2 (Zpos m) < 53) as Hlt by lia.
  assert (Zpos m < 2 ^ 53).
  { eapply Z.lt_le_trans; [exact Hu|]. apply Z.pow_le_mono_r; lia. }
  split; [lia|]. destruct (Z.eq_dec (Z.log2 (Zpos m)) 52) as [E|]; [right|left].
  - rewrite E in Hl. lia.
  - split; [|lia]. eapply Z.lt_le_trans; [exact Hu|]. apply Z.pow_le_mono_r; lia.
Qed.

(** ** Lemmas: the object representation *)

Lemma bits_of_double_range x : valid_double x → 0 ≤ bits_of_double x < 2 ^ 64.
Proof.
  intros H. unfold bits_of_double, bits_of_sf, emin. destruct x as [[]|[]| |s m e];
    try (split; [done|reflexivity]).
  apply valid_double_finite in H. destruct (Z.ltb_spec (Zpos m) (2 ^ 52)); destruct s; lia.
Qed.

Lemma double_of_bits_of_double x : valid_double x → double_of_bits (bits_of_double x) = x.
Proof.
  intros H. destruct x as [[]|[]| |s m e]; try reflexivity.
  apply valid_double_finite in H as [He Hm].
  unfold double_of_bits, bits_of_double, sf_of_bits, bits_of_sf, emin.
  change (52 + 11) with 63. change (3 - 2 ^ (11 - 1) - (52 + 1)) with (-1074).
  set (lo := if Zpos m <? 2 ^ 52 then Zpos m else (e - -1074 + 1) * 2 ^ 52 + (Zpos m - 2 ^ 52)).
  set (b := if _ <? _ then _ else _).
  assert (b = (if s then 2 ^ 63 else 0) + lo) as ->
    by (unfold b, lo; destruct (Z.ltb_spec (Zpos m) (2 ^ 52)); lia).
  assert (0 ≤ lo < 2 ^ 63) as Hlo
    by (unfold lo; destruct (Z.ltb_spec (Zpos m) (2 ^ 52)); lia).
  assert (Z.testbit ((if s then 2 ^ 63 else 0) + lo) 63 = s) as Hs.
  { destruct s.
    - rewrite Z.testbit_eqb by lia. replace ((2 ^ 63 + lo) / 2 ^ 63) with 1; [done|].
      apply Z.div_unique with lo; lia.
    - rewrite Z.testbit_eqb by lia. replace ((0 + lo) / 2 ^ 63) with 0; [done|].
      apply Z.div_unique with lo; lia. }
  rewrite Hs.
  assert (((if s then 2 ^ 63 else 0) + lo) mod 2 ^ 52 = lo mod 2 ^ 52) as ->.
  { destruct s; [|done]. replace (2 ^ 63 + lo) with (lo + 2 ^ 11 * 2 ^ 52) by lia.
    apply Z.mod_add. lia. }
  assert ((((if s then 2 ^ 63 else 0) + lo) / 2 ^ 52) mod 2 ^ 11 = (lo / 2 ^ 52) mod 2 ^ 11) as ->.
  { destruct s; [|done]. replace (2 ^ 63 + lo) with (lo + 2 ^ 11 * 2 ^ 52) by lia.
    rewrite Z.div_add by lia. by rewrite <- (Z.mod_add (lo / 2 ^ 52) 1 (2 ^ 11)) by lia. }
  clear Hs. unfold lo in *. destruct (Z.ltb_spec (Zpos m) (2 ^ 52)).
  - rewrite (Z.mod_small (Zpos m)), (Z.div_small (Zpos m)) by lia.
    change ((0 mod 2 ^ 11) =? 0) with true. cbv iota. f_equal. lia.
  - replace ((e - -1074 + 1) * 2 ^ 52 + (Zpos m - 2 ^ 52))
      with ((Zpos m - 2 ^ 52) + (e - -1074 + 1) * 2 ^ 52) by lia.
    rewrite Z.mod_add, Z.div_add by lia.
    rewrite (Z.mod_small (Zpos m - 2 ^ 52)), (Z.div_small (Zpos m - 2 ^ 52)), Z.add_0_l by lia.
    rewrite Z.mod_small by lia. rewrite !(proj2 (Z.eqb_neq _ _)) by lia.
    replace (Zpos m - 2 ^ 52 + 2 ^ 52) with (Zpos m) by lia. f_equal. lia.
Qed.

(** ** Lemmas: comparison is the lexicographic order of a key *)

Definition sf_key (x : spec_float) : Z * Z * Z :=
  match x with
  | S754_infinity true => (-2, 0, 0)
  | S754_finite true m e => (-1, - e, - Zpos m)
  | S754_zero _ | S754_nan => (0, 0, 0)
  | S754_finite false m e => (1, e, Zpos m)
  | S754_infinity false => (2, 0, 0)
  end.

Definition key_lt (a b : Z * Z * Z) : Prop :=
  let '(a1, a2, a3) := a in let '(b1, b2, b3) := b in
  a1 < b1 ∨ a1 = b1 ∧ (a2 < b2 ∨ a2 = b2 ∧ a3 < b3).

Definition is_nan (x : spec_float) : bool := match x with S754_nan => true | _ => false end.

Lemma SFcompare_key x y :
  is_nan x = false → is_nan y = false →
  match SFcompare x y with
  | Some Lt => key_lt (sf_key x) (sf_key y)
  | Some Gt => key_lt (sf_key y) (sf_key x)
  | Some Eq => sf_key x = sf_key y
  | None => False
  end.
Proof.
  intros Hx Hy. destruct x as [s1|s1| |s1 m1 e1], y as [s2|s2| |s2 m2 e2]; try done;
    destruct s1; try destruct s2; simpl; try lia; try done;
    change (Pos.compare_cont Eq m1 m2) with (m1 ?= m2)%positive;
    destruct (Z.compare_spec e1 e2); simpl; try lia;
    destruct (Pos.compare_spec m1 m2); simpl; try lia; congruence.
Qed.

Lemma SFltb_key x y :
  is_nan x = false → is_nan y = false → SFltb x y = true ↔ key_lt (sf_key x) (sf_key y).
Proof.
  intros Hx Hy. pose proof (SFcompare_key x y Hx Hy) as H. unfold SFltb.
  destruct (sf_key x) as [[a1 a2] a3], (sf_key y) as [[b1 b2] b3]. unfold key_lt in *.
  destruct (SFcompare x y) as [[]|]; split; intros; simplify_eq; try done; lia.
Qed.

Lemma SFleb_key x y :
  is_nan x = false → is_nan y = false → SFleb x y = true ↔ ¬ key_lt (sf_key y) (sf_key x).
Proof.
  intros Hx Hy. pose proof (SFcompare_key x y Hx Hy) as H. unfold SFleb.
  destruct (sf_key x) as [[a1 a2] a3], (sf_key y) as [[b1 b2] b3]. unfold key_lt in *.
  destruct (SFcompare x y) as [[]|]; split; intros; simplify_eq; try done; lia.
Qed.

Lemma SFltb_nan x y : SFltb x y = true → is_nan x = false ∧ is_nan y = false.
Proof. destruct x as [[]|[]| |[] ? ?], y as [[]|[]| |[] ? ?]; done. Qed.

Lemma SFleb_nan x y : SFleb x y = true → is_nan x = false ∧ is_nan y = false.
Proof. destruct x as [[]|[]| |[] ? ?], y as [[]|[]| |[] ? ?]; done. Qed.

(** [sf_order]: turn every comparison of numbers into inequalities on keys. *)
Ltac sf_order :=
  repeat match goal with
  | H : SFltb ?x ?y = true |- _ =>
      let Hn := fresh "Hn" in let Hm := fresh "Hm" in
      pose proof (SFltb_nan x y H) as [Hn Hm]; apply SFltb_key in H; [|done..]
  | H : SFleb ?x ?y = true |- _ =>
      let Hn := fresh "Hn" in let Hm := fresh "Hm" in
      pose proof (SFleb_nan x y H) as [Hn Hm]; apply SFleb_key in H; [|done..]
  end;
  try apply SFltb_key; try apply SFleb_key; try done;
  repeat match goal with H : context [sf_key _] |- _ => revert H end;
  repeat match goal with |- context [sf_key ?x] => generalize (sf_key x); intros [[? ?] ?] end;
  cbv beta iota delta [key_lt]; lia.

Lemma SFleb_trans x y z : SFleb x y = true → SFleb y z = true → SFleb x z = true.
Proof. intros. sf_order. Qed.

Lemma SFle_lt_trans x y z : SFleb x y = true → SFltb y z = true → SFltb x z = true.
Proof. intros. sf_order. Qed.

Lemma SFlt_le_trans x y z : SFltb x y = true → SFleb y z = true → SFltb x z = true.
Proof. intros. sf_order. Qed.

Lemma SFltb_leb x y : SFltb x y = true → SFleb x y = true.
Proof. intros. sf_order. Qed.

Lemma SFleb_refl x : is_nan x = false → SFleb x x = true.
Proof. intros. sf_order. Qed.

Lemma SFltb_not_leb x y : SFltb x y = true → SFleb y x = false.
Proof.
  intros H. destruct (SFleb y x) eqn:E; [exfalso|done].
  pose proof (SFltb_nan _ _ H) as [? ?]. apply SFltb_key in H; [|done..].
  by apply SFleb_key in E.
Qed.

Lemma SFnot_ltb_leb x y :
  is_nan x = false → is_nan y = false → SFltb x y = false → SFleb y x = true.
Proof.
  intros Hx Hy H. apply SFleb_key; [done..|]. intros Hk. apply SFltb_key in Hk; [|done..].
  congruence.
Qed.

(** ** Lemmas: exact conversions to [double]

    A mantissa of at most 53 bits is shifted up to exactly 53. *)

Definition norm_exp (m : positive) (e : Z) : Z := e + Z.log2 (Zpos m) - 52.
Definition norm_man (m : positive) : Z := Zpos m * 2 ^ (52 - Z.log2 (Zpos m)).

Lemma iter_xO m p : Zpos (Pos.iter xO m p) = Zpos m * 2 ^ Zpos p.
Proof.
  induction p as [|p IH] using Pos.peano_ind.
  { cbn [Pos.iter]. change (Zpos m~0) with (2 * Zpos m). lia. }
  rewrite Pos.iter_succ, Pos2Z.inj_succ, Z.pow_succ_r by lia.
  change (Zpos (Pos.iter xO m p)~0) with (2 * Zpos (Pos.iter xO m p)). rewrite IH. lia.
Qed.

Lemma norm_man_range m : Zpos m < 2 ^ 53 → 2 ^ 52 ≤ norm_man m < 2 ^ 53.
Proof.
  intros Hm. unfold norm_man. pose proof (Z.log2_spec (Zpos m) eq_refl) as [Hl Hu].
  assert (Z.log2 (Zpos m) < 53) as Hlog by (apply Z.log2_lt_pow2; lia).
  pose proof (Z.log2_nonneg (Zpos m)).
  replace (2 ^ 52) with (2 ^ Z.log2 (Zpos m) * 2 ^ (52 - Z.log2 (Zpos m)))
    by (rewrite <- Z.pow_add_r by lia; f_equal; lia).
  replace (2 ^ 53) with (2 ^ Z.succ (Z.log2 (Zpos m)) * 2 ^ (52 - Z.log2 (Zpos m)))
    by (rewrite <- Z.pow_add_r by lia; f_equal; lia).
  pose proof (Z.pow_pos_nonneg 2 (52 - Z.log2 (Zpos m)) ltac:(lia) ltac:(lia)). nia.
Qed.

Lemma binary_round_aux_exact s mz ez :
  Z.log2 (Zpos mz) = 52 → -1074 ≤ ez ≤ 971 →
  binary_round_aux 53 1024 s (Zpos mz) ez loc_Exact = S754_finite s mz ez.
Proof.
  intros Hl He. unfold binary_round_aux, shr_fexp, fexp, emin. cbn [Zdigits2].
  rewrite digits2_pos_log2, Hl. replace (Z.max (52 + 1 + ez - 53) (3 - 1024 - 53) - ez) with 0 by lia.
  cbn [shr shr_record_of_loc shr_m loc_of_shr_record round_nearest_even Zdigits2].
  rewrite digits2_pos_log2, Hl. replace (Z.max (52 + 1 + ez - 53) (3 - 1024 - 53) - ez) with 0 by lia.
  cbn [shr shr_record_of_loc shr_m]. rewrite (proj2 (Z.leb_le ez (1024 - 53))) by lia. done.
Qed.

Lemma binary_round_exact s m e :
  Zpos m < 2 ^ 53 → -1000 ≤ e ≤ 900 →
  ∃ m', binary_round 53 1024 s m e = S754_finite s m' (norm_exp m e) ∧ Zpos m' = norm_man m.
Proof.
  intros Hm He. pose proof (Z.log2_nonneg (Zpos m)) as Hl0.
  assert (Z.log2 (Zpos m) < 53) as Hl by (apply Z.log2_lt_pow2; lia).
  assert (fexp 53 1024 (Zpos (digits2_pos m) + e) = norm_exp m e) as Hf
    by (rewrite digits2_pos_log2; unfold fexp, emin, norm_exp; lia).
  unfold binary_round. rewrite Hf. unfold shl_align.
  pose proof (norm_man_range m Hm) as Hr.
  assert (∀ m', Zpos m' = norm_man m → Z.log2 (Zpos m') = 52) as Hlog.
  { intros m' ->. apply Z.log2_unique; lia. }
  destruct (norm_exp m e - e) as [|p|p] eqn:Ed; unfold norm_exp in Ed.
  - assert (Zpos m = norm_man m) as Heq.
    { unfold norm_man. replace (52 - Z.log2 (Zpos m)) with 0 by lia. lia. }
    exists m. split; [|done]. replace (norm_exp m e) with e by (unfold norm_exp; lia).
    apply binary_round_aux_exact; [by apply Hlog|lia].
  - lia.
  - assert (Zpos (Pos.iter xO m p) = norm_man m) as Heq.
    { rewrite iter_xO. unfold norm_man. f_equal. f_equal. lia. }
    exists (Pos.iter xO m p). split; [|done].
    apply binary_round_aux_exact; [by apply Hlog|unfold norm_exp; lia].
Qed.

(** A small integer as a [double]: its key, and its validity. *)
Definition int_key (z : Z) : Z * Z * Z :=
  match z with
  | Z0 => (0, 0, 0)
  | Zpos m => (1, norm_exp m 0, norm_man m)
  | Zneg m => (-1, - norm_exp m 0, - norm_man m)
  end.

Lemma double_of_Z_exact z :
  Z.abs z < 2 ^ 53 →
  is_nan (double_of_Z z) = false ∧ valid_double (double_of_Z z) ∧ sf_key (double_of_Z z) = int_key z.
Proof.
  intros Hz. unfold double_of_Z, binary_normalize.
  assert (∀ s m, Zpos m < 2 ^ 53 → is_nan (binary_round 53 1024 s m 0) = false ∧
    valid_double (binary_round 53 1024 s m 0) ∧
    sf_key (binary_round 53 1024 s m 0) =
      if s then (-1, - norm_exp m 0, - norm_man m) else (1, norm_exp m 0, norm_man m)) as Hr.
  { intros s m Hm. destruct (binary_round_exact s m 0 Hm) as (m' & -> & Hm'); [lia|].
    pose proof (norm_man_range m Hm). split; [done|]. split; [|simpl; rewrite ?Hm'; by destruct s].
    unfold valid_double, valid_binary, bounded, canonical_mantissa, fexp, emin.
    pose proof (Z.log2_nonneg (Zpos m)). assert (Z.log2 (Zpos m) < 53) by (apply Z.log2_lt_pow2; lia).
    assert (Z.log2 (Zpos m') = 52) as Hl by (apply Z.log2_unique; lia).
    rewrite digits2_pos_log2, Hl. unfold norm_exp in *. apply andb_true_iff. split; lia. }
  destruct z as [|m|m]; [done| |].
  - apply (Hr false). lia.
  - apply (Hr true). lia.
Qed.

(** Lexicographic order on (exponent, mantissa) is the order of the numbers. *)
Lemma norm_lt a b :
  Zpos a < 2 ^ 53 → Zpos b < 2 ^ 53 →
  Zpos a < Zpos b ↔ norm_exp a 0 < norm_exp b 0 ∨ norm_exp a 0 = norm_exp b 0 ∧ norm_man a < norm_man b.
Proof.
  intros Ha Hb. unfold norm_exp, norm_man.
  pose proof (Z.log2_nonneg (Zpos a)). pose proof (Z.log2_nonneg (Zpos b)).
  assert (Z.log2 (Zpos a) < 53) by (apply Z.log2_lt_pow2; lia).
  assert (Z.log2 (Zpos b) < 53) by (apply Z.log2_lt_pow2; lia). split.
  - intros Hlt. pose proof (Z.log2_le_mono (Zpos a) (Zpos b) ltac:(lia)).
    destruct (Z.eq_dec (Z.log2 (Zpos a)) (Z.log2 (Zpos b))) as [E|]; [right|left; lia].
    rewrite E. split; [done|]. apply Z.mul_lt_mono_pos_r; [|done]. apply Z.pow_pos_nonneg; lia.
  - intros [Hlt|[E Hlt]].
    + apply Z.log2_lt_cancel. lia.
    + assert (Z.log2 (Zpos a) = Z.log2 (Zpos b)) as E' by lia. rewrite E' in Hlt.
      apply Z.mul_lt_mono_pos_r in Hlt; [done|]. apply Z.pow_pos_nonneg; lia.
Qed.

Lemma int_key_lt a b :
  Z.abs a < 2 ^ 53 → Z.abs b < 2 ^ 53 → key_lt (int_key a) (int_key b) ↔ a < b.
Proof.
  intros Ha Hb. destruct a as [|a|a], b as [|b|b]; unfold int_key, key_lt; try lia.
  - rewrite (norm_lt a b) by lia. lia.
  - pose proof (norm_lt b a ltac:(lia) ltac:(lia)). lia.
Qed.

Lemma double_of_Z_ltb a b :
  Z.abs a < 2 ^ 53 → Z.abs b < 2 ^ 53 → SFltb (double_of_Z a) (double_of_Z b) = (a <? b).
Proof.
  intros Ha Hb. destruct (double_of_Z_exact a Ha) as (Na & _ & Ka), (double_of_Z_exact b Hb) as (Nb & _ & Kb).
  apply eq_true_iff_eq. rewrite SFltb_key, Ka, Kb, int_key_lt by done. by rewrite Z.ltb_lt.
Qed.

Lemma double_of_Z_leb a b :
  Z.abs a < 2 ^ 53 → Z.abs b < 2 ^ 53 → SFleb (double_of_Z a) (double_of_Z b) = (a <=? b).
Proof.
  intros Ha Hb. destruct (double_of_Z_exact a Ha) as (Na & _ & Ka), (double_of_Z_exact b Hb) as (Nb & _ & Kb).
  apply eq_true_iff_eq. rewrite SFleb_key, Ka, Kb, int_key_lt, Z.leb_le by done. lia.
Qed.

(** ** Lemmas: [float] values and their conversion *)

(** A [float] in canonical form: 24 bits of mantissa, or the least exponent. *)
Definition float_ok (x : float) : Prop :=
  match x with
  | S754_finite _ m e =>
      -149 ≤ e ≤ 104 ∧ Zpos m < 2 ^ 24 ∧ (e = -149 ∨ 2 ^ 23 ≤ Zpos m)
  | _ => True
  end.

Lemma float_of_bits_ok b : 0 ≤ b → float_ok (float_of_bits b).
Proof.
  intros Hb. unfold float_of_bits, sf_of_bits, emin. change (23 + 1) with 24.
  change (3 - 2 ^ (8 - 1) - 24) with (-149).
  pose proof (Z.mod_pos_bound b (2 ^ 23) ltac:(lia)) as Hm.
  pose proof (Z.mod_pos_bound (b / 2 ^ 23) (2 ^ 8) ltac:(lia)) as He.
  set (m := b mod 2 ^ 23) in *. set (e := (b / 2 ^ 23) mod 2 ^ 8) in *. clearbody m e.
  destruct (Z.eqb_spec e 0); [destruct m; cbn [float_ok]; lia|].
  destruct (Z.eqb_spec e (2 ^ 8 - 1)); [destruct (m =? 0); done|].
  destruct (m + 2 ^ 23) eqn:E; [lia| |lia]. cbn [float_ok]. lia.
Qed.

Definition float_key (x : float) : Z * Z * Z :=
  match x with
  | S754_finite true m e => (-1, - norm_exp m e, - norm_man m)
  | S754_finite false m e => (1, norm_exp m e, norm_man m)
  | _ => sf_key x
  end.

Lemma double_of_float_exact x :
  float_ok x → is_nan (double_of_float x) = is_nan x ∧ valid_double (double_of_float x) ∧
    sf_key (double_of_float x) = float_key x.
Proof.
  destruct x as [[]|[]| |s m e]; try done. intros (He & Hm & _). cbn [double_of_float].
  destruct (binary_round_exact s m e ltac:(lia) ltac:(lia)) as (m' & -> & Hm').
  pose proof (norm_man_range m ltac:(lia)). split; [done|]. split; [|simpl; rewrite ?Hm'; by destruct s].
  unfold valid_double, valid_binary, bounded, canonical_mantissa, fexp, emin.
  pose proof (Z.log2_nonneg (Zpos m)). assert (Z.log2 (Zpos m) < 53) by (apply Z.log2_lt_pow2; lia).
  assert (Z.log2 (Zpos m') = 52) as Hl by (apply Z.log2_unique; lia).
  rewrite digits2_pos_log2, Hl. unfold norm_exp in *. apply andb_true_iff. split; lia.
Qed.

Lemma float_norm_lt m1 e1 m2 e2 :
  Zpos m1 < 2 ^ 24 → Zpos m2 < 2 ^ 24 → -149 ≤ e1 → -149 ≤ e2 →
  (e1 = -149 ∨ 2 ^ 23 ≤ Zpos m1) → (e2 = -149 ∨ 2 ^ 23 ≤ Zpos m2) →
  e1 < e2 ∨ e1 = e2 ∧ Zpos m1 < Zpos m2 ↔
  norm_exp m1 e1 < norm_exp m2 e2 ∨ norm_exp m1 e1 = norm_exp m2 e2 ∧ norm_man m1 < norm_man m2.
Proof.
  intros H1 H2 E1 E2 C1 C2. pose proof (norm_lt m1 m2 ltac:(lia) ltac:(lia)) as Hn.
  unfold norm_exp in *.
  assert (∀ m, Zpos m < 2 ^ 24 → 0 ≤ Z.log2 (Zpos m) ≤ 23) as Hlog.
  { intros m Hm. split; [apply Z.log2_nonneg|]. assert (Z.log2 (Zpos m) < 24); [|lia].
    apply Z.log2_lt_pow2; lia. }
  assert (∀ m, 2 ^ 23 ≤ Zpos m → 23 ≤ Z.log2 (Zpos m)) as Hge.
  { intros m Hm. change 23 with (Z.log2 (2 ^ 23)) at 1. by apply Z.log2_le_mono. }
  pose proof (Hlog m1 H1). pose proof (Hlog m2 H2).
  destruct (Z.lt_trichotomy e1 e2) as [Hlt|[Heq|Hgt]].
  - destruct C2 as [|C2]; [lia|]. apply Hge in C2.
    destruct (Z.eq_dec (e1 + Z.log2 (Zpos m1)) (e2 + Z.log2 (Zpos m2))); [lia|]. lia.
  - subst e2. rewrite !Z.add_0_l in Hn. lia.
  - destruct C1 as [|C1]; [lia|]. apply Hge in C1. lia.
Qed.

Lemma float_key_lt x y :
  float_ok x → float_ok y → is_nan x = false → is_nan y = false →
  key_lt (float_key x) (float_key y) ↔ key_lt (sf_key x) (sf_key y).
Proof.
  intros Hx Hy Nx Ny.
  destruct x as [s1|s1| |s1 m1 e1]; try done; destruct y as [s2|s2| |s2 m2 e2]; try done.
  all: try (destruct s1; try destruct s2; cbn [float_key sf_key]; unfold key_lt; lia).
  all: try (destruct s1, s2; cbn [float_key sf_key]; unfold key_lt; lia).
  destruct Hx as (? & ? & ?), Hy as (? & ? & ?).
  pose proof (float_norm_lt m1 e1 m2 e2 ltac:(lia) ltac:(lia) ltac:(lia) ltac:(lia) ltac:(lia) ltac:(lia)).
  pose proof (float_norm_lt m2 e2 m1 e1 ltac:(lia) ltac:(lia) ltac:(lia) ltac:(lia) ltac:(lia) ltac:(lia)).
  destruct s1, s2; cbn [float_key sf_key]; unfold key_lt; lia.
Qed.

Lemma SFltb_nan_l x y : is_nan x = true → SFltb x y = false.
Proof. by destruct x as [[]|[]| |[] ? ?], y as [[]|[]| |[] ? ?]. Qed.

Lemma SFltb_nan_r x y : is_nan y = true → SFltb x y = false.
Proof. by destruct x as [[]|[]| |[] ? ?], y as [[]|[]| |[] ? ?]. Qed.

(** Widening keeps the order. *)
Lemma double_of_float_ltb x y :
  float_ok x → float_ok y → SFltb (double_of_float x) (double_of_float y) = SFltb x y.
Proof.
  intros Hx Hy. destruct (double_of_float_exact x Hx) as (Nx & _ & Kx).
  destruct (double_of_float_exact y Hy) as (Ny & _ & Ky).
  destruct (is_nan x) eqn:Ex; [by rewrite !SFltb_nan_l by congruence|].
  destruct (is_nan y) eqn:Ey; [by rewrite !SFltb_nan_r by congruence|].
  apply eq_true_iff_eq. rewrite !SFltb_key, Kx, Ky by congruence. by apply float_key_lt.
Qed.
