(* ===== verification/Schema.v ===== *)
(** * Schemas and predicates ([include/sextant/schema.hpp])

    The typed filter columns an index declares, the size of a leaf's filter
    summary, and the predicates of a query. Strings are byte lists. *)
From S2P Require Import Prelude Doubles.

Inductive ColumnType := Int32 | Int64 | Float | Bool | String | Set_.

#[export] Instance ColumnType_eq_dec : EqDecision ColumnType.
Proof. solve_decision. Defined.

Definition column_type_width (t : ColumnType) : Z :=
  match t with
  | Int32 => 4
  | Int64 => 8
  | Float => 4
  | Bool => 1
  | String => 0
  | Set_ => 0
  end.

Definition is_fixed_width (t : ColumnType) : bool := negb (column_type_width t =? 0).

Record FilterColumn := mkColumn {
  col_name : list Z;
  col_type : ColumnType;
  nullable : bool;
}.

Record Schema := mkSchema {
  columns : list FilterColumn;
  has_payload : bool;
}.

Definition schema_empty (s : Schema) : bool :=
  match columns s with [] => negb (has_payload s) | _ => false end.

Definition n_filter_columns (s : Schema) : Z := u32 (Z.of_nat (length (columns s))).

(** [find]: the first column of that name. *)
Fixpoint find_col (cols : list FilterColumn) (name : list Z) : option FilterColumn :=
  match cols with
  | [] => None
  | col :: rest => if decide (col_name col = name) then Some col else find_col rest name
  end.

Definition find (s : Schema) (name : list Z) : option FilterColumn := find_col (columns s) name.

(** ** Sizes of blooms and summaries *)

Definition kLn2 : double := S754_finite false 6243314768165359 (-53).
Definition kNegLn001 : double := S754_finite false 5184960683398421 (-50).

(** [n * kNegLn001 / (kLn2 * kLn2)] in [double] arithmetic. *)
Definition bloom_raw_bits (n : Z) : double :=
  SFdiv 53 1024 (SFmul 53 1024 (double_of_Z n) kNegLn001) (SFmul 53 1024 kLn2 kLn2).

Definition bloom_max_bytes (threshold : Z) : res Z :=
  n_bits ← uint_of_double 64 (bloom_raw_bits threshold);
  mret (u32 (u64 (n_bits + 7) / 8)).

Definition is_numeric (t : ColumnType) : bool :=
  match t with Int32 | Int64 | Float => true | _ => false end.

Definition count_type (f : ColumnType → bool) (cols : list FilterColumn) : Z :=
  Z.of_nat (length (filter (λ c, f (col_type c) = true) cols)).

Definition summary_size (s : Schema) (bloom_threshold : Z) : res Z :=
  match columns s with
  | [] => mret 0
  | cols =>
      let n_numeric := count_type is_numeric cols in
      let n_string_bloom := count_type (λ t, bool_decide (t = String ∨ t = Set_)) cols in
      bloom_bytes ← bloom_max_bytes bloom_threshold;
      mret (u32 (3 + n_numeric * (1 + 8 + 8) + n_string_bloom * (1 + 2 + bloom_bytes)))
  end.

(** ** Predicates *)

Inductive PredicateOp :=
  | OpEq | OpNotEq | OpLt | OpLe | OpGt | OpGe | OpBetween | OpPrefix | OpIn | OpNotIn
  | OpContains | OpContainsAny | OpContainsAll
  | OpGeoRadius | OpGeoBox
  | OpIsNull | OpIsNotNull.

#[export] Instance PredicateOp_eq_dec : EqDecision PredicateOp.
Proof. solve_decision. Defined.

Record Predicate := mkPredicate {
  column : list Z;
  op : PredicateOp;
  value : double;
  value2 : double;
  value3 : double;
  value4 : double;
  radius_km : double;
  geo_lng_column : list Z;
  str_value : list Z;
  values : list (list Z);
}.

Definition predicate_applies_to (o : PredicateOp) (type : ColumnType) : bool :=
  let numeric := bool_decide (type = Int32) || bool_decide (type = Int64) ||
                 bool_decide (type = Float) in
  match o with
  | OpEq | OpNotEq =>
      numeric || bool_decide (type = String) || bool_decide (type = Bool)
  | OpIn | OpNotIn => numeric || bool_decide (type = String)
  | OpLt | OpLe | OpGt | OpGe | OpBetween => numeric
  | OpPrefix => bool_decide (type = String)
  | OpContains | OpContainsAny | OpContainsAll => bool_decide (type = Set_)
  | OpGeoRadius | OpGeoBox => numeric
  | OpIsNull | OpIsNotNull => true
  end.

(** ** Lemmas *)

Lemma bloom_max_bytes_150 : bloom_max_bytes 150 = Ok 180.
Proof. reflexivity. Qed.

Lemma column_type_width_pos t : is_fixed_width t = true → 0 < column_type_width t ≤ 8.
Proof. by destruct t. Qed.
