(* ===== verification/FilterHash.v ===== *)
(** * Filter hashes and bloom filters ([src/tree/filter_hash.hpp])

    [rapidhash] is third-party code: a parameter, any function.  The bloom
    insertion loop is that of [write_filter_summary], the membership test that
    of [src/tree/filter_scan.hpp]. *)
From S2P Require Import Prelude.

(** [rapidhash_withSeed(data, len, seed)]. *)
Class RapidHash := rapidhash_withSeed : list Z → Z → Z.

Definition kFilterHashSeed : Z := 0x5E784A6E5F.
Definition kBloomK : nat := 3.

Section hash.
Context `{RapidHash}.

Definition filter_hash (data : list Z) : Z :=
  let h := u64 (rapidhash_withSeed data kFilterHashSeed) in
  u32 (Z.lxor h (Z.shiftr h 32)).

Lemma filter_hash_range data : 0 ≤ filter_hash data < 2 ^ 32.
Proof. apply Z.mod_pos_bound. lia. Qed.
End hash.

(** ** Probes *)

Record BloomProbe := mkProbe { h1 : Z; h2 : Z }.

Definition bloom_probe (hash32 : Z) : BloomProbe :=
  mkProbe hash32 (Z.lor (Z.shiftr hash32 16) 1).

Definition bloom_bit (bp : BloomProbe) (k n_bits : Z) : Z :=
  u32 (h1 bp + k * h2 bp) mod n_bits.

(** ** Bit arrays inside a buffer, at offset [p] *)

(** [bloom[bit / 8] |= 1 << (bit % 8)]. *)
Definition bloom_set_bit (buf : list Z) (p bit : Z) : res (list Z) :=
  b ← mem_uint buf (p + bit / 8) 1;
  mem_write buf (p + bit / 8) [u8 (Z.lor b (Z.shiftl 1 (bit mod 8)))].

(** [(bloom[bit / 8] >> (bit % 8)) & 1]. *)
Definition bloom_get_bit (buf : list Z) (p bit : Z) : res bool :=
  b ← mem_uint buf (p + bit / 8) 1;
  mret (negb (Z.land (Z.shiftr b (bit mod 8)) 1 =? 0)).

(** The three probes of one hash. *)
Definition bloom_add (p n_bits : Z) (h : Z) (buf : list Z) : res (list Z) :=
  for_range kBloomK 0 (λ k buf, bloom_set_bit buf p (bloom_bit (bloom_probe h) k n_bits)) buf.

(** The hashes of a column, in turn. *)
Fixpoint bloom_fill (p n_bits : Z) (hashes : list Z) (buf : list Z) : res (list Z) :=
  match hashes with
  | [] => mret buf
  | h :: rest => buf' ← bloom_add p n_bits h buf; bloom_fill p n_bits rest buf'
  end.

Fixpoint bloom_check_loop (fuel : nat) (buf : list Z) (p n_bits h k : Z) : res bool :=
  match fuel with
  | O => mret true
  | S fuel' =>
      set ← bloom_get_bit buf p (bloom_bit (bloom_probe h) k n_bits);
      if (set : bool) then bloom_check_loop fuel' buf p n_bits h (k + 1) else mret false
  end.

Definition bloom_check (buf : list Z) (p n_bits hash : Z) : res bool :=
  if n_bits =? 0 then mret true else bloom_check_loop kBloomK buf p n_bits hash 0.

(** ** Lemmas *)

(** The value of a bloom's bit. *)
Definition bloom_has (buf : list Z) (p bit : Z) : bool :=
  Z.testbit (byte_at buf (Z.to_nat (p + bit / 8))) (bit mod 8).

(** All probes of [h] are set. *)
Definition bloom_in (buf : list Z) (p n_bits h : Z) : Prop :=
  ∀ k, 0 ≤ k < 3 → bloom_has buf p (bloom_bit (bloom_probe h) k n_bits) = true.

(** [alloc] bytes of the buffer at [p] hold a bloom of [n_bits] bits. *)
Definition bloom_fits (buf : list Z) (p n_bits alloc : Z) : Prop :=
  0 ≤ p ∧ 0 < n_bits ≤ 8 * alloc ∧ p + alloc ≤ Z.of_nat (length buf).

Lemma bloom_bit_range bp k n : 0 < n → 0 ≤ bloom_bit bp k n < n.
Proof. intros. by apply Z.mod_pos_bound. Qed.

Lemma mem_uint_1 buf off :
  0 ≤ off < Z.of_nat (length buf) → mem_uint buf off 1 = Ok (byte_at buf (Z.to_nat off)).
Proof.
  intros Hoff. unfold mem_uint, mem_read. rewrite bool_decide_true by lia. simpl.
  unfold bytes_at. change (Z.to_nat (Z.of_nat 1)) with 1%nat.
  assert (byte_at (drop (Z.to_nat off) buf) 0 = byte_at buf (Z.to_nat off)) as <-
    by (rewrite byte_at_drop; f_equal; lia).
  destruct (drop (Z.to_nat off) buf) as [|b l] eqn:E.
  - apply (f_equal length) in E. rewrite length_drop in E. simpl in E. lia.
  - unfold byte_at. simpl. f_equal. lia.
Qed.

Lemma bit_in_byte bit n alloc : 0 ≤ bit < n → n ≤ 8 * alloc → 0 ≤ bit / 8 < alloc.
Proof. intros. Z.div_mod_to_equations. lia. Qed.

Lemma bloom_set_bit_ok buf p n alloc bit :
  bloom_fits buf p n alloc → Forall is_byte buf → 0 ≤ bit < n →
  ∃ buf', bloom_set_bit buf p bit = Ok buf' ∧ same_outside buf buf' p (p + alloc) ∧
    Forall is_byte buf' ∧
    ∀ b, 0 ≤ b → bloom_has buf' p b = (bool_decide (b = bit) || bloom_has buf p b).
Proof.
  intros (Hp & Hn & Hlen) Hby Hbit. pose proof (bit_in_byte bit n alloc Hbit ltac:(lia)) as Hq.
  unfold bloom_set_bit. rewrite mem_uint_1 by lia. rewrite bind_Ok.
  set (off := p + bit / 8) in *. set (b0 := byte_at buf (Z.to_nat off)).
  assert (is_byte b0) as Hb0 by (by apply byte_at_is_byte).
  destruct (mem_write_ok buf off [u8 (Z.lor b0 (Z.shiftl 1 (bit mod 8)))]) as (buf' & E & Hh & Hs);
    [lia|simpl; lia|].
  assert (Z.lor b0 (Z.shiftl 1 (bit mod 8)) `mod` 2 ^ 8 = Z.lor b0 (Z.shiftl 1 (bit mod 8))) as Hu.
  { pose proof (Z.mod_pos_bound bit 8). apply Z.mod_small. apply is_byte_high.
    - apply Z.lor_nonneg. split; [apply Hb0|apply Z.shiftl_nonneg; lia].
    - intros i Hi. rewrite Z.lor_spec, Z.shiftl_spec, testbit_byte_high by (done || lia).
      simpl. change 1 with (2 ^ 0). rewrite Z.pow2_bits_eqb by lia. lia. }
  exists buf'. split; [done|]. split; [|split].
  - eapply (same_outside_trans buf buf buf' p p); [apply same_outside_refl|exact Hs|..]; simpl; lia.
  - unfold mem_write in E. case_bool_decide; [|done]. simplify_eq.
    unfold bytes_put. apply Forall_app; split; [by apply Forall_take|].
    apply Forall_app; split; [|by apply Forall_drop].
    apply Forall_singleton. apply Z.mod_pos_bound. lia.
  - intros b Hb. unfold bloom_has. destruct (Z.eq_dec (b / 8) (bit / 8)) as [Hd|Hd].
    + rewrite Hd. fold off. fold b0.
      assert (byte_at buf' (Z.to_nat off) = Z.lor b0 (Z.shiftl 1 (bit mod 8))) as ->.
      { destruct Hh as (_ & _ & Hh). rewrite <- Hu. fold (u8 (Z.lor b0 (Z.shiftl 1 (bit mod 8)))).
        apply (f_equal (λ l, byte_at l 0)) in Hh. rewrite byte_at_bytes_at in Hh.
        simpl in Hh. rewrite Nat.add_0_r in Hh. exact Hh. }
      pose proof (Z.mod_pos_bound bit 8). pose proof (Z.mod_pos_bound b 8).
      rewrite Z.lor_spec, Z.shiftl_spec, orb_comm by lia. f_equal. change 1 with (2 ^ 0).
      rewrite Z.pow2_bits_eqb by lia. case_bool_decide; apply Z.eqb_eq || apply Z.eqb_neq;
        Z.div_mod_to_equations; lia.
    + rewrite bool_decide_false by congruence. simpl. f_equal.
      destruct Hs as [_ Hs]. apply Hs. simpl. unfold off. Z.div_mod_to_equations; lia.
Qed.

Lemma bloom_add_ok buf p n alloc h :
  bloom_fits buf p n alloc → Forall is_byte buf →
  ∃ buf', bloom_add p n h buf = Ok buf' ∧ same_outside buf buf' p (p + alloc) ∧
    Forall is_byte buf' ∧ bloom_in buf' p n h ∧
    ∀ b, 0 ≤ b → bloom_has buf p b = true → bloom_has buf' p b = true.
Proof.
  intros Hfit Hby. unfold bloom_add.
  destruct (for_range_ok (λ k b', same_outside buf b' p (p + alloc) ∧ Forall is_byte b' ∧
      (∀ j, 0 ≤ j < k → bloom_has b' p (bloom_bit (bloom_probe h) j n) = true) ∧
      ∀ b, 0 ≤ b → bloom_has buf p b = true → bloom_has b' p b = true)
    (λ k buf, bloom_set_bit buf p (bloom_bit (bloom_probe h) k n)) kBloomK 0 buf)
    as (buf' & E & Hs & Hby' & Hin & Hmono).
  - split_and!; [apply same_outside_refl|done|lia|done].
  - intros k b Hk (Hs & Hby' & Hin & Hmono).
    destruct (bloom_set_bit_ok b p n alloc (bloom_bit (bloom_probe h) k n))
      as (b' & E & Hs' & Hby'' & Hset).
    + destruct Hfit as (? & ? & ?). pose proof (same_outside_length _ _ _ _ Hs).
      unfold bloom_fits; lia.
    + done.
    + apply bloom_bit_range. apply Hfit.
    + exists b'. split; [done|]. split_and!; [|done|..].
      * eapply same_outside_trans; [exact Hs|exact Hs'|lia..].
      * intros j Hj. pose proof (bloom_bit_range (bloom_probe h) j n ltac:(apply Hfit)).
        rewrite Hset by lia. apply orb_true_iff. destruct (Z.eq_dec j k) as [->|].
        -- left. by apply bool_decide_eq_true.
        -- right. apply Hin. lia.
      * intros c Hc Hb. rewrite Hset by done. apply orb_true_iff. right. by apply Hmono.
  - exists buf'. split_and!; [done..| |done]. intros k Hk. apply Hin. exact Hk.
Qed.

Lemma bloom_fill_ok p n alloc hashes buf :
  bloom_fits buf p n alloc → Forall is_byte buf →
  ∃ buf', bloom_fill p n hashes buf = Ok buf' ∧ same_outside buf buf' p (p + alloc) ∧
    Forall is_byte buf' ∧ (∀ h, h ∈ hashes → bloom_in buf' p n h) ∧
    ∀ b, 0 ≤ b → bloom_has buf p b = true → bloom_has buf' p b = true.
Proof.
  revert buf. induction hashes as [|h hashes IH]; intros buf Hfit Hby; simpl.
  - exists buf. split_and!; [done|apply same_outside_refl|done|by intros ? ?%not_elem_of_nil|done].
  - destruct (bloom_add_ok buf p n alloc h Hfit Hby) as (b1 & E1 & Hs1 & Hby1 & Hin1 & Hm1).
    assert (bloom_fits b1 p n alloc) as Hfit1.
    { destruct Hfit as (? & ? & ?). pose proof (same_outside_length _ _ _ _ Hs1).
      unfold bloom_fits; lia. }
    destruct (IH b1 Hfit1 Hby1) as (b2 & E2 & Hs2 & Hby2 & Hin2 & Hm2).
    exists b2. rewrite E1, bind_Ok. split_and!; [done| |done|..].
    + eapply same_outside_trans; [exact Hs1|exact Hs2|lia..].
    + intros h' [->|Hh']%elem_of_cons; [|by apply Hin2].
      intros k Hk. apply Hm2; [|by apply Hin1].
      apply bloom_bit_range, Hfit.
    + intros b Hb Hh. apply Hm2; [done|]. by apply Hm1.
Qed.

Lemma bloom_get_bit_ok buf p n alloc bit :
  bloom_fits buf p n alloc → 0 ≤ bit < n → bloom_get_bit buf p bit = Ok (bloom_has buf p bit).
Proof.
  intros (Hp & Hn & Hlen) Hbit. pose proof (bit_in_byte bit n alloc Hbit ltac:(lia)) as Hq.
  unfold bloom_get_bit. rewrite mem_uint_1 by lia. rewrite bind_Ok. unfold bloom_has.
  rewrite shiftr_land_1 by (apply Z.mod_pos_bound; lia). by destruct (Z.testbit _ _).
Qed.

(** The check answers, and answers [true] exactly when all probes are set. *)
Lemma bloom_check_ok buf p n alloc h :
  bloom_fits buf p n alloc →
  ∃ r, bloom_check buf p n h = Ok r ∧ (r = true ↔ bloom_in buf p n h).
Proof.
  intros Hfit. assert (0 < n) as Hn by apply Hfit.
  unfold bloom_check. rewrite (proj2 (Z.eqb_neq n 0)) by lia.
  unfold bloom_in, kBloomK. cbn [bloom_check_loop].
  rewrite !(bloom_get_bit_ok buf p n alloc) by (done || apply bloom_bit_range; done).
  rewrite !bind_Ok. change (0 + 1) with 1. change (1 + 1) with 2.
  destruct (bloom_has buf p (bloom_bit (bloom_probe h) 0 n)) eqn:E0;
    [|exists false; split; [done|]; split; [done|]; intros Hall; rewrite Hall in E0 by lia; done].
  destruct (bloom_has buf p (bloom_bit (bloom_probe h) 1 n)) eqn:E1;
    [|exists false; split; [done|]; split; [done|]; intros Hall; rewrite Hall in E1 by lia; done].
  destruct (bloom_has buf p (bloom_bit (bloom_probe h) 2 n)) eqn:E2;
    [|exists false; split; [done|]; split; [done|]; intros Hall; rewrite Hall in E2 by lia; done].
  exists true. split; [done|]. split; [|done]. intros _ k Hk.
  assert (k = 0 ∨ k = 1 ∨ k = 2) as [-> |[-> | ->]] by lia; done.
Qed.

(** C15: a bloom filter never forgets: after the insertion loop has run over a
    list of hashes, in a region whatever its previous content, the loop has
    changed that region only, and every hash that passed [bloom_check] before or
    is in the list passes it after. *)
Theorem bloom_no_false_negative buf p n alloc hashes :
  bloom_fits buf p n alloc → Forall is_byte buf →
  ∃ buf', bloom_fill p n hashes buf = Ok buf' ∧ same_outside buf buf' p (p + alloc) ∧
    ∀ h, h ∈ hashes ∨ bloom_check buf p n h = Ok true → bloom_check buf' p n h = Ok true.
Proof.
  intros Hfit Hby. destruct (bloom_fill_ok p n alloc hashes buf Hfit Hby)
    as (buf' & E & Hs & _ & Hin & Hm).
  exists buf'. split; [done|]. split; [done|].
  assert (bloom_fits buf' p n alloc) as Hfit'.
  { destruct Hfit as (? & ? & ?). pose proof (same_outside_length _ _ _ _ Hs).
    unfold bloom_fits; lia. }
  intros h Hh. destruct (bloom_check_ok buf' p n alloc h Hfit') as (r & Er & Hr).
  rewrite Er. f_equal. apply Hr. destruct Hh as [Hh|Hh].
  - by apply Hin.
  - destruct (bloom_check_ok buf p n alloc h Hfit) as (r0 & Er0 & Hr0).
    rewrite Er0 in Hh. injection Hh as ->. intros k Hk.
    apply Hm; [|by apply (proj1 Hr0)]. apply bloom_bit_range, Hfit.
Qed.

Lemma bloom_no_false_negative_witness :
  ∃ buf', bloom_fill 1 16 [7; 123456789] (replicate 4 0) = Ok buf' ∧
    bloom_check buf' 1 16 123456789 = Ok true.
Proof.
  destruct (bloom_no_false_negative (replicate 4 0) 1 16 2 [7; 123456789]) as (b & E & _ & Hb).
  - by vm_compute.
  - by repeat constructor.
  - exists b. split; [exact E|]. apply Hb. left. right. left.
Defined.
