(* ===== verification/FilterColumns.v ===== *)
(** * Filter columns of a leaf: writing, reading back, parsing, row selection

    Models [src/tree/filter_column_write.hpp] (sizes and the column writer),
    [src/tree/filter_column_read.hpp] and [parse_filter_columns] with the
    accessors of [src/tree/filter_scan.cpp].  A [ColumnData] denotes one cell
    per row; the theorems say that every operation does to the cells what it
    should, whatever offsets the source data has. *)
From S2P Require Import Prelude Schema Doubles FilterHash.

(** ** In-memory column data *)

Record ColumnData := mkCD {
  cd_type : ColumnType;
  null_mask : list Z;
  fixed_data : list Z;
  str_offsets : list Z;
  str_lengths : list Z;
  str_data : list Z;
  set_counts : list Z;
  set_offsets : list Z;
  set_elem_lengths : list Z;
  set_elem_data : list Z;
}.

Definition empty_cd : ColumnData := mkCD Int32 [] [] [] [] [] [] [] [] [].

Definition align4 (v : Z) : Z := Z.land (u64 (v + 3)) (UINT64_MAX - 3).

(** [offs[k + 1] = offs[k] + lengths[k]]: where each set element's bytes start. *)
Fixpoint byte_offs (acc : Z) (lens : list Z) : list Z :=
  acc :: match lens with [] => [] | l :: rest => byte_offs (u32 (acc + l)) rest end.

(** Element [k] of a set column: its length and its bytes. *)
Definition set_elem (fc : ColumnData) (k : Z) : res (Z * list Z) :=
  elen ← vec_get (set_elem_lengths fc) k;
  bo ← vec_get (byte_offs 0 (set_elem_lengths fc)) k;
  s ← mem_read (set_elem_data fc) bo elen;
  mret (elen, s).

(** ** [filter_columns_bytes] *)

Definition column_bytes (count : Z) (col : FilterColumn) (filter_cols : list ColumnData)
    (c : Z) (total : Z) : res Z :=
  total ← match col_type col with
  | Int32 | Int64 | Float | Bool => mret (u64 (total + count * column_type_width (col_type col)))
  | String =>
      let total := align4 (u64 (total + count * (4 + 2))) in
      let total := u64 (total + count * 4) in
      fc ← vec_get filter_cols c;
      str_bytes ← for_range (Z.to_nat count) 0 (λ i str_bytes,
        len ← vec_get (str_lengths fc) i; mret (u64 (str_bytes + len))) 0;
      mret (u64 (total + str_bytes))
  | Set_ =>
      let total := align4 (u64 (total + count * 1)) in
      let total := u64 (total + count * 4) in
      fc ← vec_get filter_cols c;
      '(n_elem, data_bytes) ← for_range (Z.to_nat count) 0 (λ i '(n_elem, data_bytes),
        ec ← vec_get (set_counts fc) i;
        off ← vec_get (set_offsets fc) i;
        data_bytes ← for_range (Z.to_nat ec) 0 (λ e data_bytes,
          elen ← vec_get (set_elem_lengths fc) (u32 (off + e));
          mret (u64 (data_bytes + (2 + elen)))) data_bytes;
        mret (u64 (n_elem + ec), data_bytes)) (0, 0);
      mret (u64 (u64 (total + n_elem * 4) + data_bytes))
  end;
  mret (align4 (if nullable col then u64 (total + count) else total)).

Fixpoint columns_bytes_loop (count : Z) (cols : list FilterColumn)
    (filter_cols : list ColumnData) (c total : Z) : res Z :=
  match cols with
  | [] => mret total
  | col :: cols' =>
      total ← column_bytes count col filter_cols c total;
      columns_bytes_loop count cols' filter_cols (c + 1) total
  end.

Definition filter_columns_bytes (count : Z) (schema : Schema)
    (filter_cols : list ColumnData) : res Z :=
  if bool_decide (columns schema = []) || bool_decide (filter_cols = []) then mret 0
  else columns_bytes_loop count (columns schema) filter_cols 0 0.

(** ** [write_filter_columns]

    The state is the buffer and the write pointer, an offset into it; the
    reinterpreted arrays are offsets too, little-endian. *)
Section write.
Context `{RapidHash}.

Definition write_string_row (fc : ColumnData) (offsets lengths hashes : Z) (i : Z)
    (st : list Z * Z * Z) : res (list Z * Z * Z) :=
  let '(buf, p, acc) := st in
  len ← vec_get (str_lengths fc) i;
  buf ← mem_write buf (offsets + 4 * i) (le_enc 4 acc);
  buf ← mem_write buf (lengths + 2 * i) (le_enc 2 len);
  off ← vec_get (str_offsets fc) i;
  s ← mem_read (str_data fc) off len;
  buf ← mem_write buf (hashes + 4 * i) (le_enc 4 (filter_hash s));
  buf ← mem_write buf p s;
  mret (buf, p + len, u32 (acc + len)).

Definition write_set_elem (fc : ColumnData) (hashes elem_acc off : Z) (e : Z)
    (st : list Z * Z) : res (list Z * Z) :=
  let '(buf, p) := st in
  '(elen, s) ← set_elem fc (u32 (off + e));
  buf ← mem_write buf (hashes + 4 * u32 (elem_acc + e)) (le_enc 4 (filter_hash s));
  buf ← mem_write buf p (le_enc 2 elen);
  buf ← mem_write buf (p + 2) s;
  mret (buf, p + 2 + elen).

Definition write_set_row (fc : ColumnData) (counts offsets hashes : Z) (i : Z)
    (st : list Z * Z * Z) : res (list Z * Z * Z) :=
  let '(buf, p, elem_acc) := st in
  ec ← vec_get (set_counts fc) i;
  buf ← mem_write buf (counts + i) (le_enc 1 ec);
  buf ← mem_write buf (offsets + 4 * i) (le_enc 4 elem_acc);
  off ← vec_get (set_offsets fc) i;
  '(buf, p) ← for_range (Z.to_nat ec) 0 (write_set_elem fc hashes elem_acc off) (buf, p);
  mret (buf, p, u32 (elem_acc + ec)).

(** The data section of a column (the [switch] on its type). *)
Definition write_data (count : Z) (col : FilterColumn) (fc : ColumnData)
    (buf : list Z) (p : Z) : res (list Z * Z) :=
  let n := Z.to_nat count in
  match col_type col with
  | Int32 | Int64 | Float | Bool =>
      let w := column_type_width (col_type col) in
      buf ← (if 0 <? count then bs ← mem_read (fixed_data fc) 0 (count * w); mem_write buf p bs
             else mret buf);
      mret (buf, p + count * w)
  | String =>
      let offsets := p in
      let lengths := p + count * 4 in
      let hashes := align4 (lengths + count * 2) in
      '(buf, p, _) ← for_range n 0 (write_string_row fc offsets lengths hashes)
        (buf, hashes + count * 4, 0);
      mret (buf, p)
  | Set_ =>
      let counts := p in
      let offsets := align4 (p + count * 1) in
      let hashes := offsets + count * 4 in
      total_elem ← for_range n 0 (λ i t, ec ← vec_get (set_counts fc) i; mret (u32 (t + ec))) 0;
      '(buf, p, _) ← for_range n 0 (write_set_row fc counts offsets hashes)
        (buf, hashes + total_elem * 4, 0);
      mret (buf, p)
  end.

(** The validity bytes of a nullable column. *)
Definition write_nulls (count : Z) (col : FilterColumn) (fc : ColumnData)
    (buf : list Z) (p : Z) : res (list Z * Z) :=
  if nullable col then
    buf ← (if 0 <? count then
             match null_mask fc with
             | [] => mem_write buf p (replicate (Z.to_nat count) 0)
             | _ => bs ← mem_read (null_mask fc) 0 count; mem_write buf p bs
             end
           else mret buf);
    mret (buf, p + count)
  else mret (buf, p).

Definition write_column (count : Z) (col : FilterColumn) (fc : ColumnData)
    (buf : list Z) (p : Z) : res (list Z * Z) :=
  '(buf, p) ← write_data count col fc buf p;
  '(buf, p) ← write_nulls count col fc buf p;
  mret (buf, align4 p).

Fixpoint write_columns_loop (count : Z) (cols : list FilterColumn)
    (filter_cols : list ColumnData) (c : Z) (buf : list Z) (p : Z) : res (list Z * Z) :=
  match cols with
  | [] => mret (buf, p)
  | col :: cols' =>
      fc ← vec_get filter_cols c;
      '(buf, p) ← write_column count col fc buf p;
      write_columns_loop count cols' filter_cols (c + 1) buf p
  end.

Definition write_filter_columns (buf : list Z) (count : Z) (schema : Schema)
    (filter_cols : list ColumnData) : res (list Z * Z) :=
  if bool_decide (columns schema = []) || bool_decide (filter_cols = []) then mret (buf, 0)
  else write_columns_loop count (columns schema) filter_cols 0 buf 0.
End write.

(** ** [read_filter_columns] *)

Definition read_string_lengths (buf : list Z) (lengths count : Z) :
    res (list Z * list Z * Z) :=
  for_range (Z.to_nat count) 0 (λ i '(offs, lens, total),
    l ← mem_uint buf (lengths + 2 * i) 2;
    mret (offs ++ [total], lens ++ [l], u32 (total + l))) ([], [], 0).

Definition read_set_elem (buf : list Z) (_ : Z) (st : Z * list Z * list Z * Z) :
    res (Z * list Z * list Z * Z) :=
  let '(p, lens, data, acc) := st in
  elen ← mem_uint buf p 2;
  bs ← mem_read buf (p + 2) elen;
  mret (p + 2 + elen, lens ++ [elen], data ++ bs, u32 (acc + 1)).

Definition read_set_row (buf : list Z) (counts : list Z) (i : Z)
    (st : list Z * (Z * list Z * list Z * Z)) : res (list Z * (Z * list Z * list Z * Z)) :=
  let '(offs, (p, lens, data, acc)) := st in
  ec ← vec_get counts i;
  st' ← for_range (Z.to_nat ec) 0 (read_set_elem buf) (p, lens, data, acc);
  mret (offs ++ [acc], st').

Definition read_nulls (buf : list Z) (count : Z) (col : FilterColumn) (p : Z) :
    res (list Z * Z) :=
  if nullable col then bs ← mem_read buf p count; mret (bs, p + count) else mret ([], p).

Definition read_column (buf : list Z) (count : Z) (col : FilterColumn) (p : Z) :
    res (ColumnData * Z) :=
  let t := col_type col in
  '(fc, p) ← match t with
  | Int32 | Int64 | Float | Bool =>
      let w := column_type_width t in
      bs ← mem_read buf p (count * w);
      let p := p + count * w in
      '(nulls, p) ← read_nulls buf count col p;
      mret (mkCD t nulls bs [] [] [] [] [] [] [], p)
  | String =>
      let lengths := p + count * 4 in
      let hashes := align4 (lengths + count * 2) in
      let p := hashes + count * 4 in
      '(offs, lens, total_data) ← read_string_lengths buf lengths count;
      data ← mem_read buf p total_data;
      '(nulls, p) ← read_nulls buf count col (p + total_data);
      mret (mkCD t nulls [] offs lens data [] [] [] [], p)
  | Set_ =>
      counts ← mem_read buf p count;
      let p := align4 (p + count * 1) + count * 4 in
      total_elem ← for_range (Z.to_nat count) 0
        (λ i tot, ec ← vec_get counts i; mret (u32 (tot + ec))) 0;
      '(offs, (p, lens, data, _)) ← for_range (Z.to_nat count) 0 (read_set_row buf counts)
        ([], (p + total_elem * 4, [], [], 0));
      '(nulls, p) ← read_nulls buf count col p;
      mret (mkCD t nulls [] [] [] [] counts offs lens data, p)
  end;
  mret (fc, align4 p).

Fixpoint read_columns_loop (buf : list Z) (count : Z) (cols : list FilterColumn) (p : Z) :
    res (list ColumnData * Z) :=
  match cols with
  | [] => mret ([], p)
  | col :: cols' =>
      '(fc, p) ← read_column buf count col p;
      '(fcs, p) ← read_columns_loop buf count cols' p;
      mret (fc :: fcs, p)
  end.

Definition read_filter_columns (buf : list Z) (count : Z) (schema : Schema) :
    res (list ColumnData * Z) :=
  read_columns_loop buf count (columns schema) 0.

(** ** [parse_filter_columns]: offsets of the arrays of each column *)

Record ColumnView := mkView {
  v_type : ColumnType;
  v_nulls : option Z;
  v_fixed_base : Z;
  v_fixed_width : Z;
  v_str_offsets : Z;
  v_str_lengths : Z;
  v_str_hashes : Z;
  v_str_data : Z;
  v_set_counts : Z;
  v_set_offsets : Z;
  v_set_hashes : Z;
  v_set_data : Z;
}.

(** Walk [total_elem] element records to the end of the data. *)
Definition skip_elems (buf : list Z) (p : Z) (n : Z) : res Z :=
  for_range (Z.to_nat n) 0 (λ _ q, elen ← mem_uint buf q 2; mret (q + (2 + elen))) p.

Definition parse_column (buf : list Z) (count : Z) (col : FilterColumn) (p : Z) :
    res (ColumnView * Z) :=
  let t := col_type col in
  '(mk, p) ← match t with
  | Int32 | Int64 | Float | Bool =>
      let w := column_type_width t in
      mret (λ nulls, mkView t nulls p w 0 0 0 0 0 0 0 0, p + count * w)
  | String =>
      let offsets := p in
      let lengths := p + count * 4 in
      let hashes := align4 (lengths + count * 2) in
      let data := hashes + count * 4 in
      p ← (if 0 <? count then
             last_off ← mem_uint buf (offsets + 4 * (count - 1)) 4;
             last_len ← mem_uint buf (lengths + 2 * (count - 1)) 2;
             mret (data + u32 (last_off + last_len))
           else mret data);
      mret (λ nulls, mkView t nulls 0 0 offsets lengths hashes data 0 0 0 0, p)
  | Set_ =>
      let counts := p in
      let offsets := align4 (p + count * 1) in
      let hashes := offsets + count * 4 in
      total_elem ← for_range (Z.to_nat count) 0
        (λ i tot, ec ← mem_uint buf (counts + i) 1; mret (u32 (tot + ec))) 0;
      let data := hashes + total_elem * 4 in
      p ← skip_elems buf data total_elem;
      mret (λ nulls, mkView t nulls 0 0 0 0 0 0 counts offsets hashes data, p)
  end;
  let '(nulls, p) := if nullable col then (Some p, p + count) else (None, p) in
  mret (mk nulls, align4 p).

Fixpoint parse_columns_loop (buf : list Z) (count : Z) (cols : list FilterColumn) (p : Z) :
    res (list ColumnView) :=
  match cols with
  | [] => mret []
  | col :: cols' =>
      '(v, p) ← parse_column buf count col p;
      vs ← parse_columns_loop buf count cols' p;
      mret (v :: vs)
  end.

Definition parse_filter_columns (buf : list Z) (count : Z) (schema : Schema) :
    res (list ColumnView) :=
  parse_columns_loop buf count (columns schema) 0.

(** ** Accessors of a view ([filter_scan.cpp]) *)

Section accessors.
Context (buf : list Z) (col : ColumnView) (idx : Z).

(** [col.nulls && col.nulls[idx]]. *)
Definition view_null : res bool :=
  match v_nulls col with
  | None => mret false
  | Some p => b ← mem_uint buf (p + idx) 1; mret (negb (b =? 0))
  end.

Definition read_fixed (w : nat) : res Z := mem_uint buf (v_fixed_base col + idx * v_fixed_width col) w.

Definition read_bool : res bool :=
  b ← mem_uint buf (v_fixed_base col + idx) 1; mret (negb (b =? 0)).

Definition read_string : res (list Z) :=
  off ← mem_uint buf (v_str_offsets col + 4 * idx) 4;
  len ← mem_uint buf (v_str_lengths col + 2 * idx) 2;
  mem_read buf (v_str_data col + off) len.

Definition read_string_hash : res Z := mem_uint buf (v_str_hashes col + 4 * idx) 4.

Fixpoint scan_hashes (n : nat) (p query : Z) : res bool :=
  match n with
  | O => mret false
  | S n' => h ← mem_uint buf p 4; if h =? query then mret true else scan_hashes n' (p + 4) query
  end.

Definition set_contains_hash (query_hash : Z) : res bool :=
  ec ← mem_uint buf (v_set_counts col + idx) 1;
  off ← mem_uint buf (v_set_offsets col + 4 * idx) 4;
  scan_hashes (Z.to_nat ec) (v_set_hashes col + 4 * off) query_hash.

Fixpoint scan_elems (n : nat) (p : Z) (query : list Z) : res bool :=
  match n with
  | O => mret false
  | S n' =>
      elen ← mem_uint buf p 2;
      bs ← (if elen =? Z.of_nat (length query) then mem_read buf (p + 2) elen else mret []);
      if (elen =? Z.of_nat (length query)) && bool_decide (bs = query) then mret true
      else scan_elems n' (p + 2 + elen) query
  end.

Definition set_contains_string (query : list Z) : res bool :=
  ec ← mem_uint buf (v_set_counts col + idx) 1;
  off ← mem_uint buf (v_set_offsets col + 4 * idx) 4;
  dp ← skip_elems buf (v_set_data col) off;
  scan_elems (Z.to_nat ec) dp query.
End accessors.

(** ** [select_filter_rows] and [append_filter_rows] *)

(** The bytes before element [k], summed as the code does, in 32 bits. *)
Definition elem_byte_off (lens : list Z) (k : Z) : res Z :=
  for_range (Z.to_nat k) 0 (λ i acc, l ← vec_get lens i; mret (u32 (acc + l))) 0.

Definition push_string (s : ColumnData) (idx : Z) (d : ColumnData) : res ColumnData :=
  len ← vec_get (str_lengths s) idx;
  off ← vec_get (str_offsets s) idx;
  bs ← mem_read (str_data s) off len;
  mret (mkCD (cd_type d) (null_mask d) (fixed_data d)
    (str_offsets d ++ [u32 (Z.of_nat (length (str_data d)))]) (str_lengths d ++ [len])
    (str_data d ++ bs) (set_counts d) (set_offsets d) (set_elem_lengths d) (set_elem_data d)).

Definition push_set_elem (s : ColumnData) (src_off : Z) (e : Z) (d : ColumnData) :
    res ColumnData :=
  elen ← vec_get (set_elem_lengths s) (u32 (src_off + e));
  bo ← elem_byte_off (set_elem_lengths s) (u32 (src_off + e));
  bs ← mem_read (set_elem_data s) bo elen;
  mret (mkCD (cd_type d) (null_mask d) (fixed_data d) (str_offsets d) (str_lengths d)
    (str_data d) (set_counts d) (set_offsets d) (set_elem_lengths d ++ [elen])
    (set_elem_data d ++ bs)).

Definition push_set (s : ColumnData) (idx : Z) (d : ColumnData) : res ColumnData :=
  ec ← vec_get (set_counts s) idx;
  src_off ← vec_get (set_offsets s) idx;
  for_range (Z.to_nat ec) 0 (push_set_elem s src_off)
    (mkCD (cd_type d) (null_mask d) (fixed_data d) (str_offsets d) (str_lengths d) (str_data d)
      (set_counts d ++ [ec]) (set_offsets d ++ [u32 (Z.of_nat (length (set_elem_lengths d)))])
      (set_elem_lengths d) (set_elem_data d)).

Definition push_fixed (t : ColumnType) (s : ColumnData) (idx : Z) (d : ColumnData) :
    res ColumnData :=
  bs ← mem_read (fixed_data s) (idx * column_type_width t) (column_type_width t);
  mret (mkCD (cd_type d) (null_mask d) (fixed_data d ++ bs) (str_offsets d) (str_lengths d)
    (str_data d) (set_counts d) (set_offsets d) (set_elem_lengths d) (set_elem_data d)).

(** The row of [s] at [idx], appended to [d], by type. *)
Definition push_row (t : ColumnType) (s : ColumnData) (idx : Z) (d : ColumnData) :
    res ColumnData :=
  match t with
  | Int32 | Int64 | Float | Bool => push_fixed t s idx d
  | String => push_string s idx d
  | Set_ => push_set s idx d
  end.

Fixpoint push_rows (t : ColumnType) (s : ColumnData) (indices : list Z) (d : ColumnData) :
    res ColumnData :=
  match indices with
  | [] => mret d
  | idx :: rest => d ← push_row t s idx d; push_rows t s rest d
  end.

Definition set_type (t : ColumnType) (d : ColumnData) : ColumnData :=
  mkCD t (null_mask d) (fixed_data d) (str_offsets d) (str_lengths d) (str_data d)
    (set_counts d) (set_offsets d) (set_elem_lengths d) (set_elem_data d).

Definition add_nulls (ns : list Z) (d : ColumnData) : ColumnData :=
  mkCD (cd_type d) (null_mask d ++ ns) (fixed_data d) (str_offsets d) (str_lengths d)
    (str_data d) (set_counts d) (set_offsets d) (set_elem_lengths d) (set_elem_data d).

Fixpoint get_all (l : list Z) (indices : list Z) : res (list Z) :=
  match indices with
  | [] => mret []
  | i :: rest => x ← vec_get l i; xs ← get_all l rest; mret (x :: xs)
  end.

Definition select_column (col : FilterColumn) (s : ColumnData) (indices : list Z) :
    res ColumnData :=
  nulls ← (if nullable col && negb (bool_decide (null_mask s = []))
           then get_all (null_mask s) indices else mret []);
  push_rows (col_type col) s indices (add_nulls nulls (set_type (col_type col) empty_cd)).

Definition append_column (col : FilterColumn) (s : ColumnData) (indices : list Z)
    (d : ColumnData) : res ColumnData :=
  let nulls := if nullable col && negb (bool_decide (null_mask s = []))
    then (λ idx, if idx <? Z.of_nat (length (null_mask s))
                 then default 0 (null_mask s !! Z.to_nat idx) else 0) <$> indices
    else [] in
  push_rows (col_type col) s indices (add_nulls nulls (set_type (col_type col) d)).

Fixpoint select_columns_loop (cols : list FilterColumn) (src : list ColumnData) (c : Z)
    (indices : list Z) : res (list ColumnData) :=
  match cols with
  | [] => mret []
  | col :: cols' =>
      s ← vec_get src c;
      d ← select_column col s indices;
      ds ← select_columns_loop cols' src (c + 1) indices;
      mret (d :: ds)
  end.

Definition select_filter_rows (src : list ColumnData) (schema : Schema) (indices : list Z) :
    res (list ColumnData) := select_columns_loop (columns schema) src 0 indices.

Fixpoint append_columns_loop (cols : list FilterColumn) (dst src : list ColumnData) (c : Z)
    (indices : list Z) : res (list ColumnData) :=
  match cols with
  | [] => mret dst
  | col :: cols' =>
      s ← vec_get src c;
      d ← vec_get dst c;
      d' ← append_column col s indices d;
      dst' ← vec_set dst c d';
      append_columns_loop cols' dst' src (c + 1) indices
  end.

Definition append_filter_rows (dst src : list ColumnData) (schema : Schema)
    (indices : list Z) : res (list ColumnData) :=
  append_columns_loop (columns schema) dst src 0 indices.

(** * Specification: a column denotes a list of cells *)

Inductive cell :=
  | CFixed (bs : list Z)
  | CStr (s : list Z)
  | CSet (elems : list (list Z)).

Definition bytes_ok (s : list Z) : Prop := Forall is_byte s.

Definition cell_ok (t : ColumnType) (c : cell) : Prop :=
  match t, c with
  | String, CStr s => Z.of_nat (length s) < 2 ^ 16 ∧ bytes_ok s
  | Set_, CSet es => Z.of_nat (length es) < 2 ^ 8 ∧
      Forall (λ e, Z.of_nat (length e) < 2 ^ 16 ∧ bytes_ok e) es
  | (Int32 | Int64 | Float | Bool), CFixed bs =>
      Z.of_nat (length bs) = column_type_width t ∧ bytes_ok bs
  | _, _ => False
  end.

(** [cell_is t fc i c]: row [i] of the column data is the cell [c]. *)
Definition cell_is (t : ColumnType) (fc : ColumnData) (i : Z) (c : cell) : Prop :=
  match t, c with
  | String, CStr s =>
      vec_get (str_lengths fc) i = Ok (Z.of_nat (length s)) ∧
      ∃ off, vec_get (str_offsets fc) i = Ok off ∧
        mem_read (str_data fc) off (Z.of_nat (length s)) = Ok s
  | Set_, CSet es =>
      vec_get (set_counts fc) i = Ok (Z.of_nat (length es)) ∧
      ∃ off, vec_get (set_offsets fc) i = Ok off ∧
        ∀ e s, es !! e = Some s →
          set_elem fc (u32 (off + Z.of_nat e)) = Ok (Z.of_nat (length s), s)
  | (Int32 | Int64 | Float | Bool), CFixed bs =>
      mem_read (fixed_data fc) (i * column_type_width t) (column_type_width t) = Ok bs
  | _, _ => False
  end.

(** The column data [fc] has [cells] as its rows and [nulls] as its flags. *)
Record column_is (t : ColumnType) (fc : ColumnData) (cells : list cell) (nulls : list Z) := {
  ci_cells : ∀ i c, cells !! i = Some c → cell_is t fc (Z.of_nat i) c;
  ci_ok : Forall (cell_ok t) cells;
  ci_nulls : null_mask fc = [] ∧ nulls = replicate (length cells) 0 ∨
             null_mask fc = nulls ∧ length nulls = length cells ∧ bytes_ok nulls;
}.

Definition al4 (v : Z) : Z := (v + 3) / 4 * 4.

(** Sums over lists of integers. *)
Fixpoint zsum (l : list Z) : Z := match l with [] => 0 | x :: l' => x + zsum l' end.

Definition zlen {A} (l : list A) : Z := Z.of_nat (length l).

(** Running sums: [psums 0 l] is the list of the sums before each element. *)
Fixpoint psums (acc : Z) (l : list Z) : list Z :=
  match l with [] => [] | x :: l' => acc :: psums (acc + x) l' end.

(** The bytes of an array of [w]-byte integers. *)
Definition arr (w : nat) (l : list Z) : list Z := concat (le_enc w <$> l).

Definition fixed_of (c : cell) : list Z := match c with CFixed bs => bs | _ => [] end.
Definition str_of (c : cell) : list Z := match c with CStr s => s | _ => [] end.
Definition elems_of (c : cell) : list (list Z) := match c with CSet es => es | _ => [] end.

(** A set element as stored: its length in two bytes, then its bytes. *)
Definition record_of (e : list Z) : list Z := le_enc 2 (zlen e) ++ e.

Definition string_data (p : Z) (n : Z) : Z := al4 (p + 6 * n) + 4 * n.
Definition set_hash_base (p : Z) (n : Z) : Z := al4 (p + n) + 4 * n.
Definition set_data_base (p : Z) (es : list (list (list Z))) : Z :=
  set_hash_base p (zlen es) + 4 * zlen (concat es).

(** Where the data of a column stored at [p] ends, and where the next starts. *)
Definition data_end (t : ColumnType) (cells : list cell) (p : Z) : Z :=
  match t with
  | String => string_data p (zlen cells) + zlen (concat (str_of <$> cells))
  | Set_ => set_data_base p (elems_of <$> cells) +
      zlen (concat (record_of <$> concat (elems_of <$> cells)))
  | _ => p + zlen cells * column_type_width t
  end.

Definition col_end (col : FilterColumn) (cells : list cell) (p : Z) : Z :=
  al4 (data_end (col_type col) cells p + if nullable col then zlen cells else 0).

Section layout.
Context `{RapidHash}.

Definition string_layout (buf : list Z) (p : Z) (strs : list (list Z)) : Prop :=
  let n := zlen strs in
  holds buf p (arr 4 (psums 0 (zlen <$> strs))) ∧
  holds buf (p + 4 * n) (arr 2 (zlen <$> strs)) ∧
  holds buf (al4 (p + 6 * n)) (arr 4 (filter_hash <$> strs)) ∧
  holds buf (string_data p n) (concat strs).

Definition set_layout (buf : list Z) (p : Z) (es : list (list (list Z))) : Prop :=
  let n := zlen es in
  holds buf p (arr 1 (zlen <$> es)) ∧
  holds buf (al4 (p + n)) (arr 4 (psums 0 (zlen <$> es))) ∧
  holds buf (set_hash_base p n) (arr 4 (filter_hash <$> concat es)) ∧
  holds buf (set_data_base p es) (concat (record_of <$> concat es)).

(** The buffer stores the column's cells and flags at [p]. *)
Definition stored (buf : list Z) (col : FilterColumn) (p : Z) (cells : list cell)
    (nulls : list Z) : Prop :=
  match col_type col with
  | String => string_layout buf p (str_of <$> cells)
  | Set_ => set_layout buf p (elems_of <$> cells)
  | _ => holds buf p (concat (fixed_of <$> cells))
  end ∧
  (nullable col = true → holds buf (data_end (col_type col) cells p) nulls).
End layout.

(** ** Lemmas: sums, arrays and alignment *)

Lemma align4_al4 v : 0 ≤ v < 2 ^ 64 - 4 → align4 v = al4 v.
Proof.
  intros Hv. unfold align4, al4, u64. rewrite Z.mod_small by lia.
  apply (land_align 64 2); lia.
Qed.

Lemma al4_bounds v : v ≤ al4 v < v + 4.
Proof. unfold al4. Z.div_mod_to_equations. lia. Qed.

Lemma zlen_app {A} (l1 l2 : list A) : zlen (l1 ++ l2) = zlen l1 + zlen l2.
Proof. unfold zlen. rewrite length_app. lia. Qed.

Lemma zlen_nonneg {A} (l : list A) : 0 ≤ zlen l.
Proof. unfold zlen. lia. Qed.

Lemma zsum_app l1 l2 : zsum (l1 ++ l2) = zsum l1 + zsum l2.
Proof. induction l1 as [|x l1 IH]; simpl; [done|]. rewrite IH. lia. Qed.

Lemma psums_app acc l1 l2 : psums acc (l1 ++ l2) = psums acc l1 ++ psums (acc + zsum l1) l2.
Proof.
  revert acc. induction l1 as [|x l1 IH]; intros acc; simpl; [f_equal; lia|].
  rewrite IH. by rewrite Z.add_assoc.
Qed.

Lemma length_psums acc l : length (psums acc l) = length l.
Proof. revert acc. induction l as [|x l IH]; intros acc; simpl; [done|]. by rewrite IH. Qed.

Lemma psums_lookup acc l i : (i < length l)%nat → psums acc l !! i = Some (acc + zsum (take i l)).
Proof.
  revert acc i. induction l as [|x l IH]; intros acc i Hi; simpl in Hi; [lia|].
  destruct i as [|i]; simpl; [f_equal; lia|]. rewrite IH by lia. f_equal. lia.
Qed.

Lemma arr_app w l1 l2 : arr w (l1 ++ l2) = arr w l1 ++ arr w l2.
Proof. unfold arr. by rewrite fmap_app, concat_app. Qed.

Lemma arr_singleton w x : arr w [x] = le_enc w x.
Proof. unfold arr. simpl. by rewrite app_nil_r. Qed.

Lemma length_arr w l : length (arr w l) = (w * length l)%nat.
Proof.
  unfold arr. induction l as [|x l IH]; [cbn; lia|].
  rewrite fmap_cons. cbn [concat length]. rewrite length_app, length_le_enc, IH. lia.
Qed.

Lemma zlen_concat (ls : list (list Z)) : zlen (concat ls) = zsum (zlen <$> ls).
Proof. induction ls as [|l ls IH]; [done|]. cbn. by rewrite zlen_app, IH. Qed.

Lemma zlen_concat_elems (es : list (list (list Z))) : zlen (concat es) = zsum (zlen <$> es).
Proof. induction es as [|l ls IH]; [done|]. cbn. by rewrite zlen_app, IH. Qed.

Lemma zsum_nonneg l : Forall (λ x, 0 ≤ x) l → 0 ≤ zsum l.
Proof. induction 1; simpl; lia. Qed.

Lemma zsum_take_le l i : Forall (λ x, 0 ≤ x) l → 0 ≤ zsum (take i l) ≤ zsum l.
Proof.
  intros Hl. rewrite <- (take_drop i l) at 3. rewrite zsum_app.
  pose proof (zsum_nonneg (take i l) (Forall_take _ _ _ Hl)).
  pose proof (zsum_nonneg (drop i l) (Forall_drop _ _ _ Hl)). lia.
Qed.

Lemma zlens_nonneg {A} (ls : list (list A)) : Forall (λ x, 0 ≤ x) (zlen <$> ls).
Proof. apply Forall_fmap, Forall_true. intros. apply zlen_nonneg. Qed.

Lemma vec_get_lookup {A} (l : list A) (i : nat) x : l !! i = Some x → vec_get l (Z.of_nat i) = Ok x.
Proof.
  intros Hx. unfold vec_get. rewrite (proj2 (Z.ltb_ge _ _)), Nat2Z.id, Hx by lia. done.
Qed.

(** Reading an entry of a stored array. *)
Lemma mem_uint_arr buf p w l (i : nat) z :
  holds buf p (arr w l) → l !! i = Some z → 0 ≤ z < 256 ^ Z.of_nat w →
  mem_uint buf (p + Z.of_nat w * Z.of_nat i) w = Ok z.
Proof.
  intros Hh Hi Hz. rewrite <- (take_drop_middle _ _ _ Hi) in Hh.
  rewrite arr_app in Hh. change (z :: drop (S i) l) with ([z] ++ drop (S i) l) in Hh.
  rewrite arr_app, arr_singleton, !holds_app in Hh.
  destruct Hh as (_ & Hh & _). rewrite length_arr, length_take in Hh.
  apply lookup_lt_Some in Hi. rewrite Nat.min_l in Hh by lia.
  apply mem_uint_holds; [|done]. by rewrite Nat2Z.inj_mul in Hh.
Qed.

Lemma mem_read_concat buf p (ls : list (list Z)) (i : nat) s :
  holds buf p (concat ls) → ls !! i = Some s →
  mem_read buf (p + zsum (take i (zlen <$> ls))) (zlen s) = Ok s.
Proof.
  intros Hh Hi. rewrite <- (take_drop_middle _ _ _ Hi), concat_app in Hh.
  cbn [concat] in Hh. rewrite !holds_app in Hh. destruct Hh as (_ & Hh & _).
  rewrite <- fmap_take, <- zlen_concat. by apply mem_read_holds.
Qed.

Lemma take_snoc {A} (l : list A) i x : l !! i = Some x → take (S i) l = take i l ++ [x].
Proof. apply take_S_r. Qed.

(** A list of lists around one of its members. *)
Lemma concat_middle {A} (ls : list (list A)) i x :
  ls !! i = Some x → concat ls = concat (take i ls) ++ x ++ concat (drop (S i) ls).
Proof.
  intros Hi. rewrite <- (take_drop_middle _ _ _ Hi) at 1. by rewrite concat_app.
Qed.

Lemma holds_snoc buf off xs ys :
  holds buf off xs → holds buf (off + zlen xs) ys → holds buf off (xs ++ ys).
Proof. intros. by apply holds_app. Qed.

Lemma zlen_arr w l : zlen (arr w l) = Z.of_nat w * zlen l.
Proof. unfold zlen. rewrite length_arr. lia. Qed.

Lemma zlen_fmap {A B} (f : A → B) l : zlen (f <$> l) = zlen l.
Proof. unfold zlen. by rewrite length_fmap. Qed.

Lemma zlen_psums acc l : zlen (psums acc l) = zlen l.
Proof. unfold zlen. by rewrite length_psums. Qed.

Lemma zlen_take {A} (l : list A) k : (k ≤ length l)%nat → zlen (take k l) = Z.of_nat k.
Proof. intros. unfold zlen. rewrite length_take. lia. Qed.

Lemma zlen_replicate {A} k (x : A) : zlen (replicate k x) = Z.of_nat k.
Proof. unfold zlen. by rewrite length_replicate. Qed.

Lemma zlen_le_enc w z : zlen (le_enc w z) = Z.of_nat w.
Proof. unfold zlen. by rewrite length_le_enc. Qed.

Lemma zlen_record e : zlen (record_of e) = 2 + zlen e.
Proof. unfold record_of. by rewrite zlen_app, zlen_le_enc. Qed.

Create Rewrite HintDb zlen.
#[export] Hint Rewrite zlen_arr @zlen_fmap zlen_psums @zlen_replicate zlen_le_enc zlen_record : zlen.

(** The regions known to be stored survive a write of [same_outside]. *)
Ltac keep Hs :=
  match type of Hs with
  | same_outside ?b ?b' _ _ =>
      repeat match goal with
      | H : holds b ?o ?x |- _ =>
          apply (holds_same_outside b b' _ _ o x Hs) in H;
            [|change (Z.of_nat (length x)) with (zlen x); autorewrite with zlen in *; lia]
      end
  end.

(** One checked write: [mem_write_ok] as a step, with the stored regions kept. *)
Ltac write_step b E Hh Hs :=
  match goal with
  | |- context [mem_write ?buf ?off ?bs] =>
      destruct (mem_write_ok buf off bs) as (b & E & Hh & Hs);
        [|change (Z.of_nat (length bs)) with (zlen bs)|rewrite E, bind_Ok;
          change (Z.of_nat (length bs)) with (zlen bs) in Hs]
  end.

Section write_lemmas.
Context `{RapidHash}.

Lemma write_strings_ok b0 fc p strs :
  let n := zlen strs in
  (∀ i s, strs !! i = Some s → cell_is String fc (Z.of_nat i) (CStr s)) →
  0 ≤ p → string_data p n + zlen (concat strs) ≤ zlen b0 → zlen b0 < 2 ^ 32 →
  ∃ b acc, for_range (length strs) 0 (write_string_row fc p (p + 4 * n) (al4 (p + 6 * n)))
      (b0, string_data p n, 0) = Ok (b, string_data p n + zlen (concat strs), acc) ∧
    string_layout b p strs ∧ same_outside b0 b p (string_data p n + zlen (concat strs)).
Proof.
  intros n Hcells Hp Hfit Hb0. pose proof (al4_bounds (p + 6 * n)) as Hal.
  assert (0 ≤ n) by apply zlen_nonneg. pose proof (zlens_nonneg strs) as Hpos.
  unfold string_data in *. set (h := al4 (p + 6 * n)) in *.
  set (S_ k := zsum (take k (zlen <$> strs))).
  destruct (for_range_ok (λ j st, let '(b, q, acc) := st in let k := Z.to_nat j in
      q = h + 4 * n + S_ k ∧ acc = S_ k ∧
      same_outside b0 b p (h + 4 * n + zlen (concat strs)) ∧
      holds b p (arr 4 (psums 0 (zlen <$> take k strs))) ∧
      holds b (p + 4 * n) (arr 2 (zlen <$> take k strs)) ∧
      holds b h (arr 4 (filter_hash <$> take k strs)) ∧
      holds b (h + 4 * n) (concat (take k strs)))
    (write_string_row fc p (p + 4 * n) h) (length strs) 0 (b0, h + 4 * n, 0))
    as ([[b q] acc] & E & Hq & Hacc & Hs & H1 & H2 & H3 & H4).
  - rewrite zlen_concat in Hfit. pose proof (zsum_nonneg _ Hpos).
    unfold S_. simpl. split_and!; try (apply holds_nil; unfold zlen in *; lia); try lia.
    apply same_outside_refl.
  - intros j [[b q] acc] Hj (-> & -> & Hs & H1 & H2 & H3 & H4).
    set (k := Z.to_nat j) in *. assert (k < length strs)%nat as Hk by lia.
    destruct (lookup_lt_is_Some_2 strs k Hk) as [s Hsk].
    pose proof (Hcells k s Hsk) as (Elen & off & Eoff & Estr).
    replace (Z.of_nat k) with j in * by lia.
    assert (S_ (S k) = S_ k + zlen s) as HS.
    { unfold S_. rewrite (take_snoc _ _ (zlen s)) by (by rewrite list_lookup_fmap, Hsk).
      rewrite zsum_app. simpl. lia. }
    assert (S_ (S k) ≤ zlen (concat strs)) as HSle
      by (rewrite zlen_concat; apply zsum_take_le, Hpos).
    assert (0 ≤ S_ k) as HS0 by (apply zsum_take_le, Hpos).
    pose proof (zlen_nonneg s). pose proof (same_outside_length _ _ _ _ Hs) as Hl.
    assert (zlen (take k strs) = j) as Hlt by (rewrite zlen_take by lia; lia).
    assert (zlen (concat (take k strs)) = S_ k) as Hct
      by (rewrite zlen_concat, fmap_take; done).
    unfold write_string_row. rewrite Elen, bind_Ok. fold (zlen s).
    assert (n = Z.of_nat (length strs)) as Hn by done. unfold zlen in Hfit, Hb0.
    fold (zlen (concat strs)) in Hfit.
    write_step b1 E1 W1 S1; [lia|rewrite zlen_le_enc; lia|]. rewrite zlen_le_enc in S1. keep S1.
    write_step b2 E2 W2 S2; [lia|rewrite zlen_le_enc, (same_outside_length _ _ _ _ S1); lia|].
    rewrite zlen_le_enc in S2. keep S2.
    rewrite Eoff, bind_Ok. fold (zlen s) in Estr. rewrite Estr, bind_Ok.
    pose proof (same_outside_length _ _ _ _ S1). pose proof (same_outside_length _ _ _ _ S2).
    write_step b3 E3 W3 S3; [lia|rewrite zlen_le_enc; lia|]. rewrite zlen_le_enc in S3. keep S3.
    pose proof (same_outside_length _ _ _ _ S3).
    write_step b4 E4 W4 S4; [lia|lia|]. keep S4.
    eexists. split; [done|]. replace (Z.to_nat (j + 1)) with (S k) by lia.
    unfold u32. rewrite Z.mod_small by lia.
    rewrite (take_snoc _ _ _ Hsk), !fmap_app, psums_app, !arr_app, concat_app. simpl fmap.
    simpl psums. rewrite !arr_singleton. simpl concat. rewrite app_nil_r.
    split_and!; [lia|lia| |apply holds_snoc; [done|]..].
    + do 4 (eapply same_outside_extend; [|eassumption|lia..]). exact Hs.
    + rewrite zlen_arr, zlen_psums, zlen_fmap, Hlt. rewrite fmap_take. exact W1.
    + by rewrite zlen_arr, zlen_fmap, Hlt.
    + by rewrite zlen_arr, zlen_fmap, Hlt.
    + by rewrite Hct.
  - assert (S_ (length strs) = zlen (concat strs)) as HS.
    { unfold S_. rewrite zlen_concat, take_ge by (by rewrite length_fmap). done. }
    replace (Z.to_nat (0 + Z.of_nat (length strs))) with (length strs) in * by lia.
    rewrite HS in *. rewrite !take_ge in * by done. subst q acc.
    eexists b, _. split; [exact E|]. split; [|done]. unfold string_layout, string_data. by split_and!.
Qed.

Definition records (es : list (list Z)) : list Z := concat (record_of <$> es).

Lemma records_app xs ys : records (xs ++ ys) = records xs ++ records ys.
Proof. unfold records. by rewrite fmap_app, concat_app. Qed.

Lemma records_singleton e : records [e] = record_of e.
Proof. unfold records. simpl. by rewrite app_nil_r. Qed.

Lemma records_nil : records [] = [].
Proof. done. Qed.

Lemma write_set_elems_ok b0 fc hb db hi pre es off :
  (∀ e s, es !! e = Some s → set_elem fc (u32 (off + Z.of_nat e)) = Ok (zlen s, s)) →
  0 ≤ hb → hb + 4 * (zlen pre + zlen es) ≤ db → db + zlen (records (pre ++ es)) ≤ hi →
  hi ≤ zlen b0 → zlen b0 < 2 ^ 32 →
  holds b0 hb (arr 4 (filter_hash <$> pre)) → holds b0 db (records pre) →
  ∃ b, for_range (length es) 0 (write_set_elem fc hb (zlen pre) off)
      (b0, db + zlen (records pre)) = Ok (b, db + zlen (records (pre ++ es))) ∧
    same_outside b0 b hb hi ∧
    holds b hb (arr 4 (filter_hash <$> pre ++ es)) ∧ holds b db (records (pre ++ es)).
Proof.
  intros Helems Hhb Hdb Hhi Hlen Hb0 Hh Hd.
  destruct (for_range_ok (λ j st, let '(b, q) := st in let k := Z.to_nat j in
      q = db + zlen (records (pre ++ take k es)) ∧ same_outside b0 b hb hi ∧
      holds b hb (arr 4 (filter_hash <$> pre ++ take k es)) ∧
      holds b db (records (pre ++ take k es)))
    (write_set_elem fc hb (zlen pre) off) (length es) 0 (b0, db + zlen (records pre)))
    as ([b q] & E & Hq & Hs & H1 & H2).
  - simpl. rewrite app_nil_r. split_and!; [done|apply same_outside_refl|done..].
  - intros j [b q] Hj (-> & Hs & H1 & H2). set (k := Z.to_nat j) in *.
    assert (k < length es)%nat as Hk by lia.
    destruct (lookup_lt_is_Some_2 es k Hk) as [s Hsk].
    pose proof (Helems k s Hsk) as Eel. replace (Z.of_nat k) with j in Eel by lia.
    assert (zlen (records (pre ++ take (S k) es)) ≤ zlen (records (pre ++ es))) as Hle.
    { rewrite <- (take_drop (S k) es) at 2. rewrite app_assoc, (records_app _ (drop _ _)), zlen_app.
      pose proof (zlen_nonneg (records (drop (S k) es))). lia. }
    pose proof (zlen_nonneg (records (pre ++ take k es))). pose proof (zlen_nonneg s).
    rewrite (take_snoc _ _ _ Hsk), app_assoc, (records_app _ [s]), zlen_app, records_singleton,
      zlen_record in Hle.
    pose proof (same_outside_length _ _ _ _ Hs) as Hl. unfold zlen in Hlen, Hb0.
    assert (zlen (pre ++ take k es) = zlen pre + j) as Hpt
      by (rewrite zlen_app, zlen_take by lia; lia).
    pose proof (zlen_nonneg pre). assert (zlen es = Z.of_nat (length es)) as Hes by done.
    unfold write_set_elem. rewrite Eel, bind_Ok. unfold u32. rewrite Z.mod_small by lia.
    write_step b1 E1 W1 S1; [lia|rewrite zlen_le_enc; lia|]. rewrite zlen_le_enc in S1. keep S1.
    pose proof (same_outside_length _ _ _ _ S1).
    write_step b2 E2 W2 S2; [lia|rewrite zlen_le_enc; lia|]. rewrite zlen_le_enc in S2. keep S2.
    pose proof (same_outside_length _ _ _ _ S2).
    write_step b3 E3 W3 S3; [lia|lia|]. keep S3.
    eexists. split; [done|]. replace (Z.to_nat (j + 1)) with (S k) by lia.
    rewrite (take_snoc _ _ _ Hsk), app_assoc, (records_app _ [s]), zlen_app, records_singleton,
      zlen_record.
    rewrite (fmap_app filter_hash), arr_app. simpl fmap. rewrite arr_singleton.
    split_and!; [lia| |apply holds_snoc; [done|]..].
    + do 3 (eapply same_outside_extend; [|eassumption|lia..]). exact Hs.
    + by rewrite zlen_arr, zlen_fmap, Hpt.
    + apply holds_app. fold (zlen (le_enc 2 (zlen s))). rewrite zlen_le_enc. done.
  - replace (Z.to_nat (0 + Z.of_nat (length es))) with (length es) in * by lia.
    rewrite !take_ge in * by done. subst q. by exists b.
Qed.

Lemma write_set_rows_ok b0 fc p es :
  let n := zlen es in
  let hb := set_hash_base p n in
  let db := set_data_base p es in
  let hi := db + zlen (records (concat es)) in
  (∀ i x, es !! i = Some x → cell_is Set_ fc (Z.of_nat i) (CSet x) ∧ zlen x < 2 ^ 8) →
  0 ≤ p → hi ≤ zlen b0 → zlen b0 < 2 ^ 32 →
  ∃ b acc, for_range (length es) 0 (write_set_row fc p (al4 (p + n)) hb) (b0, db, 0)
      = Ok (b, hi, acc) ∧ set_layout b p es ∧ same_outside b0 b p hi.
Proof.
  intros n hb db hi Hcells Hp Hfit Hb0. pose proof (al4_bounds (p + n)) as Hal.
  assert (0 ≤ n) as Hn0 by apply zlen_nonneg. pose proof (zlens_nonneg es) as Hpos.
  assert (hb = al4 (p + n) + 4 * n) as Hhb by done.
  assert (db = hb + 4 * zlen (concat es)) as Hdb by done.
  assert (hi = db + zlen (records (concat es))) as Hhi by done. clearbody hb db hi.
  pose proof (zlen_nonneg (concat es)) as Hce.
  pose proof (zlen_nonneg (records (concat es))) as Hre.
  set (o := al4 (p + n)) in *.
  destruct (for_range_ok (λ j st, let '(b, q, acc) := st in let k := Z.to_nat j in
      q = db + zlen (records (concat (take k es))) ∧ acc = zlen (concat (take k es)) ∧
      same_outside b0 b p hi ∧
      holds b p (arr 1 (zlen <$> take k es)) ∧
      holds b o (arr 4 (psums 0 (zlen <$> take k es))) ∧
      holds b hb (arr 4 (filter_hash <$> concat (take k es))) ∧
      holds b db (records (concat (take k es))))
    (write_set_row fc p o hb) (length es) 0 (b0, db, 0))
    as ([[b q] acc] & E & Hq & Hacc & Hs & H1 & H2 & H3 & H4).
  - simpl. split_and!; try (apply holds_nil; unfold zlen in *; lia); try (unfold zlen; simpl; lia).
    apply same_outside_refl.
  - intros j [[b q] acc] Hj (-> & -> & Hs & H1 & H2 & H3 & H4).
    set (k := Z.to_nat j) in *. assert (k < length es)%nat as Hk by lia.
    destruct (lookup_lt_is_Some_2 es k Hk) as [x Hxk].
    destruct (Hcells k x Hxk) as [(Elen & off & Eoff & Eel) Hx].
    replace (Z.of_nat k) with j in * by lia.
    assert (concat es = concat (take k es) ++ x ++ concat (drop (S k) es)) as Hcat
      by (by apply concat_middle).
    assert (zlen (concat es) = zlen (concat (take k es)) + zlen x + zlen (concat (drop (S k) es)))
      as Hzc by (rewrite Hcat, !zlen_app; lia).
    assert (zlen (records (concat es)) = zlen (records (concat (take k es) ++ x)) +
      zlen (records (concat (drop (S k) es)))) as Hzr
      by (rewrite Hcat, app_assoc, records_app, zlen_app; lia).
    pose proof (zlen_nonneg (concat (take k es))). pose proof (zlen_nonneg x).
    pose proof (zlen_nonneg (concat (drop (S k) es))).
    pose proof (zlen_nonneg (records (concat (take k es) ++ x))).
    pose proof (zlen_nonneg (records (concat (take k es)))).
    pose proof (zlen_nonneg (records (concat (drop (S k) es)))).
    assert (zlen (take k es) = j) as Hlt by (rewrite zlen_take by lia; lia).
    assert (n = Z.of_nat (length es)) as Hn by done.
    pose proof (same_outside_length _ _ _ _ Hs) as Hl.
    assert (zlen b = zlen b0) as Hzb by (unfold zlen; congruence).
    unfold write_set_row. rewrite Elen, bind_Ok. fold (zlen x).
    write_step b1 E1 W1 S1; [lia|rewrite zlen_le_enc; unfold zlen in *; lia|].
    rewrite zlen_le_enc in S1. keep S1. pose proof (same_outside_length _ _ _ _ S1).
    write_step b2 E2 W2 S2; [lia|rewrite zlen_le_enc; unfold zlen in *; lia|].
    rewrite zlen_le_enc in S2. keep S2. pose proof (same_outside_length _ _ _ _ S2).
    assert (zlen b2 = zlen b0) as Hzb2 by (unfold zlen; congruence).
    rewrite Eoff, bind_Ok. replace (Z.to_nat (zlen x)) with (length x) by (unfold zlen; lia).
    destruct (write_set_elems_ok b2 fc hb db hi (concat (take k es)) x off)
      as (b3 & -> & S3 & W3 & W4); [done|lia..|done|done|]. rewrite bind_Ok. keep S3.
    eexists. split; [done|]. replace (Z.to_nat (j + 1)) with (S k) by lia.
    unfold u32. rewrite Z.mod_small by lia.
    assert (concat (take (S k) es) = concat (take k es) ++ x) as ->
      by (rewrite (take_snoc _ _ _ Hxk), concat_app; simpl; by rewrite app_nil_r).
    rewrite (take_snoc _ _ _ Hxk), !(fmap_app zlen), psums_app, !arr_app. simpl fmap.
    simpl psums. rewrite !arr_singleton. rewrite zlen_app.
    split_and!; [done|done| |apply holds_snoc; [done|]..|done|done].
    + do 3 (eapply same_outside_extend; [|eassumption|lia..]). exact Hs.
    + rewrite zlen_arr, zlen_fmap, Hlt. by replace (p + Z.of_nat 1 * j) with (p + j) by lia.
    + rewrite zlen_arr, zlen_psums, zlen_fmap, Hlt, <- zlen_concat_elems. exact W2.
  - replace (Z.to_nat (0 + Z.of_nat (length es))) with (length es) in * by lia.
    rewrite !take_ge in * by done. subst q acc. rewrite Hhi.
    eexists b, _. split; [exact E|]. split; [|by rewrite <- Hhi].
    unfold set_layout, set_hash_base, set_data_base, set_hash_base. fold n o.
    rewrite <- Hhb, <- Hdb. by split_and!.
Qed.
End write_lemmas.

(** ** Lemmas: one column *)

Lemma mem_read_inv b o n bs : mem_read b o n = Ok bs → holds b o bs ∧ zlen bs = n.
Proof.
  unfold mem_read. case_bool_decide as Hb; [|done]. intros [= <-].
  assert (length (bytes_at b (Z.to_nat o) (Z.to_nat n)) = Z.to_nat n) as Hl
    by (unfold bytes_at; rewrite length_take, length_drop; lia).
  unfold zlen, holds. rewrite Hl. split; [|lia]. split_and!; [lia|lia|done].
Qed.

Lemma mem_read_holds' b o bs n : holds b o bs → n = zlen bs → mem_read b o n = Ok bs.
Proof. intros H ->. by apply mem_read_holds. Qed.

Lemma mem_read_all bs : mem_read bs 0 (zlen bs) = Ok bs.
Proof.
  apply mem_read_holds'; [|done]. split_and!; [done|lia|]. by apply bytes_at_exact.
Qed.

(** A loop that sums values below the modulus computes the sum. *)
Lemma sum_loop_ok (M : Z) (g : Z → res Z) (l : list Z) acc :
  (∀ (i : nat) x, l !! i = Some x → g (Z.of_nat i) = Ok x) → Forall (λ x, 0 ≤ x) l →
  0 ≤ acc → acc + zsum l < M →
  for_range (length l) 0 (λ i t, x ← g i; mret ((t + x) mod M)) acc = Ok (acc + zsum l).
Proof.
  intros Hg Hl Hacc Hsum.
  destruct (for_range_ok (λ j t, t = acc + zsum (take (Z.to_nat j) l))
    (λ i t, x ← g i; mret ((t + x) mod M)) (length l) 0 acc) as (t & E & Ht).
  - simpl. lia.
  - intros j t Hj ->. set (k := Z.to_nat j). assert (k < length l)%nat as Hk by lia.
    destruct (lookup_lt_is_Some_2 l k Hk) as [x Hx]. pose proof (Hg k x Hx) as E.
    replace (Z.of_nat k) with j in E by lia. rewrite E, bind_Ok.
    pose proof (zsum_take_le l (S k) Hl) as Hle. pose proof (zsum_take_le l k Hl).
    pose proof (Forall_lookup_1 _ _ _ _ Hl Hx).
    rewrite (take_snoc _ _ _ Hx), zsum_app in Hle. simpl in Hle.
    eexists. split; [done|]. replace (Z.to_nat (j + 1)) with (S k) by lia.
    rewrite (take_snoc _ _ _ Hx), zsum_app. simpl. rewrite Z.mod_small by lia. lia.
  - rewrite E, Ht. replace (Z.to_nat (0 + Z.of_nat (length l))) with (length l) by lia.
    by rewrite firstn_all.
Qed.

Lemma cell_at_str fc cells nulls i s :
  column_is String fc cells nulls → (str_of <$> cells) !! i = Some s →
  cell_is String fc (Z.of_nat i) (CStr s).
Proof.
  intros Hc Hi. rewrite list_lookup_fmap in Hi. destruct (cells !! i) as [c|] eqn:E; [|done].
  pose proof (ci_cells _ _ _ _ Hc _ _ E). pose proof (Forall_lookup_1 _ _ _ _ (ci_ok _ _ _ _ Hc) E).
  simpl in Hi. by destruct c; simplify_eq.
Qed.

Lemma cell_at_set fc cells nulls i es :
  column_is Set_ fc cells nulls → (elems_of <$> cells) !! i = Some es →
  cell_is Set_ fc (Z.of_nat i) (CSet es) ∧ zlen es < 2 ^ 8.
Proof.
  intros Hc Hi. rewrite list_lookup_fmap in Hi. destruct (cells !! i) as [c|] eqn:E; [|done].
  pose proof (ci_cells _ _ _ _ Hc _ _ E) as H1.
  pose proof (Forall_lookup_1 _ _ _ _ (ci_ok _ _ _ _ Hc) E) as H2.
  simpl in Hi. destruct c; simplify_eq; try done. split; [done|]. apply H2.
Qed.

Lemma fixed_rows t fc cells nulls :
  column_is t fc cells nulls → is_fixed_width t = true →
  holds (fixed_data fc) 0 (concat (fixed_of <$> cells)) ∧
  zlen (concat (fixed_of <$> cells)) = zlen cells * column_type_width t.
Proof.
  intros Hc Ht. set (w := column_type_width t).
  assert (∀ k, (k ≤ length cells)%nat → holds (fixed_data fc) 0 (concat (fixed_of <$> take k cells)) ∧
    zlen (concat (fixed_of <$> take k cells)) = Z.of_nat k * w) as Hk.
  { induction k as [|k IH]; intros Hk.
    - split; [apply holds_nil; lia|done].
    - destruct (lookup_lt_is_Some_2 cells k) as [c Hck]; [lia|]. destruct IH as [IH1 IH2]; [lia|].
      rewrite (take_snoc _ _ _ Hck), fmap_app, concat_app. simpl. rewrite app_nil_r.
      assert (mem_read (fixed_data fc) (Z.of_nat k * w) w = Ok (fixed_of c)) as Hr.
      { pose proof (ci_cells _ _ _ _ Hc _ _ Hck). by destruct t, c. }
      apply mem_read_inv in Hr as [Hh Hw]. split; [|rewrite zlen_app; lia].
      apply holds_snoc; [done|]. by rewrite IH2. }
  destruct (Hk (length cells)) as [H1 H2]; [done|]. rewrite firstn_all in H1, H2. done.
Qed.

Lemma data_end_ge t cells p : 0 ≤ p → p ≤ data_end t cells p.
Proof.
  intros Hp. pose proof (zlen_nonneg cells). unfold data_end, string_data, set_data_base, set_hash_base.
  destruct t; simpl; try lia;
    rewrite ?zlen_fmap;
    repeat match goal with
    | |- context [al4 ?v] => lazymatch goal with H : v ≤ al4 v < _ |- _ => fail | _ => pose proof (al4_bounds v) end
    | |- context [zlen (concat ?l)] =>
        lazymatch goal with H : 0 ≤ zlen (concat l) |- _ => fail | _ => pose proof (zlen_nonneg (concat l)) end
    end; lia.
Qed.

Section column_lemmas.
Context `{RapidHash}.

(** The data section of a column, before its validity bytes. *)
Lemma write_data_ok b0 col fc p cells nulls :
  column_is (col_type col) fc cells nulls → 0 ≤ p →
  data_end (col_type col) cells p ≤ zlen b0 → zlen b0 < 2 ^ 32 →
  ∃ b, write_data (zlen cells) col fc b0 p = Ok (b, data_end (col_type col) cells p) ∧
    same_outside b0 b p (data_end (col_type col) cells p) ∧
    match col_type col with
    | String => string_layout b p (str_of <$> cells)
    | Set_ => set_layout b p (elems_of <$> cells)
    | _ => holds b p (concat (fixed_of <$> cells))
    end.
Proof.
  intros Hc Hp Hfit Hb0. unfold write_data. set (n := zlen cells) in *.
  assert (0 ≤ n) as Hn0 by apply zlen_nonneg.
  assert (Z.to_nat n = length cells) as Hn by (unfold n, zlen; lia).
  destruct (col_type col) eqn:Et.
  all: try (destruct (fixed_rows _ _ _ _ Hc eq_refl) as [Hh Hl];
    unfold data_end in *; cbv zeta; fold n in Hl, Hfit |- *;
    destruct (Z.ltb_spec 0 n);
    [rewrite (mem_read_holds' _ _ _ _ Hh) by lia; rewrite bind_Ok; write_step b1 E1 W1 S1;
       [lia|unfold zlen in Hfit; lia|]; rewrite Hl in S1; eauto
    |exists b0; split; [done|]; split; [apply same_outside_refl|];
     assert (n = 0) as Hz by lia; rewrite Hz in Hl;
     assert (concat (fixed_of <$> cells) = []) as -> by (apply length_zero_iff_nil; unfold zlen in Hl; lia);
     apply holds_nil; unfold zlen in Hfit; lia]).
  - destruct (write_strings_ok b0 fc p (str_of <$> cells)) as (b & acc & E & HL & HS).
    + intros i s. by apply (cell_at_str fc cells nulls).
    + done.
    + unfold data_end in Hfit. by rewrite zlen_fmap.
    + done.
    + pose proof (data_end_ge String cells p Hp) as Hge.
      unfold data_end in *. rewrite !zlen_fmap in *. fold n in E, HS, Hfit, Hge.
      pose proof (al4_bounds (p + 6 * n)) as Hal. unfold string_data in *.
      pose proof (zlen_nonneg (concat (str_of <$> cells))).
      replace (align4 (p + n * 4 + n * 2)) with (al4 (p + 6 * n)) by
        (rewrite align4_al4 by lia; f_equal; lia).
      rewrite Hn, length_fmap in *. cbv zeta.
      replace (p + n * 4) with (p + 4 * n) by lia.
      replace (al4 (p + 6 * n) + n * 4) with (al4 (p + 6 * n) + 4 * n) by lia.
      rewrite E, bind_Ok. by exists b.
  - destruct (write_set_rows_ok b0 fc p (elems_of <$> cells)) as (b & acc & E & HL & HS).
    + intros i s. by apply (cell_at_set fc cells nulls).
    + done.
    + exact Hfit.
    + done.
    + unfold data_end, records in *. rewrite ?zlen_fmap in E, HS, Hfit |- *. fold n in E, HS, Hfit.
      pose proof (al4_bounds (p + n)) as Hal.
      set (es := elems_of <$> cells) in *.
      pose proof (zlen_nonneg (concat (record_of <$> concat es))) as Hr.
      pose proof (zlen_nonneg (concat es)) as Hce.
      assert (zlen es = n) as Hen by apply zlen_fmap.
      assert (set_data_base p es = al4 (p + n) + 4 * n + 4 * zlen (concat es)) as Hdb.
      { unfold set_data_base, set_hash_base. by rewrite Hen. }
      replace (align4 (p + n * 1)) with (al4 (p + n)) by
        (rewrite align4_al4 by lia; f_equal; lia).
      assert (length es = length cells) as Hle by apply length_fmap.
      rewrite Hn. cbv zeta.
      assert (for_range (length cells) 0
        (λ i t, ec ← vec_get (set_counts fc) i; mret (u32 (t + ec))) 0 = Ok (zlen (concat es))) as ->.
      { rewrite zlen_concat_elems, <- Hle, <- (length_fmap zlen es).
        apply (sum_loop_ok (2 ^ 32) (vec_get (set_counts fc)) (zlen <$> es) 0);
          [|apply zlens_nonneg|done|rewrite <- zlen_concat_elems; lia].
        intros i x Hi. rewrite list_lookup_fmap in Hi. destruct (es !! i) eqn:Ei; [|done].
        simplify_eq/=. by destruct (cell_at_set fc cells nulls i l Hc Ei) as [[? _] _]. }
      rewrite bind_Ok. unfold set_hash_base in E. rewrite Hle, Hdb, Hen in E.
      replace (al4 (p + n) + n * 4) with (al4 (p + n) + 4 * n) by lia.
      rewrite (Z.mul_comm (zlen (concat es)) 4), E, bind_Ok. rewrite Hdb in *. by exists b.
Qed.

Lemma write_nulls_ok b0 t col fc p cells nulls :
  column_is t fc cells nulls → 0 ≤ p →
  p + (if nullable col then zlen cells else 0) ≤ zlen b0 →
  ∃ b, write_nulls (zlen cells) col fc b0 p =
      Ok (b, p + if nullable col then zlen cells else 0) ∧
    same_outside b0 b p (p + if nullable col then zlen cells else 0) ∧
    (nullable col = true → holds b p nulls).
Proof.
  intros Hc Hp Hfit. unfold write_nulls. destruct (nullable col);
    [|exists b0; rewrite Z.add_0_r; split_and!; [done|apply same_outside_refl|done]].
  pose proof (zlen_nonneg cells) as Hn0.
  assert (zlen nulls = zlen cells) as Hl.
  { destruct (ci_nulls _ _ _ _ Hc) as [[_ ->]|(_ & Hl & _)];
      [by rewrite zlen_replicate|unfold zlen; by rewrite Hl]. }
  assert (0 < zlen cells → ∃ b, (match null_mask fc with
      | [] => mem_write b0 p (replicate (Z.to_nat (zlen cells)) 0)
      | _ => bs ← mem_read (null_mask fc) 0 (zlen cells); mem_write b0 p bs
      end) = Ok b ∧ same_outside b0 b p (p + zlen cells) ∧ holds b p nulls) as Hw.
  { intros Hpos. destruct (mem_write_ok b0 p nulls) as (b & E & Hh & Hs);
      [lia|unfold zlen in *; lia|]. fold (zlen nulls) in Hs. rewrite Hl in Hs. exists b.
    destruct (ci_nulls _ _ _ _ Hc) as [[-> Hn]|(Hm & _)].
    - assert (replicate (Z.to_nat (zlen cells)) 0 = nulls) as ->
        by (rewrite Hn; f_equal; unfold zlen; lia). done.
    - destruct (null_mask fc) eqn:En; [subst nulls; unfold zlen in *; simpl in *; lia|].
      subst nulls. rewrite <- Hl, mem_read_all. by rewrite bind_Ok, Hl. }
  destruct (Z.ltb_spec 0 (zlen cells)) as [Hpos|Hneg].
  - destruct (Hw Hpos) as (b & -> & Hs & Hh). exists b. by split_and!.
  - exists b0. split_and!; [done|apply same_outside_refl|]. intros _.
    assert (nulls = []) as -> by (apply length_zero_iff_nil; unfold zlen in *; lia).
    apply holds_nil. unfold zlen in *. lia.
Qed.

Lemma zlen_fixed t cells :
  Forall (cell_ok t) cells → is_fixed_width t = true →
  zlen (concat (fixed_of <$> cells)) = zlen cells * column_type_width t.
Proof.
  intros Hok Ht. induction Hok as [|c cells Hc _ IH]; [done|].
  rewrite fmap_cons. cbn [concat]. rewrite zlen_app, IH.
  assert (zlen (fixed_of c) = column_type_width t) as -> by (destruct t, c; try done; apply Hc).
  unfold zlen. simpl length. lia.
Qed.

Lemma nulls_len col (cells : list cell) :
  0 ≤ (if nullable col then zlen cells else 0) ≤ zlen cells.
Proof. pose proof (zlen_nonneg cells). destruct (nullable col); lia. Qed.

(** A stored column stays stored when bytes past its end change. *)
Lemma stored_frame b b' col p cells nulls lo hi :
  Forall (cell_ok (col_type col)) cells → length nulls = length cells →
  same_outside b b' lo hi → 0 ≤ p →
  data_end (col_type col) cells p + (if nullable col then zlen cells else 0) ≤ lo →
  stored b col p cells nulls → stored b' col p cells nulls.
Proof.
  intros Hok Hln Hs Hp Hlo [Hd Hn]. pose proof (nulls_len col cells) as Hnn.
  pose proof (data_end_ge (col_type col) cells p Hp) as Hge.
  assert (∀ o bs, o + zlen bs ≤ data_end (col_type col) cells p + (if nullable col then zlen cells else 0)
    → holds b o bs → holds b' o bs) as Hkeep.
  { intros o bs Hend. apply (holds_same_outside _ _ _ _ _ _ Hs). fold (zlen bs). lia. }
  split; [|intros Hnull; rewrite Hnull in *; apply Hkeep; [unfold zlen in *; lia|by apply Hn]].
  clear Hn Hlo. set (x := if nullable col then zlen cells else 0) in *. clearbody x.
  assert (0 ≤ zlen cells) as Hc0 by apply zlen_nonneg. revert Hge Hkeep. unfold data_end.
  destruct (col_type col) eqn:Et; intros Hge Hkeep;
    try (apply Hkeep; [rewrite (zlen_fixed _ _ Hok eq_refl); lia|done]).
  - unfold string_layout, string_data in *. cbv zeta in *. rewrite !zlen_fmap in Hd |- *.
    destruct Hd as (R1 & R2 & R3 & R4). pose proof (al4_bounds (p + 6 * zlen cells)).
    pose proof (zlen_nonneg (concat (str_of <$> cells))).
    split_and!; (apply Hkeep; [autorewrite with zlen; lia|done]).
  - unfold set_layout, set_data_base, set_hash_base in *. cbv zeta in *.
    rewrite !zlen_fmap in Hd, Hkeep |- *.
    destruct Hd as (R1 & R2 & R3 & R4). pose proof (al4_bounds (p + zlen cells)).
    set (es := concat (elems_of <$> cells)) in *.
    pose proof (zlen_nonneg es). pose proof (zlen_nonneg (concat (record_of <$> es))).
    split_and!; (apply Hkeep; [autorewrite with zlen; lia|done]).
Qed.

Lemma column_nulls_len t fc cells nulls : column_is t fc cells nulls → length nulls = length cells.
Proof.
  intros Hc. destruct (ci_nulls _ _ _ _ Hc) as [[_ ->]|(_ & Hl & _)]; [apply length_replicate|done].
Qed.

Lemma write_column_ok b0 col fc p cells nulls :
  column_is (col_type col) fc cells nulls → 0 ≤ p →
  col_end col cells p ≤ zlen b0 → zlen b0 < 2 ^ 32 →
  ∃ b, write_column (zlen cells) col fc b0 p = Ok (b, col_end col cells p) ∧
    same_outside b0 b p (col_end col cells p) ∧ stored b col p cells nulls.
Proof.
  intros Hc Hp Hfit Hb0. unfold col_end in *.
  pose proof (nulls_len col cells) as Hnn.
  pose proof (data_end_ge (col_type col) cells p Hp) as Hge.
  set (e := data_end (col_type col) cells p) in *.
  pose proof (al4_bounds (e + (if nullable col then zlen cells else 0))) as Hal.
  destruct (write_data_ok b0 col fc p cells nulls Hc Hp) as (b1 & E1 & S1 & L1); [lia|done|].
  pose proof (same_outside_length _ _ _ _ S1) as Hl1.
  destruct (write_nulls_ok b1 (col_type col) col fc e cells nulls Hc) as (b2 & E2 & S2 & L2);
    [lia|unfold zlen in *; lia|].
  exists b2. unfold write_column. fold e in E1. rewrite E1, bind_Ok. rewrite E2, bind_Ok.
  rewrite align4_al4 by lia. split; [done|]. split.
  - eapply same_outside_trans; [exact S1|exact S2|lia..].
  - split; [|done].
    assert (stored b1 (mkColumn [] (col_type col) false) p cells nulls) as Hst by (split; done).
    apply (stored_frame b1 b2 _ p cells nulls e (e + zlen cells)) in Hst; try done.
    + apply Hst.
    + apply (ci_ok _ _ _ _ Hc).
    + by apply (column_nulls_len _ _ _ _ Hc).
    + apply (same_outside_trans b1 b1 b2 e e _ _ _ _ (same_outside_refl _ _ _) S2); lia.
    + simpl. fold e. lia.
Qed.
End column_lemmas.

(** ** Lemmas: sizes *)

Lemma zlen_records es : zlen (records es) = zsum ((λ e, 2 + zlen e) <$> es).
Proof.
  unfold records. rewrite zlen_concat. f_equal. rewrite <- list_fmap_compose.
  apply list_fmap_ext. intros i e _. apply zlen_record.
Qed.

Lemma zlens2_nonneg (es : list (list Z)) : Forall (λ x, 0 ≤ x) ((λ e, 2 + zlen e) <$> es).
Proof. apply Forall_fmap, Forall_true. intros e. pose proof (zlen_nonneg e). simpl. lia. Qed.

Lemma set_elem_length fc k n s :
  set_elem fc k = Ok (n, s) → vec_get (set_elem_lengths fc) k = Ok n.
Proof. unfold set_elem. intros E. res_inv. simplify_eq. done. Qed.

Lemma set_sizes_ok fc es :
  (∀ i x, es !! i = Some x → cell_is Set_ fc (Z.of_nat i) (CSet x) ∧ zlen x < 2 ^ 8) →
  zlen (records (concat es)) < 2 ^ 64 → zlen (concat es) < 2 ^ 64 →
  for_range (length es) 0 (λ i '(n_elem, data_bytes),
    ec ← vec_get (set_counts fc) i;
    off ← vec_get (set_offsets fc) i;
    data_bytes ← for_range (Z.to_nat ec) 0 (λ e data_bytes,
      elen ← vec_get (set_elem_lengths fc) (u32 (off + e));
      mret (u64 (data_bytes + (2 + elen)))) data_bytes;
    mret (u64 (n_elem + ec), data_bytes)) (0, 0)
  = Ok (zlen (concat es), zlen (records (concat es))).
Proof.
  intros Hcells Hr He.
  match goal with |- for_range _ _ ?f _ = _ => set (body := f) end.
  destruct (for_range_ok (λ j st, let k := Z.to_nat j in
      st = (zlen (concat (take k es)), zlen (records (concat (take k es)))))
    body (length es) 0 (0, 0)) as (st & E & Hst).
  - done.
  - intros j st Hj ->. set (k := Z.to_nat j). assert (k < length es)%nat as Hk by lia.
    destruct (lookup_lt_is_Some_2 es k Hk) as [x Hxk].
    destruct (Hcells k x Hxk) as [(Elen & off & Eoff & Eel) Hx].
    replace (Z.of_nat k) with j in * by lia.
    assert (concat (take (S k) es) = concat (take k es) ++ x) as Htake
      by (rewrite (take_snoc _ _ _ Hxk), concat_app; simpl; by rewrite app_nil_r).
    assert (concat es = concat (take k es) ++ x ++ concat (drop (S k) es)) as Hcat
      by (by apply concat_middle).
    rewrite Hcat, !zlen_app in He. rewrite Hcat, !records_app, !zlen_app in Hr.
    pose proof (zlen_nonneg (concat (take k es))). pose proof (zlen_nonneg x).
    pose proof (zlen_nonneg (concat (drop (S k) es))).
    pose proof (zlen_nonneg (records (concat (drop (S k) es)))).
    pose proof (zlen_nonneg (records (concat (take k es)))).
    unfold body. rewrite Elen, bind_Ok, Eoff, bind_Ok, Nat2Z.id.
    replace (Z.to_nat (j + 1)) with (S k) by lia. rewrite Htake, records_app, !zlen_app.
    pose proof (sum_loop_ok (2 ^ 64)
      (λ e, elen ← vec_get (set_elem_lengths fc) (u32 (off + e)); mret (2 + elen))
      ((λ e, 2 + zlen e) <$> x) (zlen (records (concat (take k es))))) as Hsum.
    rewrite length_fmap in Hsum.
    assert (∀ acc, for_range (length x) 0 (λ e data_bytes,
        elen ← vec_get (set_elem_lengths fc) (u32 (off + e));
        mret (u64 (data_bytes + (2 + elen)))) acc =
      for_range (length x) 0 (λ i t, y ← (elen ← vec_get (set_elem_lengths fc) (u32 (off + i));
        mret (2 + elen)); mret ((t + y) mod 2 ^ 64)) acc) as ->.
    { intros acc. apply for_range_ext. intros e t. destruct (vec_get (set_elem_lengths fc) (u32 (off + e))); reflexivity. }
    rewrite Hsum.
    + rewrite bind_Ok. unfold u64. fold (zlen x). rewrite Z.mod_small by lia.
      eexists. split; [done|]. by rewrite <- zlen_records.
    + intros i y Hi. rewrite list_lookup_fmap in Hi. destruct (x !! i) as [s|] eqn:Ei; [|done].
      injection Hi as <-. apply Eel, set_elem_length in Ei. by rewrite Ei.
    + apply zlens2_nonneg.
    + apply zlen_nonneg.
    + rewrite <- zlen_records. lia.
  - rewrite E, Hst. replace (Z.to_nat (0 + Z.of_nat (length es))) with (length es) by lia.
    by rewrite firstn_all.
Qed.

Lemma column_bytes_ok col fc filter_cols c total cells nulls :
  column_is (col_type col) fc cells nulls → vec_get filter_cols c = Ok fc → 0 ≤ total →
  col_end col cells total < 2 ^ 32 →
  column_bytes (zlen cells) col filter_cols c total = Ok (col_end col cells total).
Proof.
  intros Hc Hg Ht Hend. unfold col_end in *. pose proof (nulls_len col cells) as Hnn.
  pose proof (data_end_ge (col_type col) cells total Ht) as Hge.
  set (e := data_end (col_type col) cells total) in *.
  pose proof (al4_bounds (e + (if nullable col then zlen cells else 0))) as Hal.
  pose proof (zlen_nonneg cells) as Hn0.
  unfold column_bytes.
  match goal with |- mbind _ ?m = _ => assert (m = Ok e) as -> end.
  - unfold e in Hge, Hend, Hal |- *. clear e. revert Hge Hend Hal. unfold data_end.
    destruct (col_type col) eqn:Et; intros Hge Hend Hal;
      try (unfold u64; rewrite Z.mod_small by lia; done).
    + unfold string_data in *. pose proof (al4_bounds (total + 6 * zlen cells)).
      pose proof (zlen_nonneg (concat (str_of <$> cells))).
      unfold u64. rewrite (Z.mod_small (total + _)) by lia.
      rewrite align4_al4 by lia. rewrite (Z.mod_small (al4 _ + _)) by
        (replace (total + zlen cells * (4 + 2)) with (total + 6 * zlen cells) by lia; lia).
      rewrite Hg, bind_Ok. rewrite zlen_concat in *.
      replace (Z.to_nat (zlen cells)) with (length (zlen <$> (str_of <$> cells)))
        by (rewrite !length_fmap; unfold zlen; lia).
      rewrite (sum_loop_ok (2 ^ 64) (vec_get (str_lengths fc)) (zlen <$> (str_of <$> cells)) 0).
      * rewrite bind_Ok. rewrite Z.mod_small by
          (replace (total + zlen cells * (4 + 2)) with (total + 6 * zlen cells) by lia; lia).
        unfold mret, res_ret. f_equal.
        replace (total + zlen cells * (4 + 2)) with (total + 6 * zlen cells) by lia. lia.
      * intros i x Hi. rewrite list_lookup_fmap in Hi.
        destruct ((str_of <$> cells) !! i) as [s|] eqn:Ei; [|done]. simplify_eq/=.
        by destruct (cell_at_str fc cells nulls i s Hc Ei) as [? _].
      * apply zlens_nonneg.
      * done.
      * lia.
    + unfold set_data_base, set_hash_base in *. rewrite zlen_fmap in *.
      pose proof (al4_bounds (total + zlen cells)).
      fold (records (concat (elems_of <$> cells))) in *. set (es := elems_of <$> cells) in *.
      pose proof (zlen_nonneg (concat es)). pose proof (zlen_nonneg (records (concat es))).
      rewrite Z.mul_1_r, (u64_id (total + _)) by lia.
      rewrite align4_al4 by lia. rewrite Hg, bind_Ok.
      replace (Z.to_nat (zlen cells)) with (length es)
        by (unfold es; rewrite length_fmap; unfold zlen; lia).
      rewrite (set_sizes_ok fc es) by
        (lia || (intros i x Hi; by apply (cell_at_set fc cells nulls i x Hc))).
      rewrite bind_Ok. rewrite (u64_id (al4 _ + _)), (u64_id (_ + zlen (concat _) * 4)), u64_id by lia.
      unfold mret, res_ret. f_equal. lia.
  - rewrite bind_Ok. unfold mret, res_ret. f_equal. destruct (nullable col).
    + unfold u64. rewrite Z.mod_small by lia. apply align4_al4. lia.
    + rewrite Z.add_0_r in *. apply align4_al4. lia.
Qed.

(** ** Lemmas: reading a column back *)

Lemma sum_mem_loop_ok (M : Z) b base (w : nat) (l : list Z) :
  holds b base (arr w l) → Forall (λ x, 0 ≤ x < 256 ^ Z.of_nat w) l → zsum l < M →
  for_range (length l) 0 (λ i t, x ← mem_uint b (base + Z.of_nat w * i) w; mret ((t + x) mod M)) 0
  = Ok (zsum l).
Proof.
  intros Hh Hl HM.
  apply (sum_loop_ok M (λ i, mem_uint b (base + Z.of_nat w * i) w)); [|eapply Forall_impl; [done|]; intros x Hx; apply Hx|done|lia].
  intros i x Hi. apply (mem_uint_arr _ _ _ _ _ _ Hh Hi). by apply (Forall_lookup_1 _ _ _ _ Hl Hi).
Qed.

Lemma byte_offs_lookup acc lens k :
  Forall (λ x, 0 ≤ x) lens → 0 ≤ acc → acc + zsum lens < 2 ^ 32 → (k ≤ length lens)%nat →
  byte_offs acc lens !! k = Some (acc + zsum (take k lens)).
Proof.
  intros Hl. revert acc k. induction Hl as [|x l Hx Hl IH]; intros acc k Hacc Hs Hk; simpl in *.
  - destruct k; [|lia]. simpl. f_equal. lia.
  - destruct k as [|k]; simpl; [f_equal; lia|]. pose proof (zsum_nonneg l Hl).
    rewrite u32_id by lia. rewrite IH by lia. f_equal. lia.
Qed.

Lemma concat_lookup {A} (ls : list (list A)) (i e : nat) x s :
  ls !! i = Some x → x !! e = Some s → concat ls !! (length (concat (take i ls)) + e)%nat = Some s.
Proof.
  intros Hi He. rewrite (concat_middle _ _ _ Hi), lookup_app_r by lia.
  replace (length (concat (take i ls)) + e - length (concat (take i ls)))%nat with e by lia.
  by rewrite lookup_app_l by (by eapply lookup_lt_Some).
Qed.

Lemma read_string_lengths_ok b base (lens : list Z) :
  holds b base (arr 2 lens) → Forall (λ x, 0 ≤ x < 2 ^ 16) lens → zsum lens < 2 ^ 32 →
  read_string_lengths b base (zlen lens) = Ok (psums 0 lens, lens, zsum lens).
Proof.
  intros Hh Hl Hsum. unfold read_string_lengths.
  assert (Forall (λ x, 0 ≤ x) lens) as Hpos by (eapply Forall_impl; [done|]; intros x Hx; apply Hx).
  match goal with |- for_range _ _ ?f _ = _ => set (body := f) end.
  destruct (for_range_ok (λ j st, let k := Z.to_nat j in
      st = (psums 0 (take k lens), take k lens, zsum (take k lens))) body (length lens) 0 ([], [], 0))
    as (st & E & Hst).
  - done.
  - intros j st Hj ->. set (k := Z.to_nat j). assert (k < length lens)%nat as Hk by lia.
    destruct (lookup_lt_is_Some_2 lens k Hk) as [x Hx].
    pose proof (Forall_lookup_1 _ _ _ _ Hl Hx) as Hxr. simpl in Hxr.
    pose proof (mem_uint_arr b base 2 lens k x Hh Hx) as E.
    replace (Z.of_nat k) with j in E by lia. unfold body. change (Z.of_nat 2) with 2 in E. rewrite E by done. rewrite bind_Ok.
    eexists. split; [done|]. replace (Z.to_nat (j + 1)) with (S k) by lia.
    pose proof (zsum_take_le lens (S k) Hpos) as Hle.
    rewrite (take_snoc _ _ _ Hx), psums_app, zsum_app in *. simpl in *.
    pose proof (zsum_take_le lens k Hpos). rewrite u32_id by lia.
    by rewrite Z.add_0_r.
  - unfold zlen. rewrite Nat2Z.id, E, Hst.
    replace (Z.to_nat (0 + Z.of_nat (length lens))) with (length lens) by lia.
    by rewrite firstn_all.
Qed.

(** A set's elements as the reader leaves them after the first rows. *)
Lemma read_set_elems_ok b db pre x post :
  holds b db (records (pre ++ x ++ post)) →
  Forall (λ s, zlen s < 2 ^ 16) x → zlen pre + zlen x < 2 ^ 32 →
  for_range (length x) 0 (read_set_elem b)
    (db + zlen (records pre), zlen <$> pre, concat pre, zlen pre)
  = Ok (db + zlen (records (pre ++ x)), zlen <$> pre ++ x, concat (pre ++ x), zlen (pre ++ x)).
Proof.
  intros Hh Hx Hn.
  destruct (for_range_ok (λ j st, let l := pre ++ take (Z.to_nat j) x in
      st = (db + zlen (records l), zlen <$> l, concat l, zlen l)) (read_set_elem b)
      (length x) 0 (db + zlen (records pre), zlen <$> pre, concat pre, zlen pre))
    as (st & E & Hst).
  - simpl. by rewrite app_nil_r.
  - intros j st Hj ->. set (k := Z.to_nat j). assert (k < length x)%nat as Hk by lia.
    destruct (lookup_lt_is_Some_2 x k Hk) as [s Hs].
    pose proof (Forall_lookup_1 _ _ _ _ Hx Hs) as Hlen. simpl in Hlen.
    replace (Z.to_nat (j + 1)) with (S k) by lia.
    rewrite (take_snoc _ _ _ Hs), (app_assoc pre). set (l := pre ++ take k x).
    assert (holds b (db + zlen (records l)) (record_of s)) as Hrec.
    { rewrite <- (take_drop_middle _ _ _ Hs) in Hh.
      replace (pre ++ (take k x ++ s :: drop (S k) x) ++ post)
        with (l ++ [s] ++ (drop (S k) x ++ post)) in Hh
        by (unfold l; rewrite <- !app_assoc; done).
      rewrite !records_app, !holds_app, records_singleton in Hh. by destruct Hh as (_ & ? & _). }
    unfold record_of in Hrec. apply holds_app in Hrec as [Hr1 Hr2].
    rewrite length_le_enc in Hr2. pose proof (zlen_nonneg s).
    unfold read_set_elem. rewrite (mem_uint_holds _ _ _ _ Hr1) by (simpl; lia). rewrite bind_Ok.
    rewrite (mem_read_holds' _ _ _ _ Hr2), bind_Ok by done. eexists. split; [done|].
    rewrite records_app, zlen_app, records_singleton, zlen_record, fmap_app, concat_app, zlen_app.
    assert (zlen l = zlen pre + j) as Hzl
      by (unfold l; rewrite zlen_app, zlen_take by lia; lia).
    assert (j < zlen x) by (unfold zlen; lia).
    simpl. rewrite app_nil_r. change (zlen [s]) with 1. pose proof (zlen_nonneg pre).
    rewrite u32_id, Hzl by lia. by rewrite <- !Z.add_assoc.
  - rewrite E, Hst. replace (Z.to_nat (0 + Z.of_nat (length x))) with (length x) by lia.
    by rewrite firstn_all.
Qed.

Lemma read_set_rows_ok b db es :
  holds b db (records (concat es)) →
  Forall (λ x, zlen x < 2 ^ 8 ∧ Forall (λ s, zlen s < 2 ^ 16) x) es → zlen (concat es) < 2 ^ 32 →
  for_range (length es) 0 (read_set_row b (zlen <$> es)) ([], (db, [], [], 0))
  = Ok (psums 0 (zlen <$> es),
      (db + zlen (records (concat es)), zlen <$> concat es, concat (concat es), zlen (concat es))).
Proof.
  intros Hh Hes Hn.
  destruct (for_range_ok (λ j st, let k := Z.to_nat j in let l := concat (take k es) in
      st = (psums 0 (zlen <$> take k es), (db + zlen (records l), zlen <$> l, concat l, zlen l)))
      (read_set_row b (zlen <$> es)) (length es) 0 ([], (db, [], [], 0))) as (st & E & Hst).
  - simpl. by rewrite Z.add_0_r.
  - intros j st Hj ->. set (k := Z.to_nat j). assert (k < length es)%nat as Hk by lia.
    destruct (lookup_lt_is_Some_2 es k Hk) as [x Hx].
    pose proof (Forall_lookup_1 _ _ _ _ Hes Hx) as [Hlen Hel].
    assert (concat es = concat (take k es) ++ x ++ concat (drop (S k) es)) as Hcat
      by (by apply concat_middle).
    unfold read_set_row. replace j with (Z.of_nat k) by lia.
    rewrite (vec_get_lookup _ _ (zlen x)) by (by rewrite list_lookup_fmap, Hx).
    rewrite bind_Ok. replace (Z.to_nat (zlen x)) with (length x) by (unfold zlen; lia).
    rewrite (read_set_elems_ok b db _ x (concat (drop (S k) es))).
    + rewrite bind_Ok. eexists. split; [done|].
      replace (Z.to_nat (Z.of_nat k + 1)) with (S k) by lia.
      assert (concat (take (S k) es) = concat (take k es) ++ x) as ->
        by (rewrite (take_snoc _ _ _ Hx), concat_app; simpl; by rewrite app_nil_r).
      rewrite (take_snoc _ _ _ Hx), (fmap_app zlen (take k es)), psums_app.
      cbn [fmap list_fmap psums]. by rewrite <- zlen_concat_elems.
    + by rewrite <- Hcat.
    + done.
    + rewrite Hcat, !zlen_app in Hn. pose proof (zlen_nonneg (concat (drop (S k) es))). lia.
  - rewrite E, Hst. replace (Z.to_nat (0 + Z.of_nat (length es))) with (length es) by lia.
    by rewrite firstn_all.
Qed.

(** The column data a reader builds: cells packed in row order. *)
Definition canon (t : ColumnType) (cells : list cell) (nulls : list Z) : ColumnData :=
  let strs := str_of <$> cells in
  let es := elems_of <$> cells in
  match t with
  | String => mkCD t nulls [] (psums 0 (zlen <$> strs)) (zlen <$> strs) (concat strs) [] [] [] []
  | Set_ => mkCD t nulls [] [] [] [] (zlen <$> es) (psums 0 (zlen <$> es))
      (zlen <$> concat es) (concat (concat es))
  | _ => mkCD t nulls (concat (fixed_of <$> cells)) [] [] [] [] [] [] []
  end.

Lemma holds_self l : holds l 0 l.
Proof. split_and!; [done|lia|]. by apply bytes_at_exact. Qed.

Lemma vec_get_psums l (i : nat) : (i < length l)%nat →
  vec_get (psums 0 l) (Z.of_nat i) = Ok (zsum (take i l)).
Proof. intros Hi. apply vec_get_lookup. by rewrite psums_lookup. Qed.

Lemma vec_get_fmap {A} (f : A → Z) l (i : nat) x : l !! i = Some x →
  vec_get (f <$> l) (Z.of_nat i) = Ok (f x).
Proof. intros Hi. apply vec_get_lookup. by rewrite list_lookup_fmap, Hi. Qed.

Lemma zsum_take_zlens {A} (ls : list (list A)) i :
  zsum (take i (zlen <$> ls)) = Z.of_nat (length (concat (take i ls))).
Proof.
  rewrite <- fmap_take. generalize (take i ls). intros l. fold (zlen (concat l)).
  induction l as [|x l IH]; [done|]. cbn. by rewrite zlen_app, IH.
Qed.

Lemma canon_fixed t cells i bs :
  Forall (cell_ok t) cells → is_fixed_width t = true → cells !! i = Some (CFixed bs) →
  zlen bs = column_type_width t →
  mem_read (concat (fixed_of <$> cells)) (Z.of_nat i * column_type_width t) (column_type_width t)
  = Ok bs.
Proof.
  intros Hok Ht Hi Hl.
  assert ((fixed_of <$> cells) !! i = Some bs) as Hf by (by rewrite list_lookup_fmap, Hi).
  pose proof (mem_read_concat _ 0 _ i bs (holds_self _) Hf) as E.
  rewrite Z.add_0_l, <- fmap_take, <- zlen_concat, <- fmap_take in E.
  rewrite (zlen_fixed t) in E by (done || by apply Forall_take).
  rewrite zlen_take in E by (apply lookup_lt_Some in Hi; lia).
  by rewrite <- Hl at 2.
Qed.

(** The bytes and positions of the data region bound the payload of the cells. *)
Lemma canon_cell_is t cells nulls i c :
  Forall (cell_ok t) cells → data_end t cells 0 < 2 ^ 32 → cells !! i = Some c →
  cell_is t (canon t cells nulls) (Z.of_nat i) c.
Proof.
  intros Hok Hend Hi. pose proof (Forall_lookup_1 _ _ _ _ Hok Hi) as Hc.
  pose proof (zlen_nonneg cells). revert Hend. unfold data_end.
  destruct t; destruct c as [bs|s|es]; try done; intros Hend.
  1-4: destruct Hc as [Hc _]; by apply (canon_fixed _ cells i bs Hok eq_refl).
  - assert ((str_of <$> cells) !! i = Some s) as Hs by (by rewrite list_lookup_fmap, Hi).
    unfold cell_is, canon. cbn [str_lengths str_offsets str_data].
    rewrite (vec_get_fmap _ _ _ _ Hs). split; [done|]. eexists. split.
    + apply vec_get_psums. rewrite length_fmap. by apply lookup_lt_Some in Hs.
    + apply (mem_read_concat _ 0 _ i s (holds_self _) Hs).
  - assert ((elems_of <$> cells) !! i = Some es) as Hs by (by rewrite list_lookup_fmap, Hi).
    set (ess := elems_of <$> cells) in *.
    unfold cell_is, canon. cbn [set_counts set_offsets]. fold ess.
    rewrite (vec_get_fmap _ _ _ _ Hs). split; [done|]. eexists. split.
    + apply vec_get_psums. rewrite length_fmap. by apply lookup_lt_Some in Hs.
    + intros e x Hx. pose proof (concat_lookup _ _ _ _ _ Hs Hx) as Hk.
      rewrite zsum_take_zlens, <- Nat2Z.inj_add. set (k := (_ + e)%nat) in *.
      pose proof (lookup_lt_Some _ _ _ Hk) as Hlt.
      unfold set_data_base, set_hash_base in Hend. pose proof (al4_bounds (0 + zlen cells)).
      fold (records (concat ess)) in Hend. pose proof (zlen_nonneg ess).
      pose proof (al4_bounds (0 + zlen ess)).
      assert (zsum (zlen <$> concat ess) ≤ zlen (records (concat ess))) as Hz.
      { rewrite zlen_records. generalize (concat ess). intros l.
        induction l as [|y l IH]; [done|]. cbn. pose proof (zlen_nonneg y). lia. }
      pose proof (zlen_nonneg (concat ess)) as Hce. pose proof (zlen_nonneg (records (concat ess))).
      unfold set_elem. cbn [set_elem_lengths set_elem_data].
      rewrite u32_id by (unfold zlen in *; lia).
      rewrite (vec_get_fmap _ _ _ _ Hk), bind_Ok.
      rewrite (vec_get_lookup _ _ (zsum (take k (zlen <$> concat ess)))).
      * pose proof (mem_read_concat _ 0 _ k x (holds_self _) Hk) as E.
        rewrite Z.add_0_l in E. by rewrite bind_Ok, E.
      * rewrite byte_offs_lookup; [done|apply zlens_nonneg|done|lia|rewrite length_fmap; lia].
Qed.

Lemma canon_is t cells nulls :
  Forall (cell_ok t) cells → data_end t cells 0 < 2 ^ 32 →
  nulls = [] ∨ length nulls = length cells ∧ bytes_ok nulls →
  column_is t (canon t cells nulls) cells
    (if decide (nulls = []) then replicate (length cells) 0 else nulls).
Proof.
  intros Hok Hend Hn. split; [|done|].
  - intros i c. by apply canon_cell_is.
  - assert (null_mask (canon t cells nulls) = nulls) as -> by (by destruct t).
    case_decide; [by left|right]. destruct Hn as [|[? ?]]; [done|]. by split_and!.
Qed.

Section read_lemmas.
Context `{RapidHash}.

Lemma read_nulls_ok b col p e (cells : list cell) nulls :
  (nullable col = true → holds b e nulls) → length nulls = length cells → p = e →
  read_nulls b (zlen cells) col p =
    Ok (if nullable col then nulls else [], e + if nullable col then zlen cells else 0).
Proof.
  intros Hh Hl ->. unfold read_nulls. destruct (nullable col); [|by rewrite Z.add_0_r].
  rewrite (mem_read_holds' _ _ _ _ (Hh eq_refl)); [done|]. unfold zlen. by rewrite Hl.
Qed.

Lemma strs_ok (cells : list cell) :
  Forall (cell_ok String) cells → Forall (λ x, 0 ≤ x < 2 ^ 16) (zlen <$> (str_of <$> cells)).
Proof.
  intros Hok. rewrite !Forall_fmap. eapply Forall_impl; [exact Hok|].
  intros [|s|] Hc; simpl in *; try done. unfold zlen. lia.
Qed.

Lemma elems_ok (cells : list cell) :
  Forall (cell_ok Set_) cells →
  Forall (λ x : list (list Z), zlen x < 2 ^ 8 ∧ Forall (λ s, zlen s < 2 ^ 16) x) (elems_of <$> cells).
Proof.
  intros Hok. rewrite !Forall_fmap. eapply Forall_impl; [exact Hok|].
  intros [| |es] Hc; simpl in *; try done. destruct Hc as [H1 H2]. split; [done|].
  eapply Forall_impl; [exact H2|]. by intros x [? _].
Qed.

Lemma arr_1 l : Forall (λ x, 0 ≤ x < 2 ^ 8) l → arr 1 l = l.
Proof.
  induction 1 as [|x l Hx _ IH]; [done|]. unfold arr in *. rewrite fmap_cons. cbn [concat].
  rewrite IH. cbn [le_enc app]. by rewrite Z.mod_small by lia.
Qed.

Lemma read_column_ok b col p cells nulls :
  stored b col p cells nulls → Forall (cell_ok (col_type col)) cells →
  length nulls = length cells → 0 ≤ p → col_end col cells p ≤ zlen b → zlen b < 2 ^ 32 →
  read_column b (zlen cells) col p =
    Ok (canon (col_type col) cells (if nullable col then nulls else []), col_end col cells p).
Proof.
  intros [Hd Hn] Hok Hln Hp Hfit Hb. unfold col_end in *. pose proof (nulls_len col cells) as Hnn.
  pose proof (data_end_ge (col_type col) cells p Hp) as Hge.
  pose proof (al4_bounds (data_end (col_type col) cells p + (if nullable col then zlen cells else 0)))
    as Hal. pose proof (zlen_nonneg cells) as Hn0.
  assert (Z.to_nat (zlen cells) = length cells) as Hcl by (unfold zlen; lia).
  assert (∀ fc, ('(nulls', q) ← read_nulls b (zlen cells) col (data_end (col_type col) cells p);
     mret (fc nulls', q)) = (Ok (fc (if nullable col then nulls else []),
       data_end (col_type col) cells p + (if nullable col then zlen cells else 0)) : res (ColumnData * Z)))
    as Hnulls by (intros fc; by rewrite (read_nulls_ok b col _ _ cells nulls Hn Hln eq_refl)).
  unfold read_column.
  match goal with |- mbind _ ?m = _ => assert (m = Ok (canon (col_type col) cells
    (if nullable col then nulls else []), data_end (col_type col) cells p +
    (if nullable col then zlen cells else 0))) as -> end;
    [|rewrite bind_Ok; rewrite align4_al4 by lia; done].
  revert Hd Hnulls Hge Hal Hfit. unfold data_end.
  destruct (col_type col) eqn:Et; intros Hd Hnulls Hge Hal Hfit;
    try (rewrite (mem_read_holds' _ _ _ _ Hd) by (by rewrite (zlen_fixed _ _ Hok eq_refl));
         rewrite bind_Ok; apply (Hnulls (λ nulls', mkCD _ nulls' _ [] [] [] [] [] [] []))).
  - destruct Hd as (R1 & R2 & R3 & R4). unfold string_data in *. rewrite !zlen_fmap in R2, R3, R4.
    pose proof (al4_bounds (p + 6 * zlen cells)) as Ha.
    pose proof (zlen_nonneg (concat (str_of <$> cells))).
    assert (zsum (zlen <$> (str_of <$> cells)) = zlen (concat (str_of <$> cells))) as Hz
      by (by rewrite zlen_concat).
    pose proof (read_string_lengths_ok b _ _ R2 (strs_ok cells Hok)) as E.
    rewrite Hz, !zlen_fmap in E. rewrite (Z.mul_comm (zlen cells) 4), E by lia.
    rewrite bind_Ok.
    replace (align4 (p + 4 * zlen cells + zlen cells * 2)) with (al4 (p + 6 * zlen cells))
      by (rewrite align4_al4 by lia; f_equal; lia).
    rewrite (mem_read_holds' _ _ _ _ R4), bind_Ok by done.
    apply (Hnulls (λ nulls', mkCD _ nulls' [] _ _ _ [] [] [] [])).
  - destruct Hd as (R1 & R2 & R3 & R4).
    set (es := elems_of <$> cells) in *. assert (zlen es = zlen cells) as Hes by apply zlen_fmap.
    assert (length es = length cells) as Hel by apply length_fmap.
    assert (arr 1 (zlen <$> es) = zlen <$> es) as Harr.
    { apply arr_1. rewrite Forall_fmap. eapply Forall_impl; [by apply elems_ok|].
      intros x [? _]. simpl. pose proof (zlen_nonneg x). lia. }
    rewrite Harr in R1. unfold set_data_base, set_hash_base in *. rewrite Hes in R2, R3, R4, Hnulls, Hge, Hal, Hfit |- *.
    pose proof (al4_bounds (p + zlen cells)) as Ha.
    pose proof (zlen_nonneg (concat es)) as Hce.
    fold (records (concat es)) in *. pose proof (zlen_nonneg (records (concat es))) as Hre.
    rewrite (mem_read_holds' _ _ _ _ R1), bind_Ok by (by rewrite zlen_fmap).
    rewrite Hcl. assert (for_range (length cells) 0
        (λ i tot, ec ← vec_get (zlen <$> es) i; mret (u32 (tot + ec))) 0 = Ok (zlen (concat es))) as ->.
    { rewrite zlen_concat_elems, <- Hel, <- (length_fmap zlen es).
      apply (sum_loop_ok (2 ^ 32) (vec_get (zlen <$> es)) (zlen <$> es) 0);
        [intros i x; apply vec_get_lookup|apply zlens_nonneg|done|].
      rewrite <- zlen_concat_elems. lia. }
    rewrite bind_Ok, <- Hel. rewrite Z.mul_1_r. rewrite align4_al4 by lia.
    rewrite (Z.mul_comm (zlen cells) 4), (Z.mul_comm (zlen (concat es)) 4).
    rewrite (read_set_rows_ok b _ es R4) by (lia || by apply elems_ok). rewrite bind_Ok.
    apply (Hnulls (λ nulls', mkCD _ nulls' [] [] [] [] _ _ _ _)).
Qed.
End read_lemmas.

(** ** The whole leaf: one column after the other *)

(** What a leaf stores: per column its cells and its validity flags. *)
Abbreviation table := (list (list cell * list Z)) (only parsing).

Definition table_is (n : nat) (cols : list FilterColumn) (fcs : list ColumnData)
    (tbl : table) : Prop :=
  Forall3 (λ col fc d, column_is (col_type col) fc d.1 d.2 ∧ length d.1 = n) cols fcs tbl.

Fixpoint columns_end (cols : list FilterColumn) (tbl : table) (p : Z) : Z :=
  match cols, tbl with
  | col :: cols', d :: tbl' => columns_end cols' tbl' (col_end col d.1 p)
  | _, _ => p
  end.

(** The flags that survive storage: a non-nullable column has none. *)
Definition stored_nulls (col : FilterColumn) (d : list cell * list Z) : list cell * list Z :=
  (d.1, if nullable col then d.2 else replicate (length d.1) 0).

Definition stored_table (cols : list FilterColumn) (tbl : table) : table :=
  zip_with stored_nulls cols tbl.

Lemma col_end_ge col cells p : 0 ≤ p → p ≤ col_end col cells p.
Proof.
  intros Hp. unfold col_end. pose proof (data_end_ge (col_type col) cells p Hp).
  pose proof (nulls_len col cells).
  pose proof (al4_bounds (data_end (col_type col) cells p + (if nullable col then zlen cells else 0))).
  lia.
Qed.

Lemma columns_end_ge cols tbl p : 0 ≤ p → p ≤ columns_end cols tbl p.
Proof.
  revert tbl p. induction cols as [|col cols IH]; intros [|d tbl] p Hp; simpl; try lia.
  pose proof (col_end_ge col d.1 p Hp).
  specialize (IH tbl (col_end col d.1 p) ltac:(lia)). lia.
Qed.

Lemma al4_mono v w : v ≤ w → al4 v ≤ al4 w.
Proof. intros. unfold al4. Z.div_mod_to_equations. lia. Qed.

Lemma data_end_mono t cells p : 0 ≤ p → data_end t cells 0 ≤ data_end t cells p.
Proof.
  intros Hp. unfold data_end, string_data, set_data_base, set_hash_base.
  destruct t; try lia.
  - pose proof (al4_mono (0 + 6 * zlen cells) (p + 6 * zlen cells)). lia.
  - pose proof (al4_mono (0 + zlen (elems_of <$> cells)) (p + zlen (elems_of <$> cells))). lia.
Qed.

(** The columns a reader builds for a stored table. *)
Definition canon_columns (cols : list FilterColumn) (tbl : table) : list ColumnData :=
  zip_with (λ col d, canon (col_type col) d.1 (if nullable col then d.2 else [])) cols tbl.

(** A column's cells and flags fit its type. *)
Definition column_ok (col : FilterColumn) (d : list cell * list Z) : Prop :=
  Forall (cell_ok (col_type col)) d.1 ∧ length d.2 = length d.1 ∧ bytes_ok d.2.

Lemma column_is_ok col fc d : column_is (col_type col) fc d.1 d.2 → column_ok col d.
Proof.
  intros Hc. split; [apply (ci_ok _ _ _ _ Hc)|]. split; [by apply (column_nulls_len _ _ _ _ Hc)|].
  destruct (ci_nulls _ _ _ _ Hc) as [[_ ->]|(_ & _ & ?)]; [by apply Forall_replicate|done].
Qed.

Lemma canon_column_is col d p :
  column_ok col d → 0 ≤ p → col_end col d.1 p < 2 ^ 32 →
  column_is (col_type col) (canon (col_type col) d.1 (if nullable col then d.2 else []))
    (stored_nulls col d).1 (stored_nulls col d).2.
Proof.
  intros (Hok & Hnl & Hby) Hp Hfit.
  assert (data_end (col_type col) d.1 0 < 2 ^ 32) as Hend.
  { pose proof (data_end_mono (col_type col) d.1 p Hp). unfold col_end in Hfit.
    pose proof (nulls_len col d.1).
    pose proof (al4_bounds (data_end (col_type col) d.1 p + (if nullable col then zlen d.1 else 0))).
    lia. }
  unfold stored_nulls. cbn [fst snd]. destruct (nullable col).
  - pose proof (canon_is (col_type col) d.1 d.2 Hok Hend) as Hcan.
    case_decide as Hd; [|apply Hcan; by right].
    specialize (Hcan (or_introl Hd)). rewrite Hd in Hnl, Hcan |- *.
    rewrite <- Hnl in Hcan. exact Hcan.
  - pose proof (canon_is (col_type col) d.1 [] Hok Hend (or_introl eq_refl)) as Hcan.
    by rewrite decide_True in Hcan.
Qed.

Section leaf.
Context `{RapidHash}.

Fixpoint all_stored (b : list Z) (cols : list FilterColumn) (tbl : table) (p : Z) : Prop :=
  match cols, tbl with
  | col :: cols', d :: tbl' =>
      stored b col p d.1 d.2 ∧ all_stored b cols' tbl' (col_end col d.1 p)
  | _, _ => True
  end.

Lemma vec_get_middle {A} (pre : list A) x post : vec_get (pre ++ x :: post) (zlen pre) = Ok x.
Proof. apply vec_get_lookup. by rewrite list_lookup_middle. Qed.

Lemma write_columns_ok n cols pre fcs tbl b0 p :
  table_is n cols fcs tbl → 0 ≤ p → columns_end cols tbl p ≤ zlen b0 → zlen b0 < 2 ^ 32 →
  ∃ b, write_columns_loop (Z.of_nat n) cols (pre ++ fcs) (zlen pre) b0 p =
      Ok (b, columns_end cols tbl p) ∧
    same_outside b0 b p (columns_end cols tbl p) ∧ all_stored b cols tbl p.
Proof.
  intros Ht. revert pre b0 p.
  induction Ht as [|col fc d cols fcs tbl [Hc Hn] Ht IH]; intros pre b0 p Hp Hfit Hb.
  - exists b0. split_and!; [done|apply same_outside_refl|done].
  - cbn [columns_end write_columns_loop all_stored] in *. set (q := col_end col d.1 p) in *.
    assert (p ≤ q) as Hpq by (by apply col_end_ge).
    pose proof (columns_end_ge cols tbl q ltac:(lia)) as Hq.
    rewrite vec_get_middle, bind_Ok.
    destruct (write_column_ok b0 col fc p d.1 d.2 Hc Hp) as (b1 & E1 & S1 & L1); [fold q; lia|done|].
    unfold zlen at 1 in E1. rewrite Hn in E1. rewrite E1, bind_Ok. fold q in S1 |- *.
    pose proof (same_outside_length _ _ _ _ S1) as Hl.
    assert (zlen b1 = zlen b0) as Hzl by (unfold zlen; by rewrite Hl).
    destruct (IH (pre ++ [fc]) b1 q) as (b2 & E2 & S2 & L2); [lia..|].
    rewrite zlen_app, <- app_assoc in E2. exists b2. split; [exact E2|]. split.
    + eapply same_outside_trans; [exact S1|exact S2|lia..].
    + split; [|done].
      apply (stored_frame b1 b2 _ _ _ _ q (columns_end cols tbl q)); [| |done|done| |done].
      * apply (ci_ok _ _ _ _ Hc).
      * by apply (column_nulls_len _ _ _ _ Hc).
      * unfold q, col_end. apply al4_bounds.
Qed.

Lemma bytes_loop_ok n cols pre fcs tbl p :
  table_is n cols fcs tbl → 0 ≤ p → columns_end cols tbl p < 2 ^ 32 →
  columns_bytes_loop (Z.of_nat n) cols (pre ++ fcs) (zlen pre) p = Ok (columns_end cols tbl p).
Proof.
  intros Ht. revert pre p.
  induction Ht as [|col fc d cols fcs tbl [Hc Hn] Ht IH]; intros pre p Hp Hfit; [done|].
  cbn [columns_end columns_bytes_loop] in *. set (q := col_end col d.1 p) in *.
  assert (p ≤ q) as Hpq by (by apply col_end_ge).
  pose proof (columns_end_ge cols tbl q ltac:(lia)) as Hq.
  pose proof (column_bytes_ok col fc (pre ++ fc :: fcs) (zlen pre) p d.1 d.2 Hc
    (vec_get_middle _ _ _) Hp ltac:(fold q; lia)) as E.
  unfold zlen at 1 in E. rewrite Hn in E. rewrite E, bind_Ok. fold q.
  specialize (IH (pre ++ [fc]) q ltac:(lia) Hfit).
  by rewrite zlen_app, <- app_assoc in IH.
Qed.

Lemma read_columns_ok n cols fcs tbl b p :
  table_is n cols fcs tbl → all_stored b cols tbl p → 0 ≤ p →
  columns_end cols tbl p ≤ zlen b → zlen b < 2 ^ 32 →
  read_columns_loop b (Z.of_nat n) cols p = Ok (canon_columns cols tbl, columns_end cols tbl p) ∧
  table_is n cols (canon_columns cols tbl) (stored_table cols tbl).
Proof.
  intros Ht. revert p.
  induction Ht as [|col fc d cols fcs tbl [Hc Hn] Ht IH]; intros p Hst Hp Hfit Hb.
  - split; [done|constructor].
  - cbn [columns_end read_columns_loop all_stored] in *. destruct Hst as [Hs Hst].
    pose proof (col_end_ge col d.1 p Hp) as Hpq.
    pose proof (columns_end_ge cols tbl (col_end col d.1 p) ltac:(lia)) as Hq.
    pose proof (read_column_ok b col p d.1 d.2 Hs (ci_ok _ _ _ _ Hc)
      (column_nulls_len _ _ _ _ Hc) Hp ltac:(lia) Hb) as E.
    unfold zlen at 1 in E. rewrite Hn in E. rewrite E, bind_Ok.
    destruct (IH (col_end col d.1 p)) as (-> & Ht'); [done|lia..|].
    rewrite bind_Ok. split; [done|]. constructor; [|done]. split; [|done].
    apply (canon_column_is col d p); [by apply (column_is_ok col fc)|done|lia].
Qed.

(** C11: the filter columns of a leaf round trip: [filter_columns_bytes] is the
    number of bytes [write_filter_columns] writes, the writer touches no other
    byte of the leaf, and [read_filter_columns] returns columns with the same
    cells and validity flags, for any schema, any number of rows and any source
    offsets. *)
Theorem filter_columns_roundtrip n schema fcs tbl buf :
  table_is n (columns schema) fcs tbl →
  columns_end (columns schema) tbl 0 ≤ zlen buf → zlen buf < 2 ^ 32 →
  ∃ size buf' fcs',
    filter_columns_bytes (Z.of_nat n) schema fcs = Ok size ∧
    write_filter_columns buf (Z.of_nat n) schema fcs = Ok (buf', size) ∧
    same_outside buf buf' 0 size ∧
    read_filter_columns buf' (Z.of_nat n) schema = Ok (fcs', size) ∧
    table_is n (columns schema) fcs' (stored_table (columns schema) tbl).
Proof.
  intros Ht Hfit Hb. exists (columns_end (columns schema) tbl 0).
  destruct (write_columns_ok n _ [] fcs tbl buf 0 Ht) as (b & E & S1 & L1); [lia..|].
  pose proof (bytes_loop_ok n _ [] fcs tbl 0 Ht ltac:(lia) ltac:(lia)) as Eb.
  destruct (read_columns_ok n _ fcs tbl b 0 Ht L1) as (Er & Ht'); [lia|..].
  { unfold zlen. by rewrite (same_outside_length _ _ _ _ S1). }
  { unfold zlen. by rewrite (same_outside_length _ _ _ _ S1). }
  exists b, (canon_columns (columns schema) tbl).
  unfold filter_columns_bytes, write_filter_columns, read_filter_columns.
  destruct (columns schema) as [|col cols] eqn:Ec.
  - rewrite bool_decide_true by done. simpl in *. simplify_eq. by split_and!.
  - inversion Ht; subst. rewrite !bool_decide_false by done. by split_and!.
Qed.
End leaf.

(** ** Lemmas: views *)

(** The view of a column whose cells are stored at [p]. *)
Definition view_of (col : FilterColumn) (cells : list cell) (p : Z) : ColumnView :=
  let n := zlen cells in
  let nulls := if nullable col then Some (data_end (col_type col) cells p) else None in
  match col_type col with
  | String => mkView String nulls 0 0 p (p + 4 * n) (al4 (p + 6 * n)) (string_data p n) 0 0 0 0
  | Set_ => mkView Set_ nulls 0 0 0 0 0 0 p (al4 (p + n)) (set_hash_base p n)
      (set_data_base p (elems_of <$> cells))
  | t => mkView t nulls p (column_type_width t) 0 0 0 0 0 0 0 0
  end.

Lemma skip_elems_ok b db pre post :
  holds b db (records (pre ++ post)) → Forall (λ s, zlen s < 2 ^ 16) pre →
  skip_elems b db (zlen pre) = Ok (db + zlen (records pre)).
Proof.
  intros Hh Hpre. unfold skip_elems, zlen at 1. rewrite Nat2Z.id.
  match goal with |- for_range _ _ ?f _ = _ => set (body := f) end.
  destruct (for_range_ok (λ j q, q = db + zlen (records (take (Z.to_nat j) pre))) body
    (length pre) 0 db) as (q & E & Hq).
  - unfold zlen. simpl. lia.
  - intros j q Hj ->. set (k := Z.to_nat j). assert (k < length pre)%nat as Hk by lia.
    destruct (lookup_lt_is_Some_2 pre k Hk) as [s Hs].
    pose proof (Forall_lookup_1 _ _ _ _ Hpre Hs) as Hl. simpl in Hl. pose proof (zlen_nonneg s).
    assert (holds b (db + zlen (records (take k pre))) (record_of s)) as Hrec.
    { rewrite <- (take_drop_middle _ _ _ Hs) in Hh. rewrite <- app_assoc in Hh.
      change ((s :: drop (S k) pre) ++ post) with ([s] ++ (drop (S k) pre ++ post)) in Hh.
      rewrite !records_app, !holds_app, records_singleton in Hh. by destruct Hh as (_ & ? & _). }
    unfold record_of in Hrec. apply holds_app in Hrec as [Hr _]. unfold body.
    rewrite (mem_uint_holds _ _ _ _ Hr) by (change (256 ^ Z.of_nat 2) with (2 ^ 16); lia).
    rewrite bind_Ok. eexists. split; [done|]. replace (Z.to_nat (j + 1)) with (S k) by lia.
    rewrite (take_snoc _ _ _ Hs), records_app, zlen_app, records_singleton, zlen_record. lia.
  - rewrite E, Hq. replace (Z.to_nat (0 + Z.of_nat (length pre))) with (length pre) by lia.
    by rewrite firstn_all.
Qed.

Lemma elems_short (cells : list cell) :
  Forall (cell_ok Set_) cells → Forall (λ s, zlen s < 2 ^ 16) (concat (elems_of <$> cells)).
Proof.
  intros Hok. apply Forall_concat. eapply Forall_impl; [by apply elems_ok|]. by intros x [_ ?].
Qed.

Section view_lemmas.
Context `{RapidHash}.

Lemma parse_column_ok b col p cells nulls :
  stored b col p cells nulls → Forall (cell_ok (col_type col)) cells → 0 ≤ p →
  col_end col cells p ≤ zlen b → zlen b < 2 ^ 32 →
  parse_column b (zlen cells) col p = Ok (view_of col cells p, col_end col cells p).
Proof.
  intros [Hd _] Hok Hp Hfit Hb. unfold col_end in *. pose proof (nulls_len col cells) as Hnn.
  pose proof (data_end_ge (col_type col) cells p Hp) as Hge.
  set (e := data_end (col_type col) cells p) in *.
  pose proof (al4_bounds (e + (if nullable col then zlen cells else 0))) as Hal.
  pose proof (zlen_nonneg cells) as Hn0.
  assert (∀ mk : option Z → ColumnView,
    (let '(nulls, q) := if nullable col then (Some e, e + zlen cells) else (None, e) in
     mret (mk nulls, align4 q)) = (Ok (mk (if nullable col then Some e else None),
       al4 (e + if nullable col then zlen cells else 0)) : res (ColumnView * Z))) as Hmk.
  { intros mk. destruct (nullable col); rewrite align4_al4 by lia; [done|].
    by rewrite Z.add_0_r. }
  unfold parse_column, view_of. fold e.
  match goal with |- mbind _ ?m = _ =>
    assert (∃ mk, m = Ok (mk, e) ∧ mk (if nullable col then Some e else None) = view_of col cells p)
      as (mk & -> & Emk) end;
    [|rewrite bind_Ok, Hmk, Emk; unfold view_of; by fold e].
  clear Hmk. unfold view_of. fold e. unfold e in *. clear e.
  revert Hd Hge Hal Hfit. unfold data_end.
  destruct (col_type col) eqn:Et; intros Hd Hge Hal Hfit; try (eexists; split; reflexivity).
  - destruct Hd as (R1 & R2 & R3 & R4). unfold string_data in *. rewrite !zlen_fmap in R2, R3, R4.
    pose proof (al4_bounds (p + 6 * zlen cells)) as Ha.
    assert (zsum (zlen <$> (str_of <$> cells)) = zlen (concat (str_of <$> cells))) as Hz
      by (by rewrite zlen_concat).
    pose proof (zlen_nonneg (concat (str_of <$> cells))) as Hcs.
    replace (align4 (p + zlen cells * 4 + zlen cells * 2)) with (al4 (p + 6 * zlen cells))
      by (rewrite align4_al4 by lia; f_equal; lia).
    rewrite !(Z.mul_comm (zlen cells) 4). set (ls := zlen <$> (str_of <$> cells)) in *.
    assert (length ls = length cells) as Hls by (unfold ls; by rewrite !length_fmap).
    match goal with |- ∃ mk, mbind _ ?m = _ ∧ _ => assert (m = Ok (al4 (p + 6 * zlen cells) +
      4 * zlen cells + zlen (concat (str_of <$> cells)))) as -> end; [|eexists; split; reflexivity].
    destruct (Z.ltb_spec 0 (zlen cells)) as [Hpos|Hneg].
    + assert (∃ k, length cells = S k) as [k Hk]
        by (destruct (length cells) eqn:E; [unfold zlen in Hpos; lia|by eexists]).
      replace (zlen cells - 1) with (Z.of_nat k) by (unfold zlen; lia).
      destruct (lookup_lt_is_Some_2 ls k) as [x Hx]; [lia|].
      pose proof (Forall_lookup_1 _ _ _ _ (strs_ok _ Hok) Hx) as Hxr. simpl in Hxr.
      assert (zsum ls = zsum (take k ls) + x) as Hsum.
      { rewrite <- (firstn_all ls) at 1. rewrite Hls, Hk, (take_snoc _ _ _ Hx), zsum_app.
        simpl. lia. }
      pose proof (zsum_take_le ls k (zlens_nonneg _)) as Htk.
      assert (psums 0 ls !! k = Some (zsum (take k ls))) as Hps by (rewrite psums_lookup by lia; done).
      pose proof (mem_uint_arr _ _ _ _ _ _ R1 Hps) as E1.
      pose proof (mem_uint_arr _ _ _ _ _ _ R2 Hx) as E2.
      change (256 ^ Z.of_nat 4) with (2 ^ 32) in E1. change (256 ^ Z.of_nat 2) with (2 ^ 16) in E2.
      change (Z.of_nat 4) with 4 in E1. change (Z.of_nat 2) with 2 in E2.
      rewrite E1, bind_Ok, E2, bind_Ok by lia. rewrite u32_id by lia.
      unfold mret, res_ret. f_equal. lia.
    + assert (cells = []) as -> by (apply length_zero_iff_nil; unfold zlen in Hneg; lia).
      unfold mret, res_ret. f_equal. unfold zlen. simpl. lia.
  - destruct Hd as (R1 & R2 & R3 & R4).
    set (es := elems_of <$> cells) in *. assert (zlen es = zlen cells) as Hes by apply zlen_fmap.
    assert (length es = length cells) as Hel by apply length_fmap.
    unfold set_data_base, set_hash_base in *. rewrite Hes in *.
    pose proof (al4_bounds (p + zlen cells)) as Ha. pose proof (zlen_nonneg (concat es)) as Hce.
    fold (records (concat es)) in *. pose proof (zlen_nonneg (records (concat es))) as Hre.
    replace (Z.to_nat (zlen cells)) with (length (zlen <$> es))
      by (rewrite length_fmap, Hel; unfold zlen; lia).
    pose proof (sum_mem_loop_ok (2 ^ 32) b p 1 (zlen <$> es) R1) as E.
    rewrite (for_range_ext _ (λ i t, x ← mem_uint b (p + Z.of_nat 1 * i) 1; mret ((t + x) mod 2 ^ 32))).
    + rewrite E; [|rewrite Forall_fmap; eapply Forall_impl; [by apply elems_ok|];
          intros x [? _]; simpl; pose proof (zlen_nonneg x); lia
        |rewrite <- zlen_concat_elems; lia].
      rewrite bind_Ok, <- zlen_concat_elems, Z.mul_1_r, align4_al4 by lia.
      rewrite (Z.mul_comm (zlen cells) 4), (Z.mul_comm (zlen (concat es)) 4).
      rewrite (skip_elems_ok b _ (concat es) []) by (rewrite ?app_nil_r; done || by apply elems_short).
      rewrite bind_Ok. eexists. split; reflexivity.
    + intros j t. by replace (p + Z.of_nat 1 * j) with (p + j) by lia.
Qed.

(** [view_cell b v i c]: every accessor of the view answers as for the cell [c]. *)
Definition view_cell (b : list Z) (v : ColumnView) (i : Z) (c : cell) : Prop :=
  match c with
  | CFixed bs =>
      read_fixed b v i (length bs) = Ok (le_dec bs) ∧
      (length bs = 1%nat → read_bool b v i = Ok (negb (le_dec bs =? 0)))
  | CStr s => read_string b v i = Ok s ∧ read_string_hash b v i = Ok (filter_hash s)
  | CSet es =>
      (∀ q, set_contains_hash b v i q = Ok (bool_decide (q ∈ filter_hash <$> es))) ∧
      (∀ q, set_contains_string b v i q = Ok (bool_decide (q ∈ es)))
  end.

Definition view_is (b : list Z) (v : ColumnView) (col : FilterColumn)
    (d : list cell * list Z) : Prop :=
  v_type v = col_type col ∧
  ∀ i c x, d.1 !! i = Some c → d.2 !! i = Some x →
    view_cell b v (Z.of_nat i) c ∧
    view_null b v (Z.of_nat i) = Ok (nullable col && negb (x =? 0)).

Lemma scan_hashes_ok b p hs q :
  holds b p (arr 4 hs) → Forall (λ h, 0 ≤ h < 2 ^ 32) hs →
  scan_hashes b (length hs) p q = Ok (bool_decide (q ∈ hs)).
Proof.
  intros Hh Hhs. revert p Hh. induction Hhs as [|h hs Hr Hhs IH]; intros p Hh.
  - by rewrite bool_decide_false by (by intros ?%not_elem_of_nil).
  - change (arr 4 (h :: hs)) with (le_enc 4 h ++ arr 4 hs) in Hh.
    apply holds_app in Hh as [H1 H2]. rewrite length_le_enc in H2.
    cbn [scan_hashes length]. rewrite (mem_uint_holds _ _ _ _ H1) by (exact Hr). rewrite bind_Ok.
    destruct (Z.eqb_spec h q) as [->|Hne].
    + by rewrite bool_decide_true by left.
    + rewrite (IH (p + 4)) by done. f_equal. apply bool_decide_ext. rewrite elem_of_cons. intuition congruence.
Qed.

Lemma scan_elems_ok b p es post q :
  holds b p (records (es ++ post)) → Forall (λ s, zlen s < 2 ^ 16) es →
  scan_elems b (length es) p q = Ok (bool_decide (q ∈ es)).
Proof.
  intros Hh Hes. revert p Hh. induction Hes as [|s es Hr Hes IH]; intros p Hh.
  - by rewrite bool_decide_false by (by intros ?%not_elem_of_nil).
  - change ((s :: es) ++ post) with ([s] ++ (es ++ post)) in Hh.
    rewrite records_app, records_singleton in Hh. pose proof (zlen_nonneg s).
    apply holds_app in Hh as [H1 H2]. fold (zlen (record_of s)) in H2. rewrite zlen_record in H2.
    unfold record_of in H1. apply holds_app in H1 as [H1 H3]. rewrite length_le_enc in H3.
    cbn [scan_elems length]. rewrite (mem_uint_holds _ _ _ _ H1) by
      (change (256 ^ Z.of_nat 2) with (2 ^ 16); lia).
    rewrite bind_Ok. replace (p + 2 + zlen s) with (p + (2 + zlen s)) by lia.
    fold (zlen q). change (Z.of_nat 2) with 2 in H3.
    destruct (Z.eqb_spec (zlen s) (zlen q)) as [Hl|Hl].
    + rewrite (mem_read_holds' _ _ _ _ H3), bind_Ok by done. cbn [andb].
      destruct (decide (s = q)) as [->|Hsq].
      * rewrite (bool_decide_true (q = q)) by done. by rewrite bool_decide_true by left.
      * rewrite (bool_decide_false (s = q)), IH by done. f_equal. apply bool_decide_ext. rewrite elem_of_cons. intuition congruence.
    + rewrite bind_Ok. cbn [andb]. rewrite IH by done. f_equal. apply bool_decide_ext.
      rewrite elem_of_cons. intuition congruence.
Qed.

Lemma view_set_ok b v p (cells : list cell) i es :
  set_layout b p (elems_of <$> cells) → Forall (cell_ok Set_) cells →
  cells !! i = Some (CSet es) → zlen b < 2 ^ 32 → 0 ≤ p →
  v_set_counts v = p → v_set_offsets v = al4 (p + zlen cells) →
  v_set_hashes v = set_hash_base p (zlen cells) →
  v_set_data v = set_data_base p (elems_of <$> cells) → view_cell b v (Z.of_nat i) (CSet es).
Proof.
  intros (R1 & R2 & R3 & R4) Hok Hi Hb Hp E1 E2 E3 E4.
  set (ess := elems_of <$> cells) in *. assert (zlen ess = zlen cells) as Hes by apply zlen_fmap.
  rewrite Hes in *. fold (records (concat ess)) in R4.
  assert (ess !! i = Some es) as Hs by (by unfold ess; rewrite list_lookup_fmap, Hi).
  pose proof (Forall_lookup_1 _ _ _ _ (elems_ok _ Hok) Hs) as [Hlen Hshort].
  assert ((zlen <$> ess) !! i = Some (zlen es)) as Hzs by (by rewrite list_lookup_fmap, Hs).
  pose proof (mem_uint_arr _ _ _ _ _ _ R1 Hzs) as Ec.
  assert (psums 0 (zlen <$> ess) !! i = Some (zlen (concat (take i ess)))) as Hps.
  { rewrite psums_lookup by (by eapply lookup_lt_Some). by rewrite zsum_take_zlens. }
  pose proof (mem_uint_arr _ _ _ _ _ _ R2 Hps) as Eo.
  change (Z.of_nat 1) with 1 in Ec. change (Z.of_nat 4) with 4 in Eo.
  change (256 ^ 1) with (2 ^ 8) in Ec. change (256 ^ 4) with (2 ^ 32) in Eo.
  rewrite Z.mul_1_l in Ec. pose proof (zlen_nonneg es).
  pose proof (concat_middle _ _ _ Hs) as Hcat. set (pre := concat (take i ess)) in *.
  assert (zlen pre < 2 ^ 32) as Hpre.
  { destruct R3 as (_ & R3 & _). fold (zlen (arr 4 (filter_hash <$> concat ess))) in R3.
    rewrite zlen_arr, zlen_fmap, Hcat, !zlen_app in R3.
    pose proof (zlen_nonneg pre). pose proof (zlen_nonneg (concat (drop (S i) ess))).
    unfold set_hash_base in *. pose proof (al4_bounds (p + zlen cells)).
    pose proof (zlen_nonneg cells). unfold zlen in Hb. lia. }
  specialize (Ec ltac:(lia)). specialize (Eo ltac:(pose proof (zlen_nonneg pre); lia)).
  unfold view_cell, set_contains_hash, set_contains_string. rewrite E1, E2, E3, E4.
  split; intros q; rewrite Ec, bind_Ok, Eo, bind_Ok;
    replace (Z.to_nat (zlen es)) with (length es) by (unfold zlen; lia).
  - rewrite <- (length_fmap filter_hash es). apply scan_hashes_ok.
    + rewrite Hcat, fmap_app, arr_app, fmap_app, arr_app, !holds_app in R3.
      destruct R3 as (_ & R3 & _). rewrite length_arr, length_fmap in R3.
      rewrite Nat2Z.inj_mul in R3. exact R3.
    + rewrite Forall_fmap. apply Forall_true. intros s. apply filter_hash_range.
  - rewrite Hcat in R4. rewrite (skip_elems_ok b _ pre _ R4).
    + rewrite bind_Ok. apply (scan_elems_ok b _ es (concat (drop (S i) ess))); [|done].
      rewrite records_app in R4. by apply holds_app in R4 as [_ R4].
    + pose proof (elems_short cells Hok) as Hsh. fold ess in Hsh. rewrite Hcat in Hsh.
      by apply Forall_app in Hsh as [? _].
Qed.

Lemma view_of_is b col p d :
  stored b col p d.1 d.2 → Forall (cell_ok (col_type col)) d.1 → bytes_ok d.2 →
  length d.2 = length d.1 → 0 ≤ p → col_end col d.1 p ≤ zlen b → zlen b < 2 ^ 32 →
  view_is b (view_of col d.1 p) col d.
Proof.
  destruct d as [cells nulls]. cbn [fst snd]. intros [Hd Hn] Hok Hby Hln Hp Hfit Hb.
  split; [unfold view_of; by destruct (col_type col)|].
  cbn [fst snd]. intros i c x Hi Hx. split.
  - pose proof (Forall_lookup_1 _ _ _ _ Hok Hi) as Hc. unfold view_of.
    destruct (col_type col) eqn:Et; destruct c as [bs|s|es]; try done.
    1-4: destruct Hc as [Hl Hbs];
      assert ((fixed_of <$> cells) !! i = Some bs) as Hf by (by rewrite list_lookup_fmap, Hi);
      pose proof (mem_read_concat _ _ _ i bs Hd Hf) as E; rewrite <- fmap_take, <- zlen_concat, <- fmap_take in E;
      rewrite (zlen_fixed _ _ (Forall_take _ _ _ Hok) eq_refl) in E;
      rewrite zlen_take in E by (apply lookup_lt_Some in Hi; lia);
      cbn [view_cell]; unfold read_fixed, read_bool, mem_uint; cbn [v_fixed_base v_fixed_width];
      fold (zlen bs); split; [rewrite E; done|intros Hl1].
    1-3: by rewrite Hl1 in Hl.
    + rewrite Z.mul_1_r in E. unfold zlen in E. rewrite Hl1 in E. by rewrite E.
    + destruct Hd as (R1 & R2 & R3 & R4). rewrite zlen_fmap in R2, R3, R4.
      assert ((str_of <$> cells) !! i = Some s) as Hs by (by rewrite list_lookup_fmap, Hi).
      cbn [view_cell]. unfold read_string, read_string_hash. cbn [v_str_offsets v_str_lengths v_str_data v_str_hashes].
      assert ((zlen <$> (str_of <$> cells)) !! i = Some (zlen s)) as Hzs by (by rewrite list_lookup_fmap, Hs).
      pose proof (Forall_lookup_1 _ _ _ _ (strs_ok _ Hok) Hzs) as Hr. simpl in Hr.
      pose proof (mem_uint_arr _ _ _ _ _ _ R2 Hzs) as E2.
      assert (psums 0 (zlen <$> (str_of <$> cells)) !! i =
        Some (zsum (take i (zlen <$> (str_of <$> cells))))) as Hps
        by (rewrite psums_lookup; [done|by eapply lookup_lt_Some]).
      pose proof (mem_uint_arr _ _ _ _ _ _ R1 Hps) as E1.
      assert ((filter_hash <$> (str_of <$> cells)) !! i = Some (filter_hash s)) as Hhs
        by (by rewrite list_lookup_fmap, Hs).
      pose proof (mem_uint_arr _ _ _ _ _ _ R3 Hhs (filter_hash_range s)) as E3.
      pose proof (zsum_take_le _ i (zlens_nonneg (str_of <$> cells))) as Hz.
      rewrite <- zlen_concat in Hz.
      assert (zlen (concat (str_of <$> cells)) ≤ zlen b) as Hcb.
      { destruct R4 as (? & R4 & _). unfold zlen at 1. unfold zlen at 1. lia. }
      change (256 ^ Z.of_nat 4) with (2 ^ 32) in E1. change (256 ^ Z.of_nat 2) with (2 ^ 16) in E2.
      change (Z.of_nat 4) with 4 in E1, E3. change (Z.of_nat 2) with 2 in E2.
      rewrite E1, bind_Ok, E2, bind_Ok by lia. split; [|exact E3].
      apply (mem_read_concat _ _ _ i s R4 Hs).
    + by apply (view_set_ok b _ p cells).
  - assert (v_nulls (view_of col cells p) =
      if nullable col then Some (data_end (col_type col) cells p) else None) as Hv
      by (unfold view_of; by destruct (col_type col)).
    unfold view_null. rewrite Hv. destruct (nullable col); [|done].
    specialize (Hn eq_refl). rewrite <- (arr_1 nulls) in Hn by exact Hby.
    pose proof (mem_uint_arr _ _ _ _ _ _ Hn Hx (Forall_lookup_1 _ _ _ _ Hby Hx)) as E.
    change (Z.of_nat 1) with 1 in E. rewrite Z.mul_1_l in E. by rewrite E.
Qed.
End view_lemmas.

Lemma parse_loop_ok `{RapidHash} n cols fcs tbl b p :
  table_is n cols fcs tbl → all_stored b cols tbl p → 0 ≤ p →
  columns_end cols tbl p ≤ zlen b → zlen b < 2 ^ 32 →
  ∃ views, parse_columns_loop b (Z.of_nat n) cols p = Ok views ∧
    Forall3 (view_is b) views cols tbl.
Proof.
  intros Ht. revert p. induction Ht as [|col fc d cols fcs tbl [Hc Hn] Ht IH];
    intros p Hst Hp Hfit Hb; [exists []; split; [done|constructor]|].
  cbn [columns_end parse_columns_loop all_stored] in *. destruct Hst as [Hs Hst].
  pose proof (col_end_ge col d.1 p Hp) as Hpq.
  pose proof (columns_end_ge cols tbl (col_end col d.1 p) ltac:(lia)) as Hq.
  pose proof (parse_column_ok b col p d.1 d.2 Hs (ci_ok _ _ _ _ Hc) Hp ltac:(lia) Hb) as E.
  unfold zlen at 1 in E. rewrite Hn in E. rewrite E, bind_Ok.
  destruct (IH (col_end col d.1 p)) as (views & -> & Hv); [done|lia..|].
  rewrite bind_Ok. eexists. split; [done|]. constructor; [|done].
  apply view_of_is; [done|apply (ci_ok _ _ _ _ Hc)| |by apply (column_nulls_len _ _ _ _ Hc)|done|lia|done].
  destruct (ci_nulls _ _ _ _ Hc) as [[_ ->]|(_ & _ & ?)]; [by apply Forall_replicate|done].
Qed.

(** C12: what the writer stores is what a search sees: after
    [write_filter_columns], [parse_filter_columns] returns one view per schema
    column, and every accessor of a view answers as for the row's own cell:
    fixed-width bytes, strings and their hashes, membership of a hash and of a
    string in a set, and the validity flag. *)
Theorem parse_sees_written `{RapidHash} n schema fcs tbl buf :
  table_is n (columns schema) fcs tbl →
  columns_end (columns schema) tbl 0 ≤ zlen buf → zlen buf < 2 ^ 32 →
  ∃ size buf' views,
    write_filter_columns buf (Z.of_nat n) schema fcs = Ok (buf', size) ∧
    parse_filter_columns buf' (Z.of_nat n) schema = Ok views ∧
    Forall3 (view_is buf') views (columns schema) tbl.
Proof.
  intros Ht Hfit Hb. destruct (write_columns_ok n _ [] fcs tbl buf 0 Ht) as (b & E & S1 & L1); [lia..|].
  assert (zlen b = zlen buf) as Hzl by (unfold zlen; by rewrite (same_outside_length _ _ _ _ S1)).
  exists (columns_end (columns schema) tbl 0), b.
  rewrite <- Hzl in Hfit, Hb.
  destruct (parse_loop_ok n _ fcs tbl b 0 Ht L1) as (views & Ep & Hv); [lia..|].
  exists views. unfold write_filter_columns, parse_filter_columns.
  destruct (columns schema) as [|col cols] eqn:Ec.
  - rewrite bool_decide_true by done. simpl in *. simplify_eq. by split_and!.
  - inversion Ht; subst. rewrite !bool_decide_false by done. by split_and!.
Qed.

(** ** Lemmas: row selection *)

Lemma byte_offs_step acc lens (k : nat) x l :
  byte_offs acc lens !! k = Some x → lens !! k = Some l →
  byte_offs acc lens !! S k = Some (u32 (x + l)).
Proof.
  revert acc k. induction lens as [|a lens IH]; intros acc k Hx Hl; [done|].
  destruct k as [|k]; simpl in *.
  - simplify_eq. by destruct lens.
  - by apply IH.
Qed.

Lemma length_byte_offs acc lens : length (byte_offs acc lens) = S (length lens).
Proof. revert acc. induction lens as [|l lens IH]; intros acc; simpl; [done|]. by rewrite IH. Qed.

(** Summing afresh gives the precomputed offset. *)
Lemma elem_byte_off_ok lens k bo :
  vec_get (byte_offs 0 lens) k = Ok bo → k ≤ zlen lens → elem_byte_off lens k = Ok bo.
Proof.
  intros Hbo Hk. assert (0 ≤ k) as Hk0 by (unfold vec_get in Hbo; destruct (Z.ltb_spec k 0); [done|lia]).
  unfold elem_byte_off. match goal with |- for_range _ _ ?f _ = _ => set (body := f) end.
  destruct (for_range_ok (λ j acc, byte_offs 0 lens !! Z.to_nat j = Some acc) body (Z.to_nat k) 0 0)
    as (acc & E & Hacc).
  - by destruct lens.
  - intros j acc Hj Hacc. destruct (lookup_lt_is_Some_2 lens (Z.to_nat j)) as [l Hl];
      [unfold zlen in Hk; lia|].
    pose proof (vec_get_lookup _ _ _ Hl) as Hg. rewrite Z2Nat.id in Hg by lia.
    unfold body. rewrite Hg, bind_Ok. eexists. split; [done|].
    replace (Z.to_nat (j + 1)) with (S (Z.to_nat j)) by lia. by apply byte_offs_step.
  - rewrite E. f_equal. replace (Z.to_nat (0 + Z.of_nat (Z.to_nat k))) with (Z.to_nat k) in Hacc by lia.
    apply vec_get_lookup in Hacc. rewrite Z2Nat.id in Hacc by lia. congruence.
Qed.

Lemma set_elem_inv fc k n s :
  set_elem fc k = Ok (n, s) → ∃ bo, vec_get (set_elem_lengths fc) k = Ok n ∧
    elem_byte_off (set_elem_lengths fc) k = Ok bo ∧ mem_read (set_elem_data fc) bo n = Ok s.
Proof.
  unfold set_elem. intros E. res_inv. simplify_eq. eexists. split; [done|]. split; [|done].
  apply elem_byte_off_ok; [done|]. unfold vec_get in E0. destruct (k <? 0) eqn:Hk; [done|].
  destruct (_ !! _) eqn:Hl; [|done]. apply lookup_lt_Some in Hl. unfold zlen. lia.
Qed.

(** What bounds the 32-bit counters of packed columns. *)
Definition cells_small (t : ColumnType) (cells : list cell) : Prop := data_end t cells 0 < 2 ^ 32.

Lemma string_data_small (cells : list cell) :
  cells_small String cells → zlen (concat (str_of <$> cells)) < 2 ^ 32.
Proof.
  unfold cells_small, data_end, string_data. pose proof (al4_bounds (0 + 6 * zlen cells)).
  pose proof (zlen_nonneg cells). lia.
Qed.

Lemma set_data_small (cells : list cell) :
  cells_small Set_ cells → zlen (concat (elems_of <$> cells)) < 2 ^ 32.
Proof.
  unfold cells_small, data_end, set_data_base, set_hash_base.
  pose proof (al4_bounds (0 + zlen (elems_of <$> cells))). pose proof (zlen_nonneg (elems_of <$> cells)).
  pose proof (zlen_nonneg (concat (record_of <$> concat (elems_of <$> cells)))).
  pose proof (zlen_nonneg (concat (elems_of <$> cells))). lia.
Qed.

Lemma push_string_ok s idx (str : list Z) cells nulls :
  cell_is String s idx (CStr str) → cells_small String cells →
  push_string s idx (canon String cells nulls) = Ok (canon String (cells ++ [CStr str]) nulls).
Proof.
  intros (El & off & Eo & Es) Hsm%string_data_small. unfold push_string.
  rewrite El, bind_Ok, Eo, bind_Ok, Es, bind_Ok. unfold canon.
  cbn [cd_type null_mask fixed_data str_offsets str_lengths str_data set_counts set_offsets
    set_elem_lengths set_elem_data].
  rewrite !fmap_app, concat_app, psums_app. cbn [fmap list_fmap str_of psums concat].
  fold (zlen (concat (str_of <$> cells))). pose proof (zlen_nonneg (concat (str_of <$> cells))).
  rewrite u32_id by lia. rewrite zlen_concat, Z.add_0_l, app_nil_r. done.
Qed.

Lemma push_set_ok s idx (es : list (list Z)) cells nulls :
  cell_is Set_ s idx (CSet es) → cells_small Set_ cells →
  push_set s idx (canon Set_ cells nulls) = Ok (canon Set_ (cells ++ [CSet es]) nulls).
Proof.
  intros (El & off & Eo & Ee) Hsm%set_data_small. unfold push_set.
  rewrite El, bind_Ok, Eo, bind_Ok, Nat2Z.id. set (ess := elems_of <$> cells) in *.
  unfold canon. fold ess.
  cbn [cd_type null_mask fixed_data str_offsets str_lengths str_data set_counts set_offsets
    set_elem_lengths set_elem_data].
  rewrite length_fmap. fold (zlen (concat ess)). pose proof (zlen_nonneg (concat ess)).
  rewrite u32_id by lia.
  destruct (for_range_ok (λ j d, d = mkCD Set_ nulls [] [] [] [] ((zlen <$> ess) ++ [zlen es])
      (psums 0 (zlen <$> ess) ++ [zlen (concat ess)])
      (zlen <$> concat ess ++ take (Z.to_nat j) es) (concat (concat ess ++ take (Z.to_nat j) es)))
    (push_set_elem s off) (length es) 0
    (mkCD Set_ nulls [] [] [] [] ((zlen <$> ess) ++ [zlen es])
      (psums 0 (zlen <$> ess) ++ [zlen (concat ess)]) (zlen <$> concat ess) (concat (concat ess))))
    as (d & E & Hd).
  - simpl. by rewrite app_nil_r.
  - intros j d Hj ->. set (k := Z.to_nat j). assert (k < length es)%nat as Hk by lia.
    destruct (lookup_lt_is_Some_2 es k Hk) as [x Hx].
    destruct (set_elem_inv _ _ _ _ (Ee _ _ Hx)) as (bo & E1 & E2 & E3).
    replace (Z.of_nat k) with j in * by lia.
    unfold push_set_elem. rewrite E1, bind_Ok, E2, bind_Ok, E3, bind_Ok.
    cbn [cd_type null_mask fixed_data str_offsets str_lengths str_data set_counts set_offsets
      set_elem_lengths set_elem_data].
    eexists. split; [done|]. replace (Z.to_nat (j + 1)) with (S k) by lia.
    rewrite (take_snoc _ _ _ Hx), app_assoc, (fmap_app zlen _ [x]), (concat_app _ [x]).
    cbn [fmap list_fmap concat]. rewrite app_nil_r. done.
  - fold (zlen es). rewrite E, Hd. replace (Z.to_nat (0 + Z.of_nat (length es))) with (length es) by lia.
    rewrite firstn_all. rewrite !fmap_app. fold ess.
    cbn [fmap list_fmap elems_of].
    assert (concat (ess ++ [es]) = concat ess ++ es) as ->
      by (rewrite concat_app; cbn [concat]; by rewrite app_nil_r).
    rewrite psums_app. cbn [psums]. rewrite Z.add_0_l, <- zlen_concat_elems.
    unfold mret, res_ret. by rewrite fmap_app.
Qed.

Lemma push_row_ok t s idx c cells nulls :
  cell_is t s idx c → cell_ok t c → cells_small t cells →
  push_row t s idx (canon t cells nulls) = Ok (canon t (cells ++ [c]) nulls).
Proof.
  intros Hc Hok Hsm. unfold push_row.
  destruct t; destruct c as [bs|str|es]; try done;
    try (by apply push_string_ok); try (by apply push_set_ok);
    unfold push_fixed; unfold cell_is in Hc; rewrite Hc, bind_Ok; unfold canon;
    cbn [cd_type null_mask fixed_data str_offsets str_lengths str_data set_counts set_offsets
      set_elem_lengths set_elem_data];
    rewrite fmap_app, concat_app; cbn [fmap list_fmap concat fixed_of]; by rewrite app_nil_r.
Qed.

(** The rows of a list at given indices. *)
Definition pick {A} (l : list A) (indices : list Z) : list A :=
  omap (λ i, l !! Z.to_nat i) indices.

Lemma length_pick {A} (l : list A) indices :
  Forall (λ i, 0 ≤ i < zlen l) indices → length (pick l indices) = length indices.
Proof.
  induction 1 as [|i idx Hi _ IH]; [done|]. unfold pick in *. cbn [omap list_omap].
  destruct (lookup_lt_is_Some_2 l (Z.to_nat i)) as [x ->]; [unfold zlen in Hi; lia|].
  cbn [length]. by rewrite IH.
Qed.

Lemma data_end_app_le t cells cells' p :
  data_end t cells p ≤ data_end t (cells ++ cells') p.
Proof.
  pose proof (zlen_nonneg cells'). unfold data_end, string_data, set_data_base, set_hash_base.
  rewrite !fmap_app, !concat_app, !zlen_app, !fmap_app, !concat_app, !zlen_app, ?zlen_fmap.
  destruct t; simpl; try nia.
  - pose proof (al4_mono (p + 6 * zlen cells) (p + 6 * (zlen cells + zlen cells'))).
    pose proof (zlen_nonneg (concat (str_of <$> cells'))). lia.
  - pose proof (al4_mono (p + zlen cells) (p + (zlen cells + zlen cells'))).
    pose proof (zlen_nonneg (concat (elems_of <$> cells'))).
    pose proof (zlen_nonneg (concat (record_of <$> concat (elems_of <$> cells')))). lia.
Qed.

Lemma push_rows_ok t s src snulls indices cells nulls :
  column_is t s src snulls → Forall (λ i, 0 ≤ i < zlen src) indices →
  cells_small t (cells ++ pick src indices) →
  push_rows t s indices (canon t cells nulls) = Ok (canon t (cells ++ pick src indices) nulls).
Proof.
  intros Hc Hi. revert cells. induction Hi as [|i indices Hi Hidx IH]; intros cells Hsm.
  - change (pick src []) with (@nil cell). by rewrite app_nil_r.
  - unfold pick in *. cbn [omap list_omap push_rows] in *.
    destruct (lookup_lt_is_Some_2 src (Z.to_nat i)) as [c Hsi]; [unfold zlen in Hi; lia|].
    rewrite Hsi in Hsm |- *. pose proof (ci_cells _ _ _ _ Hc _ _ Hsi) as Hcell.
    rewrite Z2Nat.id in Hcell by lia.
    rewrite (push_row_ok t s i c).
    + rewrite bind_Ok, IH; rewrite <- app_assoc; done.
    + done.
    + apply (Forall_lookup_1 _ _ _ _ (ci_ok _ _ _ _ Hc) Hsi).
    + unfold cells_small in *. eapply Z.le_lt_trans; [|exact Hsm]. apply data_end_app_le.
Qed.

Lemma get_all_ok l indices :
  Forall (λ i, 0 ≤ i < zlen l) indices → get_all l indices = Ok (pick l indices).
Proof.
  induction 1 as [|i indices Hi _ IH]; [done|]. unfold pick in *. cbn [omap list_omap get_all].
  destruct (lookup_lt_is_Some_2 l (Z.to_nat i)) as [x Hx]; [unfold zlen in Hi; lia|].
  pose proof (vec_get_lookup _ _ _ Hx) as Hg. rewrite Z2Nat.id in Hg by lia.
  by rewrite Hg, bind_Ok, IH, bind_Ok, Hx.
Qed.

Lemma pick_ok {A} (P : A → Prop) l indices : Forall P l → Forall P (pick l indices).
Proof.
  intros Hl. unfold pick. induction indices as [|i indices IH]; [constructor|].
  cbn [omap list_omap]. destruct (l !! Z.to_nat i) eqn:E; [|done].
  constructor; [|done]. by apply (Forall_lookup_1 _ _ _ _ Hl E).
Qed.

Lemma pick_replicate {A} n (x : A) indices :
  Forall (λ i, 0 ≤ i < Z.of_nat n) indices → pick (replicate n x) indices = replicate (length indices) x.
Proof.
  induction 1 as [|i indices Hi _ IH]; [done|]. unfold pick in *. cbn [omap list_omap].
  by rewrite lookup_replicate_2, IH by lia.
Qed.

(** The rows at the indices, flags included. *)
Definition pick_rows (indices : list Z) (d : list cell * list Z) : list cell * list Z :=
  (pick d.1 indices, pick d.2 indices).

Lemma select_column_ok col s d indices :
  column_is (col_type col) s d.1 d.2 → Forall (λ i, 0 ≤ i < zlen d.1) indices →
  cells_small (col_type col) (pick d.1 indices) →
  ∃ s', select_column col s indices = Ok s' ∧
    column_is (col_type col) s' (pick_rows indices (stored_nulls col d)).1
      (pick_rows indices (stored_nulls col d)).2 ∧
    length (pick d.1 indices) = length indices.
Proof.
  intros Hc Hi Hsm. destruct d as [cells nulls]. cbn [fst snd] in *.
  pose proof (length_pick _ _ Hi) as Hlen. pose proof (column_nulls_len _ _ _ _ Hc) as Hnl.
  assert (Forall (λ i, 0 ≤ i < zlen nulls) indices) as Hin by (unfold zlen in *; by rewrite Hnl).
  unfold stored_nulls, pick_rows, select_column. cbn [fst snd].
  set (ns := if nullable col && negb (bool_decide (null_mask s = [])) then pick nulls indices else []).
  assert ((if nullable col && negb (bool_decide (null_mask s = [])) then get_all (null_mask s) indices
    else mret []) = Ok ns) as ->.
  { unfold ns. destruct (nullable col); [|done]. cbn [andb]. case_bool_decide as Hm; [done|].
    cbn [negb]. destruct (ci_nulls _ _ _ _ Hc) as [[? _]|(Hmask & _)]; [done|].
    rewrite Hmask. by apply get_all_ok. }
  rewrite bind_Ok.
  assert (add_nulls ns (set_type (col_type col) empty_cd) = canon (col_type col) [] ns) as ->
    by (by destruct (col_type col)).
  rewrite (push_rows_ok _ s cells nulls indices [] ns Hc Hi) by done.
  eexists. split; [done|]. split; [|done]. cbn [app].
  pose proof (canon_is (col_type col) (pick cells indices) ns (pick_ok _ _ _ (ci_ok _ _ _ _ Hc)) Hsm) as Hcan.
  assert (bytes_ok nulls) as Hby.
  { destruct (ci_nulls _ _ _ _ Hc) as [[_ ->]|(_ & _ & ?)]; [by apply Forall_replicate|done]. }
  assert (ns = [] ∨ length ns = length (pick cells indices) ∧ bytes_ok ns) as Hns.
  { unfold ns. destruct (_ && _); [right|by left]. rewrite Hlen, (length_pick nulls) by done.
    split; [done|by apply pick_ok]. }
  specialize (Hcan Hns).
  assert ((if decide (ns = []) then replicate (length (pick cells indices)) 0 else ns) =
    pick (if nullable col then nulls else replicate (length cells) 0) indices) as <-; [|done].
  rewrite Hlen. unfold ns in *. destruct (nullable col); cbn [andb] in *.
  - case_bool_decide as Hm; cbn [negb] in *.
    + rewrite decide_True by done. destruct (ci_nulls _ _ _ _ Hc) as [[_ ->]|(Hmask & Hl & _)].
      * by rewrite pick_replicate.
      * rewrite Hmask in Hm. subst nulls. cbn in Hl. destruct indices as [|i indices]; [done|].
        apply Forall_cons in Hi as [Hi _]. unfold zlen in Hi. lia.
    + case_decide as Hp; [|done]. apply (f_equal length) in Hp. rewrite (length_pick nulls) in Hp by done.
      destruct indices; done.
  - rewrite decide_True by done. by rewrite pick_replicate.
Qed.

(** The cells of a table, per column, fit the 32-bit counters. *)
Definition table_small (cols : list FilterColumn) (tbl : table) : Prop :=
  Forall2 (λ col d, cells_small (col_type col) d.1) cols tbl.

Lemma select_loop_ok n cols pre fcs tbl indices :
  table_is n cols fcs tbl → Forall (λ i, 0 ≤ i < Z.of_nat n) indices →
  table_small cols (pick_rows indices <$> tbl) →
  ∃ fcs', select_columns_loop cols (pre ++ fcs) (zlen pre) indices = Ok fcs' ∧
    table_is (length indices) cols fcs' (pick_rows indices <$> stored_table cols tbl).
Proof.
  intros Ht Hi. revert pre. induction Ht as [|col fc d cols fcs tbl [Hc Hn] Ht IH]; intros pre Hsm.
  - exists []. split; [done|constructor].
  - cbn [fmap list_fmap] in Hsm. apply Forall2_cons in Hsm as [Hsm1 Hsm2].
    cbn [select_columns_loop]. rewrite vec_get_middle, bind_Ok.
    destruct (select_column_ok col fc d indices Hc) as (s' & -> & Hs' & Hl);
      [unfold zlen; by rewrite Hn|done|]. rewrite bind_Ok.
    destruct (IH (pre ++ [fc])) as (fcs' & E & Ht'); [done|].
    rewrite zlen_app, <- app_assoc in E. change (zlen [fc]) with 1 in E.
    change ([fc] ++ fcs) with (fc :: fcs) in E. rewrite E, bind_Ok. eexists. split; [done|].
    constructor; [|exact Ht']. by split.
Qed.

(** [select_filter_rows] keeps exactly the chosen rows, in the given order,
    cells and validity flags together, in every column of the leaf. *)
Theorem select_filter_rows_ok n schema fcs tbl indices :
  table_is n (columns schema) fcs tbl → Forall (λ i, 0 ≤ i < Z.of_nat n) indices →
  table_small (columns schema) (pick_rows indices <$> tbl) →
  ∃ fcs', select_filter_rows fcs schema indices = Ok fcs' ∧
    table_is (length indices) (columns schema) fcs'
      (pick_rows indices <$> stored_table (columns schema) tbl).
Proof. intros Ht Hi Hsm. by apply (select_loop_ok n _ [] fcs tbl indices). Qed.

(** Two tables of one schema, the rows of the second after those of the first. *)
Definition append_rows (d1 d2 : list cell * list Z) : list cell * list Z :=
  (d1.1 ++ d2.1, d1.2 ++ d2.2).

Lemma append_column_ok col s src d indices :
  column_is (col_type col) s src.1 src.2 → Forall (λ i, 0 ≤ i < zlen src.1) indices →
  (nullable col = true → null_mask s ≠ []) →
  Forall (cell_ok (col_type col)) d.1 → length d.2 = length d.1 → bytes_ok d.2 →
  cells_small (col_type col) (d.1 ++ pick src.1 indices) →
  let d' := append_rows d (pick_rows indices src) in
  append_column col s indices (canon (col_type col) d.1 (if nullable col then d.2 else [])) =
    Ok (canon (col_type col) d'.1 (if nullable col then d'.2 else [])).
Proof.
  intros Hc Hi Hmask Hok Hl Hby Hsm d'. destruct src as [cells nulls], d as [dc dn]. cbn [fst snd] in *.
  unfold append_column.
  set (ns := if nullable col && negb (bool_decide (null_mask s = [])) then _ else _).
  assert (add_nulls ns (set_type (col_type col) (canon (col_type col) dc (if nullable col then dn else [])))
    = canon (col_type col) dc ((if nullable col then dn else []) ++ ns)) as ->
    by (by destruct (col_type col)).
  rewrite (push_rows_ok _ s cells nulls indices dc _ Hc Hi Hsm). repeat f_equal.
  unfold ns. destruct (nullable col); cbn [andb]; [|done]. specialize (Hmask eq_refl).
  rewrite bool_decide_false by done. cbn [negb]. unfold d', append_rows, pick_rows. cbn [fst snd].
  f_equal. destruct (ci_nulls _ _ _ _ Hc) as [[? _]|(-> & Hln & _)]; [done|].
  clear ns Hsm d'. induction Hi as [|i indices Hi _ IH]; [done|]. unfold pick in *.
  cbn [fmap list_fmap omap list_omap].
  destruct (lookup_lt_is_Some_2 nulls (Z.to_nat i)) as [x Hx]; [unfold zlen in Hi; lia|].
  rewrite (proj2 (Z.ltb_lt _ _)) by (unfold zlen in Hi; lia). rewrite Hx. cbn [default].
  by rewrite <- IH.
Qed.

(** The tables of the leaf before an insertion and of the rows to insert. *)
Definition append_table (cols : list FilterColumn) (tbl1 tbl2 : table) (indices : list Z) : table :=
  zip_with (λ d1 d2, append_rows d1 (pick_rows indices d2)) tbl1 tbl2.

Lemma vec_set_middle {A} (pre : list A) x y post :
  vec_set (pre ++ x :: post) (zlen pre) y = Ok (pre ++ y :: post).
Proof.
  rewrite vec_set_Ok by (rewrite length_app; unfold zlen; simpl; lia).
  unfold zlen. rewrite Nat2Z.id. by rewrite insert_app_r_alt, Nat.sub_diag by lia.
Qed.

Lemma append_loop_ok n m cols prec pre fcs1 fcs2 tbl1 tbl2 indices :
  table_is n cols fcs1 tbl1 → table_is m cols fcs2 tbl2 → length pre = length prec →
  Forall (λ i, 0 ≤ i < Z.of_nat m) indices →
  Forall2 (λ col s, nullable col = true → null_mask s ≠ []) cols fcs2 →
  table_small cols (append_table cols tbl1 tbl2 indices) →
  append_columns_loop cols (prec ++ canon_columns cols tbl1) (pre ++ fcs2) (zlen pre) indices =
    Ok (prec ++ canon_columns cols (append_table cols tbl1 tbl2 indices)).
Proof.
  intros Ht1. revert prec pre fcs2 tbl2.
  induction Ht1 as [|col fc d cols fcs1 tbl1 [Hc Hn] Ht1 IH]; intros prec pre fcs2 tbl2 Ht2 Hpre Hi Hmask Hsm.
  - done.
  - inversion Ht2 as [|? s src ? fcs2' tbl2' [Hs Hm] Ht2']; subst.
    apply Forall2_cons in Hmask as [Hmask1 Hmask2].
    cbn [append_table zip_with canon_columns append_columns_loop] in *.
    apply Forall2_cons in Hsm as [Hsm1 Hsm2].
    rewrite vec_get_middle, bind_Ok.
    assert (zlen pre = zlen prec) as Hz by (unfold zlen; by rewrite Hpre).
    rewrite Hz, vec_get_middle, bind_Ok.
    rewrite (append_column_ok col s src d indices Hs); [|done|done|apply (ci_ok _ _ _ _ Hc)| | |done].
    + rewrite bind_Ok, vec_set_middle, bind_Ok.
      specialize (IH (prec ++ [canon (col_type col) (append_rows d (pick_rows indices src)).1
        (if nullable col then (append_rows d (pick_rows indices src)).2 else [])]) (pre ++ [s]) fcs2' tbl2'
        Ht2' ltac:(by rewrite !length_app, Hpre) Hi Hmask2 Hsm2).
      rewrite <- !app_assoc, zlen_app, Hz in IH. exact IH.
    + by apply (column_nulls_len _ _ _ _ Hc).
    + destruct (ci_nulls _ _ _ _ Hc) as [[_ ->]|(_ & _ & ?)]; [by apply Forall_replicate|done].
Qed.

Lemma append_table_ok n m cols fcs1 fcs2 tbl1 tbl2 indices :
  table_is n cols fcs1 tbl1 → table_is m cols fcs2 tbl2 →
  Forall (λ i, 0 ≤ i < Z.of_nat m) indices →
  Forall2 (λ col d, column_ok col d ∧ length d.1 = (n + length indices)%nat) cols
    (append_table cols tbl1 tbl2 indices).
Proof.
  intros Ht1 Ht2 Hi. revert fcs2 tbl2 Ht2. unfold append_table.
  induction Ht1 as [|col fc d cols fcs1 tbl1 [Hc Hn] Ht1 IH]; intros fcs2 tbl2 Ht2.
  - inversion Ht2. constructor.
  - inversion Ht2 as [|? s src ? fcs2' tbl2' [Hs Hm] Ht2']; subst. cbn [zip_with].
    constructor; [|by apply (IH fcs2')].
    destruct (column_is_ok _ _ _ Hc) as (Hok1 & Hl1 & Hb1), (column_is_ok _ _ _ Hs) as (Hok2 & Hl2 & Hb2).
    assert (Forall (λ i, 0 ≤ i < zlen src.1) indices ∧ Forall (λ i, 0 ≤ i < zlen src.2) indices)
      as [Hp1 Hp2] by (unfold zlen; by rewrite Hl2).
    unfold column_ok, append_rows, pick_rows. cbn [fst snd]. split_and!.
    + apply Forall_app. split; [done|by apply pick_ok].
    + rewrite !length_app, !length_pick by done. lia.
    + apply Forall_app. split; [done|by apply pick_ok].
    + rewrite length_app, length_pick by done. lia.
Qed.

Lemma canon_table_is n cols tbl p :
  Forall2 (λ col d, column_ok col d ∧ length d.1 = n) cols tbl → 0 ≤ p →
  columns_end cols tbl p < 2 ^ 32 →
  table_is n cols (canon_columns cols tbl) (stored_table cols tbl).
Proof.
  intros Ht. revert p. induction Ht as [|col d cols tbl [Hok Hn] Ht IH]; intros p Hp Hfit; [constructor|].
  cbn [columns_end] in Hfit. pose proof (col_end_ge col d.1 p Hp).
  pose proof (columns_end_ge cols tbl (col_end col d.1 p) ltac:(lia)).
  constructor; [|apply (IH (col_end col d.1 p)); lia].
  split; [apply (canon_column_is col d p); [done|done|lia]|done].
Qed.

Lemma columns_end_stored cols tbl p : columns_end cols (stored_table cols tbl) p = columns_end cols tbl p.
Proof.
  revert tbl p. induction cols as [|col cols IH]; intros [|d tbl] p; [done..|].
  unfold stored_table in *. cbn [zip_with columns_end]. apply IH.
Qed.

(** C20: an insertion keeps the leaf's rows and adds the new ones: reading a
    stored leaf, appending chosen rows of a batch and writing the result back
    stores, in every column, the old cells and flags followed by the chosen
    ones.

    The condition on the batch: each of its nullable columns comes with explicit
    flags.  The empty mask, documented to stand for no NULLs, is excluded: with
    it the appended rows get no flags, and the writer reads past the mask
    ([maskless_batch_overread]). *)
Theorem read_append_write `{RapidHash} n m schema fcs1 fcs2 tbl1 tbl2 indices buf :
  let cols := columns schema in
  let tbl' := append_table cols tbl1 tbl2 indices in
  table_is n cols fcs1 tbl1 → table_is m cols fcs2 tbl2 → cols ≠ [] →
  Forall (λ i, 0 ≤ i < Z.of_nat m) indices →
  Forall2 (λ col s, nullable col = true → null_mask s ≠ []) cols fcs2 →
  table_small cols tbl' → columns_end cols tbl' 0 ≤ zlen buf → zlen buf < 2 ^ 32 →
  columns_end cols tbl1 0 ≤ zlen buf →
  ∃ buf1 size1 dst dst' size buf',
    write_filter_columns buf (Z.of_nat n) schema fcs1 = Ok (buf1, size1) ∧
    read_filter_columns buf1 (Z.of_nat n) schema = Ok (dst, size1) ∧
    append_filter_rows dst fcs2 schema indices = Ok dst' ∧
    write_filter_columns buf1 (Z.of_nat (n + length indices)) schema dst' = Ok (buf', size) ∧
    all_stored buf' cols (stored_table cols tbl') 0.
Proof.
  intros cols tbl' Ht1 Ht2 Hne Hi Hmask Hsm Hfit' Hb Hfit.
  destruct (write_columns_ok n _ [] fcs1 tbl1 buf 0 Ht1) as (b1 & E1 & S1 & L1); [lia..|].
  assert (zlen b1 = zlen buf) as Hzl by (unfold zlen; by rewrite (same_outside_length _ _ _ _ S1)).
  destruct (read_columns_ok n _ fcs1 tbl1 b1 0 Ht1 L1) as (Er & _); [lia..|].
  pose proof (append_loop_ok n m cols [] [] fcs1 fcs2 tbl1 tbl2 indices Ht1 Ht2 eq_refl Hi Hmask Hsm) as Ea.
  assert (table_is (n + length indices) cols (canon_columns cols tbl') (stored_table cols tbl')) as Ht'.
  { apply (canon_table_is _ _ _ 0); [by apply (append_table_ok n m _ fcs1 fcs2)|done|lia]. }
  destruct (write_columns_ok _ _ [] _ _ b1 0 Ht') as (b2 & E2 & S2 & L2);
    [done|rewrite columns_end_stored; lia|lia|].
  exists b1, (columns_end cols tbl1 0), (canon_columns cols tbl1), (canon_columns cols tbl'),
    (columns_end cols tbl' 0), b2.
  unfold write_filter_columns, read_filter_columns, append_filter_rows. fold cols.
  rewrite !(bool_decide_false (cols = [])) by done.
  assert (fcs1 ≠ []) as Hf1 by (intros ->; by inversion Ht1).
  assert (canon_columns cols tbl' ≠ []) as Hf2 by (intros E0; rewrite E0 in Ht'; by inversion Ht').
  rewrite !bool_decide_false by done. rewrite columns_end_stored in E2. by split_and!.
Qed.

(** ** Witnesses: two leaves of a four-column schema *)

Definition w_hash : RapidHash := λ bs seed, zsum bs * 7919 + seed.
#[local] Existing Instance w_hash.

Definition w_schema : Schema := mkSchema
  [mkColumn [97] String true; mkColumn [98] Int32 false; mkColumn [99] Set_ true;
   mkColumn [100] Bool false] false.

Definition w_tbl1 : list (list cell * list Z) :=
  [([CStr [104; 105]; CStr []], [0; 1]); ([CFixed [1; 2; 3; 4]; CFixed [5; 0; 0; 0]], [0; 0]);
   ([CSet [[120]; [121; 122]]; CSet []], [0; 0]); ([CFixed [1]; CFixed [0]], [0; 0])].

Definition w_tbl2 : list (list cell * list Z) :=
  [([CStr [65; 66; 67]], [1]); ([CFixed [9; 9; 9; 9]], [0]); ([CSet [[]; [7]]], [0]);
   ([CFixed [1]], [0])].

Definition w_fcs1 : list ColumnData := canon_columns (columns w_schema) w_tbl1.
Definition w_fcs2 : list ColumnData := canon_columns (columns w_schema) w_tbl2.

Lemma w_table1 : table_is 2 (columns w_schema) w_fcs1 w_tbl1.
Proof.
  apply (canon_table_is 2 (columns w_schema) w_tbl1 0); [|done|reflexivity].
  repeat constructor; cbn; by repeat constructor.
Qed.

Lemma w_table2 : table_is 1 (columns w_schema) w_fcs2 w_tbl2.
Proof.
  apply (canon_table_is 1 (columns w_schema) w_tbl2 0); [|done|reflexivity].
  repeat constructor; cbn; by repeat constructor.
Qed.

Lemma filter_columns_roundtrip_witness :
  ∃ size buf' fcs', filter_columns_bytes 2 w_schema w_fcs1 = Ok size ∧
    write_filter_columns (replicate 200 170) 2 w_schema w_fcs1 = Ok (buf', size) ∧
    read_filter_columns buf' 2 w_schema = Ok (fcs', size).
Proof.
  destruct (filter_columns_roundtrip 2 w_schema w_fcs1 w_tbl1 (replicate 200 170) w_table1)
    as (size & b & fcs' & E1 & E2 & _ & E3 & _); [by vm_compute|by vm_compute|].
  exists size, b, fcs'. exact (conj E1 (conj E2 E3)).
Defined.

Lemma parse_sees_written_witness :
  ∃ size buf' views, write_filter_columns (replicate 200 170) 2 w_schema w_fcs1 = Ok (buf', size) ∧
    parse_filter_columns buf' 2 w_schema = Ok views.
Proof.
  destruct (parse_sees_written 2 w_schema w_fcs1 w_tbl1 (replicate 200 170) w_table1)
    as (size & b & vs & E1 & E2 & _); [by vm_compute|by vm_compute|].
  exists size, b, vs. exact (conj E1 E2).
Defined.

Lemma select_filter_rows_ok_witness :
  ∃ fcs', select_filter_rows w_fcs1 w_schema [1; 0; 1] = Ok fcs' ∧
    table_is 3 (columns w_schema) fcs' (pick_rows [1; 0; 1] <$> w_tbl1).
Proof.
  apply (select_filter_rows_ok 2 w_schema w_fcs1 w_tbl1 [1; 0; 1] w_table1).
  - repeat constructor; by vm_compute.
  - repeat constructor; by vm_compute.
Defined.

Lemma read_append_write_witness :
  ∃ buf' size fcs', write_filter_columns (replicate 200 170) 2 w_schema w_fcs1 = Ok (buf', size) ∧
    read_filter_columns buf' 2 w_schema = Ok (w_fcs1, size) ∧
    append_filter_rows w_fcs1 w_fcs2 w_schema [0; 0] = Ok fcs'.
Proof.
  destruct (read_append_write 2 1 w_schema w_fcs1 w_fcs2 w_tbl1 w_tbl2 [0; 0] (replicate 200 170)
    w_table1 w_table2) as (b1 & s1 & d & d' & s & b' & E1 & E2 & E3 & E4 & E5).
  - done.
  - repeat constructor; by vm_compute.
  - repeat constructor; by vm_compute.
  - repeat constructor; by vm_compute.
  - by vm_compute.
  - by vm_compute.
  - by vm_compute.
  - exists b1, s1, d'. split; [exact E1|].
    assert (d = w_fcs1) as Hd.
    { revert E2. assert (write_filter_columns (replicate 200 170) 2 w_schema w_fcs1 = Ok (b1, s1)) as E
        by exact E1. vm_compute in E. injection E as <- <-. vm_compute. by intros [= <-]. }
    rewrite Hd in E2, E3. exact (conj E2 E3).
Defined.

(** A leaf of one row in a nullable column, and a batch of one row for it whose mask is
    empty, which stands for no NULLs. *)
Definition w_null_schema : Schema := mkSchema [mkColumn [98] Int32 true] false.
Definition w_null_leaf : list ColumnData := [canon Int32 [CFixed [5; 0; 0; 0]] [0]].
Definition w_maskless : list ColumnData := [canon Int32 [CFixed [7; 0; 0; 0]] []].

(** The batch's row is appended with no flag of its own; the writer then copies two flags
    from a mask of one.  Written by itself, the batch is fine. *)
Lemma maskless_batch_overread :
  (∃ dst, append_filter_rows w_null_leaf w_maskless w_null_schema [0] = Ok dst ∧
    null_mask <$> dst = [[0]] ∧
    write_filter_columns (replicate 40 0) 2 w_null_schema dst = Err UndefinedBehaviour) ∧
  ∃ r, write_filter_columns (replicate 40 0) 1 w_null_schema w_maskless = Ok r.
Proof.
  split; [|eexists; by vm_compute]. eexists. split; [vm_compute; reflexivity|]. split; by vm_compute.
Qed.
