(* ===== verification/FilterScan.v ===== *)
(** * Predicate evaluation on the rows of a leaf ([src/tree/filter_scan.cpp])

    [eval_predicate] with its typed comparisons, the geo predicates, the
    conjunction over a query's predicates and the four-at-a-time variants of
    [filter_scan.hpp].  [std::stod] (locale dependent) and the C library's
    [sin], [cos] and [atan2] (not correctly rounded) are parameters. *)
From S2P Require Import Prelude Doubles Schema FilterHash FilterColumns.

(** ** Library functions *)

Class LibM := {
  stod : list Z → option double;
  lib_sin : double → double;
  lib_cos : double → double;
  lib_atan2 : double → double → double;
}.

Definition dadd : double → double → double := SFadd 53 1024.
Definition dsub : double → double → double := SFsub 53 1024.
Definition dmul : double → double → double := SFmul 53 1024.
Definition ddiv : double → double → double := SFdiv 53 1024.
Definition dsqrt : double → double := SFsqrt 53 1024.

Definition kEarthRadiusKm : double := S754_finite false 7004988580560896 (-40).
Definition kPi : double := S754_finite false 7074237752028440 (-51).
Definition kDegToRad : double := ddiv kPi (double_of_Z 180).

(** ** Comparison in the column's domain *)

(** A column type's values with their comparisons and the cast of a constant. *)
Record domain (T : Type) := mkDomain {
  d_eqb : T → T → bool;
  d_ltb : T → T → bool;
  d_leb : T → T → bool;
  round_to : double → res T;
}.
Arguments d_eqb {T}. Arguments d_ltb {T}. Arguments d_leb {T}. Arguments round_to {T}.

Definition int_domain (w : Z) : domain Z :=
  mkDomain Z Z.eqb Z.ltb Z.leb (λ d, v ← llround d; mret (to_signed w v)).

Definition float_domain : domain float :=
  mkDomain float SFeqb SFltb SFleb (λ d, mret (float_of_double d)).

Section scan.
Context `{RapidHash} `{LibM}.

(** The [In] loop: a string that is no number is skipped. *)
Fixpoint in_list {T} (D : domain T) (val : T) (in_values : list (list Z)) : res bool :=
  match in_values with
  | [] => mret false
  | s :: rest =>
      match stod s with
      | None => in_list D val rest
      | Some d => v ← round_to D d; if d_eqb D val v then mret true else in_list D val rest
      end
  end.

(** The casts of [value] and [value2] are made where their result is used. *)
Definition typed_compare {T} (D : domain T) (o : PredicateOp) (val : T) (value value2 : double)
    (in_values : list (list Z)) : res bool :=
  match o with
  | OpEq => pv ← round_to D value; mret (d_eqb D val pv)
  | OpNotEq => pv ← round_to D value; mret (negb (d_eqb D val pv))
  | OpLt => pv ← round_to D value; mret (d_ltb D val pv)
  | OpLe => pv ← round_to D value; mret (d_leb D val pv)
  | OpGt => pv ← round_to D value; mret (d_ltb D pv val)
  | OpGe => pv ← round_to D value; mret (d_leb D pv val)
  | OpBetween =>
      pv ← round_to D value; pv2 ← round_to D value2;
      mret (d_leb D pv val && d_leb D val pv2)
  | OpIn => in_list D val in_values
  | OpNotIn => found ← in_list D val in_values; mret (negb found)
  | _ => mret true
  end.

(** [query_vals]: the scalar string, when there is one, then the list. *)
Definition query_vals (pred : Predicate) : list (list Z) :=
  (if bool_decide (str_value pred = []) then [] else [str_value pred]) ++ values pred.

(** ** [eval_predicate] *)

Section eval.
Context (buf : list Z).

Definition eval_string (col : ColumnView) (idx : Z) (pred : Predicate) : res bool :=
  match op pred with
  | OpEq =>
      h ← read_string_hash buf col idx;
      if negb (h =? filter_hash (str_value pred)) then mret false
      else sv ← read_string buf col idx; mret (bool_decide (sv = str_value pred))
  | OpNotEq =>
      h ← read_string_hash buf col idx;
      if h =? filter_hash (str_value pred)
      then sv ← read_string buf col idx;
           if bool_decide (sv = str_value pred) then mret false else mret true
      else mret true
  | OpPrefix =>
      sv ← read_string buf col idx;
      if Z.of_nat (length sv) <? Z.of_nat (length (str_value pred)) then mret false
      else mret (bool_decide (take (length (str_value pred)) sv = str_value pred))
  | OpIn =>
      sv ← read_string buf col idx;
      mret (existsb (λ s, bool_decide (sv = s)) (str_value pred :: values pred))
  | OpNotIn =>
      sv ← read_string buf col idx;
      mret (negb (existsb (λ s, bool_decide (sv = s)) (str_value pred :: values pred)))
  | _ => mret true
  end.

(** The hash test, then the exact test. *)
Definition set_has (col : ColumnView) (idx : Z) (qv : list Z) : res bool :=
  h ← set_contains_hash buf col idx (filter_hash qv);
  if (h : bool) then set_contains_string buf col idx qv else mret false.

Fixpoint any_has (col : ColumnView) (idx : Z) (qs : list (list Z)) : res bool :=
  match qs with
  | [] => mret false
  | q :: rest => b ← set_has col idx q; if (b : bool) then mret true else any_has col idx rest
  end.

Fixpoint all_has (col : ColumnView) (idx : Z) (qs : list (list Z)) : res bool :=
  match qs with
  | [] => mret true
  | q :: rest => b ← set_has col idx q; if (b : bool) then all_has col idx rest else mret false
  end.

Definition eval_set (col : ColumnView) (idx : Z) (pred : Predicate) : res bool :=
  match op pred with
  | OpContains => set_has col idx (str_value pred)
  | OpContainsAny => any_has col idx (query_vals pred)
  | OpContainsAll => all_has col idx (query_vals pred)
  | _ => mret true
  end.

Definition eval_predicate (col : ColumnView) (idx : Z) (pred : Predicate) : res bool :=
  null ← view_null buf col idx;
  if (null : bool) then mret (bool_decide (op pred = OpIsNull))
  else if bool_decide (op pred = OpIsNull) then mret false
  else if bool_decide (op pred = OpIsNotNull) then mret true
  else match v_type col with
  | Int32 =>
      val ← read_fixed buf col idx 4;
      typed_compare (int_domain 32) (op pred) (to_signed 32 val) (value pred) (value2 pred) (values pred)
  | Int64 =>
      val ← read_fixed buf col idx 8;
      typed_compare (int_domain 64) (op pred) (to_signed 64 val) (value pred) (value2 pred) (values pred)
  | Float =>
      val ← read_fixed buf col idx 4;
      typed_compare float_domain (op pred) (float_of_bits val) (value pred) (value2 pred) (values pred)
  | Bool =>
      val ← read_bool buf col idx;
      let pv := negb (SFeqb (value pred) (S754_zero false)) in
      match op pred with
      | OpEq => mret (Bool.eqb val pv)
      | OpNotEq => mret (negb (Bool.eqb val pv))
      | _ => mret true
      end
  | String => eval_string col idx pred
  | Set_ => eval_set col idx pred
  end.

(** ** Geo predicates *)

Definition read_fixed_as_double (col : ColumnView) (idx : Z) : res double :=
  match v_type col with
  | Int32 => v ← read_fixed buf col idx 4; mret (double_of_Z (to_signed 32 v))
  | Int64 => v ← read_fixed buf col idx 8; mret (double_of_Z (to_signed 64 v))
  | Float => v ← read_fixed buf col idx 4; mret (double_of_float (float_of_bits v))
  | Bool => v ← read_fixed buf col idx 1; mret (double_of_Z v)
  | _ => mret (S754_zero false)
  end.

Definition haversine_km (lat1 lng1 lat2 lng2 : double) : double :=
  let two := double_of_Z 2 in
  let one := double_of_Z 1 in
  let dlat := dmul (dsub lat2 lat1) kDegToRad in
  let dlng := dmul (dsub lng2 lng1) kDegToRad in
  let a := dadd (dmul (lib_sin (ddiv dlat two)) (lib_sin (ddiv dlat two)))
    (dmul (dmul (dmul (lib_cos (dmul lat1 kDegToRad)) (lib_cos (dmul lat2 kDegToRad)))
       (lib_sin (ddiv dlng two))) (lib_sin (ddiv dlng two))) in
  dmul (dmul kEarthRadiusKm two) (lib_atan2 (dsqrt a) (dsqrt (dsub one a))).

Definition eval_predicate_geo (lat_col lng_col : ColumnView) (idx : Z) (pred : Predicate) : res bool :=
  n1 ← view_null buf lat_col idx;
  n2 ← (if (n1 : bool) then mret true else view_null buf lng_col idx);
  if (n2 : bool) then mret false
  else
    lat ← read_fixed_as_double lat_col idx;
    lng ← read_fixed_as_double lng_col idx;
    match op pred with
    | OpGeoBox =>
        mret (SFleb (value pred) lat && SFleb lat (value3 pred) &&
              SFleb (value2 pred) lng && SFleb lng (value4 pred))
    | OpGeoRadius =>
        mret (SFleb (haversine_km (value pred) (value2 pred) lat lng) (radius_km pred))
    | _ => mret true
    end.

(** ** All predicates of a query *)

Definition is_geo (o : PredicateOp) : bool :=
  bool_decide (o = OpGeoBox) || bool_decide (o = OpGeoRadius).

(** [p < geo_lng_col_indices.size() ? geo_lng_col_indices[p] : UINT32_MAX]. *)
Definition lng_index (geo_lng_col_indices : list Z) (p : nat) : Z :=
  default UINT32_MAX (geo_lng_col_indices !! p).

Fixpoint eval_all_loop (cols : list ColumnView) (idx : Z) (preds : list Predicate)
    (pred_col_indices geo_lng_col_indices : list Z) (p : nat) : res bool :=
  match preds with
  | [] => mret true
  | pred :: rest =>
      ok ← (if is_geo (op pred) then
        let lng_col := lng_index geo_lng_col_indices p in
        if Z.of_nat (length cols) <=? lng_col then mret false
        else
          ci ← vec_get pred_col_indices (Z.of_nat p);
          c1 ← vec_get cols ci; c2 ← vec_get cols lng_col;
          eval_predicate_geo c1 c2 idx pred
      else
        ci ← vec_get pred_col_indices (Z.of_nat p);
        c ← vec_get cols ci;
        eval_predicate c idx pred);
      if (ok : bool) then eval_all_loop cols idx rest pred_col_indices geo_lng_col_indices (S p)
      else mret false
  end.

Definition eval_all_predicates (cols : list ColumnView) (idx : Z) (preds : list Predicate)
    (pred_col_indices geo_lng_col_indices : list Z) : res bool :=
  eval_all_loop cols idx preds pred_col_indices geo_lng_col_indices 0.

(** ** Four candidates at once *)

(** [mask] with bit [j] set when [f j] holds, [j] = 0 to 3. *)
Definition mask4 (f : Z → res bool) : res Z :=
  for_range 4 0 (λ j mask, b ← f j; mret (if (b : bool) then Z.lor mask (Z.shiftl 1 j) else mask)) 0.

(** [static_cast<int32_t>] of a [double]: truncation, undefined out of range. *)
Definition int32_of_double (x : double) : res Z :=
  match x with
  | S754_zero _ => Ok 0
  | S754_finite s m e =>
      let v := cond_Zopp s (truncate_pos m e) in
      if bool_decide (- 2 ^ 31 ≤ v < 2 ^ 31) then Ok v else Err UndefinedBehaviour
  | _ => Err UndefinedBehaviour
  end.

(** The lane comparisons both builds share; [None] where they differ. *)
Definition batch_compare (o : PredicateOp) (val pv pv2 : Z) : option bool :=
  match o with
  | OpEq => Some (val =? pv)
  | OpLt => Some (val <? pv)
  | OpLe => Some (val <=? pv)
  | OpGt => Some (pv <? val)
  | OpGe => Some (pv <=? val)
  | OpBetween => Some ((pv <=? val) && (val <=? pv2))
  | _ => None
  end.

(** [eval_predicate_batch4]; [neon] is [FILTER_HAS_NEON]. *)
Definition eval_predicate_batch4 (neon : bool) (col : ColumnView) (start_idx : Z)
    (pred : Predicate) : res Z :=
  if negb (bool_decide (v_type col = Int32)) then
    mask4 (λ j, eval_predicate col (start_idx + j) pred)
  else
    pv ← int32_of_double (value pred);
    pv2 ← int32_of_double (value2 pred);
    mask4 (λ j,
      val ← mem_uint buf (v_fixed_base col + 4 * (start_idx + j)) 4;
      match batch_compare (op pred) (to_signed 32 val) pv pv2 with
      | Some b => mret b
      | None =>
          if neon && negb (bool_decide (op pred = OpNotEq ∨ op pred = OpIn ∨ op pred = OpNotIn))
          then mret false
          else eval_predicate col (start_idx + j) pred
      end).

Fixpoint eval_all_batch4_loop (neon : bool) (cols : list ColumnView) (start_idx : Z)
    (preds : list Predicate) (pred_col_indices geo_lng_col_indices : list Z) (p : nat)
    (mask : Z) : res Z :=
  match preds with
  | [] => mret mask
  | pred :: rest =>
      if mask =? 0 then mret mask
      else if is_geo (op pred) then
        let lng_col := lng_index geo_lng_col_indices p in
        if Z.of_nat (length cols) <=? lng_col then mret 0
        else
          ci ← vec_get pred_col_indices (Z.of_nat p);
          c1 ← vec_get cols ci; c2 ← vec_get cols lng_col;
          gmask ← mask4 (λ j, eval_predicate_geo c1 c2 (start_idx + j) pred);
          eval_all_batch4_loop neon cols start_idx rest pred_col_indices geo_lng_col_indices
            (S p) (Z.land mask gmask)
      else
        ci ← vec_get pred_col_indices (Z.of_nat p);
        c ← vec_get cols ci;
        m ← eval_predicate_batch4 neon c start_idx pred;
        eval_all_batch4_loop neon cols start_idx rest pred_col_indices geo_lng_col_indices
          (S p) (Z.land mask m)
  end.

Definition eval_all_predicates_batch4 (neon : bool) (cols : list ColumnView) (start_idx : Z)
    (preds : list Predicate) (pred_col_indices geo_lng_col_indices : list Z) : res Z :=
  eval_all_batch4_loop neon cols start_idx preds pred_col_indices geo_lng_col_indices 0 15.
End eval.
End scan.

(** * Specification: three-valued logic on cells *)

Section spec.
Context `{RapidHash} `{LibM}.

(** [cast_is D d v]: the constant [d], cast to the column's type, is [v]. *)
Definition cast_is {T} (D : domain T) (d : double) (v : T) : Prop := round_to D d = Ok v.

(** The comparison [val o constant] in the column's domain. *)
Definition compare_sem {T} (D : domain T) (pred : Predicate) (val : T) : Prop :=
  match op pred with
  | OpEq => ∃ a, cast_is D (value pred) a ∧ d_eqb D val a = true
  | OpNotEq => ∃ a, cast_is D (value pred) a ∧ d_eqb D val a = false
  | OpLt => ∃ a, cast_is D (value pred) a ∧ d_ltb D val a = true
  | OpLe => ∃ a, cast_is D (value pred) a ∧ d_leb D val a = true
  | OpGt => ∃ a, cast_is D (value pred) a ∧ d_ltb D a val = true
  | OpGe => ∃ a, cast_is D (value pred) a ∧ d_leb D a val = true
  | OpBetween => ∃ a b, cast_is D (value pred) a ∧ cast_is D (value2 pred) b ∧
      d_leb D a val = true ∧ d_leb D val b = true
  | OpIn => ∃ s d a, s ∈ values pred ∧ stod s = Some d ∧ cast_is D d a ∧ d_eqb D val a = true
  | OpNotIn => ¬ ∃ s d a, s ∈ values pred ∧ stod s = Some d ∧ cast_is D d a ∧ d_eqb D val a = true
  | _ => True
  end.

(** What a predicate says of a value that is not NULL, as [schema.hpp] documents
    it: for [IN] and [NOT IN] on a string column [values] is the set, and the
    scalar string plays no part; a set column folds the scalar, when there is
    one, into the list. *)
Definition cell_sem (t : ColumnType) (pred : Predicate) (c : cell) : Prop :=
  match t, c with
  | Int32, CFixed bs => compare_sem (int_domain 32) pred (to_signed 32 (le_dec bs))
  | Int64, CFixed bs => compare_sem (int_domain 64) pred (to_signed 64 (le_dec bs))
  | Float, CFixed bs => compare_sem float_domain pred (float_of_bits (le_dec bs))
  | Bool, CFixed bs =>
      let same := le_dec bs ≠ 0 ↔ SFeqb (value pred) (S754_zero false) = false in
      match op pred with OpEq => same | OpNotEq => ¬ same | _ => True end
  | String, CStr s =>
      match op pred with
      | OpEq => s = str_value pred
      | OpNotEq => s ≠ str_value pred
      | OpPrefix => str_value pred `prefix_of` s
      | OpIn => s ∈ values pred
      | OpNotIn => s ∉ values pred
      | _ => True
      end
  | Set_, CSet es =>
      match op pred with
      | OpContains => str_value pred ∈ es
      | OpContainsAny => ∃ q, q ∈ query_vals pred ∧ q ∈ es
      | OpContainsAll => ∀ q, q ∈ query_vals pred → q ∈ es
      | _ => True
      end
  | _, _ => False
  end.

(** A NULL passes [IS NULL] only. *)
Definition row_sem (t : ColumnType) (pred : Predicate) (null : bool) (c : cell) : Prop :=
  if null then op pred = OpIsNull
  else match op pred with
  | OpIsNull => False
  | OpIsNotNull => True
  | _ => cell_sem t pred c
  end.

(** The constants the predicate compares with have a value in the column's type. *)
Definition casts_ok {T} (D : domain T) (pred : Predicate) : Prop :=
  (∃ a, cast_is D (value pred) a) ∧ (∃ b, cast_is D (value2 pred) b) ∧
  ∀ s d, s ∈ values pred → stod s = Some d → ∃ a, cast_is D d a.

Definition consts_ok (t : ColumnType) (pred : Predicate) : Prop :=
  match t with
  | Int32 => casts_ok (int_domain 32) pred
  | Int64 => casts_ok (int_domain 64) pred
  | _ => True
  end.

(** The string of the cell is not the predicate's scalar, unless the scalar is
    also in [values]: [eval_predicate] counts the scalar as a member of the set,
    the empty one of a predicate that sets only [values] included. *)
Definition scalar_apart (t : ColumnType) (pred : Predicate) (c : cell) : Prop :=
  t = String → op pred = OpIn ∨ op pred = OpNotIn → c = CStr (str_value pred) →
  str_value pred ∈ values pred.

(** ** Lemmas *)

Lemma in_list_ok {T} (D : domain T) val vs :
  (∀ s d, s ∈ vs → stod s = Some d → ∃ a, cast_is D d a) →
  ∃ r, in_list D val vs = Ok r ∧
    (r = true ↔ ∃ s d a, s ∈ vs ∧ stod s = Some d ∧ cast_is D d a ∧ d_eqb D val a = true).
Proof.
  induction vs as [|s vs IH]; intros Hok.
  - exists false. split; [done|]. split; [done|]. intros (s & _ & _ & Hs & _). by apply not_elem_of_nil in Hs.
  - destruct IH as (r & Er & Hr); [intros; eapply Hok; [by right|done]|]. cbn [in_list].
    destruct (stod s) as [d|] eqn:Es.
    + destruct (Hok s d) as [a Ha]; [by left|done|]. rewrite Ha, bind_Ok.
      destruct (d_eqb D val a) eqn:Ea.
      * exists true. split; [done|]. split; [|done]. intros _. exists s, d, a. by split_and!; [left|..].
      * exists r. split; [done|]. rewrite Hr. split.
        -- intros (s' & d' & a' & Hs & ?). exists s', d', a'. split; [by right|done].
        -- intros (s' & d' & a' & [->|Hs]%elem_of_cons & E1 & E2 & E3); [|by exists s', d', a'].
           unfold cast_is in *. congruence.
    + exists r. split; [done|]. rewrite Hr. split.
      * intros (s' & d' & a' & Hs & ?). exists s', d', a'. split; [by right|done].
      * intros (s' & d' & a' & [->|Hs]%elem_of_cons & E1 & E2 & E3); [congruence|by exists s', d', a'].
Qed.

Lemma typed_compare_ok {T} (D : domain T) pred val :
  casts_ok D pred →
  ∃ r, typed_compare D (op pred) val (value pred) (value2 pred) (values pred) = Ok r ∧
    (r = true ↔ compare_sem D pred val).
Proof.
  intros ([a Ha] & [b Hb] & Hvs). destruct (in_list_ok D val (values pred) Hvs) as (r & Er & Hr).
  unfold typed_compare, compare_sem.
  destruct (op pred); rewrite ?Ha, ?Hb, ?Er, ?bind_Ok; eexists; (split; [reflexivity|]);
    try (split; [intros; by eexists _|intros (a' & Ha' & E); unfold cast_is in *; congruence]);
    try done.
  - split.
    + intros E%negb_true_iff. by exists a.
    + intros (a' & Ha' & E). unfold cast_is in *. assert (a' = a) as -> by congruence. by rewrite E.
  - split.
    + intros [E1 E2]%andb_true_iff. by exists a, b.
    + intros (a' & b' & Ha' & Hb' & E1 & E2). unfold cast_is in *.
      assert (a' = a) as -> by congruence. assert (b' = b) as -> by congruence.
      apply andb_true_iff. by split.
  - rewrite <- Hr. by destruct r.
Qed.

Lemma set_has_ok b v i es qv :
  view_cell b v i (CSet es) → set_has b v i qv = Ok (bool_decide (qv ∈ es)).
Proof.
  intros [Hh Hs]. unfold set_has. rewrite Hh, bind_Ok, Hs. case_bool_decide as Hin; [done|].
  rewrite bool_decide_false; [done|]. intros Hq. apply Hin. apply list_elem_of_fmap. by exists qv.
Qed.

Lemma any_has_ok b v i es qs :
  view_cell b v i (CSet es) →
  ∃ r, any_has b v i qs = Ok r ∧ (r = true ↔ ∃ q, q ∈ qs ∧ q ∈ es).
Proof.
  intros Hv. induction qs as [|q qs (r & Er & Hr)]; cbn [any_has].
  - exists false. split; [done|]. split; [done|]. by intros (q & ?%not_elem_of_nil & _).
  - rewrite (set_has_ok b v i es) by done. rewrite bind_Ok. case_bool_decide as Hq.
    + exists true. split; [done|]. split; [|done]. intros _. exists q. split; [by left|done].
    + exists r. split; [done|]. rewrite Hr. split.
      * intros (q' & ? & ?). exists q'. split; [by right|done].
      * intros (q' & [->|?]%elem_of_cons & ?); [done|by exists q'].
Qed.

Lemma all_has_ok b v i es qs :
  view_cell b v i (CSet es) →
  ∃ r, all_has b v i qs = Ok r ∧ (r = true ↔ ∀ q, q ∈ qs → q ∈ es).
Proof.
  intros Hv. induction qs as [|q qs (r & Er & Hr)]; cbn [all_has].
  - exists true. split; [done|]. split; [|done]. by intros _ q ?%not_elem_of_nil.
  - rewrite (set_has_ok b v i es) by done. rewrite bind_Ok. case_bool_decide as Hq.
    + exists r. split; [done|]. rewrite Hr. split.
      * intros Hall q' [->|?]%elem_of_cons; [done|by apply Hall].
      * intros Hall q' ?. apply Hall. by right.
    + exists false. split; [done|]. split; [done|]. intros Hall. exfalso. apply Hq, Hall. by left.
Qed.

Lemma existsb_eq (s : list Z) l : existsb (λ x, bool_decide (s = x)) l = bool_decide (s ∈ l).
Proof.
  induction l as [|x l IH]; cbn [existsb].
  - by rewrite bool_decide_false by (by intros ?%not_elem_of_nil).
  - rewrite IH. destruct (decide (s = x)) as [->|Hne].
    + rewrite (bool_decide_true (x = x)) by done. cbn [orb]. by rewrite bool_decide_true by left.
    + rewrite (bool_decide_false (s = x)) by done. apply bool_decide_ext. rewrite elem_of_cons. intuition congruence.
Qed.

(** Apart from the scalar, the code's set is the documented one. *)
Lemma scalar_apart_in pred s :
  op pred = OpIn ∨ op pred = OpNotIn → scalar_apart String pred (CStr s) →
  s ∈ str_value pred :: values pred ↔ s ∈ values pred.
Proof.
  intros Hop Ha. rewrite elem_of_cons. split; [|by right]. intros [->|Hs]; [|done]. by apply Ha.
Qed.

Lemma eval_string_ok b v i s pred :
  view_cell b v i (CStr s) → scalar_apart String pred (CStr s) →
  ∃ r, eval_string b v i pred = Ok r ∧ (r = true ↔ cell_sem String pred (CStr s)).
Proof.
  intros [Es Eh] Ha. unfold eval_string, cell_sem.
  destruct (op pred) eqn:Eo; rewrite ?Es, ?Eh, ?bind_Ok; try (by exists true).
  - destruct (Z.eqb_spec (filter_hash s) (filter_hash (str_value pred))) as [E|E]; cbn [negb].
    + eexists. split; [done|]. apply bool_decide_eq_true.
    + exists false. split; [done|]. split; [done|]. intros ->. done.
  - destruct (Z.eqb_spec (filter_hash s) (filter_hash (str_value pred))) as [E|E].
    + case_bool_decide as Hd; [exists false|exists true]; (split; [done|]); naive_solver.
    + exists true. split; [done|]. split; [|done]. intros _ ->. done.
  - destruct (Z.ltb_spec (Z.of_nat (length s)) (Z.of_nat (length (str_value pred)))) as [Hl|Hl].
    + exists false. split; [done|]. split; [done|]. intros [k Hk]. rewrite Hk, length_app in Hl. lia.
    + eexists. split; [done|]. rewrite bool_decide_eq_true. split.
      * intros <-. apply prefix_take.
      * intros [k ->]. by rewrite take_app_length.
  - rewrite existsb_eq. eexists. split; [done|]. rewrite bool_decide_eq_true. apply scalar_apart_in; auto.
  - rewrite existsb_eq. eexists. split; [done|]. rewrite negb_true_iff, bool_decide_eq_false.
    rewrite scalar_apart_in by auto. done.
Qed.

(** One predicate on one stored row. *)
Lemma eval_predicate_ok b v col d i c x pred :
  view_is b v col d → d.1 !! i = Some c → d.2 !! i = Some x → cell_ok (col_type col) c →
  consts_ok (col_type col) pred → scalar_apart (col_type col) pred c →
  ∃ r, eval_predicate b v (Z.of_nat i) pred = Ok r ∧
    (r = true ↔ row_sem (col_type col) pred (nullable col && negb (x =? 0)) c).
Proof.
  intros [Ht Hv] Hc Hx Hok Hconst Hapart. destruct (Hv i c x Hc Hx) as [Hcell Hnull].
  unfold eval_predicate, row_sem. rewrite Hnull, bind_Ok. destruct (nullable col && negb (x =? 0)).
  { eexists. split; [done|]. apply bool_decide_eq_true. }
  case_bool_decide as Ho1; [rewrite Ho1; by exists false|].
  case_bool_decide as Ho2; [rewrite Ho2; by exists true|].
  assert (∀ P Q : Prop, match op pred with OpIsNull => P | OpIsNotNull => Q
    | _ => cell_sem (col_type col) pred c end ↔ cell_sem (col_type col) pred c) as Hsem
    by (intros P Q; by destruct (op pred)).
  setoid_rewrite Hsem. clear Hsem Hnull Hv. rewrite Ht.
  destruct (col_type col) eqn:Et; destruct c as [bs|s|es]; try done.
  - destruct Hok as [Hl _], Hcell as [E _]. assert (length bs = 4%nat) as Hl4 by (cbn in Hl; lia).
    rewrite Hl4 in E. rewrite E, bind_Ok. by apply typed_compare_ok.
  - destruct Hok as [Hl _], Hcell as [E _]. assert (length bs = 8%nat) as Hl8 by (cbn in Hl; lia).
    rewrite Hl8 in E. rewrite E, bind_Ok. by apply typed_compare_ok.
  - destruct Hok as [Hl _], Hcell as [E _]. assert (length bs = 4%nat) as Hl4 by (cbn in Hl; lia).
    rewrite Hl4 in E. rewrite E, bind_Ok. apply typed_compare_ok.
    split; [by eexists|]. split; [by eexists|]. intros; by eexists.
  - destruct Hok as [Hl _], Hcell as [_ E]. rewrite E by (cbn in Hl; lia). rewrite bind_Ok.
    unfold cell_sem. set (z := le_dec bs). set (p0 := SFeqb (value pred) (S754_zero false)).
    destruct (op pred); try (by exists true); eexists; (split; [done|]);
      destruct (Z.eqb_spec z 0), p0; cbn; intuition congruence.
  - by apply eval_string_ok.
  - unfold eval_set, cell_sem. destruct (op pred); try (by exists true).
    + rewrite (set_has_ok b v _ es) by done. eexists. split; [done|]. apply bool_decide_eq_true.
    + by apply any_has_ok.
    + by apply all_has_ok.
Qed.

(** Every predicate of the query, on one stored row of a table. *)
Definition query_sem (cols : list FilterColumn) (tbl : list (list cell * list Z)) (i : nat)
    (preds : list Predicate) (pcis : list Z) : Prop :=
  ∀ p pred ci, preds !! p = Some pred → pcis !! p = Some ci →
    ∃ col d c x, cols !! Z.to_nat ci = Some col ∧ tbl !! Z.to_nat ci = Some d ∧
      d.1 !! i = Some c ∧ d.2 !! i = Some x ∧
      row_sem (col_type col) pred (nullable col && negb (x =? 0)) c.

(** The row's strings are apart from the scalars of the query's [IN]s. *)
Definition row_apart (cols : list FilterColumn) (tbl : list (list cell * list Z)) (i : nat)
    (preds : list Predicate) (pcis : list Z) : Prop :=
  ∀ p pred ci col d c, preds !! p = Some pred → pcis !! p = Some ci →
    cols !! Z.to_nat ci = Some col → tbl !! Z.to_nat ci = Some d → d.1 !! i = Some c →
    scalar_apart (col_type col) pred c.

(** What is asked of a query: one column index per predicate, in range, no geo
    predicate, and constants with a value in the column's type. *)
Definition query_ok (cols : list FilterColumn) (preds : list Predicate) (pcis : list Z) : Prop :=
  Forall2 (λ pred ci, is_geo (op pred) = false ∧ 0 ≤ ci ∧
    ∃ col, cols !! Z.to_nat ci = Some col ∧ consts_ok (col_type col) pred) preds pcis.

Lemma Forall3_lookup {A B C} (P : A → B → C → Prop) l k m i y :
  Forall3 P l k m → k !! i = Some y → ∃ x z, l !! i = Some x ∧ m !! i = Some z ∧ P x y z.
Proof.
  intros HF. revert i. induction HF as [|x y' z l k m Hp HF IH]; intros i Hi; [done|].
  destruct i as [|i]; simpl in *; [simplify_eq; by exists x, z|by apply IH].
Qed.

Lemma eval_all_ok b n views cols tbl i preds pcis geo p0 pre :
  Forall3 (view_is b) views cols tbl →
  Forall2 (λ col d, column_ok col d ∧ length d.1 = n) cols tbl → (i < n)%nat →
  query_ok cols preds pcis → row_apart cols tbl i preds pcis → length pre = p0 →
  ∃ r, eval_all_loop b views (Z.of_nat i) preds (pre ++ pcis) geo p0 = Ok r ∧
    (r = true ↔ query_sem cols tbl i preds pcis).
Proof.
  intros Hv Hok Hi Hq. revert p0 pre.
  induction Hq as [|pred ci preds pcis (Hgeo & Hci & col & Hcol & Hconst) Hq IH]; intros p0 pre Hap Hpre.
  { exists true. split; [done|]. split; [|done]. intros _ p pred ci Hp. done. }
  destruct (Forall3_lookup _ _ _ _ _ _ Hv Hcol) as (v & d & Hvi & Hdi & Hview).
  destruct (Forall2_lookup_l _ _ _ _ _ Hok Hcol) as (d' & Hd' & (Hcells & Hnl & _) & Hlen).
  assert (d' = d) as -> by congruence.
  destruct (lookup_lt_is_Some_2 d.1 i) as [c Hc]; [lia|].
  destruct (lookup_lt_is_Some_2 d.2 i) as [x Hx]; [lia|].
  destruct (eval_predicate_ok b v col d i c x pred Hview Hc Hx) as (r1 & E1 & Hr1);
    [by apply (Forall_lookup_1 _ _ _ _ Hcells Hc)|done|by apply (Hap 0%nat pred ci col d c)|].
  assert (query_sem cols tbl i (pred :: preds) (ci :: pcis) ↔
    row_sem (col_type col) pred (nullable col && negb (x =? 0)) c ∧ query_sem cols tbl i preds pcis)
    as Hsem.
  { split.
    - intros Hall. split; [|intros p pr cj Hp Hc'; by apply (Hall (S p))].
      destruct (Hall 0%nat pred ci eq_refl eq_refl) as (col' & d' & c' & x' & ? & ? & ? & ? & ?).
      by simplify_eq.
    - intros [Hrow Hall] [|p] pr cj Hp Hc'; simpl in Hp, Hc'; [|by apply (Hall p)].
      simplify_eq. by exists col, d, c, x. }
  cbn [eval_all_loop]. rewrite Hgeo.
  rewrite (vec_get_lookup (pre ++ ci :: pcis) p0 ci) by (rewrite <- Hpre; by apply list_lookup_middle).
  rewrite bind_Ok. pose proof (vec_get_lookup views _ _ Hvi) as Hg. rewrite Z2Nat.id in Hg by done.
  rewrite Hg, bind_Ok, E1, bind_Ok. destruct r1.
  - destruct (IH (S p0) (pre ++ [ci])) as (r & E & Hr);
      [intros p; apply (Hap (S p))|rewrite length_app; simpl; lia|].
    rewrite <- app_assoc in E. exists r. split; [exact E|]. rewrite Hr, Hsem.
    split; [|by intros [_ ?]]. intros Hall. split; [by apply Hr1|done].
  - exists false. split; [done|]. rewrite Hsem. split; [done|]. intros [Hrow _]. by apply Hr1 in Hrow.
Qed.

Lemma table_columns_ok n cols fcs tbl :
  table_is n cols fcs tbl → Forall2 (λ col d, column_ok col d ∧ length d.1 = n) cols tbl.
Proof.
  induction 1 as [|col fc d cols fcs tbl [Hc Hn] _ IH]; constructor; [|done].
  split; [by apply (column_is_ok col fc)|done].
Qed.

(** C2: filtering a leaf answers the query: for every row of a leaf written by
    [write_filter_columns] and parsed by [parse_filter_columns],
    [eval_all_predicates] returns, without failing, whether the row's own cells
    satisfy every predicate in three-valued logic; the hash tests in front of
    the exact comparisons never lose or add a row.

    The conditions ([query_ok], [row_apart]): the query has no geo predicate;
    the constants compared with an [int32] or [int64] column round to an
    integer; and the row's string is not the scalar [str_value] of an [IN] or
    [NOT IN] on its column, unless that scalar is also in [values].  [IN] is
    membership in [values], as [schema.hpp] says; the code also accepts the
    scalar, which [string_in_empty_divergence] shows wrong on a row this
    theorem leaves out. *)
Theorem filtered_search_exact n schema fcs tbl buf preds pcis geo i :
  table_is n (columns schema) fcs tbl →
  columns_end (columns schema) tbl 0 ≤ zlen buf → zlen buf < 2 ^ 32 →
  query_ok (columns schema) preds pcis → row_apart (columns schema) tbl i preds pcis →
  (i < n)%nat →
  ∃ size buf' views r,
    write_filter_columns buf (Z.of_nat n) schema fcs = Ok (buf', size) ∧
    parse_filter_columns buf' (Z.of_nat n) schema = Ok views ∧
    eval_all_predicates buf' views (Z.of_nat i) preds pcis geo = Ok r ∧
    (r = true ↔ query_sem (columns schema) tbl i preds pcis).
Proof.
  intros Ht Hfit Hb Hq Hap Hi. destruct (write_columns_ok n _ [] fcs tbl buf 0 Ht) as (b & E & S1 & L1); [lia..|].
  assert (zlen b = zlen buf) as Hzl by (unfold zlen; by rewrite (same_outside_length _ _ _ _ S1)).
  rewrite <- Hzl in Hfit, Hb. exists (columns_end (columns schema) tbl 0), b.
  destruct (parse_loop_ok n _ fcs tbl b 0 Ht L1) as (views & Ep & Hv); [lia..|].
  destruct (eval_all_ok b n views _ tbl i preds pcis geo 0 [] Hv (table_columns_ok _ _ _ _ Ht) Hi Hq Hap eq_refl)
    as (r & Er & Hr).
  exists views, r. unfold write_filter_columns, parse_filter_columns.
  destruct (columns schema) as [|col cols] eqn:Ec.
  - rewrite bool_decide_true by done. simpl in *. simplify_eq. by split_and!.
  - inversion Ht; subst. rewrite !bool_decide_false by done. by split_and!.
Qed.

(** ** Four at a time *)

Lemma for_range_congr {S} (f g : Z → S → res S) k i s :
  (∀ j t, i ≤ j < i + Z.of_nat k → f j t = g j t) → for_range k i f s = for_range k i g s.
Proof.
  revert i s. induction k as [|k IH]; intros i s Hfg; [done|]. cbn [for_range].
  rewrite Hfg by lia. destruct (g i s); [|done]. cbn. apply IH. intros. apply Hfg. lia.
Qed.

(** The operators the vector path handles or sends to the scalar one. *)
Definition batch_op (o : PredicateOp) : bool :=
  match o with
  | OpEq | OpNotEq | OpLt | OpLe | OpGt | OpGe | OpBetween | OpIn | OpNotIn => true
  | _ => false
  end.

(** C28: for a comparison, [BETWEEN], [IN] or [NOT IN] ([batch_op]) on an [int32]
    column without a null mask, whose two constants truncate and round to the
    same [int32], the four-row evaluation is the scalar one, row by row, on both
    builds; on any other column type it is, for every operator.  The operators
    left out are those the vector path does not handle: on the NEON build
    [IS NOT NULL] selects nothing there ([batch4_isnotnull_divergence]); a null
    mask and a fractional constant break it too ([batch4_null_divergence],
    [batch4_rounding_divergence]). *)
Theorem batch4_is_scalar b neon v start pred :
  v_type v ≠ Int32 ∨
  v_nulls v = None ∧ v_fixed_width v = 4 ∧ batch_op (op pred) = true ∧
  (∃ a, int32_of_double (value pred) = Ok a ∧ llround (value pred) = Ok a) ∧
  (∃ a, int32_of_double (value2 pred) = Ok a ∧ llround (value2 pred) = Ok a) →
  eval_predicate_batch4 b neon v start pred = mask4 (λ j, eval_predicate b v (start + j) pred).
Proof.
  unfold eval_predicate_batch4. intros [Ht|(Hn & Hw & Hop & (a & Ha1 & Ha2) & (c & Hc1 & Hc2))].
  { by rewrite bool_decide_false by done. }
  destruct (decide (v_type v = Int32)) as [Ht|Ht]; [|by rewrite bool_decide_false by done].
  rewrite bool_decide_true by done. cbn [negb]. rewrite Ha1, bind_Ok, Hc1, bind_Ok.
  assert (∀ z d, int32_of_double d = Ok z → to_signed 32 z = z) as Hsgn.
  { intros z d Hd. unfold int32_of_double in Hd. destruct d; simplify_eq; try done.
    case_bool_decide as Hr; simplify_eq. unfold to_signed.
    set (z := cond_Zopp s (truncate_pos m e)) in *. clearbody z.
    destruct (Z.ltb_spec (z mod 2 ^ 32) (2 ^ (32 - 1))); Z.div_mod_to_equations; lia. }
  pose proof (Hsgn _ _ Ha1) as Hsa. pose proof (Hsgn _ _ Hc1) as Hsc. unfold mask4.
  apply for_range_congr. intros j t _. f_equal.
  unfold eval_predicate, view_null, read_fixed. rewrite Hn, bind_Ok, Ht, Hw.
  rewrite (bool_decide_false (op pred = OpIsNull)) by (by destruct (op pred)).
  rewrite (bool_decide_false (op pred = OpIsNotNull)) by (by destruct (op pred)).
  replace (v_fixed_base v + 4 * (start + j)) with (v_fixed_base v + (start + j) * 4) by lia.
  destruct (mem_uint b (v_fixed_base v + (start + j) * 4) 4) as [val|e]; [|done].
  rewrite !bind_Ok. unfold typed_compare, int_domain. cbn [round_to d_eqb d_ltb d_leb].
  rewrite Ha2, Hc2, !bind_Ok. unfold mret, res_ret. rewrite Hsa, Hsc.
  destruct (op pred); cbn [batch_compare batch_op] in *; try done;
    by rewrite bool_decide_true, andb_false_r by naive_solver.
Qed.
End spec.

(** ** Witnesses and divergences *)

Definition w_libm : LibM := {| stod := λ _, None; lib_sin := id; lib_cos := id; lib_atan2 := λ x _, x |}.
#[local] Existing Instance w_libm.
#[local] Existing Instance w_hash.

Definition w_pred (o : PredicateOp) (v : double) (s : list Z) (vs : list (list Z)) : Predicate :=
  mkPredicate [] o v (S754_zero false) (S754_zero false) (S754_zero false) (S754_zero false) [] s vs.

Definition w_preds : list Predicate :=
  [w_pred OpEq (S754_zero false) [104; 105] []; w_pred OpGe (double_of_Z 7) [] [];
   w_pred OpContainsAny (S754_zero false) [] [[1]; [120]];
   w_pred OpIn (S754_zero false) [] [[104; 105]; [97]]].

Lemma filtered_search_exact_witness :
  ∃ size buf' views r,
    write_filter_columns (replicate 200 170) 2 w_schema w_fcs1 = Ok (buf', size) ∧
    parse_filter_columns buf' 2 w_schema = Ok views ∧
    eval_all_predicates buf' views 0 w_preds [0; 1; 2; 0] [] = Ok r ∧
    (r = true ↔ query_sem (columns w_schema) w_tbl1 0 w_preds [0; 1; 2; 0]).
Proof.
  apply (filtered_search_exact 2 w_schema w_fcs1 w_tbl1 (replicate 200 170) w_preds [0; 1; 2; 0] [] 0 w_table1).
  - by vm_compute.
  - by vm_compute.
  - repeat apply Forall2_cons_2; [..|constructor]; (split; [done|]); (split; [done|]).
    + by exists (mkColumn [97] String true).
    + exists (mkColumn [98] Int32 false). split; [done|]. split; [by exists 7|]. split; [by exists 0|].
      intros s d Hs. by apply not_elem_of_nil in Hs.
    + by exists (mkColumn [99] Set_ true).
    + by exists (mkColumn [97] String true).
  - intros [|[|[|[|p]]]] pred ci col d c Hp Hc Hcol Hd Hd1; simpl in Hp, Hc; simplify_eq;
      intros _ [Ho|Ho]; simpl in Ho; try discriminate Ho; intros Es; simpl in Hcol, Hd;
      simplify_eq; simpl in Hd1; simplify_eq.
  - lia.
Defined.

(** A view of four [int32] values at offset 4, the validity bytes at offset 0. *)
Definition w_view : ColumnView := mkView Int32 (Some 0) 4 4 0 0 0 0 0 0 0 0.
Definition w_view_plain : ColumnView := mkView Int32 None 4 4 0 0 0 0 0 0 0 0.
Definition w_buf : list Z := [1; 0; 0; 0] ++ arr 4 [0; 3; 5; 0].

Lemma batch4_is_scalar_witness :
  eval_predicate_batch4 w_buf true w_view_plain 0 (w_pred OpGt (double_of_Z 2) [] []) =
  mask4 (λ j, eval_predicate w_buf w_view_plain (0 + j) (w_pred OpGt (double_of_Z 2) [] [])).
Proof.
  apply batch4_is_scalar. right. split; [done|]. split; [done|]. split; [done|].
  split; [by exists 2|by exists 0].
Defined.

(** With a NULL in row 0, [x = 0] must fail there; the four-row evaluation lets
    it pass, on both builds. *)
Lemma batch4_null_divergence neon :
  eval_predicate w_buf w_view 0 (w_pred OpEq (S754_zero false) [] []) = Ok false ∧
  eval_predicate_batch4 w_buf neon w_view 0 (w_pred OpEq (S754_zero false) [] []) = Ok 9.
Proof. split; [done|by destruct neon]. Qed.

(** A fractional constant is rounded by the one and truncated by the other. *)
Lemma batch4_rounding_divergence neon :
  let pred := w_pred OpEq (ddiv (double_of_Z 13) (double_of_Z 5)) [] [] in
  eval_predicate w_buf w_view_plain 1 pred = Ok true ∧
  eval_predicate_batch4 w_buf neon w_view_plain 0 pred = Ok 0.
Proof. split; [done|by destruct neon]. Qed.

(** On the vector build [IS NOT NULL] selects nothing. *)
Lemma batch4_isnotnull_divergence :
  eval_predicate w_buf w_view_plain 1 (w_pred OpIsNotNull (S754_zero false) [] []) = Ok true ∧
  eval_predicate_batch4 w_buf true w_view_plain 0 (w_pred OpIsNotNull (S754_zero false) [] []) = Ok 0.
Proof. by split. Qed.

(** [s IN ('a')] with no scalar string set selects the empty string. *)
Lemma string_in_empty_divergence :
  let b := arr 4 [0] ++ arr 2 [0] ++ [0; 0] ++ arr 4 [filter_hash []] in
  eval_predicate b (mkView String None 0 0 0 4 8 12 0 0 0 0) 0
    (w_pred OpIn (S754_zero false) [] [[97]]) = Ok true.
Proof. done. Qed.
