(* ===== verification/FilterSummary.v ===== *)
(** * Filter summaries: building, merging and pruning

    [write_filter_summary], [merge_filter_summary] and [init_empty_summary] of
    [src/tree/filter_column_write.hpp], [summary_may_match] of
    [src/tree/filter_scan.cpp] and [estimate_numeric_selectivity] of
    [src/tree/filter_scan.hpp]. *)
From S2P Require Import Prelude Doubles Schema FilterHash FilterColumns FilterScan.

Definition kBloomThreshold : Z := 150.
Definition DBL_MAX : double := SFmax_float 53 1024.
Definition DBL_LOWEST : double := SFopp DBL_MAX.

(** ** Values and hashes of a column *)

Definition read_numeric (col : ColumnData) (i : Z) : res double :=
  match cd_type col with
  | Int32 => bs ← mem_read (fixed_data col) (i * 4) 4; mret (double_of_Z (to_signed 32 (le_dec bs)))
  | Int64 => bs ← mem_read (fixed_data col) (i * 8) 8; mret (double_of_Z (to_signed 64 (le_dec bs)))
  | Float => bs ← mem_read (fixed_data col) (i * 4) 4; mret (double_of_float (float_of_bits (le_dec bs)))
  | _ => mret (S754_zero false)
  end.

(** [i < null_mask.size() && null_mask[i]]. *)
Definition masked (mask : list Z) (i : Z) : bool :=
  match mask !! Z.to_nat i with Some x => negb (x =? 0) | None => false end.

(** [if (seen.insert(h).second) out.push_back(h)]. *)
Definition add_distinct (h : Z) (out : list Z) : list Z :=
  if bool_decide (h ∈ out) then out else out ++ [h].

Section summary.
Context `{RapidHash}.

Definition distinct_hashes_string (col : ColumnData) (count : Z) : res (list Z) :=
  for_range (Z.to_nat count) 0 (λ i out,
    if masked (null_mask col) i then mret out
    else
      len ← vec_get (str_lengths col) i;
      off ← vec_get (str_offsets col) i;
      s ← mem_read (str_data col) off len;
      mret (add_distinct (filter_hash s) out)) [].

Definition distinct_hashes_set (col : ColumnData) (count : Z) : res (list Z) :=
  for_range (Z.to_nat count) 0 (λ i out,
    if masked (null_mask col) i then mret out
    else
      ec ← vec_get (set_counts col) i;
      off ← vec_get (set_offsets col) i;
      for_range (Z.to_nat ec) 0 (λ e out,
        '(_, s) ← set_elem col (u32 (off + e));
        mret (add_distinct (filter_hash s) out)) out) [].

(** Least and greatest value of the rows that are not NULL. *)
Definition min_max (col : ColumnData) (count : Z) : res (double * double) :=
  for_range (Z.to_nat count) 0 (λ i '(lo, hi),
    if masked (null_mask col) i then mret (lo, hi)
    else
      v ← read_numeric col i;
      let lo := if SFltb v lo then v else lo in
      let hi := if SFltb hi v then v else hi in
      mret (lo, hi)) (DBL_MAX, DBL_LOWEST).

(** ** [write_filter_summary] *)

Definition write_num_entry (c : Z) (lo hi : double) (buf : list Z) (p : Z) : res (list Z) :=
  buf ← mem_write buf p (le_enc 1 c);
  buf ← mem_write buf (p + 1) (le_enc 8 (bits_of_double lo));
  mem_write buf (p + 9) (le_enc 8 (bits_of_double hi)).

Fixpoint numeric_loop (cols : list FilterColumn) (fcs : list ColumnData) (count c : Z)
    (buf : list Z) (p n : Z) : res (list Z * Z * Z) :=
  match cols with
  | [] => mret (buf, p, n)
  | col :: cols' =>
      if is_numeric (col_type col) then
        fc ← vec_get fcs c;
        '(lo, hi) ← min_max fc count;
        buf ← write_num_entry c lo hi buf p;
        numeric_loop cols' fcs count (c + 1) buf (p + 17) (u8 (n + 1))
      else numeric_loop cols' fcs count (c + 1) buf p n
  end.

(** The number of bits for that many distinct hashes, in [alloc] bytes. *)
Definition bloom_n_bits (distinct alloc : Z) : res Z :=
  n_bits ← uint32_of_ceil (bloom_raw_bits distinct);
  let n_bits := Z.land (u32 (n_bits + 7)) (UINT32_MAX - 7) in
  let max_bits := u32 (alloc * 8) in
  let n_bits := if max_bits <? n_bits then max_bits else n_bits in
  mret (if n_bits =? 0 then 8 else n_bits).

Definition distinct_hashes (t : ColumnType) (fc : ColumnData) (count : Z) : res (list Z) :=
  match t with String => distinct_hashes_string fc count | _ => distinct_hashes_set fc count end.

(** One bloom entry: column, number of bits (two bytes) and the bits. *)
Definition write_bloom_entry (c alloc : Z) (distinct : list Z) (buf : list Z) (p : Z) : res (list Z) :=
  buf ← mem_write buf p (le_enc 1 c);
  if negb (bool_decide (distinct = [])) && (zlen distinct <=? kBloomThreshold) then
    n_bits ← bloom_n_bits (zlen distinct) alloc;
    buf ← mem_write buf (p + 1) (le_enc 2 n_bits);
    bloom_fill (p + 3) n_bits distinct buf
  else mem_write buf (p + 1) (le_enc 2 0).

(** The string section and the set section are the same code. *)
Fixpoint bloom_loop (t : ColumnType) (alloc : Z) (cols : list FilterColumn) (fcs : list ColumnData)
    (count c : Z) (buf : list Z) (p n : Z) : res (list Z * Z * Z) :=
  match cols with
  | [] => mret (buf, p, n)
  | col :: cols' =>
      if bool_decide (col_type col = t) then
        fc ← vec_get fcs c;
        distinct ← distinct_hashes t fc count;
        buf ← write_bloom_entry c alloc distinct buf p;
        bloom_loop t alloc cols' fcs count (c + 1) buf (p + 3 + alloc) (u8 (n + 1))
      else bloom_loop t alloc cols' fcs count (c + 1) buf p n
  end.

Definition write_numeric_section (cols : list FilterColumn) (fcs : list ColumnData) (count : Z)
    (buf : list Z) (p : Z) : res (list Z * Z) :=
  buf ← mem_write buf p (le_enc 1 0);
  '(buf, q, n) ← numeric_loop cols fcs count 0 buf (p + 1) 0;
  buf ← mem_write buf p (le_enc 1 n);
  mret (buf, q).

Definition write_bloom_section (t : ColumnType) (alloc : Z) (cols : list FilterColumn)
    (fcs : list ColumnData) (count : Z) (buf : list Z) (p : Z) : res (list Z * Z) :=
  buf ← mem_write buf p (le_enc 1 0);
  '(buf, q, n) ← bloom_loop t alloc cols fcs count 0 buf (p + 1) 0;
  buf ← mem_write buf p (le_enc 1 n);
  mret (buf, q).

Definition write_filter_summary (buf : list Z) (size : Z) (schema : Schema) (count : Z)
    (fcs : list ColumnData) : res (list Z) :=
  if size =? 0 then mret buf
  else
    alloc ← bloom_max_bytes kBloomThreshold;
    '(buf, p) ← write_numeric_section (columns schema) fcs count buf 0;
    '(buf, p) ← write_bloom_section String alloc (columns schema) fcs count buf p;
    '(buf, _) ← write_bloom_section Set_ alloc (columns schema) fcs count buf p;
    mret buf.
End summary.

(** ** [merge_filter_summary] *)

(** The entry of column [col] among [n] entries of [stride] bytes at [p]. *)
Fixpoint find_entry (buf : list Z) (n : nat) (p stride col : Z) : res (option Z) :=
  match n with
  | O => mret None
  | S n' =>
      c ← mem_uint buf p 1;
      if c =? col then mret (Some p) else find_entry buf n' (p + stride) stride col
  end.

Definition std_min (a b : double) : double := if SFltb b a then b else a.
Definition std_max (a b : double) : double := if SFltb a b then b else a.

Definition merge_num_entry (src : list Z) (sp s_n dp : Z) (dst : list Z) : res (list Z) :=
  d_col ← mem_uint dst dp 1;
  e ← find_entry src (Z.to_nat s_n) sp 17 d_col;
  match e with
  | None => mret dst
  | Some s =>
      s_min ← mem_uint src (s + 1) 8; s_max ← mem_uint src (s + 9) 8;
      d_min ← mem_uint dst (dp + 1) 8; d_max ← mem_uint dst (dp + 9) 8;
      dst ← mem_write dst (dp + 1)
        (le_enc 8 (bits_of_double (std_min (double_of_bits d_min) (double_of_bits s_min))));
      mem_write dst (dp + 9)
        (le_enc 8 (bits_of_double (std_max (double_of_bits d_max) (double_of_bits s_max))))
  end.

Definition merge_bloom_entry (alloc : Z) (src : list Z) (sp s_n dp : Z) (dst : list Z) : res (list Z) :=
  d_col ← mem_uint dst dp 1;
  d_nbits ← mem_uint dst (dp + 1) 2;
  e ← find_entry src (Z.to_nat s_n) sp (3 + alloc) d_col;
  match e with
  | None => mret dst
  | Some s =>
      s_nbits ← mem_uint src (s + 1) 2;
      dst ← mem_write dst (dp + 1) (le_enc 2 (Z.max d_nbits s_nbits));
      for_range (Z.to_nat alloc) 0 (λ b dst,
        x ← mem_uint dst (dp + 3 + b) 1; y ← mem_uint src (s + 3 + b) 1;
        mem_write dst (dp + 3 + b) (le_enc 1 (Z.lor x y))) dst
  end.

Definition merge_bloom_section (alloc : Z) (src : list Z) (sp dp : Z) (dst : list Z) :
    res (list Z * Z * Z) :=
  s_n ← mem_uint src sp 1;
  d_n ← mem_uint dst dp 1;
  dst ← for_range (Z.to_nat d_n) 0 (λ i dst,
    merge_bloom_entry alloc src (sp + 1) s_n (dp + 1 + i * (3 + alloc)) dst) dst;
  mret (dst, sp + 1 + s_n * (3 + alloc), dp + 1 + d_n * (3 + alloc)).

Definition merge_filter_summary (dst src : list Z) (size : Z) : res (list Z) :=
  if size =? 0 then mret dst
  else
    alloc ← bloom_max_bytes kBloomThreshold;
    s_n ← mem_uint src 0 1;
    d_n ← mem_uint dst 0 1;
    dst ← for_range (Z.to_nat d_n) 0 (λ i dst, merge_num_entry src 1 s_n (1 + i * 17) dst) dst;
    '(dst, sp, dp) ← merge_bloom_section alloc src (1 + s_n * 17) (1 + d_n * 17) dst;
    '(dst, _, _) ← merge_bloom_section alloc src sp dp dst;
    mret dst.

(** ** [init_empty_summary] *)

Fixpoint empty_num_loop (cols : list FilterColumn) (c : Z) (buf : list Z) (p : Z) : res (list Z * Z) :=
  match cols with
  | [] => mret (buf, p)
  | col :: cols' =>
      if is_numeric (col_type col)
      then buf ← write_num_entry c DBL_MAX DBL_LOWEST buf p; empty_num_loop cols' (c + 1) buf (p + 17)
      else empty_num_loop cols' (c + 1) buf p
  end.

Fixpoint empty_bloom_loop (t : ColumnType) (alloc : Z) (cols : list FilterColumn) (c : Z)
    (buf : list Z) (p : Z) : res (list Z * Z) :=
  match cols with
  | [] => mret (buf, p)
  | col :: cols' =>
      if bool_decide (col_type col = t) then
        buf ← mem_write buf p (le_enc 1 c);
        buf ← mem_write buf (p + 1) (le_enc 2 0);
        empty_bloom_loop t alloc cols' (c + 1) buf (p + 3 + alloc)
      else empty_bloom_loop t alloc cols' (c + 1) buf p
  end.

Definition init_empty_summary (buf : list Z) (size : Z) (schema : Schema) : res (list Z) :=
  if size =? 0 then mret buf
  else
    let cols := columns schema in
    buf ← mem_write buf 0 (replicate (Z.to_nat size) 0);
    buf ← mem_write buf 0 (le_enc 1 (u8 (count_type is_numeric cols)));
    '(buf, p) ← empty_num_loop cols 0 buf 1;
    alloc ← bloom_max_bytes kBloomThreshold;
    buf ← mem_write buf p (le_enc 1 (u8 (count_type (λ t, bool_decide (t = String)) cols)));
    '(buf, p) ← empty_bloom_loop String alloc cols 0 buf (p + 1);
    buf ← mem_write buf p (le_enc 1 (u8 (count_type (λ t, bool_decide (t = Set_)) cols)));
    '(buf, _) ← empty_bloom_loop Set_ alloc cols 0 buf (p + 1);
    mret buf.

(** ** [summary_may_match] *)

Definition NumRanges : Type := list (option (double * double)).
(** Per column: number of bits and offset of the bits; 0 bits when absent. *)
Definition Blooms : Type := list (Z * Z).

Definition parse_numeric (s : list Z) (p : Z) : res (NumRanges * Z) :=
  n ← mem_uint s p 1;
  for_range (Z.to_nat n) 0 (λ _ '(ranges, p),
    col_id ← mem_uint s p 1;
    mn ← mem_uint s (p + 1) 8; mx ← mem_uint s (p + 9) 8;
    ranges ← vec_set ranges col_id (Some (double_of_bits mn, double_of_bits mx));
    mret (ranges, p + 17)) (replicate 256 None, p + 1).

Definition parse_blooms (alloc : Z) (s : list Z) (p : Z) : res (Blooms * Z) :=
  n ← mem_uint s p 1;
  for_range (Z.to_nat n) 0 (λ _ '(blooms, p),
    col_id ← mem_uint s p 1;
    n_bits ← mem_uint s (p + 1) 2;
    blooms ← vec_set blooms col_id (n_bits, p + 3);
    mret (blooms, p + 3 + alloc)) (replicate 256 (0, 0), p + 1).

(** The checks of a numeric predicate against [min, max]: [false] prunes. *)
Definition range_may_match (o : PredicateOp) (value value2 mn mx : double) : bool :=
  match o with
  | OpEq => negb (SFltb value mn || SFltb mx value)
  | OpLt => negb (SFleb value mn)
  | OpLe => negb (SFltb value mn)
  | OpGt => negb (SFleb mx value)
  | OpGe => negb (SFltb mx value)
  | OpBetween => negb (SFltb mx value || SFltb value2 mn)
  | _ => true
  end.

(** [lo > max || hi < min] prunes. *)
Definition box_may_match (lo hi : double) (r : option (double * double)) : bool :=
  match r with None => true | Some (mn, mx) => negb (SFltb mx lo || SFltb hi mn) end.

Section may_match.
Context `{RapidHash} `{LibM}.

Definition check_hash (s : list Z) (be : Z * Z) (v : list Z) : res bool :=
  bloom_check s be.2 be.1 (filter_hash v).

Fixpoint any_may_match (s : list Z) (be : Z * Z) (vals : list (list Z)) : res bool :=
  match vals with
  | [] => mret false
  | v :: rest => b ← check_hash s be v; if (b : bool) then mret true else any_may_match s be rest
  end.

Fixpoint all_may_match (s : list Z) (be : Z * Z) (vals : list (list Z)) : res bool :=
  match vals with
  | [] => mret true
  | v :: rest => b ← check_hash s be v; if (b : bool) then all_may_match s be rest else mret false
  end.

Definition any_or_empty (s : list Z) (be : Z * Z) (vals : list (list Z)) : res bool :=
  any ← any_may_match s be vals; mret ((any : bool) || bool_decide (vals = [])).

Definition string_may_match (s : list Z) (be : Z * Z) (pred : Predicate) : res bool :=
  match op pred with
  | OpEq => check_hash s be (str_value pred)
  | OpIn => any_or_empty s be (query_vals pred)
  | _ => mret true
  end.

Definition set_may_match (s : list Z) (be : Z * Z) (pred : Predicate) : res bool :=
  match op pred with
  | OpContains => check_hash s be (str_value pred)
  | OpContainsAny => any_or_empty s be (query_vals pred)
  | OpContainsAll => all_may_match s be (query_vals pred)
  | _ => mret true
  end.

Definition kKmPerDegLat : double := double_of_Z 111.
Definition kTinyCos : double := S754_finite false 4722366482869645 (-72).

(** The bounding box of a geo predicate: latitudes, then longitudes. *)
Definition geo_box (pred : Predicate) : double * double * (double * double) :=
  if bool_decide (op pred = OpGeoBox)
  then (value pred, value3 pred, (value2 pred, value4 pred))
  else
    let dlat := ddiv (radius_km pred) kKmPerDegLat in
    let cos_lat := lib_cos (dmul (value pred) kDegToRad) in
    let dlng := if SFltb (SFabs cos_lat) kTinyCos then double_of_Z 180
                else ddiv (radius_km pred) (dmul kKmPerDegLat cos_lat) in
    (dsub (value pred) dlat, dadd (value pred) dlat,
     (dsub (value2 pred) dlng, dadd (value2 pred) dlng)).

Definition geo_may_match (ranges : NumRanges) (col_idx lng_col : Z) (pred : Predicate) : res bool :=
  let '(lat_lo, lat_hi, (lng_lo, lng_hi)) := geo_box pred in
  r ← vec_get ranges col_idx;
  if negb (box_may_match lat_lo lat_hi r) then mret false
  else if lng_col <? 256 then
    r2 ← vec_get ranges lng_col; mret (box_may_match lng_lo lng_hi r2)
  else mret true.

(** One predicate: [false] prunes the leaf. *)
Definition pred_may_match (s : list Z) (ranges : NumRanges) (sb tb : Blooms) (schema : Schema)
    (pred : Predicate) (col_idx lng_col : Z) : res bool :=
  col ← vec_get (columns schema) col_idx;
  if bool_decide (op pred = OpIsNull ∨ op pred = OpIsNotNull) then mret true
  else if is_geo (op pred) then geo_may_match ranges col_idx lng_col pred
  else match col_type col with
  | Int32 | Int64 | Float =>
      r ← vec_get ranges col_idx;
      match r with
      | None => mret true
      | Some (mn, mx) => mret (range_may_match (op pred) (value pred) (value2 pred) mn mx)
      end
  | String => be ← vec_get sb col_idx; string_may_match s be pred
  | Set_ => be ← vec_get tb col_idx; set_may_match s be pred
  | Bool => mret true
  end.

Fixpoint preds_may_match (s : list Z) (ranges : NumRanges) (sb tb : Blooms) (schema : Schema)
    (preds : list Predicate) (pcis geo : list Z) (pi : nat) : res bool :=
  match preds with
  | [] => mret true
  | pred :: rest =>
      col_idx ← vec_get pcis (Z.of_nat pi);
      b ← pred_may_match s ranges sb tb schema pred col_idx (lng_index geo pi);
      if (b : bool) then preds_may_match s ranges sb tb schema rest pcis geo (S pi) else mret false
  end.

Definition summary_may_match (s : list Z) (size : Z) (schema : Schema) (preds : list Predicate)
    (pcis geo : list Z) : res bool :=
  if (size =? 0) || bool_decide (preds = []) then mret true
  else
    '(ranges, p) ← parse_numeric s 0;
    alloc ← bloom_max_bytes kBloomThreshold;
    '(sb, p) ← parse_blooms alloc s p;
    '(tb, _) ← parse_blooms alloc s p;
    preds_may_match s ranges sb tb schema preds pcis geo 0.
End may_match.

(** ** [estimate_numeric_selectivity] *)

(** The range of values a numeric predicate matches. *)
Definition pred_range (pred : Predicate) : option (double * double) :=
  match op pred with
  | OpEq => Some (value pred, value pred)
  | OpGt | OpGe => Some (value pred, DBL_MAX)
  | OpLt | OpLe => Some (DBL_LOWEST, value pred)
  | OpBetween => Some (value pred, value2 pred)
  | _ => None
  end.

(** Does the first numeric entry of the column overlap [lo, hi]? *)
Fixpoint entry_overlaps (s : list Z) (n : nat) (p col_idx : Z) (lo hi : double) : res bool :=
  match n with
  | O => mret false
  | S n' =>
      cid ← mem_uint s p 1; mn ← mem_uint s (p + 1) 8; mx ← mem_uint s (p + 9) 8;
      if cid =? col_idx
      then mret (SFleb (double_of_bits mn) hi && SFleb lo (double_of_bits mx))
      else entry_overlaps s n' (p + 17) col_idx lo hi
  end.

(** A child without a summary is [None]. *)
Fixpoint count_overlaps (roots : list (option (list Z))) (col_idx : Z) (lo hi : double) : res Z :=
  match roots with
  | [] => mret 0
  | None :: rest => count_overlaps rest col_idx lo hi
  | Some s :: rest =>
      n ← mem_uint s 0 1;
      b ← entry_overlaps s (Z.to_nat n) 1 col_idx lo hi;
      k ← count_overlaps rest col_idx lo hi;
      mret (Z.b2z b + k)
  end.

Definition float_of_uint (z : Z) : float := binary_normalize 24 128 z 0 false.

Definition estimate_numeric_selectivity (roots : list (option (list Z))) (size : Z)
    (pred : Predicate) (col_idx : Z) : res float :=
  if (Z.of_nat (length roots) =? 0) || (size =? 0) then mret (float_of_uint 1)
  else match pred_range pred with
  | None => mret (float_of_uint 1)
  | Some (lo, hi) =>
      matching ← count_overlaps roots col_idx lo hi;
      mret (SFdiv 24 128 (float_of_uint matching) (float_of_uint (Z.of_nat (length roots))))
  end.

(** * Pruning is sound *)

(** ** Comparisons through an embedding into [double] *)

(** [emb] maps a column's values into [double], keeping the order of the
    values that satisfy [P]. *)
Record embeds {T} (D : domain T) (emb : T → double) (P : T → Prop) : Prop := {
  emb_ltb : ∀ a b, P a → P b → SFltb (emb a) (emb b) = d_ltb D a b;
  emb_eq : ∀ a b, d_eqb D a b = true → d_ltb D a b = false ∧ d_ltb D b a = false;
  emb_le : ∀ a b, d_leb D a b = true → d_ltb D b a = false;
  emb_lt : ∀ a b, d_ltb D a b = true → d_ltb D b a = false;
}.

(** The constants of the predicate are values of the column's type. *)
Definition exact_consts {T} (D : domain T) (emb : T → double) (P : T → Prop) (pred : Predicate) : Prop :=
  (∃ a, cast_is D (value pred) a ∧ value pred = emb a ∧ P a) ∧
  (∃ b, cast_is D (value2 pred) b ∧ value2 pred = emb b ∧ P b).

Lemma range_sound `{LibM} {T} (D : domain T) emb P pred val mn mx :
  embeds D emb P → exact_consts D emb P pred → P val →
  SFleb mn (emb val) = true → SFleb (emb val) mx = true → compare_sem D pred val →
  range_may_match (op pred) (value pred) (value2 pred) mn mx = true.
Proof.
  intros He ((a & Ha & Ea & Pa) & (b & Hb & Eb & Pb)) Pv Hmn Hmx Hsem.
  assert (∀ c, P c → d_ltb D c val = false → SFltb (emb c) mn = false) as Hlo.
  { intros c Pc Hc. destruct (SFltb (emb c) mn) eqn:E; [|done].
    pose proof (SFlt_le_trans _ _ _ E Hmn) as E2. rewrite (emb_ltb _ _ _ He) in E2 by done. congruence. }
  assert (∀ c, P c → d_ltb D val c = false → SFltb mx (emb c) = false) as Hhi.
  { intros c Pc Hc. destruct (SFltb mx (emb c)) eqn:E; [|done].
    pose proof (SFle_lt_trans _ _ _ Hmx E) as E2. rewrite (emb_ltb _ _ _ He) in E2 by done. congruence. }
  assert (∀ c, P c → d_ltb D val c = true → SFleb (emb c) mn = false) as Hlt.
  { intros c Pc Hc. rewrite <- (emb_ltb _ _ _ He) in Hc by done. apply SFltb_not_leb.
    by apply (SFle_lt_trans _ (emb val)). }
  assert (∀ c, P c → d_ltb D c val = true → SFleb mx (emb c) = false) as Hgt.
  { intros c Pc Hc. rewrite <- (emb_ltb _ _ _ He) in Hc by done. apply SFltb_not_leb.
    by apply (SFlt_le_trans _ (emb val)). }
  unfold compare_sem, cast_is in *. unfold range_may_match. rewrite Ea, Eb in *.
  destruct (op pred); try done.
  - destruct Hsem as (a' & Ha' & E). assert (a' = a) as -> by congruence.
    destruct (emb_eq _ _ _ He _ _ E) as [E1 E2]. by rewrite Hlo, Hhi.
  - destruct Hsem as (a' & Ha' & E). assert (a' = a) as -> by congruence. by rewrite Hlt.
  - destruct Hsem as (a' & Ha' & E). assert (a' = a) as -> by congruence.
    rewrite Hlo; [done|done|]. by apply (emb_le _ _ _ He).
  - destruct Hsem as (a' & Ha' & E). assert (a' = a) as -> by congruence. by rewrite Hgt.
  - destruct Hsem as (a' & Ha' & E). assert (a' = a) as -> by congruence.
    rewrite Hhi; [done|done|]. by apply (emb_le _ _ _ He).
  - destruct Hsem as (a' & b' & Ha' & Hb' & E1 & E2). assert (a' = a) as -> by congruence.
    assert (b' = b) as -> by congruence.
    rewrite Hhi, Hlo; [done|done|by apply (emb_le _ _ _ He)|done|by apply (emb_le _ _ _ He)].
Qed.

Lemma int_embeds w : embeds (int_domain w) double_of_Z (λ z, Z.abs z < 2 ^ 53).
Proof.
  split; cbn.
  - intros a b Ha Hb. by apply double_of_Z_ltb.
  - intros a b E%Z.eqb_eq. lia.
  - intros a b E%Z.leb_le. lia.
  - intros a b E%Z.ltb_lt. lia.
Qed.

Lemma float_embeds : embeds float_domain double_of_float float_ok.
Proof.
  split; cbn.
  - intros a b Ha Hb. by apply double_of_float_ltb.
  - intros a b E. unfold SFeqb, SFltb in *. pose proof (SFcompare_key a b) as H1.
    pose proof (SFcompare_key b a) as H2.
    destruct (is_nan a) eqn:Na; [by destruct a|]. destruct (is_nan b) eqn:Nb; [by destruct a as [[]|[]| |[] ? ?], b|].
    specialize (H1 eq_refl eq_refl). specialize (H2 eq_refl eq_refl).
    destruct (SFcompare a b) as [[]|]; try done. destruct (SFcompare b a) as [[]|]; try done;
      rewrite H1 in H2; destruct (sf_key b) as [[? ?] ?]; unfold key_lt in H2; lia.
  - intros a b E. destruct (SFltb b a) eqn:E2; [|done]. apply SFltb_not_leb in E2. congruence.
  - intros a b E. destruct (SFltb b a) eqn:E2; [|done]. apply SFltb_leb in E2.
    apply SFltb_not_leb in E. congruence.
Qed.

(** ** Values of numeric cells *)

Definition num_of (t : ColumnType) (c : cell) : double :=
  match t, c with
  | Int32, CFixed bs => double_of_Z (to_signed 32 (le_dec bs))
  | Int64, CFixed bs => double_of_Z (to_signed 64 (le_dec bs))
  | Float, CFixed bs => double_of_float (float_of_bits (le_dec bs))
  | _, _ => S754_nan
  end.

(** [int64] values are below [2^53] in magnitude, as the layout's comment asks. *)
Definition num_fits (t : ColumnType) (c : cell) : Prop :=
  match t, c with
  | Int64, CFixed bs => Z.abs (to_signed 64 (le_dec bs)) < 2 ^ 53
  | _, _ => True
  end.

Lemma to_signed_32_range b : - 2 ^ 31 ≤ to_signed 32 b < 2 ^ 31.
Proof.
  unfold to_signed. pose proof (Z.mod_pos_bound b (2 ^ 32) ltac:(lia)).
  change (2 ^ (32 - 1)) with (2 ^ 31). destruct (Z.ltb_spec (b mod 2 ^ 32) (2 ^ 31)); lia.
Qed.

Lemma num_of_valid t c :
  is_numeric t = true → cell_ok t c → num_fits t c → valid_double (num_of t c).
Proof.
  intros Ht Hc Hf. destruct t; try done; destruct c as [bs| |]; try done.
  - apply double_of_Z_exact. pose proof (to_signed_32_range (le_dec bs)). lia.
  - by apply double_of_Z_exact.
  - apply double_of_float_exact, float_of_bits_ok. apply le_dec_bound, Hc.
Qed.

(** The constants of a predicate on a numeric column. *)
Definition num_exact (t : ColumnType) (pred : Predicate) : Prop :=
  match t with
  | Int32 => exact_consts (int_domain 32) double_of_Z (λ z, Z.abs z < 2 ^ 53) pred
  | Int64 => exact_consts (int_domain 64) double_of_Z (λ z, Z.abs z < 2 ^ 53) pred
  | Float => exact_consts float_domain double_of_float float_ok pred
  | _ => True
  end.

(** A NaN satisfies no comparison the ranges can prune. *)
Lemma nan_sound `{LibM} pred val mn mx :
  is_nan val = true → compare_sem float_domain pred val →
  range_may_match (op pred) (value pred) (value2 pred) mn mx = true.
Proof.
  intros Hn Hs. destruct val; try done. unfold compare_sem in Hs. unfold range_may_match.
  destruct (op pred); try done; cbn in Hs.
  1-3: by destruct Hs as (a & _ & E).
  1-2: destruct Hs as (a & _ & E); by destruct a as [[]|[]| |[] ? ?].
  destruct Hs as (a & b & _ & _ & E & _). by destruct a as [[]|[]| |[] ? ?].
Qed.

Lemma num_sound `{LibM} t c pred mn mx :
  is_numeric t = true → cell_ok t c → num_fits t c → num_exact t pred → cell_sem t pred c →
  (is_nan (num_of t c) = false → SFleb mn (num_of t c) = true ∧ SFleb (num_of t c) mx = true) →
  range_may_match (op pred) (value pred) (value2 pred) mn mx = true.
Proof.
  intros Ht Hc Hf He Hs Hr. destruct t; try done; destruct c as [bs| |]; try done.
  - pose proof (to_signed_32_range (le_dec bs)).
    destruct (double_of_Z_exact (to_signed 32 (le_dec bs)) ltac:(lia)) as (Hn & _).
    destruct (Hr Hn). apply (range_sound _ _ _ pred (to_signed 32 (le_dec bs)) mn mx (int_embeds 32) He);
      [cbv beta; lia|done..].
  - destruct (double_of_Z_exact (to_signed 64 (le_dec bs)) Hf) as (Hn & _).
    destruct (Hr Hn). by apply (range_sound _ _ _ pred (to_signed 64 (le_dec bs)) mn mx (int_embeds 64) He).
  - assert (float_ok (float_of_bits (le_dec bs))) as Hok
      by (apply float_of_bits_ok, le_dec_bound, Hc).
    destruct (double_of_float_exact _ Hok) as (Hn & _).
    destruct (is_nan (float_of_bits (le_dec bs))) eqn:En; [by apply (nan_sound pred (float_of_bits (le_dec bs)))|].
    destruct (Hr Hn). by apply (range_sound _ _ _ pred (float_of_bits (le_dec bs)) mn mx float_embeds He).
Qed.

(** ** Lemmas: one column's summary *)

Lemma masked_ok t fc cells nulls i x :
  column_is t fc cells nulls → nulls !! i = Some x →
  masked (null_mask fc) (Z.of_nat i) = negb (x =? 0).
Proof.
  intros Hc Hx. unfold masked. rewrite Nat2Z.id.
  destruct (ci_nulls _ _ _ _ Hc) as [[-> Hn]|(-> & _)]; [|by rewrite Hx].
  subst nulls. apply lookup_replicate in Hx as [-> _]. done.
Qed.

Lemma read_numeric_ok t fc cells nulls i c :
  column_is t fc cells nulls → cd_type fc = t → is_numeric t = true → cells !! i = Some c →
  read_numeric fc (Z.of_nat i) = Ok (num_of t c).
Proof.
  intros Hc Ht Hnum Hi. pose proof (ci_cells _ _ _ _ Hc _ _ Hi) as Hcell.
  unfold read_numeric. rewrite Ht. destruct t; try done; destruct c as [bs| |]; try done;
    unfold cell_is in Hcell; cbn [column_type_width] in Hcell; by rewrite Hcell.
Qed.

(** The range has every value of a row that is not NULL. *)
Definition range_covers (t : ColumnType) (cells : list cell) (nulls : list Z) (lo hi : double) : Prop :=
  ∀ i c, cells !! i = Some c → nulls !! i = Some 0 → is_nan (num_of t c) = false →
    SFleb lo (num_of t c) = true ∧ SFleb (num_of t c) hi = true.

Lemma min_max_ok t fc cells nulls :
  column_is t fc cells nulls → cd_type fc = t → is_numeric t = true →
  Forall (num_fits t) cells →
  ∃ lo hi, min_max fc (zlen cells) = Ok (lo, hi) ∧ valid_double lo ∧ valid_double hi ∧
    range_covers t cells nulls lo hi.
Proof.
  intros Hc Ht Hnum Hfits. unfold min_max, zlen. rewrite Nat2Z.id.
  match goal with |- context [for_range _ _ ?f _] => set (body := f) end.
  destruct (for_range_ok (λ j st, let '(lo, hi) := st in
      valid_double lo ∧ valid_double hi ∧ is_nan lo = false ∧ is_nan hi = false ∧
      ∀ i c, (i < Z.to_nat j)%nat → cells !! i = Some c → nulls !! i = Some 0 →
        is_nan (num_of t c) = false → SFleb lo (num_of t c) = true ∧ SFleb (num_of t c) hi = true)
    body (length cells) 0 (DBL_MAX, DBL_LOWEST)) as ([lo hi] & E & Vlo & Vhi & _ & _ & Hcov).
  - split_and!; [done..|]. intros i c Hi. lia.
  - intros j [lo hi] Hj (Vlo & Vhi & Nlo & Nhi & Hcov). set (k := Z.to_nat j) in *.
    assert (k < length cells)%nat as Hk by lia.
    destruct (lookup_lt_is_Some_2 cells k Hk) as [c Hck].
    destruct (lookup_lt_is_Some_2 nulls k) as [x Hx]; [by rewrite (column_nulls_len _ _ _ _ Hc)|].
    replace (Z.to_nat (j + 1)) with (S k) by lia. unfold body.
    replace j with (Z.of_nat k) by lia. rewrite (masked_ok _ _ _ _ _ _ Hc Hx).
    destruct (Z.eqb_spec x 0) as [->|Hne]; cbn [negb].
    + rewrite (read_numeric_ok t fc cells nulls k c) by done. rewrite bind_Ok.
      assert (valid_double (num_of t c)) as Vv.
      { apply num_of_valid; [done|apply (Forall_lookup_1 _ _ _ _ (ci_ok _ _ _ _ Hc) Hck)|].
        apply (Forall_lookup_1 _ _ _ _ Hfits Hck). }
      set (v := num_of t c) in *.
      eexists. split; [done|]. split_and!; [by destruct (SFltb v lo)|by destruct (SFltb hi v)|..].
      * destruct (SFltb v lo) eqn:E; [by apply SFltb_nan in E as [? _]|done].
      * destruct (SFltb hi v) eqn:E; [by apply SFltb_nan in E as [_ ?]|done].
      * assert (is_nan v = false → SFleb (if SFltb v lo then v else lo) v = true ∧
          SFleb v (if SFltb hi v then v else hi) = true) as Hnew.
        { intros Nv. split.
          - destruct (SFltb v lo) eqn:E; [by apply SFleb_refl|by apply SFnot_ltb_leb].
          - destruct (SFltb hi v) eqn:E; [by apply SFleb_refl|by apply SFnot_ltb_leb]. }
        intros i c' Hi Hc' Hn' Nc'. destruct (decide (i = k)) as [->|Hik].
        -- assert (c' = c) as -> by congruence. by apply Hnew.
        -- destruct (Hcov i c' ltac:(lia) Hc' Hn' Nc') as [H1 H2]. split.
           ++ destruct (SFltb v lo) eqn:E; [|done]. apply SFltb_leb in E. by apply (SFleb_trans _ lo).
           ++ destruct (SFltb hi v) eqn:E; [|done]. apply SFltb_leb in E. by apply (SFleb_trans _ hi).
    + eexists. split; [done|]. split_and!; [done..|]. intros i c' Hi Hc' Hn'.
      intros Nc'.
      destruct (decide (i = k)) as [->|Hik]; [congruence|]. apply (Hcov i c'); [lia|done..].
  - exists lo, hi. split; [exact E|]. split; [done|]. split; [done|].
    intros i c Hi Hn Hnan. apply (Hcov i c); [|done..]. apply lookup_lt_Some in Hi. lia.
Qed.

(** The hashes of the rows that are not NULL. *)
Definition cell_strings (t : ColumnType) (c : cell) : list (list Z) :=
  match t, c with
  | String, CStr s => [s]
  | Set_, CSet es => es
  | _, _ => []
  end.

Lemma add_distinct_elem h out x : x ∈ add_distinct h out ↔ x = h ∨ x ∈ out.
Proof.
  unfold add_distinct. case_bool_decide as Hh.
  - split; [by right|]. by intros [-> | ?].
  - rewrite elem_of_app, list_elem_of_singleton. split; intros [?|?]; auto.
Qed.

Section distinct.
Context `{RapidHash}.

(** The list has the hash of every string of a row that is not NULL. *)
Definition hashes_cover (t : ColumnType) (cells : list cell) (nulls : list Z) (out : list Z) : Prop :=
  ∀ i c s, cells !! i = Some c → nulls !! i = Some 0 → s ∈ cell_strings t c → filter_hash s ∈ out.

Lemma hashes_step t (cells : list cell) (nulls : list Z) (k : nat) (out out' : list Z) c x :
  cells !! k = Some c → nulls !! k = Some x →
  (∀ i c s, (i < k)%nat → cells !! i = Some c → nulls !! i = Some 0 → s ∈ cell_strings t c → filter_hash s ∈ out) →
  (∀ h, h ∈ out → h ∈ out') →
  (x = 0 → ∀ s, s ∈ cell_strings t c → filter_hash s ∈ out') →
  ∀ i c s, (i < S k)%nat → cells !! i = Some c → nulls !! i = Some 0 → s ∈ cell_strings t c → filter_hash s ∈ out'.
Proof.
  intros Hc Hx Hold Hmono Hnew i c' s Hi Hc' Hn Hs. destruct (decide (i = k)) as [->|].
  - simplify_eq. by apply Hnew.
  - apply Hmono. apply (Hold i c'); [lia|done..].
Qed.

(** A loop over the rows whose body collects the hashes of its row. *)
Lemma hashes_loop t (cells : list cell) (nulls : list Z) (body : Z → list Z → res (list Z)) :
  length nulls = length cells →
  (∀ k c x out, cells !! k = Some c → nulls !! k = Some x →
    ∃ out', body (Z.of_nat k) out = Ok out' ∧ (∀ h, h ∈ out → h ∈ out') ∧
      (x = 0 → ∀ s, s ∈ cell_strings t c → filter_hash s ∈ out')) →
  ∃ out, for_range (length cells) 0 body [] = Ok out ∧ hashes_cover t cells nulls out.
Proof.
  intros Hlen Hbody.
  destruct (for_range_ok (λ (j : Z) (out : list Z), ∀ i c s, (i < Z.to_nat j)%nat → cells !! i = Some c →
      nulls !! i = Some 0 → s ∈ cell_strings t c → filter_hash s ∈ out)
    body (length cells) 0 []) as (out & E & Hout).
  - intros i c s Hi. lia.
  - intros j out Hj HI. set (k := Z.to_nat j) in *.
    destruct (lookup_lt_is_Some_2 cells k) as [c Hck]; [lia|].
    destruct (lookup_lt_is_Some_2 nulls k) as [x Hx]; [lia|].
    destruct (Hbody k c x out Hck Hx) as (out' & E & Hm & Hn).
    replace (Z.of_nat k) with j in E by lia. exists out'. split; [done|].
    replace (Z.to_nat (j + 1)) with (S k) by lia.
    by apply (hashes_step t cells nulls k out out' c x).
  - exists out. split; [done|]. intros i c s Hi. apply (Hout i c s); [|done].
    apply lookup_lt_Some in Hi. lia.
Qed.

Lemma distinct_string_ok fc cells nulls :
  column_is String fc cells nulls →
  ∃ out, distinct_hashes_string fc (zlen cells) = Ok out ∧ hashes_cover String cells nulls out.
Proof.
  intros Hc. unfold distinct_hashes_string, zlen. rewrite Nat2Z.id.
  apply hashes_loop; [by apply (column_nulls_len _ _ _ _ Hc)|].
  intros k c x out Hck Hx. rewrite (masked_ok _ _ _ _ _ _ Hc Hx).
  destruct (Z.eqb_spec x 0) as [->|Hne]; cbn [negb]; [|by exists out].
  pose proof (ci_cells _ _ _ _ Hc _ _ Hck) as Hcell. destruct c as [|s|]; try done.
  destruct Hcell as (-> & off & Eo & Es). rewrite bind_Ok, Eo, bind_Ok, Es, bind_Ok.
  eexists. split; [done|]. split; [intros h Hh; apply add_distinct_elem; by right|].
  intros _ s' ->%list_elem_of_singleton. apply add_distinct_elem. by left.
Qed.

Lemma distinct_set_ok fc cells nulls :
  column_is Set_ fc cells nulls →
  ∃ out, distinct_hashes_set fc (zlen cells) = Ok out ∧ hashes_cover Set_ cells nulls out.
Proof.
  intros Hc. unfold distinct_hashes_set, zlen. rewrite Nat2Z.id.
  apply hashes_loop; [by apply (column_nulls_len _ _ _ _ Hc)|].
  intros k c x out Hck Hx. rewrite (masked_ok _ _ _ _ _ _ Hc Hx).
  destruct (Z.eqb_spec x 0) as [->|Hne]; cbn [negb]; [|by exists out].
  pose proof (ci_cells _ _ _ _ Hc _ _ Hck) as Hcell. destruct c as [| |es]; try done.
  destruct Hcell as (-> & off & Eo & Ee). rewrite bind_Ok, Eo, bind_Ok, Nat2Z.id.
  destruct (for_range_ok (λ j out', (∀ h, h ∈ out → h ∈ out') ∧
      ∀ e s, (e < Z.to_nat j)%nat → es !! e = Some s → filter_hash s ∈ out')
    (λ e out, '(_, s) ← set_elem fc (u32 (off + e)); mret (add_distinct (filter_hash s) out))
    (length es) 0 out) as (out' & E & Hm & Hn).
  - split; [done|]. intros e s He. lia.
  - intros j out1 Hj [Hm Hn]. destruct (lookup_lt_is_Some_2 es (Z.to_nat j)) as [s Hs]; [lia|].
    pose proof (Ee _ _ Hs) as E. rewrite Z2Nat.id in E by lia. rewrite E, bind_Ok.
    eexists. split; [done|]. split; [intros h Hh; apply add_distinct_elem; right; by apply Hm|].
    intros e s' He Hs'. apply add_distinct_elem.
    destruct (decide (e = Z.to_nat j)) as [->|]; [left; congruence|].
    right. apply (Hn e); [lia|done].
  - exists out'. split; [done|]. split; [done|]. intros _ s [e He]%list_elem_of_lookup.
    cbn [cell_strings] in He. apply (Hn e); [|done]. apply lookup_lt_Some in He. lia.
Qed.

Lemma distinct_ok t fc cells nulls :
  t = String ∨ t = Set_ → column_is t fc cells nulls →
  ∃ out, distinct_hashes t fc (zlen cells) = Ok out ∧ hashes_cover t cells nulls out.
Proof. intros [-> | ->]; [apply distinct_string_ok|apply distinct_set_ok]. Qed.
End distinct.
