(* ===== verification/FilterPruning.v ===== *)
(** * Pruning by summaries is sound

    A summary written by [write_filter_summary] never makes
    [summary_may_match] discard a leaf that has a matching row.  The sections
    of a summary are written by the same kind of loop and read by the same kind
    of loop: both are treated once, for any entry. *)
From S2P Require Import Prelude Doubles Schema FilterHash FilterColumns FilterScan FilterSummary.

(** ** Writing the entries of a section *)

(** The indices of the columns of those types, the first column being [c]. *)
Fixpoint ids_of (f : ColumnType → bool) (cols : list FilterColumn) (c : Z) : list Z :=
  match cols with
  | [] => []
  | col :: cols' => if f (col_type col) then c :: ids_of f cols' (c + 1) else ids_of f cols' (c + 1)
  end.

(** The loop of a section, for any entry writer [wr]. *)
Fixpoint entry_loop (f : ColumnType → bool) (stride : Z) (wr : Z → list Z → Z → res (list Z))
    (cols : list FilterColumn) (c : Z) (buf : list Z) (p n : Z) : res (list Z * Z * Z) :=
  match cols with
  | [] => mret (buf, p, n)
  | col :: cols' =>
      if f (col_type col) then
        buf ← wr c buf p;
        entry_loop f stride wr cols' (c + 1) buf (p + stride) (u8 (n + 1))
      else entry_loop f stride wr cols' (c + 1) buf p n
  end.

Definition num_writer (fcs : list ColumnData) (count c : Z) (buf : list Z) (p : Z) : res (list Z) :=
  fc ← vec_get fcs c;
  '(lo, hi) ← min_max fc count;
  write_num_entry c lo hi buf p.

Lemma numeric_loop_entries cols fcs count c buf p n :
  numeric_loop cols fcs count c buf p n =
  entry_loop is_numeric 17 (num_writer fcs count) cols c buf p n.
Proof.
  revert c buf p n. induction cols as [|col cols IH]; intros c buf p n; [done|].
  cbn [numeric_loop entry_loop]. destruct (is_numeric (col_type col)); [|apply IH].
  unfold num_writer. destruct (vec_get fcs c) as [fc|e]; [|done]. rewrite !bind_Ok.
  destruct (min_max fc count) as [[lo hi]|e]; [|done]. rewrite !bind_Ok.
  destruct (write_num_entry c lo hi buf p); [apply IH|done].
Qed.

Definition bloom_writer `{RapidHash} (t : ColumnType) (alloc : Z) (fcs : list ColumnData)
    (count c : Z) (buf : list Z) (p : Z) : res (list Z) :=
  fc ← vec_get fcs c;
  distinct ← distinct_hashes t fc count;
  write_bloom_entry c alloc distinct buf p.

Lemma bloom_loop_entries `{RapidHash} t alloc cols fcs count c buf p n :
  bloom_loop t alloc cols fcs count c buf p n =
  entry_loop (λ u, bool_decide (u = t)) (3 + alloc) (bloom_writer t alloc fcs count) cols c buf p n.
Proof.
  revert c buf p n. induction cols as [|col cols IH]; intros c buf p n; [done|].
  cbn [bloom_loop entry_loop]. case_bool_decide; [|apply IH].
  unfold bloom_writer. destruct (vec_get fcs c) as [fc|e]; [|done]. rewrite !bind_Ok.
  destruct (distinct_hashes t fc count) as [d|e]; [|done]. rewrite !bind_Ok.
  destruct (write_bloom_entry c alloc d buf p); [|done]. rewrite !bind_Ok.
  rewrite IH. by rewrite Z.add_assoc.
Qed.

(** An entry predicate that depends only on the entry's own bytes. *)
Definition framed (stride : Z) (E : list Z → Z → Z → Prop) : Prop :=
  ∀ buf buf' off c lo hi, E buf off c → same_outside buf buf' lo hi →
    off + stride ≤ lo ∨ hi ≤ off → E buf' off c.

(** The buffer has an entry for each of the columns, in order, from [p]. *)
Definition entries_at (stride : Z) (E : list Z → Z → Z → Prop) (buf : list Z) (p : Z)
    (ids : list Z) : Prop :=
  ∀ k c, ids !! k = Some c → E buf (p + stride * Z.of_nat k) c.

Lemma entries_framed stride E buf buf' p ids lo hi :
  framed stride E → 0 ≤ stride → entries_at stride E buf p ids → same_outside buf buf' lo hi →
  p + stride * zlen ids ≤ lo ∨ hi ≤ p → entries_at stride E buf' p ids.
Proof.
  intros Hf Hst He Hs Hd k c Hk. apply (Hf buf _ _ _ lo hi); [by apply He|done|].
  apply lookup_lt_Some in Hk. unfold zlen in Hd. nia.
Qed.

Lemma entry_loop_ok f stride wr E cols c0 buf p n :
  framed stride E → 0 < stride →
  (∀ c buf p, c ∈ ids_of f cols c0 → 0 ≤ p → p + stride ≤ zlen buf → Forall is_byte buf →
    ∃ buf', wr c buf p = Ok buf' ∧ same_outside buf buf' p (p + stride) ∧
      Forall is_byte buf' ∧ E buf' p c) →
  0 ≤ p → p + stride * zlen (ids_of f cols c0) ≤ zlen buf → Forall is_byte buf →
  0 ≤ n → n + zlen (ids_of f cols c0) < 256 →
  ∃ buf', entry_loop f stride wr cols c0 buf p n =
      Ok (buf', p + stride * zlen (ids_of f cols c0), n + zlen (ids_of f cols c0)) ∧
    same_outside buf buf' p (p + stride * zlen (ids_of f cols c0)) ∧ Forall is_byte buf' ∧
    entries_at stride E buf' p (ids_of f cols c0).
Proof.
  intros Hf Hst. revert c0 buf p n.
  induction cols as [|col cols IH]; intros c0 buf p n Hwr Hp Hfit Hb Hn Hmax; cbn [ids_of entry_loop] in *.
  { exists buf. unfold zlen. cbn [length]. rewrite Z.mul_0_r, !Z.add_0_r. split; [done|].
    split; [apply same_outside_refl|]. split; [done|]. intros k c Hk. done. }
  destruct (f (col_type col)); [|by apply IH].
  set (ids := ids_of f cols (c0 + 1)) in *.
  assert (zlen (c0 :: ids) = zlen ids + 1) as Hl by (unfold zlen; cbn [length]; lia).
  assert (0 ≤ zlen ids) as Hl0 by (unfold zlen; lia).
  rewrite Hl in *. clear Hl.
  destruct (Hwr c0 buf p) as (b1 & E1 & S1 & B1 & He1); [left|lia|nia|done|].
  pose proof (same_outside_length _ _ _ _ S1) as L1. rewrite E1, bind_Ok.
  assert (u8 (n + 1) = n + 1) as -> by (apply Z.mod_small; lia).
  destruct (IH (c0 + 1) b1 (p + stride) (n + 1)) as (b2 & E2 & S2 & B2 & He2).
  { intros c b q Hc. apply Hwr. by right. }
  { lia. } { unfold zlen in *. fold ids. rewrite L1. nia. } { done. } { lia. } { fold ids. lia. }
  fold ids in E2, S2, He2. exists b2. rewrite E2. split; [do 2 f_equal; [f_equal|]; lia|].
  split; [eapply same_outside_trans; [exact S1|exact S2|nia..]|]. split; [done|].
  intros [|k] c Hk; simpl in Hk.
  - simplify_eq. rewrite Z.mul_0_r, Z.add_0_r. apply (Hf b1 _ _ _ _ _ He1 S2). left. lia.
  - specialize (He2 k c Hk). by replace (p + stride * Z.of_nat (S k))
      with (p + stride + stride * Z.of_nat k) by lia.
Qed.

(** A section: its number of entries in one byte, then the entries. *)
Definition section_at (stride : Z) (E : list Z → Z → Z → Prop) (buf : list Z) (p : Z)
    (ids : list Z) : Prop :=
  holds buf p (le_enc 1 (zlen ids)) ∧ zlen ids < 256 ∧ entries_at stride E buf (p + 1) ids.

Definition section_len (stride : Z) (ids : list Z) : Z := 1 + stride * zlen ids.

Lemma section_framed stride E buf buf' p ids lo hi :
  framed stride E → 0 ≤ stride → section_at stride E buf p ids → same_outside buf buf' lo hi →
  p + section_len stride ids ≤ lo ∨ hi ≤ p → section_at stride E buf' p ids.
Proof.
  unfold section_len. intros Hf Hst (Hh & Hm & He) Hs Hd. assert (0 ≤ zlen ids) by (unfold zlen; lia).
  split; [|split; [done|]].
  - apply (holds_same_outside buf _ lo hi); [done|rewrite length_le_enc; nia|done].
  - apply (entries_framed _ _ buf _ _ _ lo hi); [done..|lia].
Qed.

(** Writing a section: the count is written when the entries are known. *)
Lemma section_loop_ok f stride wr E cols buf p :
  let ids := ids_of f cols 0 in
  framed stride E → 0 < stride →
  (∀ c buf p, c ∈ ids → 0 ≤ p → p + stride ≤ zlen buf → Forall is_byte buf →
    ∃ buf', wr c buf p = Ok buf' ∧ same_outside buf buf' p (p + stride) ∧
      Forall is_byte buf' ∧ E buf' p c) →
  0 ≤ p → p + section_len stride ids ≤ zlen buf → Forall is_byte buf → zlen ids < 256 →
  ∃ buf', (buf ← mem_write buf p (le_enc 1 0);
      '(buf, q, n) ← entry_loop f stride wr cols 0 buf (p + 1) 0;
      buf ← mem_write buf p (le_enc 1 n);
      mret (buf, q)) = Ok (buf', p + section_len stride ids) ∧
    same_outside buf buf' p (p + section_len stride ids) ∧ Forall is_byte buf' ∧
    section_at stride E buf' p ids.
Proof.
  intros ids Hf Hst Hwr Hp Hfit Hb Hmax. unfold section_len in *.
  assert (0 ≤ zlen ids) as Hl0 by (unfold zlen; lia).
  destruct (mem_write_ok buf p (le_enc 1 0)) as (b1 & E1 & _ & S1);
    [lia|rewrite length_le_enc; unfold zlen in *; nia|].
  rewrite length_le_enc in S1. change (Z.of_nat 1) with 1 in S1.
  pose proof (mem_write_bytes _ _ _ _ E1 Hb (le_enc_bytes _ _)) as B1.
  pose proof (same_outside_length _ _ _ _ S1) as L1.
  destruct (entry_loop_ok f stride wr E cols 0 b1 (p + 1) 0 Hf Hst Hwr) as (b2 & E2 & S2 & B2 & He2);
    [lia|unfold zlen in *; rewrite L1; fold ids; lia|done|lia|fold ids; lia|].
  pose proof (same_outside_length _ _ _ _ S2) as L2. fold ids in E2, S2, He2.
  destruct (mem_write_ok b2 p (le_enc 1 (zlen ids))) as (b3 & E3 & H3 & S3);
    [lia|rewrite length_le_enc, L2, L1; unfold zlen in *; nia|].
  rewrite length_le_enc in S3. change (Z.of_nat 1) with 1 in S3.
  exists b3. rewrite E1, bind_Ok, E2, bind_Ok. rewrite Z.add_0_l, E3, bind_Ok.
  split; [unfold mret, res_ret; do 2 f_equal; lia|].
  split.
  { eapply same_outside_trans; [|exact S3|..].
    - eapply (same_outside_trans _ _ _ _ _ _ _ p (p + (1 + stride * zlen ids))); [exact S1|exact S2|nia..].
    - lia. - lia. - lia. - nia. }
  split; [by apply (mem_write_bytes _ _ _ _ E3 B2), le_enc_bytes|].
  split; [done|]. split; [done|].
  apply (entries_framed _ _ b2 _ _ _ p (p + 1)); [done|lia|done|done|lia].
Qed.

(** ** Numeric entries *)

(** The entry of column [c] has the bounds [lo, hi], and they satisfy [P]. *)
Definition num_entry (P : Z → double → double → Prop) (buf : list Z) (off c : Z) : Prop :=
  0 ≤ c < 256 ∧ ∃ lo hi, valid_double lo ∧ valid_double hi ∧ P c lo hi ∧
    holds buf off (le_enc 1 c ++ le_enc 8 (bits_of_double lo) ++ le_enc 8 (bits_of_double hi)).

Lemma num_entry_framed P : framed 17 (num_entry P).
Proof.
  intros buf buf' off c lo hi (Hc & mn & mx & V1 & V2 & HP & Hh) Hs Hd. split; [done|].
  exists mn, mx. split; [done|]. split; [done|]. split; [done|].
  apply (holds_same_outside buf _ lo hi); [done|rewrite !length_app, !length_le_enc; lia|done].
Qed.

Lemma write_num_entry_ok P c lo hi buf p :
  0 ≤ c < 256 → valid_double lo → valid_double hi → P c lo hi →
  0 ≤ p → p + 17 ≤ zlen buf → Forall is_byte buf →
  ∃ buf', write_num_entry c lo hi buf p = Ok buf' ∧ same_outside buf buf' p (p + 17) ∧
    Forall is_byte buf' ∧ num_entry P buf' p c.
Proof.
  unfold zlen. intros Hc Vlo Vhi HP Hp Hfit Hb. unfold write_num_entry.
  destruct (mem_write_ok buf p (le_enc 1 c)) as (b1 & E1 & Hh1 & S1); [lia|rewrite length_le_enc; lia|].
  pose proof (same_outside_length _ _ _ _ S1) as L1.
  destruct (mem_write_ok b1 (p + 1) (le_enc 8 (bits_of_double lo))) as (b2 & E2 & Hh2 & S2);
    [lia|rewrite length_le_enc; lia|].
  pose proof (same_outside_length _ _ _ _ S2) as L2.
  destruct (mem_write_ok b2 (p + 9) (le_enc 8 (bits_of_double hi))) as (b3 & E3 & Hh3 & S3);
    [lia|rewrite length_le_enc; lia|].
  rewrite !length_le_enc in *.
  exists b3. rewrite E1, bind_Ok, E2, bind_Ok, E3. split; [done|].
  split.
  { apply (same_outside_trans buf b2 b3 p (p + 9) (p + 9) (p + 9 + Z.of_nat 8)); [|done|lia..].
    apply (same_outside_trans _ _ _ _ _ _ _ p (p + 9) S1 S2); lia. }
  split.
  { apply (mem_write_bytes _ _ _ _ E3); [|apply le_enc_bytes].
    apply (mem_write_bytes _ _ _ _ E2); [|apply le_enc_bytes].
    by apply (mem_write_bytes _ _ _ _ E1), le_enc_bytes. }
  split; [done|]. exists lo, hi. split; [done|]. split; [done|]. split; [done|].
  rewrite !holds_app, !length_le_enc. split; [|split].
  - eapply holds_same_outside; [exact S3|rewrite length_le_enc; lia|].
    eapply holds_same_outside; [exact S2|rewrite length_le_enc; lia|done].
  - eapply holds_same_outside; [exact S3|rewrite length_le_enc; lia|done].
  - replace (p + Z.of_nat 1 + Z.of_nat 8) with (p + 9) by lia. done.
Qed.

(** ** Bloom entries *)

Section bloom.
Context `{RapidHash}.

(** The entry of column [c]: disabled, or a bloom with the hashes [P c]. *)
Definition bloom_entry (alloc : Z) (P : Z → Z → Prop) (buf : list Z) (off c : Z) : Prop :=
  0 ≤ c < 256 ∧ ∃ n_bits, 0 ≤ n_bits < 2 ^ 16 ∧ holds buf off (le_enc 1 c ++ le_enc 2 n_bits) ∧
    (n_bits = 0 ∨ bloom_fits buf (off + 3) n_bits alloc ∧
      ∀ h, P c h → bloom_in buf (off + 3) n_bits h).

Lemma bloom_in_framed buf buf' p n alloc h lo hi :
  bloom_fits buf p n alloc → same_outside buf buf' lo hi → p + alloc ≤ lo ∨ hi ≤ p →
  bloom_in buf p n h → bloom_in buf' p n h.
Proof.
  intros (Hp & Hn & Hl) [_ Hs] Hd Hin k Hk. rewrite <- (Hin k Hk). unfold bloom_has. f_equal.
  pose proof (bit_in_byte _ _ alloc (bloom_bit_range (bloom_probe h) k n ltac:(lia)) ltac:(lia)).
  apply Hs. lia.
Qed.

Lemma bloom_entry_framed alloc P : 0 ≤ alloc → framed (3 + alloc) (bloom_entry alloc P).
Proof.
  intros Ha buf buf' off c lo hi (Hc & nb & Hnb & Hh & Hin) Hs Hd. split; [done|].
  exists nb. split; [done|]. split.
  { apply (holds_same_outside buf _ lo hi); [done|rewrite !length_app, !length_le_enc; lia|done]. }
  destruct Hin as [?|[Hfit Hin]]; [by left|right]. split.
  - destruct Hfit as (? & ? & ?). pose proof (same_outside_length _ _ _ _ Hs). unfold bloom_fits; lia.
  - intros h Hh'. apply (bloom_in_framed buf _ _ _ alloc _ lo hi); [done..|lia|by apply Hin].
Qed.

(** At most 1440 bits for at most 150 hashes. *)
Lemma bloom_n_bits_ok d :
  0 < d ≤ kBloomThreshold → ∃ n, bloom_n_bits d 180 = Ok n ∧ 0 < n ≤ 8 * 180.
Proof.
  intros Hd. unfold kBloomThreshold in Hd.
  assert (forallb (λ k, match bloom_n_bits (Z.of_nat k) 180 with
    Ok n => (0 <? n) && (n <=? 1440) | Err _ => false end) (seq 1 150) = true) as Hall
    by (vm_compute; reflexivity).
  rewrite forallb_forall in Hall. specialize (Hall (Z.to_nat d)).
  rewrite Z2Nat.id in Hall by lia. destruct (bloom_n_bits d 180) as [n|e].
  - exists n. split; [done|]. assert ((0 <? n) && (n <=? 1440) = true) as Hn
      by (apply Hall, in_seq; lia).
    apply andb_true_iff in Hn as [H1%Z.ltb_lt H2%Z.leb_le]. lia.
  - discriminate Hall. apply in_seq. lia.
Qed.

Lemma write_bloom_entry_ok (P : Z → Z → Prop) c distinct buf p :
  0 ≤ c < 256 → (∀ h, P c h → h ∈ distinct) → 0 ≤ p → p + 183 ≤ zlen buf → Forall is_byte buf →
  ∃ buf', write_bloom_entry c 180 distinct buf p = Ok buf' ∧ same_outside buf buf' p (p + 183) ∧
    Forall is_byte buf' ∧ bloom_entry 180 P buf' p c.
Proof.
  intros Hc HP Hp Hfit Hb. unfold write_bloom_entry, zlen in *.
  destruct (mem_write_ok buf p (le_enc 1 c)) as (b1 & E1 & Hh1 & S1); [lia|rewrite length_le_enc; lia|].
  pose proof (same_outside_length _ _ _ _ S1) as L1.
  pose proof (mem_write_bytes _ _ _ _ E1 Hb (le_enc_bytes _ _)) as B1.
  rewrite E1, bind_Ok. rewrite length_le_enc in S1.
  assert (∀ nb, ∃ b2, mem_write b1 (p + 1) (le_enc 2 nb) = Ok b2 ∧
    holds b2 p (le_enc 1 c ++ le_enc 2 nb) ∧ same_outside buf b2 p (p + 3) ∧ Forall is_byte b2) as Hw.
  { intros nb. destruct (mem_write_ok b1 (p + 1) (le_enc 2 nb)) as (b2 & E2 & Hh2 & S2);
      [lia|rewrite length_le_enc; lia|]. rewrite length_le_enc in S2.
    exists b2. split; [done|]. split.
    - rewrite holds_app, length_le_enc. split; [|done].
      eapply holds_same_outside; [exact S2|rewrite length_le_enc; lia|done].
    - split; [eapply same_outside_trans; [exact S1|exact S2|lia..]|].
      by apply (mem_write_bytes _ _ _ _ E2), le_enc_bytes. }
  destruct (negb (bool_decide (distinct = [])) && (Z.of_nat (length distinct) <=? kBloomThreshold)) eqn:Hd.
  - apply andb_true_iff in Hd as [Hne Hle%Z.leb_le]. apply negb_true_iff, bool_decide_eq_false in Hne.
    destruct (bloom_n_bits_ok (Z.of_nat (length distinct))) as (nb & En & Hnb); [split; [by destruct distinct|done]|].
    unfold zlen. rewrite En, bind_Ok. destruct (Hw nb) as (b2 & E2 & Hh2 & S2 & B2).
    pose proof (same_outside_length _ _ _ _ S2) as L2. rewrite E2, bind_Ok.
    assert (bloom_fits b2 (p + 3) nb 180) as Hf by (unfold bloom_fits; lia).
    destruct (bloom_fill_ok (p + 3) nb 180 distinct b2 Hf B2) as (b3 & E3 & S3 & B3 & Hin & _).
    exists b3. split; [done|]. split; [eapply same_outside_trans; [exact S2|exact S3|lia..]|].
    split; [done|]. split; [done|]. exists nb. split; [lia|]. split.
    + apply (holds_same_outside b2 _ _ _ _ _ S3); [rewrite length_app, !length_le_enc; lia|done].
    + right. split; [|intros h Hh; by apply Hin, HP].
      pose proof (same_outside_length _ _ _ _ S3). unfold bloom_fits; lia.
  - destruct (Hw 0) as (b2 & E2 & Hh2 & S2 & B2). exists b2. split; [done|].
    split; [apply (same_outside_trans _ _ _ _ _ _ _ p (p + 183) S2 (same_outside_refl _ p p)); lia|]. split; [done|].
    split; [done|]. exists 0. split; [lia|]. split; [done|by left].
Qed.
End bloom.

(** ** The summary of a table *)

Lemma ids_of_elem f cols c0 c :
  c ∈ ids_of f cols c0 →
  c0 ≤ c < c0 + zlen cols ∧ ∃ col, cols !! Z.to_nat (c - c0) = Some col ∧ f (col_type col) = true.
Proof.
  unfold zlen. revert c0. induction cols as [|col cols IH]; intros c0 Hc; cbn [ids_of] in Hc.
  { by apply not_elem_of_nil in Hc. }
  assert (c ∈ ids_of f cols (c0 + 1) → c0 ≤ c < c0 + Z.of_nat (length (col :: cols)) ∧
    ∃ col', (col :: cols) !! Z.to_nat (c - c0) = Some col' ∧ f (col_type col') = true) as Hrest.
  { intros Hin. destruct (IH _ Hin) as (Hr & col' & Hl & Hf). split; [cbn [length]; lia|].
    exists col'. split; [|done]. by replace (Z.to_nat (c - c0)) with (S (Z.to_nat (c - (c0 + 1)))) by lia. }
  destruct (f (col_type col)) eqn:E; [|by apply Hrest].
  apply elem_of_cons in Hc as [->|Hc]; [|by apply Hrest].
  split; [cbn [length]; lia|]. exists col. by rewrite Z.sub_diag.
Qed.

Lemma zlen_ids_of f cols c0 : zlen (ids_of f cols c0) = count_type f cols.
Proof.
  unfold zlen, count_type. revert c0. induction cols as [|col cols IH]; intros c0; [done|].
  cbn [ids_of]. rewrite filter_cons. destruct (f (col_type col)) eqn:E.
  - rewrite decide_True by done. cbn [length]. rewrite !Nat2Z.inj_succ. by rewrite IH.
  - rewrite decide_False by congruence. apply IH.
Qed.

Lemma count_type_le f cols : 0 ≤ count_type f cols ≤ zlen cols.
Proof. unfold count_type, zlen. pose proof (length_filter (λ c, f (col_type c) = true) cols). lia. Qed.

Definition is_type (t u : ColumnType) : bool := bool_decide (u = t).

Lemma count_type_strings cols :
  count_type (λ t, bool_decide (t = String ∨ t = Set_)) cols =
  count_type (is_type String) cols + count_type (is_type Set_) cols.
Proof.
  unfold count_type, is_type. induction cols as [|col cols IH]; [done|].
  rewrite !filter_cons. destruct (col_type col) eqn:E; simpl in *; lia.
Qed.

(** What the writer of a summary relies on: the column data is tagged with the
    schema's types, [int64] values are below [2^53], and a column that is not
    nullable has no validity flags. *)
Definition summary_columns (cols : list FilterColumn) (fcs : list ColumnData)
    (tbl : list (list cell * list Z)) : Prop :=
  Forall3 (λ col fc d, cd_type fc = col_type col ∧ Forall (num_fits (col_type col)) d.1 ∧
    (nullable col = false → d.2 = replicate (length d.1) 0)) cols fcs tbl.

Lemma Forall3_lookup_l {A B C} (P : A → B → C → Prop) l k m i x :
  Forall3 P l k m → l !! i = Some x → ∃ y z, k !! i = Some y ∧ m !! i = Some z ∧ P x y z.
Proof.
  intros HF. revert i. induction HF as [|x' y z l k m Hp HF IH]; intros i Hi; [done|].
  destruct i as [|i]; simpl in *; [simplify_eq; by exists y, z|by apply IH].
Qed.

Section table.
Context `{RapidHash} (n : nat) (cols : list FilterColumn) (fcs : list ColumnData)
  (tbl : list (list cell * list Z)).
Context (Htbl : table_is n cols fcs tbl) (Hsum : summary_columns cols fcs tbl)
  (Hcols : zlen cols < 256).

(** The bounds of a numeric entry cover the column's rows. *)
Definition bounds_ok (c : Z) (lo hi : double) : Prop :=
  ∀ col d, cols !! Z.to_nat c = Some col → tbl !! Z.to_nat c = Some d →
    range_covers (col_type col) d.1 d.2 lo hi.

(** The hash of a string in a row of the column that is not NULL. *)
Definition is_hash (c h : Z) : Prop :=
  ∃ col d i x s, cols !! Z.to_nat c = Some col ∧ tbl !! Z.to_nat c = Some d ∧
    d.1 !! i = Some x ∧ d.2 !! i = Some 0 ∧ s ∈ cell_strings (col_type col) x ∧ h = filter_hash s.

Lemma column_of f c :
  c ∈ ids_of f cols 0 →
  ∃ col fc d, 0 ≤ c < 256 ∧ cols !! Z.to_nat c = Some col ∧ f (col_type col) = true ∧
    tbl !! Z.to_nat c = Some d ∧ vec_get fcs c = Ok fc ∧
    column_is (col_type col) fc d.1 d.2 ∧ zlen d.1 = Z.of_nat n ∧
    cd_type fc = col_type col ∧ Forall (num_fits (col_type col)) d.1.
Proof.
  intros (Hc & col & Hcol & Hf)%ids_of_elem. rewrite Z.sub_0_r in Hcol.
  destruct (Forall3_lookup_l _ _ _ _ _ _ Htbl Hcol) as (fc & d & Hfc & Hd & Hci & Hn).
  destruct (Forall3_lookup _ _ _ _ _ _ Hsum Hfc) as (col' & d' & Hcol' & Hd' & Ht & Hnum & _).
  exists col, fc, d. simplify_eq. split; [lia|]. split; [done|]. split; [done|]. split; [done|].
  split; [|split; [done|split; [done|done]]].
  pose proof (vec_get_lookup fcs _ _ Hfc) as Hg. by rewrite Z2Nat.id in Hg by lia.
Qed.

Lemma num_writer_ok c buf p :
  c ∈ ids_of is_numeric cols 0 → 0 ≤ p → p + 17 ≤ zlen buf → Forall is_byte buf →
  ∃ buf', num_writer fcs (Z.of_nat n) c buf p = Ok buf' ∧ same_outside buf buf' p (p + 17) ∧
    Forall is_byte buf' ∧ num_entry bounds_ok buf' p c.
Proof.
  intros Hc Hp Hfit Hb.
  destruct (column_of _ _ Hc) as (col & fc & d & Hr & Hcol & Hf & Hd & Hg & Hci & Hn & Ht & Hnum).
  unfold num_writer. rewrite Hg, bind_Ok, <- Hn.
  destruct (min_max_ok _ _ _ _ Hci Ht Hf Hnum) as (lo & hi & E & Vlo & Vhi & Hcov).
  rewrite E, bind_Ok. apply write_num_entry_ok; [done..| |done|done|done].
  intros col' d' Hcol' Hd'. by simplify_eq.
Qed.

Lemma bloom_writer_ok t c buf p :
  t = String ∨ t = Set_ →
  c ∈ ids_of (is_type t) cols 0 → 0 ≤ p → p + 183 ≤ zlen buf → Forall is_byte buf →
  ∃ buf', bloom_writer t 180 fcs (Z.of_nat n) c buf p = Ok buf' ∧
    same_outside buf buf' p (p + 183) ∧ Forall is_byte buf' ∧ bloom_entry 180 is_hash buf' p c.
Proof.
  intros Hts Hc Hp Hfit Hb.
  destruct (column_of _ _ Hc) as (col & fc & d & Hr & Hcol & Hf & Hd & Hg & Hci & Hn & Ht & Hnum).
  apply bool_decide_eq_true in Hf. subst t.
  unfold bloom_writer. rewrite Hg, bind_Ok, <- Hn.
  destruct (distinct_ok _ fc _ _ Hts Hci) as (out & E & Hcov). rewrite E, bind_Ok.
  apply write_bloom_entry_ok; [done| |done..].
  intros h (col' & d' & i & x & s & Hcol' & Hd' & Hi & Hn' & Hs & ->). simplify_eq.
  by apply (Hcov i x).
Qed.

(** The ids of the three sections, and the sections of a written summary. *)
Definition num_ids : list Z := ids_of is_numeric cols 0.
Definition bloom_ids (t : ColumnType) : list Z := ids_of (is_type t) cols 0.

Definition is_summary (buf : list Z) : Prop :=
  section_at 17 (num_entry bounds_ok) buf 0 num_ids ∧
  section_at 183 (bloom_entry 180 is_hash) buf (section_len 17 num_ids) (bloom_ids String) ∧
  section_at 183 (bloom_entry 180 is_hash) buf
    (section_len 17 num_ids + section_len 183 (bloom_ids String)) (bloom_ids Set_).

Lemma summary_size_ok schema size :
  columns schema = cols → cols ≠ [] → summary_size schema kBloomThreshold = Ok size →
  size = section_len 17 num_ids + section_len 183 (bloom_ids String) +
    section_len 183 (bloom_ids Set_) ∧ size ≠ 0.
Proof.
  intros Hs Hne Hsz. unfold summary_size in Hsz. rewrite Hs in Hsz.
  assert (u32 (3 + count_type is_numeric cols * (1 + 8 + 8) +
    count_type (λ t, bool_decide (t = String ∨ t = Set_)) cols * (1 + 2 + 180)) = size) as Hsz'.
  { destruct cols as [|col cols']; [done|]. unfold kBloomThreshold in Hsz.
    rewrite bloom_max_bytes_150, bind_Ok in Hsz. by injection Hsz. }
  rewrite count_type_strings in Hsz'. unfold section_len, num_ids, bloom_ids.
  rewrite !zlen_ids_of. pose proof (count_type_le is_numeric cols).
  pose proof (count_type_le (is_type String) cols). pose proof (count_type_le (is_type Set_) cols).
  rewrite u32_id in Hsz' by lia. lia.
Qed.

Lemma write_summary_ok schema size buf :
  columns schema = cols → cols ≠ [] → summary_size schema kBloomThreshold = Ok size →
  zlen buf = size → Forall is_byte buf →
  ∃ buf', write_filter_summary buf size schema (Z.of_nat n) fcs = Ok buf' ∧
    length buf' = length buf ∧ is_summary buf'.
Proof.
  intros Hs Hne Hsz Hlen Hb. destruct (summary_size_ok _ _ Hs Hne Hsz) as [Hsize Hnz].
  assert (∀ f, zlen (ids_of f cols 0) < 256) as Hid.
  { intros f. rewrite zlen_ids_of. pose proof (count_type_le f cols). lia. }
  assert (∀ st ids, 0 ≤ st → 1 ≤ section_len st ids) as Hsl.
  { intros st ids Hst. unfold section_len, zlen. nia. }
  pose proof (Hsl 17 num_ids ltac:(lia)) as Hl1. pose proof (Hsl 183 (bloom_ids String) ltac:(lia)) as Hl2.
  pose proof (Hsl 183 (bloom_ids Set_) ltac:(lia)) as Hl3.
  unfold write_filter_summary. rewrite (proj2 (Z.eqb_neq size 0)) by done. unfold kBloomThreshold.
  rewrite bloom_max_bytes_150, bind_Ok, Hs.
  unfold write_numeric_section, write_bloom_section.
  destruct (section_loop_ok is_numeric 17 (num_writer fcs (Z.of_nat n)) (num_entry bounds_ok) cols buf 0)
    as (b1 & E1 & S1 & B1 & Sec1);
    [apply num_entry_framed|lia|apply num_writer_ok|lia|fold num_ids; lia|done|apply Hid|].
  fold num_ids in E1, S1, Sec1. set (q1 := section_len 17 num_ids) in *.
  change (0 + q1) with q1 in E1, S1.
  pose proof (same_outside_length _ _ _ _ S1) as L1.
  destruct (section_loop_ok (is_type String) 183 (bloom_writer String 180 fcs (Z.of_nat n))
    (bloom_entry 180 is_hash) cols b1 q1) as (b2 & E2 & S2 & B2 & Sec2);
    [by apply (bloom_entry_framed 180)|lia|intros; apply bloom_writer_ok; auto|lia
    |fold (bloom_ids String); unfold zlen in *; lia|done|apply Hid|].
  fold (bloom_ids String) in E2, S2, Sec2. set (q2 := section_len 183 (bloom_ids String)) in *.
  pose proof (same_outside_length _ _ _ _ S2) as L2.
  destruct (section_loop_ok (is_type Set_) 183 (bloom_writer Set_ 180 fcs (Z.of_nat n))
    (bloom_entry 180 is_hash) cols b2 (q1 + q2)) as (b3 & E3 & S3 & B3 & Sec3);
    [by apply (bloom_entry_framed 180)|lia|intros; apply bloom_writer_ok; auto|lia
    |fold (bloom_ids Set_); unfold zlen in *; lia|done|apply Hid|].
  fold (bloom_ids Set_) in E3, S3, Sec3. set (q3 := section_len 183 (bloom_ids Set_)) in *.
  exists b3.
  match goal with |- (?m ≫= ?k = Ok b3) ∧ _ => assert (m = Ok (b1, q1)) as -> end.
  { rewrite <- E1. destruct (mem_write buf 0 (le_enc 1 0)) as [b|]; [|done]. rewrite !bind_Ok.
    by rewrite numeric_loop_entries. }
  rewrite bind_Ok.
  match goal with |- (?m ≫= ?k = Ok b3) ∧ _ => assert (m = Ok (b2, q1 + q2)) as -> end.
  { rewrite <- E2. destruct (mem_write b1 q1 (le_enc 1 0)) as [b|]; [|done]. rewrite !bind_Ok.
    by rewrite bloom_loop_entries. }
  rewrite bind_Ok.
  match goal with |- (?m ≫= ?k = Ok b3) ∧ _ => assert (m = Ok (b3, q1 + q2 + q3)) as -> end.
  { rewrite <- E3. destruct (mem_write b2 (q1 + q2) (le_enc 1 0)) as [b|]; [|done]. rewrite !bind_Ok.
    by rewrite bloom_loop_entries. }
  pose proof (same_outside_length _ _ _ _ S3) as L3.
  split; [done|]. split; [congruence|]. split_and!; [| |done].
  - apply (section_framed _ _ b2 _ _ _ (q1 + q2) (q1 + q2 + q3)); [apply num_entry_framed|lia| |done|left; fold q1; lia].
    apply (section_framed _ _ b1 _ _ _ q1 (q1 + q2)); [apply num_entry_framed|lia|done|done|left; fold q1; lia].
  - apply (section_framed _ _ b2 _ _ _ (q1 + q2) (q1 + q2 + q3)); [by apply (bloom_entry_framed 180)|lia|done|done|left; fold q2; lia].
Qed.
End table.

(** ** Reading a section *)

Lemma parse_section_ok {V} (Q : Z → V → Prop) stride E s p ids (rd : Z → res V) (dflt : V) :
  section_at stride E s p ids →
  (∀ off c, E s off c → 0 ≤ c < 256 ∧ mem_uint s off 1 = Ok c ∧ ∃ v, rd off = Ok v ∧ Q c v) →
  ∃ tab, (n ← mem_uint s p 1;
      for_range (Z.to_nat n) 0 (λ _ '(tab, p),
        c ← mem_uint s p 1; v ← rd p; tab ← vec_set tab c v; mret (tab, p + stride))
      (replicate 256 dflt, p + 1)) = Ok (tab, p + section_len stride ids) ∧
    length tab = 256%nat ∧
    ∀ c v, 0 ≤ c → tab !! Z.to_nat c = Some v → v = dflt ∨ Q c v.
Proof.
  intros (Hh & Hm & He) Hrd. assert (0 ≤ zlen ids) as Hl0 by (unfold zlen; lia).
  rewrite (mem_uint_holds _ _ _ _ Hh) by (change (256 ^ Z.of_nat 1) with 256; lia).
  rewrite bind_Ok. unfold zlen at 1. rewrite Nat2Z.id.
  match goal with |- context [for_range _ _ ?f _] => set (body := f) end.
  destruct (for_range_ok (λ (j : Z) '(tab, q), q = p + 1 + stride * j ∧ length tab = 256%nat ∧
      ∀ c (v : V), 0 ≤ c → tab !! Z.to_nat c = Some v → v = dflt ∨ Q c v)
    body (length ids) 0 (replicate 256 dflt, p + 1)) as ([tab q] & E1 & Hq & Hl & Hv).
  - split; [lia|]. split; [done|]. intros c v Hc Hlk. left. by apply lookup_replicate in Hlk as [-> _].
  - intros j [tab q] Hj (Hq & Hl & Hv).
    destruct (lookup_lt_is_Some_2 ids (Z.to_nat j)) as [c Hc]; [lia|].
    destruct (Hrd _ _ (He _ _ Hc)) as (Hr & Ec & v & Ev & HQ).
    rewrite Z2Nat.id, <- Hq in Ec, Ev by lia.
    unfold body. rewrite Ec, bind_Ok, Ev, bind_Ok, vec_set_Ok by lia. rewrite bind_Ok.
    eexists. split; [done|]. split; [lia|]. split; [by rewrite length_insert|].
    intros c' v' Hc' Hlk. apply list_lookup_insert_Some in Hlk as [(Hcc & -> & _)|(_ & Hlk)].
    + right. by replace c' with c by lia.
    + by apply Hv.
  - exists tab. rewrite E1. split; [|done]. subst q. unfold section_len, zlen. do 2 f_equal. lia.
Qed.

Lemma parse_numeric_ok P s p ids :
  section_at 17 (num_entry P) s p ids →
  ∃ ranges, parse_numeric s p = Ok (ranges, p + section_len 17 ids) ∧ length ranges = 256%nat ∧
    ∀ c r, 0 ≤ c → ranges !! Z.to_nat c = Some r → r = None ∨ ∃ lo hi, r = Some (lo, hi) ∧ P c lo hi.
Proof.
  intros Hsec.
  destruct (parse_section_ok (λ c r, ∃ lo hi, r = Some (lo, hi) ∧ P c lo hi) 17 _ s p ids
    (λ p, mn ← mem_uint s (p + 1) 8; mx ← mem_uint s (p + 9) 8;
      mret (Some (double_of_bits mn, double_of_bits mx))) None Hsec) as (tab & E & Hl & Hv).
  - intros off c (Hc & lo & hi & Vlo & Vhi & HP & Hh).
    rewrite !holds_app, !length_le_enc in Hh. destruct Hh as (Hh1 & Hh2 & Hh3).
    replace (off + Z.of_nat 1 + Z.of_nat 8) with (off + 9) in Hh3 by lia.
    change (Z.of_nat 1) with 1 in Hh2. split; [done|].
    split; [apply mem_uint_holds; [done|change (256 ^ Z.of_nat 1) with 256; lia]|].
    exists (Some (lo, hi)). split; [|by exists lo, hi].
    rewrite (mem_uint_holds _ _ _ _ Hh2), bind_Ok, (mem_uint_holds _ _ _ _ Hh3), bind_Ok
      by (change (256 ^ Z.of_nat 8) with (2 ^ 64); by apply bits_of_double_range).
    by rewrite !double_of_bits_of_double.
  - exists tab. split; [|done]. etransitivity; [|exact E]. unfold parse_numeric.
    destruct (mem_uint s p 1) as [m|e]; [|done]. rewrite !bind_Ok. apply for_range_ext.
    intros j [t q]. destruct (mem_uint s q 1); [|done]. rewrite !bind_Ok.
    destruct (mem_uint s (q + 1) 8); [|done]. rewrite !bind_Ok. by destruct (mem_uint s (q + 9) 8).
Qed.

Section query.
Context `{RapidHash} `{LibM}.

(** What a parsed bloom says of the hashes [P]: all of them are found. *)
Definition bloom_finds (s : list Z) (be : Z * Z) (P : Z → Prop) : Prop :=
  ∀ h, P h → bloom_check s be.2 be.1 h = Ok true.

Lemma parse_blooms_ok P s p ids :
  section_at 183 (bloom_entry 180 P) s p ids →
  ∃ blooms, parse_blooms 180 s p = Ok (blooms, p + section_len 183 ids) ∧ length blooms = 256%nat ∧
    ∀ c be, 0 ≤ c → blooms !! Z.to_nat c = Some be →
      be.1 = 0 ∨ bloom_fits s be.2 be.1 180 ∧ ∀ h, P c h → bloom_in s be.2 be.1 h.
Proof.
  intros Hsec.
  destruct (parse_section_ok (λ c be, be.1 = 0 ∨ bloom_fits s be.2 be.1 180 ∧
      ∀ h, P c h → bloom_in s be.2 be.1 h) 183 _ s p ids
    (λ p, n_bits ← mem_uint s (p + 1) 2; mret (n_bits, p + 3)) (0, 0) Hsec) as (tab & E & Hl & Hv).
  - intros off c (Hc & nb & Hnb & Hh & Hin).
    rewrite holds_app, length_le_enc in Hh. destruct Hh as (Hh1 & Hh2).
    change (Z.of_nat 1) with 1 in Hh2. split; [done|].
    split; [apply mem_uint_holds; [done|change (256 ^ Z.of_nat 1) with 256; lia]|].
    exists (nb, off + 3). split; [|done].
    by rewrite (mem_uint_holds _ _ _ _ Hh2) by (change (256 ^ Z.of_nat 2) with (2 ^ 16); lia).
  - exists tab. split.
    + etransitivity; [|exact E]. unfold parse_blooms.
      destruct (mem_uint s p 1) as [m|e]; [|done]. rewrite !bind_Ok. apply for_range_ext.
      intros j [t q]. destruct (mem_uint s q 1); [|done]. rewrite !bind_Ok.
      destruct (mem_uint s (q + 1) 2) as [nb|]; [|done]. rewrite !bind_Ok.
      destruct (vec_set t a (nb, q + 3)); [|done]. rewrite !bind_Ok. by rewrite <- Z.add_assoc.
    + split; [done|]. intros c be Hc Hlk. destruct (Hv c be Hc Hlk) as [->|Hq]; [by left|done].
Qed.

(** A query value that a row has is found by the row's bloom. *)
Lemma check_hash_ok s be (P : Z → Prop) v :
  be.1 = 0 ∨ bloom_fits s be.2 be.1 180 ∧ (∀ h, P h → bloom_in s be.2 be.1 h) →
  ∃ r, check_hash s be v = Ok r ∧ (P (filter_hash v) → r = true).
Proof.
  intros [Hz|[Hfit Hin]]; unfold check_hash.
  - exists true. unfold bloom_check. by rewrite Hz.
  - destruct (bloom_check_ok _ _ _ _ (filter_hash v) Hfit) as (r & -> & Hr). exists r.
    split; [done|]. intros HP. by apply Hr, Hin.
Qed.

Lemma any_may_match_ok s be (P : Z → Prop) vals :
  be.1 = 0 ∨ bloom_fits s be.2 be.1 180 ∧ (∀ h, P h → bloom_in s be.2 be.1 h) →
  ∃ r, any_may_match s be vals = Ok r ∧ ((∃ v, v ∈ vals ∧ P (filter_hash v)) → r = true).
Proof.
  intros Hbe. induction vals as [|v vals (r & E & Hr)]; cbn [any_may_match].
  - exists false. split; [done|]. intros (v & Hv & _). by apply not_elem_of_nil in Hv.
  - destruct (check_hash_ok s be P v Hbe) as (r1 & -> & Hr1). rewrite bind_Ok.
    destruct r1; [by exists true|]. exists r. split; [done|].
    intros (w & [->|Hw]%elem_of_cons & HP); [by apply Hr1 in HP|]. apply Hr. by exists w.
Qed.

Lemma all_may_match_ok s be (P : Z → Prop) vals :
  be.1 = 0 ∨ bloom_fits s be.2 be.1 180 ∧ (∀ h, P h → bloom_in s be.2 be.1 h) →
  (∀ v, v ∈ vals → P (filter_hash v)) → all_may_match s be vals = Ok true.
Proof.
  intros Hbe. induction vals as [|v vals IH]; cbn [all_may_match]; intros Hall; [done|].
  destruct (check_hash_ok s be P v Hbe) as (r1 & -> & Hr1). rewrite bind_Ok.
  rewrite Hr1 by (apply Hall; left). apply IH. intros w Hw. apply Hall. by right.
Qed.

(** What is asked of a predicate for pruning to be sound: it is not a geo
    predicate, and its numeric constants are exact values of the column's type. *)
Definition prunable (t : ColumnType) (pred : Predicate) : Prop :=
  is_geo (op pred) = false ∧ num_exact t pred.

Lemma string_sound s be pred c (P : Z → Prop) :
  be.1 = 0 ∨ bloom_fits s be.2 be.1 180 ∧ (∀ h, P h → bloom_in s be.2 be.1 h) →
  cell_sem String pred c →
  (∀ v, v ∈ cell_strings String c → P (filter_hash v)) →
  string_may_match s be pred = Ok true.
Proof.
  intros Hbe Hsem HP. unfold string_may_match, cell_sem in *.
  destruct c as [|v|]; try done. specialize (HP v ltac:(cbn; by apply list_elem_of_singleton)).
  destruct (op pred) eqn:Eo; try done.
  - subst v. destruct (check_hash_ok s be P (str_value pred) Hbe) as (r & -> & Hr). by rewrite Hr.
  - unfold any_or_empty. destruct (any_may_match_ok s be P (query_vals pred) Hbe) as (r & -> & Hr).
    rewrite bind_Ok, Hr; [done|]. exists v. split; [|done]. unfold query_vals.
    case_bool_decide; [done|by right].
Qed.

Lemma set_sound s be pred c (P : Z → Prop) :
  be.1 = 0 ∨ bloom_fits s be.2 be.1 180 ∧ (∀ h, P h → bloom_in s be.2 be.1 h) →
  cell_sem Set_ pred c → (∀ v, v ∈ cell_strings Set_ c → P (filter_hash v)) →
  set_may_match s be pred = Ok true.
Proof.
  intros Hbe Hsem HP. unfold set_may_match, cell_sem in *. destruct c as [| |es]; try done.
  destruct (op pred); try done.
  - destruct (check_hash_ok s be P (str_value pred) Hbe) as (r & -> & Hr).
    by rewrite Hr by (by apply HP).
  - unfold any_or_empty. destruct (any_may_match_ok s be P (query_vals pred) Hbe) as (r & -> & Hr).
    rewrite bind_Ok, Hr; [done|]. destruct Hsem as (q & Hq & He). exists q. split; [done|]. by apply HP.
  - apply (all_may_match_ok s be P _ Hbe). intros v Hv. by apply HP, Hsem.
Qed.
End query.

(** ** All predicates *)

Section sound.
Context `{RapidHash} `{LibM} (n : nat) (schema : Schema) (fcs : list ColumnData)
  (tbl : list (list cell * list Z)).
Context (Htbl : table_is n (columns schema) fcs tbl)
  (Hsum : summary_columns (columns schema) fcs tbl) (Hcols : zlen (columns schema) < 256).

(** The query's predicates are prunable. *)
Definition summary_query (preds : list Predicate) (pcis : list Z) : Prop :=
  Forall2 (λ pred ci, 0 ≤ ci ∧ ∀ col, columns schema !! Z.to_nat ci = Some col →
    prunable (col_type col) pred) preds pcis.

(** The parsed tables of a summary, as [summary_may_match] uses them. *)
Record parsed (s : list Z) (ranges : NumRanges) (sb tb : Blooms) : Prop := {
  pa_lens : length ranges = 256%nat ∧ length sb = 256%nat ∧ length tb = 256%nat;
  pa_ranges : ∀ c r, 0 ≤ c → ranges !! Z.to_nat c = Some r →
    r = None ∨ ∃ lo hi, r = Some (lo, hi) ∧ bounds_ok (columns schema) tbl c lo hi;
  pa_strings : ∀ c be, 0 ≤ c → sb !! Z.to_nat c = Some be →
    be.1 = 0 ∨ bloom_fits s be.2 be.1 180 ∧ ∀ h, is_hash (columns schema) tbl c h → bloom_in s be.2 be.1 h;
  pa_sets : ∀ c be, 0 ≤ c → tb !! Z.to_nat c = Some be →
    be.1 = 0 ∨ bloom_fits s be.2 be.1 180 ∧ ∀ h, is_hash (columns schema) tbl c h → bloom_in s be.2 be.1 h;
}.

(** On a row that is not NULL. *)
Lemma cell_pruned_soundly s ranges sb tb col d i c pred ci lng :
  parsed s ranges sb tb → 0 ≤ ci → columns schema !! Z.to_nat ci = Some col →
  tbl !! Z.to_nat ci = Some d → d.1 !! i = Some c → d.2 !! i = Some 0 →
  cell_ok (col_type col) c → num_fits (col_type col) c →
  prunable (col_type col) pred → cell_sem (col_type col) pred c →
  pred_may_match s ranges sb tb schema pred ci lng = Ok true.
Proof.
  intros Hp Hci Hcol Hd Hc Hn Hok Hfits Hpr Hsem. unfold pred_may_match.
  pose proof (vec_get_lookup _ _ _ Hcol) as Hg. rewrite Z2Nat.id in Hg by done. rewrite Hg, bind_Ok.
  case_bool_decide; [done|]. pose proof Hpr as (Hgeo & Hex). rewrite Hgeo.
  destruct (pa_lens _ _ _ _ Hp) as (Lr & Ls & Lt).
  assert (ci < 256) as Hci'.
  { apply lookup_lt_Some in Hcol. unfold zlen in Hcols. lia. }
  assert (∀ v, v ∈ cell_strings (col_type col) c → is_hash (columns schema) tbl ci (filter_hash v)) as Hhash.
  { intros v Hv. by exists col, d, i, c, v. }
  assert (is_numeric (col_type col) = true →
    (r ← vec_get ranges ci; match r with None => mret true
      | Some (mn, mx) => mret (range_may_match (op pred) (value pred) (value2 pred) mn mx) end) = Ok true) as Hnum.
  { intros Ht. destruct (vec_get_Ok ranges ci) as (r & Hr & ->); [lia|]. rewrite bind_Ok.
    destruct (pa_ranges _ _ _ _ Hp _ _ Hci Hr) as [->|(lo & hi & -> & Hb)]; [done|].
    unfold mret, res_ret. f_equal.
    apply (num_sound (col_type col) c); [done..|]. intros Hnan. by apply (Hb col d Hcol Hd i c). }
  destruct (col_type col) eqn:Et; try (by apply Hnum).
  - done.
  - destruct (vec_get_Ok sb ci) as (be & Hbe & ->); [lia|]. rewrite bind_Ok.
    by apply (string_sound s be pred c (is_hash (columns schema) tbl ci)
      (pa_strings _ _ _ _ Hp _ _ Hci Hbe)).
  - destruct (vec_get_Ok tb ci) as (be & Hbe & ->); [lia|]. rewrite bind_Ok.
    by apply (set_sound s be pred c (is_hash (columns schema) tbl ci)
      (pa_sets _ _ _ _ Hp _ _ Hci Hbe)).
Qed.

Lemma pred_pruned_soundly s ranges sb tb i pred ci lng :
  parsed s ranges sb tb → 0 ≤ ci →
  (∀ col, columns schema !! Z.to_nat ci = Some col → prunable (col_type col) pred) →
  (∃ col d c x, columns schema !! Z.to_nat ci = Some col ∧ tbl !! Z.to_nat ci = Some d ∧
    d.1 !! i = Some c ∧ d.2 !! i = Some x ∧
    row_sem (col_type col) pred (nullable col && negb (x =? 0)) c) →
  pred_may_match s ranges sb tb schema pred ci lng = Ok true.
Proof.
  intros Hp Hci Hpr (col & d & c & x & Hcol & Hd & Hc & Hx & Hrow).
  destruct (Forall2_lookup_l _ _ _ _ _ (table_columns_ok _ _ _ _ Htbl) Hcol) as (d' & Hd' & (Hcells & Hnl & _) & Hlen).
  simplify_eq.
  assert (op pred = OpIsNull ∨ op pred = OpIsNotNull →
    pred_may_match s ranges sb tb schema pred ci lng = Ok true) as Hisnull.
  { intros Hop. unfold pred_may_match.
    pose proof (vec_get_lookup _ _ _ Hcol) as Hg. rewrite Z2Nat.id in Hg by done.
    by rewrite Hg, bind_Ok, bool_decide_true by done. }
  unfold row_sem in Hrow. destruct (nullable col && negb (x =? 0)) eqn:En; [auto|].
  destruct (decide (op pred = OpIsNull ∨ op pred = OpIsNotNull)) as [|Hop]; [auto|].
  assert (cell_sem (col_type col) pred c) as Hsem by (destruct (op pred); naive_solver).
  destruct (Forall3_lookup_l _ _ _ _ _ _ Hsum Hcol) as (fc & d' & _ & Hd'' & _ & Hf & Hnn). simplify_eq.
  apply (cell_pruned_soundly s ranges sb tb col d i c); [done..| | | |by apply Hpr|done].
  - destruct (nullable col); cbn [andb] in En.
    + apply negb_false_iff, Z.eqb_eq in En. by rewrite Hx, En.
    + rewrite Hnn by done. apply lookup_replicate. split; [done|]. by apply lookup_lt_Some in Hc.
  - by apply (Forall_lookup_1 _ _ _ _ Hcells Hc).
  - by apply (Forall_lookup_1 _ _ _ _ Hf Hc).
Qed.

Lemma preds_pruned_soundly s ranges sb tb i preds pcis geo pre :
  parsed s ranges sb tb → summary_query preds pcis →
  query_sem (columns schema) tbl i preds pcis →
  preds_may_match s ranges sb tb schema preds (pre ++ pcis) geo (length pre) = Ok true.
Proof.
  intros Hp Hq. revert pre. induction Hq as [|pred ci preds pcis [Hci Hpr] Hq IH]; intros pre Hsem; [done|].
  cbn [preds_may_match].
  rewrite (vec_get_lookup (pre ++ ci :: pcis) (length pre) ci) by (by apply list_lookup_middle).
  rewrite bind_Ok. rewrite (pred_pruned_soundly s ranges sb tb i pred ci) by (done || by apply (Hsem 0%nat)).
  rewrite bind_Ok. specialize (IH (pre ++ [ci])). rewrite <- app_assoc, length_app, Nat.add_comm in IH.
  apply IH. intros p pr cj Hpp Hc. by apply (Hsem (S p)).
Qed.

Lemma summary_parsed s :
  is_summary (columns schema) tbl s →
  ∃ ranges sb tb q1 q2, parse_numeric s 0 = Ok (ranges, q1) ∧ parse_blooms 180 s q1 = Ok (sb, q2) ∧
    (∃ q3, parse_blooms 180 s q2 = Ok (tb, q3)) ∧ parsed s ranges sb tb.
Proof.
  intros (S1 & S2 & S3).
  destruct (parse_numeric_ok _ _ _ _ S1) as (ranges & E1 & L1 & V1).
  destruct (parse_blooms_ok _ _ _ _ S2) as (sb & E2 & L2 & V2).
  destruct (parse_blooms_ok _ _ _ _ S3) as (tb & E3 & L3 & V3).
  rewrite Z.add_0_l in E1. do 5 eexists. split; [exact E1|]. split; [exact E2|].
  split; [by eexists|]. by split.
Qed.

(** C1: pruning never loses a row: with the summary that [write_filter_summary]
    writes for a leaf, [summary_may_match] keeps the leaf for every query that
    one of its rows satisfies, in the three-valued logic of [query_sem].

    The conditions.  Of the query ([summary_query]): no geo predicate, and each
    constant compared with a numeric column is exactly a value of the column's
    type, of magnitude below [2^53] for the integers (a [float] column compared
    with 0.1 is lost: [float_constant_divergence]).  Of the leaf
    ([summary_columns]): fewer than 256 columns, the column data tagged with the
    schema's types, [int64] values below [2^53] in magnitude, and no validity
    flag set on a column that is not nullable ([nonnullable_mask_divergence]). *)
Theorem summary_prunes_soundly size buf preds pcis geo i :
  summary_size schema kBloomThreshold = Ok size → zlen buf = size → Forall is_byte buf →
  summary_query preds pcis → query_sem (columns schema) tbl i preds pcis →
  ∃ buf', write_filter_summary buf size schema (Z.of_nat n) fcs = Ok buf' ∧
    summary_may_match buf' size schema preds pcis geo = Ok true.
Proof.
  intros Hsz Hlen Hb Hq Hsem. destruct (decide (columns schema = [])) as [He|Hne].
  { unfold summary_size in Hsz. rewrite He in Hsz. injection Hsz as <-.
    exists buf. split; [done|]. done. }
  destruct (write_summary_ok n _ fcs tbl Htbl Hsum Hcols schema size buf eq_refl Hne Hsz Hlen Hb)
    as (buf' & E & _ & Hs).
  exists buf'. split; [done|]. unfold summary_may_match.
  destruct ((size =? 0) || bool_decide (preds = [])); [done|].
  destruct (summary_parsed _ Hs) as (ranges & sb & tb & q1 & q2 & E1 & E2 & (q3 & E3) & Hp).
  unfold kBloomThreshold. rewrite E1, bind_Ok, bloom_max_bytes_150, bind_Ok, E2, bind_Ok, E3, bind_Ok.
  by apply (preds_pruned_soundly _ _ _ _ i preds pcis geo []).
Qed.
End sound.

(** ** Witness and divergences *)

#[local] Existing Instance w_hash.
#[local] Existing Instance w_libm.

Lemma w_summary_size : summary_size w_schema kBloomThreshold = Ok 386.
Proof. reflexivity. Qed.

Lemma w_sem : query_sem (columns w_schema) w_tbl1 0 w_preds [0; 1; 2; 0].
Proof.
  intros [|[|[|[|p]]]] pred ci Hp Hc; simpl in Hp, Hc; simplify_eq.
  - exists (mkColumn [97] String true), ([CStr [104; 105]; CStr []], [0; 1]), (CStr [104; 105]), 0. done.
  - exists (mkColumn [98] Int32 false), ([CFixed [1; 2; 3; 4]; CFixed [5; 0; 0; 0]], [0; 0]),
      (CFixed [1; 2; 3; 4]), 0.
    split; [done|]. split; [done|]. split; [done|]. split; [done|].
    cbn. exists 7. by split.
  - exists (mkColumn [99] Set_ true), ([CSet [[120]; [121; 122]]; CSet []], [0; 0]),
      (CSet [[120]; [121; 122]]), 0.
    split; [done|]. split; [done|]. split; [done|]. split; [done|].
    cbn. exists [120]. split; [right; left|left].
  - exists (mkColumn [97] String true), ([CStr [104; 105]; CStr []], [0; 1]), (CStr [104; 105]), 0.
    split; [done|]. split; [done|]. split; [done|]. split; [done|]. cbn. left.
Qed.

Lemma w_prunable : summary_query w_schema w_preds [0; 1; 2; 0].
Proof.
  repeat apply Forall2_cons_2; [..|constructor]; (split; [done|]); intros col Hcol;
    simpl in Hcol; simplify_eq; (split; [done|]); [done| |done..].
  split; [exists 7|exists 0]; by split_and!.
Qed.

Lemma summary_prunes_soundly_witness :
  ∃ buf', write_filter_summary (replicate 386 0) 386 w_schema 2 w_fcs1 = Ok buf' ∧
    summary_may_match buf' 386 w_schema w_preds [0; 1; 2; 0] [] = Ok true.
Proof.
  apply (summary_prunes_soundly 2 w_schema w_fcs1 w_tbl1 w_table1) with (i := 0%nat).
  - repeat (constructor; [split_and!; [done|by repeat constructor|done]|]). constructor.
  - by vm_compute.
  - exact w_summary_size.
  - done.
  - by apply Forall_replicate.
  - exact w_prunable.
  - exact w_sem.
Defined.

(** A leaf with one row, the string [s], and its summary. *)
Definition w_str_schema : Schema := mkSchema [mkColumn [97] String false] false.
Definition w_str_leaf (rows : list (list Z)) : list ColumnData :=
  canon_columns (columns w_str_schema) [(CStr <$> rows, (λ _, 0) <$> rows)].
Definition w_str_summary (rows : list (list Z)) : res (list Z) :=
  write_filter_summary (replicate 186 0) 186 w_str_schema (zlen rows) (w_str_leaf rows).

Definition w_eq (s : list Z) : Predicate := w_pred OpEq (S754_zero false) s [].

(** Each leaf's own summary keeps it for a string it has; the union of the two
    does not: their blooms have 16 and 24 bits, and a bit set modulo 16 is looked
    for modulo 24. *)
Lemma merge_loses_string :
  ∃ a b m, w_str_summary [[104]] = Ok a ∧ w_str_summary [[3]; [4]] = Ok b ∧
    merge_filter_summary a b 186 = Ok m ∧
    summary_may_match a 186 w_str_schema [w_eq [104]] [0] [] = Ok true ∧
    summary_may_match m 186 w_str_schema [w_eq [104]] [0] [] = Ok false.
Proof.
  assert (w_str_summary [[104]] ≫= (λ a, summary_may_match a 186 w_str_schema [w_eq [104]] [0] [])
    = Ok true) as E1 by (by vm_compute).
  assert (w_str_summary [[104]] ≫= (λ a, w_str_summary [[3]; [4]] ≫= λ b,
    merge_filter_summary a b 186 ≫= λ m,
    summary_may_match m 186 w_str_schema [w_eq [104]] [0] []) = Ok false) as E2 by (by vm_compute).
  apply bind_Ok_inv in E2 as (a & Ha & E2). apply bind_Ok_inv in E2 as (b & Hb & E2).
  apply bind_Ok_inv in E2 as (m & Hm & E2). rewrite Ha, bind_Ok in E1.
  exists a, b, m. exact (conj Ha (conj Hb (conj Hm (conj E1 E2)))).
Qed.

(** A [float] row equals the constant 0.1 once the constant is rounded to
    [float], as [eval_predicate] does; the summary compares the unrounded one and
    discards the leaf. *)
Definition w_float_schema : Schema := mkSchema [mkColumn [97] Float false] false.
Definition w_float_cd : ColumnData :=
  canon Float [CFixed [205; 204; 204; 61]] [].
Definition d_0_1 : double := S754_finite false 7205759403792794 (-56).

Lemma float_constant_divergence :
  eval_predicate [205; 204; 204; 61] (mkView Float None 0 4 0 0 0 0 0 0 0 0) 0 (w_pred OpEq d_0_1 [] [])
    = Ok true ∧
  (s ← write_filter_summary (replicate 20 0) 20 w_float_schema 1 [w_float_cd];
   summary_may_match s 20 w_float_schema [w_pred OpEq d_0_1 [] []] [0] []) = Ok false.
Proof. split; by vm_compute. Qed.

(** A flag of a column that is not nullable: [eval_predicate] never sees it, the
    summary leaves the row out. *)
Lemma nonnullable_mask_divergence :
  eval_predicate [205; 204; 204; 61] (mkView Float None 0 4 0 0 0 0 0 0 0 0) 0
    (w_pred OpGt (S754_zero false) [] []) = Ok true ∧
  (s ← write_filter_summary (replicate 20 0) 20 w_float_schema 1
      [canon Float [CFixed [205; 204; 204; 61]] [1]];
   summary_may_match s 20 w_float_schema [w_pred OpGt (S754_zero false) [] []] [0] []) = Ok false.
Proof. split; by vm_compute. Qed.
