(* ===== verification/PageFile.v ===== *)
(** * PageFile: page-granular file I/O ([src/tree/page_file.cpp])

    The file is its byte contents.  [pread]/[pwrite] are kernel calls that may
    transfer fewer bytes than asked: how many is a parameter ([kread], [kwrite]),
    and the loops of [read_pages] / [write_pages] run until the whole range is
    transferred.  [PageStore] is the interface the allocator, the superblock
    and fsck are written against; the last section discharges it for the file. *)
From S2P Require Import Prelude.

Definition kPageSize : Z := 4096.
Definition kInvalidPage : Z := UINT64_MAX.

(** ** The page-store interface *)

(** [ps_page f p] is the content of page [p] (zeros past the end): the
    specification view the laws of the operations are stated with. *)
Class PageStore (F : Type) := {
  num_pages : F → Z;
  read_pages : F → Z → Z → res (list Z);
  write_pages : F → Z → Z → list Z → res F;
  truncate : F → Z → res F;
  ps_page : F → Z → list Z;
  ps_wf : F → Prop;
}.

Definition read_page `{PageStore F} (f : F) (page : Z) : res (list Z) :=
  read_pages f page 1.
Definition write_page `{PageStore F} (f : F) (page : Z) (buf : list Z) : res F :=
  write_pages f page 1 buf.

(** Page [q] of a buffer of pages that starts at page [p]. *)
Definition page_slice (bs : list Z) (k : Z) : list Z :=
  bytes_at bs (Z.to_nat (k * kPageSize)) (Z.to_nat kPageSize).

Definition zero_page : list Z := replicate (Z.to_nat kPageSize) 0.

Ltac page_lia := unfold kPageSize in *; lia.
Ltac page_div_lia := unfold kPageSize in *; Z.div_mod_to_equations; lia.

(** The file sizes the page arithmetic is exact for: the byte size fits [off_t]. *)
Definition max_pages : Z := 2 ^ 51.

Class PageStoreLaws (F : Type) `{PageStore F} := {
  ps_num_nonneg f : ps_wf f → 0 ≤ num_pages f ≤ max_pages;
  ps_page_length f p : ps_wf f → length (ps_page f p) = Z.to_nat kPageSize;
  ps_page_bytes f p : ps_wf f → Forall is_byte (ps_page f p);
  ps_page_beyond f p : ps_wf f → num_pages f ≤ p → ps_page f p = zero_page;
  ps_read_none f p : read_pages f p 0 = Ok [];
  ps_read_ok f p n :
    ps_wf f → 0 ≤ p → 0 < n → p + n ≤ num_pages f →
    ∃ bs, read_pages f p n = Ok bs ∧
      length bs = Z.to_nat (n * kPageSize) ∧
      ∀ k, 0 ≤ k < n → page_slice bs k = ps_page f (p + k);
  ps_read_eof f p n :
    ps_wf f → 0 ≤ p → 0 < n → num_pages f < p + n →
    read_pages f p n = throw CorruptIndex;
  ps_write_ok f p n bs :
    ps_wf f → 0 ≤ p → 0 < n → p + n ≤ max_pages →
    length bs = Z.to_nat (n * kPageSize) → Forall is_byte bs →
    ∃ f', write_pages f p n bs = Ok f' ∧ ps_wf f' ∧
      num_pages f' = Z.max (num_pages f) (p + n) ∧
      ∀ q, 0 ≤ q → ps_page f' q =
        if decide (p ≤ q < p + n) then page_slice bs (q - p) else ps_page f q;
  ps_truncate_ok f n :
    ps_wf f → 0 ≤ n ≤ max_pages →
    ∃ f', truncate f n = Ok f' ∧ ps_wf f' ∧ num_pages f' = n ∧
      ∀ q, 0 ≤ q → ps_page f' q = if decide (q < n) then ps_page f q else zero_page;
}.

Lemma byte_at_page_slice bs k i :
  byte_at (page_slice bs k) i =
    if decide (i < Z.to_nat kPageSize)%nat
    then byte_at bs (Z.to_nat (k * kPageSize) + i) else 0.
Proof. apply byte_at_bytes_at. Qed.

(** A buffer of pages is determined by its pages. *)
Lemma page_slices_ext bs bs' n :
  length bs = Z.to_nat (n * kPageSize) → length bs' = Z.to_nat (n * kPageSize) →
  (∀ k, 0 ≤ k < n → page_slice bs k = page_slice bs' k) → bs = bs'.
Proof.
  intros Hl Hl' Hk. apply bytes_ext; [by rewrite Hl, Hl'|]. intros i Hi.
  set (k := Z.of_nat i / kPageSize). set (r := Z.of_nat i mod kPageSize).
  assert (Z.of_nat i = kPageSize * k + r ∧ 0 ≤ r < kPageSize) as [Hdiv Hr]
    by (subst k r; unfold kPageSize in *; split; [apply Z.div_mod|apply Z.mod_pos_bound]; lia).
  rewrite Hl in Hi. assert (0 ≤ k < n) as Hkn by page_lia.
  specialize (Hk k Hkn). apply (f_equal (λ l, byte_at l (Z.to_nat r))) in Hk.
  rewrite !byte_at_page_slice, !decide_True in Hk by lia.
  replace (Z.to_nat (k * kPageSize) + Z.to_nat r)%nat with i in Hk by page_lia. done.
Qed.

Section store_lemmas.
Context `{PageStoreLaws F}.
Implicit Types f : F.

Lemma page_slice_single bs : length bs = Z.to_nat kPageSize → page_slice bs 0 = bs.
Proof. intros Hl. unfold page_slice. rewrite Z.mul_0_l. by apply bytes_at_exact. Qed.

(** Reading one page inside the file gives its contents. *)
Lemma read_page_ok f p :
  ps_wf f → 0 ≤ p < num_pages f → read_page f p = Ok (ps_page f p).
Proof.
  intros Hwf Hp. destruct (ps_read_ok f p 1) as (bs & E & Hl & Hs); [done|lia..|].
  unfold read_page. rewrite E. f_equal.
  rewrite <- (page_slice_single bs) by (rewrite Hl; f_equal; lia).
  rewrite Hs by lia. f_equal. lia.
Qed.

(** A read that succeeds is a read inside the file. *)
Lemma read_inside f p n bs :
  ps_wf f → 0 ≤ p → 0 < n → read_pages f p n = Ok bs →
  p + n ≤ num_pages f ∧ length bs = Z.to_nat (n * kPageSize) ∧
  ∀ k, 0 ≤ k < n → page_slice bs k = ps_page f (p + k).
Proof.
  intros Hwf Hp Hn E. destruct (Z.lt_ge_cases (num_pages f) (p + n)) as [Hlt|Hge].
  - rewrite ps_read_eof in E by done. discriminate E.
  - destruct (ps_read_ok f p n) as (bs' & E' & Hl & Hs); [done..|lia|].
    assert (bs' = bs) as -> by congruence. done.
Qed.

Lemma pages_bytes f bs p n :
  ps_wf f → 0 ≤ n → length bs = Z.to_nat (n * kPageSize) →
  (∀ k, 0 ≤ k < n → page_slice bs k = ps_page f (p + k)) → Forall is_byte bs.
Proof.
  intros Hwf Hn Hl Hs. apply Forall_lookup. intros i b Hi.
  pose proof (lookup_lt_Some _ _ _ Hi) as Hlt. rewrite Hl in Hlt.
  set (k := Z.of_nat i / kPageSize). set (r := Z.of_nat i mod kPageSize).
  assert (Z.of_nat i = kPageSize * k + r ∧ 0 ≤ r < kPageSize) as [Hdiv Hr]
    by (subst k r; unfold kPageSize in *; split; [apply Z.div_mod|apply Z.mod_pos_bound]; lia).
  assert (0 ≤ k < n) as Hk by page_lia.
  pose proof (byte_at_is_byte _ (Z.to_nat r) (ps_page_bytes f (p + k) Hwf)) as Hb.
  rewrite <- Hs, byte_at_page_slice, decide_True in Hb by (done || page_lia).
  replace (Z.to_nat (k * kPageSize) + Z.to_nat r)%nat with i in Hb by page_lia.
  unfold byte_at in Hb. by rewrite Hi in Hb.
Qed.

Lemma read_bytes f p n bs : ps_wf f → 0 ≤ p → 0 ≤ n → read_pages f p n = Ok bs → Forall is_byte bs.
Proof.
  intros Hwf Hp Hn E. destruct (Z.eq_dec n 0) as [->|Hne].
  - rewrite ps_read_none in E. by injection E as <-.
  - destruct (read_inside f p n bs Hwf Hp ltac:(lia) E) as (_ & Hl & Hs).
    by apply (pages_bytes f bs p n).
Qed.

(** The same pages are read the same. *)
Lemma read_same f f' p n bs :
  ps_wf f → ps_wf f' → 0 ≤ p → 0 ≤ n → num_pages f ≤ num_pages f' →
  (∀ q, p ≤ q < p + n → ps_page f' q = ps_page f q) →
  read_pages f p n = Ok bs → read_pages f' p n = Ok bs.
Proof.
  intros Hwf Hwf' Hp Hn Hle Hq E. destruct (Z.eq_dec n 0) as [->|Hne].
  { rewrite ps_read_none in *. done. }
  destruct (read_inside f p n bs Hwf Hp ltac:(lia) E) as (Hin & Hl & Hs).
  destruct (ps_read_ok f' p n) as (bs' & E' & Hl' & Hs'); [done|done|lia|lia|].
  rewrite E'. f_equal. apply (page_slices_ext _ _ n); [done..|]. intros k Hk.
  rewrite Hs, Hs' by done. apply Hq. lia.
Qed.

Lemma write_page_ok f p bs :
  ps_wf f → 0 ≤ p < max_pages → length bs = Z.to_nat kPageSize → Forall is_byte bs →
  ∃ f', write_page f p bs = Ok f' ∧ ps_wf f' ∧
    num_pages f' = Z.max (num_pages f) (p + 1) ∧
    ∀ q, 0 ≤ q → ps_page f' q = if decide (q = p) then bs else ps_page f q.
Proof.
  intros Hwf Hp Hl Hb.
  destruct (ps_write_ok f p 1 bs) as (f' & E & Hwf' & Hn & Hq);
    [done|lia..|by rewrite Hl|done|].
  exists f'. split_and!; [done..|]. intros q Hq0. rewrite Hq by done.
  destruct (decide (q = p)) as [->|Hne].
  - rewrite decide_True, Z.sub_diag by lia. by apply page_slice_single.
  - rewrite decide_False by lia. done.
Qed.
End store_lemmas.

(** ** The file *)

Record PageFile := mkPageFile { pf_bytes : list Z }.

Definition pf_num_pages (f : PageFile) : Z :=
  (Z.of_nat (length (pf_bytes f)) + kPageSize - 1) / kPageSize.

(** [ftruncate]: cut, or extend with zeros. *)
Definition pf_truncate (f : PageFile) (n : Z) : res PageFile :=
  Ok (mkPageFile (resize (Z.to_nat (n * kPageSize)) 0 (pf_bytes f))).

(** A positional write, filling a hole past the end with zeros. *)
Definition file_write (b : list Z) (off : nat) (bs : list Z) : list Z :=
  take off b ++ replicate (off - length b) 0 ++ bs ++ drop (off + length bs) b.

Section kernel.
(** Bytes the kernel transfers for a request at an offset of a given size;
    negative is an error return. *)
Context (kread kwrite : Z → Z → Z).

Definition pread (f : PageFile) (off count : Z) : Z * list Z :=
  let avail := Z.of_nat (length (pf_bytes f)) - off in
  if avail <=? 0 then (0, [])
  else let n := kread off (Z.min count avail) in
       (n, bytes_at (pf_bytes f) (Z.to_nat off) (Z.to_nat n)).

Definition pwrite (f : PageFile) (off : Z) (bs : list Z) : Z * PageFile :=
  let n := kwrite off (Z.of_nat (length bs)) in
  (n, if n <=? 0 then f
      else mkPageFile (file_write (pf_bytes f) (Z.to_nat off) (take (Z.to_nat n) bs))).

(** [while (total < count)] of [PageFile::read_pages]. *)
Fixpoint read_loop (fuel : nat) (f : PageFile) (off count total : Z) (buf : list Z)
    : res (list Z) :=
  match fuel with
  | O => Err OutOfFuel
  | Datatypes.S fuel' =>
      if total <? count then
        let '(n, bs) := pread f (off + total) (count - total) in
        if n <? 0 then throw IoError
        else if n =? 0 then throw CorruptIndex
        else read_loop fuel' f off count (total + n) (buf ++ bs)
      else Ok buf
  end.

Definition pf_read_pages (f : PageFile) (page n : Z) : res (list Z) :=
  if n =? 0 then Ok []
  else let off := page * kPageSize in
       let count := n * kPageSize in
       read_loop (Datatypes.S (Z.to_nat count)) f off count 0 [].

(** [while (total < count)] of [PageFile::write_pages]. *)
Fixpoint write_loop (fuel : nat) (f : PageFile) (off total : Z) (buf : list Z)
    : res PageFile :=
  match fuel with
  | O => Err OutOfFuel
  | Datatypes.S fuel' =>
      if total <? Z.of_nat (length buf) then
        let '(n, f') := pwrite f (off + total) (drop (Z.to_nat total) buf) in
        if n <? 0 then throw IoError
        else if n =? 0 then throw IoError
        else write_loop fuel' f' off (total + n) buf
      else Ok f
  end.

(** [buf] holds at least the [n] pages written. *)
Definition pf_write_pages (f : PageFile) (page n : Z) (buf : list Z) : res PageFile :=
  if n =? 0 then Ok f
  else let count := Z.to_nat (n * kPageSize) in
       if Nat.ltb (length buf) count then Err UndefinedBehaviour
       else write_loop (Datatypes.S count) f (page * kPageSize) 0 (take count buf).

(** *** Byte view *)

Definition pf_page (f : PageFile) (p : Z) : list Z :=
  (λ i, byte_at (pf_bytes f) (Z.to_nat (p * kPageSize) + i)) <$> seq 0 (Z.to_nat kPageSize).

Definition pf_wf (f : PageFile) : Prop :=
  ∃ n : Z, 0 ≤ n ≤ max_pages ∧ length (pf_bytes f) = Z.to_nat (n * kPageSize) ∧
    Forall is_byte (pf_bytes f).

Definition PageFile_store : PageStore PageFile := {|
  num_pages := pf_num_pages;
  read_pages := pf_read_pages;
  write_pages := pf_write_pages;
  truncate := pf_truncate;
  ps_page := pf_page;
  ps_wf := pf_wf;
|}.

Lemma byte_at_file_write b off bs i :
  byte_at (file_write b off bs) i =
    if decide (off ≤ i < off + length bs)%nat then byte_at bs (i - off) else byte_at b i.
Proof. unfold file_write. byte_cases. Qed.

Lemma length_file_write b off bs :
  bs ≠ [] → length (file_write b off bs) = (length b `max` (off + length bs))%nat.
Proof. intros Hne. unfold file_write. autorewrite with bytes. lia. Qed.

Lemma file_write_app b off x y :
  x ≠ [] → y ≠ [] →
  file_write (file_write b off x) (off + length x) y = file_write b off (x ++ y).
Proof.
  intros Hx Hy. assert (x ++ y ≠ []) as Hxy by (by destruct x).
  apply bytes_ext.
  - rewrite !length_file_write, length_app by done. lia.
  - intros i _. rewrite !byte_at_file_write. byte_cases.
Qed.

Lemma file_write_bytes b off bs :
  Forall is_byte b → Forall is_byte bs → Forall is_byte (file_write b off bs).
Proof.
  intros Hb Hbs. unfold file_write.
  rewrite !Forall_app. split_and!.
  - by apply Forall_take.
  - apply Forall_replicate. by vm_compute.
  - done.
  - by apply Forall_drop.
Qed.

(** The kernel transfers at least one byte of a request it can serve. *)
Hypothesis kread_ok : ∀ off c, 0 < c → 1 ≤ kread off c ≤ c.
Hypothesis kwrite_ok : ∀ off c, 0 < c → 1 ≤ kwrite off c ≤ c.

Lemma read_loop_ok fuel f off count total buf :
  0 ≤ off → 0 ≤ total ≤ count → (Z.to_nat (count - total) < fuel)%nat →
  off + count ≤ Z.of_nat (length (pf_bytes f)) →
  read_loop fuel f off count total buf =
    Ok (buf ++ bytes_at (pf_bytes f) (Z.to_nat (off + total)) (Z.to_nat (count - total))).
Proof.
  intros Hoff. revert total buf.
  induction fuel as [|fuel IH]; intros total buf Ht Hf Hlen; [lia|]. cbn [read_loop].
  destruct (Z.ltb_spec total count) as [Hlt|Hge].
  - unfold pread. destruct (Z.leb_spec (Z.of_nat (length (pf_bytes f)) - (off + total)) 0); [lia|].
    set (n := kread _ _). assert (1 ≤ n ≤ count - total) as Hn.
    { subst n. rewrite Z.min_l by lia. apply kread_ok. lia. }
    destruct (Z.ltb_spec n 0); [lia|]. destruct (Z.eqb_spec n 0); [lia|].
    rewrite IH by lia. f_equal. rewrite <- app_assoc. f_equal. apply bytes_ext.
    + unfold bytes_at. autorewrite with bytes. lia.
    + intros i Hi. unfold bytes_at in Hi. autorewrite with bytes in Hi.
      autorewrite with bytes. unfold bytes_at. byte_cases.
  - replace (count - total) with 0 by lia. simpl. unfold bytes_at. by rewrite take_0, app_nil_r.
Qed.

Lemma read_loop_eof fuel f off count total buf :
  0 ≤ off → 0 ≤ total < count → (Z.to_nat (count - total) < fuel)%nat →
  off + total ≤ Z.of_nat (length (pf_bytes f)) < off + count ∨
    total = 0 ∧ Z.of_nat (length (pf_bytes f)) < off + count →
  read_loop fuel f off count total buf = throw CorruptIndex.
Proof.
  intros Hoff. revert total buf.
  induction fuel as [|fuel IH]; intros total buf Ht Hf Hlen; [lia|]. cbn [read_loop].
  destruct (Z.ltb_spec total count) as [Hlt|Hge]; [|lia].
  unfold pread. destruct (Z.leb_spec (Z.of_nat (length (pf_bytes f)) - (off + total)) 0); [done|].
  set (n := kread _ _).
  assert (1 ≤ n ≤ Z.min (count - total) (Z.of_nat (length (pf_bytes f)) - (off + total))) as Hn.
  { subst n. apply kread_ok. lia. }
  destruct (Z.ltb_spec n 0); [lia|]. destruct (Z.eqb_spec n 0); [lia|].
  apply IH; lia.
Qed.

Lemma write_loop_ok fuel f b off total buf :
  0 ≤ off → 0 ≤ total ≤ Z.of_nat (length buf) → buf ≠ [] →
  (Z.to_nat (Z.of_nat (length buf) - total) < fuel)%nat →
  pf_bytes f = (if decide (total = 0) then b
                else file_write b (Z.to_nat off) (take (Z.to_nat total) buf)) →
  write_loop fuel f off total buf = Ok (mkPageFile (file_write b (Z.to_nat off) buf)).
Proof.
  intros Hoff. revert f total.
  induction fuel as [|fuel IH]; intros f total Ht Hne Hf Hb; [lia|]. cbn [write_loop].
  destruct (Z.ltb_spec total (Z.of_nat (length buf))) as [Hlt|Hge].
  - unfold pwrite. rewrite length_drop. set (n := kwrite _ _).
    assert (1 ≤ n ≤ Z.of_nat (length buf) - total) as Hn.
    { subst n. replace (Z.of_nat (length buf) - total)
        with (Z.of_nat (length buf - Z.to_nat total)) by lia. apply kwrite_ok. lia. }
    destruct (Z.leb_spec n 0); [lia|]. destruct (Z.ltb_spec n 0); [lia|].
    destruct (Z.eqb_spec n 0); [lia|]. apply IH; [lia|done|lia|]. simpl.
    rewrite decide_False by lia. rewrite Hb, (Z2Nat.inj_add off), (Z2Nat.inj_add total), <- take_take_drop by lia. clear Hb.
    case_decide as Ht0; [subst total; simpl; by rewrite drop_0, Nat.add_0_r|].
    rewrite <- file_write_app.
    + do 2 f_equal. rewrite length_take. lia.
    + intros E%(f_equal length). rewrite length_take in E. simpl in E. lia.
    + intros E%(f_equal length). rewrite length_take, length_drop in E. simpl in E. lia.
  - replace total with (Z.of_nat (length buf)) in * by lia. rewrite decide_False in Hb.
    + rewrite Nat2Z.id, firstn_all in Hb. destruct f; simpl in Hb. by subst.
    + destruct buf; [done|simpl; lia].
Qed.

Lemma byte_at_pf_page f p i :
  byte_at (pf_page f p) i =
    if decide (i < Z.to_nat kPageSize)%nat
    then byte_at (pf_bytes f) (Z.to_nat (p * kPageSize) + i) else 0.
Proof.
  unfold byte_at at 1, pf_page. rewrite list_lookup_fmap. case_decide.
  - by rewrite lookup_seq_lt.
  - by rewrite lookup_seq_ge by lia.
Qed.

Lemma length_pf_page f p : length (pf_page f p) = Z.to_nat kPageSize.
Proof. unfold pf_page. by rewrite length_fmap, length_seq. Qed.

Lemma pf_num_pages_wf f n :
  0 ≤ n → length (pf_bytes f) = Z.to_nat (n * kPageSize) → pf_num_pages f = n.
Proof.
  intros Hn Hl. unfold pf_num_pages. rewrite Hl, Z2Nat.id by page_lia.
  unfold kPageSize. symmetry. apply Z.div_unique with 4095; lia.
Qed.

(** Closes the goals about bytes of pages that are left once every file
    operation is in the byte view. *)
Ltac page_ext :=
  apply bytes_ext; [try (rewrite ?length_pf_page; autorewrite with bytes; page_lia)|].

Lemma pf_read_ok f p n :
  pf_wf f → 0 ≤ p → 0 < n → p + n ≤ pf_num_pages f →
  pf_read_pages f p n =
    Ok (bytes_at (pf_bytes f) (Z.to_nat (p * kPageSize)) (Z.to_nat (n * kPageSize))).
Proof.
  intros (m & Hm & Hl & _) Hp Hn Hpn. rewrite (pf_num_pages_wf f m) in Hpn by (done || lia).
  unfold pf_read_pages. destruct (Z.eqb_spec n 0); [lia|].
  rewrite read_loop_ok by (rewrite ?Hl; page_lia). simpl. by rewrite Z.add_0_r, Z.sub_0_r.
Qed.

Lemma pf_write_ok f p n bs :
  0 ≤ p → 0 < n → length bs = Z.to_nat (n * kPageSize) →
  pf_write_pages f p n bs =
    Ok (mkPageFile (file_write (pf_bytes f) (Z.to_nat (p * kPageSize)) bs)).
Proof.
  intros Hp Hn Hl. unfold pf_write_pages. destruct (Z.eqb_spec n 0); [lia|].
  rewrite <- Hl, Nat.ltb_irrefl, firstn_all.
  apply write_loop_ok; [page_lia|lia| |lia|done].
  intros ->. simpl in Hl. page_lia.
Qed.

Lemma pf_write_wf f p n bs :
  pf_wf f → 0 ≤ p → 0 < n → p + n ≤ max_pages →
  length bs = Z.to_nat (n * kPageSize) → Forall is_byte bs →
  let f' := mkPageFile (file_write (pf_bytes f) (Z.to_nat (p * kPageSize)) bs) in
  pf_wf f' ∧ pf_num_pages f' = Z.max (pf_num_pages f) (p + n).
Proof.
  intros (m & Hm & Hl & Hb) Hp Hn Hmax Hbs Hby. simpl.
  assert (bs ≠ []) as Hne by (intros ->; simpl in Hbs; page_lia).
  assert (length (file_write (pf_bytes f) (Z.to_nat (p * kPageSize)) bs)
          = Z.to_nat (Z.max m (p + n) * kPageSize)) as Hlen.
  { rewrite length_file_write, Hl, Hbs by done. page_lia. }
  rewrite (pf_num_pages_wf f m) by (done || lia). split.
  - exists (Z.max m (p + n)). split_and!; [lia|lia|done|]. by apply file_write_bytes.
  - apply pf_num_pages_wf; [lia|done].
Qed.

Lemma length_page_slice bs n k :
  length bs = Z.to_nat (n * kPageSize) → 0 ≤ k < n →
  length (page_slice bs k) = Z.to_nat kPageSize.
Proof.
  intros Hl Hk. unfold page_slice, bytes_at. autorewrite with bytes. rewrite Hl. page_lia.
Qed.

Lemma pf_page_beyond f p : pf_wf f → pf_num_pages f ≤ p → pf_page f p = zero_page.
Proof.
  intros (m & Hm & Hl & _) Hp. rewrite (pf_num_pages_wf f m) in Hp by (done || lia).
  apply bytes_ext; [by rewrite length_pf_page; unfold zero_page; autorewrite with bytes|].
  intros i _. rewrite byte_at_pf_page. unfold zero_page. rewrite byte_at_zeros.
  case_decide; [|done]. apply byte_at_ge. rewrite Hl. page_lia.
Qed.

Lemma pf_read_slices f p n :
  pf_wf f → 0 ≤ p → 0 < n → p + n ≤ pf_num_pages f →
  ∃ bs, pf_read_pages f p n = Ok bs ∧ length bs = Z.to_nat (n * kPageSize) ∧
    ∀ k, 0 ≤ k < n → page_slice bs k = pf_page f (p + k).
Proof.
  intros Hwf Hp Hn Hpn. rewrite pf_read_ok by done.
  destruct Hwf as (m & Hm & Hl & _). rewrite (pf_num_pages_wf f m) in Hpn by (done || lia).
  set (bs := bytes_at _ _ _).
  assert (length bs = Z.to_nat (n * kPageSize)) as Hbs.
  { subst bs. unfold bytes_at. autorewrite with bytes. rewrite Hl. page_lia. }
  exists bs. split_and!; [done..|]. intros k Hk. apply bytes_ext.
  - by rewrite (length_page_slice _ n), length_pf_page.
  - intros i _. rewrite byte_at_page_slice, byte_at_pf_page. subst bs.
    repeat case_decide; [|done]. rewrite byte_at_bytes_at, decide_True by page_lia.
    f_equal. page_lia.
Qed.

Lemma pf_write_page_view f p n bs q :
  pf_wf f → 0 ≤ p → 0 < n → length bs = Z.to_nat (n * kPageSize) → 0 ≤ q →
  pf_page (mkPageFile (file_write (pf_bytes f) (Z.to_nat (p * kPageSize)) bs)) q =
    if decide (p ≤ q < p + n) then page_slice bs (q - p) else pf_page f q.
Proof.
  intros Hwf Hp Hn Hl Hq. apply bytes_ext.
  - rewrite length_pf_page. case_decide.
    + by rewrite (length_page_slice _ n) by (done || lia).
    + by rewrite length_pf_page.
  - intros i Hi. rewrite length_pf_page in Hi.
    rewrite byte_at_pf_page, decide_True by done. cbn [pf_bytes].
    rewrite byte_at_file_write, Hl.
    destruct (decide (p ≤ q < p + n)).
    + rewrite decide_True by page_lia.
      rewrite byte_at_page_slice, decide_True by done. f_equal. page_lia.
    + rewrite decide_False by page_lia. by rewrite byte_at_pf_page, decide_True.
Qed.

Lemma pf_truncate_wf f n :
  pf_wf f → 0 ≤ n ≤ max_pages →
  ∃ f', pf_truncate f n = Ok f' ∧ pf_wf f' ∧ pf_num_pages f' = n ∧
    ∀ q, 0 ≤ q → pf_page f' q = if decide (q < n) then pf_page f q else zero_page.
Proof.
  intros (m & Hm & Hl & Hb) Hn. eexists. split; [done|]. cbn [pf_bytes].
  assert (pf_wf (mkPageFile (resize (Z.to_nat (n * kPageSize)) 0 (pf_bytes f)))) as Hwf.
  { exists n. cbn [pf_bytes]. split_and!; [lia|lia|by rewrite length_resize|].
    apply Forall_resize; [by vm_compute|done]. }
  assert (pf_num_pages (mkPageFile (resize (Z.to_nat (n * kPageSize)) 0 (pf_bytes f))) = n)
    as Hnum by (apply pf_num_pages_wf; [lia|by cbn [pf_bytes]; rewrite length_resize]).
  split_and!; [done..|]. intros q Hq. case_decide as Hqn.
  - apply bytes_ext; [by rewrite !length_pf_page|]. intros i Hi. rewrite length_pf_page in Hi.
    rewrite !byte_at_pf_page, !decide_True by done. cbn [pf_bytes].
    rewrite resize_spec. unfold kPageSize in *. byte_cases.
  - apply pf_page_beyond; [done|]. rewrite Hnum. lia.
Qed.

(** The file, under any kernel that transfers at least one byte of a request
    it can serve, is a page store. *)
Lemma PageFile_laws : @PageStoreLaws PageFile PageFile_store.
Proof.
  constructor; cbn [num_pages read_pages write_pages truncate ps_page ps_wf PageFile_store].
  - intros f (m & Hm & Hl & _). rewrite (pf_num_pages_wf f m) by (done || lia). lia.
  - intros. apply length_pf_page.
  - intros f p (m & _ & _ & Hb). unfold pf_page. apply Forall_fmap, Forall_true.
    intros i. by apply byte_at_is_byte.
  - intros. by apply pf_page_beyond.
  - done.
  - intros. by apply pf_read_slices.
  - intros f p n (m & Hm & Hl & _) Hp Hn Hpn. rewrite (pf_num_pages_wf f m) in Hpn by (done || lia).
    unfold pf_read_pages. destruct (Z.eqb_spec n 0); [lia|].
    apply read_loop_eof; rewrite ?Hl; page_lia.
  - intros f p n bs Hwf Hp Hn Hmax Hl Hb. eexists. split; [by apply pf_write_ok|].
    destruct (pf_write_wf f p n bs) as [Hwf' Hnum]; [done..|].
    split_and!; [done..|]. intros q Hq. by apply pf_write_page_view.
  - intros. by apply pf_truncate_wf.
Qed.
End kernel.

(** ** A concrete store: a kernel that serves every request in full *)

Definition kfull (off c : Z) : Z := c.

Lemma kfull_ok off c : 0 < c → 1 ≤ kfull off c ≤ c.
Proof. unfold kfull. lia. Qed.

#[export] Instance full_store : PageStore PageFile := PageFile_store kfull kfull.
#[export] Instance full_store_laws : PageStoreLaws PageFile :=
  PageFile_laws kfull kfull kfull_ok kfull_ok.

(** A file of [n] zero pages. *)
Definition zero_file (n : Z) : PageFile := mkPageFile (replicate (Z.to_nat (n * kPageSize)) 0).

Lemma zero_file_wf n : 0 ≤ n ≤ max_pages → ps_wf (zero_file n).
Proof.
  intros Hn. exists n. split_and!; [lia|lia|apply length_replicate|].
  apply Forall_replicate. by vm_compute.
Qed.
