(* ===== verification/TreeNodes.v ===== *)
(** * TreeNodes: nodes and leaves on disk ([src/tree/tree_nodes.hpp])

    The header records as byte sequences, their CRC32, and the offsets of the
    regions of a node or a leaf for each leaf family; [LeafFilterLayout] of
    [src/tree/filter_scan.cpp], which finds the regions again.  Integers wrap at
    the widths of the source's types. *)
From S2P Require Import Prelude Doubles PageFile.

Definition kTreeNodeMagic : Z := 0x54524E4F.
Definition kTreeLeafMagic : Z := 0x544C4546.

(** ** CRC32 *)

(** One step of the inner loop that fills the table. *)
Definition crc_shift (c : Z) : Z :=
  if negb (Z.land c 1 =? 0) then Z.lxor 0xEDB88320 (Z.shiftr c 1) else Z.shiftr c 1.

Definition crc_entry (i : Z) : Z := Nat.iter 8 crc_shift i.

Definition crc_table : list Z := crc_entry <$> seqZ 0 256.

Definition crc_step (crc b : Z) : Z :=
  Z.lxor (byte_at crc_table (Z.to_nat (Z.land (Z.lxor crc b) 0xFF))) (Z.shiftr crc 8).

Definition compute_crc32 (data : list Z) : Z :=
  Z.lxor (fold_left crc_step data 0xFFFFFFFF) 0xFFFFFFFF.

Definition header_crc (header : list Z) (bytes_before_crc : Z) : res Z :=
  bs ← mem_read header 0 bytes_before_crc; mret (compute_crc32 bs).

(** ** Header records *)

Record TreeNodeHeader := mkNodeHeader {
  nh_magic : Z;
  nh_magic_pad : Z;
  nh_n_children : Z;
  nh_extent_pages : Z;
  nh_dim : Z;
  nh_reserved : Z;
  nh_header_crc : Z;
}.

Definition node_fields (h : TreeNodeHeader) : list (nat * Z) :=
  [(4%nat, nh_magic h); (4%nat, nh_magic_pad h); (8%nat, nh_n_children h);
   (8%nat, nh_extent_pages h); (2%nat, nh_dim h); (2%nat, nh_reserved h);
   (4%nat, nh_header_crc h)].

Definition node_header_of_bytes (bs : list Z) : TreeNodeHeader :=
  match decode_fields [4; 4; 8; 8; 2; 2; 4]%nat bs with
  | [a; b; c; d; e; f; g] => mkNodeHeader a b c d e f g
  | _ => mkNodeHeader 0 0 0 0 0 0 0
  end.

Record ChildEntry := mkChild {
  child_page : Z;
  child_pages : Z;
  is_leaf : Z;
  ce_reserved : Z;
}.

(** 20 bytes of fields, padded to 24. *)
Definition child_fields (c : ChildEntry) : list (nat * Z) :=
  [(8%nat, child_page c); (8%nat, child_pages c); (2%nat, is_leaf c); (2%nat, ce_reserved c);
   (4%nat, 0)].

Definition child_of_bytes (bs : list Z) : ChildEntry :=
  match decode_fields [8; 8; 2; 2; 4]%nat bs with
  | [a; b; c; d; _] => mkChild a b c d
  | _ => mkChild 0 0 0 0
  end.

Record TreeLeafHeader := mkLeafHeader {
  lh_magic : Z;
  lh_count : Z;
  lh_tombstone_count : Z;
  lh_m4 : Z;
  lh_pq_bits : Z;
  lh_block_bytes : Z;
  lh_codes_per_block : Z;
  lh_extent_pages : Z;
  lh_summary_size : Z;
  lh_n_filter_columns : Z;
  lh_filter_columns_offset : Z;
  lh_payload_extent_page : Z;
  lh_payload_extent_pages : Z;
  lh_summary_dirty : Z;
  lh_next_dirty : Z;
  lh_leaf_state : Z;
  lh_pad1 : Z;
  lh_pad2 : Z;
  lh_centroid_offset : Z;
  lh_codebook_offset : Z;
  lh_plane_offset : Z;
  lh_header_crc : Z;
}.

(** The fields in memory order; the compiler's padding is a field of value 0. *)
Definition leaf_fields (h : TreeLeafHeader) : list (nat * Z) :=
  [(4%nat, lh_magic h); (4%nat, 0); (8%nat, lh_count h); (8%nat, lh_tombstone_count h);
   (2%nat, lh_m4 h); (1%nat, lh_pq_bits h); (1%nat, 0); (4%nat, lh_block_bytes h);
   (4%nat, lh_codes_per_block h); (4%nat, 0); (8%nat, lh_extent_pages h);
   (4%nat, lh_summary_size h); (4%nat, lh_n_filter_columns h); (8%nat, lh_filter_columns_offset h);
   (8%nat, lh_payload_extent_page h); (4%nat, lh_payload_extent_pages h);
   (1%nat, lh_summary_dirty h); (3%nat, 0); (8%nat, lh_next_dirty h);
   (1%nat, lh_leaf_state h); (1%nat, lh_pad1 h); (2%nat, lh_pad2 h);
   (4%nat, lh_centroid_offset h); (4%nat, lh_codebook_offset h); (4%nat, lh_plane_offset h);
   (4%nat, lh_header_crc h); (4%nat, 0)].

Definition leaf_header_zero : TreeLeafHeader :=
  mkLeafHeader 0 0 0 0 0 0 0 0 0 0 0 0 0 0 0 0 0 0 0 0 0 0.

Definition leaf_header_of_bytes (bs : list Z) : TreeLeafHeader :=
  match decode_fields (leaf_fields leaf_header_zero).*1 bs with
  | [a; _; b; c; d; e; _; f; g; _; h; i; j; k; l; m; n; _; o; p; q; r; s; t; u; v; _] =>
      mkLeafHeader a b c d e f g h i j k l m n o p q r s t u v
  | _ => leaf_header_zero
  end.

(** Packed: 12 bytes. *)
Record LeafTableEntry := mkLeafEntry { le_page : Z; le_pages : Z }.

Definition leaf_entry_of_bytes (bs : list Z) : LeafTableEntry :=
  match decode_fields [8; 4]%nat bs with
  | [a; b] => mkLeafEntry a b
  | _ => mkLeafEntry 0 0
  end.

Definition sizeof_TreeNodeHeader : Z := 32.
Definition sizeof_ChildEntry : Z := 24.
Definition sizeof_TreeLeafHeader : Z := 112.
Definition sizeof_LeafTableEntry : Z := 12.
Definition sizeof_float16 : Z := 2.
Definition sizeof_RowId : Z := 8.

(** ** Internal nodes *)

(** [(raw + align - 1) & ~(align - 1)] on [uint64_t]. *)
Definition align_up64 (align raw : Z) : Z := Z.land (u64 (raw + align - 1)) (UINT64_MAX - (align - 1)).

Definition child_entry_size (dim summary_size : Z) : Z :=
  let raw := u32 (sizeof_ChildEntry + dim * sizeof_float16 + summary_size) in
  Z.land (u32 (raw + 8 - 1)) (UINT32_MAX - (8 - 1)).

Definition node_extent_bytes (dim n_children summary_size : Z) : Z :=
  u64 (sizeof_TreeNodeHeader + u64 (child_entry_size dim summary_size * n_children)).

Definition pages_of (bytes : Z) : Z := u64 (bytes + kPageSize - 1) / kPageSize.

Definition node_extent_pages (dim n_children summary_size : Z) : Z :=
  pages_of (node_extent_bytes dim n_children summary_size).

(** ** Leaves: product-quantised codes in blocks *)

Definition leaf_filter_offset : Z := sizeof_TreeLeafHeader.

Definition leaf_codes_offset (summary_size : Z) : Z :=
  align_up64 8 (sizeof_TreeLeafHeader + summary_size).

Definition leaf_rowids_offset (summary_size n_blocks block_bytes : Z) : Z :=
  u64 (leaf_codes_offset summary_size + u64 (n_blocks * block_bytes)).

Definition codes_per_block (pq_bits : Z) : Z := if pq_bits =? 4 then 32 else 16.

Definition leaf_extent_bytes (count m4 pq_bits summary_size filter_cols_bytes : Z) : Z :=
  let cpb := codes_per_block pq_bits in
  let block_bytes := m4 * 16 in
  let n_blocks := u32 (u64 (count + cpb - 1) / cpb) in
  let codes := u64 (n_blocks * block_bytes) in
  let rowids := u64 (count * sizeof_RowId) in
  u64 (leaf_codes_offset summary_size + codes + rowids + filter_cols_bytes).

Definition leaf_extent_pages (count m4 pq_bits summary_size filter_cols_bytes : Z) : Z :=
  u32 (pages_of (leaf_extent_bytes count m4 pq_bits summary_size filter_cols_bytes)).

(** ** Row ids, at any alignment *)

Definition load_rowid (buf : list Z) (rowids_base i : Z) : res Z :=
  bs ← mem_read buf (rowids_base + i * sizeof_RowId) sizeof_RowId;
  mret (to_signed 64 (le_dec bs)).

Definition store_rowid (buf : list Z) (rowids_base i v : Z) : res (list Z) :=
  mem_write buf (rowids_base + i * sizeof_RowId) (le_enc 8 v).

(** ** Scalar leaves *)

Definition lsc_levels_offset (summary_size : Z) : Z := leaf_codes_offset summary_size.

Definition lsc_codes_offset (summary_size dim : Z) : Z :=
  u64 (leaf_codes_offset summary_size + 2 * dim * sizeof_float16).

Definition scalar_bias_bytes (count : Z) (has_ip_bias : bool) : Z :=
  if has_ip_bias then u64 (count * sizeof_float16) else 0.

Definition scalar_rowids_offset (summary_size count code_size : Z) (has_ip_bias : bool) : Z :=
  u64 (leaf_codes_offset summary_size + u64 (count * code_size) +
       scalar_bias_bytes count has_ip_bias).

(** ** Leaves with a local codebook *)

(** [dim / m4] divides by zero when [m4] is zero. *)
Definition local_codebook_bytes (m4 dim pq_bits : Z) : res Z :=
  if m4 =? 0 then Err UndefinedBehaviour
  else let K := if pq_bits =? 4 then 16 else 256 in
       let sub_dim := dim / m4 in
       mret (u64 (m4 * K * sub_dim * 4)).

Definition local_centroid_bytes (dim : Z) : Z := dim * 4.

Definition local_centroid_offset (summary_size : Z) : Z :=
  align_up64 16 (sizeof_TreeLeafHeader + summary_size).

Definition local_codebook_offset (summary_size dim : Z) : Z :=
  align_up64 16 (u64 (local_centroid_offset summary_size + local_centroid_bytes dim)).

Definition local_codes_offset (summary_size dim m4 pq_bits : Z) : res Z :=
  cb ← local_codebook_bytes m4 dim pq_bits;
  mret (align_up64 8 (u64 (local_codebook_offset summary_size dim + cb))).

Definition local_rowids_offset (summary_size dim m4 pq_bits n_blocks block_bytes : Z) : res Z :=
  o ← local_codes_offset summary_size dim m4 pq_bits;
  mret (u64 (o + u64 (n_blocks * block_bytes))).

Definition local_coded_extent_bytes (count dim m4 pq_bits summary_size filter_cols_bytes : Z) : res Z :=
  let cpb := codes_per_block pq_bits in
  let block_bytes := m4 * 16 in
  let n_blocks := u32 (u64 (count + cpb - 1) / cpb) in
  let codes := u64 (n_blocks * block_bytes) in
  let rowids := u64 (count * sizeof_RowId) in
  o ← local_codes_offset summary_size dim m4 pq_bits;
  mret (u64 (o + codes + rowids + filter_cols_bytes)).

Definition local_coded_extent_pages (count dim m4 pq_bits summary_size filter_cols_bytes : Z) : res Z :=
  bytes ← local_coded_extent_bytes count dim m4 pq_bits summary_size filter_cols_bytes;
  mret (pages_of bytes).

(** ** Accumulating leaves *)

Definition accum_vectors_offset (summary_size : Z) : Z :=
  align_up64 16 (sizeof_TreeLeafHeader + summary_size).

Definition accum_rowids_offset (summary_size dim count : Z) : Z :=
  u64 (accum_vectors_offset summary_size + u64 (count * dim * 4)).

Definition accum_extent_bytes (count dim summary_size filter_cols_bytes : Z) : Z :=
  u64 (accum_rowids_offset summary_size dim count + u64 (count * sizeof_RowId) + filter_cols_bytes).

Definition accum_extent_pages (count dim summary_size filter_cols_bytes : Z) : Z :=
  pages_of (accum_extent_bytes count dim summary_size filter_cols_bytes).

(** ** Finding the regions of a leaf again *)

Record LeafGeometry := mkGeometry {
  codes_offset : Z;
  rowids_offset : Z;
  filter_offset : Z;
  extent_bytes : Z;
}.

(** Pointers are offsets from the start of the leaf. *)
Record LeafFilterLayout := mkLayout {
  lf_count : Z;
  lf_n_blocks : Z;
  lf_block_bytes : Z;
  lf_codes_per_block : Z;
  lf_summary_size : Z;
  lf_codes : Z;
  lf_row_ids_base : Z;
  lf_filter_base : Z;
}.

Definition layout_compute (leaf : list Z) (m4 pq_bits summary_size : Z) : LeafFilterLayout :=
  let lh := leaf_header_of_bytes leaf in
  let count := u32 (lh_count lh) in
  let cpb := codes_per_block pq_bits in
  let block_bytes := m4 * 16 in
  let n_blocks := u32 (count + cpb - 1) / cpb in
  mkLayout count n_blocks block_bytes cpb summary_size
    (leaf_codes_offset summary_size)
    (leaf_rowids_offset summary_size n_blocks block_bytes)
    (u64 (leaf_rowids_offset summary_size n_blocks block_bytes + count * sizeof_RowId)).

Definition layout_from_geometry (leaf : list Z) (geo : LeafGeometry) : LeafFilterLayout :=
  let lh := leaf_header_of_bytes leaf in
  let count := u32 (lh_count lh) in
  let cpb := codes_per_block (lh_pq_bits lh) in
  mkLayout count (u32 (count + cpb - 1) / cpb) (lh_m4 lh * 16) cpb (lh_summary_size lh)
    (codes_offset geo) (rowids_offset geo) (filter_offset geo).

(** * CRC32 *)

(** *** The reference: long division of polynomials over GF(2)

    IEEE 802.3, 3.2.9.  A polynomial is the list of its coefficients, the highest power
    first.  The message is the bits of its bytes, each byte least significant bit first;
    its first 32 bits are complemented, it is multiplied by [x^32] and divided by the
    generator; the remainder's complement is the CRC, the coefficient of [x^31] in the
    least significant bit. *)

(** The powers of the generator below [x^32]. *)
Definition generator_powers : list nat := [26; 23; 22; 16; 12; 11; 10; 8; 7; 5; 4; 2; 1; 0]%nat.

(** Its coefficients, from [x^31] to [x^0]. *)
Definition generator : list bool := (λ i, bool_decide (31 - i ∈ generator_powers)%nat) <$> seq 0 32.

(** The sum with the front of a longer polynomial. *)
Fixpoint add_front (g l : list bool) : list bool :=
  match g, l with
  | x :: g, y :: l => xorb x y :: add_front g l
  | _, _ => l
  end.

(** [n] steps of the long division by [x^32 + generator]: a leading term is cancelled by
    the divisor's. *)
Fixpoint divide (n : nat) (l : list bool) : list bool :=
  match n, l with
  | S n, lead :: rest => divide n (if lead : bool then add_front generator rest else rest)
  | _, _ => l
  end.

(** The [n] low bits of a number, least significant first; and back. *)
Fixpoint bits_of (n : nat) (b : Z) : list bool :=
  match n with O => [] | S n => Z.odd b :: bits_of n (Z.div2 b) end.

Fixpoint of_bits (l : list bool) : Z :=
  match l with [] => 0 | b :: l => Z.b2z b + 2 * of_bits l end.

Definition message_bits (data : list Z) : list bool := concat (bits_of 8 <$> data).

Definition crc32_reference (data : list Z) : Z :=
  let m := message_bits data in
  of_bits (negb <$> divide (length m) (add_front (replicate 32 true) (m ++ replicate 32 false))).

Definition is_u32 (c : Z) : Prop := 0 ≤ c < 2 ^ 32.

Lemma lt_pow2_bits c n : 0 ≤ c → 0 ≤ n → (∀ i, n ≤ i → Z.testbit c i = false) ↔ (0 ≤ c < 2 ^ n ∨ c = 0).
Proof.
  intros Hc Hn. split.
  - intros Hb. destruct (Z.eq_dec c 0) as [->|Hne]; [by right|left]. split; [done|].
    apply Z.log2_lt_pow2; [lia|]. destruct (Z.lt_ge_cases (Z.log2 c) n) as [|Hge]; [done|].
    specialize (Hb _ Hge). rewrite Z.bit_log2 in Hb by lia. done.
  - intros [Hr | ->] i Hi; [|apply Z.bits_0].
    destruct (Z.eq_dec c 0) as [->|Hne]; [apply Z.bits_0|].
    apply Z.bits_above_log2; [done|]. assert (Z.log2 c < n) by (apply Z.log2_lt_pow2; lia). lia.
Qed.

Lemma bits_high c n i : 0 ≤ c < 2 ^ n → 0 ≤ n → n ≤ i → Z.testbit c i = false.
Proof. intros Hc Hn Hi. apply (lt_pow2_bits c n); [lia|done| |done]. by left. Qed.

Lemma lxor_range a b n : 0 ≤ n → 0 ≤ a < 2 ^ n → 0 ≤ b < 2 ^ n → 0 ≤ Z.lxor a b < 2 ^ n.
Proof.
  intros Hn Ha Hb. assert (0 ≤ Z.lxor a b) as H0 by (apply Z.lxor_nonneg; lia).
  assert (∀ i, n ≤ i → Z.testbit (Z.lxor a b) i = false) as Hbits.
  { intros i Hi. by rewrite Z.lxor_spec, (bits_high a n), (bits_high b n) by done. }
  apply (lt_pow2_bits (Z.lxor a b) n H0 Hn) in Hbits as [|E]; [done|].
  - rewrite E. pose proof (Z.pow_pos_nonneg 2 n). lia.
Qed.

Lemma shiftr_range a n k : 0 ≤ k ≤ n → 0 ≤ a < 2 ^ n → 0 ≤ Z.shiftr a k < 2 ^ (n - k).
Proof.
  intros Hk Ha. rewrite Z.shiftr_div_pow2 by lia. split; [apply Z.div_pos; lia|].
  apply Z.div_lt_upper_bound; [lia|]. rewrite <- Z.pow_add_r by lia.
  replace (k + (n - k)) with n by lia. apply Ha.
Qed.

Definition crc_poly : Z := 0xEDB88320.

Lemma crc_shift_eq c :
  crc_shift c = Z.lxor (if Z.testbit c 0 then crc_poly else 0) (Z.shiftr c 1).
Proof.
  unfold crc_shift. pose proof (shiftr_land_1 c 0 ltac:(lia)) as E. rewrite Z.shiftr_0_r in E.
  rewrite E. by destruct (Z.testbit c 0).
Qed.

Lemma crc_shift_range c : is_u32 c → is_u32 (crc_shift c).
Proof.
  intros Hc. rewrite crc_shift_eq. apply lxor_range; [lia|by destruct (Z.testbit c 0)|].
  pose proof (shiftr_range c 32 1 ltac:(lia) Hc). lia.
Qed.

Lemma crc_shift_lxor a b : crc_shift (Z.lxor a b) = Z.lxor (crc_shift a) (crc_shift b).
Proof.
  rewrite !crc_shift_eq, Z.shiftr_lxor, Z.lxor_spec. apply Z.bits_inj'. intros i Hi.
  rewrite !Z.lxor_spec.
  destruct (Z.testbit a 0), (Z.testbit b 0); cbn [xorb]; rewrite ?Z.bits_0;
    destruct (Z.testbit crc_poly i), (Z.testbit (Z.shiftr a 1) i), (Z.testbit (Z.shiftr b 1) i); done.
Qed.

Lemma crc_shift_double c : crc_shift (2 * c) = c.
Proof.
  rewrite crc_shift_eq. rewrite Z.testbit_even_0, Z.lxor_0_l, Z.shiftr_div_pow2 by lia.
  change (2 ^ 1) with 2. rewrite Z.mul_comm. by apply Z.div_mul.
Qed.

(** The top bit of the result tells what was shifted out. *)
Lemma crc_shift_back c m :
  is_u32 c → 0 ≤ m ≤ 31 → crc_shift c < 2 ^ m → c = 2 * crc_shift c.
Proof.
  intros Hc Hm Hlt. pose proof (crc_shift_range c Hc) as [H0 _].
  assert (Z.testbit (crc_shift c) 31 = false) as Hb by (apply (bits_high _ m); lia).
  rewrite crc_shift_eq, Z.lxor_spec in Hb.
  rewrite (bits_high (Z.shiftr c 1) 31) in Hb
    by (try apply (shiftr_range c 32 1); lia || apply Hc).
  destruct (Z.testbit c 0) eqn:E; [by vm_compute in Hb|]. rewrite crc_shift_eq, E, Z.lxor_0_l.
  rewrite Z.shiftr_div_pow2 by lia. change (2 ^ 1) with 2.
  rewrite Z.bit0_odd, <- Z.negb_even in E. apply negb_false_iff, Z.even_spec in E as [k ->].
  rewrite (Z.mul_comm 2 k), Z.div_mul by lia. lia.
Qed.

(** *** Eight steps at once *)

Lemma iter_S {A} n (f : A → A) x : Nat.iter (S n) f x = f (Nat.iter n f x).
Proof. done. Qed.

Lemma crc_iter_range n c : is_u32 c → is_u32 (Nat.iter n crc_shift c).
Proof. intros Hc. induction n as [|n IH]; [done|]. by apply crc_shift_range. Qed.

Lemma crc_iter_lxor n a b :
  Nat.iter n crc_shift (Z.lxor a b) = Z.lxor (Nat.iter n crc_shift a) (Nat.iter n crc_shift b).
Proof. induction n as [|n IH]; [done|]. by rewrite !iter_S, IH, crc_shift_lxor. Qed.

Lemma crc_iter_shift n c : Nat.iter n crc_shift (2 ^ Z.of_nat n * c) = c.
Proof.
  revert c. induction n as [|n IH]; intros c; [apply Z.mul_1_l|].
  rewrite Nat2Z.inj_succ, Z.pow_succ_r by lia. rewrite iter_S.
  replace (2 * 2 ^ Z.of_nat n * c) with (2 ^ Z.of_nat n * (2 * c)) by lia.
  rewrite IH. apply crc_shift_double.
Qed.

Lemma crc_iter_back n c m :
  is_u32 c → 0 ≤ m → m + Z.of_nat n ≤ 32 → Nat.iter n crc_shift c < 2 ^ m →
  c = 2 ^ Z.of_nat n * Nat.iter n crc_shift c.
Proof.
  intros Hc. revert m. induction n as [|n IH]; intros m Hm Hn Hlt; [simpl; lia|].
  rewrite iter_S in *. set (x := Nat.iter n crc_shift c) in *.
  pose proof (crc_shift_back x m (crc_iter_range n c Hc) ltac:(lia) Hlt) as Hx.
  rewrite Nat2Z.inj_succ, Z.pow_succ_r by lia.
  assert (c = 2 ^ Z.of_nat n * x) as Hc' by (apply (IH (m + 1)); [lia|lia|rewrite Z.pow_add_r by lia; lia]).
  rewrite Hc', Hx at 1. lia.
Qed.

Lemma crc_step_eq crc b : is_u32 crc → is_byte b → crc_step crc b = crc_entry (Z.lxor crc b).
Proof.
  intros Hcrc Hb. unfold crc_step.
  set (x := Z.lxor crc b).
  assert (is_u32 x) as Hx by (apply lxor_range; [lia|done|unfold is_byte in Hb; lia]).
  assert (Z.land x 255 = x mod 256) as El by (change 255 with (Z.ones 8); by rewrite Z.land_ones).
  pose proof (Z.mod_pos_bound x 256 ltac:(lia)) as Hm.
  assert (byte_at crc_table (Z.to_nat (Z.land x 255)) = crc_entry (x mod 256)) as ->.
  { unfold byte_at, crc_table. rewrite El, list_lookup_fmap, lookup_seqZ_lt by lia. simpl.
    f_equal. lia. }
  assert (Z.shiftr crc 8 = x / 256) as ->.
  { change 256 with (2 ^ 8). rewrite <- Z.shiftr_div_pow2 by lia. unfold x. rewrite Z.shiftr_lxor.
    rewrite (Z.shiftr_div_pow2 b) by lia. change (2 ^ 8) with 256.
    rewrite (Z.div_small b) by done. by rewrite Z.lxor_0_r. }
  assert (x = Z.lxor (x mod 256) (2 ^ 8 * (x / 256))) as Esplit.
  { rewrite (Z.mul_comm (2 ^ 8)), <- Z.shiftl_mul_pow2 by lia.
    change 256 with (2 ^ 8). rewrite <- Z.shiftr_div_pow2, <- Z.land_ones by lia.
    apply Z.bits_inj'. intros i Hi. rewrite Z.lxor_spec, Z.land_spec, Z.testbit_ones by lia.
    destruct (Z.lt_ge_cases i 8).
    - rewrite Z.shiftl_spec_low by lia. destruct (Z.ltb_spec i 8); [|lia].
      destruct (Z.leb_spec 0 i); [|lia]. by rewrite andb_true_r, xorb_false_r.
    - rewrite Z.shiftl_spec, Z.shiftr_spec by lia. replace (i - 8 + 8) with i by lia.
      destruct (Z.ltb_spec i 8); [lia|]. by rewrite andb_false_r, andb_false_r, xorb_false_l. }
  unfold crc_entry. rewrite Esplit at 3. rewrite crc_iter_lxor. f_equal.
  symmetry. apply (crc_iter_shift 8).
Qed.

(** *** The register is the front of the dividend *)

(** [l] with [f] added. *)
Fixpoint mask (f : nat → bool) (l : list bool) : list bool :=
  match l with [] => [] | y :: l => xorb (f 0%nat) y :: mask (f ∘ S) l end.

Lemma mask_ext f g l : (∀ i, f i = g i) → mask f l = mask g l.
Proof.
  revert f g. induction l as [|y l IH]; intros f g Hfg; [done|]. cbn [mask]. rewrite Hfg. f_equal.
  apply IH. intros i. apply Hfg.
Qed.

Lemma mask_mask f g l : mask f (mask g l) = mask (λ i, xorb (f i) (g i)) l.
Proof. revert f g. induction l as [|y l IH]; intros f g; [done|]. cbn [mask]. by rewrite xorb_assoc, IH. Qed.

Lemma mask_lookup f l i : mask f l !! i = xorb (f i) <$> l !! i.
Proof. revert f i. induction l as [|y l IH]; intros f i; [done|]. destruct i; [done|]. apply (IH (f ∘ S)). Qed.

Lemma add_front_mask g l : add_front g l = mask (λ i, default false (g !! i)) l.
Proof.
  revert g. induction l as [|y l IH]; intros g; [by destruct g|]. cbn [mask]. destruct g as [|x g].
  - cbn. f_equal. transitivity (add_front [] l); [by destruct l|]. rewrite IH. by apply mask_ext.
  - cbn [add_front]. f_equal. rewrite IH. by apply mask_ext.
Qed.

(** The bits of a register, and nothing beyond them. *)
Definition bit (c : Z) (i : nat) : bool := Z.testbit c (Z.of_nat i).

Lemma generator_is_poly i : default false (generator !! i) = bit crc_poly i.
Proof.
  destruct (decide (i < 32)%nat) as [Hi|Hi].
  - assert (Forall (λ i, default false (generator !! i) = bit crc_poly i) (seq 0 32)) as Hall
      by (apply (bool_decide_unpack _); by vm_compute).
    rewrite Forall_forall in Hall. apply Hall, elem_of_seq. lia.
  - rewrite lookup_ge_None_2 by (unfold generator; rewrite length_fmap, length_seq; lia).
    symmetry. unfold bit, crc_poly. apply (bits_high _ 32); lia.
Qed.

(** One step of the division is one step of the register. *)
Lemma divide_step n c b l :
  divide (S n) (mask (bit c) (b :: l)) = divide n (mask (bit (crc_shift (Z.lxor c (Z.b2z b)))) l).
Proof.
  cbn [mask divide]. f_equal.
  assert (∀ i, bit (crc_shift (Z.lxor c (Z.b2z b))) i =
    xorb (if xorb (bit c 0) b then bit crc_poly i else false) (bit c (S i))) as Hbit.
  { intros i. unfold bit. rewrite crc_shift_eq, Z.shiftr_lxor, !Z.lxor_spec, !Z.shiftr_spec by lia.
    rewrite (Z.b2z_bit0 b). replace (Z.of_nat i + 1) with (Z.of_nat (S i)) by lia.
    assert (Z.testbit (Z.b2z b) (Z.of_nat (S i)) = false) as -> by (apply (bits_high _ 1); destruct b; cbn; lia).
    rewrite xorb_false_r. change (Z.of_nat 0) with 0. f_equal. destruct (xorb _ b); [done|apply Z.bits_0]. }
  destruct (xorb (bit c 0) b) eqn:Ex; [rewrite add_front_mask, mask_mask|]; apply mask_ext; intros i; rewrite Hbit, ?Ex.
  - by rewrite generator_is_poly.
  - done.
Qed.

Lemma divide_bits bs c l n :
  divide (length bs + n) (mask (bit c) (bs ++ l)) =
    divide n (mask (bit (fold_left (λ c b, crc_shift (Z.lxor c (Z.b2z b))) bs c)) l).
Proof. revert c. induction bs as [|b bs IH]; intros c; [done|]. cbn [length app Nat.add fold_left]. by rewrite divide_step. Qed.

(** The bits of a byte, shifted in one by one, are the byte and eight shifts. *)
Lemma shift_in_bits n b c : 0 ≤ b < 2 ^ Z.of_nat n →
  fold_left (λ c b, crc_shift (Z.lxor c (Z.b2z b))) (bits_of n b) c = Nat.iter n crc_shift (Z.lxor c b).
Proof.
  revert b c. induction n as [|n IH]; intros b c Hb; cbn [bits_of fold_left].
  - assert (b = 0) as -> by (cbn in Hb; lia). by rewrite Z.lxor_0_r.
  - rewrite Nat2Z.inj_succ, Z.pow_succ_r in Hb by lia. rewrite Z.div2_div.
    rewrite IH by (split; [apply Z.div_pos; lia|apply Z.div_lt_upper_bound; lia]).
    rewrite <- Nat.add_1_r, Nat.iter_add. cbn [Nat.iter]. f_equal.
    assert (b = Z.lxor (Z.b2z (Z.odd b)) (2 * (b / 2))) as Eb.
    { rewrite (Z.mul_comm 2), <- (Z.shiftl_mul_pow2 _ 1), <- (Z.shiftr_div_pow2 _ 1) by lia.
      apply Z.bits_inj'. intros i Hi. rewrite Z.lxor_spec. destruct (Z.eq_dec i 0) as [->|Hne].
      - by rewrite Z.b2z_bit0, Z.shiftl_spec_low, xorb_false_r, Z.bit0_odd by lia.
      - rewrite Z.shiftl_spec, Z.shiftr_spec by lia. replace (i - 1 + 1) with i by lia.
        assert (Z.testbit (Z.b2z (Z.odd b)) i = false) as -> by (apply (bits_high _ 1); destruct (Z.odd b); cbn; lia). done. }
    cbn. rewrite Eb at 3. by rewrite <- Z.lxor_assoc, (crc_shift_lxor _ (2 * _)), crc_shift_double.
Qed.

Lemma divide_message data c l n : Forall is_byte data →
  divide (length (message_bits data) + n) (mask (bit c) (message_bits data ++ l)) =
    divide n (mask (bit (fold_left (λ c b, Nat.iter 8 crc_shift (Z.lxor c b)) data c)) l).
Proof.
  intros Hd. revert c. induction Hd as [|b data Hb _ IH]; intros c; [done|].
  unfold message_bits in *. rewrite fmap_cons. cbn [concat fold_left]. rewrite <- app_assoc, length_app, <- Nat.add_assoc, divide_bits, IH.
  by rewrite shift_in_bits.
Qed.

Lemma of_bits_testbit l i : Z.testbit (of_bits l) (Z.of_nat i) = default false (l !! i).
Proof.
  revert i. induction l as [|b l IH]; intros i; [apply Z.bits_0|]. cbn [of_bits]. rewrite (Z.add_comm (Z.b2z b)).
  destruct i as [|i]; [apply Z.testbit_0_r|]. rewrite Nat2Z.inj_succ, Z.testbit_succ_r by lia. apply IH.
Qed.

(** The complement of a 32-bit register. *)
Lemma complement_bits c : is_u32 c → of_bits (negb <$> mask (bit c) (replicate 32 false)) = Z.lxor c (2 ^ 32 - 1).
Proof.
  intros Hc. apply Z.bits_inj'. intros i Hi. rewrite <- (Z2Nat.id i) by done. set (j := Z.to_nat i). clearbody j. clear i Hi.
  rewrite of_bits_testbit, list_lookup_fmap, Z.lxor_spec. rewrite mask_lookup.
  change (2 ^ 32 - 1) with (Z.ones 32). rewrite Z.testbit_ones by lia.
  destruct (decide (j < 32)%nat) as [Hj|Hj].
  - rewrite lookup_replicate_2 by done. cbn. rewrite xorb_false_r. fold (bit c j).
    destruct (Z.leb_spec 0 (Z.of_nat j)), (Z.ltb_spec (Z.of_nat j) 32); try lia. cbn. by rewrite xorb_true_r.
  - rewrite lookup_ge_None_2 by (rewrite length_replicate; lia). cbn.
    rewrite (bits_high c 32) by (done || lia). by destruct (Z.leb_spec 0 (Z.of_nat j)), (Z.ltb_spec (Z.of_nat j) 32); try lia.
Qed.

(** *** The table *)

Lemma crc_run_serial data c : is_u32 c → Forall is_byte data →
  fold_left crc_step data c = fold_left (λ c b, Nat.iter 8 crc_shift (Z.lxor c b)) data c ∧ is_u32 (fold_left crc_step data c).
Proof.
  intros Hc Hd. revert c Hc. induction Hd as [|b data Hb Hd IH]; intros c Hc; [done|].
  cbn [fold_left]. rewrite crc_step_eq by done. apply IH. apply crc_iter_range.
  apply lxor_range; [lia|done|unfold is_byte in Hb; lia].
Qed.

(** C30: the table-driven CRC32 is the CRC of IEEE 802.3: the complemented remainder of
    the message, its first 32 bits complemented, times [x^32] in the long division by the
    generator [x^32 + x^26 + x^23 + x^22 + x^16 + x^12 + x^11 + x^10 + x^8 + x^7 + x^5 +
    x^4 + x^2 + x + 1], bits and result reflected. *)
Theorem crc32_is_reference data :
  Forall is_byte data → compute_crc32 data = crc32_reference data.
Proof.
  intros Hd. unfold compute_crc32, crc32_reference. cbv zeta. change 0xFFFFFFFF with (2 ^ 32 - 1).
  assert (is_u32 (2 ^ 32 - 1)) as Hc by (unfold is_u32; lia).
  destruct (crc_run_serial data _ Hc Hd) as [E Hr]. rewrite <- (complement_bits _ Hr), E. do 2 f_equal.
  pose proof (divide_message data (2 ^ 32 - 1) (replicate 32 false) 0 Hd) as Ed. rewrite Nat.add_0_r in Ed.
  change (divide 0 ?l) with l in Ed. rewrite <- Ed, add_front_mask.
  erewrite (mask_ext (bit (2 ^ 32 - 1))); [done|]. intros i. destruct (decide (i < 32)%nat).
  - rewrite lookup_replicate_2 by done. unfold bit. change (2 ^ 32 - 1) with (Z.ones 32). rewrite Z.testbit_ones_nonneg by lia.
    cbn. apply Z.ltb_lt. lia.
  - rewrite lookup_ge_None_2 by (rewrite length_replicate; lia). unfold bit. apply (bits_high _ 32); lia.
Qed.

(** *** Error detection *)

Lemma crc_entry_range x : is_u32 x → is_u32 (crc_entry x).
Proof. apply crc_iter_range. Qed.

Lemma xor_byte_range c b : is_u32 c → is_byte b → is_u32 (Z.lxor c b).
Proof. intros Hc Hb. apply lxor_range; [lia|done|unfold is_byte in Hb; lia]. Qed.

(** A small result comes from a multiple of 256. *)
Lemma crc_entry_back x j :
  is_u32 x → 0 ≤ j ≤ 3 → crc_entry x < 2 ^ (8 * j) → x = 256 * crc_entry x.
Proof. intros Hx Hj Hlt. apply (crc_iter_back 8 x (8 * j)); [done|lia|lia|done]. Qed.

Lemma crc_entry_inj x y : is_u32 x → is_u32 y → crc_entry x = crc_entry y → x = y.
Proof.
  intros Hx Hy E. apply Z.lxor_eq.
  assert (crc_entry (Z.lxor x y) = 0) as E0
    by (unfold crc_entry; rewrite crc_iter_lxor; apply Z.lxor_eq_0_iff; exact E).
  pose proof (lxor_range x y 32 ltac:(lia) Hx Hy) as Hr.
  pose proof (crc_entry_back (Z.lxor x y) 0 Hr ltac:(lia)) as Hb. rewrite E0 in Hb. by apply Hb.
Qed.

Definition crc_run (c : Z) (data : list Z) : Z := fold_left crc_step data c.

Lemma crc_run_range c data : is_u32 c → Forall is_byte data → is_u32 (crc_run c data).
Proof.
  intros Hc Hd. unfold crc_run. revert c Hc. induction Hd as [|b data Hb Hd IH]; intros c Hc; [done|].
  cbn [fold_left]. apply IH. rewrite crc_step_eq by done. by apply crc_entry_range, xor_byte_range.
Qed.

Lemma compute_crc32_range data : Forall is_byte data → is_u32 (compute_crc32 data).
Proof.
  intros Hd. assert (is_u32 0xFFFFFFFF) as Hc by (unfold is_u32; lia).
  pose proof (crc_run_range 0xFFFFFFFF data Hc Hd) as Hr. by apply lxor_range.
Qed.

(** Equal bytes keep different states different. *)
Lemma crc_run_inj data c c' :
  is_u32 c → is_u32 c' → Forall is_byte data → crc_run c data = crc_run c' data → c = c'.
Proof.
  intros Hc Hc' Hd. unfold crc_run. revert c c' Hc Hc'.
  induction Hd as [|b data Hb Hd IH]; intros c c' Hc Hc' E; [done|]. cbn [fold_left] in E.
  apply IH in E; [|by rewrite crc_step_eq by done; apply crc_entry_range, xor_byte_range..].
  rewrite !crc_step_eq in E by done.
  apply crc_entry_inj in E; [|by apply xor_byte_range..].
  apply (f_equal (λ z, Z.lxor z b)) in E. by rewrite !Z.lxor_assoc, Z.lxor_nilpotent, !Z.lxor_0_r in E.
Qed.

(** How the difference of two states evolves with the difference of the bytes. *)
Definition crc_diff (ds : list Z) : Z := fold_left (λ d b, crc_entry (Z.lxor d b)) ds 0.

Lemma crc_diff_range ds : Forall is_byte ds → is_u32 (crc_diff ds).
Proof.
  unfold crc_diff. assert (is_u32 0) as H0 by done. revert H0. generalize 0. intros d Hd0 Hd.
  revert d Hd0. induction Hd as [|b ds Hb Hd IH]; intros d Hd0; [done|]. cbn [fold_left].
  by apply IH, crc_entry_range, xor_byte_range.
Qed.

Lemma crc_run_diff c c' xs ys :
  is_u32 c → is_u32 c' → Forall is_byte xs → Forall is_byte ys → length xs = length ys →
  Z.lxor (crc_run c xs) (crc_run c' ys) =
    fold_left (λ d b, crc_entry (Z.lxor d b)) (zip_with Z.lxor xs ys) (Z.lxor c c').
Proof.
  intros Hc Hc' Hx. unfold crc_run. revert c c' Hc Hc' ys.
  induction Hx as [|x xs Hxb Hx IH]; intros c c' Hc Hc' [|y ys] Hy Hl; try done.
  inversion_clear Hy as [|? ? Hyb Hy']. cbn [fold_left zip_with]. rewrite !crc_step_eq by done.
  rewrite IH; [|by apply crc_entry_range, xor_byte_range..|done|by injection Hl].
  f_equal. unfold crc_entry. rewrite <- crc_iter_lxor. f_equal.
  apply Z.bits_inj'. intros i _. rewrite !Z.lxor_spec.
  by destruct (Z.testbit c i), (Z.testbit c' i), (Z.testbit x i), (Z.testbit y i).
Qed.

(** Differences in at most four bytes do not cancel. *)
Lemma crc_diff_burst ds (j : nat) :
  Forall is_byte ds → (j + length ds ≤ 4)%nat → crc_diff ds < 2 ^ (8 * Z.of_nat j) →
  Forall (λ d, d = 0) ds.
Proof.
  revert j. induction ds as [|d ds IH] using rev_ind; intros j Hb Hl Hlt; [constructor|].
  rewrite length_app in Hl. simpl in Hl. apply Forall_app in Hb as [Hb Hd].
  apply Forall_inv in Hd.
  unfold crc_diff in Hlt. rewrite fold_left_app in Hlt. cbn [fold_left] in Hlt.
  fold (crc_diff ds) in Hlt. set (c := crc_diff ds) in *.
  pose proof (crc_diff_range ds Hb) as Hc. fold c in Hc.
  pose proof (xor_byte_range c d Hc Hd) as Hx.
  pose proof (crc_entry_back _ (Z.of_nat j) Hx ltac:(lia) Hlt) as Hback.
  set (y := crc_entry (Z.lxor c d)) in *.
  assert (0 ≤ y) as Hy by (unfold is_u32 in Hx; lia).
  assert (2 ^ (8 * Z.of_nat (S j)) = 256 * 2 ^ (8 * Z.of_nat j)) as Hpow.
  { rewrite Nat2Z.inj_succ. replace (8 * Z.succ (Z.of_nat j)) with (8 + 8 * Z.of_nat j) by lia.
    by rewrite Z.pow_add_r by lia. }
  assert (c = Z.lxor (256 * y) d) as Ec.
  { rewrite <- Hback, Z.lxor_assoc, Z.lxor_nilpotent. by rewrite Z.lxor_0_r. }
  assert (c < 2 ^ (8 * Z.of_nat (S j))) as Hlt'.
  { rewrite Ec. apply (lxor_range (256 * y) d (8 * Z.of_nat (S j))); [lia|lia|].
    unfold is_byte in Hd. split; [lia|]. assert (0 < 2 ^ (8 * Z.of_nat j)) by (apply Z.pow_pos_nonneg; lia). lia. }
  pose proof (IH (S j) Hb ltac:(lia) Hlt') as Hz. apply Forall_app. split; [done|].
  apply Forall_singleton.
  assert (c = 0) as Hc0.
  { unfold c, crc_diff. clear -Hz. induction Hz as [|z ds -> Hz IH]; [done|]. cbn [fold_left].
    by change (crc_entry (Z.lxor 0 0)) with 0. }
  rewrite Hc0, Z.lxor_0_l in Hback. unfold is_byte in Hd. lia.
Qed.

(** C29: corruption of up to four consecutive bytes of a header, anywhere before
    its CRC field, changes the CRC. *)
Theorem header_crc_detects_burst pre xs ys post n c :
  Forall is_byte (pre ++ xs ++ post) → Forall is_byte ys → length ys = length xs →
  (length xs ≤ 4)%nat → Z.of_nat (length pre + length xs) ≤ n →
  header_crc (pre ++ xs ++ post) n = Ok c → header_crc (pre ++ ys ++ post) n = Ok c → ys = xs.
Proof.
  intros Hb Hys Hl H4 Hn. unfold header_crc, mem_read. rewrite !length_app, Hl.
  case_bool_decide as Hr; [|done]. cbn. intros Ex Ey. injection Ex as Ex. injection Ey as Ey.
  rewrite !bytes_at_0 in Ex, Ey.
  assert (∀ zs : list Z, length zs = length xs → take (Z.to_nat n) (pre ++ zs ++ post) =
    pre ++ zs ++ take (Z.to_nat n - length pre - length xs) post) as Htake.
  { intros zs Hz. rewrite take_app_ge by lia. f_equal. rewrite take_app_ge by lia. by rewrite Hz. }
  rewrite Htake in Ex, Ey by done. set (post' := take _ post) in *.
  rewrite !Forall_app in Hb. destruct Hb as (Hpre & Hxs & Hpost).
  assert (Forall is_byte post') as Hpost' by (by apply Forall_take).
  rewrite <- Ey in Ex. unfold compute_crc32 in Ex.
  apply (f_equal (λ z, Z.lxor z 0xFFFFFFFF)) in Ex.
  rewrite !Z.lxor_assoc, Z.lxor_nilpotent, !Z.lxor_0_r in Ex. rewrite !fold_left_app in Ex.
  change (fold_left crc_step pre 4294967295) with (crc_run 4294967295 pre) in Ex.
  set (s := crc_run 4294967295 pre) in *.
  assert (is_u32 s) as Hs by (by apply crc_run_range).
  apply (crc_run_inj post') in Ex; [|by apply crc_run_range|by apply crc_run_range|done].
  pose proof (crc_run_diff s s ys xs Hs Hs Hys Hxs Hl) as Hdiff.
  unfold crc_run in Hdiff. rewrite Ex, !Z.lxor_nilpotent in Hdiff. fold (crc_diff (zip_with Z.lxor ys xs)) in Hdiff.
  assert (Forall (λ d, d = 0) (zip_with Z.lxor ys xs)) as Hz.
  { apply (crc_diff_burst _ 0).
    - apply Forall_lookup. intros i z Hi. apply lookup_zip_with_Some in Hi as (a & b & -> & Ha & Hb).
      pose proof (Forall_lookup_1 _ _ _ _ Hys Ha) as A. pose proof (Forall_lookup_1 _ _ _ _ Hxs Hb) as B.
      apply (lxor_range a b 8); [lia|exact A|exact B].
    - rewrite length_zip_with. lia.
    - rewrite <- Hdiff. done. }
  clear -Hz Hl. revert xs Hl Hz. induction ys as [|y ys IH]; intros [|x xs] Hl Hz; try done.
  cbn in Hz. inversion_clear Hz as [|? ? E Hz']. f_equal; [by apply Z.lxor_eq|].
  apply IH; [by injection Hl|done].
Qed.

(** * Layout *)

(** The regions [(offset, length)] are in order and do not overlap between
    [p] and [e]. *)
Fixpoint laid_out (p : Z) (rs : list (Z * Z)) (e : Z) : Prop :=
  match rs with
  | [] => p ≤ e
  | (off, len) :: rs' => p ≤ off ∧ 0 ≤ len ∧ laid_out (off + len) rs' e
  end.

Lemma align_up64_ok k raw :
  0 ≤ k ≤ 16 → 0 ≤ raw < 2 ^ 63 →
  ∃ q, align_up64 (2 ^ k) raw = q * 2 ^ k ∧ raw ≤ q * 2 ^ k < raw + 2 ^ k.
Proof.
  intros Hk Hr. unfold align_up64. assert (0 < 2 ^ k ≤ 2 ^ 16) as Hp.
  { split; [apply Z.pow_pos_nonneg; lia|apply Z.pow_le_mono_r; lia]. }
  rewrite u64_id by lia. unfold UINT64_MAX.
  replace (2 ^ 64 - 1 - (2 ^ k - 1)) with (2 ^ 64 - 2 ^ k) by lia.
  rewrite land_align by lia. exists ((raw + 2 ^ k - 1) / 2 ^ k). split; [done|].
  pose proof (Z.div_mod (raw + 2 ^ k - 1) (2 ^ k) ltac:(lia)).
  pose proof (Z.mod_pos_bound (raw + 2 ^ k - 1) (2 ^ k) ltac:(lia)). lia.
Qed.

Lemma align8 raw : 0 ≤ raw < 2 ^ 63 →
  ∃ q, align_up64 8 raw = q * 8 ∧ raw ≤ q * 8 < raw + 8.
Proof. apply (align_up64_ok 3). lia. Qed.

Lemma align16 raw : 0 ≤ raw < 2 ^ 63 →
  ∃ q, align_up64 16 raw = q * 16 ∧ raw ≤ q * 16 < raw + 16.
Proof. apply (align_up64_ok 4). lia. Qed.

(** Enough pages, and no page too many. *)
Lemma pages_of_ok bytes :
  0 ≤ bytes < 2 ^ 63 → bytes ≤ pages_of bytes * kPageSize < bytes + kPageSize.
Proof. intros Hb. unfold pages_of. rewrite u64_id by page_lia. page_div_lia. Qed.

Lemma codes_per_block_range b : codes_per_block b = 32 ∨ codes_per_block b = 16.
Proof. unfold codes_per_block. destruct (b =? 4); auto. Qed.

(** The blocks of [count] codes, one per [cpb], the last one padded. *)
Lemma n_blocks_ok count cpb :
  0 ≤ count < 2 ^ 32 - 32 → cpb = 32 ∨ cpb = 16 →
  u32 (u64 (count + cpb - 1) / cpb) = u32 (count + cpb - 1) / cpb ∧
  0 ≤ u32 (count + cpb - 1) / cpb < 2 ^ 28 ∧
  count ≤ (u32 (count + cpb - 1) / cpb) * cpb < count + cpb.
Proof.
  intros Hc Hcpb. rewrite (u64_id (count + cpb - 1)), (u32_id (count + cpb - 1)) by lia.
  assert (0 ≤ (count + cpb - 1) / cpb < 2 ^ 28 ∧
    count ≤ (count + cpb - 1) / cpb * cpb < count + cpb) as [Hr Hb].
  { destruct Hcpb as [-> | ->]; Z.div_mod_to_equations; lia. }
  rewrite u32_id by lia. done.
Qed.

(** What a caller gives: a row count, a code width and region sizes of the types
    the format has. *)
Definition leaf_params (count m4 summary_size filter_cols_bytes : Z) : Prop :=
  0 ≤ count < 2 ^ 32 - 32 ∧ 0 ≤ m4 < 2 ^ 16 ∧ 0 ≤ summary_size < 2 ^ 32 ∧
  0 ≤ filter_cols_bytes < 2 ^ 40.

(** C26: the layout a search computes from a leaf's header is the layout its size
    was computed for: header, summary, codes, row ids and filter columns follow
    each other without overlap, the codes hold every row and at most one partial
    block, and all fit in the pages of the extent, of which none is superfluous. *)
Theorem leaf_layout_fits leaf m4 pq_bits summary_size fcb :
  let count := lh_count (leaf_header_of_bytes leaf) in
  let l := layout_compute leaf m4 pq_bits summary_size in
  let bytes := leaf_extent_bytes count m4 pq_bits summary_size fcb in
  leaf_params count m4 summary_size fcb → bytes < 2 ^ 44 - kPageSize →
  laid_out 0 [(0, sizeof_TreeLeafHeader); (leaf_filter_offset, summary_size);
      (lf_codes l, lf_n_blocks l * lf_block_bytes l);
      (lf_row_ids_base l, count * sizeof_RowId); (lf_filter_base l, fcb)]
    (leaf_extent_pages count m4 pq_bits summary_size fcb * kPageSize) ∧
  lf_filter_base l + fcb = bytes ∧
  count ≤ lf_n_blocks l * lf_codes_per_block l < count + lf_codes_per_block l ∧
  leaf_extent_pages count m4 pq_bits summary_size fcb * kPageSize < bytes + kPageSize.
Proof.
  intros count l bytes (Hc & Hm & Hs & Hf) Hbytes.
  unfold l, layout_compute. fold count. cbn [lf_codes lf_n_blocks lf_block_bytes lf_row_ids_base
    lf_filter_base lf_codes_per_block]. rewrite (u32_id count) by lia.
  unfold leaf_extent_pages. fold bytes. set (cpb := codes_per_block pq_bits) in *.
  destruct (n_blocks_ok count cpb Hc (codes_per_block_range pq_bits)) as (E & Hr & Hb).
  set (nb := u32 (count + cpb - 1) / cpb) in *.
  assert (bytes = u64 (leaf_codes_offset summary_size + u64 (nb * (m4 * 16)) +
    u64 (count * sizeof_RowId) + fcb)) as Eb.
  { unfold bytes, leaf_extent_bytes. fold cpb. cbv zeta. by rewrite E. }
  unfold leaf_rowids_offset, leaf_codes_offset, leaf_filter_offset, sizeof_TreeLeafHeader, sizeof_RowId in *.
  destruct (align8 (112 + summary_size) ltac:(lia)) as (q & Hq & Hq'). rewrite Hq in *.
  assert (0 ≤ nb * (m4 * 16) < 2 ^ 48) as Hcodes by nia.
  rewrite (u64_id (nb * (m4 * 16))), (u64_id (count * 8)) in Eb by lia.
  rewrite u64_id in Eb by lia.
  rewrite (u64_id (nb * (m4 * 16))) by lia.
  rewrite (u64_id (q * 8 + nb * (m4 * 16))) by lia.
  rewrite (u64_id (q * 8 + nb * (m4 * 16) + count * 8)) by lia.
  pose proof (pages_of_ok bytes ltac:(lia)) as Hp.
  assert (0 ≤ pages_of bytes < 2 ^ 32) as Hpr by page_lia.
  rewrite u32_id by lia. cbn [laid_out]. unfold kPageSize in *. split_and!; lia.
Qed.

(** The same for the leaves with a local codebook: centroid and codebook are
    at multiples of 16 after the summary, then codes, row ids and filters. *)
Theorem local_layout_fits count dim m4 pq_bits summary_size fcb :
  leaf_params count m4 summary_size fcb → 0 < m4 → 0 ≤ dim < 2 ^ 16 →
  ∃ codebook codes rowids bytes pages,
    local_codebook_bytes m4 dim pq_bits = Ok codebook ∧
    local_codes_offset summary_size dim m4 pq_bits = Ok codes ∧
    let nb := u32 (count + codes_per_block pq_bits - 1) / codes_per_block pq_bits in
    local_rowids_offset summary_size dim m4 pq_bits nb (m4 * 16) = Ok rowids ∧
    local_coded_extent_bytes count dim m4 pq_bits summary_size fcb = Ok bytes ∧
    local_coded_extent_pages count dim m4 pq_bits summary_size fcb = Ok pages ∧
    laid_out 0 [(0, sizeof_TreeLeafHeader); (leaf_filter_offset, summary_size);
        (local_centroid_offset summary_size, local_centroid_bytes dim);
        (local_codebook_offset summary_size dim, codebook);
        (codes, nb * (m4 * 16)); (rowids, count * sizeof_RowId);
        (rowids + count * sizeof_RowId, fcb)] (pages * kPageSize) ∧
    rowids + count * sizeof_RowId + fcb = bytes ∧ pages * kPageSize < bytes + kPageSize ∧
    local_centroid_offset summary_size mod 16 = 0 ∧
    local_codebook_offset summary_size dim mod 16 = 0 ∧ codes mod 8 = 0.
Proof.
  intros (Hc & Hm & Hs & Hf) Hm0 Hd. set (nb := u32 (count + codes_per_block pq_bits - 1) / codes_per_block pq_bits).
  destruct (n_blocks_ok count _ Hc (codes_per_block_range pq_bits)) as (E & Hr & Hb). fold nb in E, Hr, Hb.
  unfold local_coded_extent_pages, local_coded_extent_bytes, local_rowids_offset, local_codes_offset,
    local_codebook_bytes. rewrite (proj2 (Z.eqb_neq m4 0)) by lia. unfold mret, res_ret. rewrite !bind_Ok. cbv zeta.
  set (K := if pq_bits =? 4 then 16 else 256). assert (0 ≤ K ≤ 256) as HK by (unfold K; destruct (pq_bits =? 4); lia).
  set (cb := m4 * K * (dim / m4) * 4). assert (0 ≤ cb < 2 ^ 26) as Hcb.
  { unfold cb. assert (0 ≤ m4 * (dim / m4) ≤ dim) as Hdiv.
    { split; [apply Z.mul_nonneg_nonneg; [lia|apply Z.div_pos; lia]|apply Z.mul_div_le; lia]. }
    nia. }
  rewrite (u64_id cb) by lia.
  unfold local_codebook_offset, local_centroid_offset, local_centroid_bytes, leaf_filter_offset,
    sizeof_TreeLeafHeader, sizeof_RowId.
  destruct (align16 (112 + summary_size) ltac:(lia)) as (q1 & Hq1 & Hb1). rewrite Hq1.
  rewrite (u64_id (q1 * 16 + dim * 4)) by lia.
  destruct (align16 (q1 * 16 + dim * 4) ltac:(lia)) as (q2 & Hq2 & Hb2). rewrite Hq2.
  rewrite (u64_id (q2 * 16 + cb)) by lia.
  destruct (align8 (q2 * 16 + cb) ltac:(lia)) as (q3 & Hq3 & Hb3). rewrite Hq3.
  assert (0 ≤ nb * (m4 * 16) < 2 ^ 48) as Hcodes by nia.
  rewrite E. rewrite (u64_id (nb * (m4 * 16))), (u64_id (count * 8)) by lia.
  rewrite (u64_id (q3 * 8 + nb * (m4 * 16))) by lia.
  rewrite (u64_id (q3 * 8 + nb * (m4 * 16) + count * 8 + fcb)) by lia.
  set (bytes := q3 * 8 + nb * (m4 * 16) + count * 8 + fcb).
  pose proof (pages_of_ok bytes ltac:(unfold bytes; lia)) as Hp.
  exists cb, (q3 * 8), (q3 * 8 + nb * (m4 * 16)), bytes, (pages_of bytes).
  split; [done|]. split; [done|]. split; [done|]. split; [done|]. split; [done|].
  cbn [laid_out]. unfold bytes, kPageSize in *.
  split; [split_and!; lia|]. split; [done|]. split; [lia|].
  rewrite !Z.mod_mul by lia. done.
Qed.

(** The layouts without blocks: in an accumulating leaf the vectors start at
    a multiple of 16 and the row ids and filter columns follow; in a scalar leaf
    levels, codes, optional biases and row ids follow each other. *)
Lemma plain_layouts_fit count dim code_size has_ip_bias summary_size fcb :
  0 ≤ count < 2 ^ 32 → 0 ≤ dim < 2 ^ 16 → 0 ≤ code_size < 2 ^ 20 → 0 ≤ summary_size < 2 ^ 32 →
  0 ≤ fcb < 2 ^ 40 →
  laid_out 0 [(0, sizeof_TreeLeafHeader); (leaf_filter_offset, summary_size);
      (accum_vectors_offset summary_size, count * dim * 4);
      (accum_rowids_offset summary_size dim count, count * sizeof_RowId);
      (accum_rowids_offset summary_size dim count + count * sizeof_RowId, fcb)]
    (accum_extent_pages count dim summary_size fcb * kPageSize) ∧
  accum_vectors_offset summary_size mod 16 = 0 ∧
  accum_extent_pages count dim summary_size fcb * kPageSize <
    accum_extent_bytes count dim summary_size fcb + kPageSize ∧
  laid_out 0 [(0, sizeof_TreeLeafHeader); (leaf_filter_offset, summary_size);
      (lsc_levels_offset summary_size, 2 * dim * sizeof_float16)]
    (lsc_codes_offset summary_size dim) ∧
  laid_out 0 [(0, sizeof_TreeLeafHeader); (leaf_filter_offset, summary_size);
      (leaf_codes_offset summary_size, count * code_size);
      (leaf_codes_offset summary_size + count * code_size, scalar_bias_bytes count has_ip_bias)]
    (scalar_rowids_offset summary_size count code_size has_ip_bias).
Proof.
  intros Hc Hd Hcs Hs Hf.
  unfold accum_extent_pages, accum_extent_bytes, accum_rowids_offset, accum_vectors_offset,
    lsc_codes_offset, lsc_levels_offset, scalar_rowids_offset, scalar_bias_bytes, leaf_codes_offset,
    leaf_filter_offset, sizeof_TreeLeafHeader, sizeof_RowId, sizeof_float16.
  destruct (align16 (112 + summary_size) ltac:(lia)) as (q1 & Hq1 & Hb1). rewrite Hq1.
  destruct (align8 (112 + summary_size) ltac:(lia)) as (q2 & Hq2 & Hb2). rewrite Hq2.
  assert (0 ≤ count * dim < 2 ^ 48 ∧ 0 ≤ count * code_size < 2 ^ 52) as [Hcd Hcc] by nia.
  rewrite (u64_id (count * dim * 4)), (u64_id (count * 8)), (u64_id (count * 2)),
    (u64_id (count * code_size)), (u64_id (q2 * 8 + 2 * dim * 2)) by lia.
  rewrite (u64_id (q1 * 16 + count * dim * 4)) by lia.
  rewrite (u64_id (q1 * 16 + count * dim * 4 + count * 8 + fcb)) by lia.
  pose proof (pages_of_ok (q1 * 16 + count * dim * 4 + count * 8 + fcb) ltac:(lia)) as Hp.
  cbn [laid_out]. unfold kPageSize in *. rewrite Z.mod_mul by lia.
  split; [split_and!; lia|]. split; [done|]. split; [lia|]. split; [split_and!; lia|].
  destruct has_ip_bias; rewrite u64_id by lia; split_and!; lia.
Qed.

(** The entries of an internal node are aligned to 8, each has room for its
    record, centroid and summary, they do not overlap, and all fit in the pages
    of the node. *)
Lemma child_entries_fit dim n_children summary_size :
  0 ≤ dim < 2 ^ 16 → 0 ≤ summary_size < 2 ^ 31 → 0 ≤ n_children < 2 ^ 24 →
  let size := child_entry_size dim summary_size in
  let raw := sizeof_ChildEntry + dim * sizeof_float16 + summary_size in
  size mod 8 = 0 ∧ raw ≤ size < raw + 8 ∧
  (∀ j, 0 ≤ j < n_children →
    sizeof_TreeNodeHeader + j * size + raw ≤ sizeof_TreeNodeHeader + (j + 1) * size ≤
      node_extent_pages dim n_children summary_size * kPageSize) ∧
  node_extent_pages dim n_children summary_size * kPageSize <
    node_extent_bytes dim n_children summary_size + kPageSize.
Proof.
  intros Hd Hs Hn size raw. unfold sizeof_ChildEntry, sizeof_TreeNodeHeader, sizeof_float16 in *.
  assert (size = (raw + 7) / 8 * 8) as Hsize.
  { unfold size, child_entry_size, sizeof_ChildEntry, sizeof_float16. fold raw.
    rewrite (u32_id raw) by lia. rewrite u32_id by lia. unfold UINT32_MAX.
    replace (raw + 8 - 1) with (raw + 7) by lia. apply (land_align 32 3); lia. }
  assert (raw ≤ size < raw + 8 ∧ size mod 8 = 0) as [Hr Hm]
    by (rewrite Hsize, Z.mod_mul by lia; split; [Z.div_mod_to_equations; lia|done]).
  assert (∀ j, 0 ≤ j ≤ n_children → 0 ≤ j * size ≤ n_children * size) as Hmono by nia.
  pose proof (Hmono n_children ltac:(lia)) as Htot.
  assert (n_children * size < 2 ^ 56) as Hlt by nia.
  assert (node_extent_bytes dim n_children summary_size = 32 + n_children * size) as Hbytes.
  { unfold node_extent_bytes, sizeof_TreeNodeHeader. fold size. rewrite (Z.mul_comm size).
    rewrite (u64_id (n_children * size)) by lia. apply u64_id. lia. }
  pose proof (pages_of_ok (32 + n_children * size) ltac:(lia)) as Hp.
  unfold node_extent_pages. rewrite Hbytes. unfold kPageSize in *.
  split; [done|]. split; [done|]. split; [|lia]. intros j Hj.
  pose proof (Hmono (j + 1) ltac:(lia)). lia.
Qed.

(** ** Records *)

Lemma node_header_roundtrip h rest :
  Forall field_fits (node_fields h) → node_header_of_bytes (encode_fields (node_fields h) ++ rest) = h.
Proof.
  intros Hf. unfold node_header_of_bytes.
  change [4; 4; 8; 8; 2; 2; 4]%nat with (node_fields h).*1.
  rewrite decode_encode_fields by done. by destruct h.
Qed.

Lemma child_roundtrip c rest :
  Forall field_fits (child_fields c) → child_of_bytes (encode_fields (child_fields c) ++ rest) = c.
Proof.
  intros Hf. unfold child_of_bytes. change [8; 8; 2; 2; 4]%nat with (child_fields c).*1.
  rewrite decode_encode_fields by done. by destruct c.
Qed.

Definition with_header_crc (h : TreeLeafHeader) (crc : Z) : TreeLeafHeader :=
  mkLeafHeader (lh_magic h) (lh_count h) (lh_tombstone_count h) (lh_m4 h) (lh_pq_bits h)
    (lh_block_bytes h) (lh_codes_per_block h) (lh_extent_pages h) (lh_summary_size h)
    (lh_n_filter_columns h) (lh_filter_columns_offset h) (lh_payload_extent_page h)
    (lh_payload_extent_pages h) (lh_summary_dirty h) (lh_next_dirty h) (lh_leaf_state h)
    (lh_pad1 h) (lh_pad2 h) (lh_centroid_offset h) (lh_codebook_offset h) (lh_plane_offset h) crc.

(** The offset of the CRC field. *)
Definition leaf_crc_offset : Z := 104.

(** A leaf header is read back as it was written, in 112 bytes, and its CRC
    does not depend on the CRC field: a header sealed with the CRC of its own
    bytes passes the comparison fsck makes. *)
Theorem leaf_header_roundtrip h rest :
  Forall field_fits (leaf_fields h) →
  ∃ crc, header_crc (encode_fields (leaf_fields h) ++ rest) leaf_crc_offset = Ok crc ∧
    let sealed := encode_fields (leaf_fields (with_header_crc h crc)) ++ rest in
    length sealed = (Z.to_nat sizeof_TreeLeafHeader + length rest)%nat ∧
    leaf_header_of_bytes sealed = with_header_crc h crc ∧
    header_crc sealed leaf_crc_offset = Ok (lh_header_crc (leaf_header_of_bytes sealed)).
Proof.
  intros Hf. set (pre := encode_fields (take 25 (leaf_fields h))).
  assert (∀ c, encode_fields (leaf_fields (with_header_crc h c)) =
    pre ++ encode_fields [(4%nat, c); (4%nat, 0)]) as Hsplit.
  { intros c. unfold pre, encode_fields. by rewrite <- concat_app, <- fmap_app. }
  assert (length pre = 104%nat) as Hlp by (unfold pre; by rewrite length_encode_fields).
  assert (∀ bs, header_crc (pre ++ bs) leaf_crc_offset = Ok (compute_crc32 pre)) as Hcrc.
  { intros bs. unfold header_crc, leaf_crc_offset, mem_read.
    rewrite bool_decide_true by (rewrite length_app, Hlp; lia). rewrite bind_Ok.
    unfold bytes_at. rewrite drop_0, take_app_length' by (rewrite Hlp; done). done. }
  assert (h = with_header_crc h (lh_header_crc h)) as Eh by (by destruct h).
  exists (compute_crc32 pre). split.
  { pose proof (Hsplit (lh_header_crc h)) as E. rewrite <- Eh in E. rewrite E, <- app_assoc. apply Hcrc. }
  cbv zeta.
  assert (is_u32 (compute_crc32 pre)) as Hr.
  { apply compute_crc32_range, encode_fields_bytes. }
  assert (leaf_header_of_bytes (encode_fields (leaf_fields (with_header_crc h (compute_crc32 pre))) ++ rest)
    = with_header_crc h (compute_crc32 pre)) as Edec.
  { unfold leaf_header_of_bytes.
    change (leaf_fields leaf_header_zero).*1 with (leaf_fields (with_header_crc h (compute_crc32 pre))).*1.
    rewrite decode_encode_fields; [done|].
    rewrite <- (take_drop 25 (leaf_fields (with_header_crc h (compute_crc32 pre)))).
    apply Forall_app. split; [exact (Forall_take _ 25 _ Hf)|].
    change (drop 25 _) with [(4%nat, compute_crc32 pre); (4%nat, 0)].
    apply Forall_cons. split; [exact Hr|]. apply Forall_singleton. by vm_compute. }
  split; [by rewrite length_app, length_encode_fields|]. split; [done|].
  rewrite Edec. rewrite Hsplit, <- app_assoc. apply Hcrc.
Qed.

(** A stored row id is loaded back, whatever its sign and the alignment of
    the array, and every other row id of the array is what it was. *)
Lemma rowid_store_load buf base i v :
  0 ≤ base → 0 ≤ i → base + (i + 1) * sizeof_RowId ≤ Z.of_nat (length buf) → - 2 ^ 63 ≤ v < 2 ^ 63 →
  ∃ buf', store_rowid buf base i v = Ok buf' ∧ load_rowid buf' base i = Ok v ∧
    ∀ j, 0 ≤ j → j ≠ i → load_rowid buf' base j = load_rowid buf base j.
Proof.
  unfold sizeof_RowId. intros Hb Hi Hfit Hv. unfold store_rowid, load_rowid, sizeof_RowId.
  destruct (mem_write_ok buf (base + i * 8) (le_enc 8 v)) as (buf' & E & Hh & Hs);
    [lia|rewrite length_le_enc; lia|].
  exists buf'. split; [done|]. split.
  - apply mem_read_holds in Hh. rewrite length_le_enc in Hh. change (Z.of_nat 8) with 8 in Hh.
    rewrite Hh, bind_Ok, le_dec_enc. change (256 ^ Z.of_nat 8) with (2 ^ 64).
    unfold mret, res_ret, to_signed. f_equal. change (2 ^ (64 - 1)) with (2 ^ 63).
    rewrite Z.mod_mod by lia.
    destruct (Z.ltb_spec (v mod 2 ^ 64) (2 ^ 63)); Z.div_mod_to_equations; lia.
  - intros j Hj Hne. rewrite length_le_enc in Hs. change (Z.of_nat 8) with 8 in Hs.
    unfold mem_read. rewrite (same_outside_length _ _ _ _ Hs). case_bool_decide as Hr; [|done].
    do 2 f_equal. destruct Hs as [Hl Hs]. apply bytes_ext; [unfold bytes_at; by rewrite !length_take, !length_drop, Hl|].
    intros k Hk. unfold bytes_at in Hk. rewrite length_take in Hk. rewrite !byte_at_bytes_at, !decide_True by lia.
    apply Hs. lia.
Qed.

(** ** Witnesses *)

Lemma crc32_is_reference_witness :
  compute_crc32 [49; 50; 51; 52; 53; 54; 55; 56; 57] = crc32_reference [49; 50; 51; 52; 53; 54; 55; 56; 57] ∧
  compute_crc32 [49; 50; 51; 52; 53; 54; 55; 56; 57] = 0xCBF43926.
Proof. split; [apply crc32_is_reference; by repeat constructor|by vm_compute]. Defined.

Lemma header_crc_detects_burst_witness :
  ∃ c, header_crc ([1; 2] ++ [3; 4; 5; 6] ++ [7]) 6 = Ok c ∧
    header_crc ([1; 2] ++ [3; 9; 5; 8] ++ [7]) 6 ≠ Ok c.
Proof.
  eexists. split; [vm_compute; reflexivity|]. intros E.
  assert ([3; 9; 5; 8] = [3; 4; 5; 6]) as Heq; [|discriminate Heq].
  apply (header_crc_detects_burst [1; 2] [3; 4; 5; 6] [3; 9; 5; 8] [7] 6 _) in E;
    [exact E|by repeat constructor|by repeat constructor|done|simpl; lia|simpl; lia|by vm_compute].
Defined.

Definition w_leaf_header : TreeLeafHeader :=
  mkLeafHeader kTreeLeafMagic 33 0 8 4 128 32 1 20 2 0 kInvalidPage 0 0 kInvalidPage 0 0 0 0 0 0 0.
Definition w_leaf : list Z := encode_fields (leaf_fields w_leaf_header).

Lemma leaf_layout_fits_witness :
  let l := layout_compute w_leaf 8 4 20 in
  laid_out 0 [(0, sizeof_TreeLeafHeader); (leaf_filter_offset, 20);
      (lf_codes l, lf_n_blocks l * lf_block_bytes l);
      (lf_row_ids_base l, 33 * sizeof_RowId); (lf_filter_base l, 100)]
    (leaf_extent_pages 33 8 4 20 100 * kPageSize).
Proof.
  apply (leaf_layout_fits w_leaf 8 4 20 100); [|by vm_compute].
  split_and!; by vm_compute.
Defined.

Lemma local_layout_fits_witness :
  ∃ codebook codes rowids bytes pages,
    local_codebook_bytes 8 32 4 = Ok codebook ∧ local_codes_offset 20 32 8 4 = Ok codes ∧
    local_rowids_offset 20 32 8 4 2 128 = Ok rowids ∧
    local_coded_extent_bytes 33 32 8 4 20 100 = Ok bytes ∧
    local_coded_extent_pages 33 32 8 4 20 100 = Ok pages.
Proof.
  destruct (local_layout_fits 33 32 8 4 20 100) as (a & b & c & d & e & H1 & H2 & H3 & H4 & H5 & _);
    [split_and!; by vm_compute|lia|lia|].
  exists a, b, c, d, e. split; [exact H1|]. split; [exact H2|]. split; [exact H3|].
  split; [exact H4|exact H5].
Defined.

Lemma plain_layouts_fit_witness :
  accum_vectors_offset 20 mod 16 = 0 ∧
  laid_out 0 [(0, sizeof_TreeLeafHeader); (leaf_filter_offset, 20);
      (leaf_codes_offset 20, 33 * 48); (leaf_codes_offset 20 + 33 * 48, scalar_bias_bytes 33 true)]
    (scalar_rowids_offset 20 33 48 true).
Proof.
  destruct (plain_layouts_fit 33 96 48 true 20 100) as (_ & H1 & _ & _ & H2); [lia..|].
  split; [exact H1|exact H2].
Defined.

Lemma child_entries_fit_witness :
  child_entry_size 96 13 mod 8 = 0 ∧
  24 + 96 * 2 + 13 ≤ child_entry_size 96 13 < 24 + 96 * 2 + 13 + 8.
Proof.
  destruct (child_entries_fit 96 40 13) as (H1 & H2 & _); [lia..|]. split; [exact H1|exact H2].
Defined.

Lemma leaf_header_roundtrip_witness :
  ∃ crc, header_crc (w_leaf ++ [1; 2]) leaf_crc_offset = Ok crc ∧
    leaf_header_of_bytes (encode_fields (leaf_fields (with_header_crc w_leaf_header crc)) ++ [1; 2]) =
      with_header_crc w_leaf_header crc.
Proof.
  destruct (leaf_header_roundtrip w_leaf_header [1; 2]) as (crc & H1 & _ & H2 & _).
  - by apply (bool_decide_unpack _).
  - exists crc. split; [exact H1|exact H2].
Defined.

Lemma rowid_store_load_witness :
  ∃ buf', store_rowid (replicate 30 0) 5 1 (-7) = Ok buf' ∧ load_rowid buf' 5 1 = Ok (-7).
Proof.
  destruct (rowid_store_load (replicate 30 0) 5 1 (-7)) as (b & H1 & H2 & _); [done|done|by vm_compute|done|].
  exists b. split; [exact H1|exact H2].
Defined.
