(* ===== verification/PageAllocator.v ===== *)
(** * PageAllocator: the extent allocator ([src/tree/page_allocator.cpp])

    The allocation bitmap (bit set = page allocated) is the source of truth; the
    free list threaded through free pages is a hint.  Every operation is the
    code's, over any [PageStore]; a vector access out of range is
    [UndefinedBehaviour], so the theorems that return [Ok] also say that no
    access leaves the bitmap. *)
From S2P Require Import Prelude PageFile.

(** ** Bit helpers *)

Definition bit_get (bm : list Z) (bit : Z) : res bool :=
  b ← vec_get bm (bit / 8);
  mret (negb (Z.land (Z.shiftr b (bit mod 8)) 1 =? 0)).

Definition bit_set (bm : list Z) (bit : Z) : res (list Z) :=
  b ← vec_get bm (bit / 8);
  vec_set bm (bit / 8) (Z.lor b (u8 (Z.shiftl 1 (bit mod 8)))).

Definition bit_clear (bm : list Z) (bit : Z) : res (list Z) :=
  b ← vec_get bm (bit / 8);
  vec_set bm (bit / 8) (Z.land b (u8 (Z.lnot (Z.shiftl 1 (bit mod 8))))).

(** The loop of [find_free_run], [fuel] iterations left. *)
Fixpoint find_free_run_loop (fuel : nat) (bm : list Z) (i count run_start run_len : Z)
    : res Z :=
  match fuel with
  | O => Ok UINT64_MAX
  | Datatypes.S fuel' =>
      b ← bit_get bm i;
      if (b : bool) then find_free_run_loop fuel' bm (i + 1) count (i + 1) 0
      else let run_len' := u32 (run_len + 1) in
           if count <=? run_len' then Ok run_start
           else find_free_run_loop fuel' bm (i + 1) count run_start run_len'
  end.

Definition find_free_run (bm : list Z) (from n_bits count : Z) : res Z :=
  find_free_run_loop (Z.to_nat (n_bits - from)) bm from count from 0.

(** ** State *)

Record PageAllocator := mkPageAllocator {
  bitmap_page_ : Z;
  bitmap_pages_ : Z;
  n_pages_ : Z;
  free_list_head_ : Z;
  n_free_pages_ : Z;
  bitmap_ : list Z;
  bitmap_capacity_bits_ : Z;
}.

Definition PageAllocator_new : PageAllocator :=
  mkPageAllocator kInvalidPage 0 0 kInvalidPage 0 [] 0.

Definition with_bitmap (a : PageAllocator) (bm : list Z) : PageAllocator :=
  mkPageAllocator (bitmap_page_ a) (bitmap_pages_ a) (n_pages_ a) (free_list_head_ a)
    (n_free_pages_ a) bm (bitmap_capacity_bits_ a).
Definition with_free (a : PageAllocator) (head n_free : Z) : PageAllocator :=
  mkPageAllocator (bitmap_page_ a) (bitmap_pages_ a) (n_pages_ a) head
    n_free (bitmap_ a) (bitmap_capacity_bits_ a).
Definition with_n_pages (a : PageAllocator) (n : Z) : PageAllocator :=
  mkPageAllocator (bitmap_page_ a) (bitmap_pages_ a) n (free_list_head_ a)
    (n_free_pages_ a) (bitmap_ a) (bitmap_capacity_bits_ a).

Definition grow_bitmap (a : PageAllocator) (n_pages : Z) : PageAllocator :=
  let needed_bytes := u64 (n_pages + 7) / 8 in
  let bm := if Z.of_nat (length (bitmap_ a)) <? needed_bytes
            then resize (Z.to_nat needed_bytes) 0 (bitmap_ a) else bitmap_ a in
  mkPageAllocator (bitmap_page_ a) (bitmap_pages_ a) (n_pages_ a) (free_list_head_ a)
    (n_free_pages_ a) bm (u64 (Z.of_nat (length bm) * 8)).

Section allocator.
Context `{PageStore F}.
Implicit Types (a : PageAllocator) (f : F).

(** ** Free-list links stored in the first eight bytes of a free page *)

Definition read_free_next (f : F) (page : Z) : res Z :=
  buf ← read_page f page; mret (le_dec (take 8 buf)).

Definition write_free_next (f : F) (page next : Z) : res F :=
  write_page f page (bytes_put zero_page 0 (le_enc 8 next)).

(** ** Setup *)

Definition init (f : F) (bitmap_page bitmap_pages : Z) : res PageAllocator :=
  let first_free := u64 (bitmap_page + bitmap_pages) in
  let a0 := grow_bitmap (mkPageAllocator bitmap_page bitmap_pages first_free
                           kInvalidPage 0 [] 0) first_free in
  bm ← for_range (Z.to_nat first_free) 0 (λ i bm, bit_set bm i) (bitmap_ a0);
  let n := Z.max first_free (num_pages f) in
  mret (grow_bitmap (with_n_pages (with_bitmap a0 bm) n) n).

Definition load (f : F) (bitmap_page bitmap_pages n_pages free_list_head n_free_pages : Z)
    : res PageAllocator :=
  let a0 := mkPageAllocator bitmap_page bitmap_pages n_pages free_list_head
              n_free_pages [] 0 in
  if (0 <? bitmap_pages) && (bitmap_pages * kPageSize * 8 <? n_pages)
  then throw CorruptIndex
  else
    let a1 := grow_bitmap a0 n_pages in
    let on_disk := Z.to_nat (bitmap_pages * kPageSize) in
    let bm := if Nat.ltb (length (bitmap_ a1)) on_disk
              then resize on_disk 0 (bitmap_ a1) else bitmap_ a1 in
    let cap := u64 (Z.of_nat (length bm) * 8) in
    bm' ← (if 0 <? bitmap_pages
           then disk ← read_pages f bitmap_page bitmap_pages; mret (bytes_put bm 0 disk)
           else mret bm);
    mret (mkPageAllocator bitmap_page bitmap_pages n_pages free_list_head
            n_free_pages bm' cap).

(** ** Growth and the free list *)

Definition grow (a : PageAllocator) (f : F) (extra_pages : Z) : res (PageAllocator * F) :=
  let new_n_pages := u64 (n_pages_ a + extra_pages) in
  let a1 := with_n_pages (grow_bitmap a new_n_pages) new_n_pages in
  f' ← truncate f new_n_pages;
  mret (with_free a1 (free_list_head_ a1) (u64 (n_free_pages_ a1 + extra_pages)), f').

Definition clear_free_list (a : PageAllocator) : res PageAllocator :=
  n ← for_range (Z.to_nat (n_pages_ a)) 0
        (λ i n, b ← bit_get (bitmap_ a) i; mret (if (b : bool) then n else u64 (n + 1))) 0;
  mret (with_free a kInvalidPage n).

(** ** Marking ranges *)

Definition mark_allocated (a : PageAllocator) (start count : Z) : res PageAllocator :=
  for_range (Z.to_nat count) 0 (λ i a,
    let page := u64 (start + i) in
    b ← bit_get (bitmap_ a) page;
    bm ← bit_set (bitmap_ a) page;
    mret (with_bitmap (if (b : bool) then a
                       else with_free a (free_list_head_ a) (u64 (n_free_pages_ a - 1))) bm)) a.

Definition mark_free (a : PageAllocator) (start count : Z) : res PageAllocator :=
  for_range (Z.to_nat count) 0 (λ i a,
    let page := u64 (start + i) in
    b ← bit_get (bitmap_ a) page;
    bm ← bit_clear (bitmap_ a) page;
    mret (with_bitmap (if (b : bool)
                       then with_free a (free_list_head_ a) (u64 (n_free_pages_ a + 1))
                       else a) bm)) a.

(** ** Allocation *)

(** Steps 2 and 3 of [alloc_page]: first clear bit, else grow by one page. *)
Definition alloc_scan (a : PageAllocator) (f : F) : res (Z * PageAllocator * F) :=
  found ← find_free_run (bitmap_ a) 0 (n_pages_ a) 1;
  if negb (found =? UINT64_MAX) then
    bm ← bit_set (bitmap_ a) found;
    mret (found, with_bitmap (with_free a (free_list_head_ a) (u64 (n_free_pages_ a - 1))) bm, f)
  else
    '(a1, f1) ← grow a f 1;
    let page := u64 (n_pages_ a1 - 1) in
    bm ← bit_set (bitmap_ a1) page;
    mret (page, with_bitmap (with_free a1 (free_list_head_ a1) (u64 (n_free_pages_ a1 - 1))) bm, f1).

Definition alloc_page (a : PageAllocator) (f : F) : res (Z * PageAllocator * F) :=
  if free_list_head_ a =? kInvalidPage then alloc_scan a f
  else
    let page := free_list_head_ a in
    b ← bit_get (bitmap_ a) page;
    if (b : bool) then a' ← clear_free_list a; alloc_scan a' f
    else
      next ← read_free_next f page;
      bm ← bit_set (bitmap_ a) page;
      mret (page, with_bitmap (with_free a next (u64 (n_free_pages_ a - 1))) bm, f).

Definition alloc_extent (a : PageAllocator) (f : F) (count : Z)
    : res (Z * PageAllocator * F) :=
  if count =? 0 then mret (kInvalidPage, a, f)
  else if count =? 1 then alloc_page a f
  else
    found ← find_free_run (bitmap_ a) 0 (n_pages_ a) count;
    if negb (found =? UINT64_MAX) then
      a' ← mark_allocated a found count; mret (found, a', f)
    else
      '(a1, f1) ← grow a f count;
      new_found ← find_free_run (bitmap_ a1) 0 (n_pages_ a1) count;
      if new_found =? UINT64_MAX then mret (kInvalidPage, a1, f1)
      else a2 ← mark_allocated a1 new_found count; mret (new_found, a2, f1).

(** ** Freeing *)

(** Clear the bit and push the page on the free list. *)
Definition push_free (a : PageAllocator) (f : F) (page : Z) : res (PageAllocator * F) :=
  bm ← bit_clear (bitmap_ a) page;
  f' ← write_free_next f page (free_list_head_ a);
  mret (with_free (with_bitmap a bm) page (u64 (n_free_pages_ a + 1)), f').

Definition free_page (a : PageAllocator) (f : F) (page : Z) : res (PageAllocator * F) :=
  if page =? kInvalidPage then mret (a, f)
  else b ← bit_get (bitmap_ a) page;
       if negb b then mret (a, f) else push_free a f page.

Definition free_extent (a : PageAllocator) (f : F) (start count : Z)
    : res (PageAllocator * F) :=
  for_range (Z.to_nat count) 0 (λ i '(a, f),
    let page := u64 (start + i) in
    b ← bit_get (bitmap_ a) page;
    if (b : bool) then push_free a f page else mret (a, f)) (a, f).

(** ** Persistence *)

Definition flush_bitmap (a : PageAllocator) (f : F) : res F :=
  if bitmap_pages_ a =? 0 then mret f
  else
    let bytes_to_write := u32 (bitmap_pages_ a * kPageSize) in
    let size := Z.of_nat (length (bitmap_ a)) in
    if bytes_to_write <? size then throw CorruptIndex
    else if size <? bytes_to_write then
      write_pages f (bitmap_page_ a) (bitmap_pages_ a)
        (bytes_put (replicate (Z.to_nat bytes_to_write) 0) 0 (bitmap_ a))
    else write_pages f (bitmap_page_ a) (bitmap_pages_ a) (bitmap_ a).
End allocator.

(** ** The bitmap as a set of bits *)

Definition bitv (bm : list Z) (i : Z) : bool :=
  Z.testbit (byte_at bm (Z.to_nat (i / 8))) (i mod 8).

(** Bits the vector holds. *)
Definition bits (bm : list Z) : Z := 8 * Z.of_nat (length bm).

Lemma bit_index i n : 0 ≤ i < 8 * Z.of_nat n → 0 ≤ i / 8 < Z.of_nat n ∧ 0 ≤ i mod 8 < 8.
Proof. intros. split; [split; [apply Z.div_pos|apply Z.div_lt_upper_bound]; lia|]. by apply Z.mod_pos_bound. Qed.

Lemma bit_get_ok bm i : 0 ≤ i < bits bm → bit_get bm i = Ok (bitv bm i).
Proof.
  intros Hi. destruct (bit_index i (length bm)) as [Hd Hm]; [done|].
  unfold bit_get. destruct (vec_get_Ok bm (i / 8)) as (x & Hx & ->); [done|].
  rewrite bind_Ok, shiftr_land_1 by lia. unfold bitv, byte_at. rewrite Hx. simpl.
  by destruct (Z.testbit x (i mod 8)).
Qed.

Lemma bitv_beyond bm i : bits bm ≤ i → bitv bm i = false.
Proof.
  intros Hi. unfold bitv. rewrite byte_at_ge; [apply Z.bits_0|].
  unfold bits in Hi. assert (Z.of_nat (length bm) ≤ i / 8); [|lia].
  apply Z.div_le_lower_bound; lia.
Qed.

Lemma testbit_u8_1 k j : 0 ≤ k < 8 → Z.testbit (u8 (Z.shiftl 1 k)) j = bool_decide (j = k).
Proof.
  intros Hk. unfold u8. rewrite Z.shiftl_1_l.
  rewrite Z.mod_small by (split; [lia|apply Z.pow_lt_mono_r; lia]).
  case_bool_decide as E; [subst; apply Z.pow2_bits_true; lia|apply Z.pow2_bits_false; lia].
Qed.

Lemma testbit_u8_not k j :
  0 ≤ k < 8 → 0 ≤ j →
  Z.testbit (u8 (Z.lnot (Z.shiftl 1 k))) j = bool_decide (j < 8 ∧ j ≠ k).
Proof.
  intros Hk Hj. unfold u8. rewrite Z.shiftl_1_l.
  destruct (Z.lt_ge_cases j 8).
  - rewrite Z.mod_pow2_bits_low, Z.lnot_spec by lia.
    destruct (Z.eq_dec j k) as [->|Hne].
    + rewrite Z.pow2_bits_true by lia. by rewrite bool_decide_eq_false_2 by lia.
    + rewrite Z.pow2_bits_false by done. by rewrite bool_decide_eq_true_2 by lia.
  - rewrite Z.mod_pow2_bits_high by lia. by rewrite bool_decide_eq_false_2 by lia.
Qed.

(** Replacing the byte of bit [i] replaces the eight bits of that byte. *)
Lemma bitv_insert bm i x j :
  0 ≤ i < bits bm → 0 ≤ j →
  bitv (<[Z.to_nat (i / 8) := x]> bm) j =
    if decide (j / 8 = i / 8) then Z.testbit x (j mod 8) else bitv bm j.
Proof.
  intros Hi Hj. destruct (bit_index i (length bm)) as [Hd _]; [done|].
  unfold bitv, byte_at. case_decide as E.
  - rewrite E, list_lookup_insert_eq; [done|lia].
  - rewrite list_lookup_insert_ne; [done|]. pose proof (Z.div_pos j 8). lia.
Qed.

Lemma divmod_eq8 i j : j / 8 = i / 8 → (j mod 8 = i mod 8 ↔ j = i).
Proof.
  intros E. pose proof (Z.div_mod i 8). pose proof (Z.div_mod j 8). split; [lia|by intros ->].
Qed.

Definition bytes_ok (bm : list Z) : Prop := Forall is_byte bm.

(** [bm'] is [bm] with bit [i] set to [v]. *)
Definition bit_upd (bm bm' : list Z) (i : Z) (v : bool) : Prop :=
  length bm' = length bm ∧ (bytes_ok bm → bytes_ok bm') ∧
  ∀ j, 0 ≤ j → bitv bm' j = if decide (j = i) then v else bitv bm j.

Lemma bytes_ok_insert bm n x : bytes_ok bm → is_byte x → bytes_ok (<[n := x]> bm).
Proof. intros. by apply Forall_insert. Qed.

Lemma bit_set_ok bm i : 0 ≤ i < bits bm → ∃ bm', bit_set bm i = Ok bm' ∧ bit_upd bm bm' i true.
Proof.
  intros Hi. destruct (bit_index i (length bm)) as [Hd Hm]; [done|].
  unfold bit_set. destruct (vec_get_Ok bm (i / 8)) as (x & Hx & ->); [done|].
  rewrite bind_Ok, vec_set_Ok by done. eexists. split; [done|].
  split; [apply length_insert|split].
  - intros Hb. apply bytes_ok_insert; [done|]. pose proof (Forall_lookup_1 _ _ _ _ Hb Hx) as Hxb.
    destruct Hxb. apply is_byte_high.
    + rewrite Z.lor_nonneg. split; [done|]. by apply Z.mod_pos_bound.
    + intros k Hk. rewrite Z.lor_spec, testbit_u8_1, testbit_byte_high by done.
      by rewrite bool_decide_eq_false_2 by lia.
  - intros j Hj. rewrite bitv_insert by done. case_decide as E.
    + rewrite Z.lor_spec, testbit_u8_1 by done. unfold bitv, byte_at. rewrite E, Hx. simpl.
      repeat case_decide; case_bool_decide; rewrite ?orb_true_r, ?orb_false_r; try done;
        exfalso; apply divmod_eq8 in E; tauto.
    + rewrite decide_False; [done|]. by intros ->.
Qed.

Lemma bit_clear_ok bm i :
  0 ≤ i < bits bm → ∃ bm', bit_clear bm i = Ok bm' ∧ bit_upd bm bm' i false.
Proof.
  intros Hi. destruct (bit_index i (length bm)) as [Hd Hm]; [done|].
  unfold bit_clear. destruct (vec_get_Ok bm (i / 8)) as (x & Hx & ->); [done|].
  rewrite bind_Ok, vec_set_Ok by done. eexists. split; [done|].
  split; [apply length_insert|split].
  - intros Hb. apply bytes_ok_insert; [done|]. pose proof (Forall_lookup_1 _ _ _ _ Hb Hx) as Hxb.
    destruct Hxb. apply is_byte_high.
    + rewrite Z.land_nonneg. by left.
    + intros k Hk. by rewrite Z.land_spec, testbit_byte_high.
  - intros j Hj. rewrite bitv_insert by done. pose proof (Z.mod_pos_bound j 8).
    case_decide as E.
    + rewrite Z.land_spec, testbit_u8_not by lia. unfold bitv, byte_at. rewrite E, Hx. simpl.
      repeat case_decide; case_bool_decide; rewrite ?andb_true_r, ?andb_false_r; try done;
        exfalso; apply divmod_eq8 in E; lia.
    + rewrite decide_False; [done|]. by intros ->.
Qed.

(** ** First-fit search *)

Definition free_run (bm : list Z) (s count : Z) : Prop :=
  ∀ j, s ≤ j < s + count → bitv bm j = false.

(** What a first-fit search from [lo] below [n] returns. *)
Definition first_fit (bm : list Z) (lo n count r : Z) : Prop :=
  (r = UINT64_MAX ∧ ∀ s, lo ≤ s → s + count ≤ n → ¬ free_run bm s count) ∨
  (lo ≤ r ∧ r + count ≤ n ∧ free_run bm r count ∧ ∀ s, lo ≤ s < r → ¬ free_run bm s count).

Lemma find_free_run_loop_spec fuel bm i n count rs rl :
  n ≤ bits bm → n = i + Z.of_nat fuel → 0 < count < 2 ^ 32 →
  0 ≤ rs → 0 ≤ rl < count → i = rs + rl → free_run bm rs rl →
  ∃ r, find_free_run_loop fuel bm i count rs rl = Ok r ∧ first_fit bm rs n count r.
Proof.
  revert i rs rl. induction fuel as [|fuel IH]; intros i rs rl Hbits Hn Hc Hrs Hrl Hi Hfree.
  - eexists. split; [done|]. left. split; [done|]. lia.
  - cbn [find_free_run_loop]. rewrite bit_get_ok, bind_Ok by lia.
    destruct (bitv bm i) eqn:Hb.
    + destruct (IH (i + 1) (i + 1) 0) as (r & E & Hr); [done|lia..| |].
      { intros j Hj. lia. }
      exists r. split; [done|].
      assert (∀ s, rs ≤ s ≤ i → ¬ free_run bm s count) as Hno.
      { intros s Hs Hf. specialize (Hf i). rewrite Hb in Hf. assert (true = false); [|done].
        apply Hf. lia. }
      destruct Hr as [[-> Hr]|(Hr1 & Hr2 & Hr3 & Hr4)]; [left|right].
      * split; [done|]. intros s Hs Hsc. destruct (Z.le_gt_cases s i); [apply Hno; lia|].
        apply Hr; lia.
      * split_and!; [lia|done..|]. intros s Hs. destruct (Z.le_gt_cases s i); [apply Hno; lia|].
        apply Hr4; lia.
    + unfold u32. rewrite Z.mod_small by lia.
      assert (free_run bm rs (rl + 1)) as Hfree'.
      { intros j Hj. destruct (Z.eq_dec j i) as [->|]; [done|]. apply Hfree. lia. }
      destruct (Z.leb_spec count (rl + 1)) as [Hle|Hgt].
      * exists rs. split; [done|]. right. replace count with (rl + 1) by lia.
        split_and!; [lia..|done|]. intros s Hs. lia.
      * apply IH; [done|lia..|done].
Qed.

Lemma find_free_run_spec bm from n count :
  0 ≤ from ≤ n → n ≤ bits bm → 0 < count < 2 ^ 32 →
  ∃ r, find_free_run bm from n count = Ok r ∧ first_fit bm from n count r.
Proof.
  intros. apply find_free_run_loop_spec; [done|lia..|]. intros j Hj. lia.
Qed.

(** ** Counting clear bits *)

Fixpoint count_free (bm : list Z) (n : nat) : Z :=
  match n with
  | O => 0
  | Datatypes.S n' => count_free bm n' + (if bitv bm (Z.of_nat n') then 0 else 1)
  end.

Lemma count_free_bound bm n : 0 ≤ count_free bm n ≤ Z.of_nat n.
Proof. induction n as [|n IH]; cbn [count_free]; [lia|]. destruct (bitv _ _); lia. Qed.

Lemma count_free_ext bm bm' n :
  (∀ j, 0 ≤ j < Z.of_nat n → bitv bm' j = bitv bm j) → count_free bm' n = count_free bm n.
Proof.
  induction n as [|n IH]; intros Hj; cbn [count_free]; [done|].
  rewrite IH, Hj by (intros; try apply Hj; lia). done.
Qed.

(** One flipped bit moves the count by one. *)
Lemma count_free_upd bm bm' i v n :
  bit_upd bm bm' i v → 0 ≤ i →
  count_free bm' n = count_free bm n +
    (if decide (i < Z.of_nat n)
     then (if v then 0 else 1) - (if bitv bm i then 0 else 1) else 0).
Proof.
  intros (_ & _ & Hu) Hi. induction n as [|n IH]; cbn [count_free].
  - by rewrite decide_False by lia.
  - rewrite IH, Hu by lia. destruct (decide (Z.of_nat n = i)) as [<-|].
    + rewrite decide_False, decide_True by lia. destruct v, (bitv bm _); lia.
    + repeat case_decide; lia.
Qed.

Lemma count_free_clear_tail bm n k :
  (∀ j, Z.of_nat n ≤ j → bitv bm j = false) →
  count_free bm (n + k) = count_free bm n + Z.of_nat k.
Proof.
  intros Hj. induction k as [|k IH]; [rewrite Nat.add_0_r; lia|].
  rewrite Nat.add_succ_r. cbn [count_free]. rewrite IH, Hj by lia. lia.
Qed.

(** [bitv] does not see zeros appended to the bitmap. *)
Lemma bitv_resize bm n j :
  (length bm ≤ n)%nat → bitv (resize n 0 bm) j = bitv bm j.
Proof.
  intros Hn. unfold bitv. f_equal. rewrite resize_spec, take_ge by done. byte_cases.
Qed.

(** ** The invariant *)

Section proofs.
Context `{PageStoreLaws F}.
Implicit Types (a : PageAllocator) (f : F).

Definition free_link (f : F) (p : Z) : Z := le_dec (take 8 (ps_page f p)).

(** A link ends the list or names a page of the file. *)
Definition link_ok (n l : Z) : Prop := l = kInvalidPage ∨ 0 ≤ l < n.

(** The bitmap covers the file, bits past the end are clear, [n_free_pages_]
    counts the clear bits, and every link the allocator can follow (the head,
    and the one stored in any free page) stays in the file.  Nothing is
    assumed about which free pages the list reaches or in which order:
    stale entries are allowed. *)
Record alloc_ok (a : PageAllocator) (f : F) : Prop := {
  ok_bytes : bytes_ok (bitmap_ a);
  ok_wf : ps_wf f;
  ok_file : num_pages f = n_pages_ a;
  ok_cover : n_pages_ a ≤ bits (bitmap_ a);
  ok_tail : ∀ j, n_pages_ a ≤ j → bitv (bitmap_ a) j = false;
  ok_free : n_free_pages_ a = count_free (bitmap_ a) (Z.to_nat (n_pages_ a));
  ok_head : link_ok (n_pages_ a) (free_list_head_ a);
  ok_links : ∀ p, 0 ≤ p < n_pages_ a → bitv (bitmap_ a) p = false →
                  link_ok (n_pages_ a) (free_link f p);
}.

Lemma ok_range a f : alloc_ok a f → 0 ≤ n_pages_ a ≤ max_pages.
Proof. intros Ha. rewrite <- (ok_file a f Ha). apply ps_num_nonneg, Ha. Qed.

Lemma ok_free_range a f : alloc_ok a f → 0 ≤ n_free_pages_ a ≤ max_pages.
Proof.
  intros Ha. rewrite (ok_free a f Ha). pose proof (ok_range a f Ha).
  pose proof (count_free_bound (bitmap_ a) (Z.to_nat (n_pages_ a))). lia.
Qed.

Lemma u64_small x : 0 ≤ x ≤ 2 * max_pages → u64 x = x.
Proof. intros Hx. unfold u64. apply Z.mod_small. unfold max_pages in Hx. lia. Qed.

(** *** What allocation does: [count] pages at [p], all free before, become
    allocated; every other bit and every page already in the file is kept. *)
Definition allocated (a : PageAllocator) (f : F) (p count : Z) (a' : PageAllocator) (f' : F)
    : Prop :=
  alloc_ok a' f' ∧ n_pages_ a ≤ n_pages_ a' ≤ n_pages_ a + count ∧
  0 ≤ p ∧ p + count ≤ n_pages_ a' ∧ free_run (bitmap_ a) p count ∧
  (∀ j, 0 ≤ j → bitv (bitmap_ a') j =
     if decide (p ≤ j < p + count) then true else bitv (bitmap_ a) j) ∧
  (∀ q, 0 ≤ q < n_pages_ a → ps_page f' q = ps_page f q).

(** Setting the clear bit of a page of the file. *)
Lemma take_page_ok a f p bm head :
  alloc_ok a f → 0 ≤ p < n_pages_ a → bitv (bitmap_ a) p = false →
  bit_upd (bitmap_ a) bm p true → link_ok (n_pages_ a) head →
  alloc_ok (with_bitmap (with_free a head (u64 (n_free_pages_ a - 1))) bm) f.
Proof.
  intros Ha Hp Hb Hu Hh. pose proof (count_free_upd _ _ _ _ (Z.to_nat (n_pages_ a)) Hu) as Hc.
  rewrite Hb, decide_True in Hc by lia.
  pose proof (count_free_bound bm (Z.to_nat (n_pages_ a))).
  pose proof (ok_free_range a f Ha). destruct Hu as (Hl & Hby & Hu), Ha.
  split; cbn [bitmap_ n_pages_ n_free_pages_ free_list_head_ with_bitmap with_free]; auto.
  - unfold bits in *. by rewrite Hl.
  - intros j Hj. rewrite Hu, decide_False by lia. auto.
  - rewrite u64_small by lia. lia.
  - intros q Hq. rewrite Hu by lia. case_decide; [done|]. auto.
Qed.

Lemma grow_bitmap_bitv a n j : bitv (bitmap_ (grow_bitmap a n)) j = bitv (bitmap_ a) j.
Proof.
  unfold grow_bitmap. cbn [bitmap_]. destruct (Z.ltb_spec (Z.of_nat (length (bitmap_ a))) (u64 (n + 7) / 8)); [|done].
  apply bitv_resize. lia.
Qed.

Lemma grow_bitmap_bytes a n : bytes_ok (bitmap_ a) → bytes_ok (bitmap_ (grow_bitmap a n)).
Proof.
  intros Hb. unfold grow_bitmap. cbn [bitmap_]. destruct (_ <? _); [|done].
  apply Forall_resize; [by vm_compute|done].
Qed.

Lemma grow_bitmap_bits a n :
  0 ≤ n ≤ max_pages → n ≤ bits (bitmap_ (grow_bitmap a n)).
Proof.
  intros Hn. unfold grow_bitmap, bits. cbn [bitmap_].
  rewrite u64_small by (unfold max_pages in *; lia). pose proof (Z.div_mod (n + 7) 8).
  pose proof (Z.mod_pos_bound (n + 7) 8).
  destruct (Z.ltb_spec (Z.of_nat (length (bitmap_ a))) ((n + 7) / 8)); [|lia].
  rewrite length_resize, Z2Nat.id by (apply Z.div_pos; lia). lia.
Qed.

Lemma free_link_zero : le_dec (take 8 zero_page) = 0.
Proof. by vm_compute. Qed.

Lemma grow_ok a f extra :
  alloc_ok a f → 0 < extra → n_pages_ a + extra ≤ max_pages →
  ∃ a' f', grow a f extra = Ok (a', f') ∧ alloc_ok a' f' ∧
    n_pages_ a' = n_pages_ a + extra ∧
    (∀ j, bitv (bitmap_ a') j = bitv (bitmap_ a) j) ∧
    (∀ q, 0 ≤ q < n_pages_ a → ps_page f' q = ps_page f q).
Proof.
  intros Ha He Hmax. pose proof (ok_range a f Ha) as Hr. pose proof (ok_free_range a f Ha).
  unfold grow. rewrite (u64_small (n_pages_ a + extra)) by lia.
  destruct (ps_truncate_ok f (n_pages_ a + extra)) as (f' & -> & Hwf' & Hn' & Hq);
    [apply Ha|lia|]. rewrite bind_Ok.
  do 2 eexists. split; [done|]. set (a1 := with_free _ _ _).
  assert (∀ j, bitv (bitmap_ a1) j = bitv (bitmap_ a) j) as Hbits
    by (intros j; apply grow_bitmap_bitv).
  assert (∀ q, 0 ≤ q < n_pages_ a → ps_page f' q = ps_page f q) as Hpages
    by (intros q Hq'; rewrite Hq, decide_True by lia; done).
  split_and!; [|done..]. destruct Ha.
  split; change (n_pages_ a1) with (n_pages_ a + extra).
  - by apply grow_bitmap_bytes.
  - done.
  - done.
  - apply grow_bitmap_bits. lia.
  - intros j Hj. rewrite Hbits. apply ok_tail0. lia.
  - subst a1. cbn [with_free with_n_pages n_free_pages_ grow_bitmap bitmap_].
    rewrite u64_small, ok_free0 by lia.
    rewrite Z2Nat.inj_add by lia. etransitivity;
      [|symmetry; apply count_free_ext; intros; apply grow_bitmap_bitv].
    rewrite count_free_clear_tail; [lia|]. intros j Hj. apply ok_tail0. lia.
  - destruct ok_head0 as [|]; [by left|right]. cbn [free_list_head_ with_free with_n_pages grow_bitmap a1]. lia.
  - intros p Hp Hbp. rewrite Hbits in Hbp. unfold free_link.
    rewrite Hq by lia. rewrite decide_True by lia. destruct (Z.lt_ge_cases p (n_pages_ a)).
    + destruct (ok_links0 p) as [|]; [lia|done|by left|right]. unfold free_link in *. lia.
    + rewrite ps_page_beyond, free_link_zero by (done || lia). right. lia.
Qed.

Lemma clear_free_list_ok a f :
  alloc_ok a f →
  ∃ a', clear_free_list a = Ok a' ∧ alloc_ok a' f ∧ n_pages_ a' = n_pages_ a ∧
    bitmap_ a' = bitmap_ a ∧ free_list_head_ a' = kInvalidPage.
Proof.
  intros Ha. pose proof (ok_range a f Ha) as Hr. unfold clear_free_list.
  destruct (for_range_ok (λ i n, n = count_free (bitmap_ a) (Z.to_nat i))
    (λ i n, b ← bit_get (bitmap_ a) i; mret (if (b : bool) then n else u64 (n + 1)))
    (Z.to_nat (n_pages_ a)) 0 0) as (n & -> & Hn); [done| |].
  - intros j n Hj ->. pose proof (ok_cover a f Ha). rewrite bit_get_ok, bind_Ok by lia.
    eexists. split; [done|]. replace (Z.to_nat (j + 1)) with (Datatypes.S (Z.to_nat j)) by lia.
    cbn [count_free]. rewrite Z2Nat.id by lia.
    pose proof (count_free_bound (bitmap_ a) (Z.to_nat j)).
    destruct (bitv (bitmap_ a) j); [lia|]. rewrite u64_small; lia.
  - rewrite bind_Ok. eexists. split; [done|]. destruct Ha.
    split_and!; [|done..]. split; cbn [with_free bitmap_ n_pages_ n_free_pages_ free_list_head_]; auto.
    + rewrite Hn. f_equal. lia.
    + by left.
Qed.

Lemma alloc_scan_ok a f :
  alloc_ok a f → n_pages_ a + 1 ≤ max_pages →
  ∃ p a' f', alloc_scan a f = Ok (p, a', f') ∧ allocated a f p 1 a' f'.
Proof.
  intros Ha Hmax. pose proof (ok_range a f Ha) as Hr. pose proof (ok_cover a f Ha) as Hcov.
  unfold alloc_scan.
  destruct (find_free_run_spec (bitmap_ a) 0 (n_pages_ a) 1) as (r & -> & Hfit); [lia..|].
  rewrite bind_Ok. destruct Hfit as [[-> _]|(Hr1 & Hr2 & Hfree & _)].
  - simpl. destruct (grow_ok a f 1) as (a1 & f1 & -> & Ha1 & Hn1 & Hb1 & Hp1); [done|lia..|].
    rewrite bind_Ok, Hn1, u64_small by lia. replace (n_pages_ a + 1 - 1) with (n_pages_ a) by lia.
    assert (bitv (bitmap_ a1) (n_pages_ a) = false) as Hnew
      by (rewrite Hb1; apply (ok_tail a f Ha); lia).
    pose proof (ok_cover a1 f1 Ha1).
    destruct (bit_set_ok (bitmap_ a1) (n_pages_ a)) as (bm & -> & Hu); [lia|]. rewrite bind_Ok.
    do 3 eexists. split; [done|]. split_and!.
    + apply (take_page_ok a1 f1 (n_pages_ a)); [done|lia|done..|apply Ha1].
    + cbn. lia.
    + cbn. lia.
    + lia.
    + cbn. lia.
    + intros j Hj. replace j with (n_pages_ a) by lia. by rewrite <- Hb1.
    + intros j Hj. destruct Hu as (_ & _ & Hu). cbn [bitmap_ with_bitmap]. rewrite Hu, Hb1 by done.
      repeat case_decide; (done || lia).
    + done.
  - destruct (Z.eqb_spec r UINT64_MAX); [unfold UINT64_MAX, max_pages in *; lia|]. simpl.
    assert (bitv (bitmap_ a) r = false) by (apply Hfree; lia).
    destruct (bit_set_ok (bitmap_ a) r) as (bm & -> & Hu); [lia|]. rewrite bind_Ok.
    do 3 eexists. split; [done|]. split_and!; [|cbn; lia..|done| |done].
    + apply (take_page_ok a f r); [done|lia|done..|apply Ha].
    + intros j Hj. destruct Hu as (_ & _ & Hu). cbn [bitmap_ with_bitmap]. rewrite Hu by done.
      repeat case_decide; (done || lia).
Qed.

Lemma alloc_page_ok a f :
  alloc_ok a f → n_pages_ a + 1 ≤ max_pages →
  ∃ p a' f', alloc_page a f = Ok (p, a', f') ∧ allocated a f p 1 a' f'.
Proof.
  intros Ha Hmax. pose proof (ok_cover a f Ha) as Hcov. unfold alloc_page.
  destruct (Z.eqb_spec (free_list_head_ a) kInvalidPage) as [_|Hne]; [by apply alloc_scan_ok|].
  destruct (ok_head a f Ha) as [|Hhead]; [done|].
  rewrite bit_get_ok, bind_Ok by lia. destruct (bitv _ _) eqn:Hb.
  - destruct (clear_free_list_ok a f Ha) as (a' & -> & Ha' & Hn' & Hbm' & _). rewrite bind_Ok.
    destruct (alloc_scan_ok a' f) as (p & a2 & f2 & E & Hres); [done|lia|].
    exists p, a2, f2. split; [done|]. unfold allocated in *. by rewrite Hbm', Hn' in Hres.
  - unfold read_free_next. rewrite read_page_ok, bind_Ok; [|apply Ha|by rewrite (ok_file a f Ha)].
    destruct (bit_set_ok (bitmap_ a) (free_list_head_ a)) as (bm & E & Hu); [lia|].
    cbn [mret res_ret]. rewrite bind_Ok, E, bind_Ok.
    do 3 eexists. split; [done|]. split_and!; [|cbn; lia..| | |done].
    + apply (take_page_ok a f (free_list_head_ a)); [done..|]. by apply (ok_links a f Ha).
    + intros j Hj. by replace j with (free_list_head_ a) by lia.
    + intros j Hj. destruct Hu as (_ & _ & Hu). cbn [bitmap_ with_bitmap]. rewrite Hu by done.
      repeat case_decide; (done || lia).
Qed.

Lemma mark_allocated_ok a f start count :
  alloc_ok a f → 0 ≤ start → 0 ≤ count → start + count ≤ n_pages_ a →
  free_run (bitmap_ a) start count →
  ∃ a', mark_allocated a start count = Ok a' ∧ alloc_ok a' f ∧ n_pages_ a' = n_pages_ a ∧
    ∀ j, 0 ≤ j → bitv (bitmap_ a') j =
      if decide (start ≤ j < start + count) then true else bitv (bitmap_ a) j.
Proof.
  intros Ha Hs Hc Hsc Hfree. pose proof (ok_range a f Ha) as Hr. unfold mark_allocated.
  set (J := λ i ai, alloc_ok ai f ∧ n_pages_ ai = n_pages_ a ∧
    ∀ j, 0 ≤ j → bitv (bitmap_ ai) j =
      if decide (start ≤ j < start + i) then true else bitv (bitmap_ a) j).
  match goal with |- context [for_range _ _ ?b _] =>
    destruct (for_range_ok J b (Z.to_nat count) 0 a) as (a' & E & HJ) end.
  - split_and!; [done..|]. intros j Hj. by rewrite decide_False by lia.
  - intros i ai Hi (Hai & Hni & Hbi). rewrite (u64_small (start + i)) by lia.
    pose proof (ok_cover ai f Hai).
    assert (bitv (bitmap_ ai) (start + i) = false) as Hb.
    { rewrite Hbi, decide_False by lia. apply Hfree. lia. }
    rewrite bit_get_ok, bind_Ok, Hb by lia.
    destruct (bit_set_ok (bitmap_ ai) (start + i)) as (bm & -> & Hu); [lia|]. rewrite bind_Ok.
    eexists. split; [done|]. split_and!; [|done|].
    + apply (take_page_ok ai f (start + i)); [done|lia|done..|apply Hai].
    + intros j Hj. destruct Hu as (_ & _ & Hu). cbn [bitmap_ with_bitmap].
      rewrite Hu, Hbi by done. repeat case_decide; (done || lia).
  - exists a'. rewrite Z2Nat.id in HJ by done. by destruct HJ as (? & ? & ?).
Qed.

(** Every [count]: the extent is free before, allocated after, and in the file. *)
Lemma alloc_extent_allocated a f count :
  alloc_ok a f → 0 < count < 2 ^ 32 → n_pages_ a + count ≤ max_pages →
  ∃ p a' f', alloc_extent a f count = Ok (p, a', f') ∧ allocated a f p count a' f'.
Proof.
  intros Ha Hc Hmax. pose proof (ok_range a f Ha) as Hr. pose proof (ok_cover a f Ha) as Hcov.
  unfold alloc_extent. destruct (Z.eqb_spec count 0); [lia|].
  destruct (Z.eqb_spec count 1) as [->|Hne1]; [by apply alloc_page_ok|].
  destruct (find_free_run_spec (bitmap_ a) 0 (n_pages_ a) count) as (r & -> & Hfit); [lia..|].
  rewrite bind_Ok. destruct Hfit as [[-> _]|(Hr1 & Hr2 & Hfree & _)].
  - simpl. destruct (grow_ok a f count) as (a1 & f1 & -> & Ha1 & Hn1 & Hb1 & Hp1); [done|lia..|].
    rewrite bind_Ok. pose proof (ok_cover a1 f1 Ha1).
    destruct (find_free_run_spec (bitmap_ a1) 0 (n_pages_ a1) count) as (r & -> & Hfit); [lia..|].
    rewrite bind_Ok. destruct Hfit as [[_ Hno]|(Hr1 & Hr2 & Hfree & _)].
    + destruct (Hno (n_pages_ a)); [lia..|]. intros j Hj. rewrite Hb1.
      apply (ok_tail a f Ha). lia.
    + destruct (Z.eqb_spec r UINT64_MAX); [unfold UINT64_MAX, max_pages in *; lia|].
      destruct (mark_allocated_ok a1 f1 r count) as (a2 & -> & Ha2 & Hn2 & Hb2); [done|lia..|done|].
      rewrite bind_Ok. do 3 eexists. split; [done|]. split_and!; [done|lia..| | |done].
      * intros j Hj. rewrite <- Hb1. by apply Hfree.
      * intros j Hj. by rewrite Hb2, Hb1.
  - destruct (Z.eqb_spec r UINT64_MAX); [unfold UINT64_MAX, max_pages in *; lia|]. simpl.
    destruct (mark_allocated_ok a f r count) as (a2 & -> & Ha2 & Hn2 & Hb2); [done|lia..|done|].
    rewrite bind_Ok. do 3 eexists. split; [done|]. by split_and!; [|lia..| | |].
Qed.

(** *** Freeing *)

Lemma free_link_write next :
  0 ≤ next < 2 ^ 64 → le_dec (take 8 (bytes_put zero_page 0 (le_enc 8 next))) = next.
Proof.
  intros Hn. unfold bytes_put. rewrite take_0, app_nil_l.
  rewrite take_app_length' by (by rewrite length_le_enc). by apply le_dec_enc_small.
Qed.

Lemma link_page_length next : length (bytes_put zero_page 0 (le_enc 8 next)) = Z.to_nat kPageSize.
Proof.
  unfold bytes_put, zero_page. rewrite take_0, app_nil_l. autorewrite with bytes.
  rewrite length_le_enc. page_lia.
Qed.

Lemma link_page_bytes next : Forall is_byte (bytes_put zero_page 0 (le_enc 8 next)).
Proof.
  unfold bytes_put. rewrite take_0, app_nil_l, Forall_app. split; [apply le_enc_bytes|].
  apply Forall_drop, Forall_replicate. by vm_compute.
Qed.

Lemma push_free_ok a f p :
  alloc_ok a f → 0 ≤ p < n_pages_ a → bitv (bitmap_ a) p = true →
  ∃ a' f', push_free a f p = Ok (a', f') ∧ alloc_ok a' f' ∧ n_pages_ a' = n_pages_ a ∧
    (∀ j, 0 ≤ j → bitv (bitmap_ a') j = if decide (j = p) then false else bitv (bitmap_ a) j) ∧
    (∀ q, 0 ≤ q → q ≠ p → ps_page f' q = ps_page f q).
Proof.
  intros Ha Hp Hb. pose proof (ok_range a f Ha) as Hr. pose proof (ok_cover a f Ha) as Hcov.
  pose proof (ok_free_range a f Ha). unfold push_free.
  destruct (bit_clear_ok (bitmap_ a) p) as (bm & -> & Hu); [lia|]. rewrite bind_Ok.
  unfold write_free_next.
  destruct (write_page_ok f p (bytes_put zero_page 0 (le_enc 8 (free_list_head_ a))))
    as (f' & -> & Hwf' & Hn' & Hq);
    [apply Ha|lia|apply link_page_length|apply link_page_bytes|]. rewrite bind_Ok.
  do 2 eexists. split; [done|].
  pose proof (count_free_upd _ _ _ _ (Z.to_nat (n_pages_ a)) Hu) as Hcf.
  rewrite Hb, decide_True in Hcf by lia. destruct Hu as (Hl & Hby & Hu).
  split_and!; [|done|done|]; [|intros q Hq0 Hne; by rewrite Hq, decide_False by lia].
  destruct Ha. split;
    cbn [with_free with_bitmap bitmap_ n_pages_ n_free_pages_ free_list_head_]; auto.
  - lia.
  - unfold bits in *. by rewrite Hl.
  - intros j Hj. rewrite Hu, decide_False by lia. auto.
  - rewrite u64_small by lia. lia.
  - right. lia.
  - intros q Hqn. rewrite Hu by lia. unfold free_link. rewrite Hq by lia. case_decide.
    + intros _. rewrite free_link_write; [done|].
      destruct ok_head0 as [->|]; [by vm_compute|unfold max_pages in *; lia].
    + by apply ok_links0.
Qed.

(** What freeing a range does: its bits are clear after, whatever they were;
    every other bit is kept and so is every page that was not just freed. *)
Definition freed (a : PageAllocator) (f : F) (p count : Z) (a' : PageAllocator) (f' : F) : Prop :=
  alloc_ok a' f' ∧ n_pages_ a' = n_pages_ a ∧
  (∀ j, 0 ≤ j → bitv (bitmap_ a') j =
     if decide (p ≤ j < p + count) then false else bitv (bitmap_ a) j) ∧
  (∀ q, 0 ≤ q → ¬ (p ≤ q < p + count ∧ bitv (bitmap_ a) q = true) →
     ps_page f' q = ps_page f q).

Lemma free_extent_freed a f start count :
  alloc_ok a f → 0 ≤ start → 0 ≤ count → start + count ≤ n_pages_ a →
  ∃ a' f', free_extent a f start count = Ok (a', f') ∧ freed a f start count a' f'.
Proof.
  intros Ha Hs Hc Hsc. pose proof (ok_range a f Ha) as Hr. unfold free_extent.
  set (J := λ i '(ai, fi), freed a f start i ai fi).
  match goal with |- context [for_range _ _ ?b _] =>
    destruct (for_range_ok J b (Z.to_nat count) 0 (a, f)) as ([a' f'] & -> & HJ) end.
  - split_and!; [done..| |done]. intros j Hj. by rewrite decide_False by lia.
  - intros i [ai fi] Hi (Hai & Hni & Hbi & Hqi). rewrite (u64_small (start + i)) by lia.
    pose proof (ok_cover ai fi Hai). rewrite bit_get_ok, bind_Ok by lia.
    assert (bitv (bitmap_ ai) (start + i) = bitv (bitmap_ a) (start + i)) as Hb
      by (rewrite Hbi, decide_False by lia; done).
    destruct (bitv (bitmap_ ai) (start + i)) eqn:Hbit.
    + destruct (push_free_ok ai fi (start + i)) as (a2 & f2 & -> & Ha2 & Hn2 & Hb2 & Hq2); [done|lia|done|].
      eexists. split; [done|]. split_and!; [done|lia| |].
      * intros j Hj. rewrite Hb2, Hbi by done. repeat case_decide; (done || lia).
      * intros q Hq Hno. rewrite Hq2, Hqi; [done|lia| |lia|].
        -- intros [??]. apply Hno. split; [lia|done].
        -- intros ->. apply Hno. split; [lia|by rewrite <- Hb].
    + eexists. split; [done|]. split_and!; [done..| |].
      * intros j Hj. rewrite Hbi by done. repeat case_decide; try (done || lia).
        by replace j with (start + i) by lia.
      * intros q Hq Hno. apply Hqi; [done|]. intros [??]. apply Hno. split; [lia|done].
  - do 2 eexists. split; [done|]. rewrite Z2Nat.id in HJ by done. apply HJ.
Qed.
End proofs.

(** ** Setup and persistence *)

Section persistence.
Context `{PageStoreLaws F}.
Implicit Types (a : PageAllocator) (f : F).

Lemma count_free_all_set bm n :
  (∀ j, 0 ≤ j < Z.of_nat n → bitv bm j = true) → count_free bm n = 0.
Proof.
  intros Hb. induction n as [|n IH]; cbn [count_free]; [done|].
  rewrite IH, Hb by (intros; try apply Hb; lia). done.
Qed.

(** [init] over a file that ends with its bitmap region. *)
Lemma init_ok f bp bpp :
  ps_wf f → 0 ≤ bp → 0 ≤ bpp → num_pages f = bp + bpp →
  ∃ a, init f bp bpp = Ok a ∧ alloc_ok a f ∧ n_pages_ a = bp + bpp ∧
    bitmap_page_ a = bp ∧ bitmap_pages_ a = bpp ∧
    free_list_head_ a = kInvalidPage ∧ n_free_pages_ a = 0 ∧
    ∀ j, 0 ≤ j → bitv (bitmap_ a) j = bool_decide (j < bp + bpp).
Proof.
  intros Hwf Hbp Hbpp Hn. pose proof (ps_num_nonneg f Hwf) as Hr.
  unfold init. rewrite u64_small by lia. set (a0 := grow_bitmap _ _).
  assert (bp + bpp ≤ bits (bitmap_ a0)) as Hcov by (apply grow_bitmap_bits; lia).
  assert (∀ j, bitv (bitmap_ a0) j = false) as Hzero
    by (intros j; subst a0; rewrite grow_bitmap_bitv; apply Z.bits_0).
  destruct (for_range_ok (λ i bm, length bm = length (bitmap_ a0) ∧ bytes_ok bm ∧
      ∀ j, 0 ≤ j → bitv bm j = bool_decide (j < i)) (λ i bm, bit_set bm i)
      (Z.to_nat (bp + bpp)) 0 (bitmap_ a0)) as (bm & -> & Hl & Hby & Hb).
  - split_and!; [done|apply grow_bitmap_bytes; constructor|]. intros j Hj.
    rewrite Hzero, bool_decide_eq_false_2 by lia. done.
  - intros j bm Hj (Hl & Hby & Hb). destruct (bit_set_ok bm j) as (bm' & -> & Hl' & Hby' & Hb').
    { unfold bits in *. rewrite Hl. lia. }
    eexists. split; [done|]. split_and!; [by rewrite Hl'|by apply Hby'|].
    intros k Hk. rewrite Hb', Hb by done. case_decide; repeat case_bool_decide; (done || lia).
  - rewrite bind_Ok, Hn, Z.max_id. eexists. split; [done|]. rewrite Z.add_0_l, Z2Nat.id in Hb by lia.
    assert (∀ j, 0 ≤ j → bitv (bitmap_ (grow_bitmap (with_n_pages (with_bitmap a0 bm) (bp + bpp))
      (bp + bpp))) j = bool_decide (j < bp + bpp)) as Hbits
      by (intros j Hj; rewrite grow_bitmap_bitv; by apply Hb).
    split_and!; [|done..]. split; cbn [n_pages_ grow_bitmap with_n_pages free_list_head_ n_free_pages_]; try done.
    + by apply grow_bitmap_bytes.
    + apply grow_bitmap_bits. lia.
    + intros j Hj. rewrite Hbits, bool_decide_eq_false_2 by lia. done.
    + symmetry. apply count_free_all_set. intros j Hj.
      rewrite Hbits, bool_decide_eq_true_2 by lia. done.
    + by left.
    + intros p Hp. rewrite Hbits, bool_decide_eq_true_2 by lia. done.
Qed.

(** The buffer [flush_bitmap] writes: the bitmap padded with zeros. *)
Definition padded_bitmap a : list Z :=
  resize (Z.to_nat (bitmap_pages_ a * kPageSize)) 0 (bitmap_ a).

Lemma flush_bitmap_writes a f :
  0 < bitmap_pages_ a < 2 ^ 20 →
  flush_bitmap a f =
    if decide (Z.of_nat (length (bitmap_ a)) ≤ bitmap_pages_ a * kPageSize)
    then write_pages f (bitmap_page_ a) (bitmap_pages_ a) (padded_bitmap a)
    else throw CorruptIndex.
Proof.
  intros Hp. unfold flush_bitmap. destruct (Z.eqb_spec (bitmap_pages_ a) 0); [lia|].
  unfold u32. rewrite Z.mod_small by page_lia. unfold padded_bitmap.
  destruct (Z.ltb_spec (bitmap_pages_ a * kPageSize) (Z.of_nat (length (bitmap_ a)))).
  { by rewrite decide_False by lia. }
  rewrite decide_True by lia.
  destruct (Z.ltb_spec (Z.of_nat (length (bitmap_ a))) (bitmap_pages_ a * kPageSize)).
  - f_equal. rewrite resize_spec. unfold bytes_put. rewrite take_0, app_nil_l, Nat.add_0_l.
    rewrite take_ge, drop_replicate by lia. done.
  - rewrite resize_spec, take_ge, (proj2 (Nat.sub_0_le _ _)), app_nil_r by lia. done.
Qed.

Lemma bitv_padded a j :
  Z.of_nat (length (bitmap_ a)) ≤ bitmap_pages_ a * kPageSize →
  bitv (padded_bitmap a) j = bitv (bitmap_ a) j.
Proof. intros Hl. apply bitv_resize. lia. Qed.

(** [load] reads back the bitmap region verbatim. *)
Lemma load_reads f bp bpp n head nfree bs :
  0 < bpp < 2 ^ 20 → 0 ≤ n ≤ bpp * kPageSize * 8 →
  read_pages f bp bpp = Ok bs → length bs = Z.to_nat (bpp * kPageSize) →
  load f bp bpp n head nfree =
    Ok (mkPageAllocator bp bpp n head nfree bs (bpp * kPageSize * 8)).
Proof.
  intros Hb Hn E Hl. unfold load.
  destruct (Z.ltb_spec (bpp * kPageSize * 8) n); [lia|]. rewrite andb_false_r.
  destruct (Z.ltb_spec 0 bpp); [|lia].
  assert (length (bitmap_ (grow_bitmap (mkPageAllocator bp bpp n head nfree [] 0) n))
    ≤ Z.to_nat (bpp * kPageSize))%nat as Hle.
  { unfold grow_bitmap. cbn [bitmap_ length]. destruct (_ <? _); [|simpl; lia].
    rewrite length_resize. apply Z2Nat.inj_le; [apply Z.div_pos; [apply Z.mod_pos_bound|]; lia|page_lia|].
    unfold u64. rewrite Z.mod_small by page_lia. page_div_lia. }
  set (bm0 := bitmap_ _) in *. set (bm := if Nat.ltb _ _ then _ else _).
  assert (length bm = Z.to_nat (bpp * kPageSize)) as Hbm.
  { subst bm. destruct (Nat.ltb_spec (length bm0) (Z.to_nat (bpp * kPageSize)));
      [apply length_resize|lia]. }
  rewrite E. cbn [mbind res_bind mret res_ret]. f_equal. f_equal.
  - unfold bytes_put. rewrite take_0, app_nil_l, drop_ge, app_nil_r by lia. done.
  - rewrite Hbm, Z2Nat.id by page_lia. unfold u64. apply Z.mod_small. page_lia.
Qed.
(** The bitmap's region is the allocator's own: its pages are allocated. *)
Definition region_own a : Prop :=
  0 < bitmap_pages_ a < 2 ^ 20 ∧ 0 ≤ bitmap_page_ a ∧ bitmap_page_ a + bitmap_pages_ a ≤ n_pages_ a ∧
  ∀ q, bitmap_page_ a ≤ q < bitmap_page_ a + bitmap_pages_ a → bitv (bitmap_ a) q = true.

(** A flush changes the pages of the region only. *)
Lemma flush_ok a f :
  alloc_ok a f → region_own a → Z.of_nat (length (bitmap_ a)) ≤ bitmap_pages_ a * kPageSize →
  ∃ f', flush_bitmap a f = Ok f' ∧ alloc_ok a f' ∧ num_pages f' = num_pages f ∧
    (∀ q, 0 ≤ q → ¬ (bitmap_page_ a ≤ q < bitmap_page_ a + bitmap_pages_ a) → ps_page f' q = ps_page f q) ∧
    read_pages f' (bitmap_page_ a) (bitmap_pages_ a) = Ok (padded_bitmap a).
Proof.
  intros Ha (Hbp & Hp0 & Hpn & Hset) Hfit. rewrite flush_bitmap_writes, decide_True by done.
  pose proof (ok_range a f Ha) as Hr.
  assert (length (padded_bitmap a) = Z.to_nat (bitmap_pages_ a * kPageSize)) as Hl
    by apply length_resize.
  assert (Forall is_byte (padded_bitmap a)) as Hby
    by (apply Forall_resize; [by vm_compute|apply Ha]).
  destruct (ps_write_ok f (bitmap_page_ a) (bitmap_pages_ a) (padded_bitmap a))
    as (f' & E & Hwf & Hn & Hpg); [apply Ha|lia..|done|done|].
  destruct (ps_read_ok f' (bitmap_page_ a) (bitmap_pages_ a)) as (bs & Er & Hlb & Hbs);
    [done|lia..|]. pose proof (ok_file a f Ha) as Hfile.
  assert (bs = padded_bitmap a) as ->.
  { apply (page_slices_ext _ _ (bitmap_pages_ a)); [done..|]. intros k Hk.
    rewrite Hbs, Hpg, decide_True by lia. f_equal. lia. }
  exists f'. split; [done|]. split; [|split; [lia|split; [|done]]].
  - destruct Ha. split; try done; [lia|]. intros q Hq Hqf. unfold free_link. rewrite Hpg by lia.
    rewrite decide_False by (intros Hin; by rewrite Hset in Hqf). by apply ok_links0.
  - intros q Hq Hout. by rewrite Hpg, decide_False.
Qed.

(** Loading a flushed bitmap. *)
Lemma load_flushed a f :
  alloc_ok a f → region_own a → Z.of_nat (length (bitmap_ a)) ≤ bitmap_pages_ a * kPageSize →
  read_pages f (bitmap_page_ a) (bitmap_pages_ a) = Ok (padded_bitmap a) →
  ∃ a', load f (bitmap_page_ a) (bitmap_pages_ a) (n_pages_ a) (free_list_head_ a) (n_free_pages_ a) = Ok a' ∧
    alloc_ok a' f ∧ (∀ j, bitv (bitmap_ a') j = bitv (bitmap_ a) j) ∧ n_pages_ a' = n_pages_ a ∧
    free_list_head_ a' = free_list_head_ a ∧ n_free_pages_ a' = n_free_pages_ a ∧
    bitmap_page_ a' = bitmap_page_ a ∧ bitmap_pages_ a' = bitmap_pages_ a ∧
    Z.of_nat (length (bitmap_ a')) = bitmap_pages_ a * kPageSize.
Proof.
  intros Ha (Hbp & Hp0 & Hpn & Hset) Hfit E.
  pose proof (ok_range a f Ha) as Hr. pose proof (ok_cover a f Ha) as Hcov.
  assert (length (padded_bitmap a) = Z.to_nat (bitmap_pages_ a * kPageSize)) as Hl by apply length_resize.
  assert (∀ j, bitv (padded_bitmap a) j = bitv (bitmap_ a) j) as Hb by (intros; by apply bitv_padded).
  eexists. split; [apply load_reads; [done| |done|done]; unfold bits in Hcov; lia|].
  split; [|cbn [bitmap_ n_pages_ n_free_pages_ free_list_head_ bitmap_page_ bitmap_pages_]; split_and!; (done || rewrite Hl; page_lia)].
  destruct Ha. split; cbn [bitmap_ n_pages_ n_free_pages_ free_list_head_]; auto.
  - apply Forall_resize; [by vm_compute|done].
  - unfold bits in *. rewrite Hl. page_lia.
  - intros j Hj. rewrite Hb. auto.
  - rewrite ok_free0. symmetry. apply count_free_ext. auto.
  - intros q Hq. rewrite Hb. auto.
Qed.
End persistence.

(** ** Properties *)

Section properties.
Context `{PageStoreLaws F}.

(** C13: allocating any extent of a well-formed allocator succeeds without an
    out-of-range access; the pages it returns were free before (not owned by
    anybody), lie in the file, are exactly the bits that become allocated, and
    no page already in the file is changed.  The invariant, which says nothing
    about staleness of the free list, is preserved. *)
Theorem alloc_extent_fresh (a : PageAllocator) (f : F) count :
  alloc_ok a f → 0 < count < 2 ^ 32 → n_pages_ a + count ≤ max_pages →
  ∃ p a' f', alloc_extent a f count = Ok (p, a', f') ∧ allocated a f p count a' f'.
Proof. apply alloc_extent_allocated. Qed.

(** C19: freeing a range clears exactly its bits (double frees included),
    touches only the pages that were allocated, and preserves the invariant. *)
Theorem free_extent_exact (a : PageAllocator) (f : F) start count :
  alloc_ok a f → 0 ≤ start → 0 ≤ count → start + count ≤ n_pages_ a →
  ∃ a' f', free_extent a f start count = Ok (a', f') ∧ freed a f start count a' f'.
Proof. apply free_extent_freed. Qed.

(** *** Programs of a client that owns the extents it was given *)

Definition client : Type := PageAllocator * F * gmap Z Z.

(** The client allocates, frees an extent it owns, or writes a page of one. *)
Inductive client_step : client → client → Prop :=
  | step_alloc a f live count p a' f' :
      0 < count < 2 ^ 32 → n_pages_ a + count ≤ max_pages →
      alloc_extent a f count = Ok (p, a', f') →
      client_step (a, f, live) (a', f', <[p := count]> live)
  | step_free a f live p count a' f' :
      live !! p = Some count →
      free_extent a f p count = Ok (a', f') →
      client_step (a, f, live) (a', f', delete p live)
  | step_write a f live p count q bs f' :
      live !! p = Some count → p ≤ q < p + count →
      length bs = Z.to_nat kPageSize → Forall is_byte bs →
      write_page f q bs = Ok f' →
      client_step (a, f, live) (a, f', live).

Definition disjoint_extents (live : gmap Z Z) : Prop :=
  ∀ p1 c1 p2 c2, live !! p1 = Some c1 → live !! p2 = Some c2 → p1 ≠ p2 →
    p1 + c1 ≤ p2 ∨ p2 + c2 ≤ p1.

Definition client_ok (s : client) : Prop :=
  let '(a, f, live) := s in
  alloc_ok a f ∧ disjoint_extents live ∧
  ∀ p c, live !! p = Some c → 0 ≤ p ∧ 0 < c ∧ p + c ≤ n_pages_ a ∧
    ∀ j, p ≤ j < p + c → bitv (bitmap_ a) j = true.

(** An extent just allocated does not meet a live one. *)
Lemma allocated_disjoint a f live p count a' f' q c :
  client_ok (a, f, live) → allocated a f p count a' f' → 0 < count →
  live !! q = Some c → p + count ≤ q ∨ q + c ≤ p.
Proof.
  intros (_ & _ & Hlive) (_ & _ & _ & _ & Hfree & _) Hc Hq.
  destruct (Hlive q c Hq) as (Hq0 & Hc0 & _ & Hset).
  destruct (Z.le_gt_cases (p + count) q), (Z.le_gt_cases (q + c) p); try lia.
  specialize (Hfree (Z.max p q)). specialize (Hset (Z.max p q)).
  rewrite Hset in Hfree by lia. assert (true = false); [apply Hfree; lia|done].
Qed.

Lemma client_ok_alloc a f live p count a' f' :
  client_ok (a, f, live) → allocated a f p count a' f' → 0 < count →
  client_ok (a', f', <[p := count]> live).
Proof.
  intros Hok Hal Hc. pose proof (λ q c, allocated_disjoint a f live p count a' f' q c Hok Hal Hc) as Hdis.
  destruct Hok as (_ & Hd & Hlive). destruct Hal as (Ha' & Hn & Hp & Hpn & _ & Hb & _).
  split_and!; [done| |].
  - intros p1 c1 p2 c2. rewrite !lookup_insert. repeat case_decide; subst.
    + done.
    + intros [= <-] Hx _. by apply Hdis.
    + intros Hx [= <-] _. apply Hdis in Hx. lia.
    + apply Hd.
  - intros q c. rewrite lookup_insert. case_decide; subst.
    + intros [= <-]. split_and!; [done..|]. intros j Hj. by rewrite Hb, decide_True by lia.
    + intros Hq. destruct (Hlive q c Hq) as (? & ? & ? & Hset). split_and!; [done|done|lia|].
      intros j Hj. rewrite Hb by lia. case_decide; [done|by apply Hset].
Qed.

Lemma client_ok_free a f live p count a' f' :
  client_ok (a, f, live) → live !! p = Some count → freed a f p count a' f' →
  client_ok (a', f', delete p live).
Proof.
  intros (Ha & Hd & Hlive) Hp (Ha' & Hn' & Hb' & _). split_and!; [done| |].
  - intros p1 c1 p2 c2 [_ Hx]%lookup_delete_Some [_ Hy]%lookup_delete_Some. by apply Hd.
  - intros q c [Hne Hq]%lookup_delete_Some. destruct (Hlive q c Hq) as (? & ? & ? & Hset).
    split_and!; [done|done|lia|]. intros j Hj. rewrite Hb' by lia.
    rewrite decide_False; [by apply Hset|].
    destruct (Hd p count q c) as [|]; [done..| |]; lia.
Qed.

(** A write to an allocated page keeps the invariant: no link is read there. *)
Lemma client_ok_write a f live p count q bs f' :
  client_ok (a, f, live) → live !! p = Some count → p ≤ q < p + count →
  length bs = Z.to_nat kPageSize → Forall is_byte bs → write_page f q bs = Ok f' →
  client_ok (a, f', live) ∧ (∀ r, 0 ≤ r → r ≠ q → ps_page f' r = ps_page f r).
Proof.
  intros (Ha & Hd & Hlive) Hp Hq Hl Hb E. destruct (Hlive p count Hp) as (? & ? & ? & Hset).
  pose proof (ok_range a f Ha). pose proof (ok_file a f Ha).
  destruct (write_page_ok f q bs) as (f1 & E1 & Hwf & Hn & Hpg); [apply Ha|lia|done..|].
  assert (f1 = f') as -> by congruence. split.
  - split_and!; [|done..]. destruct Ha. split; auto; [lia|].
    intros r Hr Hbr. unfold free_link. rewrite Hpg by lia. case_decide as Hrq; [|by apply ok_links0].
    subst r. rewrite Hset in Hbr by lia. done.
  - intros r Hr Hne. by rewrite Hpg, decide_False.
Qed.

Lemma client_step_ok s s' : client_ok s → client_step s s' → client_ok s'.
Proof.
  intros Hok Hstep. destruct Hstep as [a f live count p a' f' Hc Hmax E
    |a f live p count a' f' Hp E|a f live p count q bs f' Hp Hq Hl Hb E].
  - destruct (alloc_extent_allocated a f count) as (p1 & a1 & f1 & E1 & Hal); [apply Hok|done..|].
    rewrite E in E1. injection E1 as <- <- <-. apply (client_ok_alloc a f live p count); [done..|lia].
  - destruct (proj2 (proj2 Hok) p count Hp) as (? & ? & ? & _).
    destruct (free_extent_freed a f p count) as (a1 & f1 & E1 & Hfr); [apply Hok|lia..|].
    rewrite E in E1. injection E1 as <- <-. by apply (client_ok_free a f live p count).
  - by destruct (client_ok_write a f live p count q bs f').
Qed.

(** The pages of the extents in [live] have the same content in [f'] as in [f]. *)
Definition same_pages (live : gmap Z Z) (f f' : F) : Prop :=
  ∀ p c q, live !! p = Some c → p ≤ q < p + c → ps_page f' q = ps_page f q.

(** C5: along any program of the client, started with a well-formed allocator
    and no extent, the extents it owns stay pairwise disjoint, inside the file
    and marked allocated.  From there an allocation succeeds, meets no extent
    the client owns and leaves all their pages alone; freeing an extent succeeds
    and leaves the pages of all the others alone; and the client's own write
    changes the page written to and no other. *)
Theorem live_extents_isolated (a0 : PageAllocator) (f0 : F) a f live :
  alloc_ok a0 f0 → rtc client_step (a0, f0, ∅) (a, f, live) →
  client_ok (a, f, live) ∧
  (∀ count, 0 < count < 2 ^ 32 → n_pages_ a + count ≤ max_pages →
    ∃ p a' f', alloc_extent a f count = Ok (p, a', f') ∧
      (∀ q c, live !! q = Some c → p + count ≤ q ∨ q + c ≤ p) ∧ same_pages live f f') ∧
  (∀ p count, live !! p = Some count →
    ∃ a' f', free_extent a f p count = Ok (a', f') ∧ same_pages (delete p live) f f') ∧
  (∀ p count q bs f', live !! p = Some count → p ≤ q < p + count →
    length bs = Z.to_nat kPageSize → Forall is_byte bs → write_page f q bs = Ok f' →
    ∀ r, 0 ≤ r → r ≠ q → ps_page f' r = ps_page f r).
Proof.
  intros Ha0 Hrtc. assert (client_ok (a, f, live)) as Hok.
  { apply (rtc_invariant client_ok client_step _ _ client_step_ok Hrtc). split_and!; done. }
  pose proof Hok as (_ & Hd & Hlive). split_and!; [done|..].
  - intros count Hc Hmax. destruct (alloc_extent_allocated a f count) as (p & a' & f' & E & Hal); [apply Hok|done..|].
    exists p, a', f'. split; [done|]. split.
    { intros q c. by apply (allocated_disjoint a f live p count a' f' q c Hok Hal ltac:(lia)). }
    intros q c r Hq Hr. destruct (Hlive q c Hq) as (? & ? & ? & _). destruct Hal as (_ & _ & _ & _ & _ & _ & Hpg). apply Hpg. lia.
  - intros p count Hp. destruct (Hlive p count Hp) as (? & ? & ? & _).
    destruct (free_extent_freed a f p count) as (a' & f' & E & Hfr); [apply Hok|lia..|].
    exists a', f'. split; [done|]. intros q c r [Hne Hq]%lookup_delete_Some Hr. destruct Hfr as (_ & _ & _ & Hpg).
    destruct (Hlive q c Hq) as (? & ? & ? & _). apply Hpg; [lia|]. intros [Hin _]. destruct (Hd q c p count); [done..| |]; lia.
  - intros p count q bs f' Hp Hq Hl Hb E. by apply (client_ok_write a f live p count q bs f').
Qed.

(** C27: if the in-memory bitmap fits the region reserved for it, flushing it and
    loading the region back gives a well-formed allocator with the same bits,
    counters and free list; if it does not fit, [flush_bitmap] throws instead
    of dropping bits. *)
Theorem flush_load_roundtrip (a : PageAllocator) (f : F) :
  alloc_ok a f → 0 < bitmap_pages_ a < 2 ^ 20 → 0 ≤ bitmap_page_ a →
  bitmap_page_ a + bitmap_pages_ a ≤ n_pages_ a →
  (∀ q, bitmap_page_ a ≤ q < bitmap_page_ a + bitmap_pages_ a → bitv (bitmap_ a) q = true) →
  if decide (Z.of_nat (length (bitmap_ a)) ≤ bitmap_pages_ a * kPageSize) then
    ∃ f' a', flush_bitmap a f = Ok f' ∧
      load f' (bitmap_page_ a) (bitmap_pages_ a) (n_pages_ a)
        (free_list_head_ a) (n_free_pages_ a) = Ok a' ∧
      alloc_ok a' f' ∧ (∀ j, bitv (bitmap_ a') j = bitv (bitmap_ a) j) ∧
      n_pages_ a' = n_pages_ a ∧ free_list_head_ a' = free_list_head_ a ∧
      n_free_pages_ a' = n_free_pages_ a
  else flush_bitmap a f = throw CorruptIndex.
Proof.
  intros Ha Hbp Hp0 Hpn Hset. case_decide as Hfit.
  2:{ rewrite flush_bitmap_writes by done. by rewrite decide_False. }
  assert (region_own a) as Hown by (destruct Hbp; by split_and!).
  destruct (flush_ok a f Ha Hown Hfit) as (f' & E & Ha' & _ & _ & Er).
  destruct (load_flushed a f' Ha' Hown Hfit Er) as (a' & El & Hok & Hb & Hn & Hh & Hf & _).
  by exists f', a'.
Qed.
End properties.

(** ** Witnesses: a three-page file, two pages allocated and freed again *)

Definition w_file : PageFile := zero_file 3.
Definition w_alloc : PageAllocator :=
  match init w_file 2 1 with Ok a => a | Err _ => PageAllocator_new end.

Definition w_step1 : Z * PageAllocator * PageFile :=
  match alloc_extent w_alloc w_file 2 with Ok r => r | Err _ => (0, w_alloc, w_file) end.

Lemma w_file_pages : num_pages w_file = 3.
Proof. by vm_compute. Qed.

Lemma w_alloc_ok : alloc_ok w_alloc w_file ∧ n_pages_ w_alloc = 3.
Proof.
  destruct (init_ok w_file 2 1) as (a & E & Ha & Hn & _);
    [apply zero_file_wf; unfold max_pages; lia|lia..|apply w_file_pages|].
  unfold w_alloc. rewrite E. by split.
Qed.

Lemma w_step1_eq :
  alloc_extent w_alloc w_file 2 = Ok (3, w_step1.1.2, w_step1.2).
Proof.
  assert (match alloc_extent w_alloc w_file 2 with Ok (p, _, _) => p | Err _ => 0 end = 3) as Hp
    by (by vm_compute).
  unfold w_step1. destruct (alloc_extent w_alloc w_file 2) as [[[p a] f]|e]; [by subst p|done].
Qed.

Lemma w_step1_ok : alloc_ok w_step1.1.2 w_step1.2 ∧ n_pages_ w_step1.1.2 = 5.
Proof.
  destruct w_alloc_ok as [Ha Hn].
  destruct (alloc_extent_allocated w_alloc w_file 2) as (p & a & f & E & Hal);
    [done|lia|rewrite Hn; unfold max_pages; lia|].
  assert (n_pages_ w_step1.1.2 = 5) as H5 by (by vm_compute).
  unfold w_step1 in *. rewrite E in *. split; [apply Hal|exact H5].
Qed.

Lemma alloc_extent_fresh_witness :
  (∃ p a' f', alloc_extent w_alloc w_file 2 = Ok (p, a', f') ∧
     allocated w_alloc w_file p 2 a' f') ∧
  alloc_extent w_alloc w_file 2 = Ok (3, w_step1.1.2, w_step1.2).
Proof.
  split; [|exact w_step1_eq]. destruct w_alloc_ok as [Ha Hn].
  apply (alloc_extent_fresh w_alloc w_file 2 Ha); [lia|rewrite Hn; unfold max_pages; lia].
Defined.

Lemma live_extents_isolated_witness : client_ok (w_step1.1.2, w_step1.2, {[3 := 2]}).
Proof.
  destruct w_alloc_ok as [Ha Hn].
  apply (proj1 (live_extents_isolated w_alloc w_file w_step1.1.2 w_step1.2 {[3 := 2]} Ha
    (rtc_once _ _ (step_alloc w_alloc w_file ∅ 2 3 _ _ ltac:(lia)
       ltac:(rewrite Hn; unfold max_pages; lia) w_step1_eq)))).
Defined.

Lemma free_extent_exact_witness :
  ∃ a' f', free_extent w_step1.1.2 w_step1.2 3 2 = Ok (a', f') ∧
    freed w_step1.1.2 w_step1.2 3 2 a' f'.
Proof.
  destruct w_step1_ok as [Ha Hn].
  apply (free_extent_exact w_step1.1.2 w_step1.2 3 2 Ha); lia.
Defined.

Lemma flush_load_roundtrip_witness :
  ∃ f' a', flush_bitmap w_alloc w_file = Ok f' ∧
    load f' (bitmap_page_ w_alloc) (bitmap_pages_ w_alloc) (n_pages_ w_alloc)
      (free_list_head_ w_alloc) (n_free_pages_ w_alloc) = Ok a' ∧ alloc_ok a' f'.
Proof.
  destruct w_alloc_ok as [Ha Hn].
  pose proof (flush_load_roundtrip w_alloc w_file Ha ltac:(by vm_compute) ltac:(by vm_compute)
    ltac:(by vm_compute)) as Hrt.
  rewrite decide_True in Hrt by (by vm_compute).
  destruct Hrt as (f' & a' & E1 & E2 & Ha' & _).
  - assert (bitmap_page_ w_alloc = 2 ∧ bitmap_pages_ w_alloc = 1) as [-> ->] by (by vm_compute).
    intros q Hq. assert (q = 2) as -> by lia. by vm_compute.
  - exists f', a'. exact (conj E1 (conj E2 Ha')).
Defined.
