(* ===== verification/Superblock.v ===== *)
(** * Superblock: the committed root of the file ([src/tree/superblock.cpp])

    Pages 0 and 1 hold two copies; [commit] writes the one whose parity is that
    of the new sequence number, [load] takes the valid copy with the higher
    sequence number.  A crash during [commit] is modelled at sector granularity:
    a prefix of 512-byte sectors of the page is new, the rest old. *)
From S2P Require Import Prelude PageFile.

Definition kSuperblockMagic : Z := 0x0045525454584553.
Definition kSuperblockPage : Z := 0.
Definition kSuperblockShadowPage : Z := 1.

(** ** The on-disk record *)

Record SuperblockDisk := mkSB {
  magic : Z;
  commit_seq : Z;
  root_node_page : Z;
  root_node_pages : Z;
  depth : Z;
  reserved1 : Z;
  n_leaves : Z;
  n_pages : Z;
  free_list_head : Z;
  n_free_pages : Z;
  alloc_bitmap_page : Z;
  alloc_bitmap_pages : Z;
  codebook_page : Z;
  codebook_pages : Z;
  config_page : Z;
  config_pages : Z;
  pca_page : Z;
  pca_pages : Z;
  cardinality_page : Z;
  cardinality_pages : Z;
  leaf_table_page : Z;
  leaf_table_pages : Z;
  plane_page : Z;
  plane_pages : Z;
}.

(** The fields in memory order with the compiler's padding (4 bytes before each
    8-byte field that follows a 4-byte one); [reserved2] is the zero tail. *)
Definition sb_fields (d : SuperblockDisk) : list (nat * Z) :=
  [(8%nat, magic d); (8%nat, commit_seq d);
   (8%nat, root_node_page d); (4%nat, root_node_pages d);
   (2%nat, depth d); (2%nat, reserved1 d); (8%nat, n_leaves d);
   (8%nat, n_pages d); (8%nat, free_list_head d); (8%nat, n_free_pages d);
   (8%nat, alloc_bitmap_page d); (4%nat, alloc_bitmap_pages d); (4%nat, 0);
   (8%nat, codebook_page d); (4%nat, codebook_pages d); (4%nat, 0);
   (8%nat, config_page d); (4%nat, config_pages d); (4%nat, 0);
   (8%nat, pca_page d); (4%nat, pca_pages d); (4%nat, 0);
   (8%nat, cardinality_page d); (4%nat, cardinality_pages d); (4%nat, 0);
   (8%nat, leaf_table_page d); (4%nat, leaf_table_pages d); (4%nat, 0);
   (8%nat, plane_page d); (4%nat, plane_pages d)].

Definition sb_zero : SuperblockDisk :=
  mkSB 0 0 0 0 0 0 0 0 0 0 0 0 0 0 0 0 0 0 0 0 0 0 0 0.

Definition sb_widths : list nat := (sb_fields sb_zero).*1.

(** The 172 bytes of fields and the reserved tail fill one page. *)
Definition sb_bytes (d : SuperblockDisk) : list Z :=
  encode_fields (sb_fields d) ++ replicate 3924 0.

Definition sb_of_fields (vs : list Z) : SuperblockDisk :=
  match vs with
  | [a0; a1; a2; a3; a4; a5; a6; a7; a8; a9; b0; b1; _; c0; c1; _; d0; d1; _;
     e0; e1; _; f0; f1; _; g0; g1; _; h0; h1] =>
      mkSB a0 a1 a2 a3 a4 a5 a6 a7 a8 a9 b0 b1 c0 c1 d0 d1 e0 e1 f0 f1 g0 g1 h0 h1
  | _ => sb_zero
  end.

Definition sb_of_bytes (bs : list Z) : SuperblockDisk :=
  sb_of_fields (decode_fields sb_widths bs).

Definition sb_in_range (d : SuperblockDisk) : Prop := Forall field_fits (sb_fields d).

#[export] Instance sb_in_range_dec d : Decision (sb_in_range d).
Proof. unfold sb_in_range, field_fits. apply _. Defined.

Definition with_seq (d : SuperblockDisk) (s : Z) : SuperblockDisk :=
  mkSB (magic d) s (root_node_page d) (root_node_pages d) (depth d)
    (reserved1 d) (n_leaves d) (n_pages d) (free_list_head d) (n_free_pages d)
    (alloc_bitmap_page d) (alloc_bitmap_pages d) (codebook_page d) (codebook_pages d) (config_page d)
    (config_pages d) (pca_page d) (pca_pages d) (cardinality_page d) (cardinality_pages d)
    (leaf_table_page d) (leaf_table_pages d) (plane_page d) (plane_pages d).

Definition set_root (d : SuperblockDisk) (page pages : Z) : SuperblockDisk :=
  mkSB (magic d) (commit_seq d) page pages (depth d)
    (reserved1 d) (n_leaves d) (n_pages d) (free_list_head d) (n_free_pages d)
    (alloc_bitmap_page d) (alloc_bitmap_pages d) (codebook_page d) (codebook_pages d) (config_page d)
    (config_pages d) (pca_page d) (pca_pages d) (cardinality_page d) (cardinality_pages d)
    (leaf_table_page d) (leaf_table_pages d) (plane_page d) (plane_pages d).

Definition set_depth (d : SuperblockDisk) (x : Z) : SuperblockDisk :=
  mkSB (magic d) (commit_seq d) (root_node_page d) (root_node_pages d) x
    (reserved1 d) (n_leaves d) (n_pages d) (free_list_head d) (n_free_pages d)
    (alloc_bitmap_page d) (alloc_bitmap_pages d) (codebook_page d) (codebook_pages d) (config_page d)
    (config_pages d) (pca_page d) (pca_pages d) (cardinality_page d) (cardinality_pages d)
    (leaf_table_page d) (leaf_table_pages d) (plane_page d) (plane_pages d).

Definition set_n_leaves (d : SuperblockDisk) (x : Z) : SuperblockDisk :=
  mkSB (magic d) (commit_seq d) (root_node_page d) (root_node_pages d) (depth d)
    (reserved1 d) x (n_pages d) (free_list_head d) (n_free_pages d)
    (alloc_bitmap_page d) (alloc_bitmap_pages d) (codebook_page d) (codebook_pages d) (config_page d)
    (config_pages d) (pca_page d) (pca_pages d) (cardinality_page d) (cardinality_pages d)
    (leaf_table_page d) (leaf_table_pages d) (plane_page d) (plane_pages d).

Definition set_n_pages (d : SuperblockDisk) (x : Z) : SuperblockDisk :=
  mkSB (magic d) (commit_seq d) (root_node_page d) (root_node_pages d) (depth d)
    (reserved1 d) (n_leaves d) x (free_list_head d) (n_free_pages d)
    (alloc_bitmap_page d) (alloc_bitmap_pages d) (codebook_page d) (codebook_pages d) (config_page d)
    (config_pages d) (pca_page d) (pca_pages d) (cardinality_page d) (cardinality_pages d)
    (leaf_table_page d) (leaf_table_pages d) (plane_page d) (plane_pages d).

Definition set_free_list (d : SuperblockDisk) (head n_free : Z) : SuperblockDisk :=
  mkSB (magic d) (commit_seq d) (root_node_page d) (root_node_pages d) (depth d)
    (reserved1 d) (n_leaves d) (n_pages d) head n_free
    (alloc_bitmap_page d) (alloc_bitmap_pages d) (codebook_page d) (codebook_pages d) (config_page d)
    (config_pages d) (pca_page d) (pca_pages d) (cardinality_page d) (cardinality_pages d)
    (leaf_table_page d) (leaf_table_pages d) (plane_page d) (plane_pages d).

Definition set_bitmap (d : SuperblockDisk) (page pages : Z) : SuperblockDisk :=
  mkSB (magic d) (commit_seq d) (root_node_page d) (root_node_pages d) (depth d)
    (reserved1 d) (n_leaves d) (n_pages d) (free_list_head d) (n_free_pages d)
    page pages (codebook_page d) (codebook_pages d) (config_page d)
    (config_pages d) (pca_page d) (pca_pages d) (cardinality_page d) (cardinality_pages d)
    (leaf_table_page d) (leaf_table_pages d) (plane_page d) (plane_pages d).

Definition set_codebook (d : SuperblockDisk) (page pages : Z) : SuperblockDisk :=
  mkSB (magic d) (commit_seq d) (root_node_page d) (root_node_pages d) (depth d)
    (reserved1 d) (n_leaves d) (n_pages d) (free_list_head d) (n_free_pages d)
    (alloc_bitmap_page d) (alloc_bitmap_pages d) page pages (config_page d)
    (config_pages d) (pca_page d) (pca_pages d) (cardinality_page d) (cardinality_pages d)
    (leaf_table_page d) (leaf_table_pages d) (plane_page d) (plane_pages d).

Definition set_config (d : SuperblockDisk) (page pages : Z) : SuperblockDisk :=
  mkSB (magic d) (commit_seq d) (root_node_page d) (root_node_pages d) (depth d)
    (reserved1 d) (n_leaves d) (n_pages d) (free_list_head d) (n_free_pages d)
    (alloc_bitmap_page d) (alloc_bitmap_pages d) (codebook_page d) (codebook_pages d) page
    pages (pca_page d) (pca_pages d) (cardinality_page d) (cardinality_pages d)
    (leaf_table_page d) (leaf_table_pages d) (plane_page d) (plane_pages d).

Definition set_pca (d : SuperblockDisk) (page pages : Z) : SuperblockDisk :=
  mkSB (magic d) (commit_seq d) (root_node_page d) (root_node_pages d) (depth d)
    (reserved1 d) (n_leaves d) (n_pages d) (free_list_head d) (n_free_pages d)
    (alloc_bitmap_page d) (alloc_bitmap_pages d) (codebook_page d) (codebook_pages d) (config_page d)
    (config_pages d) page pages (cardinality_page d) (cardinality_pages d)
    (leaf_table_page d) (leaf_table_pages d) (plane_page d) (plane_pages d).

Definition set_cardinality (d : SuperblockDisk) (page pages : Z) : SuperblockDisk :=
  mkSB (magic d) (commit_seq d) (root_node_page d) (root_node_pages d) (depth d)
    (reserved1 d) (n_leaves d) (n_pages d) (free_list_head d) (n_free_pages d)
    (alloc_bitmap_page d) (alloc_bitmap_pages d) (codebook_page d) (codebook_pages d) (config_page d)
    (config_pages d) (pca_page d) (pca_pages d) page pages
    (leaf_table_page d) (leaf_table_pages d) (plane_page d) (plane_pages d).

Definition set_leaf_table (d : SuperblockDisk) (page pages : Z) : SuperblockDisk :=
  mkSB (magic d) (commit_seq d) (root_node_page d) (root_node_pages d) (depth d)
    (reserved1 d) (n_leaves d) (n_pages d) (free_list_head d) (n_free_pages d)
    (alloc_bitmap_page d) (alloc_bitmap_pages d) (codebook_page d) (codebook_pages d) (config_page d)
    (config_pages d) (pca_page d) (pca_pages d) (cardinality_page d) (cardinality_pages d)
    page pages (plane_page d) (plane_pages d).

Definition set_plane (d : SuperblockDisk) (page pages : Z) : SuperblockDisk :=
  mkSB (magic d) (commit_seq d) (root_node_page d) (root_node_pages d) (depth d)
    (reserved1 d) (n_leaves d) (n_pages d) (free_list_head d) (n_free_pages d)
    (alloc_bitmap_page d) (alloc_bitmap_pages d) (codebook_page d) (codebook_pages d) (config_page d)
    (config_pages d) (pca_page d) (pca_pages d) (cardinality_page d) (cardinality_pages d)
    (leaf_table_page d) (leaf_table_pages d) page pages.

(** ** Operations *)

Definition init_fresh (bitmap_page bitmap_pages : Z) : SuperblockDisk :=
  mkSB kSuperblockMagic 0 kInvalidPage 0 0 0 0 (u64 (bitmap_page + bitmap_pages))
    kInvalidPage 0 bitmap_page bitmap_pages kInvalidPage 0 kInvalidPage 0
    kInvalidPage 0 0 0 0 0 0 0.

Section superblock.
Context `{PageStore F}.

(** [read_copy]: the record at [page] and whether its magic is right. *)
Definition read_copy (f : F) (page : Z) : res (bool * SuperblockDisk) :=
  bs ← read_page f page;
  let out := sb_of_bytes bs in
  mret (magic out =? kSuperblockMagic, out).

Definition write_copy (f : F) (page : Z) (d : SuperblockDisk) : res F :=
  write_page f page (sb_bytes d).

Definition load (f : F) : res SuperblockDisk :=
  '(active_ok, active) ← read_copy f kSuperblockPage;
  '(shadow_ok, shadow) ← read_copy f kSuperblockShadowPage;
  if negb active_ok && negb shadow_ok then throw CorruptIndex
  else if active_ok && shadow_ok then
    mret (if commit_seq shadow <=? commit_seq active then active else shadow)
  else if active_ok then mret active
  else mret shadow.

(** The page [commit] writes for sequence number [s]. *)
Definition commit_page (s : Z) : Z :=
  if s mod 2 =? 0 then kSuperblockPage else kSuperblockShadowPage.

(** The [fdatasync] that ends [commit] changes no byte. *)
Definition commit (d : SuperblockDisk) (f : F) : res (SuperblockDisk * F) :=
  let d' := with_seq d (u64 (commit_seq d + 1)) in
  f' ← write_copy f (commit_page (commit_seq d')) d';
  mret (d', f').
End superblock.

(** ** Facts about the encoding *)

Lemma sb_of_bytes_bytes d rest : sb_in_range d → sb_of_bytes (encode_fields (sb_fields d) ++ rest) = d.
Proof.
  intros Hd. unfold sb_of_bytes. change sb_widths with (sb_fields d).*1.
  rewrite decode_encode_fields by done. by destruct d.
Qed.

Lemma with_seq_in_range d s : sb_in_range d → 0 ≤ s < 2 ^ 64 → sb_in_range (with_seq d s).
Proof.
  intros Hd Hs. unfold sb_in_range, sb_fields, with_seq in *.
  repeat (apply Forall_cons in Hd as [? Hd]).
  repeat (apply Forall_cons; split); try done.
Qed.

Lemma length_sb_bytes d : length (sb_bytes d) = Z.to_nat kPageSize.
Proof. unfold sb_bytes. rewrite length_app, length_encode_fields, length_replicate. by vm_compute. Qed.

Lemma sb_bytes_bytes d : Forall is_byte (sb_bytes d).
Proof.
  apply Forall_app. split; [apply encode_fields_bytes|]. apply Forall_replicate. by vm_compute.
Qed.

Lemma sb_of_bytes_take bs : sb_of_bytes (take 172 bs) = sb_of_bytes bs.
Proof. unfold sb_of_bytes. rewrite decode_fields_take; [done|]. by vm_compute; lia. Qed.

(** ** Crashes during a commit *)

Definition valid_copy (d : SuperblockDisk) : Prop := magic d = kSuperblockMagic.

(** The page while [new] is written over [old]: [k] sectors of 512 bytes done. *)
Definition torn (new old : list Z) (k : nat) : list Z := take (512 * k) new ++ drop (512 * k) old.

Section crash.
Context `{PageStoreLaws F}.
Implicit Types (d : SuperblockDisk) (f : F).

(** The files a crash during [commit d f] can leave: nothing written, some
    sectors written, or the page being written destroyed (its magic gone). *)
Inductive commit_crash d f : F → Prop :=
  | crash_before : commit_crash d f f
  | crash_torn k f' :
      let d' := with_seq d (u64 (commit_seq d + 1)) in
      let p := commit_page (commit_seq d') in
      (k ≤ 8)%nat →
      write_page f p (torn (sb_bytes d') (ps_page f p) k) = Ok f' →
      commit_crash d f f'
  | crash_destroyed bs f' :
      let p := commit_page (u64 (commit_seq d + 1)) in
      length bs = Z.to_nat kPageSize → Forall is_byte bs → ¬ valid_copy (sb_of_bytes bs) →
      write_page f p bs = Ok f' →
      commit_crash d f f'.

Definition copy_at f (p : Z) : SuperblockDisk := sb_of_bytes (ps_page f p).

(** Sequence number [s] is committed: its copy is on its page, and the other
    copy is invalid or older. *)
Definition sb_committed (s : Z) f : Prop :=
  ps_wf f ∧ 2 ≤ num_pages f ∧ 0 ≤ s ∧
  valid_copy (copy_at f (commit_page s)) ∧ commit_seq (copy_at f (commit_page s)) = s ∧
  (¬ valid_copy (copy_at f (commit_page (s + 1))) ∨
   commit_seq (copy_at f (commit_page (s + 1))) < s).

(** What [load] computes from the two copies. *)
Definition pick (a b : SuperblockDisk) : res SuperblockDisk :=
  let va := magic a =? kSuperblockMagic in
  let vb := magic b =? kSuperblockMagic in
  if negb va && negb vb then throw CorruptIndex
  else if va && vb then mret (if commit_seq b <=? commit_seq a then a else b)
  else if va then mret a else mret b.

Lemma load_pick f :
  ps_wf f → 2 ≤ num_pages f → load f = pick (copy_at f 0) (copy_at f 1).
Proof.
  intros Hwf Hn. unfold load, read_copy, kSuperblockPage, kSuperblockShadowPage.
  by rewrite !read_page_ok by (done || lia).
Qed.

Lemma commit_page_range s : 0 ≤ commit_page s ≤ 1.
Proof. unfold commit_page. destruct (_ =? _); by vm_compute. Qed.

Lemma commit_page_next s :
  0 ≤ s → (commit_page s = 0 ∧ commit_page (s + 1) = 1) ∨ (commit_page s = 1 ∧ commit_page (s + 1) = 0).
Proof.
  intros Hs. unfold commit_page, kSuperblockPage, kSuperblockShadowPage.
  destruct (Z.eqb_spec (s mod 2) 0), (Z.eqb_spec ((s + 1) mod 2) 0); auto;
    exfalso; Z.div_mod_to_equations; lia.
Qed.

(** The copy with the higher sequence number wins, wherever it is. *)
Lemma load_winner f s :
  sb_committed s f → load f = Ok (copy_at f (commit_page s)).
Proof.
  intros (Hwf & Hn & Hs & Hv & Hseq & Hother). rewrite load_pick by done.
  unfold pick, valid_copy in *.
  destruct (commit_page_next s Hs) as [[E1 E2]|[E1 E2]]; rewrite E1, E2 in *; rewrite Hv, Z.eqb_refl;
    [destruct (Z.eqb_spec (magic (copy_at f 1)) kSuperblockMagic)
    |destruct (Z.eqb_spec (magic (copy_at f 0)) kSuperblockMagic)];
    cbn [negb andb]; try done;
    destruct Hother as [|Hlt]; try done; rewrite Hseq.
  - by rewrite (proj2 (Z.leb_le _ _)) by lia.
  - by rewrite (proj2 (Z.leb_gt _ _)) by lia.
Qed.

(** Writing the page of the next sequence number leaves the committed copy. *)
Lemma next_page_write f s bs :
  sb_committed s f → length bs = Z.to_nat kPageSize → Forall is_byte bs →
  ∃ f', write_page f (commit_page (s + 1)) bs = Ok f' ∧ ps_wf f' ∧ 2 ≤ num_pages f' ∧
    copy_at f' (commit_page s) = copy_at f (commit_page s) ∧
    copy_at f' (commit_page (s + 1)) = sb_of_bytes bs ∧
    ∀ q, 0 ≤ q → q ≠ commit_page (s + 1) → ps_page f' q = ps_page f q.
Proof.
  intros (Hwf & Hn & Hs & _) Hl Hb. pose proof (commit_page_range (s + 1)).
  destruct (write_page_ok f (commit_page (s + 1)) bs) as (f' & E & Hwf' & Hn' & Hq);
    [done|unfold max_pages; lia|done..|].
  exists f'. pose proof (commit_page_next s Hs). pose proof (commit_page_range s).
  split_and!; [done|done|lia|unfold copy_at; rewrite Hq, decide_False by lia; done
    |unfold copy_at; rewrite Hq, decide_True by lia; done|].
  intros q Hq0 Hne. by rewrite Hq, decide_False.
Qed.

(** A completed write of a newer valid record commits it. *)
Lemma next_committed f s f' bs :
  sb_committed s f → valid_copy (sb_of_bytes bs) → commit_seq (sb_of_bytes bs) = s + 1 →
  ps_wf f' → 2 ≤ num_pages f' → copy_at f' (commit_page s) = copy_at f (commit_page s) →
  copy_at f' (commit_page (s + 1)) = sb_of_bytes bs →
  sb_committed (s + 1) f'.
Proof.
  intros (_ & _ & Hs & _ & Hseq & _) Hv Hsq Hwf Hn Hold Hnew. split_and!; try done; try lia.
  - by rewrite Hnew.
  - by rewrite Hnew.
  - right. assert (commit_page (s + 1 + 1) = commit_page s) as ->; [|rewrite Hold; lia].
    pose proof (commit_page_next s Hs). pose proof (commit_page_next (s + 1)). lia.
Qed.

(** The bytes of a torn page are bytes, and it is a page. *)
Lemma torn_page new old k :
  (k ≤ 8)%nat → length new = Z.to_nat kPageSize → length old = Z.to_nat kPageSize →
  Forall is_byte new → Forall is_byte old →
  length (torn new old k) = Z.to_nat kPageSize ∧ Forall is_byte (torn new old k).
Proof.
  intros Hk Hn Ho Hbn Hbo. unfold torn. split.
  - autorewrite with bytes. rewrite Hn, Ho. page_lia.
  - apply Forall_app. split; [by apply Forall_take|by apply Forall_drop].
Qed.

(** The first sector holds every field. *)
Lemma sb_of_bytes_torn new old k : (1 ≤ k)%nat → (512 ≤ length new)%nat →
  sb_of_bytes (torn new old k) = sb_of_bytes new.
Proof.
  intros Hk Hl. rewrite <- sb_of_bytes_take, <- (sb_of_bytes_take new). f_equal.
  unfold torn. rewrite take_app_le by (rewrite length_take; lia).
  rewrite take_take. f_equal. lia.
Qed.

Lemma torn_write f f' s d' k :
  sb_committed s f → valid_copy d' → commit_seq d' = s + 1 → sb_in_range d' → (k ≤ 8)%nat →
  write_page f (commit_page (s + 1)) (torn (sb_bytes d') (ps_page f (commit_page (s + 1))) k) = Ok f' →
  load f' = load f ∨ load f' = Ok d'.
Proof.
  intros Hc Hv Hsq Hr Hk E. pose proof Hc as (Hwf & Hn & Hs0 & _).
  destruct (torn_page (sb_bytes d') (ps_page f (commit_page (s + 1))) k) as [Hl Hb];
    [done|apply length_sb_bytes|by apply ps_page_length|apply sb_bytes_bytes|by apply ps_page_bytes|].
  destruct (next_page_write f s _ Hc Hl Hb) as (f1 & E1 & Hwf1 & Hn1 & Hold & Hnew & Hq).
  assert (f1 = f') as -> by congruence. destruct k as [|k].
  - left. rewrite !load_pick by done. pose proof (commit_page_next s Hs0).
    assert (copy_at f' (commit_page (s + 1)) = copy_at f (commit_page (s + 1))) as Hnew'
      by (rewrite Hnew; unfold torn; simpl; by rewrite drop_0).
    destruct (commit_page_next s Hs0) as [[E2 E3]|[E2 E3]]; rewrite E2 in *; rewrite E3 in *; congruence.
  - right. rewrite sb_of_bytes_torn in Hnew by (rewrite ?length_sb_bytes; page_lia).
    unfold sb_bytes in Hnew. rewrite sb_of_bytes_bytes in Hnew by done.
    rewrite (load_winner f' (s + 1)); [by rewrite Hnew|].
    apply (next_committed f s f' (encode_fields (sb_fields d'))); try done;
      rewrite <- (app_nil_r (encode_fields _)), sb_of_bytes_bytes by done; done.
Qed.

Lemma destroyed_write f f' s bs :
  sb_committed s f → length bs = Z.to_nat kPageSize → Forall is_byte bs →
  ¬ valid_copy (sb_of_bytes bs) → write_page f (commit_page (s + 1)) bs = Ok f' →
  load f' = load f.
Proof.
  intros Hc Hl Hb Hinv E.
  destruct (next_page_write f s bs Hc Hl Hb) as (f1 & E1 & Hwf1 & Hn1 & Hold & Hnew & _).
  assert (f1 = f') as -> by congruence. pose proof Hc as (Hwf & Hn & Hs0 & Hv & Hseq & _).
  rewrite (load_winner f s) by done. rewrite (load_winner f' s); [by rewrite Hold|].
  split_and!; [done..|by rewrite Hold|by rewrite Hold|]. left. by rewrite Hnew.
Qed.

(** The first commit on a formatted file (no valid copy on it). *)
Lemma first_commit d f :
  ps_wf f → 2 ≤ num_pages f → ¬ valid_copy (copy_at f 0) → ¬ valid_copy (copy_at f 1) →
  valid_copy d → sb_in_range d → 0 ≤ commit_seq d → commit_seq d + 1 < 2 ^ 64 →
  ∃ f', commit d f = Ok (with_seq d (commit_seq d + 1), f') ∧ sb_committed (commit_seq d + 1) f'.
Proof.
  intros Hwf Hn Hi0 Hi1 Hv Hr Hs0 Hs. unfold commit, write_copy.
  assert (u64 (commit_seq d + 1) = commit_seq d + 1) as -> by (apply Z.mod_small; lia).
  set (d' := with_seq d _).
  assert (sb_in_range d') as Hr' by (apply with_seq_in_range; [done|lia]).
  change (commit_seq d') with (commit_seq d + 1). pose proof (commit_page_range (commit_seq d + 1)).
  destruct (write_page_ok f (commit_page (commit_seq d + 1)) (sb_bytes d'))
    as (f' & -> & Hwf' & Hn' & Hq);
    [done|unfold max_pages; lia|apply length_sb_bytes|apply sb_bytes_bytes|].
  exists f'. split; [done|].
  assert (copy_at f' (commit_page (commit_seq d + 1)) = d') as Hnew
    by (unfold copy_at; rewrite Hq, decide_True by lia; by apply sb_of_bytes_bytes).
  split_and!; [done|lia|lia|by rewrite Hnew|by rewrite Hnew|left].
  unfold copy_at. pose proof (commit_page_next (commit_seq d + 1)).
  rewrite Hq, decide_False by lia. unfold copy_at in Hi0, Hi1.
  destruct (commit_page_next (commit_seq d + 1)) as [[_ ->]|[_ ->]]; [lia|done..].
Qed.

(** A commit that is not interrupted. *)
Lemma commit_ok d f :
  sb_committed (commit_seq d) f → valid_copy d → sb_in_range d → commit_seq d + 1 < 2 ^ 64 →
  let d' := with_seq d (commit_seq d + 1) in
  ∃ f', commit d f = Ok (d', f') ∧ sb_committed (commit_seq d') f' ∧ load f' = Ok d' ∧
    num_pages f' = num_pages f ∧ ∀ q, 2 ≤ q → ps_page f' q = ps_page f q.
Proof.
  intros Hc Hv Hr Hs d'. pose proof Hc as (Hwf & Hn & Hs0 & _).
  assert (u64 (commit_seq d + 1) = commit_seq d + 1) as Hu by (apply Z.mod_small; lia).
  assert (sb_of_bytes (sb_bytes d') = d') as Hd'
    by (apply sb_of_bytes_bytes, with_seq_in_range; [done|lia]).
  destruct (next_page_write f _ (sb_bytes d') Hc (length_sb_bytes _) (sb_bytes_bytes _))
    as (f' & E & Hwf' & Hn' & Hold & Hnew & Hq).
  pose proof (commit_page_range (commit_seq d + 1)) as Hp.
  destruct (write_page_ok f (commit_page (commit_seq d + 1)) (sb_bytes d')) as (f1 & E1 & _ & Hnum & _);
    [done|unfold max_pages; lia|apply length_sb_bytes|apply sb_bytes_bytes|].
  assert (f1 = f') as -> by congruence. rewrite Hd' in Hnew.
  assert (sb_committed (commit_seq d') f') as Hc'
    by (apply (next_committed f _ f' (sb_bytes d')); rewrite ?Hd'; done).
  exists f'. unfold commit, write_copy. rewrite Hu. change (with_seq d (commit_seq d + 1)) with d'.
  change (commit_seq d') with (commit_seq d + 1). rewrite E. split; [done|]. split; [done|].
  split; [rewrite (load_winner _ _ Hc'); change (commit_seq d') with (commit_seq d + 1); by rewrite Hnew|].
  split; [lia|]. intros q Hq2. apply Hq; lia.
Qed.

(** C6: from a committed state, a commit of the in-memory record succeeds and is
    what [load] then returns; and after a crash at any point of it, [load]
    returns what it returned before the commit, or the new record: never a mix
    and never a failure. *)
Theorem commit_crash_atomic d f :
  sb_committed (commit_seq d) f → valid_copy d → sb_in_range d → commit_seq d + 1 < 2 ^ 64 →
  let d' := with_seq d (commit_seq d + 1) in
  (∃ f', commit d f = Ok (d', f') ∧ sb_committed (commit_seq d') f' ∧ load f' = Ok d' ∧
     ∀ q, 2 ≤ q → ps_page f' q = ps_page f q) ∧
  ∀ f', commit_crash d f f' → load f' = load f ∨ load f' = Ok d'.
Proof.
  intros Hc Hv Hr Hs d'. pose proof Hc as (Hwf & Hn & Hs0 & _).
  assert (u64 (commit_seq d + 1) = commit_seq d + 1) as Hu by (apply Z.mod_small; lia).
  assert (valid_copy d') as Hv' by exact Hv.
  assert (commit_seq d' = commit_seq d + 1) as Hsq by done.
  assert (sb_in_range d') as Hr' by (apply with_seq_in_range; [done|lia]).
  split.
  - destruct (commit_ok d f Hc Hv Hr Hs) as (f' & E & Hc' & El & _ & Hq). by exists f'.
  - intros f' Hcr. destruct Hcr as [|k f' d1 p1 Hk E|bs f' p1 Hl Hb Hinv E]; [by left|..].
    + assert (d1 = d') as Hd1 by (unfold d1, d'; by rewrite Hu).
      unfold p1 in E. rewrite Hd1, Hsq in E. apply (torn_write f f' (commit_seq d) d' k); done.
    + left. unfold p1 in E. rewrite Hu in E. by apply (destroyed_write f f' (commit_seq d) bs).
Qed.
End crash.

(** ** Witness: format, commit twice *)

Definition w_sb : SuperblockDisk := with_seq (init_fresh 2 1) 1.
Definition w_sb_file : PageFile :=
  match commit (init_fresh 2 1) (zero_file 3) with Ok (_, f) => f | Err _ => zero_file 3 end.

Lemma w_sb_committed : sb_committed 1 w_sb_file.
Proof.
  destruct (first_commit (init_fresh 2 1) (zero_file 3)) as (f' & E & Hc).
  - apply zero_file_wf. unfold max_pages. lia.
  - by vm_compute.
  - by vm_compute.
  - by vm_compute.
  - done.
  - by apply (bool_decide_unpack _).
  - by vm_compute.
  - by vm_compute.
  - unfold w_sb_file. by rewrite E.
Qed.

Lemma commit_crash_atomic_witness :
  (∃ f', commit w_sb w_sb_file = Ok (with_seq w_sb 2, f') ∧ load f' = Ok (with_seq w_sb 2)) ∧
  ∀ f', commit_crash w_sb w_sb_file f' → load f' = load w_sb_file ∨ load f' = Ok (with_seq w_sb 2).
Proof.
  destruct (commit_crash_atomic w_sb w_sb_file w_sb_committed ltac:(reflexivity)
    ltac:(by apply (bool_decide_unpack _)) ltac:(reflexivity))
    as [(f' & E & _ & L & _) Hcr].
  split; [exact (ex_intro _ f' (conj E L))|exact Hcr].
Defined.
