(* ===== verification/Fsck.v ===== *)
(** * Fsck: check and repair of a tree file ([src/tree/fsck.cpp])

    The walk over nodes and leaves, the page accounting, and the repair that
    rebuilds bitmap and free list from the walk.  The TOML parser of the manifest
    is third-party code: what [manifest_from_toml] reads of a text is a
    parameter.  The walk keeps no set of visited nodes: its fuel bounds it. *)
From S2P Require Import Prelude PageFile TreeNodes PageAllocator Superblock.

(** ** State of a walk *)

Record PageRange := mkRange { r_start : Z; r_count : Z }.

Record TreeWalkResult := mkWalk {
  node_ranges : list PageRange;
  leaf_ranges : list PageRange;
  payload_ranges : list PageRange;
  w_n_nodes : Z;
  w_n_leaves : Z;
  total_leaf_count : Z;
  total_leaf_blocks : Z;
  plane_v2_leaves : Z;
  plane_offset_bad : Z;
  w_max_depth : Z;
  w_magic_failures : Z;
  w_crc_failures : Z;
  pointers_ok : bool;
}.

Definition walk_new : TreeWalkResult := mkWalk [] [] [] 0 0 0 0 0 0 0 0 0 true.

Definition push_node (w : TreeWalkResult) (r : PageRange) (depth : Z) : TreeWalkResult :=
  mkWalk (node_ranges w ++ [r]) (leaf_ranges w) (payload_ranges w) (w_n_nodes w) (w_n_leaves w)
    (total_leaf_count w) (total_leaf_blocks w) (plane_v2_leaves w) (plane_offset_bad w)
    (Z.max (w_max_depth w) depth) (w_magic_failures w) (w_crc_failures w) (pointers_ok w).

Definition push_leaf (w : TreeWalkResult) (r : PageRange) : TreeWalkResult :=
  mkWalk (node_ranges w) (leaf_ranges w ++ [r]) (payload_ranges w) (w_n_nodes w)
    (u64 (w_n_leaves w + 1)) (total_leaf_count w) (total_leaf_blocks w) (plane_v2_leaves w)
    (plane_offset_bad w) (w_max_depth w) (w_magic_failures w) (w_crc_failures w) (pointers_ok w).

Definition push_payload (w : TreeWalkResult) (r : PageRange) : TreeWalkResult :=
  mkWalk (node_ranges w) (leaf_ranges w) (payload_ranges w ++ [r]) (w_n_nodes w) (w_n_leaves w)
    (total_leaf_count w) (total_leaf_blocks w) (plane_v2_leaves w) (plane_offset_bad w)
    (w_max_depth w) (w_magic_failures w) (w_crc_failures w) (pointers_ok w).

Definition count_node (w : TreeWalkResult) : TreeWalkResult :=
  mkWalk (node_ranges w) (leaf_ranges w) (payload_ranges w) (u64 (w_n_nodes w + 1)) (w_n_leaves w)
    (total_leaf_count w) (total_leaf_blocks w) (plane_v2_leaves w) (plane_offset_bad w)
    (w_max_depth w) (w_magic_failures w) (w_crc_failures w) (pointers_ok w).

Definition count_rows (w : TreeWalkResult) (count : Z) : TreeWalkResult :=
  mkWalk (node_ranges w) (leaf_ranges w) (payload_ranges w) (w_n_nodes w) (w_n_leaves w)
    (u64 (total_leaf_count w + count)) (u64 (total_leaf_blocks w + u64 (count + 31) / 32))
    (plane_v2_leaves w) (plane_offset_bad w) (w_max_depth w) (w_magic_failures w)
    (w_crc_failures w) (pointers_ok w).

Definition count_plane (w : TreeWalkResult) (bad : bool) : TreeWalkResult :=
  mkWalk (node_ranges w) (leaf_ranges w) (payload_ranges w) (w_n_nodes w) (w_n_leaves w)
    (total_leaf_count w) (total_leaf_blocks w) (u64 (plane_v2_leaves w + 1))
    (if bad then u64 (plane_offset_bad w + 1) else plane_offset_bad w)
    (w_max_depth w) (w_magic_failures w) (w_crc_failures w) (pointers_ok w).

Definition magic_failure (w : TreeWalkResult) (bad_pointer : bool) : TreeWalkResult :=
  mkWalk (node_ranges w) (leaf_ranges w) (payload_ranges w) (w_n_nodes w) (w_n_leaves w)
    (total_leaf_count w) (total_leaf_blocks w) (plane_v2_leaves w) (plane_offset_bad w)
    (w_max_depth w) (u64 (w_magic_failures w + 1)) (w_crc_failures w)
    (if bad_pointer then false else pointers_ok w).

Definition crc_failure (w : TreeWalkResult) : TreeWalkResult :=
  mkWalk (node_ranges w) (leaf_ranges w) (payload_ranges w) (w_n_nodes w) (w_n_leaves w)
    (total_leaf_count w) (total_leaf_blocks w) (plane_v2_leaves w) (plane_offset_bad w)
    (w_max_depth w) (w_magic_failures w) (u64 (w_crc_failures w + 1)) (pointers_ok w).

(** A node still to visit: page, pages, depth. *)
Record StackEntry := mkEntry { e_page : Z; e_pages : Z; e_depth : Z }.

(** What the walk reads of the manifest. *)
Record TreeManifest := mkManifest { m_dim : Z; m_summary_size : Z }.
Definition manifest_default : TreeManifest := mkManifest 0 0.

(** The result of a run. *)
Record FsckResult := mkFsck {
  superblock_ok : bool;
  f_commit_seq : Z;
  root_page : Z;
  tree_walk_ok : bool;
  f_n_nodes : Z;
  f_n_leaves : Z;
  f_total_leaf_count : Z;
  max_depth_reached : Z;
  page_accounting_ok : bool;
  total_allocated : Z;
  total_free : Z;
  total_pages : Z;
  leaked_pages : Z;
  orphan_pages : Z;
  leaf_internals_ok : bool;
  crc_failures : Z;
  magic_failures : Z;
  payload_ok : bool;
  payload_extents : Z;
  referential_ok : bool;
}.

Definition all_ok (r : FsckResult) : bool :=
  superblock_ok r && tree_walk_ok r && page_accounting_ok r && leaf_internals_ok r &&
  payload_ok r && referential_ok r.

(** A run that stops at the superblock. *)
Definition fsck_stopped (seq root : Z) : FsckResult :=
  mkFsck false seq root false 0 0 0 0 false 0 0 0 0 0 false 0 0 false 0 false.

(** *** The header of the routing plane ([parse_plane_header], [src/tree/plane.cpp]) *)

Record PlaneHeader := mkPlane {
  pl_encoding : Z;
  pl_rank : Z;
  pl_blocks_bytes : Z;
  pl_alpha_bytes : Z;
  pl_flags : Z;
}.

Definition kPlaneMagic : Z := 0x314C5053.
Definition kPlaneVersion : Z := 1.

Definition plane_widths : list nat := [4; 4; 1; 1; 2; 4; 8; 8; 8; 8; 8; 8; 8; 8; 8; 8; 8; 8; 8; 8]%nat.

Definition parse_plane_header (data : list Z) : option PlaneHeader :=
  if Z.of_nat (length data) <? 128 then None
  else match decode_fields plane_widths data with
  | [magic; version; encoding; flags; rank; _; _; _; _; _; _; _; _; alpha_bytes; _; blocks_bytes;
     _; _; _; _] =>
      if negb (magic =? kPlaneMagic) || negb (version =? kPlaneVersion) then None
      else if (encoding =? 0) || (3 <? encoding) then None
      else if rank =? 0 then None
      else Some (mkPlane encoding rank blocks_bytes alpha_bytes flags)
  | _ => None
  end.

Section fsck.
Context `{PageStore F}.
Implicit Types (f : F) (w : TreeWalkResult).

(** The 112, 32 and 24 bytes a header pointer is dereferenced to. *)
Definition leaf_header_at (buf : list Z) : res TreeLeafHeader :=
  bs ← mem_read buf 0 sizeof_TreeLeafHeader; mret (leaf_header_of_bytes bs).
Definition node_header_at (buf : list Z) : res TreeNodeHeader :=
  bs ← mem_read buf 0 sizeof_TreeNodeHeader; mret (node_header_of_bytes bs).
Definition child_at (buf : list Z) (p : Z) : res ChildEntry :=
  bs ← mem_read buf p sizeof_ChildEntry; mret (child_of_bytes bs).

Definition node_crc_offset : Z := 28.

(** ** Leaves *)

Definition validate_leaf f (physical_page physical_pages : Z) w : res TreeWalkResult :=
  let w := push_leaf w (mkRange physical_page physical_pages) in
  if (physical_page =? kInvalidPage) || (physical_pages =? 0) then mret (magic_failure w true)
  else
    lbuf ← read_pages f physical_page physical_pages;
    lh ← leaf_header_at lbuf;
    if negb (lh_magic lh =? kTreeLeafMagic) then mret (magic_failure w false)
    else
      expected_crc ← header_crc lbuf leaf_crc_offset;
      let w := if lh_header_crc lh =? expected_crc then w else crc_failure w in
      let w := count_rows w (lh_count lh) in
      let w := if lh_plane_offset lh =? 0 then w
               else count_plane w (physical_pages * kPageSize <=? lh_plane_offset lh) in
      mret (if negb (lh_payload_extent_page lh =? kInvalidPage) && (0 <? lh_payload_extent_pages lh)
            then push_payload w (mkRange (lh_payload_extent_page lh) (lh_payload_extent_pages lh))
            else w).

(** ** The walk *)

Definition load_leaf_table f (sb : SuperblockDisk) : res (list LeafTableEntry) :=
  if (leaf_table_page sb =? kInvalidPage) || (leaf_table_pages sb =? 0) then throw CorruptIndex
  else
    blob ← read_pages f (leaf_table_page sb) (leaf_table_pages sb);
    n_entries ← mem_uint blob 0 8;
    for_range (Z.to_nat n_entries) 0 (λ i table,
      bs ← mem_read blob (8 + i * sizeof_LeafTableEntry) sizeof_LeafTableEntry;
      mret (table ++ [leaf_entry_of_bytes bs])) [].

(** One child of a node. *)
Definition walk_child f (leaf_table : list LeafTableEntry) (depth : Z) (ce : ChildEntry)
    (w : TreeWalkResult) (stack : list StackEntry) : res (TreeWalkResult * list StackEntry) :=
  if child_page ce =? kInvalidPage then mret (w, stack)
  else if negb (is_leaf ce =? 0) then
    let '(lpage, lpages) :=
      match leaf_table !! Z.to_nat (child_page ce) with
      | Some e => (le_page e, le_pages e)
      | None => (child_page ce, u32 (child_pages ce))
      end in
    w ← validate_leaf f lpage lpages w;
    mret (w, stack)
  else mret (count_node w, mkEntry (child_page ce) (u32 (child_pages ce)) (u32 (depth + 1)) :: stack).

(** One iteration of the loop over the stack, its top popped. *)
Definition walk_node f (leaf_table : list LeafTableEntry) (cesize npages_total : Z) (e : StackEntry)
    (w : TreeWalkResult) (stack : list StackEntry) : res (TreeWalkResult * list StackEntry) :=
  if e_page e =? kInvalidPage then mret (w, stack)
  else if (npages_total <=? e_page e) || (npages_total <? u64 (e_page e + e_pages e))
  then mret (magic_failure w true, stack)
  else
    let w := push_node w (mkRange (e_page e) (e_pages e)) (e_depth e) in
    buf ← read_pages f (e_page e) (e_pages e);
    nh ← node_header_at buf;
    if negb (nh_magic nh =? kTreeNodeMagic) then mret (magic_failure w false, stack)
    else
      expected_crc ← header_crc buf node_crc_offset;
      let w := if nh_header_crc nh =? expected_crc then w else crc_failure w in
      for_range (Z.to_nat (nh_n_children nh)) 0 (λ j '(w, stack),
        ce ← child_at buf (sizeof_TreeNodeHeader + j * cesize);
        walk_child f leaf_table (e_depth e) ce w stack) (w, stack).

Fixpoint walk_loop (fuel : nat) f (leaf_table : list LeafTableEntry) (cesize npages_total : Z)
    (w : TreeWalkResult) (stack : list StackEntry) : res TreeWalkResult :=
  match stack with
  | [] => mret w
  | e :: stack =>
      match fuel with
      | O => Err OutOfFuel
      | S fuel' =>
          '(w, stack) ← walk_node f leaf_table cesize npages_total e w stack;
          walk_loop fuel' f leaf_table cesize npages_total w stack
      end
  end.

Definition walk_tree (fuel : nat) f (sb : SuperblockDisk) (manifest : TreeManifest) : res TreeWalkResult :=
  leaf_table ← load_leaf_table f sb;
  walk_loop fuel f leaf_table (child_entry_size (m_dim manifest) (m_summary_size manifest))
    (num_pages f) walk_new [mkEntry (root_node_page sb) (root_node_pages sb) 0].

(** ** Page accounting *)

Definition range_if (page pages : Z) : list PageRange :=
  if page =? kInvalidPage then [] else [mkRange page pages].

(** The plane extent, when there is one. *)
Definition plane_range (sb : SuperblockDisk) : list PageRange :=
  if negb (plane_page sb =? kInvalidPage) && (0 <? plane_pages sb)
  then [mkRange (plane_page sb) (plane_pages sb)] else [].

Definition all_ranges (sb : SuperblockDisk) w : list PageRange :=
  node_ranges w ++ leaf_ranges w ++ payload_ranges w ++ [mkRange 0 2] ++
  range_if (alloc_bitmap_page sb) (alloc_bitmap_pages sb) ++
  range_if (codebook_page sb) (codebook_pages sb) ++
  range_if (config_page sb) (config_pages sb) ++
  range_if (pca_page sb) (pca_pages sb) ++
  range_if (cardinality_page sb) (cardinality_pages sb) ++
  plane_range sb ++ [mkRange (leaf_table_page sb) (leaf_table_pages sb)].

(** The plane cross-check: the failures it adds to [magic_failures]. *)
Definition plane_failures f (sb : SuperblockDisk) w : res Z :=
  if negb (plane_page sb =? kInvalidPage) && (0 <? plane_pages sb) then
    blob ← read_pages f (plane_page sb) (Z.min (plane_pages sb) 1);
    mret (match parse_plane_header blob with
    | Some pm =>
        let bb := if pl_encoding pm =? 2 then pl_rank pm * 4 else pl_rank pm * 16 in
        if negb (Z.land (pl_flags pm) 2 =? 0) then
          if negb (plane_v2_leaves w =? w_n_leaves w) || (0 <? plane_offset_bad w) then 1 else 0
        else
          let blocks_ok := pl_blocks_bytes pm =? u64 (total_leaf_blocks w * bb) in
          let alpha_ok := negb (pl_encoding pm =? 3) ||
                          (pl_alpha_bytes pm =? u64 (total_leaf_count w * 2)) in
          if negb blocks_ok || negb alpha_ok then 1 else 0
    | None => 1
    end)
  else mret 0.

(** Mark the pages of a range that the file has. *)
Definition mark_range (r : PageRange) (allocated : list bool) : res (list bool) :=
  for_range (Z.to_nat (r_count r)) 0 (λ i allocated,
    let p := u64 (r_start r + i) in
    if p <? Z.of_nat (length allocated) then vec_set allocated p true else mret allocated) allocated.

Fixpoint mark_ranges (rs : list PageRange) (allocated : list bool) : res (list bool) :=
  match rs with
  | [] => mret allocated
  | r :: rs => allocated ← mark_range r allocated; mark_ranges rs allocated
  end.

Definition is_bit_set (bitmap : list Z) (p : Z) : bool :=
  match bitmap !! Z.to_nat (p / 8) with
  | Some b => negb (Z.land (Z.shiftr b (p mod 8)) 1 =? 0)
  | None => false
  end.

Record Accounting := mkAcc {
  ac_allocated : Z;
  ac_free : Z;
  ac_leaked : Z;
  ac_orphan : Z;
}.

Definition account_page (in_bitmap in_tree : bool) (a : Accounting) : Accounting :=
  mkAcc (if in_tree then ac_allocated a + 1 else ac_allocated a)
    (if negb in_bitmap && negb in_tree then ac_free a + 1 else ac_free a)
    (if in_bitmap && negb in_tree then ac_leaked a + 1 else ac_leaked a)
    (if in_tree && negb in_bitmap then ac_orphan a + 1 else ac_orphan a).

Definition account (bitmap : list Z) (allocated : list bool) (n : Z) : res Accounting :=
  for_range (Z.to_nat n) 0 (λ p a,
    in_tree ← vec_get allocated p;
    mret (account_page (is_bit_set bitmap p) in_tree a)) (mkAcc 0 0 0 0).

Definition read_bitmap f (sb : SuperblockDisk) : res (list Z) :=
  if negb (alloc_bitmap_page sb =? kInvalidPage) && (0 <? alloc_bitmap_pages sb)
  then read_pages f (alloc_bitmap_page sb) (alloc_bitmap_pages sb) else mret [].

(** ** Repair *)

Definition write_free_next f (page next : Z) : res F :=
  write_page f page (bytes_put zero_page 0 (le_enc 8 next)).

(** [rebuilt[p / 8] |= ...; alloc2[p] = true]. *)
Definition rebuild_page (p : Z) (s : list Z * list bool) : res (list Z * list bool) :=
  rebuilt ← bit_set s.1 p;
  alloc2 ← vec_set s.2 p true;
  mret (rebuilt, alloc2).

Definition rebuild_range (r : PageRange) (s : list Z * list bool) : res (list Z * list bool) :=
  for_range (Z.to_nat (r_count r)) 0 (λ i s,
    let p := u64 (r_start r + i) in
    if p / 8 <? Z.of_nat (length s.1) then rebuild_page p s else mret s) s.

Fixpoint rebuild_ranges (skip : option Z) (rs : list PageRange) (s : list Z * list bool) :
    res (list Z * list bool) :=
  match rs with
  | [] => mret s
  | r :: rs =>
      if bool_decide (Some (r_start r) = skip) then rebuild_ranges skip rs s
      else s ← rebuild_range r s; rebuild_ranges skip rs s
  end.

(** Chain every page that is not marked, the lowest page first. *)
Definition rebuild_free_list f (alloc2 : list bool) : res (F * Z * Z) :=
  let n := num_pages f in
  for_range (Z.to_nat n) 0 (λ k '(f, prev_free, total_free),
    let p := n - 1 - k in
    marked ← (if p <? Z.of_nat (length alloc2) then vec_get alloc2 p else mret false);
    if (marked : bool) then mret (f, prev_free, total_free)
    else f ← write_free_next f p prev_free; mret (f, p, u64 (total_free + 1)))
  (f, kInvalidPage, 0).

Definition kBitsPerBitmapPage : Z := kPageSize * 8.

(** The new superblock, the new file and the number of free pages. *)
Definition repair_pages f (sb : SuperblockDisk) (ranges : list PageRange) : res (SuperblockDisk * F * Z) :=
  let bits_needed := num_pages f in
  let old_bmp := alloc_bitmap_page sb in
  let old_nbm := alloc_bitmap_pages sb in
  let relocated := old_nbm * kPageSize <? u64 (bits_needed + 7) / 8 in
  let bmp := if relocated then bits_needed else old_bmp in
  let nbm := if relocated then u32 (bits_needed / kBitsPerBitmapPage + 2) else old_nbm in
  f ← (if relocated then truncate f (u64 (bmp + nbm)) else mret f);
  s ← rebuild_ranges (if relocated then Some old_bmp else None) ranges
        (replicate (Z.to_nat (nbm * kPageSize)) 0, replicate (Z.to_nat (num_pages f)) false);
  s ← (if relocated then for_range (Z.to_nat nbm) bmp (λ p s, rebuild_page p s) s else mret s);
  f ← write_pages f bmp nbm s.1;
  let sb := set_n_pages (set_bitmap sb bmp nbm) (num_pages f) in
  '(f, prev_free, total_free) ← rebuild_free_list f s.2;
  '(sb, f) ← commit (set_free_list sb prev_free total_free) f;
  mret (sb, f, total_free).

(** ** The run *)

(** [manifest_from_toml] on a text; [None] when it throws. *)
Context (manifest_from_toml : list Z → option TreeManifest).

(** The bytes before the first zero. *)
Fixpoint until_nul (bs : list Z) : list Z :=
  match bs with
  | [] => []
  | b :: bs => if b =? 0 then [] else b :: until_nul bs
  end.

Definition load_manifest f (sb : SuperblockDisk) : res TreeManifest :=
  if negb (config_page sb =? kInvalidPage) && (0 <? config_pages sb) then
    cfg_buf ← read_pages f (config_page sb) (config_pages sb);
    mret (default manifest_default (manifest_from_toml (until_nul cfg_buf)))
  else mret manifest_default.

(** From the walk on. *)
Definition fsck_tree (fuel : nat) f (repair : bool) (sb : SuperblockDisk) (sb_ok : bool) :
    res (FsckResult * F) :=
  manifest ← load_manifest f sb;
  walk ← walk_tree fuel f sb manifest;
  let walk_ok := (w_magic_failures walk =? 0) && pointers_ok walk in
  let internals_ok := (w_magic_failures walk =? 0) && (w_crc_failures walk =? 0) in
  extra ← plane_failures f sb walk;
  let ranges := all_ranges sb walk in
  allocated ← mark_ranges ranges (replicate (Z.to_nat (num_pages f)) false);
  bitmap ← read_bitmap f sb;
  acc ← account bitmap allocated (num_pages f);
  let accounting_ok := (ac_leaked acc =? 0) && (ac_orphan acc =? 0) in
  let result acc ok := mkFsck sb_ok (commit_seq sb) (root_node_page sb) walk_ok
    (w_n_nodes walk) (w_n_leaves walk) (total_leaf_count walk) (w_max_depth walk)
    ok (ac_allocated acc) (ac_free acc) (num_pages f) (ac_leaked acc) (ac_orphan acc)
    internals_ok (w_crc_failures walk) (u64 (w_magic_failures walk + extra))
    true (Z.of_nat (length (payload_ranges walk))) true in
  if repair && negb accounting_ok && negb (alloc_bitmap_page sb =? kInvalidPage) &&
     (0 <? alloc_bitmap_pages sb)
  then
    '(_, f', n_free) ← repair_pages f sb ranges;
    mret (result (mkAcc (ac_allocated acc) n_free 0 0) true, f')
  else mret (result acc accounting_ok, f).

Definition fsck (fuel : nat) f (repair : bool) : res (FsckResult * F) :=
  match Superblock.load f with
  | Err (Thrown _) => mret (fsck_stopped 0 0, f)
  | Err e => Err e
  | Ok sb =>
      let sb_ok := (0 <? commit_seq sb) &&
        ((root_node_page sb =? kInvalidPage) || (root_node_page sb <? num_pages f)) in
      if (0 <? alloc_bitmap_pages sb) &&
         (alloc_bitmap_pages sb * kPageSize * 8 <? n_pages sb)
      then mret (fsck_stopped (commit_seq sb) (root_node_page sb), f)
      else fsck_tree fuel f repair sb sb_ok
  end.
End fsck.

(** * Accounting *)

(** Page [p] is one of the range's; adding to the start wraps at 64 bits. *)
Definition in_range (r : PageRange) (p : Z) : Prop :=
  ∃ i, 0 ≤ i < r_count r ∧ p = u64 (r_start r + i).

Definition claimed (rs : list PageRange) (p : Z) : Prop := Exists (λ r, in_range r p) rs.

Lemma claimed_cons r rs p : claimed (r :: rs) p ↔ in_range r p ∨ claimed rs p.
Proof. apply Exists_cons. Qed.

Lemma u64_nonneg x : 0 ≤ u64 x.
Proof. apply Z.mod_pos_bound. lia. Qed.

(** The entry of page [p] in a vector of flags. *)
Definition marked (al : list bool) (p : Z) : bool := default false (al !! Z.to_nat p).

Lemma marked_get al p : 0 ≤ p < Z.of_nat (length al) → vec_get al p = Ok (marked al p).
Proof. intros Hp. destruct (vec_get_Ok al p Hp) as (x & Hx & ->). unfold marked. by rewrite Hx. Qed.

Lemma marked_set al p :
  0 ≤ p < Z.of_nat (length al) →
  ∃ al', vec_set al p true = Ok al' ∧ length al' = length al ∧
    ∀ q, 0 ≤ q → marked al' q = if decide (q = p) then true else marked al q.
Proof.
  intros Hp. rewrite vec_set_Ok by done. eexists. split; [done|]. split; [apply length_insert|].
  intros q Hq. unfold marked. case_decide as E.
  - subst. by rewrite list_lookup_insert_eq by lia.
  - by rewrite list_lookup_insert_ne by lia.
Qed.

Lemma marked_new n p : marked (replicate n false) p = false.
Proof.
  unfold marked. destruct (_ !! _) eqn:E; [|done]. by apply lookup_replicate in E as [-> _].
Qed.

Lemma mark_range_ok r al :
  ∃ al', mark_range r al = Ok al' ∧ length al' = length al ∧
    ∀ p, 0 ≤ p < Z.of_nat (length al) → marked al' p = true ↔ marked al p = true ∨ in_range r p.
Proof.
  unfold mark_range. match goal with |- context [for_range _ _ ?f _] => set (body := f) end.
  destruct (for_range_ok (λ j al', length al' = length al ∧
      ∀ p, 0 ≤ p < Z.of_nat (length al) → marked al' p = true ↔
        marked al p = true ∨ ∃ i, 0 ≤ i < j ∧ p = u64 (r_start r + i))
    body (Z.to_nat (r_count r)) 0 al) as (al' & E & Hl & Hm).
  - split; [done|]. intros p _. split; [by left|]. intros [?|(i & ? & _)]; [done|lia].
  - intros j a Hj [Hl Hm]. unfold body. rewrite Hl. pose proof (u64_nonneg (r_start r + j)) as Hp0.
    set (q := u64 (r_start r + j)) in *.
    assert (∀ p, (∃ i, 0 ≤ i < j + 1 ∧ p = u64 (r_start r + i)) ↔
      p = q ∨ ∃ i, 0 ≤ i < j ∧ p = u64 (r_start r + i)) as Hsplit.
    { intros p. split.
      - intros (i & Hi & ->). destruct (decide (i = j)) as [->|]; [by left|right].
        exists i. split; [lia|done].
      - intros [->|(i & Hi & ->)]; [exists j|exists i]; (split; [lia|done]). }
    destruct (Z.ltb_spec q (Z.of_nat (length al))) as [Hlt|Hge].
    + destruct (marked_set a q) as (a' & E & Hl' & Hm'); [lia|]. exists a'. split; [done|].
      split; [congruence|]. intros p Hp. rewrite Hm', Hsplit by lia. case_decide; [tauto|].
      rewrite Hm by done. tauto.
    + exists a. split; [done|]. split; [done|]. intros p Hp. rewrite Hsplit, Hm by done.
      split; [tauto|]. intros [?|[?|?]]; [by left|lia|by right].
  - exists al'. split; [done|]. split; [done|]. intros p Hp. rewrite Hm by done. unfold in_range.
    split; (intros [?|(i & ? & ?)]; [by left|right; exists i; split; [lia|done]]).
Qed.

Lemma mark_ranges_ok rs al :
  ∃ al', mark_ranges rs al = Ok al' ∧ length al' = length al ∧
    ∀ p, 0 ≤ p < Z.of_nat (length al) → marked al' p = true ↔ marked al p = true ∨ claimed rs p.
Proof.
  revert al. induction rs as [|r rs IH]; intros al.
  - exists al. split; [done|]. split; [done|]. intros p _. split; [by left|].
    intros [?|Hc]; [done|by inversion Hc].
  - destruct (mark_range_ok r al) as (a1 & E1 & L1 & M1). destruct (IH a1) as (a2 & E2 & L2 & M2).
    exists a2. cbn [mark_ranges]. rewrite E1, bind_Ok. split; [done|]. split; [congruence|].
    intros p Hp. rewrite M2 by lia. rewrite M1, claimed_cons by done. tauto.
Qed.

Lemma is_bit_set_bitv bm p : 0 ≤ p → is_bit_set bm p = bitv bm p.
Proof.
  intros Hp. unfold is_bit_set, bitv, byte_at.
  destruct (bm !! Z.to_nat (p / 8)) as [b|].
  - rewrite shiftr_land_1 by (apply Z.mod_pos_bound; lia). simpl.
    by destruct (Z.testbit b (p mod 8)).
  - simpl. by rewrite Z.bits_0.
Qed.

(** The number of pages below [n] with property [P]. *)
Fixpoint count_if (P : Z → bool) (n : nat) : Z :=
  match n with
  | O => 0
  | S n' => count_if P n' + (if P (Z.of_nat n') then 1 else 0)
  end.

Lemma count_if_nonneg P n : 0 ≤ count_if P n.
Proof. induction n as [|n IH]; cbn [count_if]; [lia|]. destruct (P _); lia. Qed.

Lemma count_if_zero P n : count_if P n = 0 ↔ ∀ p, 0 ≤ p < Z.of_nat n → P p = false.
Proof.
  induction n as [|n IH]; cbn [count_if]; [split; [intros; lia|done]|].
  pose proof (count_if_nonneg P n). split.
  - intros Hz p Hp. destruct (P (Z.of_nat n)) eqn:E; [lia|].
    destruct (Z.eq_dec p (Z.of_nat n)) as [->|]; [done|]. apply IH; lia.
  - intros Hp. rewrite (Hp (Z.of_nat n)) by lia. rewrite (proj2 IH); [done|]. intros; apply Hp; lia.
Qed.

Lemma count_if_ext P Q n : (∀ p, 0 ≤ p < Z.of_nat n → P p = Q p) → count_if P n = count_if Q n.
Proof.
  induction n as [|n IH]; cbn [count_if]; intros Hpq; [done|].
  rewrite IH, (Hpq (Z.of_nat n)) by (intros; try apply Hpq; lia). done.
Qed.

Lemma account_ok bm al n :
  length al = n →
  account bm al (Z.of_nat n) = Ok (mkAcc (count_if (marked al) n)
    (count_if (λ p, negb (bitv bm p) && negb (marked al p)) n)
    (count_if (λ p, bitv bm p && negb (marked al p)) n)
    (count_if (λ p, marked al p && negb (bitv bm p)) n)).
Proof.
  intros Hl. unfold account. rewrite Nat2Z.id.
  match goal with |- for_range _ _ ?f _ = _ => set (body := f) end.
  destruct (for_range_ok (λ j a, a = mkAcc (count_if (marked al) (Z.to_nat j))
    (count_if (λ p, negb (bitv bm p) && negb (marked al p)) (Z.to_nat j))
    (count_if (λ p, bitv bm p && negb (marked al p)) (Z.to_nat j))
    (count_if (λ p, marked al p && negb (bitv bm p)) (Z.to_nat j))) body n 0 (mkAcc 0 0 0 0))
    as (a & E & Ha).
  - done.
  - intros j a Hj ->. unfold body. rewrite marked_get by lia. rewrite bind_Ok.
    eexists. split; [done|]. replace (Z.to_nat (j + 1)) with (S (Z.to_nat j)) by lia.
    cbn [count_if]. rewrite Z2Nat.id, is_bit_set_bitv by lia. unfold account_page. cbn.
    destruct (bitv bm j), (marked al j); cbn [negb andb]; rewrite ?Z.add_0_r; done.
  - rewrite E, Ha. by rewrite Z.add_0_l, Nat2Z.id.
Qed.

(** The accounting of a list of ranges: the counts, and when they are clean. *)
Lemma account_ranges rs bm n :
  ∃ al acc, mark_ranges rs (replicate n false) = Ok al ∧ length al = n ∧
    account bm al (Z.of_nat n) = Ok acc ∧
    acc = mkAcc (count_if (marked al) n)
      (count_if (λ p, negb (bitv bm p) && negb (marked al p)) n)
      (count_if (λ p, bitv bm p && negb (marked al p)) n)
      (count_if (λ p, marked al p && negb (bitv bm p)) n) ∧
    (ac_leaked acc = 0 ∧ ac_orphan acc = 0 ↔
     ∀ p, 0 ≤ p < Z.of_nat n → bitv bm p = true ↔ claimed rs p).
Proof.
  destruct (mark_ranges_ok rs (replicate n false)) as (al & E & Hl & Hm). rewrite length_replicate in Hl, Hm.
  exists al. eexists. split; [done|]. split; [done|]. split; [by apply account_ok|]. split; [done|].
  cbn [ac_leaked ac_orphan].
  assert (∀ p, 0 ≤ p < Z.of_nat n → claimed rs p ↔ marked al p = true) as Hc.
  { intros p Hp. rewrite Hm, marked_new by done. intuition discriminate. }
  rewrite !count_if_zero. split.
  - intros [Hk Ho] p Hp. specialize (Hk p Hp). specialize (Ho p Hp). rewrite Hc by done.
    destruct (bitv bm p), (marked al p); done.
  - intros Hall. split; intros p Hp; specialize (Hall p Hp); rewrite Hc in Hall by done;
      destruct (bitv bm p), (marked al p); intuition discriminate.
Qed.

(** the accounting is exact: it finds no leaked and no orphan page exactly
    when, for every page of the file, the bit is set if and only if a range
    claims the page; and every page is counted once: claimed, leaked or free. *)
Theorem accounting_exact rs bm n :
  ∃ al acc, mark_ranges rs (replicate n false) = Ok al ∧ account bm al (Z.of_nat n) = Ok acc ∧
    ac_allocated acc + ac_leaked acc + ac_free acc = Z.of_nat n ∧
    (ac_leaked acc = 0 ∧ ac_orphan acc = 0 ↔
     ∀ p, 0 ≤ p < Z.of_nat n → bitv bm p = true ↔ claimed rs p).
Proof.
  destruct (account_ranges rs bm n) as (al & acc & E & _ & Ea & -> & Hclean).
  exists al. eexists. split; [done|]. split; [exact Ea|]. split; [|exact Hclean].
  cbn [ac_allocated ac_leaked ac_free]. clear.
  induction n as [|n IH]; cbn [count_if]; [done|].
  destruct (bitv bm (Z.of_nat n)), (marked al (Z.of_nat n)); cbn [negb andb]; lia.
Qed.

(** * Repair *)

(** The rebuilt bitmap and the vector of flags agree on the set [C] of pages. *)
Record rebuilt_is (n nb : Z) (s : list Z * list bool) (C : Z → Prop) : Prop := {
  rb_flags : Z.of_nat (length s.2) = n;
  rb_length : Z.of_nat (length s.1) = nb;
  rb_bytes : bytes_ok s.1;
  rb_bits : ∀ p, 0 ≤ p → bitv s.1 p = true ↔ C p;
  rb_marks : ∀ p, 0 ≤ p < n → marked s.2 p = true ↔ C p;
}.

Lemma rebuilt_is_ext n nb s C C' :
  rebuilt_is n nb s C → (∀ p, 0 ≤ p → C p ↔ C' p) → rebuilt_is n nb s C'.
Proof.
  intros Hs Hc. destruct Hs. split; [done..| |].
  - intros p Hp. rewrite <- Hc by done. auto.
  - intros p Hp. rewrite <- Hc by lia. auto.
Qed.

Lemma rebuilt_new n nb :
  0 ≤ n → 0 ≤ nb →
  rebuilt_is n nb (replicate (Z.to_nat nb) 0, replicate (Z.to_nat n) false) (λ _, False).
Proof.
  intros Hn Hnb. split; cbn [fst snd]; [rewrite length_replicate; lia..| | |].
  - apply Forall_replicate. by vm_compute.
  - intros p Hp. unfold bitv. rewrite byte_at_zeros, Z.bits_0. done.
  - intros p Hp. rewrite marked_new. done.
Qed.

Lemma rebuild_page_ok n nb s C p :
  rebuilt_is n nb s C → 0 ≤ p < n → n ≤ 8 * nb →
  ∃ s', rebuild_page p s = Ok s' ∧ rebuilt_is n nb s' (λ q, C q ∨ q = p).
Proof.
  intros Hs Hp Hn. destruct Hs as [Hf Hl Hb Hbits Hm]. unfold rebuild_page.
  destruct (bit_set_ok s.1 p) as (bm & E & Hlb & Hby & Hu); [unfold bits; lia|].
  destruct (marked_set s.2 p) as (al & E2 & Hla & Hma); [lia|].
  exists (bm, al). rewrite E, bind_Ok, E2, bind_Ok. split; [done|].
  split; cbn [fst snd]; [lia|lia|by apply Hby| |].
  - intros q Hq. rewrite Hu by done. case_decide; [tauto|]. rewrite Hbits by done. tauto.
  - intros q Hq. rewrite Hma by lia. case_decide; [tauto|]. rewrite Hm by done. tauto.
Qed.

Lemma rebuild_range_ok n nb r s C :
  rebuilt_is n nb s C → n ≤ 8 * nb → (∀ p, in_range r p → p < n) →
  ∃ s', rebuild_range r s = Ok s' ∧ rebuilt_is n nb s' (λ p, C p ∨ in_range r p).
Proof.
  intros Hs Hn Hr. unfold rebuild_range.
  match goal with |- context [for_range _ _ ?f _] => set (body := f) end.
  destruct (for_range_ok (λ j s, rebuilt_is n nb s (λ p, C p ∨ ∃ i, 0 ≤ i < j ∧ p = u64 (r_start r + i)))
    body (Z.to_nat (r_count r)) 0 s) as (s' & E & Hs').
  - apply (rebuilt_is_ext _ _ _ C); [done|]. intros p _. split; [by left|].
    intros [?|(i & ? & _)]; [done|lia].
  - intros j t Hj Ht. unfold body. pose proof (u64_nonneg (r_start r + j)) as Hp0.
    set (q := u64 (r_start r + j)) in *.
    assert (q < n) as Hq by (apply Hr; exists j; split; [lia|done]).
    rewrite (rb_length _ _ _ _ Ht). rewrite (proj2 (Z.ltb_lt (q / 8) nb)) by (Z.div_mod_to_equations; lia).
    destruct (rebuild_page_ok n nb t _ q Ht) as (t' & E & Ht'); [lia|done|].
    exists t'. split; [done|]. apply (rebuilt_is_ext _ _ _ _ _ Ht'). intros p _. split.
    + intros [[?|(i & Hi & ->)]| ->]; [by left|right; exists i; split; [lia|done]|right; exists j; split; [lia|done]].
    + intros [?|(i & Hi & ->)]; [by left; left|]. destruct (decide (i = j)) as [->|]; [by right|].
      left. right. exists i. split; [lia|done].
  - exists s'. split; [done|]. apply (rebuilt_is_ext _ _ _ _ _ Hs'). intros p _. unfold in_range.
    split; (intros [?|(i & ? & ?)]; [by left|right; exists i; split; [lia|done]]).
Qed.

(** The ranges the rebuild keeps. *)
Definition kept (skip : option Z) (rs : list PageRange) : list PageRange :=
  filter (λ r, Some (r_start r) ≠ skip) rs.

Lemma rebuild_ranges_ok n nb skip rs s C :
  rebuilt_is n nb s C → n ≤ 8 * nb → (∀ p, claimed (kept skip rs) p → p < n) →
  ∃ s', rebuild_ranges skip rs s = Ok s' ∧ rebuilt_is n nb s' (λ p, C p ∨ claimed (kept skip rs) p).
Proof.
  revert s C. induction rs as [|r rs IH]; intros s C Hs Hn Hr; cbn [rebuild_ranges].
  - exists s. split; [done|]. apply (rebuilt_is_ext _ _ _ _ _ Hs). intros p _. split; [by left|].
    intros [?|Hc]; [done|by inversion Hc].
  - unfold kept in Hr. rewrite filter_cons in Hr. fold (kept skip rs) in Hr.
    case_bool_decide as Hsk.
    + rewrite decide_False in Hr by tauto. destruct (IH s C Hs Hn Hr) as (s' & E & Hs').
      exists s'. split; [done|]. unfold kept. rewrite filter_cons, decide_False by tauto. done.
    + rewrite decide_True in Hr by done.
      destruct (rebuild_range_ok n nb r s C Hs Hn) as (s1 & E1 & Hs1).
      { intros p Hp. apply Hr, claimed_cons. by left. }
      destruct (IH s1 _ Hs1 Hn) as (s2 & E2 & Hs2).
      { intros p Hp. apply Hr, claimed_cons. by right. }
      exists s2. rewrite E1, bind_Ok. split; [done|]. apply (rebuilt_is_ext _ _ _ _ _ Hs2).
      intros p _. unfold kept. rewrite filter_cons, decide_True by done. rewrite claimed_cons. tauto.
Qed.

(** The pages of a relocated bitmap. *)
Lemma rebuild_run_ok n nb s C b (k : nat) :
  rebuilt_is n nb s C → n ≤ 8 * nb → 0 ≤ b → b + Z.of_nat k ≤ n →
  ∃ s', for_range k b (λ p s, rebuild_page p s) s = Ok s' ∧
    rebuilt_is n nb s' (λ p, C p ∨ b ≤ p < b + Z.of_nat k).
Proof.
  intros Hs Hn Hb Hk.
  destruct (for_range_ok (λ j s, rebuilt_is n nb s (λ p, C p ∨ b ≤ p < j)) (λ p s, rebuild_page p s) k b s)
    as (s' & E & Hs').
  - apply (rebuilt_is_ext _ _ _ _ _ Hs). intros p _. split; [by left|]. intros [?|?]; [done|lia].
  - intros j t Hj Ht. destruct (rebuild_page_ok n nb t _ j Ht) as (t' & E & Ht'); [lia|done|].
    exists t'. split; [done|]. apply (rebuilt_is_ext _ _ _ _ _ Ht'). intros p _. split.
    + intros [[?|?]| ->]; [by left|right; lia|right; lia].
    + intros [?|?]; [by left; left|]. destruct (decide (p = j)) as [->|]; [by right|]. left. right. lia.
  - by exists s'.
Qed.

(** ** The free list *)

Section free_list.
Context `{PageStoreLaws F}.
Implicit Types f : F.

(** The chain of links from [head] visits exactly [ps] and ends. *)
Fixpoint free_chain f (head : Z) (ps : list Z) : Prop :=
  match ps with
  | [] => head = kInvalidPage
  | p :: ps => head = p ∧ free_chain f (free_link f p) ps
  end.

Lemma free_chain_same f f' head ps :
  (∀ p, p ∈ ps → ps_page f' p = ps_page f p) → free_chain f head ps → free_chain f' head ps.
Proof.
  revert head. induction ps as [|p ps IH]; intros head Hsame Hc; [done|].
  destruct Hc as [-> Hc]. split; [done|]. unfold free_link. rewrite Hsame by left.
  apply IH; [|done]. intros q Hq. apply Hsame. by right.
Qed.

(** The pages not marked, from [lo] up to [lo + k]. *)
Definition unmarked (al : list bool) (lo k : Z) : list Z :=
  filter (λ p, marked al p = false) (seqZ lo k).

Lemma unmarked_elem al lo k p : p ∈ unmarked al lo k ↔ lo ≤ p < lo + k ∧ marked al p = false.
Proof. unfold unmarked. rewrite list_elem_of_filter, elem_of_seqZ. tauto. Qed.

Lemma unmarked_step al lo k :
  0 ≤ k → unmarked al lo (k + 1) =
    if marked al lo then unmarked al (lo + 1) k else lo :: unmarked al (lo + 1) k.
Proof.
  intros Hk. unfold unmarked. rewrite (seqZ_cons lo (k + 1)) by lia.
  replace (Z.succ lo) with (lo + 1) by lia. replace (Z.pred (k + 1)) with k by lia.
  rewrite filter_cons. destruct (marked al lo); [by rewrite decide_False by done|by rewrite decide_True].
Qed.

Lemma free_chain_links f head ps n :
  free_chain f head ps → Forall (λ p, 0 ≤ p < n) ps →
  link_ok n head ∧ ∀ p, p ∈ ps → link_ok n (free_link f p).
Proof.
  revert head. induction ps as [|q ps IH]; intros head Hc Hps.
  - split; [by left|]. intros p Hp. by apply not_elem_of_nil in Hp.
  - destruct Hc as [-> Hc]. inversion_clear Hps as [|? ? Hq Hps'].
    destruct (IH _ Hc Hps') as [Hl Hr]. split; [by right|].
    intros p [->|Hp]%elem_of_cons; [done|by apply Hr].
Qed.

Lemma unmarked_range al n : Forall (λ p, 0 ≤ p < n) (unmarked al 0 n).
Proof. apply Forall_forall. intros p [Hp _]%unmarked_elem. lia. Qed.

Lemma write_free_next_ok f p next :
  ps_wf f → 0 ≤ p < num_pages f → 0 ≤ next < 2 ^ 64 →
  ∃ f', write_free_next f p next = Ok f' ∧ ps_wf f' ∧ num_pages f' = num_pages f ∧
    free_link f' p = next ∧ ∀ q, 0 ≤ q → q ≠ p → ps_page f' q = ps_page f q.
Proof.
  intros Hwf Hp Hnext. pose proof (ps_num_nonneg f Hwf).
  destruct (write_page_ok f p (bytes_put zero_page 0 (le_enc 8 next))) as (f' & E & Hwf' & Hn & Hq);
    [done|lia|apply link_page_length|apply link_page_bytes|].
  exists f'. split; [done|]. split; [done|]. split; [lia|]. split.
  - unfold free_link. rewrite Hq, decide_True by lia. by apply free_link_write.
  - intros q Hq0 Hne. by rewrite Hq, decide_False.
Qed.

Lemma rebuild_free_list_ok f al :
  ps_wf f → Z.of_nat (length al) = num_pages f →
  ∃ f' head nfree, rebuild_free_list f al = Ok (f', head, nfree) ∧ ps_wf f' ∧
    num_pages f' = num_pages f ∧ free_chain f' head (unmarked al 0 (num_pages f)) ∧
    nfree = Z.of_nat (length (unmarked al 0 (num_pages f))) ∧
    (∀ p, 0 ≤ p → marked al p = true → ps_page f' p = ps_page f p).
Proof.
  intros Hwf Hl. unfold rebuild_free_list. pose proof (ps_num_nonneg f Hwf) as Hn.
  set (n := num_pages f) in *.
  match goal with |- context [for_range _ _ ?g _] => set (body := g) end.
  destruct (for_range_ok (λ k '(f', head, nfree), ps_wf f' ∧ num_pages f' = n ∧
      free_chain f' head (unmarked al (n - k) k) ∧
      nfree = Z.of_nat (length (unmarked al (n - k) k)) ∧
      (∀ p, 0 ≤ p → marked al p = true ∨ p < n - k → ps_page f' p = ps_page f p))
    body (Z.to_nat n) 0 (f, kInvalidPage, 0)) as ([[f' head] nfree] & E & Hw' & Hn' & Hc & Hnf & Hsame).
  - rewrite Z.sub_0_r. split; [done|]. split; [done|]. unfold unmarked. rewrite seqZ_nil by lia.
    split; [done|]. split; [done|]. done.
  - intros k [[f1 head] nfree] Hk (Hw & Hn1 & Hc & Hnf & Hsame). unfold body.
    set (p := n - 1 - k). replace (n - k) with (p + 1) in Hc, Hnf, Hsame by lia.
    replace (n - (k + 1)) with p by lia. rewrite unmarked_step by lia.
    rewrite (proj2 (Z.ltb_lt p (Z.of_nat (length al)))) by lia. rewrite marked_get, bind_Ok by lia.
    destruct (marked al p) eqn:Em.
    + eexists. split; [done|]. split; [done|]. split; [done|]. split; [done|]. split; [done|].
      intros q Hq Hor. apply Hsame; [done|]. destruct (decide (q = p)) as [->|]; [by left|].
      destruct Hor; [by left|right; lia].
    + assert (link_ok n head) as Hhead.
      { apply (free_chain_links f1 head (unmarked al (p + 1) k)); [done|]. apply Forall_forall.
        intros q [Hq _]%unmarked_elem. lia. }
      assert (0 ≤ head < 2 ^ 64) as Hh.
      { destruct Hhead as [->|Hh]; [by vm_compute|]. unfold max_pages in Hn. lia. }
      destruct (write_free_next_ok f1 p head Hw ltac:(lia) Hh) as (f2 & E & Hw2 & Hn2 & Hlink & Hq).
      rewrite E, bind_Ok. eexists. split; [done|]. split; [done|]. split; [lia|].
      split; [|split].
      * split; [done|]. rewrite Hlink. apply (free_chain_same f1); [|done].
        intros q [Hq' _]%unmarked_elem. apply Hq; lia.
      * cbn [length]. rewrite Nat2Z.inj_succ, Hnf.
        assert (Z.of_nat (length (unmarked al (p + 1) k)) ≤ k) as Hle.
        { unfold unmarked. pose proof (length_filter (λ q, marked al q = false) (seqZ (p + 1) k)) as Hlen.
          rewrite length_seqZ in Hlen. lia. }
        rewrite u64_id by (unfold max_pages in Hn; lia). lia.
      * intros q Hq0 Hor. assert (q ≠ p) as Hne by (intros ->; destruct Hor; [congruence|lia]).
        rewrite Hq by done.
        apply Hsame; [done|]. destruct Hor; [by left|right; lia].
  - exists f', head, nfree. rewrite E. replace (n - (0 + Z.of_nat (Z.to_nat n))) with 0 in Hc, Hnf by lia.
    replace (0 + Z.of_nat (Z.to_nat n)) with n in Hc, Hnf by lia.
    split; [done|]. split; [done|]. split; [done|]. split; [done|]. split; [done|].
    intros p Hp Hm. apply Hsame; [done|by left].
Qed.
End free_list.

(** ** The whole repair *)

Lemma set_bitmap_in_range d p n :
  sb_in_range d → 0 ≤ p < 2 ^ 64 → 0 ≤ n < 2 ^ 32 → sb_in_range (set_bitmap d p n).
Proof.
  intros Hd Hp Hn. unfold sb_in_range, sb_fields, set_bitmap in *.
  repeat (apply Forall_cons in Hd as [? Hd]). repeat (apply Forall_cons; split); done.
Qed.

Lemma set_n_pages_in_range d n : sb_in_range d → 0 ≤ n < 2 ^ 64 → sb_in_range (set_n_pages d n).
Proof.
  intros Hd Hn. unfold sb_in_range, sb_fields, set_n_pages in *.
  repeat (apply Forall_cons in Hd as [? Hd]). repeat (apply Forall_cons; split); done.
Qed.

Lemma set_free_list_in_range d h n :
  sb_in_range d → 0 ≤ h < 2 ^ 64 → 0 ≤ n < 2 ^ 64 → sb_in_range (set_free_list d h n).
Proof.
  intros Hd Hh Hn. unfold sb_in_range, sb_fields, set_free_list in *.
  repeat (apply Forall_cons in Hd as [? Hd]). repeat (apply Forall_cons; split); done.
Qed.

Lemma unmarked_count bm al n :
  (∀ p, 0 ≤ p < Z.of_nat n → bitv bm p = marked al p) →
  Z.of_nat (length (unmarked al 0 (Z.of_nat n))) = count_free bm n.
Proof.
  induction n as [|n IH]; intros Hbm; [done|]. cbn [count_free].
  rewrite <- IH by (intros; apply Hbm; lia). rewrite Hbm by lia. unfold unmarked.
  rewrite Nat2Z.inj_succ, <- Z.add_1_r, seqZ_app by lia. rewrite Z.add_0_l, filter_app, length_app.
  rewrite (seqZ_cons (Z.of_nat n) 1), (seqZ_nil (Z.succ (Z.of_nat n))) by lia. rewrite filter_cons.
  destruct (marked al (Z.of_nat n)); [rewrite decide_False by done|rewrite decide_True by done];
    rewrite filter_nil; cbn [length]; lia.
Qed.

Section repair.
Context `{PageStoreLaws F}.
Implicit Types f : F.

Lemma sb_committed_same s f f' :
  sb_committed s f → ps_wf f' → 2 ≤ num_pages f' →
  ps_page f' 0 = ps_page f 0 → ps_page f' 1 = ps_page f 1 → sb_committed s f'.
Proof.
  intros (_ & _ & Hs & Hc) Hwf Hn E0 E1. unfold sb_committed, copy_at in *.
  split; [done|]. split; [done|]. split; [done|].
  destruct (commit_page_next s Hs) as [[A B]|[A B]]; rewrite A, B in *; rewrite E0, E1; done.
Qed.

(** What the repair leaves: a superblock that is loaded, an allocator in its
    invariant whose bits are exactly the set [C], a free list of exactly the
    other pages, and every page of [C] untouched, apart from the two superblock
    pages and the bitmap's. *)
Definition repaired f (sb : SuperblockDisk) (C : Z → Prop) (bmp nbm : Z) (sb' : SuperblockDisk)
    (f' : F) (nfree : Z) : Prop :=
  let n := num_pages f in
  let head := free_list_head sb' in
  sb' = with_seq (set_free_list (set_n_pages (set_bitmap sb bmp nbm) n) head nfree) (commit_seq sb + 1) ∧
  Superblock.load f' = Ok sb' ∧ sb_committed (commit_seq sb') f' ∧ num_pages f' = n ∧
  (∃ a, PageAllocator.load f' bmp nbm n head nfree = Ok a ∧ alloc_ok a f' ∧
     read_pages f' bmp nbm = Ok (bitmap_ a) ∧ ∀ p, 0 ≤ p → bitv (bitmap_ a) p = true ↔ C p) ∧
  (∃ ps, free_chain f' head ps ∧ NoDup ps ∧ ∀ p, p ∈ ps ↔ 0 ≤ p < n ∧ ¬ C p) ∧
  ∀ p, 2 ≤ p → C p → ¬ (bmp ≤ p < bmp + nbm) → ps_page f' p = ps_page f p.

(** Writing the rebuilt bitmap and the free list, and committing. *)
Lemma repair_write f sb s C bmp nbm :
  let n := num_pages f in
  ps_wf f → sb_committed (commit_seq sb) f → valid_copy sb → sb_in_range sb →
  commit_seq sb + 1 < 2 ^ 64 → 0 < nbm < 2 ^ 20 → 2 ≤ bmp → bmp + nbm ≤ n →
  rebuilt_is n (nbm * kPageSize) s C → n ≤ 8 * (nbm * kPageSize) →
  (∀ p, C p → p < n) → C 0 → C 1 → (∀ p, bmp ≤ p < bmp + nbm → C p) →
  ∃ sb' f' nfree,
    (f ← write_pages f bmp nbm s.1;
     let sb := set_n_pages (set_bitmap sb bmp nbm) (num_pages f) in
     '(f, prev_free, total_free) ← rebuild_free_list f s.2;
     '(sb, f) ← commit (set_free_list sb prev_free total_free) f;
     mret (sb, f, total_free)) = Ok (sb', f', nfree) ∧ repaired f sb C bmp nbm sb' f' nfree.
Proof.
  intros n Hwf Hsb Hv Hr Hseq Hnbm Hbmp Hfit Hs Hcov HC HC0 HC1 HCb.
  pose proof (ps_num_nonneg f Hwf) as Hn. fold n in Hn.
  destruct Hs as [Hfl Hlen Hby Hbits Hm].
  destruct (ps_write_ok f bmp nbm s.1) as (f1 & E1 & Hw1 & Hn1 & Hp1); [done|lia|lia|lia|lia|done|].
  fold n in Hn1. rewrite Z.max_l in Hn1 by lia.
  destruct (rebuild_free_list_ok f1 s.2 Hw1 ltac:(lia)) as (f2 & head & nfree & E2 & Hw2 & Hn2 & Hch & Hnf & Hp2).
  rewrite Hn1 in *.
  assert (∀ p, 0 ≤ p < n → C p → ps_page f2 p = ps_page f1 p) as Hp2'.
  { intros p Hp Hc. apply Hp2; [lia|]. apply Hm; [lia|done]. }
  assert (link_ok n head ∧ ∀ p, p ∈ unmarked s.2 0 n → link_ok n (free_link f2 p)) as [Hhead Hlinks].
  { apply free_chain_links; [done|apply unmarked_range]. }
  assert (0 ≤ head < 2 ^ 64) as Hh.
  { destruct Hhead as [->|Hh]; [by vm_compute|]. unfold max_pages in Hn. lia. }
  assert (nfree = count_free s.1 (Z.to_nat n)) as Hcount.
  { rewrite Hnf. replace n with (Z.of_nat (Z.to_nat n)) at 1 by lia. apply unmarked_count.
    intros p Hp. pose proof (Hbits p ltac:(lia)) as B1. pose proof (Hm p ltac:(lia)) as B2.
    destruct (bitv s.1 p), (marked s.2 p); intuition discriminate. }
  pose proof (count_free_bound s.1 (Z.to_nat n)) as Hcb.
  set (sb1 := set_free_list (set_n_pages (set_bitmap sb bmp nbm) n) head nfree).
  assert (sb_committed (commit_seq sb) f2) as Hsb2.
  { apply (sb_committed_same _ f); [done|done|lia| |]; rewrite Hp2', Hp1 by (done || lia);
      by rewrite decide_False by lia. }
  assert (sb_in_range sb1) as Hr1.
  { unfold max_pages in Hn. unfold sb1.
    apply set_free_list_in_range; [|done|lia]. apply set_n_pages_in_range; [|lia].
    apply set_bitmap_in_range; [done|lia|lia]. }
  destruct (commit_ok sb1 f2) as (f3 & E3 & Hc3 & El3 & Hn3 & Hp3); [done|done|done|done|].
  exists (with_seq sb1 (commit_seq sb + 1)), f3, nfree. rewrite E1, bind_Ok. cbv zeta. rewrite Hn1, E2, bind_Ok.
  fold sb1. rewrite E3, bind_Ok. split; [done|]. unfold repaired. fold n.
  change (free_list_head (with_seq sb1 (commit_seq sb + 1))) with head. fold sb1.
  split; [done|]. split; [exact El3|]. split; [exact Hc3|]. split; [lia|].
  assert (∀ p, 0 ≤ p < n → marked s.2 p = false → ps_page f3 p = ps_page f2 p) as Hp3'.
  { intros p Hp Hmp. apply Hp3. assert (¬ C p) as Hnc by (rewrite <- Hm, Hmp by done; done).
    destruct (decide (p = 0)) as [->|]; [done|]. destruct (decide (p = 1)) as [->|]; [done|]. lia. }
  assert (∀ p, bmp ≤ p < bmp + nbm → ps_page f3 p = page_slice s.1 (p - bmp)) as Hbp.
  { intros p Hp. rewrite Hp3 by lia. rewrite Hp2' by (try apply HCb; lia).
    rewrite Hp1 by lia. by rewrite decide_True. }
  split; [|split].
  - destruct (ps_read_ok f3 bmp nbm) as (bs & Er & Hlb & Hbs); [apply Hc3|lia..|].
    assert (bs = s.1) as ->.
    { apply (page_slices_ext _ _ nbm); [done|lia|]. intros k Hk. rewrite Hbs by done.
      rewrite Hbp by lia. f_equal. lia. }
    eexists. split; [apply load_reads; [done|page_lia|done|done]|].
    split; [|split; [exact Er|exact Hbits]]. split; cbn [bitmap_ n_pages_ n_free_pages_ free_list_head_].
    + done.
    + apply Hc3.
    + lia.
    + unfold bits. lia.
    + intros j Hj. destruct (bitv s.1 j) eqn:E; [|done]. apply Hbits in E; [|lia].
      apply HC in E. lia.
    + done.
    + done.
    + intros p Hp Hb. assert (marked s.2 p = false) as Hmp.
      { pose proof (Hbits p ltac:(lia)) as B1. pose proof (Hm p ltac:(lia)) as B2.
        destruct (bitv s.1 p), (marked s.2 p); intuition discriminate. }
      unfold free_link. rewrite Hp3' by done. apply Hlinks, unmarked_elem. split; [lia|done].
  - exists (unmarked s.2 0 n). split; [|split].
    + apply (free_chain_same f2); [|done]. intros p [Hp Hmp]%unmarked_elem. apply Hp3'; [lia|done].
    + apply NoDup_filter, NoDup_seqZ.
    + intros p. rewrite unmarked_elem. split.
      * intros [Hp Hmp]. split; [lia|]. rewrite <- Hm by lia. by rewrite Hmp.
      * intros [Hp Hnc]. split; [lia|]. rewrite <- Hm in Hnc by lia. by destruct (marked s.2 p).
  - intros p Hp Hcp Hnb. rewrite Hp3 by done. pose proof (HC p Hcp).
    rewrite Hp2' by (done || lia). rewrite Hp1 by lia. by rewrite decide_False.
Qed.

(** A relocated bitmap has [n / 32768 + 2] pages: enough for the file and itself
    up to [2^30] pages (4 TiB), but not for larger files: there the unchecked
    writes for the bitmap's own pages leave the vector. *)
Lemma relocation_too_small :
  let n := 2 ^ 31 in let nbm := u32 (n / kBitsPerBitmapPage + 2) in
  nbm * kPageSize * 8 < n + nbm.
Proof. done. Qed.

(** What the repair starts from: the superblock is the committed one, the bitmap
    lies in the file behind the superblock, the ranges list both and claim only
    pages of the file. *)
Record repairable f (sb : SuperblockDisk) (ranges : list PageRange) : Prop := {
  rp_wf : ps_wf f;
  rp_committed : sb_committed (commit_seq sb) f;
  rp_valid : valid_copy sb;
  rp_range : sb_in_range sb;
  rp_seq : commit_seq sb + 1 < 2 ^ 64;
  rp_size : num_pages f ≤ 2 ^ 30;
  rp_bitmap : 2 ≤ alloc_bitmap_page sb ∧ 0 < alloc_bitmap_pages sb < 2 ^ 20 ∧
    alloc_bitmap_page sb + alloc_bitmap_pages sb ≤ num_pages f;
  rp_sb_claimed : mkRange 0 2 ∈ ranges;
  rp_bitmap_claimed : mkRange (alloc_bitmap_page sb) (alloc_bitmap_pages sb) ∈ ranges;
  rp_inside : ∀ p, claimed ranges p → p < num_pages f;
}.

(** The bitmap region is too small for the file. *)
Definition must_move f (sb : SuperblockDisk) : Prop :=
  alloc_bitmap_pages sb * kPageSize * 8 < num_pages f.

#[export] Instance must_move_dec f sb : Decision (must_move f sb).
Proof. unfold must_move. apply _. Defined.

(** The pages in use after the repair: when the bitmap moves to the end of the
    file, its old extent is freed. *)
Definition in_use f (sb : SuperblockDisk) (ranges : list PageRange) (bmp nbm : Z) (p : Z) : Prop :=
  (¬ must_move f sb ∧ claimed ranges p) ∨
  (must_move f sb ∧ (claimed (kept (Some (alloc_bitmap_page sb)) ranges) p ∨ bmp ≤ p < bmp + nbm)).

Lemma claimed_elem r rs p : r ∈ rs → in_range r p → claimed rs p.
Proof. intros Hr Hp. apply Exists_exists. by exists r. Qed.

Lemma claimed_kept skip rs p : claimed (kept skip rs) p → claimed rs p.
Proof.
  intros (r & Hr & Hp)%Exists_exists. apply list_elem_of_filter in Hr as [_ Hr].
  by apply (claimed_elem r).
Qed.

Lemma in_range_small r p :
  0 ≤ r_start r → r_start r + r_count r ≤ 2 ^ 64 → r_start r ≤ p < r_start r + r_count r → in_range r p.
Proof.
  intros Hs Hc Hp. exists (p - r_start r). split; [lia|]. rewrite u64_id by lia. lia.
Qed.

(** The repair on both paths, the bitmap in place or moved. *)
Lemma repair_pages_ok f sb ranges :
  repairable f sb ranges →
  ∃ sb' f1 f' nfree bmp nbm,
    repair_pages f sb ranges = Ok (sb', f', nfree) ∧
    repaired f1 sb (in_use f sb ranges bmp nbm) bmp nbm sb' f' nfree ∧
    (∀ p, 0 ≤ p < num_pages f → ps_page f1 p = ps_page f p) ∧
    num_pages f1 ≤ nbm * kPageSize * 8 ∧
    if decide (must_move f sb) then bmp = num_pages f ∧ num_pages f1 = num_pages f + nbm
    else bmp = alloc_bitmap_page sb ∧ nbm = alloc_bitmap_pages sb ∧ f1 = f.
Proof.
  intros [Hwf Hsb Hv Hr Hseq Hsize (Hb1 & Hb2 & Hb3) Hsc Hbc Hin].
  pose proof (ps_num_nonneg f Hwf) as Hn0. set (n := num_pages f) in *.
  set (bp := alloc_bitmap_page sb) in *. set (bn := alloc_bitmap_pages sb) in *.
  assert ((bn * kPageSize <? u64 (n + 7) / 8) = bool_decide (must_move f sb)) as Hmove.
  { unfold must_move. fold n bn. rewrite u64_id by lia. unfold kPageSize.
    destruct (Z.ltb_spec (bn * 4096) ((n + 7) / 8)); symmetry;
      [apply bool_decide_eq_true|apply bool_decide_eq_false]; Z.div_mod_to_equations; lia. }
  unfold repair_pages. fold n bp bn. rewrite Hmove. cbv zeta.
  destruct (decide (must_move f sb)) as [Hm|Hm].
  - rewrite bool_decide_true by done. unfold kBitsPerBitmapPage.
    change (kPageSize * 8) with 32768. set (nbm := n / 32768 + 2).
    assert (0 < nbm < 2 ^ 20) as Hnbm by (unfold nbm; page_div_lia).
    rewrite (u32_id nbm) by lia. rewrite u64_id by lia.
    assert (n + nbm ≤ 8 * (nbm * kPageSize)) as Hcov by (unfold nbm; page_div_lia).
    destruct (ps_truncate_ok f (n + nbm) Hwf) as (f1 & E1 & Hw1 & Hn1 & Hp1); [unfold max_pages; lia|].
    rewrite E1, bind_Ok, Hn1.
    destruct (rebuild_ranges_ok (n + nbm) (nbm * kPageSize) (Some bp) ranges _ _
      (rebuilt_new (n + nbm) (nbm * kPageSize) ltac:(lia) ltac:(page_lia)) Hcov) as (s1 & E2 & Hs1).
    { intros p Hp. apply claimed_kept, Hin in Hp. lia. }
    rewrite E2, bind_Ok.
    destruct (rebuild_run_ok (n + nbm) (nbm * kPageSize) s1 _ n (Z.to_nat nbm) Hs1 Hcov) as (s2 & E3 & Hs2);
      [lia|lia|]. rewrite E3, bind_Ok.
    assert (rebuilt_is (num_pages f1) (nbm * kPageSize) s2 (in_use f sb ranges n nbm)) as Hs3.
    { rewrite Hn1. apply (rebuilt_is_ext _ _ _ _ _ Hs2). intros p Hp. unfold in_use. fold bp.
      rewrite Z2Nat.id by lia. tauto. }
    assert (in_use f sb ranges n nbm 0 ∧ in_use f sb ranges n nbm 1) as [HC0 HC1].
    { assert (mkRange 0 2 ∈ kept (Some bp) ranges) as Hk
        by (apply list_elem_of_filter; split; [cbn; intros [=]; lia|done]).
      split; right; (split; [done|]); left; apply (claimed_elem _ _ _ Hk);
        apply in_range_small; cbn; lia. }
    destruct (repair_write f1 sb s2 (in_use f sb ranges n nbm) n nbm) as (sb' & f' & nfree & E & Hrep);
      [done| |done|done|done|done|lia|lia|done|lia| |done|done| |].
    + apply (sb_committed_same _ f); [done|done|lia| |]; rewrite Hp1 by lia; by rewrite decide_True by lia.
    + intros p [[? ?]|[_ [Hp|Hp]]]; [done| |lia]. apply claimed_kept, Hin in Hp. lia.
    + intros p Hp. right. split; [done|]. by right.
    + exists sb', f1, f', nfree, n, nbm. split; [exact E|]. split; [done|].
      split; [|split; [lia|done]].
      intros p Hp. rewrite Hp1 by lia. by rewrite decide_True by lia.
  - rewrite bool_decide_false by done. rewrite bind_Ok. fold n.
    assert (n ≤ 8 * (bn * kPageSize)) as Hcov by (unfold must_move in Hm; fold n bn in Hm; lia).
    destruct (rebuild_ranges_ok n (bn * kPageSize) None ranges _ _
      (rebuilt_new n (bn * kPageSize) ltac:(lia) ltac:(page_lia)) Hcov) as (s1 & E2 & Hs1).
    { intros p Hp. by apply claimed_kept, Hin in Hp. }
    rewrite E2, !bind_Ok.
    assert (kept None ranges = ranges) as Hk.
    { unfold kept. clear. induction ranges as [|r rs IH]; [done|].
      rewrite filter_cons, decide_True by done. by f_equal. }
    rewrite Hk in Hs1.
    assert (rebuilt_is n (bn * kPageSize) s1 (in_use f sb ranges bp bn)) as Hs3.
    { apply (rebuilt_is_ext _ _ _ _ _ Hs1). intros p Hp. unfold in_use. tauto. }
    destruct (repair_write f sb s1 (in_use f sb ranges bp bn) bp bn) as (sb' & f' & nfree & E & Hrep);
      [done|done|done|done|done|done|done|done|done|lia| | | | |].
    + intros p [[_ Hp]|[? _]]; [by apply Hin|done].
    + left. split; [done|]. apply (claimed_elem _ _ _ Hsc), in_range_small; cbn; lia.
    + left. split; [done|]. apply (claimed_elem _ _ _ Hsc), in_range_small; cbn; lia.
    + intros p Hp. left. split; [done|]. unfold max_pages in Hn0.
      apply (claimed_elem _ _ _ Hbc), in_range_small; cbn; lia.
    + exists sb', f, f', nfree, bp, bn. split; [exact E|]. split; [done|]. split; [done|].
      split; [fold n; lia|done].
Qed.

End repair.
