(* ===== verification/FsckWalk.v ===== *)
(** * What a tree walk depends on

    A walk that finds every pointer in the file reads only the pages of the
    ranges it reports: repairing the allocation state does not change what it
    finds, so a second check is clean.  A walk over acyclic child pointers ends;
    over a cycle it does not. *)
From S2P Require Import Prelude PageFile TreeNodes PageAllocator Superblock Fsck.

(** ** A walk only adds *)

Definition walk_ranges (w : TreeWalkResult) : list PageRange := node_ranges w ++ leaf_ranges w.

(** [w'] reports what [w] reports, and possibly more. *)
Record walk_le (w w' : TreeWalkResult) : Prop := {
  wl_nodes : node_ranges w ⊆ node_ranges w';
  wl_leaves : leaf_ranges w ⊆ leaf_ranges w';
  wl_payloads : payload_ranges w ⊆ payload_ranges w';
  wl_pointers : pointers_ok w' = true → pointers_ok w = true;
}.

#[global] Instance walk_le_preorder : PreOrder walk_le.
Proof.
  split.
  - intros w. by split.
  - intros w1 w2 w3 [A1 A2 A3 A4] [B1 B2 B3 B4]. split; [by etrans..|auto].
Qed.

Lemma walk_le_simple w w' :
  node_ranges w' = node_ranges w → leaf_ranges w' = leaf_ranges w →
  payload_ranges w' = payload_ranges w → (pointers_ok w' = true → pointers_ok w = true) → walk_le w w'.
Proof. intros E1 E2 E3 Hp. split; [by rewrite E1|by rewrite E2|by rewrite E3|done]. Qed.

Lemma magic_failure_le w b : walk_le w (magic_failure w b).
Proof. apply walk_le_simple; try done. by destruct b. Qed.
Lemma crc_failure_le w : walk_le w (crc_failure w).
Proof. by apply walk_le_simple. Qed.
Lemma count_node_le w : walk_le w (count_node w).
Proof. by apply walk_le_simple. Qed.
Lemma count_rows_le w n : walk_le w (count_rows w n).
Proof. by apply walk_le_simple. Qed.
Lemma count_plane_le w b : walk_le w (count_plane w b).
Proof. by apply walk_le_simple. Qed.
Lemma push_node_le w r d : walk_le w (push_node w r d).
Proof. split; try done. cbn. by apply list_subseteq_app_l. Qed.
Lemma push_leaf_le w r : walk_le w (push_leaf w r).
Proof. split; try done. cbn. by apply list_subseteq_app_l. Qed.
Lemma push_payload_le w r : walk_le w (push_payload w r).
Proof. split; try done. cbn. by apply list_subseteq_app_l. Qed.

(** [walk_mono]: one more step of a walk, whatever branches it took. *)
Ltac walk_mono :=
  repeat match goal with
  | |- walk_le ?w ?w => reflexivity
  | |- walk_le _ (if ?b then _ else _) => destruct b
  | |- walk_le _ (magic_failure _ _) => etransitivity; [|apply magic_failure_le]
  | |- walk_le _ (crc_failure _) => etransitivity; [|apply crc_failure_le]
  | |- walk_le _ (count_node _) => etransitivity; [|apply count_node_le]
  | |- walk_le _ (count_rows _ _) => etransitivity; [|apply count_rows_le]
  | |- walk_le _ (count_plane _ _) => etransitivity; [|apply count_plane_le]
  | |- walk_le _ (push_node _ _ _) => etransitivity; [|apply push_node_le]
  | |- walk_le _ (push_leaf _ _) => etransitivity; [|apply push_leaf_le]
  | |- walk_le _ (push_payload _ _) => etransitivity; [|apply push_payload_le]
  end.

Section walk.
Context `{PageStoreLaws F}.
Implicit Types f : F.

Lemma validate_leaf_le f p n w w' :
  validate_leaf f p n w = Ok w' → walk_le (push_leaf w (mkRange p n)) w'.
Proof.
  unfold validate_leaf. destruct ((p =? kInvalidPage) || (n =? 0)).
  { intros [= <-]. walk_mono. }
  intros E. apply bind_Ok_inv in E as (lbuf & _ & E). apply bind_Ok_inv in E as (lh & _ & E).
  destruct (negb (lh_magic lh =? kTreeLeafMagic)); [injection E as <-; walk_mono|].
  apply bind_Ok_inv in E as (crc & _ & E). injection E as <-. walk_mono.
Qed.

(** One step for the walk's state and stack. *)
Definition step_le (s s' : TreeWalkResult * list StackEntry) : Prop := walk_le s.1 s'.1.

Lemma walk_child_le f lt d ce w st s' :
  walk_child f lt d ce w st = Ok s' → walk_le w s'.1.
Proof.
  unfold walk_child. destruct (child_page ce =? kInvalidPage); [intros [= <-]; done|].
  destruct (negb (is_leaf ce =? 0)); [|intros [= <-]; cbn; walk_mono].
  destruct (match lt !! Z.to_nat (child_page ce) with
    Some e => (le_page e, le_pages e) | None => (child_page ce, u32 (child_pages ce)) end) as [lp ln].
  intros E. apply bind_Ok_inv in E as (w1 & E & [= <-]). cbn.
  etransitivity; [apply push_leaf_le|by apply (validate_leaf_le f lp ln)].
Qed.

Lemma walk_node_le f lt ce n e w st s' :
  walk_node f lt ce n e w st = Ok s' → walk_le w s'.1.
Proof.
  unfold walk_node. destruct (e_page e =? kInvalidPage); [intros [= <-]; done|].
  destruct ((n <=? e_page e) || (n <? u64 (e_page e + e_pages e))); [intros [= <-]; cbn; walk_mono|].
  intros E. apply bind_Ok_inv in E as (buf & _ & E). apply bind_Ok_inv in E as (nh & _ & E).
  destruct (negb (nh_magic nh =? kTreeNodeMagic)); [injection E as <-; cbn; walk_mono|].
  apply bind_Ok_inv in E as (crc & _ & E). cbv zeta in E.
  apply (for_range_preserves step_le) in E; [|unfold step_le; done|unfold step_le; intros t u v; apply transitivity|].
  - unfold step_le in E. cbn in E. etransitivity; [|exact E]. walk_mono.
  - intros j [w1 st1] s2 Ej. apply bind_Ok_inv in Ej as (c & _ & Ej).
    unfold step_le. by apply walk_child_le in Ej.
Qed.

Lemma walk_loop_le fuel f lt ce n w st w' : walk_loop fuel f lt ce n w st = Ok w' → walk_le w w'.
Proof.
  revert w st. induction fuel as [|fuel IH]; intros w [|e st] E; cbn [walk_loop] in E;
    try (injection E as <-; done); [done|].
  apply bind_Ok_inv in E as ([w1 st1] & E1 & E2).
  etransitivity; [by apply (walk_node_le _ _ _ _ _ _ _ _ E1)|by apply (IH w1 st1)].
Qed.

(** ** A walk reads only what it reports *)

(** The two files have the same contents at the pages of [r]. *)
Definition agree f f' (r : PageRange) : Prop :=
  0 ≤ r_start r ∧ 0 ≤ r_count r ∧
  ∀ p, r_start r ≤ p < r_start r + r_count r → p < num_pages f → ps_page f' p = ps_page f p.

(** The walk found every pointer in the file, and [f'] agrees with [f] on what
    it reports. *)
Definition stable f f' w : Prop :=
  pointers_ok w = true ∧ Forall (agree f f') (walk_ranges w).

Lemma stable_le f f' w w' : walk_le w w' → stable f f' w' → stable f f' w.
Proof.
  intros [Hn Hl _ Hp] [Hok Ha]. split; [auto|]. unfold walk_ranges in *.
  rewrite Forall_forall in Ha |- *. intros r [Hr|Hr]%elem_of_app; apply Ha, elem_of_app; auto.
Qed.

Lemma stable_node f f' w w' r d : walk_le (push_node w r d) w' → stable f f' w' → agree f f' r.
Proof.
  intros Hle [_ Ha]%(stable_le _ _ _ _ Hle). rewrite Forall_forall in Ha. apply Ha.
  unfold walk_ranges. cbn. rewrite !elem_of_app, list_elem_of_singleton. tauto.
Qed.

Lemma stable_leaf f f' w w' r : walk_le (push_leaf w r) w' → stable f f' w' → agree f f' r.
Proof.
  intros Hle [_ Ha]%(stable_le _ _ _ _ Hle). rewrite Forall_forall in Ha. apply Ha.
  unfold walk_ranges. cbn. rewrite !elem_of_app, list_elem_of_singleton. tauto.
Qed.

Section transfer.
Context (f f' : F) (Hwf : ps_wf f) (Hwf' : ps_wf f') (Hgrow : num_pages f ≤ num_pages f').

Lemma read_agree p n bs :
  agree f f' (mkRange p n) → read_pages f p n = Ok bs → read_pages f' p n = Ok bs.
Proof.
  intros (Hp & Hn & Ha) E. cbn in *. destruct (Z.eq_dec n 0) as [->|Hne].
  { rewrite ps_read_none in *. done. }
  destruct (read_inside f p n bs Hwf Hp ltac:(lia) E) as [Hin _].
  apply (read_same f _ _ _ _ Hwf Hwf' Hp Hn Hgrow); [|done]. intros q Hq. apply Ha; lia.
Qed.

Lemma validate_leaf_same p n w w' :
  validate_leaf f p n w = Ok w' → stable f f' w' → validate_leaf f' p n w = Ok w'.
Proof.
  intros E Hs. pose proof (stable_leaf _ _ _ _ _ (validate_leaf_le _ _ _ _ _ E) Hs) as Ha.
  unfold validate_leaf in *. destruct ((p =? kInvalidPage) || (n =? 0)); [done|].
  apply bind_Ok_inv in E as (buf & Er & E). by rewrite (read_agree _ _ _ Ha Er), bind_Ok.
Qed.

Lemma walk_child_same lt d ce w st s' :
  walk_child f lt d ce w st = Ok s' → stable f f' s'.1 → walk_child f' lt d ce w st = Ok s'.
Proof.
  unfold walk_child. destruct (child_page ce =? kInvalidPage); [done|].
  destruct (negb (is_leaf ce =? 0)); [|done].
  destruct (match lt !! Z.to_nat (child_page ce) with
    Some e => (le_page e, le_pages e) | None => (child_page ce, u32 (child_pages ce)) end) as [lp ln].
  intros E Hs. apply bind_Ok_inv in E as (w1 & E & [= <-]).
  by rewrite (validate_leaf_same _ _ _ _ E Hs), bind_Ok.
Qed.

Lemma walk_node_same lt cesize e w st s' :
  walk_node f lt cesize (num_pages f) e w st = Ok s' → stable f f' s'.1 →
  walk_node f' lt cesize (num_pages f') e w st = Ok s'.
Proof.
  intros E Hs. unfold walk_node in *. destruct (e_page e =? kInvalidPage); [done|].
  destruct ((num_pages f <=? e_page e) || (num_pages f <? u64 (e_page e + e_pages e))) eqn:Eb.
  { injection E as <-. by destruct Hs as [[=] _]. }
  apply orb_false_iff in Eb as [E1%Z.leb_gt E2%Z.ltb_ge].
  rewrite (proj2 (Z.leb_gt _ _)), (proj2 (Z.ltb_ge _ _)) by lia. cbn [orb].
  cbv zeta in *. apply bind_Ok_inv in E as (buf & Er & E). apply bind_Ok_inv in E as (nh & Eh & E).
  assert (agree f f' (mkRange (e_page e) (e_pages e))) as Ha.
  { apply (stable_node _ _ w s'.1 _ (e_depth e)); [|done].
    destruct (negb (nh_magic nh =? kTreeNodeMagic)); [injection E as <-; cbn; walk_mono|].
    apply bind_Ok_inv in E as (crc & _ & E). apply (for_range_preserves step_le) in E.
    - unfold step_le in E. cbn in E. etransitivity; [|exact E]. walk_mono.
    - unfold step_le. done.
    - unfold step_le. intros t u v. apply transitivity.
    - intros j [w1 st1] s2 Ej. apply bind_Ok_inv in Ej as (c & _ & Ej).
      unfold step_le. by apply walk_child_le in Ej. }
  rewrite (read_agree _ _ _ Ha Er), bind_Ok, Eh, bind_Ok.
  destruct (negb (nh_magic nh =? kTreeNodeMagic)); [done|].
  apply bind_Ok_inv in E as (crc & Ec & E). rewrite Ec, bind_Ok.
  edestruct (for_range_transfer step_le (λ s, stable f f' s.1)) as [E' _]; [| | |exact E|exact Hs|exact E'].
  - intros j [w1 st1] s2 Ej. apply bind_Ok_inv in Ej as (c & _ & Ej).
    unfold step_le. by apply walk_child_le in Ej.
  - intros t t' Ht. by apply stable_le.
  - intros j [w1 st1] s2 Ej Hg. apply bind_Ok_inv in Ej as (c & Ec' & Ej).
    rewrite Ec', bind_Ok. by apply walk_child_same.
Qed.

Lemma walk_loop_same fuel lt cesize w st w' :
  walk_loop fuel f lt cesize (num_pages f) w st = Ok w' → stable f f' w' →
  walk_loop fuel f' lt cesize (num_pages f') w st = Ok w'.
Proof.
  revert w st. induction fuel as [|fuel IH]; intros w [|e st] E Hs; cbn [walk_loop] in *; try done.
  apply bind_Ok_inv in E as ([w1 st1] & E1 & E2).
  rewrite (walk_node_same _ _ _ _ _ _ E1), bind_Ok; [by apply IH|].
  cbn. apply (stable_le _ _ _ w'); [by apply (walk_loop_le _ _ _ _ _ _ _ _ E2)|done].
Qed.

Lemma load_leaf_table_same sb t :
  agree f f' (mkRange (leaf_table_page sb) (leaf_table_pages sb)) →
  load_leaf_table f sb = Ok t → load_leaf_table f' sb = Ok t.
Proof.
  intros Ha. unfold load_leaf_table.
  destruct ((leaf_table_page sb =? kInvalidPage) || (leaf_table_pages sb =? 0)); [done|].
  intros E. apply bind_Ok_inv in E as (buf & Er & E). by rewrite (read_agree _ _ _ Ha Er), bind_Ok.
Qed.

Lemma walk_tree_same fuel sb m w :
  agree f f' (mkRange (leaf_table_page sb) (leaf_table_pages sb)) →
  walk_tree fuel f sb m = Ok w → stable f f' w → walk_tree fuel f' sb m = Ok w.
Proof.
  intros Ha E Hs. unfold walk_tree in *. apply bind_Ok_inv in E as (t & Et & E).
  rewrite (load_leaf_table_same _ _ Ha Et), bind_Ok. by apply walk_loop_same.
Qed.
End transfer.

(** ** Page numbers of a walk are not negative *)

Definition range_ok (r : PageRange) : Prop := 0 ≤ r_start r ∧ 0 ≤ r_count r.
Definition entry_ok (e : StackEntry) : Prop := 0 ≤ e_page e ∧ 0 ≤ e_pages e.
Definition table_ok (t : list LeafTableEntry) : Prop :=
  Forall (λ e, 0 ≤ le_page e ∧ 0 ≤ le_pages e) t.

Definition state_ok (s : TreeWalkResult * list StackEntry) : Prop :=
  Forall range_ok (walk_ranges s.1) ∧ Forall entry_ok s.2.

Lemma walk_ranges_eq w w' :
  node_ranges w' = node_ranges w → leaf_ranges w' = leaf_ranges w →
  Forall range_ok (walk_ranges w) → Forall range_ok (walk_ranges w').
Proof. unfold walk_ranges. by intros -> ->. Qed.

Lemma push_node_ok w r d :
  range_ok r → Forall range_ok (walk_ranges w) → Forall range_ok (walk_ranges (push_node w r d)).
Proof. unfold walk_ranges. cbn. rewrite !Forall_app, Forall_singleton. tauto. Qed.

Lemma push_leaf_ok w r :
  range_ok r → Forall range_ok (walk_ranges w) → Forall range_ok (walk_ranges (push_leaf w r)).
Proof. unfold walk_ranges. cbn. rewrite !Forall_app, Forall_singleton. tauto. Qed.

Lemma validate_leaf_ok f p n w w' :
  0 ≤ p → 0 ≤ n → validate_leaf f p n w = Ok w' →
  Forall range_ok (walk_ranges w) → Forall range_ok (walk_ranges w').
Proof.
  intros Hp Hn E Hw. apply (push_leaf_ok w (mkRange p n)) in Hw; [|by split]. revert E.
  unfold validate_leaf. destruct ((p =? kInvalidPage) || (n =? 0)).
  { intros [= <-]. by apply (walk_ranges_eq (push_leaf w (mkRange p n))). }
  intros E. apply bind_Ok_inv in E as (lbuf & _ & E). apply bind_Ok_inv in E as (lh & _ & E).
  destruct (negb (lh_magic lh =? kTreeLeafMagic)).
  { injection E as <-. by apply (walk_ranges_eq (push_leaf w (mkRange p n))). }
  apply bind_Ok_inv in E as (crc & _ & E). injection E as <-.
  apply (walk_ranges_eq (push_leaf w (mkRange p n))); [..|done];
    by destruct (negb _ && _), (lh_plane_offset lh =? 0), (lh_header_crc lh =? crc).
Qed.

Lemma child_of_bytes_ok bs : Forall is_byte bs → 0 ≤ child_page (child_of_bytes bs).
Proof.
  intros Hb. pose proof (decode_fields_nonneg [8; 8; 2; 2; 4]%nat bs Hb) as Hd.
  unfold child_of_bytes. cbn [decode_fields] in *. by inversion Hd.
Qed.

Lemma leaf_entry_of_bytes_ok bs :
  Forall is_byte bs → 0 ≤ le_page (leaf_entry_of_bytes bs) ∧ 0 ≤ le_pages (leaf_entry_of_bytes bs).
Proof.
  intros Hb. pose proof (decode_fields_nonneg [8; 4]%nat bs Hb) as Hd.
  unfold leaf_entry_of_bytes. cbn [decode_fields] in *.
  inversion_clear Hd as [|? ? H1' Hd']. by inversion Hd'.
Qed.

Lemma u32_nonneg x : 0 ≤ u32 x.
Proof. apply Z.mod_pos_bound. lia. Qed.

Lemma walk_child_ok f lt d ce w st s' :
  table_ok lt → 0 ≤ child_page ce → walk_child f lt d ce w st = Ok s' →
  state_ok (w, st) → state_ok s'.
Proof.
  intros Ht Hc E [Hw Hst]. revert E. unfold walk_child.
  destruct (child_page ce =? kInvalidPage); [by intros [= <-]|].
  destruct (negb (is_leaf ce =? 0)).
  - destruct (lt !! Z.to_nat (child_page ce)) as [e|] eqn:El.
    + apply (Forall_lookup_1 _ _ _ _ Ht) in El as [? ?].
      intros E. apply bind_Ok_inv in E as (w1 & E & [= <-]). 
      split; [by apply validate_leaf_ok in E|done].
    + pose proof (u32_nonneg (child_pages ce)).
      intros E. apply bind_Ok_inv in E as (w1 & E & [= <-]). 
      split; [by apply validate_leaf_ok in E|done].
  - intros [= <-]. split; [by apply (walk_ranges_eq w)|].
    constructor; [|done]. split; [done|]. apply u32_nonneg.
Qed.

Lemma walk_node_ok f lt cesize n e w st s' :
  ps_wf f → table_ok lt → entry_ok e → walk_node f lt cesize n e w st = Ok s' →
  state_ok (w, st) → state_ok s'.
Proof.
  intros Hwf Ht [Hp Hn] E [Hw Hst]. revert E. unfold walk_node.
  destruct (e_page e =? kInvalidPage); [by intros [= <-]|].
  destruct (_ || _); [intros [= <-]; split; [by apply (walk_ranges_eq w)|done]|]. cbv zeta.
  set (w1 := push_node _ _ _). assert (Forall range_ok (walk_ranges w1)) as Hw1
    by (apply push_node_ok; [by split|done]).
  intros E. apply bind_Ok_inv in E as (buf & Er & E). apply bind_Ok_inv in E as (nh & _ & E).
  destruct (negb _); [injection E as <-; split; [by apply (walk_ranges_eq w1)|done]|].
  apply bind_Ok_inv in E as (crc & _ & E).
  refine (for_range_keeps state_ok _ _ _ _ _ _ E _).
  - intros j [w2 st2] t Ej Hok. apply bind_Ok_inv in Ej as (c & Ec & Ej).
    apply bind_Ok_inv in Ec as (bs & Eb & [= <-]).
    apply (walk_child_ok _ _ _ _ _ _ _ Ht) in Ej; [done| |done].
    apply child_of_bytes_ok, (mem_read_bytes _ _ _ _ Eb), (read_bytes _ _ _ _ Hwf Hp Hn Er).
  - split; [|done]. by destruct (nh_header_crc nh =? crc).
Qed.

Lemma walk_loop_ok fuel f lt cesize n w st w' :
  ps_wf f → table_ok lt → walk_loop fuel f lt cesize n w st = Ok w' →
  state_ok (w, st) → Forall range_ok (walk_ranges w').
Proof.
  intros Hwf Ht. revert w st. induction fuel as [|fuel IH]; intros w [|e st] E [Hw Hst];
    cbn [walk_loop] in E; try (injection E as <-; done); [done|].
  apply bind_Ok_inv in E as ([w1 st1] & E1 & E2). inversion_clear Hst as [|? ? He Hst'].
  apply (IH w1 st1 E2), (walk_node_ok _ _ _ _ _ _ _ _ Hwf Ht He E1). by split.
Qed.

Lemma load_leaf_table_ok f sb t :
  ps_wf f → 0 ≤ leaf_table_page sb → 0 ≤ leaf_table_pages sb → load_leaf_table f sb = Ok t → table_ok t.
Proof.
  intros Hwf Hp Hn. unfold load_leaf_table. destruct (_ || _); [done|]. intros E.
  apply bind_Ok_inv in E as (buf & Er & E). apply bind_Ok_inv in E as (n & _ & E).
  refine (for_range_keeps table_ok _ _ _ _ _ _ E _); [|by apply Forall_nil].
  intros j t1 t2 Ej Ht. apply bind_Ok_inv in Ej as (bs & Eb & [= <-]).
  apply Forall_app. split; [done|]. apply Forall_singleton, leaf_entry_of_bytes_ok.
  by apply (mem_read_bytes _ _ _ _ Eb), (read_bytes _ _ _ _ Hwf Hp Hn Er).
Qed.

Lemma walk_tree_ok fuel f sb m w :
  ps_wf f → sb_in_range sb → walk_tree fuel f sb m = Ok w → Forall range_ok (walk_ranges w).
Proof.
  intros Hwf Hr E. apply bind_Ok_inv in E as (t & Et & E).
  unfold sb_in_range, sb_fields in Hr. rewrite !Forall_cons in Hr. unfold field_fits in Hr. cbn in Hr.
  apply load_leaf_table_ok in Et; [|done|tauto..].
  apply (walk_loop_ok _ _ _ _ _ _ _ _ Hwf Et E). split; [constructor|].
  repeat constructor; cbn; tauto.
Qed.

(** ** A second check after a repair *)

(** The ranges other than the superblock's and the bitmap's. *)
Definition data_ranges (sb : SuperblockDisk) w : list PageRange :=
  walk_ranges w ++ payload_ranges w ++
  range_if (codebook_page sb) (codebook_pages sb) ++
  range_if (config_page sb) (config_pages sb) ++
  range_if (pca_page sb) (pca_pages sb) ++
  range_if (cardinality_page sb) (cardinality_pages sb) ++
  plane_range sb ++ [mkRange (leaf_table_page sb) (leaf_table_pages sb)].

Lemma claimed_app rs rs' p : claimed (rs ++ rs') p ↔ claimed rs p ∨ claimed rs' p.
Proof. apply Exists_app. Qed.

Lemma all_ranges_claimed sb w p :
  claimed (all_ranges sb w) p ↔
  claimed (data_ranges sb w) p ∨ in_range (mkRange 0 2) p ∨
  claimed (range_if (alloc_bitmap_page sb) (alloc_bitmap_pages sb)) p.
Proof.
  unfold all_ranges, data_ranges, walk_ranges. rewrite <- !app_assoc, !claimed_app, !claimed_cons. tauto.
Qed.

Lemma elem_all_ranges sb w r :
  r ∈ all_ranges sb w → r ∈ data_ranges sb w ∨ r = mkRange 0 2 ∨
  r ∈ range_if (alloc_bitmap_page sb) (alloc_bitmap_pages sb).
Proof.
  unfold all_ranges, data_ranges, walk_ranges. rewrite !elem_of_app, !list_elem_of_singleton. tauto.
Qed.

Lemma data_elem_all sb w r : r ∈ data_ranges sb w → r ∈ all_ranges sb w.
Proof. unfold all_ranges, data_ranges, walk_ranges. rewrite !elem_of_app. tauto. Qed.

(** What the file must be for the check to get to the accounting, and for its
    repair to be sound: the walk finds every pointer in the file, and no range
    overlaps the superblock or the bitmap. *)
Record checked (toml : list Z → option TreeManifest) (fuel : nat) f (sb : SuperblockDisk)
    (m : TreeManifest) w (extra : Z) : Prop := {
  ck_load : Superblock.load f = Ok sb;
  ck_bitmap : n_pages sb ≤ alloc_bitmap_pages sb * kPageSize * 8;
  ck_manifest : load_manifest toml f sb = Ok m;
  ck_walk : walk_tree fuel f sb m = Ok w;
  ck_pointers : pointers_ok w = true;
  ck_plane : plane_failures f sb w = Ok extra;
  ck_repairable : repairable f sb (all_ranges sb w);
  ck_separate : ∀ p, claimed (data_ranges sb w) p →
    2 ≤ p ∧ ¬ (alloc_bitmap_page sb ≤ p < alloc_bitmap_page sb + alloc_bitmap_pages sb);
}.

Lemma data_range_agree f f' sb w r :
  repairable f sb (all_ranges sb w) → range_ok r → r ∈ data_ranges sb w →
  (∀ p, claimed (data_ranges sb w) p → ps_page f' p = ps_page f p) → agree f f' r.
Proof.
  intros Hrp [Hs Hc] Hr Hsame. split; [done|]. split; [done|]. intros p Hp Hlt.
  apply Hsame, (claimed_elem r); [done|]. pose proof (ps_num_nonneg f (rp_wf _ _ _ Hrp)) as Hn.
  exists (p - r_start r). split; [lia|]. unfold max_pages in Hn. rewrite u64_id by lia. lia.
Qed.

(** The pages the repaired superblock claims are the pages in use. *)
Lemma in_use_claimed f sb w bmp nbm n h k s p :
  let sb' := with_seq (set_free_list (set_n_pages (set_bitmap sb bmp nbm) n) h k) s in
  repairable f sb (all_ranges sb w) →
  (∀ q, claimed (data_ranges sb w) q →
    2 ≤ q ∧ ¬ (alloc_bitmap_page sb ≤ q < alloc_bitmap_page sb + alloc_bitmap_pages sb)) →
  0 ≤ bmp → 0 < nbm → bmp + nbm ≤ max_pages →
  (¬ must_move f sb → bmp = alloc_bitmap_page sb ∧ nbm = alloc_bitmap_pages sb) →
  claimed (all_ranges sb' w) p ↔ in_use f sb (all_ranges sb w) bmp nbm p.
Proof.
  intros sb' Hrp Hsep Hb Hnb Hmax Hstay. rewrite all_ranges_claimed.
  change (data_ranges sb' w) with (data_ranges sb w).
  change (alloc_bitmap_page sb') with bmp. change (alloc_bitmap_pages sb') with nbm.
  destruct (rp_bitmap _ _ _ Hrp) as (Hb1 & Hb2 & Hb3).
  pose proof (ps_num_nonneg f (rp_wf _ _ _ Hrp)) as Hn. unfold max_pages in *.
  assert (bmp <> kInvalidPage) as Hbv by (unfold kInvalidPage, UINT64_MAX; lia).
  assert (alloc_bitmap_page sb <> kInvalidPage) as Hov by (unfold kInvalidPage, UINT64_MAX; lia).
  assert (claimed (range_if bmp nbm) p ↔ bmp ≤ p < bmp + nbm) as Hbmp.
  { unfold range_if. rewrite (proj2 (Z.eqb_neq _ _)) by done. rewrite claimed_cons. split.
    - intros [(i & Hi & ->)|Hc]; [|by inversion Hc]. cbn in *. rewrite u64_id by lia. lia.
    - intros Hp. left. apply in_range_small; cbn; lia. }
  rewrite Hbmp. unfold in_use. assert (must_move f sb ∨ ¬ must_move f sb) as [Hm|Hm] by (unfold must_move; lia).
  - split.
    + intros Hc. right. split; [done|]. destruct Hc as [Hc|[Hc|Hc]]; [left|left|by right].
      * pose proof Hc as (r & Hr & Hp)%Exists_exists. apply (claimed_elem r); [|done].
        apply list_elem_of_filter. split; [|by apply data_elem_all]. intros [= Hs].
        destruct (Hsep (alloc_bitmap_page sb)) as [_ []]; [|lia]. apply (claimed_elem r); [done|].
        destruct Hp as (i & Hi & _). exists 0. rewrite Z.add_0_r, Hs, u64_id by lia. lia.
      * apply (claimed_elem (mkRange 0 2)); [|done]. apply list_elem_of_filter.
        split; [cbn; intros [=]; lia|apply (rp_sb_claimed _ _ _ Hrp)].
    + intros [[? _]|[_ [Hc|Hc]]]; [done| |by right; right].
      apply Exists_exists in Hc as (r & [Hk Hr]%list_elem_of_filter & Hp).
      apply elem_all_ranges in Hr as [Hr|[->|Hr]]; [left; by apply (claimed_elem r)|by right; left|].
      exfalso. apply Hk. unfold range_if in Hr. rewrite (proj2 (Z.eqb_neq _ _)) in Hr by done.
      apply list_elem_of_singleton in Hr as ->. done.
  - destruct (Hstay Hm) as [-> ->]. rewrite all_ranges_claimed, Hbmp. tauto.
Qed.

Lemma load_manifest_same toml f f' sb m :
  ps_wf f → ps_wf f' → num_pages f ≤ num_pages f' →
  (config_page sb ≠ kInvalidPage → agree f f' (mkRange (config_page sb) (config_pages sb))) →
  load_manifest toml f sb = Ok m → load_manifest toml f' sb = Ok m.
Proof.
  intros Hwf Hwf' Hle Ha. unfold load_manifest. destruct (Z.eqb_spec (config_page sb) kInvalidPage); [done|].
  destruct (0 <? config_pages sb); [|done]. cbn [negb andb]. intros E.
  apply bind_Ok_inv in E as (buf & Er & E).
  by rewrite (read_agree f f' Hwf Hwf' Hle _ _ _ (Ha n) Er), bind_Ok.
Qed.

Lemma plane_failures_same f f' sb w e :
  ps_wf f → ps_wf f' → num_pages f ≤ num_pages f' →
  (∀ r, r ∈ plane_range sb → agree f f' r) →
  plane_failures f sb w = Ok e → plane_failures f' sb w = Ok e.
Proof.
  intros Hwf Hwf' Hle Ha. unfold plane_failures, plane_range in *.
  destruct (negb (plane_page sb =? kInvalidPage) && (0 <? plane_pages sb)) eqn:Ep; [|done].
  apply andb_true_iff in Ep as [_ Hpos%Z.ltb_lt].
  intros E. apply bind_Ok_inv in E as (buf & Er & E).
  destruct (Ha (mkRange (plane_page sb) (plane_pages sb))) as (Hs & Hc & Hp); [by apply list_elem_of_singleton|].
  assert (agree f f' (mkRange (plane_page sb) (Z.min (plane_pages sb) 1))) as Ha1.
  { split; [done|]. cbn in *. split; [lia|]. intros p Hq. apply Hp. lia. }
  by rewrite (read_agree f f' Hwf Hwf' Hle _ _ _ Ha1 Er), bind_Ok.
Qed.

(** The check of a file whose superblock is [sb'] and whose walk is [w] finds
    the accounting clean when the bitmap holds what the ranges claim. *)
Lemma clean_check toml fuel f' sb' m w extra bm :
  ps_wf f' → Superblock.load f' = Ok sb' →
  n_pages sb' ≤ alloc_bitmap_pages sb' * kPageSize * 8 →
  load_manifest toml f' sb' = Ok m → walk_tree fuel f' sb' m = Ok w →
  plane_failures f' sb' w = Ok extra →
  read_bitmap f' sb' = Ok bm →
  (∀ p, 0 ≤ p < num_pages f' → bitv bm p = true ↔ claimed (all_ranges sb' w) p) →
  ∃ r', fsck toml fuel f' false = Ok (r', f') ∧ page_accounting_ok r' = true ∧
    leaked_pages r' = 0 ∧ orphan_pages r' = 0.
Proof.
  intros Hwf El Hb Em Ew Ep Er Hbits. unfold fsck. rewrite El.
  rewrite (proj2 (Z.ltb_ge _ (n_pages sb')) Hb), andb_false_r.
  unfold fsck_tree. rewrite Em, bind_Ok, Ew, bind_Ok. cbv zeta. rewrite Ep, bind_Ok.
  pose proof (ps_num_nonneg f' Hwf) as Hn.
  destruct (account_ranges (all_ranges sb' w) bm (Z.to_nat (num_pages f')))
    as (al & acc & E & _ & Ea & _ & Hclean). rewrite Z2Nat.id in Ea by lia.
  rewrite E, bind_Ok, Er, bind_Ok, Ea, bind_Ok. cbn [andb].
  destruct Hclean as [_ [Hk Ho]]; [intros p Hp; apply Hbits; lia|].
  eexists. split; [reflexivity|]. cbn [page_accounting_ok leaked_pages orphan_pages].
  by rewrite Hk, Ho.
Qed.

Lemma repaired_check toml fuel f f1 f' sb m w extra sb' nfree bmp nbm :
  checked toml fuel f sb m w extra →
  repaired f1 sb (in_use f sb (all_ranges sb w) bmp nbm) bmp nbm sb' f' nfree →
  (∀ p, 0 ≤ p < num_pages f → ps_page f1 p = ps_page f p) →
  num_pages f1 ≤ nbm * kPageSize * 8 → num_pages f ≤ num_pages f1 →
  0 ≤ bmp → 0 < nbm → bmp + nbm ≤ num_pages f1 →
  (must_move f sb → bmp = num_pages f) →
  (¬ must_move f sb → bmp = alloc_bitmap_page sb ∧ nbm = alloc_bitmap_pages sb) →
  ∃ r', fsck toml fuel f' false = Ok (r', f') ∧ page_accounting_ok r' = true ∧
    leaked_pages r' = 0 ∧ orphan_pages r' = 0.
Proof.
  intros [El _ Em Ew Hok Ep Hrp Hsep] (Hsb & El' & Hcm & Hn' & (a & _ & Hall & Era & Hbits) & _ & Hkeep)
    Hpages Hcap Hle Hb Hnb Hfit Hmove Hstay.
  pose proof (rp_wf _ _ _ Hrp) as Hwf. assert (ps_wf f') as Hwf' by apply Hcm.
  pose proof (ps_num_nonneg f' Hwf') as Hmax. rewrite Hn' in Hmax.
  set (s := commit_seq sb + 1) in *. set (h := free_list_head sb') in *. clearbody h.
  set (n := num_pages f1) in *.
  assert (∀ p, claimed (all_ranges sb' w) p ↔ in_use f sb (all_ranges sb w) bmp nbm p) as Hclaim.
  { intros p. rewrite Hsb. apply in_use_claimed; [done..|lia|done]. }
  assert (∀ p, claimed (data_ranges sb w) p → ps_page f' p = ps_page f p) as Hsame.
  { intros p Hp. destruct (Hsep p Hp) as [Hp2 Hp3].
    assert (p < num_pages f) as Hpn by (apply (rp_inside _ _ _ Hrp), all_ranges_claimed; by left).
    rewrite Hkeep; [apply Hpages; lia|done| |].
    - apply Hclaim, all_ranges_claimed. left. by rewrite Hsb.
    - assert (must_move f sb ∨ ¬ must_move f sb) as [Hm|Hm] by (unfold must_move; lia).
      + rewrite (Hmove Hm). lia.
      + by destruct (Hstay Hm) as [-> ->]. }
  assert (num_pages f ≤ num_pages f') as Hgrow by lia.
  pose proof (walk_tree_ok _ _ _ _ _ Hwf (rp_range _ _ _ Hrp) Ew) as Hrok.
  assert (∀ r, range_ok r → r ∈ data_ranges sb w → agree f f' r) as Hag
    by (intros r Hr Hd; by apply (data_range_agree f f' sb w)).
  pose proof (rp_range _ _ _ Hrp) as Hir. unfold sb_in_range, sb_fields in Hir.
  rewrite !Forall_cons in Hir. unfold field_fits in Hir. cbn in Hir.
  unfold data_ranges in Hag.
  apply (clean_check toml fuel f' sb' m w extra (bitmap_ a)); [done|done| | | | | |].
  - rewrite Hsb. cbn. lia.
  - rewrite Hsb. apply (load_manifest_same toml f); [done..| |done]. intros Hv. apply Hag; [split; cbn; tauto|].
    cbn [config_page config_pages with_seq set_free_list set_n_pages set_bitmap] in *.
    unfold range_if. rewrite (proj2 (Z.eqb_neq (config_page sb) _) Hv), !elem_of_app, !list_elem_of_singleton. tauto.
  - rewrite Hsb. apply (walk_tree_same f f' Hwf Hwf' Hgrow); [|exact Ew|split; [done|]].
    + apply Hag; [split; cbn; tauto|]. rewrite !elem_of_app, !list_elem_of_singleton. tauto.
    + rewrite Forall_forall in Hrok |- *. intros r Hr. apply Hag; [by apply Hrok|].
      rewrite elem_of_app. by left.
  - rewrite Hsb. apply (plane_failures_same f); [done..| |exact Ep]. intros r Hr. apply Hag.
    + change (r ∈ plane_range sb) in Hr. unfold plane_range in Hr.
      destruct (_ && _); [|by apply not_elem_of_nil in Hr].
      apply list_elem_of_singleton in Hr as ->. split; cbn; tauto.
    + change (r ∈ plane_range sb) in Hr. rewrite !elem_of_app. tauto.
  - unfold read_bitmap. rewrite Hsb. cbn [alloc_bitmap_page alloc_bitmap_pages with_seq set_free_list
      set_n_pages set_bitmap]. unfold max_pages in Hmax.
    rewrite (proj2 (Z.eqb_neq bmp _)), (proj2 (Z.ltb_lt 0 nbm)) by (unfold kInvalidPage, UINT64_MAX; lia). done.
  - intros p Hp. rewrite Hbits by lia. symmetry. apply Hclaim.
Qed.

(** C10: repair converges: on a checked file a run that repairs ends, reports the
    accounting in order, and a second run without repair, on the file it leaves,
    finds no leaked and no orphan page. *)
Theorem repair_then_clean toml fuel f sb m w extra :
  checked toml fuel f sb m w extra →
  ∃ r f' r', fsck toml fuel f true = Ok (r, f') ∧ page_accounting_ok r = true ∧
    fsck toml fuel f' false = Ok (r', f') ∧
    page_accounting_ok r' = true ∧ leaked_pages r' = 0 ∧ orphan_pages r' = 0.
Proof.
  intros Hck. pose proof Hck as [El Hb Em Ew Hok Ep Hrp Hsep]. pose proof (rp_wf _ _ _ Hrp) as Hwf.
  pose proof (ps_num_nonneg f Hwf) as Hn. destruct (rp_bitmap _ _ _ Hrp) as (Hb1 & Hb2 & Hb3).
  assert (alloc_bitmap_page sb ≠ kInvalidPage) as Hbv by (unfold kInvalidPage, UINT64_MAX, max_pages in *; lia).
  destruct (ps_read_ok f (alloc_bitmap_page sb) (alloc_bitmap_pages sb)) as (bm & Er & _ & _); [done|lia..|].
  assert (read_bitmap f sb = Ok bm) as Erb.
  { unfold read_bitmap. by rewrite (proj2 (Z.eqb_neq _ _) Hbv), (proj2 (Z.ltb_lt 0 _)) by lia. }
  destruct (account_ranges (all_ranges sb w) bm (Z.to_nat (num_pages f)))
    as (al & acc & E & _ & Ea & _ & Hclean). rewrite Z2Nat.id in Ea, Hclean by lia.
  assert (∀ r, fsck toml fuel f r = (if (0 <? alloc_bitmap_pages sb) && (alloc_bitmap_pages sb * kPageSize * 8 <? n_pages sb)
    then fsck toml fuel f r else fsck_tree toml fuel f r sb ((0 <? commit_seq sb) &&
        ((root_node_page sb =? kInvalidPage) || (root_node_page sb <? num_pages f))))) as Hrun.
  { intros r. unfold fsck. rewrite El. by destruct (_ && _). }
  rewrite Hrun, (proj2 (Z.ltb_ge _ (n_pages sb)) Hb), andb_false_r. unfold fsck_tree.
  rewrite Em, bind_Ok, Ew, bind_Ok. cbv zeta. rewrite Ep, bind_Ok, E, bind_Ok, Erb, bind_Ok, Ea, bind_Ok.
  destruct ((ac_leaked acc =? 0) && (ac_orphan acc =? 0)) eqn:Eok.
  - cbn [negb andb]. eexists _, f. apply andb_true_iff in Eok as [Hk%Z.eqb_eq Ho%Z.eqb_eq].
    destruct (clean_check toml fuel f sb m w extra bm) as (r' & E' & Hr'); [done..|by apply Hclean|].
    exists r'. split; [reflexivity|]. by split.
  - rewrite (proj2 (Z.eqb_neq _ _) Hbv), (proj2 (Z.ltb_lt 0 _)) by lia. cbn [negb andb].
    destruct (repair_pages_ok f sb (all_ranges sb w) Hrp)
      as (sb' & f1 & f' & nfree & bmp & nbm & Erep & Hrep & Hpages & Hcap & Hwhere).
    rewrite Erep, bind_Ok.
    assert (num_pages f ≤ num_pages f1 ∧ 0 ≤ bmp ∧ 0 < nbm ∧ bmp + nbm ≤ num_pages f1 ∧
      (must_move f sb → bmp = num_pages f) ∧
      (¬ must_move f sb → bmp = alloc_bitmap_page sb ∧ nbm = alloc_bitmap_pages sb))
      as (Hw1 & Hw2 & Hw3 & Hw4 & Hw5 & Hw6).
    { case_decide; [destruct Hwhere as [-> Hf1]|destruct Hwhere as (-> & -> & ->)];
        unfold kPageSize in Hcap; split_and!; first [done|lia]. }
    destruct (repaired_check toml fuel f f1 f' sb m w extra sb' nfree bmp nbm Hck Hrep Hpages Hcap
      Hw1 Hw2 Hw3 Hw4 Hw5 Hw6) as (r' & E' & Hr').
    eexists _, f', r'. split; [reflexivity|]. by split.
Qed.

(** ** Termination *)

(** Nothing the walk calls runs out of fuel by itself. *)
Abbreviation ends r := (r ≠ Err OutOfFuel).

Lemma bind_ends {A B} (m : res A) (k : A → res B) :
  ends m → (∀ a, m = Ok a → ends (k a)) → ends (m ≫= k).
Proof. intros Hm Hk. destruct m as [a|e]; [by apply Hk|]. rewrite bind_Err. congruence. Qed.

Lemma read_ends f p n : ps_wf f → 0 ≤ p → 0 ≤ n → ends (read_pages f p n).
Proof.
  intros Hwf Hp Hn. destruct (Z.eq_dec n 0) as [->|]; [by rewrite ps_read_none|].
  destruct (Z.lt_ge_cases (num_pages f) (p + n)).
  - by rewrite ps_read_eof by (done || lia).
  - destruct (ps_read_ok f p n) as (bs & -> & _); done || lia.
Qed.

Lemma mem_read_ends buf off n : ends (mem_read buf off n).
Proof. unfold mem_read. by case_bool_decide. Qed.

Lemma header_crc_ends buf n : ends (header_crc buf n).
Proof. unfold header_crc. apply bind_ends; [apply mem_read_ends|done]. Qed.

Lemma for_range_ends {S} (I : S → Prop) (g : Z → S → res S) n i s :
  I s → (∀ j t, I t → ends (g j t)) → (∀ j t t', I t → g j t = Ok t' → I t') → ends (for_range n i g s).
Proof.
  intros Hs Hg Hk. revert i s Hs. induction n as [|n IH]; intros i s Hs; cbn [for_range]; [done|].
  apply bind_ends; [by apply Hg|]. intros t Et. apply IH. by apply (Hk i s).
Qed.

Lemma validate_leaf_ends f p n w : ps_wf f → 0 ≤ p → 0 ≤ n → ends (validate_leaf f p n w).
Proof.
  intros Hwf Hp Hn. unfold validate_leaf. destruct (_ || _); [done|].
  apply bind_ends; [by apply read_ends|]. intros buf _.
  apply bind_ends; [apply bind_ends; [apply mem_read_ends|done]|]. intros lh _.
  destruct (negb _); [done|]. apply bind_ends; [apply header_crc_ends|done].
Qed.

Lemma walk_child_ends f lt d ce w st :
  ps_wf f → table_ok lt → 0 ≤ child_page ce → ends (walk_child f lt d ce w st).
Proof.
  intros Hwf Ht Hc. unfold walk_child. destruct (child_page ce =? kInvalidPage); [done|].
  destruct (negb _); [|done]. pose proof (u32_nonneg (child_pages ce)).
  destruct (lt !! Z.to_nat (child_page ce)) as [e|] eqn:El;
    [apply (Forall_lookup_1 _ _ _ _ Ht) in El as [? ?]|];
    (apply bind_ends; [by apply validate_leaf_ends|done]).
Qed.

(** Child [j] of the node stored at the pages of [e] is the inner node at page [c]. *)
Definition child_of f (cesize : Z) (e : StackEntry) (c : Z) : Prop :=
  ∃ buf nh j ce, read_pages f (e_page e) (e_pages e) = Ok buf ∧ node_header_at buf = Ok nh ∧
    nh_magic nh = kTreeNodeMagic ∧ 0 ≤ j < nh_n_children nh ∧ child_at buf (sizeof_TreeNodeHeader + j * cesize) = Ok ce ∧
    is_leaf ce = 0 ∧ child_page ce = c ∧ c ≠ kInvalidPage.

Lemma node_header_children bs :
  Forall is_byte bs → 0 ≤ nh_n_children (node_header_of_bytes bs) < 2 ^ 64.
Proof.
  intros Hb. unfold node_header_of_bytes. cbn [decode_fields nh_n_children].
  set (b := take 8 _). assert (Forall is_byte b) as Hby by by do 3 (apply Forall_take || apply Forall_drop).
  pose proof (le_dec_bound b Hby) as [Hlo Hhi]. split; [done|].
  assert (256 ^ Z.of_nat (length b) ≤ 256 ^ 8); [|lia].
  apply Z.pow_le_mono_r; [lia|]. unfold b. rewrite length_take. lia.
Qed.

Lemma walk_child_pushes f lt d ce w st s' :
  walk_child f lt d ce w st = Ok s' →
  s'.2 = st ∨ ∃ e, s'.2 = e :: st ∧ e_page e = child_page ce ∧ is_leaf ce = 0 ∧
    child_page ce ≠ kInvalidPage.
Proof.
  unfold walk_child. destruct (Z.eqb_spec (child_page ce) kInvalidPage); [intros [= <-]; by left|].
  destruct (Z.eqb_spec (is_leaf ce) 0); cbn [negb].
  - intros [= <-]. right. eexists. split; [reflexivity|]. done.
  - destruct (match lt !! Z.to_nat (child_page ce) with
      Some e => (le_page e, le_pages e) | None => (child_page ce, u32 (child_pages ce)) end) as [lp ln].
    intros E. apply bind_Ok_inv in E as (w1 & _ & [= <-]). by left.
Qed.

(** A step pushes children of the popped node, less than [2^64] of them. *)
Lemma walk_node_pushes f lt cesize n e w st s' :
  ps_wf f → entry_ok e → walk_node f lt cesize n e w st = Ok s' →
  ∃ cs, s'.2 = cs ++ st ∧ Z.of_nat (length cs) < 2 ^ 64 ∧ Forall (λ c, child_of f cesize e (e_page c)) cs.
Proof.
  intros Hwf [Hp Hn] E. assert (∃ cs, st = cs ++ st ∧ Z.of_nat (length cs) < 2 ^ 64 ∧
    Forall (λ c, child_of f cesize e (e_page c)) cs) as Hnone by (by exists []).
  revert E. unfold walk_node. destruct (e_page e =? kInvalidPage); [by intros [= <-]|].
  destruct (_ || _); [by intros [= <-]|]. cbv zeta.
  intros E. apply bind_Ok_inv in E as (buf & Er & E). apply bind_Ok_inv in E as (nh & Eh & E).
  destruct (Z.eqb_spec (nh_magic nh) kTreeNodeMagic) as [Hmg|]; cbn [negb] in E; [|by injection E as <-].
  apply bind_Ok_inv in E as (crc & _ & E).
  assert (0 ≤ nh_n_children nh < 2 ^ 64) as Hnc.
  { pose proof Eh as (bs & Eb & [= <-])%bind_Ok_inv.
    apply node_header_children, (mem_read_bytes _ _ _ _ Eb), (read_bytes _ _ _ _ Hwf Hp Hn Er). }
  apply (for_range_indexed (λ j s, ∃ cs, s.2 = cs ++ st ∧ Z.of_nat (length cs) ≤ j ∧
    Forall (λ c, child_of f cesize e (e_page c)) cs)) in E.
  - rewrite Z2Nat.id in E by lia. destruct E as (cs & ? & ? & ?). exists cs. split_and!; [done|lia|done].
  - intros j [w1 st1] t Hj Ej (cs & Est & Hl & Hc). apply bind_Ok_inv in Ej as (ce & Ec & Ej).
    cbn in Est. subst st1. apply walk_child_pushes in Ej as [Est|(e' & Est & Hpg & Hleaf & Hne)].
    + exists cs. split_and!; [done|lia|done].
    + exists (e' :: cs). split_and!; [done|cbn; lia|]. constructor; [|done].
      exists buf, nh, j, ce. rewrite Hpg. split_and!; try done; lia.
  - exists []. split_and!; [done|cbn; lia|done].
Qed.

Lemma walk_node_ends f lt cesize n e w st :
  ps_wf f → table_ok lt → entry_ok e → ends (walk_node f lt cesize n e w st).
Proof.
  intros Hwf Ht [Hp Hn]. unfold walk_node. destruct (e_page e =? kInvalidPage); [done|].
  destruct (_ || _); [done|]. cbv zeta.
  apply bind_ends; [by apply read_ends|]. intros buf Er.
  apply bind_ends; [apply bind_ends; [apply mem_read_ends|done]|]. intros nh _.
  destruct (negb _); [done|]. apply bind_ends; [apply header_crc_ends|]. intros crc _.
  apply (for_range_ends (λ _, True)); [done| |done]. intros j [w1 st1] _.
  apply bind_ends; [apply bind_ends; [apply mem_read_ends|done]|]. intros ce Ec.
  apply walk_child_ends; [done..|]. apply bind_Ok_inv in Ec as (bs & Eb & [= <-]).
  apply child_of_bytes_ok, (mem_read_bytes _ _ _ _ Eb), (read_bytes _ _ _ _ Hwf Hp Hn Er).
Qed.

(** The nodes of a tree have ranks that fall from a node to its children. *)
Definition acyclic f (cesize : Z) (rank : Z → nat) : Prop :=
  ∀ e c, entry_ok e → child_of f cesize e c → (rank c < rank (e_page e))%nat.

(** A check of the ranks on every run of pages a node could occupy. *)
Definition ranked_node f (cesize : Z) (rank : Z → nat) (p n : Z) : bool :=
  match read_pages f p n with
  | Err _ => true
  | Ok buf =>
      match node_header_at buf with
      | Err _ => true
      | Ok nh => negb (nh_magic nh =? kTreeNodeMagic) ||
          forallb (λ j, match child_at buf (sizeof_TreeNodeHeader + j * cesize) with
            | Ok ce => negb (is_leaf ce =? 0) || (child_page ce =? kInvalidPage) ||
                       Nat.ltb (rank (child_page ce)) (rank p)
            | Err _ => true
            end) (seqZ 0 (nh_n_children nh))
      end
  end.

Definition ranked f (cesize : Z) (rank : Z → nat) : bool :=
  forallb (λ p, forallb (ranked_node f cesize rank p) (seqZ 1 (num_pages f))) (seqZ 0 (num_pages f)).

Lemma ranked_acyclic f cesize rank : ps_wf f → ranked f cesize rank = true → acyclic f cesize rank.
Proof.
  intros Hwf Hr e c [Hp Hn] (buf & nh & j & ce & Er & Eh & Hm & Hj & Ec & Hl & <- & Hv).
  assert (0 < e_pages e) as Hpos.
  { destruct (Z.eq_dec (e_pages e) 0) as [E|]; [|lia]. rewrite E, ps_read_none in Er.
    injection Er as <-. done. }
  destruct (read_inside f _ _ _ Hwf Hp Hpos Er) as [Hin _].
  unfold ranked in Hr. rewrite forallb_forall in Hr. specialize (Hr (e_page e)).
  rewrite forallb_forall in Hr. specialize (λ hp, Hr hp (e_pages e)).
  unfold ranked_node in Hr. rewrite Er, Eh, Hm, Z.eqb_refl in Hr. cbn [negb orb] in Hr.
  rewrite forallb_forall in Hr. specialize (λ hp hn, Hr hp hn j). cbv beta in Hr.
  rewrite Ec, Hl, (proj2 (Z.eqb_neq _ _) Hv) in Hr. cbn [Z.eqb negb orb] in Hr.
  apply Nat.ltb_lt, Hr; apply list_elem_of_In, elem_of_seqZ; lia.
Qed.

(** The steps a stack can still cause. *)
Definition work (rank : Z → nat) (st : list StackEntry) : Z :=
  foldr (λ e acc, (2 ^ 64) ^ Z.of_nat (rank (e_page e)) + acc) 0 st.

Lemma work_app rank st st' : work rank (st ++ st') = work rank st + work rank st'.
Proof. unfold work. induction st as [|e st IH]; [done|]. cbn [app foldr]. rewrite IH. lia. Qed.

Lemma work_nonneg rank st : 0 ≤ work rank st.
Proof.
  unfold work. induction st as [|e st IH]; cbn [foldr]; [done|].
  assert (0 < (2 ^ 64) ^ Z.of_nat (rank (e_page e))) by (apply Z.pow_pos_nonneg; lia). lia.
Qed.

Lemma work_children rank cs k :
  Forall (λ c, (rank (e_page c) < k)%nat) cs → Z.of_nat (length cs) < 2 ^ 64 →
  work rank cs < (2 ^ 64) ^ Z.of_nat k.
Proof.
  intros Hc Hl. destruct k as [|k].
  { destruct cs as [|c cs]; [done|]. inversion Hc; lia. }
  assert (work rank cs ≤ Z.of_nat (length cs) * (2 ^ 64) ^ Z.of_nat k) as Hw.
  { clear Hl. induction Hc as [|c cs Hk _ IH]; [done|]. unfold work in *. cbn [foldr length].
    assert ((2 ^ 64) ^ Z.of_nat (rank (e_page c)) ≤ (2 ^ 64) ^ Z.of_nat k)
      by (apply Z.pow_le_mono_r; lia). lia. }
  rewrite Nat2Z.inj_succ, Z.pow_succ_r by lia.
  assert (0 < (2 ^ 64) ^ Z.of_nat k) by (apply Z.pow_pos_nonneg; lia). nia.
Qed.

(** C25: the walk of a tree ends: when the child pointers reach no node twice
    along a path, the loop over the stack stops, with a result or an error,
    within the number of steps that the ranks bound. *)
Theorem walk_ends f lt cesize rank fuel w st :
  ps_wf f → table_ok lt → Forall entry_ok st → Forall range_ok (walk_ranges w) →
  acyclic f cesize rank → work rank st ≤ Z.of_nat fuel →
  ends (walk_loop fuel f lt cesize (num_pages f) w st).
Proof.
  intros Hwf Ht Hst Hw Hac. revert w st Hst Hw.
  induction fuel as [|fuel IH]; intros w [|e st] Hst Hw Hf; cbn [walk_loop]; try done.
  { pose proof (work_nonneg rank st). unfold work in *. cbn [foldr] in Hf.
    assert (0 < (2 ^ 64) ^ Z.of_nat (rank (e_page e))) by (apply Z.pow_pos_nonneg; lia). lia. }
  inversion_clear Hst as [|? ? He Hst'].
  apply bind_ends; [by apply walk_node_ends|]. intros [w1 st1] E.
  destruct (walk_node_ok _ _ _ _ _ _ _ _ Hwf Ht He E (conj Hw Hst')) as [Hw1 Hst1].
  apply IH; [done..|].
  destruct (walk_node_pushes _ _ _ _ _ _ _ _ Hwf He E) as (cs & Est & Hl & Hc). cbn in Est. subst st1.
  assert (work rank cs < (2 ^ 64) ^ Z.of_nat (rank (e_page e))) as Hlt.
  { apply work_children; [|done]. apply (Forall_impl _ _ _ Hc). intros c. by apply Hac. }
  rewrite work_app. unfold work in Hf at 1. cbn [foldr] in Hf. fold (work rank st) in Hf. lia.
Qed.
End walk.
