(* ===== verification/FsckRuns.v ===== *)
(** * What a run of fsck establishes

    Its verdict, that it writes only to repair, what a repair leaves; the runs on
    concrete files: a tree with a leaked page, and a node that is its own child. *)
From S2P Require Import Prelude PageFile TreeNodes PageAllocator Superblock Fsck FsckWalk.

Section runs.
Context `{PageStoreLaws F}.
Implicit Types f : F.

(** C18: repair rebuilds the allocation state from the walk: with every claimed
    page in the file, bitmap, free list and superblock are rewritten so that the
    superblock loads, the loaded allocator satisfies its invariant, its bits are
    exactly the pages in use, the free list links exactly all other pages, and no
    page in use is changed but the superblock's and the bitmap's.  A bitmap too
    small for the file moves to its end and becomes large enough. *)
Theorem repair_rebuilds f sb ranges :
  repairable f sb ranges →
  ∃ sb' f1 f' nfree bmp nbm,
    repair_pages f sb ranges = Ok (sb', f', nfree) ∧
    repaired f1 sb (in_use f sb ranges bmp nbm) bmp nbm sb' f' nfree ∧
    (∀ p, 0 ≤ p < num_pages f → ps_page f1 p = ps_page f p) ∧
    num_pages f1 ≤ nbm * kPageSize * 8 ∧
    if decide (must_move f sb) then bmp = num_pages f ∧ num_pages f1 = num_pages f + nbm
    else bmp = alloc_bitmap_page sb ∧ nbm = alloc_bitmap_pages sb ∧ f1 = f.
Proof. apply repair_pages_ok. Qed.

(** C14: a clean verdict is right: when a run that does not repair reports every
    check as passed, the superblock was committed, the walk found every pointer
    in the file and every magic and checksum right, and the bitmap marks exactly
    the pages the superblock and the tree claim. *)
Theorem verdict_sound toml fuel f r f' :
  ps_wf f → fsck toml fuel f false = Ok (r, f') → all_ok r = true →
  ∃ sb m w bm, Superblock.load f = Ok sb ∧ 0 < commit_seq sb ∧
    load_manifest toml f sb = Ok m ∧ walk_tree fuel f sb m = Ok w ∧
    pointers_ok w = true ∧ w_magic_failures w = 0 ∧ w_crc_failures w = 0 ∧
    read_bitmap f sb = Ok bm ∧
    ∀ p, 0 ≤ p < num_pages f → bitv bm p = true ↔ claimed (all_ranges sb w) p.
Proof.
  intros Hwf E Hall. pose proof (ps_num_nonneg f Hwf) as Hn. revert E. unfold fsck.
  destruct (Superblock.load f) as [sb|e] eqn:El; [|destruct e; [|done..]]; [|by intros [= <- <-]].
  destruct (_ && _); [by intros [= <- <-]|]. unfold fsck_tree. cbv zeta. intros E.
  apply bind_Ok_inv in E as (m & Em & E). apply bind_Ok_inv in E as (w & Ew & E).
  apply bind_Ok_inv in E as (x & _ & E). apply bind_Ok_inv in E as (al & Ea & E).
  apply bind_Ok_inv in E as (bm & Eb & E). apply bind_Ok_inv in E as (acc & Eacc & E).
  cbn [andb] in E. injection E as <- <-. unfold all_ok in Hall.
  cbn [superblock_ok tree_walk_ok page_accounting_ok leaf_internals_ok payload_ok referential_ok] in Hall.
  rewrite !andb_true_r in Hall.
  repeat match goal with h : _ && _ = true |- _ => apply andb_true_iff in h as [? ?] end.
  destruct (account_ranges (all_ranges sb w) bm (Z.to_nat (num_pages f)))
    as (al' & acc' & Ea' & _ & Eacc' & _ & [Hclean _]).
  rewrite Z2Nat.id in Eacc', Hclean by lia.
  assert (al' = al) as -> by congruence. assert (acc' = acc) as -> by congruence.
  exists sb, m, w, bm. repeat match goal with
    | h : (_ =? _) = true |- _ => apply Z.eqb_eq in h | h : (_ <? _) = true |- _ => apply Z.ltb_lt in h end.
  split_and!; try done. apply Hclean. by split.
Qed.

(** C31: only repair writes: the file a run leaves is the file it was given,
    unless it was asked to repair, the superblock loads and has a bitmap, and
    then the file is the one the repair of the walk's ranges leaves. *)
Theorem writes_only_to_repair toml fuel f repair r f' :
  fsck toml fuel f repair = Ok (r, f') →
  f' = f ∨ (repair = true ∧ ∃ sb m w sb' nfree, Superblock.load f = Ok sb ∧
    load_manifest toml f sb = Ok m ∧ walk_tree fuel f sb m = Ok w ∧
    alloc_bitmap_page sb ≠ kInvalidPage ∧ 0 < alloc_bitmap_pages sb ∧
    repair_pages f sb (all_ranges sb w) = Ok (sb', f', nfree)).
Proof.
  unfold fsck. destruct (Superblock.load f) as [sb|e] eqn:El; [|destruct e; [|done..]];
    [|intros [= _ <-]; by left].
  destruct (_ && _); [intros [= _ <-]; by left|]. unfold fsck_tree. cbv zeta. intros E.
  apply bind_Ok_inv in E as (m & Em & E). apply bind_Ok_inv in E as (w & Ew & E).
  apply bind_Ok_inv in E as (x & _ & E). apply bind_Ok_inv in E as (al & Ea & E).
  apply bind_Ok_inv in E as (bm & Eb & E). apply bind_Ok_inv in E as (acc & Eacc & E).
  destruct repair; cbn [andb] in E; [|injection E as _ <-; by left].
  destruct (negb _ && _ && _) eqn:Ec; [|injection E as _ <-; by left].
  apply andb_true_iff in Ec as [Ec Hp%Z.ltb_lt]. apply andb_true_iff in Ec as [_ Hb%negb_true_iff%Z.eqb_neq].
  apply bind_Ok_inv in E as ([[sb' f1] nfree] & Er & E). injection E as _ <-.
  right. split; [done|]. exists sb, m, w, sb', nfree. done.
Qed.
End runs.

(** ** A tree with a leaked page *)

Definition page_of (bs : list Z) : list Z := take (Z.to_nat kPageSize) (bs ++ zero_page).

Definition w_seal (bs : list Z) (n : nat) : list Z := take n bs ++ le_enc 4 (compute_crc32 (take n bs)) ++ drop (n + 4) bs.

(** Pages: two superblocks, the bitmap, the leaf table, the root, one leaf, and
    page 6, which the bitmap marks and nothing claims. *)
Definition w_tree_sb : SuperblockDisk :=
  with_seq (set_n_pages (set_leaf_table (set_root (set_cardinality (init_fresh 2 1) kInvalidPage 0) 4 1) 3 1) 7) 2.

Definition w_node (is_leaf child : Z) : list Z :=
  page_of (w_seal (encode_fields (node_fields (mkNodeHeader kTreeNodeMagic 0 1 1 0 0 0))) 28 ++
    encode_fields (child_fields (mkChild child 1 is_leaf 0))).

Definition w_leaf : list Z :=
  page_of (w_seal (encode_fields (leaf_fields (mkLeafHeader kTreeLeafMagic 3 0 0 0 0 0 1 0 0 0 kInvalidPage 0 0 0 0 0 0 0 0 0 0)))
    (Z.to_nat leaf_crc_offset)).

(** The leaf table has one entry; the three pages after it are given. *)
Definition w_tree (bitmap leaf : Z) (pages : list Z) : PageFile :=
  mkPageFile (sb_bytes w_tree_sb ++ zero_page ++ page_of [bitmap] ++
    page_of (le_enc 8 1 ++ le_enc 8 leaf ++ le_enc 4 1) ++ pages).

Definition w_leaky : PageFile := w_tree 0x7F 5 (w_node 1 0 ++ w_leaf ++ zero_page).
Definition w_clean : PageFile := w_tree 0x3F 5 (w_node 1 0 ++ w_leaf ++ zero_page).
(** The root's child is an inner node with one leaf. *)
Definition w_deep : PageFile := w_tree 0x7F 6 (w_node 0 5 ++ w_node 1 0 ++ w_leaf).
(** The root is its own child. *)
Definition w_cycle : PageFile := w_tree 0x7F 5 (w_node 0 4 ++ w_leaf ++ zero_page).

Definition w_toml (bs : list Z) : option TreeManifest := None.

(** A run whose result passes [P]. *)
Definition passes {F} (P : FsckResult → bool) (x : res (FsckResult * F)) : bool :=
  match x with Ok (r, _) => P r | Err _ => false end.

Lemma run_passes {F} `{PageStore F} toml fuel (f : F) repair (P : FsckResult → bool) :
  passes P (fsck toml fuel f repair) = true →
  ∃ r f', fsck toml fuel f repair = Ok (r, f') ∧ P r = true.
Proof. unfold passes. destruct (fsck toml fuel f repair) as [[r f']|e]; [|done]. intros HP. by exists r, f'. Qed.

Lemma pages_wf n bs :
  0 ≤ n ≤ max_pages → Z.of_nat (length bs) = n * kPageSize →
  forallb (λ b, (0 <=? b) && (b <? 256)) bs = true → pf_wf (mkPageFile bs).
Proof.
  intros Hn Hl Hb. exists n. cbn [pf_bytes]. split; [done|]. split; [lia|].
  apply Forall_forall. intros b Hin. rewrite forallb_forall in Hb.
  apply list_elem_of_In, Hb, andb_true_iff in Hin as [?%Z.leb_le ?%Z.ltb_lt]. done.
Qed.

Lemma w_leaky_wf : ps_wf w_leaky.
Proof. apply (pages_wf 7); [unfold max_pages; lia|by vm_compute..]. Qed.
Lemma w_clean_wf : ps_wf w_clean.
Proof. apply (pages_wf 7); [unfold max_pages; lia|by vm_compute..]. Qed.
Lemma w_deep_wf : ps_wf w_deep.
Proof. apply (pages_wf 7); [unfold max_pages; lia|by vm_compute..]. Qed.

Lemma w_clean_run : passes all_ok (fsck w_toml 5 w_clean false) = true.
Proof. vm_compute. reflexivity. Qed.

Lemma verdict_sound_witness :
  ∃ r f' sb m w bm, fsck w_toml 5 w_clean false = Ok (r, f') ∧ all_ok r = true ∧
    Superblock.load w_clean = Ok sb ∧ walk_tree 5 w_clean sb m = Ok w ∧
    read_bitmap w_clean sb = Ok bm ∧
    ∀ p, 0 ≤ p < num_pages w_clean → bitv bm p = true ↔ claimed (all_ranges sb w) p.
Proof.
  destruct (run_passes w_toml 5 w_clean false all_ok w_clean_run) as (r & f' & E & Hr).
  destruct (verdict_sound w_toml 5 w_clean r f' w_clean_wf E Hr)
    as (sb & m & w & bm & H1 & _ & _ & H4 & _ & _ & _ & H8 & H9).
  exists r, f', sb, m, w, bm. exact (conj E (conj Hr (conj H1 (conj H4 (conj H8 H9))))).
Defined.

Lemma w_leaky_run : passes page_accounting_ok (fsck w_toml 5 w_leaky true) = true.
Proof. vm_compute. reflexivity. Qed.

Lemma writes_only_to_repair_witness :
  ∃ r f', fsck w_toml 5 w_leaky true = Ok (r, f') ∧ page_accounting_ok r = true ∧
    (f' = w_leaky ∨ true = true ∧ ∃ sb m w sb' nfree, Superblock.load w_leaky = Ok sb ∧
      load_manifest w_toml w_leaky sb = Ok m ∧ walk_tree 5 w_leaky sb m = Ok w ∧
      alloc_bitmap_page sb ≠ kInvalidPage ∧ 0 < alloc_bitmap_pages sb ∧
      repair_pages w_leaky sb (all_ranges sb w) = Ok (sb', f', nfree)).
Proof.
  destruct (run_passes w_toml 5 w_leaky true page_accounting_ok w_leaky_run) as (r & f' & E & Hr).
  exact (ex_intro _ r (ex_intro _ f' (conj E (conj Hr (writes_only_to_repair w_toml 5 w_leaky true r f' E))))).
Defined.

Definition w_walk : TreeWalkResult :=
  mkWalk [mkRange 4 1] [mkRange 5 1] [] 0 1 3 1 0 0 0 0 0 true.

(** Every page the ranges claim lies in [lo, hi). *)
Definition within (lo hi : Z) (rs : list PageRange) : bool :=
  forallb (λ r, (r_count r =? 0) || ((lo <=? r_start r) && (r_start r + r_count r <=? hi))) rs.

Lemma within_claimed lo hi rs p :
  0 ≤ lo → hi ≤ 2 ^ 64 → within lo hi rs = true → claimed rs p → lo ≤ p < hi.
Proof.
  intros Hlo Hhi Hw (r & Hr & i & Hi & ->)%Exists_exists. unfold within in Hw.
  rewrite forallb_forall in Hw. apply list_elem_of_In, Hw in Hr.
  apply orb_true_iff in Hr as [Hr%Z.eqb_eq|[?%Z.leb_le ?%Z.leb_le]%andb_true_iff]; [lia|].
  rewrite u64_id by lia. lia.
Qed.

Lemma w_leaky_load : Superblock.load w_leaky = Ok w_tree_sb.
Proof. vm_compute. reflexivity. Qed.
Lemma w_leaky_pages : num_pages w_leaky = 7.
Proof. vm_compute. reflexivity. Qed.
Lemma w_leaky_walk : walk_tree 5 w_leaky w_tree_sb manifest_default = Ok w_walk.
Proof. vm_compute. reflexivity. Qed.

Lemma w_leaky_committed : sb_committed (commit_seq w_tree_sb) w_leaky.
Proof.
  split; [exact w_leaky_wf|]. rewrite w_leaky_pages. split; [lia|]. split; [done|].
  split; [vm_compute; reflexivity|]. split; [vm_compute; reflexivity|].
  left. vm_compute. discriminate.
Qed.

Lemma w_leaky_repairable : repairable w_leaky w_tree_sb (all_ranges w_tree_sb w_walk).
Proof.
  split; try exact w_leaky_wf; try exact w_leaky_committed; rewrite ?w_leaky_pages.
  - done.
  - by apply (bool_decide_unpack _); vm_compute.
  - done.
  - done.
  - split; [done|split; [split; done|done]].
  - vm_compute. do 2 right. left.
  - vm_compute. do 3 right. left.
  - intros p Hp. refine (proj2 (within_claimed 0 7 (all_ranges w_tree_sb w_walk) p _ _ _ Hp)); [lia|lia|vm_compute; reflexivity].
Qed.

Lemma w_leaky_checked : checked w_toml 5 w_leaky w_tree_sb manifest_default w_walk 0.
Proof.
  split; [exact w_leaky_load|done|vm_compute; reflexivity|exact w_leaky_walk|done|
    vm_compute; reflexivity|exact w_leaky_repairable|].
  intros p Hp. pose proof (within_claimed 3 7 (data_ranges w_tree_sb w_walk) p ltac:(lia) ltac:(lia) ltac:(vm_compute; reflexivity) Hp).
  change (2 ≤ p ∧ ¬ 2 ≤ p < 2 + 1). lia.
Qed.

Lemma repair_rebuilds_witness :
  ∃ sb' f1 f' nfree bmp nbm,
    repair_pages w_leaky w_tree_sb (all_ranges w_tree_sb w_walk) = Ok (sb', f', nfree) ∧
    repaired f1 w_tree_sb (in_use w_leaky w_tree_sb (all_ranges w_tree_sb w_walk) bmp nbm) bmp nbm sb' f' nfree.
Proof.
  destruct (repair_rebuilds w_leaky w_tree_sb (all_ranges w_tree_sb w_walk) w_leaky_repairable)
    as (sb' & f1 & f' & nfree & bmp & nbm & E & Hr & _).
  exact (ex_intro _ sb' (ex_intro _ f1 (ex_intro _ f' (ex_intro _ nfree (ex_intro _ bmp (ex_intro _ nbm (conj E Hr))))))).
Defined.

Lemma repair_then_clean_witness :
  ∃ r f' r', fsck w_toml 5 w_leaky true = Ok (r, f') ∧ page_accounting_ok r = true ∧
    fsck w_toml 5 f' false = Ok (r', f') ∧
    page_accounting_ok r' = true ∧ leaked_pages r' = 0 ∧ orphan_pages r' = 0.
Proof. exact (repair_then_clean w_toml 5 w_leaky w_tree_sb manifest_default w_walk 0 w_leaky_checked). Defined.

(** ** Termination on a tree, and a cycle *)

Definition w_rank (p : Z) : nat := if p =? 4 then 1%nat else 0%nat.

Lemma w_deep_acyclic : acyclic w_deep (child_entry_size 0 0) w_rank.
Proof. apply ranked_acyclic; [exact w_deep_wf|vm_compute; reflexivity]. Qed.

Lemma walk_ends_witness :
  acyclic w_deep (child_entry_size 0 0) w_rank ∧
  walk_loop (Z.to_nat (2 ^ 64)) w_deep [mkLeafEntry 6 1] (child_entry_size 0 0) (num_pages w_deep)
    walk_new [mkEntry 4 1 0] ≠ Err OutOfFuel.
Proof.
  split; [exact w_deep_acyclic|].
  apply (walk_ends w_deep [mkLeafEntry 6 1] (child_entry_size 0 0) w_rank (Z.to_nat (2 ^ 64)) walk_new
    [mkEntry 4 1 0]).
  - exact w_deep_wf.
  - constructor; [split; done|constructor].
  - constructor; [split; done|constructor].
  - constructor.
  - exact w_deep_acyclic.
  - rewrite Z2Nat.id by done. done.
Defined.

(** nothing stops the walk on a node that is its own child: the loop runs
    out of any amount of fuel. *)
Theorem walk_cycle_never_ends fuel :
  walk_tree fuel w_cycle w_tree_sb manifest_default = Err OutOfFuel.
Proof.
  assert (∀ w d, ∃ w' d', walk_node w_cycle [mkLeafEntry 5 1] (child_entry_size 0 0) (num_pages w_cycle)
    (mkEntry 4 1 d) w [] = Ok (w', [mkEntry 4 1 d'])) as Hstep.
  { intros w d. unfold walk_node.
    assert (num_pages w_cycle = 7) as -> by (vm_compute; reflexivity).
    cbn [e_page e_pages e_depth]. change (4 =? kInvalidPage) with false.
    change ((7 <=? 4) || (7 <? u64 (4 + 1))) with false. cbv zeta iota.
    assert (read_pages w_cycle 4 1 = Ok (w_node 0 4)) as -> by (vm_compute; reflexivity).
    rewrite bind_Ok.
    assert (∃ nh, node_header_at (w_node 0 4) = Ok nh ∧ nh_magic nh = kTreeNodeMagic ∧ nh_n_children nh = 1)
      as (nh & Enh & Emg & Enc) by (eexists; split; vm_compute; [reflexivity|done]).
    rewrite Enh, bind_Ok, Emg, Enc, Z.eqb_refl. cbn [negb].
    assert (∃ crc, header_crc (w_node 0 4) node_crc_offset = Ok crc) as [crc ->]
      by (eexists; vm_compute; reflexivity).
    rewrite bind_Ok. change (Z.to_nat 1) with 1%nat. cbn [for_range].
    assert (child_at (w_node 0 4) (sizeof_TreeNodeHeader + 0 * child_entry_size 0 0) = Ok (mkChild 4 1 0 0))
      as -> by (vm_compute; reflexivity).
    rewrite bind_Ok. unfold walk_child. cbn [child_page is_leaf child_pages].
    change (4 =? kInvalidPage) with false. cbv iota. change (0 =? 0) with true. cbn [negb].
    unfold mret, res_ret. rewrite bind_Ok. by eexists _, _. }
  unfold walk_tree.
  assert (load_leaf_table w_cycle w_tree_sb = Ok [mkLeafEntry 5 1]) as -> by (vm_compute; reflexivity).
  rewrite bind_Ok. change (m_dim manifest_default) with 0. change (m_summary_size manifest_default) with 0.
  change (mkEntry (root_node_page w_tree_sb) (root_node_pages w_tree_sb) 0) with (mkEntry 4 1 0).
  generalize walk_new. assert (∀ w d, walk_loop fuel w_cycle [mkLeafEntry 5 1] (child_entry_size 0 0)
    (num_pages w_cycle) w [mkEntry 4 1 d] = Err OutOfFuel) as Hloop; [|intros w; apply Hloop].
  induction fuel as [|fuel IH]; intros w d; [done|]. cbn [walk_loop].
  destruct (Hstep w d) as (w' & d' & ->). rewrite bind_Ok. apply IH.
Qed.

(** ** A repair after a damaged node *)

(** The root's magic is damaged; the leaf under it is whole. *)
Definition w_torn : PageFile := w_tree 0x3F 5 (zero_page ++ w_leaf ++ zero_page).

Definition leaf_lost (x : res (FsckResult * PageFile)) : bool :=
  match x with
  | Ok (r, f') => negb (tree_walk_ok r) && page_accounting_ok r &&
      negb (byte_at (pf_bytes f') (Z.to_nat (5 * kPageSize)) =?
            byte_at (pf_bytes w_torn) (Z.to_nat (5 * kPageSize)))
  | Err _ => false
  end.

(** The header says repair never modifies leaf contents.  A subtree the walk
    cannot enter is claimed by nobody: its leaves are linked into the free list
    and their first bytes overwritten. *)
Lemma repair_overwrites_leaf :
  ∃ r f', fsck w_toml 5 w_torn true = Ok (r, f') ∧ tree_walk_ok r = false ∧
    ps_page f' 5 ≠ ps_page w_torn 5.
Proof.
  assert (leaf_lost (fsck w_toml 5 w_torn true) = true) as Hl by (vm_compute; reflexivity).
  destruct (fsck w_toml 5 w_torn true) as [[r f']|e]; [|done]. exists r, f'.
  unfold leaf_lost in Hl. apply andb_true_iff in Hl as [[Ht _]%andb_true_iff Hne].
  apply negb_true_iff in Ht. apply negb_true_iff, Z.eqb_neq in Hne.
  split; [done|]. split; [done|]. intros Heq. apply Hne.
  apply (f_equal (λ b, byte_at b 0)) in Heq. cbn [ps_page full_store PageFile_store] in Heq.
  rewrite !byte_at_pf_page, !decide_True, Nat.add_0_r in Heq by (unfold kPageSize; lia). exact Heq.
Qed.
