(* ===== verification/FrequencySketch.v ===== *)
(** * FrequencySketch: the count-min sketch of the block cache
    ([src/storage/frequency_sketch.hpp])

    A table of 64-bit words with sixteen 4-bit counters each; a key has four
    counters in one block of eight words.  Atomic operations are modelled one
    after the other, so a compare-and-swap succeeds at its first try. *)
From S2P Require Import Prelude.

(** ** State *)

Record FrequencySketch := mkSketch {
  table_ : option (list Z);
  table_size_ : Z;
  sample_size_ : Z;
  block_mask_ : Z;
  size_ : Z;
}.

Definition sketch_new : FrequencySketch := mkSketch None 0 0 0 0.

Definition MIN_SKETCH_SIZE : Z := 256.
Definition RESET_MASK : Z := 0x7777777777777777.
Definition ONE_MASK : Z := 0x1111111111111111.

Definition is_not_initialized (s : FrequencySketch) : bool := bool_decide (table_ s = None).

(** ** Hashes and sizes *)

(** [v |= v >> k]. *)
Definition smear (k v : Z) : Z := Z.lor v (Z.shiftr v k).

Definition ceiling_power_of_two (v : Z) : Z :=
  let v := u32 (v - 1) in
  u32 (smear 16 (smear 8 (smear 4 (smear 2 (smear 1 v)))) + 1).

Definition spread (x : Z) : Z :=
  let x := Z.lxor x (Z.shiftr x 17) in
  let x := u32 (x * 0xed5ad4bb) in
  let x := Z.lxor x (Z.shiftr x 11) in
  let x := u32 (x * 0xac4c1b51) in
  Z.lxor x (Z.shiftr x 15).

Definition rehash (x : Z) : Z :=
  let x := u32 (x * 0x31848bab) in
  Z.lxor x (Z.shiftr x 14).

Definition popcount (x : Z) : Z :=
  let x := u64 (x - Z.land (Z.shiftr x 1) 0x5555555555555555) in
  let x := u64 (Z.land x 0x3333333333333333 + Z.land (Z.shiftr x 2) 0x3333333333333333) in
  let x := Z.land (u64 (x + Z.shiftr x 4)) 0x0f0f0f0f0f0f0f0f in
  Z.shiftr (u64 (x * 0x0101010101010101)) 56.

(** ** Operations *)

Definition ensure_capacity (maximum_entries : Z) (s : FrequencySketch) : FrequencySketch :=
  let maximum := Z.max maximum_entries MIN_SKETCH_SIZE in
  let new_size := ceiling_power_of_two maximum in
  if negb (is_not_initialized s) && (maximum <=? table_size_ s) then s
  else mkSketch (Some (replicate (Z.to_nat new_size) 0)) new_size (u32 (10 * maximum))
         (u32 (Z.shiftr new_size 3 - 1)) 0.

(** The first word of the key's block, and the hash that picks its counters. *)
Definition key_block (s : FrequencySketch) (key : Z) : Z :=
  u32 (Z.shiftl (Z.land (spread (u32 key)) (block_mask_ s)) 3).
Definition key_hash (key : Z) : Z := rehash (spread (u32 key)).

(** Word and counter of the [i]-th of a key's four counters. *)
Definition counter_index (key i : Z) : Z := Z.land (Z.shiftr (Z.shiftr (key_hash key) (Z.shiftl i 3)) 1) 15.
Definition counter_slot (s : FrequencySketch) (key i : Z) : Z :=
  u32 (key_block s key + Z.land (Z.shiftr (key_hash key) (Z.shiftl i 3)) 1 + Z.shiftl i 1).

Definition frequency (s : FrequencySketch) (key : Z) : res Z :=
  match table_ s with
  | None => mret 0
  | Some table =>
      for_range 4 0 (λ i frequency,
        slot ← vec_get table (counter_slot s key i);
        let count := Z.land (Z.shiftr slot (Z.shiftl (counter_index key i) 2)) 0xf in
        mret (Z.min frequency count)) 15
  end.

(** Counter [j] of word [i], unless it is 15; whether it was incremented. *)
Definition increment_at (table : list Z) (i j : Z) : res (list Z * bool) :=
  let offset := Z.shiftl j 2 in
  let mask := u64 (Z.shiftl 0xf offset) in
  let increment := u64 (Z.shiftl 1 offset) in
  old ← vec_get table i;
  if Z.land old mask =? mask then mret (table, false)
  else table ← vec_set table i (u64 (old + increment)); mret (table, true).

Definition reset (table : list Z) (table_size size : Z) : res (list Z * Z) :=
  '(table, count) ← for_range (Z.to_nat table_size) 0 (λ i '(table, count),
    slot ← vec_get table i;
    table ← vec_set table i (Z.land (Z.shiftr slot 1) RESET_MASK);
    mret (table, u64 (count + popcount (Z.land slot ONE_MASK)))) (table, 0);
  mret (table, Z.shiftr (u32 (size - u32 (Z.shiftr count 2))) 1).

Definition increment (key : Z) (s : FrequencySketch) : res FrequencySketch :=
  match table_ s with
  | None => mret s
  | Some table =>
      '(table, added0) ← increment_at table (counter_slot s key 0) (counter_index key 0);
      '(table, added1) ← increment_at table (counter_slot s key 1) (counter_index key 1);
      '(table, added2) ← increment_at table (counter_slot s key 2) (counter_index key 2);
      '(table, added3) ← increment_at table (counter_slot s key 3) (counter_index key 3);
      if (added0 || added1 || added2 || added3 : bool) then
        let size := u32 (size_ s + 1) in
        if size =? sample_size_ s then
          '(table, size) ← reset table (table_size_ s) size;
          mret (mkSketch (Some table) (table_size_ s) (sample_size_ s) (block_mask_ s) size)
        else mret (mkSketch (Some table) (table_size_ s) (sample_size_ s) (block_mask_ s) size)
      else mret (mkSketch (Some table) (table_size_ s) (sample_size_ s) (block_mask_ s) (size_ s))
  end.

(** * Counters *)

Definition counter_at (w j : Z) : Z := w / 16 ^ j mod 16.

Lemma counter_range w j : 0 ≤ counter_at w j ≤ 15.
Proof. pose proof (Z.mod_pos_bound (w / 16 ^ j) 16). unfold counter_at. lia. Qed.

Lemma shiftl_2 j : 0 ≤ j → Z.shiftl j 2 = 4 * j.
Proof. intros _. rewrite Z.shiftl_mul_pow2 by lia. lia. Qed.

Lemma pow_16 j : 0 ≤ j → 16 ^ j = 2 ^ (4 * j).
Proof. intros Hj. change 16 with (2 ^ 4). by rewrite <- Z.pow_mul_r by lia. Qed.

(** The counter as the code extracts it. *)
Lemma counter_land w j : 0 ≤ j → Z.land (Z.shiftr w (Z.shiftl j 2)) 0xf = counter_at w j.
Proof.
  intros Hj. rewrite shiftl_2 by done. change 0xf with (Z.ones 4).
  rewrite Z.land_ones, Z.shiftr_div_pow2, <- pow_16 by lia. done.
Qed.

(** A counter is full when the masked word is the mask. *)
Lemma counter_full w j :
  0 ≤ j < 16 → (Z.land w (u64 (Z.shiftl 0xf (Z.shiftl j 2))) =? u64 (Z.shiftl 0xf (Z.shiftl j 2))) =
    (counter_at w j =? 15).
Proof.
  intros Hj. rewrite shiftl_2 by lia.
  assert (u64 (Z.shiftl 15 (4 * j)) = Z.shiftl 15 (4 * j)) as ->.
  { apply u64_id. rewrite Z.shiftl_mul_pow2 by lia.
    assert (2 ^ (4 * j) ≤ 2 ^ 60) by (apply Z.pow_le_mono_r; lia).
    assert (0 < 2 ^ (4 * j)) by (apply Z.pow_pos_nonneg; lia). lia. }
  assert (Z.land w (Z.shiftl 15 (4 * j)) = Z.shiftl (counter_at w j) (4 * j)) as ->.
  { rewrite <- counter_land, shiftl_2 by lia. rewrite Z.shiftl_land. apply Z.bits_inj'. intros n Hn.
    rewrite !Z.land_spec. destruct (Z.lt_ge_cases n (4 * j)).
    - by rewrite !(Z.shiftl_spec_low 15), !andb_false_r by lia.
    - rewrite (Z.shiftl_spec (Z.shiftr w _)), Z.shiftr_spec by lia. do 2 f_equal. lia. }
  rewrite !Z.shiftl_mul_pow2 by lia. assert (0 < 2 ^ (4 * j)) by (apply Z.pow_pos_nonneg; lia).
  destruct (Z.eqb_spec (counter_at w j) 15) as [->|]; [apply Z.eqb_refl|apply Z.eqb_neq; nia].
Qed.

Lemma pow_16_pos j : 0 ≤ j → 0 < 16 ^ j.
Proof. intros. apply Z.pow_pos_nonneg; lia. Qed.

(** Adding one to a counter that is not full changes no other counter. *)
Lemma counter_add w j j' :
  0 ≤ w → 0 ≤ j → 0 ≤ j' → counter_at w j < 15 →
  counter_at (w + 16 ^ j) j' = if decide (j' = j) then counter_at w j + 1 else counter_at w j'.
Proof.
  intros Hw Hj Hj' Hc. pose proof (pow_16_pos j Hj) as Hp. pose proof (pow_16_pos j' Hj') as Hp'.
  unfold counter_at in *. case_decide as E.
  - subst j'. rewrite <- (Z.mul_1_l (16 ^ j)) at 1. rewrite Z.div_add by lia.
    set (q := w / 16 ^ j) in *. pose proof (Z.mod_pos_bound q 16 ltac:(lia)).
    rewrite (Z.div_mod q 16) at 1 by lia.
    replace (16 * (q / 16) + q mod 16 + 1) with (q mod 16 + 1 + q / 16 * 16) by lia.
    rewrite Z.mod_add by lia. apply Z.mod_small. lia.
  - destruct (Z.lt_ge_cases j' j) as [Hlt|Hge].
    + replace (16 ^ j) with (16 ^ (j - j' - 1) * 16 * 16 ^ j').
      * rewrite Z.div_add, Z.mod_add by lia. done.
      * replace (16 ^ (j - j' - 1) * 16) with (16 ^ (j - j' - 1 + 1)) by (rewrite Z.pow_add_r by lia; done).
        rewrite <- Z.pow_add_r by lia. f_equal. lia.
    + replace (16 ^ j') with (16 ^ j * 16 * 16 ^ (j' - j - 1)).
      * rewrite <- !Z.div_div by (try apply pow_16_pos; lia). do 2 f_equal.
        rewrite <- (Z.mul_1_l (16 ^ j)) at 1. rewrite Z.div_add by lia.
        set (q := w / 16 ^ j) in *. Z.div_mod_to_equations. lia.
      * replace (16 ^ j * 16) with (16 ^ (j + 1)) by (rewrite Z.pow_add_r by lia; done).
        rewrite <- Z.pow_add_r by lia. f_equal. lia.
Qed.

Lemma counter_add_bound w j : 0 ≤ w < 2 ^ 64 → 0 ≤ j < 16 → counter_at w j < 15 → w + 16 ^ j < 2 ^ 64.
Proof.
  intros Hw Hj Hc. unfold counter_at in Hc. pose proof (pow_16_pos j ltac:(lia)) as Hp.
  set (q := w / 16 ^ j) in *.
  assert (q < 16 ^ (16 - j)) as Hq.
  { apply Z.div_lt_upper_bound; [lia|]. rewrite <- Z.pow_add_r by lia. replace (j + (16 - j)) with 16 by lia. lia. }
  assert (q + 1 < 16 ^ (16 - j)) as Hq1.
  { replace (16 - j) with (15 - j + 1) in * by lia. rewrite Z.pow_add_r in * by lia.
    pose proof (pow_16_pos (15 - j) ltac:(lia)). change (16 ^ 1) with 16 in *.
    Z.div_mod_to_equations. nia. }
  pose proof (Z.mod_pos_bound w (16 ^ j) Hp). pose proof (Z.div_mod w (16 ^ j) ltac:(lia)) as Hd. fold q in Hd.
  assert (2 ^ 64 = 16 ^ j * 16 ^ (16 - j)) as ->; [|nia].
  rewrite <- Z.pow_add_r by lia. by replace (j + (16 - j)) with 16 by lia.
Qed.

(** ** Aging *)

Lemma reset_mask_bits n : 0 ≤ n < 64 → Z.testbit RESET_MASK n = (n mod 4 <? 3).
Proof.
  intros Hn. assert (forallb (λ n, Bool.eqb (Z.testbit RESET_MASK n) (n mod 4 <? 3)) (seqZ 0 64) = true) as Hall
    by (vm_compute; reflexivity).
  rewrite forallb_forall in Hall. apply eqb_prop, Hall, list_elem_of_In, elem_of_seqZ. lia.
Qed.

Lemma one_mask_bits n : 0 ≤ n < 64 → Z.testbit ONE_MASK n = (n mod 4 =? 0).
Proof.
  intros Hn. assert (forallb (λ n, Bool.eqb (Z.testbit ONE_MASK n) (n mod 4 =? 0)) (seqZ 0 64) = true) as Hall
    by (vm_compute; reflexivity).
  rewrite forallb_forall in Hall. apply eqb_prop, Hall, list_elem_of_In, elem_of_seqZ. lia.
Qed.

(** Bit [b] of a counter is a bit of the word. *)
Lemma counter_testbit w j b :
  0 ≤ j → 0 ≤ b → Z.testbit (counter_at w j) b = (b <? 4) && Z.testbit w (4 * j + b).
Proof.
  intros Hj Hb. rewrite <- counter_land, shiftl_2, Z.land_spec, Z.shiftr_spec by lia.
  change 15 with (Z.ones 4). rewrite Z.testbit_ones_nonneg by lia. rewrite andb_comm. do 2 f_equal. lia.
Qed.

(** [(slot >> 1) & RESET_MASK] halves every counter. *)
Lemma counter_halved w j :
  0 ≤ j < 16 → counter_at (Z.land (Z.shiftr w 1) RESET_MASK) j = counter_at w j / 2.
Proof.
  intros Hj. change 2 with (2 ^ 1). rewrite <- Z.shiftr_div_pow2 by lia.
  apply Z.bits_inj'. intros b Hb. rewrite counter_testbit, Z.shiftr_spec, counter_testbit by lia.
  destruct (Z.ltb_spec b 4) as [Hb4|Hb4]; cbn [andb].
  - rewrite Z.land_spec, Z.shiftr_spec, reset_mask_bits by lia.
    replace ((4 * j + b) mod 4) with b by (rewrite Z.mul_comm, Z.add_comm, Z.mod_add, Z.mod_small; lia).
    replace (4 * j + b + 1) with (4 * j + (b + 1)) by lia. rewrite andb_comm. f_equal. lia.
  - rewrite (proj2 (Z.ltb_ge (b + 1) 4)) by lia. done.
Qed.

(** The word with bit [i] of [bs] at position [4 * i]. *)
Fixpoint word_of (bs : list bool) : Z :=
  match bs with [] => 0 | b :: bs => Z.b2z b + 16 * word_of bs end.

Lemma word_of_testbit bs n :
  0 ≤ n → Z.testbit (word_of bs) n = (n mod 4 =? 0) && default false (bs !! Z.to_nat (n / 4)).
Proof.
  revert n. induction bs as [|b bs IH]; intros n Hn; cbn [word_of].
  - by rewrite Z.bits_0, lookup_nil, andb_false_r.
  - destruct (Z.lt_ge_cases n 4) as [Hlt|Hge].
    + rewrite <- (Z.mod_pow2_bits_low _ 4) by done. change (2 ^ 4) with 16.
      rewrite Z.mul_comm, Z.mod_add by lia.
      assert (n = 0 ∨ n = 1 ∨ n = 2 ∨ n = 3) as [->|[->|[->| ->]]] by lia; by destruct b.
    + replace n with (n - 4 + 4) at 1 by lia. rewrite <- Z.shiftr_spec, Z.shiftr_div_pow2 by lia.
      change (2 ^ 4) with 16. rewrite Z.mul_comm, Z.div_add by lia.
      replace (Z.b2z b / 16 + word_of bs) with (word_of bs) by (destruct b; done).
      rewrite IH by lia. replace (n mod 4) with ((n - 4) mod 4); [|Z.div_mod_to_equations; lia].
      replace (Z.to_nat (n / 4)) with (S (Z.to_nat ((n - 4) / 4))); [done|]. Z.div_mod_to_equations. lia.
Qed.

(** The low bits of a word's counters. *)
Definition low_bits (w : Z) : list bool := (λ j, Z.testbit w (4 * j)) <$> seqZ 0 16.

Lemma land_one_mask w : Z.land w ONE_MASK = word_of (low_bits w).
Proof.
  apply Z.bits_inj'. intros n Hn. rewrite Z.land_spec, word_of_testbit by done. unfold low_bits.
  rewrite list_lookup_fmap. destruct (Z.lt_ge_cases n 64) as [Hlt|Hge].
  - rewrite one_mask_bits, lookup_seqZ_lt by (Z.div_mod_to_equations; lia). cbn [option_fmap option_map default].
    destruct (Z.eqb_spec (n mod 4) 0); [|by rewrite andb_false_r]. rewrite andb_true_r. cbn [andb].
    change (Z.testbit w n = Z.testbit w (4 * (0 + Z.of_nat (Z.to_nat (n / 4))))).
    rewrite Z2Nat.id by (apply Z.div_pos; lia). f_equal. Z.div_mod_to_equations. lia.
  - rewrite (Z.bits_above_log2 ONE_MASK) by (first [done|change (Z.log2 ONE_MASK) with 60; lia]).
    rewrite lookup_seqZ_ge by (Z.div_mod_to_equations; lia). by rewrite !andb_false_r.
Qed.

Definition count_true (bs : list bool) : Z :=
  Z.of_nat (sum_list_with (λ b : bool, if b then 1%nat else 0%nat) bs).

(** A word of low bits meets only mask bits at multiples of four. *)
Lemma word_of_land bs s m :
  0 ≤ s < 4 → 0 ≤ m → (∀ n, 0 ≤ n → Z.testbit m n = true → (n + s) mod 4 ≠ 0) →
  Z.land (Z.shiftr (word_of bs) s) m = 0.
Proof.
  intros Hs Hm Hb. apply Z.bits_inj'. intros n Hn.
  rewrite Z.land_spec, Z.bits_0, Z.shiftr_spec, word_of_testbit by lia.
  destruct (Z.testbit m n) eqn:E; [|by rewrite andb_false_r]. apply Hb in E; [|done].
  by rewrite (proj2 (Z.eqb_neq _ _) E).
Qed.

Lemma mask_bits (P : Z → bool) m :
  0 ≤ m < 2 ^ 64 → forallb (λ n, negb (Z.testbit m n) || P n) (seqZ 0 64) = true →
  ∀ n, 0 ≤ n → Z.testbit m n = true → P n = true.
Proof.
  intros Hm Hall n Hn Hb. rewrite forallb_forall in Hall.
  destruct (Z.lt_ge_cases n 64) as [Hlt|Hge].
  - specialize (Hall n). rewrite Hb in Hall. apply Hall, list_elem_of_In, elem_of_seqZ. lia.
  - destruct (Z.eq_dec m 0) as [->|]; [by rewrite Z.bits_0 in Hb|].
    rewrite Z.bits_above_log2 in Hb; [done|lia|]. assert (Z.log2 m < 64) by (apply Z.log2_lt_pow2; lia). lia.
Qed.

Lemma word_of_bound bs : 0 ≤ word_of bs < 16 ^ Z.of_nat (length bs).
Proof.
  induction bs as [|b bs IH]; cbn [word_of length]; [by vm_compute|].
  rewrite Nat2Z.inj_succ, Z.pow_succ_r by lia. destruct b; cbn [Z.b2z]; lia.
Qed.

(** Low and high byte of a conjunction. *)
Lemma land_byte x m M :
  0 ≤ x → 0 ≤ m < 256 → 0 ≤ M → Z.land x (m + 256 * M) = Z.land (x mod 256) m + 256 * Z.land (x / 256) M.
Proof.
  intros Hx Hm HM.
  assert (∀ u v, 0 ≤ u < 256 → 0 ≤ v → ∀ n, 0 ≤ n →
    Z.testbit (u + 256 * v) n = if n <? 8 then Z.testbit u n else Z.testbit v (n - 8)) as Hsplit.
  { intros u v Hu Hv n Hn. destruct (Z.ltb_spec n 8).
    - rewrite <- (Z.mod_pow2_bits_low _ 8) by done. change (2 ^ 8) with 256.
      rewrite Z.mul_comm, Z.mod_add, Z.mod_small by lia. done.
    - replace n with (n - 8 + 8) at 1 by lia. rewrite <- Z.shiftr_spec, Z.shiftr_div_pow2 by lia.
      change (2 ^ 8) with 256. rewrite Z.mul_comm, Z.div_add, Z.div_small by lia. done. }
  pose proof (Z.mod_pos_bound x 256 ltac:(lia)) as Hxm. assert (0 ≤ x / 256) by (apply Z.div_pos; lia).
  apply Z.bits_inj'. intros n Hn. rewrite Z.land_spec, (Hsplit m M) by lia.
  assert (0 ≤ Z.land (x mod 256) m < 256).
  { split; [apply Z.land_nonneg; lia|]. change 256 with (2 ^ 8) at 2.
    destruct (Z.eq_dec (Z.land (x mod 256) m) 0) as [->|]; [done|].
    assert (0 ≤ Z.land (x mod 256) m) by (apply Z.land_nonneg; lia).
    apply Z.log2_lt_pow2; [lia|]. pose proof (Z.log2_land (x mod 256) m ltac:(lia) ltac:(lia)).
    assert (Z.log2 m ≤ 7); [|lia]. apply (Z.log2_le_mono m 255). lia. }
  rewrite (Hsplit (Z.land (x mod 256) m)) by (try apply Z.land_nonneg; lia).
  pose proof (Z.div_mod x 256 ltac:(lia)) as Hd. rewrite Hd at 1.
  rewrite Z.add_comm, (Hsplit (x mod 256) (x / 256)) by lia. destruct (n <? 8); by rewrite Z.land_spec.
Qed.

(** [bytes_of cs]: the number with bytes [cs], the lowest first. *)
Fixpoint bytes_of (cs : list Z) : Z := match cs with [] => 0 | c :: cs => c + 256 * bytes_of cs end.

(** Sums of neighbours. *)
Fixpoint pair_sums (bs : list bool) : list Z :=
  match bs with a :: b :: bs => Z.b2z a + Z.b2z b :: pair_sums bs | _ => [] end.

(** The third step of the parallel sum adds neighbouring counters. *)
Lemma add_nibbles (n : nat) bs :
  length bs = (2 * n)%nat →
  Z.land (word_of bs + word_of bs / 16) (bytes_of (replicate n 15)) = bytes_of (pair_sums bs).
Proof.
  revert bs. induction n as [|n IH]; intros bs Hl.
  - apply nil_length_inv in Hl as ->. done.
  - destruct bs as [|a [|b bs]]; cbn [length] in Hl; [lia|lia|].
    cbn [replicate bytes_of pair_sums]. rewrite <- IH by lia. pose proof (word_of_bound bs) as Hw.
    set (w := word_of bs) in *. assert (0 ≤ bytes_of (replicate n 15)).
    { clear. induction n; cbn [replicate bytes_of]; lia. }
    assert (w mod 16 = 0 ∨ w mod 16 = 1) as Hlow.
    { unfold w. destruct bs as [|c bs]; [by left|]. cbn [word_of]. rewrite Z.mul_comm, Z.mod_add by lia.
      destruct c; [by right|by left]. }
    assert (word_of (a :: b :: bs) = Z.b2z a + 16 * Z.b2z b + 256 * w) as -> by (cbn [word_of]; fold w; lia).
    set (S := Z.b2z a + 16 * Z.b2z b + 256 * w + (Z.b2z a + 16 * Z.b2z b + 256 * w) / 16).
    assert (S = 256 * (w + w / 16) + (16 * (Z.b2z b + w mod 16) + (Z.b2z a + Z.b2z b))) as HS.
    { unfold S. destruct a, b; cbn [Z.b2z]; Z.div_mod_to_equations; lia. }
    assert (0 ≤ w / 16) by (apply Z.div_pos; lia).
    assert (0 ≤ 16 * (Z.b2z b + w mod 16) + (Z.b2z a + Z.b2z b) < 256) as Hsm by (destruct a, b; cbn [Z.b2z]; lia).
    rewrite land_byte by lia.
    rewrite <- (Z.div_unique_pos S 256 _ _ Hsm HS), <- (Z.mod_unique_pos S 256 _ _ Hsm HS). f_equal.
    change 15 with (Z.ones 4). rewrite Z.land_ones by lia. change (2 ^ 4) with 16.
    destruct a, b, Hlow as [->| ->]; reflexivity.
Qed.

(** The multiplication adds the eight bytes. *)
Lemma sum_bytes c0 c1 c2 c3 c4 c5 c6 c7 :
  Forall (λ c, 0 ≤ c ≤ 2) [c0; c1; c2; c3; c4; c5; c6; c7] →
  Z.shiftr (u64 (bytes_of [c0; c1; c2; c3; c4; c5; c6; c7] * 0x0101010101010101)) 56 =
    c0 + c1 + c2 + c3 + c4 + c5 + c6 + c7.
Proof.
  intros Hc. rewrite !Forall_cons in Hc. destruct Hc as (? & ? & ? & ? & ? & ? & ? & ? & _).
  rewrite Z.shiftr_div_pow2 by lia. unfold u64.
  set (s1 := c0 + c1). set (s2 := s1 + c2). set (s3 := s2 + c3). set (s4 := s3 + c4). set (s5 := s4 + c5). set (s6 := s5 + c6).
  set (R := c0 + 256 * (s1 + 256 * (s2 + 256 * (s3 + 256 * (s4 + 256 * (s5 + 256 * s6)))))).
  set (A := (c1 + c2 + c3 + c4 + c5 + c6 + c7) + 256 * ((c2 + c3 + c4 + c5 + c6 + c7) + 256 * ((c3 + c4 + c5 + c6 + c7)
    + 256 * ((c4 + c5 + c6 + c7) + 256 * ((c5 + c6 + c7) + 256 * ((c6 + c7) + 256 * c7)))))).
  assert (0 ≤ R < 2 ^ 56) as HR by (unfold R, s1, s2, s3, s4, s5, s6; lia).
  assert (0 ≤ 2 ^ 56 * (s6 + c7) + R < 2 ^ 64) as HM by (unfold s1, s2, s3, s4, s5, s6 in *; lia).
  rewrite <- (Z.mod_unique_pos _ (2 ^ 64) A (2 ^ 56 * (s6 + c7) + R) HM).
  - rewrite Z.add_comm, Z.mul_comm, Z.div_add, Z.div_small by lia. unfold s6, s5, s4, s3, s2, s1. lia.
  - cbn [bytes_of]. unfold A, R, s1, s2, s3, s4, s5, s6. lia.
Qed.

Lemma land_le_mask w m : 0 ≤ m → Z.land w m ≤ m.
Proof.
  intros Hm. apply Z.ldiff_le; [done|]. apply Z.bits_inj'. intros n Hn.
  rewrite Z.ldiff_spec, Z.land_spec, Z.bits_0. by destruct (Z.testbit w n), (Z.testbit m n).
Qed.

(** On the masked word the parallel sum counts the set bits. *)
Lemma popcount_one_mask w : popcount (Z.land w ONE_MASK) = count_true (low_bits w).
Proof.
  assert (Z.land (Z.land w ONE_MASK) 0x3333333333333333 = Z.land w ONE_MASK) as E3
    by by rewrite <- Z.land_assoc.
  assert (Z.land w ONE_MASK ≤ ONE_MASK) as Hle by by apply land_le_mask.
  rewrite land_one_mask in *. assert (length (low_bits w) = 16%nat) as Hl by done.
  generalize dependent (low_bits w). intros bs E3 Hle Hl. pose proof (word_of_bound bs) as Hw.
  unfold ONE_MASK in Hle. unfold popcount. rewrite (word_of_land bs 1); [|lia|lia|].
  2:{ intros n Hn Hb. apply Z.eqb_neq, negb_true_iff.
      by apply (mask_bits (λ n, negb ((n + 1) mod 4 =? 0)) 0x5555555555555555 ltac:(lia) eq_refl). }
  rewrite Z.sub_0_r, (u64_id (word_of bs)) by lia. rewrite (word_of_land bs 2); [|lia|lia|].
  2:{ intros n Hn Hb. apply Z.eqb_neq, negb_true_iff.
      by apply (mask_bits (λ n, negb ((n + 2) mod 4 =? 0)) 0x3333333333333333 ltac:(lia) eq_refl). }
  rewrite E3, Z.add_0_r, (u64_id (word_of bs)) by lia.
  rewrite (Z.shiftr_div_pow2 (word_of bs)) by lia. change (2 ^ 4) with 16.
  rewrite (u64_id (word_of bs + word_of bs / 16)) by (Z.div_mod_to_equations; lia).
  change 0x0f0f0f0f0f0f0f0f with (bytes_of (replicate 8 15)). rewrite add_nibbles by done.
  do 16 (destruct bs as [|? bs]; [done|]). destruct bs; [|done]. cbn [pair_sums]. rewrite sum_bytes.
  - assert (∀ b : bool, Z.of_nat (if b then 1%nat else 0%nat) = Z.b2z b) as Hz by by intros [].
    unfold count_true. cbn [sum_list_with]. rewrite !Nat2Z.inj_add, !Hz. lia.
  - repeat constructor; repeat match goal with |- context [Z.b2z ?b] => is_var b; destruct b; cbn [Z.b2z] end; lia.
Qed.

(** * The table *)

Definition word_ok (w : Z) : Prop := 0 ≤ w < 2 ^ 64.

(** Counter [j] of word [i]. *)
Definition count_of (table : list Z) (i j : Z) : Z := counter_at (default 0 (table !! Z.to_nat i)) j.

Lemma count_of_set table i w i' j :
  0 ≤ i < Z.of_nat (length table) → 0 ≤ i' →
  count_of (<[Z.to_nat i := w]> table) i' j = if decide (i' = i) then counter_at w j else count_of table i' j.
Proof.
  intros Hi Hi'. unfold count_of. case_decide as E.
  - subst. by rewrite list_lookup_insert_eq by lia.
  - by rewrite list_lookup_insert_ne by lia.
Qed.

Lemma increment_at_ok table i j :
  Forall word_ok table → 0 ≤ i < Z.of_nat (length table) → 0 ≤ j < 16 →
  ∃ table', increment_at table i j = Ok (table', count_of table i j <? 15) ∧
    Forall word_ok table' ∧ length table' = length table ∧
    ∀ i' j', 0 ≤ i' → 0 ≤ j' → count_of table' i' j' =
      if decide (i' = i ∧ j' = j) then Z.min 15 (count_of table i j + 1) else count_of table i' j'.
Proof.
  intros Ht Hi Hj. unfold increment_at. destruct (vec_get_Ok table i Hi) as (w & Hw & ->). rewrite bind_Ok.
  pose proof (Forall_lookup_1 _ _ _ _ Ht Hw) as Hwb. rewrite counter_full by done.
  assert (count_of table i j = counter_at w j) as Ec by (unfold count_of; by rewrite Hw).
  pose proof (counter_range w j) as Hr. rewrite Ec. destruct (Z.eqb_spec (counter_at w j) 15) as [E15|Hne].
  - exists table. rewrite E15. split; [done|]. split; [done|]. split; [done|]. intros i' j' _ _.
    case_decide as E; [|done]. destruct E as [-> ->]. by rewrite Ec, E15.
  - rewrite vec_set_Ok, bind_Ok by done. rewrite (proj2 (Z.ltb_lt _ _)) by lia.
    assert (u64 (Z.shiftl 1 (Z.shiftl j 2)) = 16 ^ j) as ->.
    { rewrite shiftl_2, Z.shiftl_mul_pow2, Z.mul_1_l, <- pow_16 by lia. apply u64_id.
      pose proof (pow_16_pos j ltac:(lia)). assert (16 ^ j ≤ 16 ^ 15) by (apply Z.pow_le_mono_r; lia). lia. }
    pose proof (counter_add_bound w j Hwb Hj ltac:(lia)) as Hb. pose proof (pow_16_pos j ltac:(lia)).
    rewrite u64_id by (unfold word_ok in Hwb; lia).
    eexists. split; [done|]. split; [|split; [apply length_insert|]].
    + apply Forall_insert; [done|]. unfold word_ok in *. lia.
    + intros i' j' Hi' Hj'. rewrite count_of_set by done. unfold word_ok in Hwb.
      destruct (decide (i' = i)) as [->|].
      * rewrite counter_add by lia. destruct (decide (j' = j)) as [->|].
        -- rewrite decide_True by done. lia.
        -- rewrite decide_False by tauto. unfold count_of. by rewrite Hw.
      * by rewrite decide_False by tauto.
Qed.

Lemma count_true_bound bs : 0 ≤ count_true bs ≤ Z.of_nat (length bs).
Proof.
  unfold count_true. induction bs as [|b bs IH]; cbn; [lia|]. destruct b; lia.
Qed.

Lemma length_low_bits w : length (low_bits w) = 16%nat.
Proof. done. Qed.

Lemma word_halved w : word_ok w → word_ok (Z.land (Z.shiftr w 1) RESET_MASK).
Proof.
  intros Hw. split; [by apply Z.land_nonneg; right|].
  assert (Z.land (Z.shiftr w 1) RESET_MASK ≤ RESET_MASK); [|unfold RESET_MASK in *; lia].
  apply Z.ldiff_le; [done|]. apply Z.bits_inj'. intros n Hn. rewrite Z.ldiff_spec, Z.land_spec, Z.bits_0.
  by destruct (Z.testbit (Z.shiftr w 1) n), (Z.testbit RESET_MASK n).
Qed.

(** Aging halves every counter; what it subtracts from the size is at most four
    times the number of words. *)
Lemma reset_ok table ts size :
  Forall word_ok table → Z.of_nat (length table) = ts → ts ≤ 2 ^ 29 →
  ∃ table' c, reset table ts size = Ok (table', Z.shiftr (u32 (size - c)) 1) ∧
    Forall word_ok table' ∧ length table' = length table ∧ 0 ≤ c ≤ 4 * ts ∧
    ∀ i j, 0 ≤ i → 0 ≤ j < 16 → count_of table' i j = count_of table i j / 2.
Proof.
  intros Ht Hl Hts. unfold reset.
  match goal with |- context [for_range _ _ ?g _] => set (body := g) end.
  destruct (for_range_ok (λ k '(t, c), Forall word_ok t ∧ length t = length table ∧ 0 ≤ c ≤ 16 * k ∧
      ∀ i j, 0 ≤ i → 0 ≤ j < 16 → count_of t i j = if decide (i < k) then count_of table i j / 2 else count_of table i j)
    body (Z.to_nat ts) 0 (table, 0)) as ([t c] & E & Hw & Hlen & Hc & Hcount).
  - split; [done|]. split; [done|]. split; [lia|]. intros i j Hi _. by rewrite decide_False by lia.
  - intros k [t c] Hk (Hw & Hlen & Hc & Hcount). unfold body.
    destruct (vec_get_Ok t k) as (w & Ew & ->); [lia|]. rewrite bind_Ok, vec_set_Ok, bind_Ok by lia.
    pose proof (Forall_lookup_1 _ _ _ _ Hw Ew) as Hwb. rewrite popcount_one_mask.
    pose proof (count_true_bound (low_bits w)) as Hb. rewrite length_low_bits in Hb.
    eexists. split; [done|]. split; [by apply Forall_insert, word_halved|]. split; [by rewrite length_insert|].
    split; [rewrite u64_id by lia; lia|]. intros i j Hi Hj. rewrite count_of_set by lia.
    destruct (decide (i = k)) as [->|].
    + rewrite decide_True by lia. rewrite counter_halved by done. specialize (Hcount k j Hi Hj).
      rewrite decide_False in Hcount by lia. rewrite <- Hcount. unfold count_of. by rewrite Ew.
    + rewrite Hcount by done. destruct (decide (i < k)); [rewrite decide_True by lia|rewrite decide_False by lia]; done.
  - rewrite E, bind_Ok. exists t, (u32 (Z.shiftr c 2)). split; [done|]. split; [done|]. split; [done|].
    rewrite Z.shiftr_div_pow2 by lia. change (2 ^ 2) with 4. rewrite u32_id by (Z.div_mod_to_equations; lia).
    split; [Z.div_mod_to_equations; lia|]. intros i j Hi Hj. rewrite Hcount by done.
    case_decide; [done|]. unfold count_of. rewrite !lookup_ge_None_2 by lia. cbn.
    unfold counter_at. by rewrite Z.div_0_l by (pose proof (pow_16_pos j ltac:(lia)); lia).
Qed.

(** * The sketch *)

(** The table of an initialized sketch is a power of two of words, the sample
    exceeds four times their number, and the running size is below the sample. *)
Record sketch_ok (s : FrequencySketch) (table : list Z) : Prop := {
  so_table : table_ s = Some table;
  so_words : Forall word_ok table;
  so_length : Z.of_nat (length table) = table_size_ s;
  so_power : ∃ k, 3 ≤ k ≤ 29 ∧ table_size_ s = 2 ^ k;
  so_mask : block_mask_ s = table_size_ s / 8 - 1;
  so_sample : 4 * table_size_ s ≤ sample_size_ s < 2 ^ 32;
  so_size : 0 ≤ size_ s < sample_size_ s;
}.

Lemma counter_index_range key i : 0 ≤ counter_index key i < 16.
Proof. unfold counter_index. change 15 with (Z.ones 4). rewrite Z.land_ones by lia. apply Z.mod_pos_bound. lia. Qed.

Lemma shiftl_1_small i : 0 ≤ i < 4 → Z.shiftl i 1 = 2 * i.
Proof. intros Hi. rewrite Z.shiftl_mul_pow2 by lia. lia. Qed.

(** The four counters of a key lie in the table, in four pairs of words. *)
Lemma counter_slot_range s table key i :
  sketch_ok s table → 0 ≤ i < 4 →
  ∃ b, 0 ≤ b ∧ b + 8 ≤ table_size_ s ∧ b = key_block s key ∧
    b + 2 * i ≤ counter_slot s key i ≤ b + 2 * i + 1.
Proof.
  intros [_ _ _ (k & Hk & Hts) Hm _ _] Hi. exists (key_block s key).
  assert (table_size_ s / 8 = 2 ^ (k - 3)) as Hd.
  { rewrite Hts. replace k with (k - 3 + 3) at 1 by lia. rewrite Z.pow_add_r by lia. by apply Z.div_mul. }
  assert (2 ^ k = 2 ^ (k - 3) * 8) as Hp by (change 8 with (2 ^ 3); rewrite <- Z.pow_add_r by lia; f_equal; lia).
  assert (2 ^ k ≤ 2 ^ 29) by (apply Z.pow_le_mono_r; lia).
  assert (0 ≤ key_block s key ∧ key_block s key + 8 ≤ table_size_ s) as [Hb1 Hb2].
  { unfold key_block. rewrite Hm, Hd, Hts. replace (2 ^ (k - 3) - 1) with (Z.ones (k - 3)) by (rewrite Z.ones_equiv; lia).
    rewrite Z.land_ones, Z.shiftl_mul_pow2 by lia. pose proof (Z.mod_pos_bound (spread (u32 key)) (2 ^ (k - 3)) ltac:(lia)).
    rewrite u32_id by lia. lia. }
  split; [done|]. split; [done|]. split; [done|]. unfold counter_slot. rewrite shiftl_1_small by done.
  change 1 with (Z.ones 1). rewrite Z.land_ones by lia. change (2 ^ 1) with 2.
  set (m := Z.shiftr (key_hash key) (Z.shiftl i 3)). pose proof (Z.mod_pos_bound m 2 ltac:(lia)).
  rewrite u32_id by lia. change (Z.ones 1) with 1. lia.
Qed.

(** The counters of a key: word and counter number. *)
Definition key_cells (s : FrequencySketch) (key : Z) : list (Z * Z) :=
  (λ i, (counter_slot s key i, counter_index key i)) <$> [0; 1; 2; 3].

Lemma key_cells_same s s' key : block_mask_ s' = block_mask_ s → key_cells s' key = key_cells s key.
Proof.
  intros Hb. unfold key_cells. apply list_fmap_ext. intros _ i _. unfold counter_slot, key_block. by rewrite Hb.
Qed.

(** The estimate: the least of the key's four counters. *)
Definition estimate (s : FrequencySketch) (table : list Z) (key : Z) : Z :=
  foldr Z.min 15 ((λ '(i, j), count_of table i j) <$> key_cells s key).

Lemma count_of_range table i j : 0 ≤ count_of table i j ≤ 15.
Proof. apply counter_range. Qed.

Lemma frequency_ok s table key : sketch_ok s table → frequency s key = Ok (estimate s table key).
Proof.
  intros Hs. unfold frequency. rewrite (so_table _ _ Hs).
  assert (∀ i, 0 ≤ i < 4 → ∃ w, vec_get table (counter_slot s key i) = Ok w ∧
    Z.land (Z.shiftr w (Z.shiftl (counter_index key i) 2)) 15 = count_of table (counter_slot s key i) (counter_index key i)) as Hc.
  { intros i Hi. destruct (counter_slot_range s table key i Hs Hi) as (b & ? & ? & _ & ?).
    destruct (vec_get_Ok table (counter_slot s key i)) as (w & Hw & E); [rewrite (so_length _ _ Hs); lia|].
    exists w. split; [done|]. rewrite counter_land by apply counter_index_range. unfold count_of. by rewrite Hw. }
  destruct (Hc 0 ltac:(lia)) as (w0 & E0 & C0), (Hc 1 ltac:(lia)) as (w1 & E1 & C1),
    (Hc 2 ltac:(lia)) as (w2 & E2 & C2), (Hc 3 ltac:(lia)) as (w3 & E3 & C3).
  cbn [for_range]. change (0 + 1) with 1. change (1 + 1) with 2. change (2 + 1) with 3.
  unfold mret, res_ret. rewrite E0, !bind_Ok, E1, !bind_Ok, E2, !bind_Ok, E3, !bind_Ok. rewrite C0, C1, C2, C3.
  unfold estimate, key_cells. cbn. f_equal. lia.
Qed.

Lemma elem_key_cells s key i j :
  (i, j) ∈ key_cells s key ↔ ∃ n, 0 ≤ n < 4 ∧ i = counter_slot s key n ∧ j = counter_index key n.
Proof.
  unfold key_cells. rewrite list_elem_of_fmap. split.
  - intros (n & [= -> ->] & Hn). exists n. split; [|done].
    repeat (apply elem_of_cons in Hn as [->|Hn]; [lia|]). by apply not_elem_of_nil in Hn.
  - intros (n & Hn & -> & ->). exists n. split; [done|].
    assert (n = 0 ∨ n = 1 ∨ n = 2 ∨ n = 3) as [->|[->|[->| ->]]] by lia; rewrite !elem_of_cons; tauto.
Qed.

(** A counter after the key's counters were incremented. *)
Definition bumped (s : FrequencySketch) (table : list Z) (key i j : Z) : Z :=
  if decide ((i, j) ∈ key_cells s key) then Z.min 15 (count_of table i j + 1) else count_of table i j.

(** The four increments of one key. *)
Lemma increments_ok s table key :
  sketch_ok s table →
  ∃ t1 t2 t3 t4 b0 b1 b2 b3,
    increment_at table (counter_slot s key 0) (counter_index key 0) = Ok (t1, b0) ∧
    increment_at t1 (counter_slot s key 1) (counter_index key 1) = Ok (t2, b1) ∧
    increment_at t2 (counter_slot s key 2) (counter_index key 2) = Ok (t3, b2) ∧
    increment_at t3 (counter_slot s key 3) (counter_index key 3) = Ok (t4, b3) ∧
    b0 || b1 || b2 || b3 = (estimate s table key <? 15) ∧
    Forall word_ok t4 ∧ length t4 = length table ∧
    ∀ i j, 0 ≤ i → 0 ≤ j → count_of t4 i j = bumped s table key i j.
Proof.
  intros Hs. pose proof (so_words _ _ Hs) as Hw. pose proof (so_length _ _ Hs) as Hl.
  pose proof (λ i, counter_slot_range s table key i Hs) as Hr.
  destruct (Hr 0 ltac:(lia)) as (b & Hb1 & Hb2 & Hb & R0).
  destruct (Hr 1 ltac:(lia)) as (? & _ & _ & -> & R1), (Hr 2 ltac:(lia)) as (? & _ & _ & -> & R2),
    (Hr 3 ltac:(lia)) as (? & _ & _ & -> & R3). clear Hr. rewrite <- Hb in *.
  pose proof (counter_index_range key 0) as J0. pose proof (counter_index_range key 1) as J1.
  pose proof (counter_index_range key 2) as J2. pose proof (counter_index_range key 3) as J3.
  destruct (increment_at_ok table (counter_slot s key 0) (counter_index key 0) Hw) as (t1 & E1 & W1 & L1 & C1); [lia|lia|].
  destruct (increment_at_ok t1 (counter_slot s key 1) (counter_index key 1) W1) as (t2 & E2 & W2 & L2 & C2); [lia|lia|].
  destruct (increment_at_ok t2 (counter_slot s key 2) (counter_index key 2) W2) as (t3 & E3 & W3 & L3 & C3); [lia|lia|].
  destruct (increment_at_ok t3 (counter_slot s key 3) (counter_index key 3) W3) as (t4 & E4 & W4 & L4 & C4); [lia|lia|].
  exists t1, t2, t3, t4. do 4 eexists. split; [exact E1|]. split; [exact E2|]. split; [exact E3|]. split; [exact E4|].
  split; [|split; [done|split; [congruence|]]].
  - rewrite C3, decide_False, C2, decide_False, C1, decide_False by lia.
    rewrite C2, decide_False, C1, decide_False by lia. rewrite C1, decide_False by lia. unfold estimate, key_cells. cbn.
    set (c0 := count_of table (counter_slot s key 0) _). set (c1 := count_of table (counter_slot s key 1) _).
    set (c2 := count_of table (counter_slot s key 2) _). set (c3 := count_of table (counter_slot s key 3) _).
    destruct (Z.ltb_spec c0 15), (Z.ltb_spec c1 15), (Z.ltb_spec c2 15), (Z.ltb_spec c3 15); cbn;
      symmetry; first [apply Z.ltb_lt; lia|apply Z.ltb_ge; lia].
  - intros i j Hi Hj. unfold bumped. case_decide as Hin.
    + apply elem_key_cells in Hin as (n & Hn & -> & ->).
      assert (n = 0 ∨ n = 1 ∨ n = 2 ∨ n = 3) as [->|[->|[->| ->]]] by lia.
      * rewrite C4, decide_False, C3, decide_False, C2, decide_False, C1, decide_True by lia. done.
      * rewrite C4, decide_False, C3, decide_False, C2, decide_True, C1, decide_False by lia. done.
      * rewrite C4, decide_False, C3, decide_True, C2, decide_False, C1, decide_False by lia. done.
      * rewrite C4, decide_True, C3, decide_False, C2, decide_False, C1, decide_False by lia. done.
    + assert (∀ n, 0 ≤ n < 4 → ¬ (i = counter_slot s key n ∧ j = counter_index key n)) as Hno
        by (intros n Hn He; apply Hin, elem_key_cells; by exists n).
      rewrite C4, decide_False by (done || (apply Hno; lia)). rewrite C3, decide_False by (done || (apply Hno; lia)).
      rewrite C2, decide_False by (done || (apply Hno; lia)). rewrite C1, decide_False by (done || (apply Hno; lia)).
      done.
Qed.

(** ** Construction *)

(** The top [r] bits up to bit [k] are set, and none above. *)
Definition top_run (k r v : Z) : Prop :=
  0 ≤ v ∧ ∀ n, 0 ≤ n → (k < n → Z.testbit v n = false) ∧ (k - r < n ≤ k → Z.testbit v n = true).

Lemma top_run_smear k r m v : 0 < m ≤ r → top_run k r v → top_run k (r + m) (smear m v).
Proof.
  intros Hm [Hv Hr]. unfold smear. split.
  { apply Z.lor_nonneg. split; [done|]. by apply Z.shiftr_nonneg. }
  intros n Hn. rewrite Z.lor_spec, Z.shiftr_spec by done. split.
  - intros Hk. destruct (Hr n Hn) as [-> _]; [|done]. by destruct (Hr (n + m) ltac:(lia)) as [-> _]; [|lia].
  - intros Hk. destruct (Z.lt_ge_cases (k - r) n).
    + destruct (Hr n Hn) as [_ ->]; [done|lia].
    + destruct (Hr (n + m) ltac:(lia)) as [_ ->]; [by rewrite orb_true_r|lia].
Qed.

Lemma ceiling_power_of_two_ok v k :
  0 ≤ k < 31 → 2 ^ k < v ≤ 2 ^ (k + 1) → ceiling_power_of_two v = 2 ^ (k + 1).
Proof.
  intros Hk Hv. unfold ceiling_power_of_two.
  assert (2 ^ (k + 1) ≤ 2 ^ 31) by (apply Z.pow_le_mono_r; lia).
  assert (0 < 2 ^ k) by (apply Z.pow_pos_nonneg; lia).
  rewrite (u32_id (v - 1)) by lia. assert (Z.log2 (v - 1) = k) as Hlog.
  { apply Z.log2_unique; [lia|]. rewrite <- Z.add_1_r. lia. }
  assert (top_run k 1 (v - 1)) as H1.
  { split; [lia|]. intros n Hn. split; intros Hkn.
    - apply Z.bits_above_log2; lia.
    - replace n with (Z.log2 (v - 1)) by lia. apply Z.bit_log2. lia. }
  apply (top_run_smear _ _ 1) in H1; [|lia]. apply (top_run_smear _ _ 2) in H1; [|lia].
  apply (top_run_smear _ _ 4) in H1; [|lia]. apply (top_run_smear _ _ 8) in H1; [|lia].
  apply (top_run_smear _ _ 16) in H1; [|lia]. set (x := smear 16 _) in *.
  assert (x = Z.ones (k + 1)) as ->.
  { destruct H1 as [Hx Hb]. apply Z.bits_inj'. intros n Hn. rewrite Z.testbit_ones_nonneg by lia.
    destruct (Hb n Hn) as [Ha Hr]. destruct (Z.ltb_spec n (k + 1)); [apply Hr; lia|apply Ha; lia]. }
  rewrite Z.ones_equiv. rewrite u32_id by lia. lia.
Qed.

(** A fresh sketch for up to [2^28] entries: all counters zero. *)
Lemma ensure_capacity_ok n :
  0 ≤ n ≤ 2 ^ 28 → ∃ table, sketch_ok (ensure_capacity n sketch_new) table ∧ ∀ i j, 0 ≤ j → count_of table i j = 0.
Proof.
  intros Hn. unfold ensure_capacity. cbn [is_not_initialized].
  change (negb (is_not_initialized sketch_new)) with false. cbn [andb].
  set (m := Z.max n MIN_SKETCH_SIZE). assert (256 ≤ m ≤ 2 ^ 28) as Hm by (unfold m, MIN_SKETCH_SIZE; lia).
  set (k := Z.log2 (m - 1)). pose proof (Z.log2_spec (m - 1) ltac:(lia)) as Hlog. fold k in Hlog.
  assert (7 ≤ k) as Hk7 by (apply (Z.log2_le_mono 255 (m - 1)); lia).
  assert (k < 28) as Hk28 by (apply Z.log2_lt_pow2; lia).
  rewrite <- Z.add_1_r in Hlog. rewrite (ceiling_power_of_two_ok m k) by lia.
  assert (2 ^ (k + 1) = 2 ^ (k - 2) * 8) as Hp by (change 8 with (2 ^ 3); rewrite <- Z.pow_add_r by lia; f_equal; lia).
  assert (2 ^ (k + 1) = 2 ^ k * 2) as Hp2 by (rewrite Z.pow_add_r by lia; done).
  assert (0 < 2 ^ (k - 2)) by (apply Z.pow_pos_nonneg; lia).
  exists (replicate (Z.to_nat (2 ^ (k + 1))) 0). split.
  - split; cbn [table_ table_size_ sample_size_ block_mask_ size_].
    + done.
    + by apply Forall_replicate.
    + rewrite length_replicate. lia.
    + exists (k + 1). split; [lia|done].
    + rewrite Z.shiftr_div_pow2 by lia. change (2 ^ 3) with 8. rewrite Hp, Z.div_mul by lia. apply u32_id. lia.
    + rewrite u32_id by lia. lia.
    + rewrite u32_id by lia. lia.
  - intros i j Hj. unfold count_of. destruct (_ !! _) as [x|] eqn:E; [apply lookup_replicate in E as [-> _]|];
      unfold counter_at; cbn; rewrite Z.div_0_l; (done || (pose proof (pow_16_pos j Hj); lia)).
Qed.

(** * Counting *)

(** What one access does to every counter: the key's counters go up by one
    unless they are full, and when the sample is complete all counters are halved. *)
Lemma increment_ok s table key :
  sketch_ok s table →
  let aged := (estimate s table key <? 15) && (size_ s + 1 =? sample_size_ s) in
  ∃ s' table', increment key s = Ok s' ∧ sketch_ok s' table' ∧
    table_size_ s' = table_size_ s ∧ sample_size_ s' = sample_size_ s ∧
    size_ s' ≤ size_ s + 1 ∧ (∀ k, key_cells s' k = key_cells s k) ∧
    ∀ i j, 0 ≤ i → 0 ≤ j < 16 →
      count_of table' i j = if aged then bumped s table key i j / 2 else bumped s table key i j.
Proof.
  intros Hs aged. pose proof Hs as [Htab Hw Hl (k & Hk & Hts) Hmask Hsamp Hsize].
  destruct (increments_ok s table key Hs) as (t1 & t2 & t3 & t4 & b0 & b1 & b2 & b3 & E1 & E2 & E3 & E4 & Hb & W4 & L4 & C4).
  unfold increment. rewrite Htab, E1, bind_Ok, E2, bind_Ok, E3, bind_Ok, E4, bind_Ok, Hb.
  assert (2 ^ k ≤ 2 ^ 29) by (apply Z.pow_le_mono_r; lia).
  assert (∀ tab size, Forall word_ok tab → length tab = length table → 0 ≤ size < sample_size_ s →
    sketch_ok (mkSketch (Some tab) (table_size_ s) (sample_size_ s) (block_mask_ s) size) tab) as Hmk.
  { intros tab size Hwt Hlt Hsz. split; try done; cbn [table_size_ sample_size_ block_mask_ size_]; [congruence|by exists k]. }
  subst aged. destruct (Z.ltb_spec (estimate s table key) 15) as [Hlt|Hge]; cbn [andb].
  - rewrite u32_id by lia. destruct (Z.eqb_spec (size_ s + 1) (sample_size_ s)) as [Eq|Hne].
    + destruct (reset_ok t4 (table_size_ s) (size_ s + 1) W4) as (t5 & c & E5 & W5 & L5 & Hc & C5); [congruence|lia|].
      rewrite E5, bind_Ok. eexists _, t5. split; [reflexivity|].
      rewrite u32_id, Z.shiftr_div_pow2 by lia. change (2 ^ 1) with 2.
      split; [apply Hmk; [done|congruence|Z.div_mod_to_equations; lia]|].
      split; [done|]. split; [done|]. split; [cbn [size_]; Z.div_mod_to_equations; lia|]. split; [intros key'; by apply key_cells_same|].
      intros i j Hi Hj. rewrite C5, C4 by lia. done.
    + eexists _, t4. split; [reflexivity|]. split; [apply Hmk; [done|done|lia]|].
      split; [done|]. split; [done|]. split; [cbn [size_]; lia|]. split; [intros key'; by apply key_cells_same|].
      intros i j Hi Hj. apply C4; lia.
  - eexists _, t4. split; [reflexivity|]. split; [by apply Hmk|].
    split; [done|]. split; [done|]. split; [cbn [size_]; lia|]. split; [intros key'; by apply key_cells_same|].
    intros i j Hi Hj. apply C4; lia.
Qed.

Lemma estimate_range s table key : 0 ≤ estimate s table key ≤ 15.
Proof.
  unfold estimate, key_cells. cbn.
  pose proof (count_of_range table (counter_slot s key 0) (counter_index key 0)).
  pose proof (count_of_range table (counter_slot s key 1) (counter_index key 1)).
  pose proof (count_of_range table (counter_slot s key 2) (counter_index key 2)).
  pose proof (count_of_range table (counter_slot s key 3) (counter_index key 3)). lia.
Qed.

Lemma bumped_range s table key i j :
  count_of table i j ≤ bumped s table key i j ≤ Z.min 15 (count_of table i j + 1).
Proof. unfold bumped. pose proof (count_of_range table i j). case_decide; lia. Qed.

(** Counting one more commutes with the least of four counters. *)
Lemma bump_min c0 c1 c2 c3 :
  c0 ≤ 15 → c1 ≤ 15 → c2 ≤ 15 → c3 ≤ 15 →
  Z.min 15 (Z.min c0 (Z.min c1 (Z.min c2 (Z.min c3 15))) + 1) =
  Z.min (Z.min 15 (c0 + 1)) (Z.min (Z.min 15 (c1 + 1)) (Z.min (Z.min 15 (c2 + 1)) (Z.min 15 (c3 + 1)))).
Proof.
  intros. rewrite (Z.min_l c3 15) by done.
  assert (∀ x y, Z.min 15 (Z.min x y + 1) = Z.min (Z.min 15 (x + 1)) (Z.min 15 (y + 1))) as Hs by lia.
  by rewrite !Hs.
Qed.

(** The estimates after an access. *)
Lemma increment_estimates s table key :
  sketch_ok s table →
  let aged := (estimate s table key <? 15) && (size_ s + 1 =? sample_size_ s) in
  let age x := if aged then x / 2 else x in
  ∃ s' table', increment key s = Ok s' ∧ sketch_ok s' table' ∧
    sample_size_ s' = sample_size_ s ∧ size_ s' ≤ size_ s + 1 ∧
    estimate s' table' key = age (Z.min 15 (estimate s table key + 1)) ∧
    ∀ k, age (estimate s table k) ≤ estimate s' table' k ≤ age (Z.min 15 (estimate s table k + 1)).
Proof.
  intros Hs aged age. pose proof (increment_ok s table key Hs) as (s' & t' & E & Hs' & _ & Hsm & Hsz & Hcells & Hc).
  fold aged in Hc. exists s', t'. split; [done|]. split; [done|]. split; [done|]. split; [done|].
  assert (∀ k i, 0 ≤ i < 4 →
    let c := count_of table (counter_slot s k i) (counter_index k i) in
    let c' := count_of t' (counter_slot s k i) (counter_index k i) in
    c' = age (bumped s table key (counter_slot s k i) (counter_index k i)) ∧
    c ≤ bumped s table key (counter_slot s k i) (counter_index k i) ≤ Z.min 15 (c + 1) ∧ 0 ≤ c ≤ 15 ∧
    (k = key → bumped s table key (counter_slot s k i) (counter_index k i) = Z.min 15 (c + 1))) as Hk.
  { intros k i Hi c c'. destruct (counter_slot_range s table k i Hs Hi) as (b & ? & ? & _ & ?).
    split; [apply Hc; [lia|apply counter_index_range]|]. split; [apply bumped_range|].
    split; [apply count_of_range|]. intros ->. unfold bumped. rewrite decide_True; [done|].
    apply elem_key_cells. by exists i. }
  assert (∀ k, estimate s' t' k = foldr Z.min 15 ((λ '(i, j), count_of t' i j) <$> key_cells s k)) as Hest
    by (intros k; unfold estimate; by rewrite Hcells).
  assert (∀ x y, x ≤ y → age x ≤ age y) as Hmono.
  { intros x y Hxy. unfold age. destruct aged; [by apply Z.div_le_mono|done]. }
  assert (∀ x y, age (Z.min x y) = Z.min (age x) (age y)) as Hmin.
  { intros x y. destruct (Z.le_ge_cases x y) as [Hle|Hge].
    - pose proof (Hmono x y Hle). by rewrite !Z.min_l.
    - pose proof (Hmono y x Hge). by rewrite !Z.min_r. }
  assert (age 15 ≤ 15) as H15 by (unfold age; by destruct aged).
  clearbody age. clear Hc. unfold estimate, key_cells in *. cbn in Hest |- *.
  split; [rewrite Hest|intros k; rewrite Hest].
  - destruct (Hk key 0 ltac:(lia)) as (-> & _ & R0 & B0), (Hk key 1 ltac:(lia)) as (-> & _ & R1 & B1),
      (Hk key 2 ltac:(lia)) as (-> & _ & R2 & B2), (Hk key 3 ltac:(lia)) as (-> & _ & R3 & B3).
    rewrite (B0 eq_refl), (B1 eq_refl), (B2 eq_refl), (B3 eq_refl). revert R0 R1 R2 R3. clear -Hmin H15 Hmono.
    generalize (count_of table (counter_slot s key 0) (counter_index key 0)) as c0.
    generalize (count_of table (counter_slot s key 1) (counter_index key 1)) as c1.
    generalize (count_of table (counter_slot s key 2) (counter_index key 2)) as c2.
    generalize (count_of table (counter_slot s key 3) (counter_index key 3)) as c3. intros c3 c2 c1 c0 R0 R1 R2 R3.
    rewrite bump_min, !(Hmin (Z.min _ _)) by lia. rewrite (Z.min_l _ 15); [done|].
    etransitivity; [|exact H15]. apply Hmono. lia.
  - destruct (Hk k 0 ltac:(lia)) as (-> & B0 & R0 & _), (Hk k 1 ltac:(lia)) as (-> & B1 & R1 & _),
      (Hk k 2 ltac:(lia)) as (-> & B2 & R2 & _), (Hk k 3 ltac:(lia)) as (-> & B3 & R3 & _).
    revert R0 R1 R2 R3 B0 B1 B2 B3. clear -Hmin H15 Hmono.
    generalize (count_of table (counter_slot s k 0) (counter_index k 0)) as c0.
    generalize (count_of table (counter_slot s k 1) (counter_index k 1)) as c1.
    generalize (count_of table (counter_slot s k 2) (counter_index k 2)) as c2.
    generalize (count_of table (counter_slot s k 3) (counter_index k 3)) as c3.
    generalize (bumped s table key (counter_slot s k 0) (counter_index k 0)) as b0.
    generalize (bumped s table key (counter_slot s k 1) (counter_index k 1)) as b1.
    generalize (bumped s table key (counter_slot s k 2) (counter_index k 2)) as b2.
    generalize (bumped s table key (counter_slot s k 3) (counter_index k 3)) as b3.
    intros b3 b2 b1 b0 c3 c2 c1 c0 R0 R1 R2 R3 [L0 U0] [L1 U1] [L2 U2] [L3 U3].
    rewrite bump_min by lia. apply Hmono in L0, L1, L2, L3, U0, U1, U2, U3. revert U0 U1 U2 U3.
    generalize (Z.min 15 (c0 + 1)) (Z.min 15 (c1 + 1)) (Z.min 15 (c2 + 1)) (Z.min 15 (c3 + 1)).
    intros e0 e1 e2 e3 U0 U1 U2 U3. rewrite !Hmin. split; repeat (apply Z.min_le_compat; [done|]); [done|].
    etransitivity; [apply Z.le_min_l|done].
Qed.

(** C37: an access counts: the estimate of the key goes up by one, up to 15, no
    other key's estimate goes down or up by more, and when the sample is complete
    all estimates are halved; the running size stays below the sample, so the
    halving comes again, and no counter outside the table is touched. *)
Theorem increment_counts s table key :
  sketch_ok s table →
  ∃ s' table' e e', frequency s key = Ok e ∧ increment key s = Ok s' ∧ sketch_ok s' table' ∧
    frequency s' key = Ok e' ∧
    let age x := if (e <? 15) && (size_ s + 1 =? sample_size_ s) then x / 2 else x in
    0 ≤ e ≤ 15 ∧ e' = age (Z.min 15 (e + 1)) ∧
    ∀ k ek ek', frequency s k = Ok ek → frequency s' k = Ok ek' →
      age ek ≤ ek' ≤ age (Z.min 15 (ek + 1)).
Proof.
  intros Hs. destruct (increment_estimates s table key Hs) as (s' & t' & E & Hs' & _ & _ & Hkey & Hall).
  exists s', t', (estimate s table key), (estimate s' t' key).
  split; [by apply frequency_ok|]. split; [done|]. split; [done|]. split; [by apply frequency_ok|].
  cbv zeta. split; [apply estimate_range|]. split; [done|]. intros k ek ek'.
  rewrite (frequency_ok s table), (frequency_ok s' t') by done. intros [= <-] [= <-]. apply Hall.
Qed.

(** A sequence of accesses. *)
Fixpoint increment_all (keys : list Z) (s : FrequencySketch) : res FrequencySketch :=
  match keys with
  | [] => mret s
  | key :: keys => s ← increment key s; increment_all keys s
  end.

Definition occurrences (key : Z) (keys : list Z) : Z := Z.of_nat (length (filter (λ k, k = key) keys)).

Lemma increment_all_ok keys s table :
  sketch_ok s table → size_ s + Z.of_nat (length keys) < sample_size_ s →
  ∃ s' table', increment_all keys s = Ok s' ∧ sketch_ok s' table' ∧
    ∀ k, Z.min 15 (estimate s table k + occurrences k keys) ≤ estimate s' table' k.
Proof.
  revert s table. induction keys as [|key keys IH]; intros s table Hs Hlen; cbn [increment_all].
  - exists s, table. split; [done|]. split; [done|]. intros k. unfold occurrences. cbn. lia.
  - cbn [length] in Hlen. destruct (increment_estimates s table key Hs) as (s1 & t1 & E & Hs1 & Hsm & Hsz & Hkey & Hall).
    rewrite (proj2 (Z.eqb_neq (size_ s + 1) _)), andb_false_r in Hkey, Hall by lia.
    destruct (IH s1 t1 Hs1) as (s2 & t2 & E2 & Hs2 & Hocc); [lia|].
    exists s2, t2. rewrite E, bind_Ok. split; [done|]. split; [done|]. intros k. specialize (Hocc k).
    unfold occurrences in *. rewrite filter_cons. case_decide as Hk.
    + subst k. cbn [length]. lia.
    + specialize (Hall k). lia.
Qed.

(** the sketch never underestimates: after any accesses fewer than a sample,
    starting from a sketch built for up to [2^28] entries, every key's estimate is
    at least the number of its accesses, or 15. *)
Theorem never_underestimates n keys key :
  0 ≤ n ≤ 2 ^ 28 → Z.of_nat (length keys) < 10 * Z.max n MIN_SKETCH_SIZE →
  ∃ s e, increment_all keys (ensure_capacity n sketch_new) = Ok s ∧ frequency s key = Ok e ∧
    Z.min 15 (occurrences key keys) ≤ e ≤ 15.
Proof.
  intros Hn Hlen. destruct (ensure_capacity_ok n Hn) as (t0 & Hs0 & Hzero).
  destruct (increment_all_ok keys _ t0 Hs0) as (s & t & E & Hs & Hocc).
  { unfold ensure_capacity. change (negb (is_not_initialized sketch_new)) with false. cbn [andb size_ sample_size_].
    unfold MIN_SKETCH_SIZE in *. rewrite u32_id by lia. lia. }
  exists s, (estimate s t key). split; [done|]. split; [by apply frequency_ok|].
  pose proof (estimate_range s t key). pose proof (estimate_range (ensure_capacity n sketch_new) t0 key).
  specialize (Hocc key). lia.
Qed.

Lemma never_underestimates_witness :
  ∃ s e, increment_all [7; 9; 7; 7] (ensure_capacity 100 sketch_new) = Ok s ∧ frequency s 7 = Ok e ∧
    Z.min 15 (occurrences 7 [7; 9; 7; 7]) ≤ e ≤ 15.
Proof. apply (never_underestimates 100 [7; 9; 7; 7] 7); vm_compute; [split; discriminate|reflexivity]. Defined.

Lemma increment_counts_witness :
  ∃ t s' table' e e', sketch_ok (ensure_capacity 100 sketch_new) t ∧
    frequency (ensure_capacity 100 sketch_new) 7 = Ok e ∧
    increment 7 (ensure_capacity 100 sketch_new) = Ok s' ∧ sketch_ok s' table' ∧ frequency s' 7 = Ok e'.
Proof.
  destruct (ensure_capacity_ok 100 ltac:(lia)) as (t & Hs & _).
  destruct (increment_counts (ensure_capacity 100 sketch_new) t 7 Hs) as (s' & t' & e & e' & H1 & H2 & H3 & H4 & _).
  exists t, s', t', e, e'. exact (conj Hs (conj H1 (conj H2 (conj H3 H4)))).
Defined.
