(* ===== verification/LeafExtentCache.v ===== *)
(** * LeafExtentCache: the W-TinyLFU cache of leaf extents
    ([src/tree/leaf_extent_cache.cpp])

    Entries and buffers are heap objects named by addresses; reading a freed one
    is undefined.  A shard's intrusive lists are the sequences of their entries,
    most recently used first (IntrusiveList.v shows that the pointer operations
    compute them).  Every critical section of [pin] is an operation of its own, and
    so is every atomic access of [unpin], which takes no lock: a run is any
    interleaving of them.  The file is a parameter. *)
From S2P Require Import Prelude PageFile FrequencySketch.

(** ** State *)

Inductive Status := WINDOW | PROBATION | PROTECTED.

#[export] Instance Status_eq_dec : EqDecision Status.
Proof. solve_decision. Defined.

Record Entry := mkEntry {
  page : Z;
  keys : list Z;
  esize : Z;
  status : Status;
  refs : Z;
  retired : bool;
  deleted : bool;
  data : Z;
  buf_cap : Z;
}.

Definition with_status (e : Entry) (st : Status) : Entry :=
  mkEntry (page e) (keys e) (esize e) st (refs e) (retired e) (deleted e) (data e) (buf_cap e).
Definition with_refs (e : Entry) (n : Z) : Entry :=
  mkEntry (page e) (keys e) (esize e) (status e) n (retired e) (deleted e) (data e) (buf_cap e).
Definition with_retired (e : Entry) : Entry :=
  mkEntry (page e) (keys e) (esize e) (status e) (refs e) true (deleted e) (data e) (buf_cap e).
Definition with_deleted (e : Entry) : Entry :=
  mkEntry (page e) (keys e) (esize e) (status e) (refs e) (retired e) true (data e) (buf_cap e).
Definition with_keys (e : Entry) (ks : list Z) : Entry :=
  mkEntry (page e) ks (esize e) (status e) (refs e) (retired e) (deleted e) (data e) (buf_cap e).

(** Byte budgets of a shard. *)
Record Limits := mkLimits {
  max_window_bytes : Z;
  max_main_bytes : Z;
  max_probation_bytes : Z;
  max_protected_bytes : Z;
  shard_capacity_bytes : Z;
}.

(** A list and the bytes its entries are accounted for. *)
Record Segment := mkSegment { seg_list : list Z; seg_bytes : Z }.

Record Shard := mkShard {
  sh_map : gmap Z Z;
  window : Segment;
  probation : Segment;
  protected_ : Segment;
  limits : Limits;
  sketch : FrequencySketch;
  buf_pool : list (Z * Z);
  buf_pool_bytes : Z;
}.

(** Allocated entries, allocated buffers, the next fresh address. *)
Record Heap := mkHeap {
  entries : gmap Z Entry;
  buffers : gmap Z (list Z);
  next_addr : Z;
}.

Record Stats := mkStats {
  hits : Z;
  misses : Z;
  bytes_filled : Z;
  evictions : Z;
  rejections : Z;
}.

(** What the sections of one shard work on. *)
Record World := mkWorld { heap : Heap; shard : Shard; stats : Stats }.

(** *** Updates *)

Definition set_entries (w : World) (m : gmap Z Entry) : World :=
  mkWorld (mkHeap m (buffers (heap w)) (next_addr (heap w))) (shard w) (stats w).
Definition set_buffers (w : World) (m : gmap Z (list Z)) : World :=
  mkWorld (mkHeap (entries (heap w)) m (next_addr (heap w))) (shard w) (stats w).
Definition set_shard (w : World) (s : Shard) : World := mkWorld (heap w) s (stats w).

Definition set_map (w : World) (m : gmap Z Z) : World :=
  set_shard w (mkShard m (window (shard w)) (probation (shard w)) (protected_ (shard w))
    (limits (shard w)) (sketch (shard w)) (buf_pool (shard w)) (buf_pool_bytes (shard w))).
Definition set_sketch (w : World) (k : FrequencySketch) : World :=
  set_shard w (mkShard (sh_map (shard w)) (window (shard w)) (probation (shard w)) (protected_ (shard w))
    (limits (shard w)) k (buf_pool (shard w)) (buf_pool_bytes (shard w))).
Definition set_pool (w : World) (p : list (Z * Z)) (n : Z) : World :=
  set_shard w (mkShard (sh_map (shard w)) (window (shard w)) (probation (shard w)) (protected_ (shard w))
    (limits (shard w)) (sketch (shard w)) p n).

Definition segment (st : Status) (s : Shard) : Segment :=
  match st with WINDOW => window s | PROBATION => probation s | PROTECTED => protected_ s end.

Definition set_segment (st : Status) (w : World) (g : Segment) : World :=
  let s := shard w in
  set_shard w (match st with
    | WINDOW => mkShard (sh_map s) g (probation s) (protected_ s) (limits s) (sketch s) (buf_pool s) (buf_pool_bytes s)
    | PROBATION => mkShard (sh_map s) (window s) g (protected_ s) (limits s) (sketch s) (buf_pool s) (buf_pool_bytes s)
    | PROTECTED => mkShard (sh_map s) (window s) (probation s) g (limits s) (sketch s) (buf_pool s) (buf_pool_bytes s)
    end).

Definition add_hit (w : World) : World :=
  let t := stats w in
  mkWorld (heap w) (shard w) (mkStats (u64 (hits t + 1)) (misses t) (bytes_filled t) (evictions t) (rejections t)).
Definition add_miss (w : World) : World :=
  let t := stats w in
  mkWorld (heap w) (shard w) (mkStats (hits t) (u64 (misses t + 1)) (bytes_filled t) (evictions t) (rejections t)).
Definition add_filled (n : Z) (w : World) : World :=
  let t := stats w in
  mkWorld (heap w) (shard w) (mkStats (hits t) (misses t) (u64 (bytes_filled t + n)) (evictions t) (rejections t)).
Definition add_eviction (w : World) : World :=
  let t := stats w in
  mkWorld (heap w) (shard w) (mkStats (hits t) (misses t) (bytes_filled t) (u64 (evictions t + 1)) (rejections t)).
Definition add_rejection (w : World) : World :=
  let t := stats w in
  mkWorld (heap w) (shard w) (mkStats (hits t) (misses t) (bytes_filled t) (evictions t) (u64 (rejections t + 1))).

(** Dereferencing an entry: a freed one is undefined. *)
Definition entry_at (w : World) (a : Z) : res Entry :=
  match entries (heap w) !! a with Some e => mret e | None => Err UndefinedBehaviour end.
Definition set_entry (a : Z) (e : Entry) (w : World) : World :=
  set_entries w (<[a := e]> (entries (heap w))).

(** ** Buffer pool *)

(** The first buffer that is large enough, and the pool without it: its place
    is taken by the last buffer. *)
Fixpoint pool_take (size : Z) (before pool : list (Z * Z)) : option (Z * Z * list (Z * Z)) :=
  match pool with
  | [] => None
  | b :: rest =>
      if size <=? b.2 then
        Some (b, match last rest with
          | Some l => before ++ l :: removelast rest
          | None => before
          end)
      else pool_take size (before ++ [b]) rest
  end.

(** [new uint8_t[size]]: the bytes are indeterminate; nothing reads them
    before the fill. *)
Definition new_buf (size : Z) (w : World) : Z * World :=
  let h := heap w in
  (next_addr h, mkWorld (mkHeap (entries h) (<[next_addr h := replicate (Z.to_nat size) 0]> (buffers h))
    (next_addr h + 1)) (shard w) (stats w)).

Definition acquire_buf (size : Z) (w : World) : Z * World :=
  match pool_take size [] (buf_pool (shard w)) with
  | Some (b, pool) => (b.1, set_pool w pool (u64 (buf_pool_bytes (shard w) - b.2)))
  | None => new_buf size w
  end.

Definition live_bytes (s : Shard) : Z :=
  u64 (seg_bytes (window s) + seg_bytes (probation s) + seg_bytes (protected_ s)).

Definition release_buf (buf cap : Z) (w : World) : World :=
  let s := shard w in
  if u64 (buf_pool_bytes s + cap + live_bytes s) <=? shard_capacity_bytes (limits s)
  then set_pool w (buf_pool s ++ [(buf, cap)]) (u64 (buf_pool_bytes s + cap))
  else set_buffers w (delete buf (buffers (heap w))).

(** ** Entry lifetime *)

(** The buffer is given back and the entry freed. *)
Definition free_entry (a : Z) (e : Entry) (w : World) : World :=
  let w := release_buf (data e) (buf_cap e) w in
  set_entries w (delete a (entries (heap w))).

(** The flag is claimed and the entry freed in one critical section. *)
Definition maybe_delete_locked (a : Z) (w : World) : res World :=
  e ← entry_at w a;
  if negb (refs e =? 0) then mret w
  else if deleted e then mret w
  else mret (free_entry a e w).

Definition drop_entry (a : Z) (w : World) : res World :=
  e ← entry_at w a;
  maybe_delete_locked a (set_entry a (with_retired e) w).

Definition drop_filled (a : Z) (w : World) : res World := drop_entry a w.

(** ** Lists *)

(** Unlinking an entry that is not in the list is undefined. *)
Definition unlink (a : Z) (l : list Z) : res (list Z) :=
  if bool_decide (a ∈ l) then mret (filter (λ x, x ≠ a) l) else Err UndefinedBehaviour.

Definition move_to_mru (a : Z) (l : list Z) : res (list Z) := l ← unlink a l; mret (a :: l).

(** Unlink from a segment, its bytes with it. *)
Definition seg_unlink (st : Status) (a size : Z) (w : World) : res World :=
  let g := segment st (shard w) in
  l ← unlink a (seg_list g);
  mret (set_segment st w (mkSegment l (u64 (seg_bytes g - size)))).

(** Set the status and push at the most recently used end, bytes included. *)
Definition seg_push (st : Status) (a : Z) (w : World) : res World :=
  e ← entry_at w a;
  let g := segment st (shard w) in
  mret (set_segment st (set_entry a (with_status e st) w)
    (mkSegment (a :: seg_list g) (u64 (seg_bytes g + esize e)))).

(** From the given end, the first entry nobody has pinned. *)
Fixpoint first_unpinned (w : World) (l : list Z) : res (option Z) :=
  match l with
  | [] => mret None
  | a :: l => e ← entry_at w a; if 0 <? refs e then first_unpinned w l else mret (Some a)
  end.

(** The same, stopping at [stop]. *)
Fixpoint first_unpinned_before (w : World) (stop : Z) (l : list Z) : res (option Z) :=
  match l with
  | [] => mret None
  | a :: l =>
      if a =? stop then mret (Some a)
      else e ← entry_at w a; if 0 <? refs e then first_unpinned_before w stop l else mret (Some a)
  end.

(** Erase the keys that still point at the entry. *)
Definition erase_keys (a : Z) (w : World) : res World :=
  e ← entry_at w a;
  mret (set_map w (foldl (λ m k, if bool_decide (m !! k = Some a) then delete k m else m)
    (sh_map (shard w)) (keys e))).

Definition evict (st : Status) (a : Z) (w : World) : res World :=
  e ← entry_at w a;
  w ← seg_unlink st a (esize e) w;
  w ← erase_keys a w;
  drop_entry a w.

(** ** Hits *)

(** Protected overflow demotes to the most recently used end of probation. *)
Fixpoint demote_loop (fuel : nat) (w : World) : res World :=
  let s := shard w in
  if max_protected_bytes (limits s) <? seg_bytes (protected_ s) then
    match last (seg_list (protected_ s)) with
    | None => mret w
    | Some d =>
        match fuel with
        | O => Err OutOfFuel
        | Datatypes.S fuel' =>
            e ← entry_at w d;
            w ← seg_unlink PROTECTED d (esize e) w;
            w ← seg_push PROBATION d w;
            demote_loop fuel' w
        end
    end
  else mret w.

(** Probation overflow evicts its least recently used unpinned entry. *)
Fixpoint evict_loop (fuel : nat) (w : World) : res World :=
  let s := shard w in
  if (max_main_bytes (limits s) <? u64 (seg_bytes (probation s) + seg_bytes (protected_ s))) &&
     (0 <? seg_bytes (probation s)) then
    victim ← first_unpinned w (reverse (seg_list (probation s)));
    match victim with
    | None => mret w
    | Some v =>
        match fuel with
        | O => Err OutOfFuel
        | Datatypes.S fuel' =>
            w ← evict PROBATION v w;
            evict_loop fuel' (add_eviction w)
        end
    end
  else mret w.

Definition hit_locked (a pg : Z) (w : World) : res World :=
  e ← entry_at w a;
  let w := set_entry a (with_refs e (u32 (refs e + 1))) w in
  k ← increment pg (sketch (shard w));
  let w := add_hit (set_sketch w k) in
  match status e with
  | WINDOW =>
      l ← move_to_mru a (seg_list (window (shard w)));
      mret (set_segment WINDOW w (mkSegment l (seg_bytes (window (shard w)))))
  | PROBATION =>
      w ← seg_unlink PROBATION a (esize e) w;
      w ← seg_push PROTECTED a w;
      w ← demote_loop (length (seg_list (protected_ (shard w)))) w;
      evict_loop (length (seg_list (probation (shard w)))) w
  | PROTECTED =>
      l ← move_to_mru a (seg_list (protected_ (shard w)));
      mret (set_segment PROTECTED w (mkSegment l (seg_bytes (protected_ (shard w)))))
  end.

(** ** The sections of [pin] *)

(** Bytes from the entry's start to the end of the requested range. *)
Definition needed (e : Entry) (pg pages : Z) : Z := u64 (u64 (pg - page e) * kPageSize + pages * kPageSize).

(** The pointer a pin returns: a buffer and an offset into it. *)
Definition entry_ptr (e : Entry) (pg : Z) : Z * Z := (data e, u64 (pg - page e) * kPageSize).

(** A hit under the lock, when the entry under the key covers the range. *)
Definition try_hit (pg pages : Z) (w : World) : res (option Z * World) :=
  match sh_map (shard w) !! pg with
  | None => mret (None, w)
  | Some a =>
      e ← entry_at w a;
      if needed e pg pages <=? buf_cap e then w ← hit_locked a pg w; mret (Some a, w)
      else mret (None, w)
  end.

(** The fast path: a hit, or the retirement of a short unpinned incumbent. *)
Definition pin_fast (pg pages : Z) (w : World) : res (option Z * World) :=
  match sh_map (shard w) !! pg with
  | None => mret (None, w)
  | Some a =>
      e ← entry_at w a;
      if needed e pg pages <=? buf_cap e then w ← hit_locked a pg w; mret (Some a, w)
      else if refs e =? 0 then w ← evict (status e) a w; mret (None, w)
      else mret (None, w)
  end.

(** The least recently used unpinned entry of probation, when the page is
    strictly more frequent. *)
Definition contest (pg : Z) (w : World) : res (option Z) :=
  let s := shard w in
  victim ← first_unpinned w (reverse (seg_list (probation s)));
  match victim with
  | None => mret None
  | Some v =>
      e ← entry_at w v;
      f ← frequency (sketch s) pg;
      f' ← frequency (sketch s) (page e);
      mret (if f' <? f then Some v else None)
  end.

(** The gate: is the extent worth reading? *)
Definition pin_gate (pg pages : Z) (w : World) : res (bool * World) :=
  let w := add_miss w in
  k ← increment pg (sketch (shard w));
  let w := set_sketch w k in
  let s := shard w in
  if u64 (seg_bytes (probation s) + seg_bytes (protected_ s) + pages * kPageSize) <=? max_main_bytes (limits s)
  then mret (true, w)
  else
    beats ← contest pg w;
    match beats with Some _ => mret (true, w) | None => mret (false, add_rejection w) end.

Section fill.
(** The bytes of the index file, and what the kernel answers to the [i]-th
    [pread] of a fill for [c] bytes at an offset: an interruption, a failure or
    the number of bytes it transfers. *)
Context (file : list Z).

Inductive pread_answer := Interrupted | Failed | Transferred (n : Z).
Context (kernel : nat → Z → Z → pread_answer).

(** [done] bytes are in the buffer. *)
Fixpoint fill_loop (fuel i : nat) (off size done : Z) (buf : list Z) : res (list Z) :=
  if size <=? done then mret buf
  else
    match fuel with
    | O => Err OutOfFuel
    | Datatypes.S fuel' =>
        match kernel i (off + done) (size - done) with
        | Interrupted => fill_loop fuel' (Datatypes.S i) off size done buf
        | Failed => throw IoError
        | Transferred n =>
            let n := Z.min n (Z.max 0 (Z.of_nat (length file) - (off + done))) in
            if n <=? 0 then throw IoError
            else
              buf ← mem_write buf done (bytes_at file (Z.to_nat (off + done)) (Z.to_nat n));
              fill_loop fuel' (Datatypes.S i) off size (done + n) buf
        end
    end.

(** A filled entry nobody sees yet, or an error with the buffer given back. *)
Definition new_entry (fuel : nat) (pg pages : Z) (w : World) : res (Z * World) * World :=
  let size := pages * kPageSize in
  let '(buf, w) := acquire_buf size w in
  let e := mkEntry pg [pg] (u32 size) WINDOW 0 false false buf size in
  match buffers (heap w) !! buf with
  | None => (Err UndefinedBehaviour, w)
  | Some bytes =>
      match fill_loop fuel 0 (pg * kPageSize) size 0 bytes with
      | Ok bytes =>
          let h := heap w in
          let a := next_addr h in
          let w' := mkWorld (mkHeap (<[a := e]> (entries h)) (<[buf := bytes]> (buffers h)) (a + 1))
            (shard w) (stats w) in
          (Ok (a, w'), w')
      | Err (Thrown c) => (Err (Thrown c), release_buf buf size w)
      | Err x => (Err x, w)
      end
  end.
End fill.

(** A candidate leaves the window: admitted while main has room or for a less
    frequent victim, rejected otherwise. *)
Definition admit_one (c : Z) (w : World) : res World :=
  e ← entry_at w c;
  w ← seg_unlink WINDOW c (esize e) w;
  let s := shard w in
  if u64 (seg_bytes (probation s) + seg_bytes (protected_ s) + esize e) <=? max_main_bytes (limits s)
  then seg_push PROBATION c w
  else
    wins ← contest (page e) w;
    match wins with
    | Some v => w ← evict PROBATION v w; seg_push PROBATION c (add_eviction w)
    | None => w ← erase_keys c w; drop_entry c (add_rejection w)
    end.

(** Admission from the window until it is within its budget. *)
Fixpoint admit_loop (fuel : nat) (mine : Z) (w : World) : res World :=
  let s := shard w in
  if max_window_bytes (limits s) <? seg_bytes (window s) then
    cand ← first_unpinned_before w mine (reverse (seg_list (window s)));
    match cand with
    | None => mret w
    | Some c =>
        if c =? mine then mret w
        else
          match fuel with
          | O => Err OutOfFuel
          | Datatypes.S fuel' => w ← admit_one c w; admit_loop fuel' mine w
          end
    end
  else mret w.

(** How a pin ends: with a pinned entry, or with the caller's own mapping. *)
Inductive pinned := Pinned (a : Z) | Fallback.

(** A fill is counted; the aliases of a run fill are further keys of its entry. *)
Definition add_aliases (a : Z) (aliases : list Z) (w : World) : res World :=
  e ← entry_at w a; mret (set_entry a (with_keys e (keys e ++ aliases)) (add_filled (esize e) w)).

(** Keys never displace another entry's. *)
Definition add_keys (a : Z) (ks : list Z) (m : gmap Z Z) : gmap Z Z :=
  foldl (λ m k, match m !! k with Some _ => m | None => <[k := a]> m end) m ks.

Definition pin_insert (a pg pages : Z) (w : World) : res (pinned * World) :=
  '(winner, w) ← try_hit pg pages w;
  match winner with
  | Some v => w ← drop_filled a w; mret (Pinned v, w)
  | None =>
      e ← entry_at w a;
      let lim := limits (shard w) in
      if u64 (max_window_bytes lim + max_main_bytes lim) <? esize e
      then w ← drop_filled a (add_rejection w); mret (Fallback, w)
      else
        let w := set_entry a (with_refs e 1) w in
        w ← seg_push WINDOW a w;
        let w := set_map w (add_keys a (pg :: filter (λ k, k ≠ pg) (keys e)) (sh_map (shard w))) in
        w ← admit_loop (length (seg_list (window (shard w)))) a w;
        mret (Pinned a, w)
  end.

(** A pin whose sections run without interruption; [gated]: the stripe was free. *)
Definition pin (file : list Z) (kernel : nat → Z → Z → pread_answer) (fuel : nat) (gated : bool)
    (pg pages : Z) (aliases : list Z) (w : World) : res (pinned * World) :=
  '(hit, w) ← pin_fast pg pages w;
  match hit with
  | Some a => mret (Pinned a, w)
  | None =>
      '(hit, w) ← (if gated then try_hit pg pages w else mret (None, w));
      match hit with
      | Some a => mret (Pinned a, w)
      | None =>
          '(admitted, w) ← pin_gate pg pages w;
          if negb (admitted : bool) then mret (Fallback, w)
          else
            '(a, w) ← (new_entry file kernel fuel pg pages w).1;
            w ← add_aliases a aliases w;
            pin_insert a pg pages w
      end
  end.

(** ** [unpin], [contains], [invalidate_all] *)

(** The access an [unpin] makes next: [refs.fetch_sub] and the load of [retired];
    in [maybe_delete] the load of [refs], the exchange on [deleted], and the section
    that frees the entry. *)
Inductive UnpinAt := AtDecrement | AtRetired | AtRefs | AtExchange | AtDelete.

#[export] Instance UnpinAt_eq_dec : EqDecision UnpinAt.
Proof. solve_decision. Defined.

(** One access, without the lock until the deletion, and the access that follows. *)
Definition maybe_delete (at_ : UnpinAt) (a : Z) (w : World) : res (option UnpinAt * World) :=
  e ← entry_at w a;
  match at_ with
  | AtRefs => mret (if negb (refs e =? 0) then None else Some AtExchange, w)
  | AtExchange => mret (if deleted e then None else Some AtDelete, set_entry a (with_deleted e) w)
  | AtDelete => mret (None, free_entry a e w)
  | _ => mret (None, w)
  end.

(** The last unpin of a retired entry frees it. *)
Definition unpin (at_ : UnpinAt) (a : Z) (w : World) : res (option UnpinAt * World) :=
  match at_ with
  | AtDecrement =>
      e ← entry_at w a;
      mret (if refs e =? 1 then Some AtRetired else None, set_entry a (with_refs e (u32 (refs e - 1))) w)
  | AtRetired => e ← entry_at w a; mret (if retired e then Some AtRefs else None, w)
  | _ => maybe_delete at_ a w
  end.

Definition contains (pg : Z) (w : World) : bool := bool_decide (is_Some (sh_map (shard w) !! pg)).

(** One entry of the map, once. *)
Definition invalidate_entry (a : Z) (w : World) : res World :=
  e ← entry_at w a;
  if retired e then mret w
  else
    let g := segment (status e) (shard w) in
    l ← unlink a (seg_list g);
    drop_entry a (set_segment (status e) w (mkSegment l (seg_bytes g))).

Fixpoint invalidate_loop (seen todo : list Z) (w : World) : res World :=
  match todo with
  | [] => mret w
  | a :: todo =>
      if bool_decide (a ∈ seen) then invalidate_loop seen todo w
      else w ← invalidate_entry a w; invalidate_loop (a :: seen) todo w
  end.

Definition invalidate_shard (w : World) : res World :=
  w ← invalidate_loop [] ((map_to_list (sh_map (shard w))).*2) w;
  let w := set_map w ∅ in
  let zero st w := set_segment st w (mkSegment (seg_list (segment st (shard w))) 0) in
  mret (zero PROTECTED (zero PROBATION (zero WINDOW w))).

(** ** Construction and routing *)

Definition shard_limits (capacity_bytes num_shards window_pct : Z) : Limits :=
  let num_shards := if num_shards =? 0 then 1 else num_shards in
  let window_pct := if window_pct =? 0 then 1 else window_pct in
  let window_pct := if 90 <? window_pct then 90 else window_pct in
  let cap := capacity_bytes / num_shards in
  let max_window := u64 (cap * window_pct) / 100 in
  let max_main := u64 (cap - max_window) in
  let max_protected := u64 (max_main * 80) / 100 in
  mkLimits max_window max_main (u64 (max_main - max_protected)) max_protected cap.

Definition new_shard (lim : Limits) : Shard :=
  mkShard ∅ (mkSegment [] 0) (mkSegment [] 0) (mkSegment [] 0) lim sketch_new [] 0.

(** The number of entries [set_expected_entries] tells each shard's sketch. *)
Definition expected_per_shard (n num_shards : Z) : Z := u32 (n / u32 num_shards + 1).

Definition set_expected_entries (n num_shards : Z) (w : World) : World :=
  set_sketch w (ensure_capacity (expected_per_shard n num_shards) (sketch (shard w))).

Definition shard_for (num_shards pg : Z) : Z := Z.shiftr (u64 (pg * 0x9E3779B97F4A7C15)) 32 mod num_shards.

Definition kFillStripes : Z := 1024.
Definition fill_stripe (pg : Z) : Z := u32 (Z.shiftr (u64 (pg * 0x9E3779B97F4A7C15)) 58) mod kFillStripes.
