(* ===== verification/IntrusiveList.v ===== *)
(** * IntrusiveList: the head/tail lists of cache entries
    ([LeafExtentCache::List], [src/tree/leaf_extent_cache.cpp])

    The pointer operations on a heap of nodes, and that they compute the sequence
    operations LeafExtentCache.v uses. *)
From S2P Require Import Prelude LeafExtentCache.

(** A null pointer is [None]. *)
Record Node := mkNode { prev : option Z; next : option Z }.
Record IList := mkIList { head_ : option Z; tail_ : option Z }.
Abbreviation Nodes := (gmap Z Node).

Definition node_at (m : Nodes) (a : Z) : res Node :=
  match m !! a with Some n => mret n | None => Err UndefinedBehaviour end.

(** [p->next = q] and [p->prev = q] when [p] is not null. *)
Definition set_next (p q : option Z) (m : Nodes) : res Nodes :=
  match p with None => mret m | Some a => n ← node_at m a; mret (<[a := mkNode (prev n) q]> m) end.
Definition set_prev (p q : option Z) (m : Nodes) : res Nodes :=
  match p with None => mret m | Some a => n ← node_at m a; mret (<[a := mkNode q (next n)]> m) end.

Definition list_unlink (e : Z) (l : IList) (m : Nodes) : res (IList * Nodes) :=
  n ← node_at m e;
  let l := mkIList (if bool_decide (head_ l = Some e) then next n else head_ l)
                   (if bool_decide (tail_ l = Some e) then prev n else tail_ l) in
  m ← set_next (prev n) (next n) m;
  m ← set_prev (next n) (prev n) m;
  mret (l, <[e := mkNode None None]> m).

Definition list_push_mru (e : Z) (l : IList) (m : Nodes) : res (IList * Nodes) :=
  _ ← node_at m e;
  let m := <[e := mkNode None (head_ l)]> m in
  m ← set_prev (head_ l) (Some e) m;
  mret (mkIList (Some e) (match tail_ l with None => Some e | t => t end), m).

Definition list_move_to_mru (e : Z) (l : IList) (m : Nodes) : res (IList * Nodes) :=
  if bool_decide (head_ l = Some e) then mret (l, m)
  else '(l, m) ← list_unlink e l m; list_push_mru e l m.

(** [for (v = l.tail; v; v = v->prev)]: the entries a walk from the least
    recently used end meets. *)
Fixpoint walk_prev (fuel : nat) (p : option Z) (m : Nodes) : res (list Z) :=
  match p with
  | None => mret []
  | Some a =>
      match fuel with
      | O => Err OutOfFuel
      | Datatypes.S fuel' => n ← node_at m a; l ← walk_prev fuel' (prev n) m; mret (a :: l)
      end
  end.

(** The list [l] and the nodes [m] hold the sequence [s], most recent first. *)
Record holds_list (l : IList) (m : Nodes) (s : list Z) : Prop := {
  hl_nodup : NoDup s;
  hl_head : head_ l = head s;
  hl_tail : tail_ l = last s;
  hl_node s1 a s2 : s = s1 ++ a :: s2 → m !! a = Some (mkNode (last s1) (head s2));
}.

Lemma head_last_app (s1 s2 : list Z) : head (s1 ++ s2) = match head s1 with Some x => Some x | None => head s2 end.
Proof. by destruct s1. Qed.

Lemma NoDup_split_eq (s1 s2 t1 t2 : list Z) a :
  NoDup (s1 ++ a :: s2) → s1 ++ a :: s2 = t1 ++ a :: t2 → s1 = t1 ∧ s2 = t2.
Proof.
  revert t1. induction s1 as [|x s1 IH]; intros t1 Hn E; destruct t1 as [|y t1]; cbn in *.
  - injection E as ->. done.
  - injection E as <- ->. apply NoDup_cons in Hn as [Hn _]. exfalso. apply Hn, elem_of_app. right. left.
  - injection E as -> <-. apply NoDup_cons in Hn as [Hn _]. exfalso. apply Hn, elem_of_app. right. left.
  - injection E as -> E. apply NoDup_cons in Hn as [_ Hn]. destruct (IH t1 Hn E) as [-> ->]. done.
Qed.

(** Where an element of [s1 ++ s2] is. *)
Lemma app_split_cases (s1 s2 t1 t2 : list Z) b :
  s1 ++ s2 = t1 ++ b :: t2 →
  (∃ k, s1 = t1 ++ b :: k ∧ t2 = k ++ s2) ∨ (∃ k, s2 = k ++ b :: t2 ∧ t1 = s1 ++ k).
Proof.
  revert t1. induction s1 as [|x s1 IH]; intros t1 E; [right; by exists t1|].
  destruct t1 as [|y t1]; cbn in E; injection E as -> E.
  - left. exists s1. by split.
  - destruct (IH t1 E) as [(k & -> & ->)|(k & -> & ->)]; [left|right]; by exists k.
Qed.

Lemma push_mru_holds l m s e n :
  holds_list l m s → e ∉ s → m !! e = Some n →
  ∃ l' m', list_push_mru e l m = Ok (l', m') ∧ holds_list l' m' (e :: s) ∧
    ∀ a, a ∉ e :: s → m' !! a = m !! a.
Proof.
  intros [Hnd Hh Ht Hn] He Hm. unfold list_push_mru, node_at at 1. rewrite Hm, Hh. unfold mret, res_ret. rewrite bind_Ok.
  assert (∀ t, match last s with None => Some e | x => x end = Some t → last (e :: s) = Some t) as Hlast.
  { intros t. rewrite last_cons. by destruct (last s). }
  destruct s as [|a s]; cbn [head set_prev].
  - unfold mret, res_ret. rewrite bind_Ok. eexists _, _. split; [done|]. split.
    + split; [apply NoDup_singleton|done|cbn; by rewrite Ht|]. intros s1 b s2 E.
      destruct s1 as [|x s1]; cbn in E; [|by destruct s1].
      injection E as E1 E2. subst. by rewrite lookup_insert_eq.
    + intros b Hb. apply not_elem_of_cons in Hb as [Hb _]. by rewrite lookup_insert_ne.
  - assert (e ≠ a) as Hea by (intros ->; apply He; left). unfold node_at. rewrite lookup_insert_ne by done.
    rewrite (Hn [] a s eq_refl). unfold mret, res_ret. rewrite !bind_Ok. eexists _, _. split; [done|]. split.
    + split; [by apply NoDup_cons|done| |].
      * cbn [tail_]. rewrite Ht, (last_cons e). by destruct (last (a :: s)).
      * intros s1 b s2 E. destruct s1 as [|x s1]; cbn in E; [injection E as E1 E2; subst b s2|injection E as E1 E; subst x].
        -- rewrite lookup_insert_ne by congruence. by rewrite lookup_insert_eq.
        -- destruct s1 as [|y s1]; cbn in E; [injection E as E1 E2; subst b s2|].
           ++ by rewrite lookup_insert_eq.
           ++ assert (b ∈ a :: s) as Hbs by (rewrite E, elem_of_cons, elem_of_app, elem_of_cons; tauto).
              assert (b ≠ e) by congruence.
              assert (b ≠ a).
              { intros ->. injection E as E1 E2. subst y s. apply NoDup_cons in Hnd as [Hnd _]. apply Hnd. rewrite elem_of_app, elem_of_cons. tauto. }
              rewrite !lookup_insert_ne by congruence. rewrite (Hn (y :: s1) b s2 E). done.
    + intros b Hb. apply not_elem_of_cons in Hb as [Hbe Hb]. apply not_elem_of_cons in Hb as [Hba _].
      by rewrite !lookup_insert_ne by congruence.
Qed.

Lemma set_next_ok p q m n :
  (∀ a, p = Some a → m !! a = Some n) →
  ∃ m', set_next p q m = Ok m' ∧
    ∀ b, m' !! b = if decide (p = Some b) then Some (mkNode (prev n) q) else m !! b.
Proof.
  intros Hp. destruct p as [a|]; cbn [set_next].
  - unfold node_at. rewrite (Hp a eq_refl). eexists. split; [done|]. intros b.
    case_decide as Hb; [injection Hb as ->; by rewrite lookup_insert_eq|by rewrite lookup_insert_ne by congruence].
  - exists m. split; [done|]. intros b. by rewrite decide_False.
Qed.

Lemma set_prev_ok p q m n :
  (∀ a, p = Some a → m !! a = Some n) →
  ∃ m', set_prev p q m = Ok m' ∧
    ∀ b, m' !! b = if decide (p = Some b) then Some (mkNode q (next n)) else m !! b.
Proof.
  intros Hp. destruct p as [a|]; cbn [set_prev].
  - unfold node_at. rewrite (Hp a eq_refl). eexists. split; [done|]. intros b.
    case_decide as Hb; [injection Hb as ->; by rewrite lookup_insert_eq|by rewrite lookup_insert_ne by congruence].
  - exists m. split; [done|]. intros b. by rewrite decide_False.
Qed.

Lemma last_elem_of (l : list Z) a : last l = Some a → a ∈ l.
Proof. intros E. apply last_Some in E as [l' ->]. rewrite elem_of_app, elem_of_cons. tauto. Qed.

(** After the neighbours of a removed entry are linked, every node between has
    its new neighbours. *)
Lemma relinked s1 s2 e t1 a t2 (m m1 m2 : Nodes) :
  NoDup (s1 ++ s2) → s1 ++ s2 = t1 ++ a :: t2 →
  (∀ u1 b u2, s1 ++ e :: s2 = u1 ++ b :: u2 → m !! b = Some (mkNode (last u1) (head u2))) →
  (∀ b, m1 !! b = if decide (last s1 = Some b) then Some (mkNode (last (removelast s1)) (head s2)) else m !! b) →
  (∀ b, m2 !! b = if decide (head s2 = Some b) then Some (mkNode (last s1) (head (tail s2))) else m1 !! b) →
  m2 !! a = Some (mkNode (last t1) (head t2)).
Proof.
  intros Hnd E Hn Hm1 Hm2. pose proof Hnd as Hnd'. rewrite NoDup_app in Hnd'. destruct Hnd' as (Hn1 & Hd & Hn2).
  destruct (app_split_cases s1 s2 t1 t2 a E) as [(k & E1 & ->)|(k & E2 & ->)].
  - assert (a ∈ s1) as Ha by (rewrite E1, elem_of_app, elem_of_cons; tauto).
    rewrite Hm2, decide_False; [|intros Hh; apply (Hd a Ha); destruct s2 as [|x s2]; [done|injection Hh as ->; left]].
    rewrite Hm1. subst s1. destruct k as [|c k].
    + by rewrite last_snoc, removelast_last, decide_True.
    + rewrite decide_False.
      * rewrite (Hn t1 a (c :: k ++ e :: s2)); [done|]. by rewrite <- app_assoc.
      * rewrite last_app_cons. change (last (a :: c :: k)) with (last (c :: k)). intros Hl%last_elem_of.
        rewrite NoDup_app in Hn1. destruct Hn1 as (_ & _ & Hn1). by apply NoDup_cons in Hn1 as [? _].
  - assert (a ∈ s2) as Ha by (rewrite E2, elem_of_app, elem_of_cons; tauto). rewrite Hm2. subst s2. destruct k as [|c k].
    + by rewrite app_nil_r, decide_True.
    + cbn [app head]. rewrite decide_False.
      * rewrite Hm1, decide_False; [|intros Hl%last_elem_of; by apply (Hd a)].
        rewrite (Hn (s1 ++ e :: c :: k) a t2); [by rewrite !last_app_cons|]. by rewrite <- app_assoc.
      * intros [= ->]. cbn in Hn2. apply NoDup_cons in Hn2 as [Hn2 _]. apply Hn2. rewrite elem_of_app, elem_of_cons. tauto.
Qed.

Lemma unlink_holds l m s1 e s2 :
  holds_list l m (s1 ++ e :: s2) →
  ∃ l' m', list_unlink e l m = Ok (l', m') ∧ holds_list l' m' (s1 ++ s2) ∧
    m' !! e = Some (mkNode None None) ∧ ∀ a, a ∉ s1 ++ e :: s2 → m' !! a = m !! a.
Proof.
  intros [Hnd Hh Ht Hn]. pose proof Hnd as Hnd'. rewrite <- Permutation_middle in Hnd'. apply NoDup_cons in Hnd' as [He Hnd'].
  unfold list_unlink, node_at. rewrite (Hn s1 e s2 eq_refl). unfold mret at 1, res_ret at 1. rewrite bind_Ok. cbn [prev next].
  (* the neighbours *)
  assert (∀ p, last s1 = Some p → ∃ t, s1 = t ++ [p]) as Hprev by (intros p Hp; by apply last_Some in Hp).
  assert (∀ q, head s2 = Some q → ∃ t, s2 = q :: t) as Hnext.
  { intros q Hq. destruct s2 as [|x t]; [done|]. injection Hq as ->. by exists t. }
  destruct (set_next_ok (last s1) (head s2) m (mkNode (last (removelast s1)) (Some e))) as (m1 & -> & Hm1).
  { intros p Hp. destruct (Hprev p Hp) as [t ->]. rewrite removelast_last. apply (Hn t p (e :: s2)). by rewrite <- app_assoc. }
  rewrite bind_Ok.
  destruct (set_prev_ok (head s2) (last s1) m1 (mkNode (Some e) (head (tail s2)))) as (m2 & -> & Hm2).
  { intros q Hq. destruct (Hnext q Hq) as [t ->]. rewrite Hm1, decide_False.
    - rewrite (Hn (s1 ++ [e]) q t) by by rewrite <- app_assoc. by rewrite last_snoc.
    - intros Hp. destruct (Hprev q Hp) as [t' ->]. rewrite NoDup_app in Hnd'. destruct Hnd' as (_ & Hd & _).
      apply (Hd q); [rewrite elem_of_app, elem_of_cons; tauto|left]. }
  rewrite bind_Ok. cbn [next prev] in Hm1, Hm2. eexists _, _. split; [done|]. split; [|split].
  - split; [done| | |].
    + cbn [head_]. rewrite Hh, !head_last_app. destruct s1 as [|x s1]; cbn [head app].
      * by rewrite bool_decide_true.
      * rewrite bool_decide_false; [done|]. intros [= ->]. apply He. left.
    + cbn [tail_]. rewrite Ht, last_app_cons. destruct s2 as [|x s2].
      * rewrite app_nil_r. by rewrite bool_decide_true.
      * rewrite last_app_cons. change (last (e :: x :: s2)) with (last (x :: s2)). rewrite bool_decide_false; [done|].
        intros Hl. apply last_elem_of in Hl. apply He, elem_of_app. by right.
    + intros t1 a t2 E. assert (a ∈ s1 ++ s2) as Ha by (rewrite E, elem_of_app, elem_of_cons; tauto).
      rewrite lookup_insert_ne by (intros ->; done). by apply (relinked s1 s2 e t1 a t2 m m1 m2).
  - by rewrite lookup_insert_eq.
  - intros a Ha. rewrite elem_of_app, elem_of_cons in Ha. rewrite lookup_insert_ne by (intros ->; tauto).
    rewrite Hm2, decide_False, Hm1, decide_False; [done| |].
    + intros Hl%last_elem_of. tauto.
    + intros Hq. destruct (Hnext a Hq) as [t ->]. rewrite elem_of_cons in Ha. tauto.
Qed.

Lemma filter_ne_id (e : Z) (s : list Z) : e ∉ s → filter (λ x, x ≠ e) s = s.
Proof.
  induction s as [|x s IH]; [done|]. intros Hx. apply not_elem_of_cons in Hx as [Hne Hx].
  rewrite filter_cons, decide_True by congruence. by rewrite IH.
Qed.

Lemma filter_ne_split (e : Z) (s1 s2 : list Z) : NoDup (s1 ++ e :: s2) → filter (λ x, x ≠ e) (s1 ++ e :: s2) = s1 ++ s2.
Proof.
  intros Hn. rewrite <- Permutation_middle in Hn. apply NoDup_cons in Hn as [Hn _]. apply not_elem_of_app in Hn as [H1 H2].
  rewrite filter_app, filter_cons, decide_False by tauto. by rewrite !filter_ne_id.
Qed.

Lemma move_to_mru_holds l m s e s' :
  holds_list l m s → move_to_mru e s = Ok s' →
  ∃ l' m', list_move_to_mru e l m = Ok (l', m') ∧ holds_list l' m' s' ∧ ∀ a, a ∉ s → m' !! a = m !! a.
Proof.
  intros Hl. unfold move_to_mru, unlink. case_bool_decide as He; [|done]. unfold mret, res_ret. rewrite bind_Ok. intros [= <-].
  apply list_elem_of_split in He as (s1 & s2 & ->). pose proof (hl_nodup _ _ _ Hl) as Hnd. rewrite filter_ne_split by done.
  unfold list_move_to_mru. case_bool_decide as Hh.
  - rewrite (hl_head _ _ _ Hl) in Hh. assert (s1 = []) as ->.
    { destruct s1 as [|x s1]; [done|]. injection Hh as ->. cbn in Hnd. apply NoDup_cons in Hnd as [Hnd _]. exfalso.
      apply Hnd. rewrite elem_of_app, elem_of_cons. tauto. }
    by exists l, m.
  - destruct (unlink_holds l m s1 e s2 Hl) as (l1 & m1 & -> & Hl1 & He1 & Hm1). rewrite bind_Ok.
    rewrite <- Permutation_middle in Hnd. apply NoDup_cons in Hnd as [Hne _].
    destruct (push_mru_holds l1 m1 (s1 ++ s2) e _ Hl1 Hne He1) as (l2 & m2 & E2 & Hl2 & Hm2).
    exists l2, m2. split; [done|]. split; [done|]. intros a Ha. rewrite Hm2, Hm1; [done..|].
    rewrite elem_of_app, elem_of_cons in Ha. rewrite elem_of_cons, elem_of_app. tauto.
Qed.

Lemma walk_prev_prefix l m s t s1 fuel :
  holds_list l m s → s = s1 ++ t → (length s1 ≤ fuel)%nat → walk_prev fuel (last s1) m = Ok (reverse s1).
Proof.
  intros Hl. revert t fuel. induction s1 as [|a s1 IH] using rev_ind; intros t fuel Hs Hf; [by destruct fuel|].
  rewrite length_app in Hf. cbn in Hf. rewrite last_snoc. destruct fuel as [|fuel]; [lia|]. cbn [walk_prev]. unfold node_at.
  rewrite <- app_assoc in Hs. rewrite (hl_node _ _ _ Hl s1 a t Hs). unfold mret, res_ret. rewrite bind_Ok. cbn [prev].
  rewrite (IH (a :: t) fuel Hs) by lia. by rewrite reverse_snoc.
Qed.

(** C35: The pointer operations on a doubly linked list compute the sequence
    operations: push adds at the most recently used end, unlink removes the entry,
    move-to-front does both (and nothing on the head), and walking [prev] from the
    tail meets the entries from the least recently used on. *)
Theorem intrusive_list_refines l m s e :
  holds_list l m s →
  (e ∉ s → is_Some (m !! e) → ∃ l' m', list_push_mru e l m = Ok (l', m') ∧ holds_list l' m' (e :: s)) ∧
  (∀ s', unlink e s = Ok s' → ∃ l' m', list_unlink e l m = Ok (l', m') ∧ holds_list l' m' s') ∧
  (∀ s', move_to_mru e s = Ok s' → ∃ l' m', list_move_to_mru e l m = Ok (l', m') ∧ holds_list l' m' s') ∧
  walk_prev (length s) (tail_ l) m = Ok (reverse s).
Proof.
  intros Hl. split; [|split; [|split]].
  - intros He [n Hn]. destruct (push_mru_holds l m s e n Hl He Hn) as (l' & m' & ? & ? & _). by exists l', m'.
  - intros s'. unfold unlink. case_bool_decide as He; [|done]. intros [= <-].
    apply list_elem_of_split in He as (s1 & s2 & ->). rewrite filter_ne_split by by apply (hl_nodup _ _ _ Hl).
    destruct (unlink_holds l m s1 e s2 Hl) as (l' & m' & ? & ? & _). by exists l', m'.
  - intros s' E. destruct (move_to_mru_holds l m s e s' Hl E) as (l' & m' & ? & ? & _). by exists l', m'.
  - rewrite (hl_tail _ _ _ Hl). apply (walk_prev_prefix l m s []); [done|by rewrite app_nil_r|done].
Qed.

Lemma intrusive_list_refines_witness :
  let m := <[1 := mkNode None (Some 2)]> (<[2 := mkNode (Some 1) None]> (<[3 := mkNode None None]> ∅)) in
  let l := mkIList (Some 1) (Some 2) in
  (3 ∉ [1; 2] → is_Some (m !! 3) → ∃ l' m', list_push_mru 3 l m = Ok (l', m') ∧ holds_list l' m' [3; 1; 2]) ∧
  (∀ s', unlink 3 [1; 2] = Ok s' → ∃ l' m', list_unlink 3 l m = Ok (l', m') ∧ holds_list l' m' s') ∧
  (∀ s', move_to_mru 3 [1; 2] = Ok s' → ∃ l' m', list_move_to_mru 3 l m = Ok (l', m') ∧ holds_list l' m' s') ∧
  walk_prev 2 (tail_ l) m = Ok [2; 1].
Proof.
  apply (intrusive_list_refines _ _ [1; 2] 3). split; [by apply (bool_decide_unpack _)|done|done|].
  intros s1 a s2 E. destruct s1 as [|x [|y s1]]; cbn in E.
  - injection E as <- <-. reflexivity.
  - injection E as <- <- <-. reflexivity.
  - by destruct s1.
Defined.
