(* ===== verification/EntryLifetime.v ===== *)
(** * EntryLifetime: who frees a cache entry when [unpin] races with eviction
    ([unpin], [drop_entry], [maybe_delete], [maybe_delete_locked],
    [src/tree/leaf_extent_cache.cpp])

    In LeafCacheRuns.v the accesses of an [unpin] fall between the critical sections.
    Here those to one entry interleave with the single accesses of the eviction (or
    invalidation) that retires the entry under the shard lock.  The threads in [unpin] are counted by
    the access they make next; a dereference of the freed entry is undefined. *)
From S2P Require Import Prelude.

(** The evictor's next access: nothing begun, [refs.load], the exchange on
    [deleted], the deletion, done. *)
Inductive Evictor := EIdle | ERefs | EExchange | EDelete | EDone.

(** [refs] equals the pins held: a pin is taken and counted under the lock. *)
Record Life := mkLife {
  l_refs : Z;
  l_retired : bool;
  l_deleted : bool;
  l_freed : bool;
  (** threads in [unpin] about to load [retired], to load [refs], to exchange
      [deleted], to delete *)
  to_retired : Z;
  to_refs : Z;
  to_exchange : Z;
  to_delete : Z;
  evictor : Evictor;
}.

Inductive Act := Pin | Decrement | LoadRetired | LoadRefs | Exchange | Delete | Evict.

(** The shard lock is the evictor's while it is at work. *)
Definition lock_free (s : Life) : bool := match evictor s with EIdle | EDone => true | _ => false end.

Definition deref (s : Life) : res unit := if l_freed s then Err UndefinedBehaviour else mret tt.

(** One atomic access; an act no thread can make changes nothing. *)
Definition act (a : Act) (s : Life) : res Life :=
  let '(mkLife r ret del fr n1 n2 n3 n4 ev) := s in
  match a with
  | Pin => if lock_free s && negb ret then mret (mkLife (r + 1) ret del fr n1 n2 n3 n4 ev) else mret s
  | Decrement =>
      if 0 <? r then
        _ ← deref s; mret (mkLife (r - 1) ret del fr (if r =? 1 then n1 + 1 else n1) n2 n3 n4 ev)
      else mret s
  | LoadRetired =>
      if 0 <? n1 then
        _ ← deref s; mret (mkLife r ret del fr (n1 - 1) (if ret : bool then n2 + 1 else n2) n3 n4 ev)
      else mret s
  | LoadRefs =>
      if 0 <? n2 then
        _ ← deref s; mret (mkLife r ret del fr n1 (n2 - 1) (if r =? 0 then n3 + 1 else n3) n4 ev)
      else mret s
  | Exchange =>
      if 0 <? n3 then
        _ ← deref s; mret (mkLife r ret true fr n1 n2 (n3 - 1) (if del : bool then n4 else n4 + 1) ev)
      else mret s
  | Delete =>
      if (0 <? n4) && lock_free s then
        _ ← deref s; mret (mkLife r ret del true n1 n2 n3 (n4 - 1) ev)
      else mret s
  | Evict =>
      match ev with
      | EIdle => _ ← deref s; mret (mkLife r true del fr n1 n2 n3 n4 ERefs)
      | ERefs => _ ← deref s; mret (mkLife r ret del fr n1 n2 n3 n4 (if r =? 0 then EExchange else EDone))
      | EExchange => _ ← deref s; mret (mkLife r ret true fr n1 n2 n3 n4 (if del then EDone else EDelete))
      | EDelete => _ ← deref s; mret (mkLife r ret del true n1 n2 n3 n4 EDone)
      | EDone => mret s
      end
  end.

Fixpoint acts (l : list Act) (s : Life) : res Life :=
  match l with [] => mret s | a :: l => s ← act a s; acts l s end.

(** A listed entry nobody has pinned. *)
Definition listed : Life := mkLife 0 false false false 0 0 0 0 EIdle.

(** Deletions claimed and not yet made. *)
Definition claims (s : Life) : Z := to_delete s + match evictor s with EDelete => 1 | _ => 0 end.

(** Accesses after [refs] was seen to be 0. *)
Definition saw_zero (s : Life) : Z :=
  to_exchange s + to_delete s + match evictor s with EExchange | EDelete => 1 | _ => 0 end.

Record life_ok (s : Life) : Prop := {
  lo_counts : 0 ≤ l_refs s ∧ 0 ≤ to_retired s ∧ 0 ≤ to_refs s ∧ 0 ≤ to_exchange s ∧ 0 ≤ to_delete s;
  lo_retired : l_retired s = match evictor s with EIdle => false | _ => true end;
  lo_saw : if l_retired s then True else to_refs s + to_exchange s + to_delete s = 0;
  lo_zero : 0 < saw_zero s → l_refs s = 0;
  lo_claims : claims s + (if l_freed s then 1 else 0) = if l_deleted s then 1 else 0;
  lo_freed : if l_freed s then l_refs s = 0 ∧ l_retired s = true ∧ evictor s = EDone else True;
  lo_owner : evictor s = EDone → 0 < l_refs s + to_retired s + to_refs s + to_exchange s ∨ l_deleted s = true;
}.

Lemma act_ok a s s' : life_ok s → act a s = Ok s' → life_ok s'.
Proof.
  intros Hs. destruct s as [r ret del fr n1 n2 n3 n4 ev].
  destruct Hs as [Hc Hr Hsaw Hz Hcl Hf Ho]; unfold claims in Hcl; unfold saw_zero in Hz; cbn in *.
  intros E; destruct fr, a, ev; cbn in E; unfold lock_free, deref in E; cbn in E, Hr; subst ret; cbn in E.
  all: repeat match type of E with context [if ?b then _ else _] => destruct b eqn:? end; res_inv; subst; try done.
  all: split; unfold claims, saw_zero; cbn in *; try lia; try done; try (split_and!; first [done|lia]).
  destruct del; [by right|lia].
Qed.

Lemma acts_ok l s s' : life_ok s → acts l s = Ok s' → life_ok s'.
Proof.
  revert s. induction l as [|a l IH]; intros s Hs E; cbn in E; [by injection E as <-|].
  apply bind_Ok_inv in E as (s1 & E1 & E). apply (IH s1); [by apply (act_ok a s)|done].
Qed.

Lemma listed_ok : life_ok listed.
Proof. by split. Qed.

(** An access is defined, or it faults. *)
Lemma act_faults a s : life_ok s → act a s = Err UndefinedBehaviour ∨ ∃ s', act a s = Ok s'.
Proof.
  intros _. destruct s as [r ret del fr n1 n2 n3 n4 ev]. unfold act, deref, lock_free.
  destruct a, ev, fr; cbn; repeat match goal with |- context [if ?b then _ else _] => destruct b end; cbn; eauto.
Qed.

Definition stale_access (a : Act) : Prop := a = LoadRetired ∨ a = LoadRefs ∨ a = Exchange.

(** It faults when the entry is gone and an [unpin] is past its decrement. *)
Lemma fault_stale a s : life_ok s → act a s = Err UndefinedBehaviour → l_freed s = true ∧ stale_access a.
Proof.
  intros Hs. destruct s as [r ret del fr n1 n2 n3 n4 ev].
  destruct Hs as [Hc Hr Hsaw Hz Hcl Hf Ho]; unfold claims in Hcl; unfold saw_zero in Hz; cbn in *.
  unfold stale_access, act, deref, lock_free. intros E; destruct fr, a, ev; cbn in E; cbn in *; try discriminate E; auto.
  all: repeat match type of E with context [Z.ltb ?x ?y] => destruct (Z.ltb_spec x y) end; cbn in E; try discriminate E.
  all: try (destruct Hf as (? & ? & ?); congruence).
  all: destruct ret, del; first [discriminate E|lia].
Qed.

Lemma acts_fault l s :
  life_ok s → acts l s = Err UndefinedBehaviour ∧ (∃ l1 a l2 s1, l = l1 ++ a :: l2 ∧ acts l1 s = Ok s1 ∧ l_freed s1 = true ∧ stale_access a) ∨
    ∃ s', acts l s = Ok s'.
Proof.
  revert s. induction l as [|a l IH]; intros s Hs; [right; by eexists|]. cbn [acts].
  destruct (act_faults a s Hs) as [E|[s1 E]]; rewrite E; cbn [mbind res_bind].
  - left. split; [done|]. destruct (fault_stale a s Hs E). by exists [], a, l, s.
  - destruct (IH s1 (act_ok a s s1 Hs E)) as [(El & l1 & b & l2 & s2 & -> & E1 & ? & ?)|?]; [left|by right].
    split; [done|]. exists (a :: l1), b, l2, s2. split_and!; try done. cbn [acts]. by rewrite E.
Qed.

(** C36: However [unpin]s interleave with the eviction of their entry, one of two things
    happens.  Every access is defined; then the deletion of the entry is claimed at most
    once, only when it is retired and unpinned, and once all are through it has been
    deleted.  Or an access is to the entry after it has been deleted; then it is an
    [unpin]'s load of [retired], load of [refs] or exchange on [deleted], past its
    decrement: never the evictor's access, a decrement, or a second deletion.  The second
    case happens in the code: [unpin_after_free] and [exchange_after_free]. *)
Theorem entry_freed_once l :
  (∃ s, acts l listed = Ok s ∧
    claims s + (if l_freed s then 1 else 0) ≤ 1 ∧
    (l_freed s = true ∨ 0 < claims s → l_refs s = 0 ∧ l_retired s = true) ∧
    (l_retired s = true → evictor s = EDone → l_refs s = 0 →
     to_retired s = 0 → to_refs s = 0 → to_exchange s = 0 → to_delete s = 0 → l_freed s = true)) ∨
  (acts l listed = Err UndefinedBehaviour ∧
   ∃ l1 a l2 s, l = l1 ++ a :: l2 ∧ acts l1 listed = Ok s ∧ l_freed s = true ∧ stale_access a).
Proof.
  destruct (acts_fault l listed listed_ok) as [?|[s E]]; [by right|left]. exists s. split; [done|].
  pose proof (acts_ok l listed s listed_ok E) as [Hc Hr Hsaw Hz Hcl Hf Ho].
  unfold claims in *. unfold saw_zero in Hz. split; [destruct (l_deleted s); lia|split].
  - intros Hor. destruct (l_freed s); [split; apply Hf|]. destruct Hor as [|Hpos]; [done|]. split.
    + apply Hz. destruct (evictor s); lia.
    + destruct (l_retired s); [done|]. destruct (evictor s); lia.
  - intros _ Hd Hrefs H1 H2 H3 H4. destruct (Ho Hd) as [|Hdel]; [lia|]. rewrite Hdel, Hd in Hcl.
    destruct (l_freed s); [done|lia].
Qed.

(** Eviction during a pin, then the last unpin. *)
Definition evicted_while_pinned : list Act := [Pin; Evict; Evict; Decrement; LoadRetired; LoadRefs; Exchange; Delete].

Lemma entry_freed_once_witness : ∃ s, acts evicted_while_pinned listed = Ok s ∧ l_freed s = true ∧ claims s = 0.
Proof.
  destruct (entry_freed_once evicted_while_pinned) as [(s & E & Hc & _)|[E _]]; [|discriminate E].
  exists s. split; [exact E|]. injection E as <-. by split.
Defined.

(** The last unpin of an entry that is being evicted: its decrement lets the
    evictor free the entry, and its load of [retired] reads freed memory. *)
Lemma unpin_after_free : acts [Pin; Decrement; Evict; Evict; Evict; Evict; LoadRetired] listed = Err UndefinedBehaviour.
Proof. reflexivity. Qed.

(** So does a second thread's exchange on [deleted]. *)
Lemma exchange_after_free :
  acts [Pin; Decrement; Evict; LoadRetired; LoadRefs; Evict; Evict; Evict; Exchange] listed = Err UndefinedBehaviour.
Proof. reflexivity. Qed.
