(* ===== verification/LeafCacheSafety.v ===== *)
(** * The leaf cache is memory safe, under any interleaving of its sections

    The invariant of a shard and its preservation by the operations the critical
    sections are made of: no freed entry or buffer is touched, no list is
    corrupted, an entry is freed only when nobody has it pinned and nothing leaks,
    and every entry's buffer holds the bytes of the file it was filled with.  The
    [unpin]s under way, which take no lock, are part of the state. *)
From S2P Require Import Prelude PageFile FrequencySketch LeafExtentCache.

(** ** Lists, pins, accounted bytes *)

Definition lists (s : Shard) : list Z :=
  seg_list (window s) ++ seg_list (probation s) ++ seg_list (protected_ s).

Lemma elem_lists a s : a ∈ lists s ↔ ∃ st, a ∈ seg_list (segment st s).
Proof.
  unfold lists. rewrite !elem_of_app. split.
  - intros [?|[?|?]]; [by exists WINDOW|by exists PROBATION|by exists PROTECTED].
  - intros [[] ?]; tauto.
Qed.

Lemma NoDup_segment st s : NoDup (lists s) → NoDup (seg_list (segment st s)).
Proof. unfold lists. rewrite !NoDup_app. destruct st; cbn; tauto. Qed.

Lemma filter_ne_perm (a : Z) l : NoDup l → a ∈ l → a :: filter (λ x, x ≠ a) l ≡ₚ l.
Proof.
  intros Hl Hal. apply NoDup_Permutation; [|done|].
  - apply NoDup_cons. split; [rewrite list_elem_of_filter; tauto|by apply NoDup_filter].
  - intros x. rewrite elem_of_cons, list_elem_of_filter. destruct (decide (x = a)) as [->|]; tauto.
Qed.

Lemma lists_unlink st a w n :
  NoDup (lists (shard w)) → a ∈ seg_list (segment st (shard w)) →
  a :: lists (shard (set_segment st w (mkSegment (filter (λ x, x ≠ a) (seg_list (segment st (shard w)))) n)))
    ≡ₚ lists (shard w).
Proof.
  intros Hnd Ha.
  pose proof (filter_ne_perm a _ (NoDup_segment st _ Hnd) Ha) as Hf. unfold lists. destruct st; cbn in *.
  - by rewrite app_comm_cons, Hf.
  - by rewrite Permutation_middle, app_comm_cons, Hf.
  - by rewrite Permutation_middle, Permutation_middle, Hf.
Qed.

Lemma lists_push st a w n :
  lists (shard (set_segment st w (mkSegment (a :: seg_list (segment st (shard w))) n))) ≡ₚ a :: lists (shard w).
Proof. unfold lists. destruct st; cbn; [done|..]; by rewrite <- ?app_comm_cons, <- !Permutation_middle. Qed.

Lemma segment_set_segment st st' w g :
  segment st' (shard (set_segment st w g)) = if decide (st' = st) then g else segment st' (shard w).
Proof. by destruct st, st'. Qed.

(** The pins held on an entry. *)
Definition pin_count (a : Z) (pins : list Z) : Z := Z.of_nat (length (filter (λ x, x = a) pins)).

Lemma pin_count_cons a b pins : pin_count a (b :: pins) = (if decide (b = a) then 1 else 0) + pin_count a pins.
Proof. unfold pin_count. rewrite filter_cons. by case_decide; cbn [length]; lia. Qed.

Lemma pin_count_Permutation a pins pins' : pins ≡ₚ pins' → pin_count a pins = pin_count a pins'.
Proof. intros Hp. unfold pin_count. by rewrite Hp. Qed.

Lemma pin_count_pos a pins : 0 < pin_count a pins ↔ a ∈ pins.
Proof.
  unfold pin_count. split.
  - intros Hp. destruct (filter (λ x, x = a) pins) as [|b l] eqn:E; [cbn in Hp; lia|].
    assert (b ∈ filter (λ x, x = a) pins) as Hb by (rewrite E; left).
    by apply list_elem_of_filter in Hb as [-> ?].
  - intros Ha. assert (a ∈ filter (λ x, x = a) pins) as Hb by by apply list_elem_of_filter.
    destruct (filter (λ x, x = a) pins); [by apply not_elem_of_nil in Hb|cbn; lia].
Qed.

Lemma pin_count_zero a pins : pin_count a pins = 0 ↔ a ∉ pins.
Proof. rewrite <- pin_count_pos. assert (0 ≤ pin_count a pins) by (unfold pin_count; lia). lia. Qed.

Lemma pin_count_le a pins : 0 ≤ pin_count a pins ≤ Z.of_nat (length pins).
Proof. unfold pin_count. pose proof (length_filter (λ x, x = a) pins). lia. Qed.

(** The bytes of the entries of a list. *)
Definition size_of (w : World) (a : Z) : Z := match entries (heap w) !! a with Some e => esize e | None => 0 end.
Lemma size_of_entry w a e : entries (heap w) !! a = Some e → size_of w a = esize e.
Proof. unfold size_of. by intros ->. Qed.

Fixpoint sum_of (f : Z → Z) (l : list Z) : Z := match l with [] => 0 | a :: l => f a + sum_of f l end.
Abbreviation total w := (sum_of (size_of w)).
Definition bytes_ok (w : World) : Prop :=
  ∀ st, seg_bytes (segment st (shard w)) = u64 (total w (seg_list (segment st (shard w)))).

Lemma total_Permutation w l l' : l ≡ₚ l' → total w l = total w l'.
Proof. induction 1; cbn; lia. Qed.

Lemma total_ext w w' l : (∀ a, a ∈ l → size_of w' a = size_of w a) → total w' l = total w l.
Proof.
  induction l as [|a l IH]; intros Hs; [done|]. cbn. rewrite (Hs a) by left.
  rewrite IH; [done|]. intros b Hb. apply Hs. by right.
Qed.

Section state.
Context (file : list Z).
(** Whether the accounted bytes are those of the lists. *)
Context (exact : Prop).
(** The [unpin]s under way, past their decrement: the access each makes next. *)
Context {unpins : list (UnpinAt * Z)}.

(** Those that have claimed the deletion of their entry. *)
Definition claims (u : list (UnpinAt * Z)) : list (UnpinAt * Z) := filter (λ p, p.1 = AtDelete) u.

(** What the accesses an [unpin] has made tell of the entry it is about. *)
Definition stage_ok (st : UnpinAt) (e : Entry) : Prop :=
  match st with
  | AtDecrement => False
  | AtRetired => True
  | AtRefs => retired e = true
  | AtExchange => retired e = true ∧ refs e = 0
  | AtDelete => retired e = true ∧ refs e = 0 ∧ deleted e = true
  end.

(** The buffer of an entry holds the pages it was filled with. *)
Record filled (bufs : gmap Z (list Z)) (e : Entry) : Prop := {
  fi_page : 0 ≤ page e;
  fi_cap : 0 ≤ buf_cap e;
  fi_file : (page e * kPageSize + buf_cap e ≤ Z.of_nat (length file))%Z;
  fi_bytes : ∃ bytes, bufs !! data e = Some bytes ∧
    take (Z.to_nat (buf_cap e)) bytes = bytes_at file (Z.to_nat (page e * kPageSize)) (Z.to_nat (buf_cap e));
}.

(** An allocated entry: [reach] are the entries the shard or a section still reaches;
    a retired one has been pinned, or an [unpin] of it is under way. *)
Record entry_ok (bufs : gmap Z (list Z)) (pins reach : list Z) (a : Z) (e : Entry) : Prop := {
  eo_deleted : deleted e = true → (AtDelete, a) ∈ unpins;
  eo_refs : refs e = pin_count a pins;
  eo_key : page e ∈ keys e;
  eo_keys k : k ∈ keys e → page e ≤ k;
  eo_filled : filled bufs e;
  eo_reach : if retired e then (0 < refs e ∨ ∃ st, (st, a) ∈ unpins) ∧ ¬ a ∈ reach else a ∈ reach;
}.

(** The invariant of a shard: [pins] are the pins held, [hand] the entries a
    section has taken from a list, [loose] the fills not yet inserted, [sp] the
    buffers a section holds. *)
Record cache_ok (sp : list Z) (w : World) (pins hand loose : list Z) : Prop := {
  ck_nodup : NoDup (lists (shard w) ++ hand ++ loose);
  ck_live a : a ∈ lists (shard w) ++ hand ++ loose → is_Some (entries (heap w) !! a);
  ck_status st a e : a ∈ seg_list (segment st (shard w)) → entries (heap w) !! a = Some e → status e = st;
  ck_entries a e : entries (heap w) !! a = Some e →
    entry_ok (buffers (heap w)) pins (lists (shard w) ++ hand ++ loose) a e;
  ck_pins a : a ∈ pins → is_Some (entries (heap w) !! a) ∧ a ∉ loose;
  ck_few : Z.of_nat (length pins) < 2 ^ 32;
  ck_map k a : sh_map (shard w) !! k = Some a →
    a ∈ lists (shard w) ++ hand ∧ ∃ e, entries (heap w) !! a = Some e ∧ k ∈ keys e;
  ck_inj a a' e e' : entries (heap w) !! a = Some e → entries (heap w) !! a' = Some e' →
    data e = data e' → a = a';
  ck_pool : NoDup (sp ++ (buf_pool (shard w)).*1);
  ck_spare b : b ∈ sp → ∀ a e, entries (heap w) !! a = Some e → data e ≠ b;
  ck_owned b x : buffers (heap w) !! b = Some x →
    b ∈ sp ++ (buf_pool (shard w)).*1 ∨ ∃ a e, entries (heap w) !! a = Some e ∧ data e = b;
  ck_pool_free b c : (b, c) ∈ buf_pool (shard w) →
    (∃ bytes, buffers (heap w) !! b = Some bytes ∧ c ≤ Z.of_nat (length bytes)) ∧
    ∀ a e, entries (heap w) !! a = Some e → data e ≠ b;
  ck_fresh a e : entries (heap w) !! a = Some e → a < next_addr (heap w);
  ck_fresh_buf b x : buffers (heap w) !! b = Some x → b < next_addr (heap w);
  ck_sketch : table_ (sketch (shard w)) = None ∨ ∃ t, sketch_ok (sketch (shard w)) t;
  ck_bytes : exact → bytes_ok w;
  ck_unpins st a : (st, a) ∈ unpins → a < next_addr (heap w) ∧
    match entries (heap w) !! a with Some e => stage_ok st e | None => st ≠ AtDelete ∧ st ≠ AtDecrement end;
  ck_claims : NoDup (claims unpins);
}.
End state.

Section cache.
Context (file : list Z) (exact : Prop) {unpins : list (UnpinAt * Z)}.
Local Abbreviation filled := (filled file).
Local Abbreviation entry_ok := (entry_ok file (unpins := unpins)).
(** The invariant with other [unpin]s under way. *)
Local Abbreviation cache_ok_with u := (cache_ok file exact (unpins := u)).
Local Abbreviation cache_ok := (cache_ok_with unpins).

(** An entry stays what it is: only its status, keys, pins and flags change. *)
Definition same_entry (e e' : Entry) : Prop :=
  page e' = page e ∧ esize e' = esize e ∧ data e' = data e ∧ buf_cap e' = buf_cap e.

(** [w'] follows [w]: no address is used twice, budgets are fixed. *)
Record follows (w w' : World) : Prop := {
  fo_next : next_addr (heap w) ≤ next_addr (heap w');
  fo_entries a e' : entries (heap w') !! a = Some e' → a < next_addr (heap w) →
    ∃ e, entries (heap w) !! a = Some e ∧ same_entry e e';
  fo_limits : limits (shard w') = limits (shard w);
}.

Lemma follows_refl w : follows w w.
Proof. split; [done| |done]. intros a e E _. by exists e. Qed.

Lemma follows_trans w1 w2 w3 : follows w1 w2 → follows w2 w3 → follows w1 w3.
Proof.
  intros [N1 E1 L1] [N2 E2 L2]. split; [lia| |congruence]. intros a e3 E Ha.
  destruct (E2 a e3 E ltac:(lia)) as (e2 & Q2 & ? & ? & ? & ?).
  destruct (E1 a e2 Q2 Ha) as (e1 & Q1 & ? & ? & ? & ?). exists e1. split; [done|]. split_and!; congruence.
Qed.

#[export] Instance follows_preorder : PreOrder follows.
Proof. split; [intros w; apply follows_refl|intros w1 w2 w3; apply follows_trans]. Qed.

Lemma ck_nodup_lists sp w pins hand loose : cache_ok sp w pins hand loose → NoDup (lists (shard w)).
Proof. intros Hc. pose proof (ck_nodup _ _ _ _ _ _ _ Hc) as Hn. rewrite NoDup_app in Hn. tauto. Qed.

(** A listed, taken or loose entry can be read. *)
Lemma entry_at_live sp w pins hand loose a :
  cache_ok sp w pins hand loose → a ∈ lists (shard w) ++ hand ++ loose →
  ∃ e, entries (heap w) !! a = Some e ∧ entry_at w a = Ok e ∧ retired e = false ∧
    entry_ok (buffers (heap w)) pins (lists (shard w) ++ hand ++ loose) a e.
Proof.
  intros Hc Ha. destruct (ck_live _ _ _ _ _ _ _ Hc a Ha) as [e E]. exists e.
  pose proof (ck_entries _ _ _ _ _ _ _ Hc a e E) as He. unfold entry_at. rewrite E.
  split_and!; try done. pose proof (eo_reach _ _ _ _ _ _ He) as Hr. destruct (retired e); [by destruct Hr|done].
Qed.

Lemma live_listed sp w pins hand loose st a :
  cache_ok sp w pins hand loose → a ∈ seg_list (segment st (shard w)) → a ∈ lists (shard w) ++ hand ++ loose.
Proof. intros _ Ha. apply elem_of_app. left. apply elem_lists. by exists st. Qed.

#[export] Instance entry_ok_perm bufs : Proper (Permutation ==> Permutation ==> eq ==> eq ==> iff) (entry_ok bufs).
Proof.
  intros pins pins' Hp reach reach' Hr ? a -> ? e ->. pose proof (pin_count_Permutation a _ _ Hp) as Hc.
  split; intros [? ? ? ? ? Hreach]; split; try done; destruct (retired e); rewrite ?Hr in *; try congruence; done.
Qed.

(** *** Reordering what a section holds *)

Lemma cache_ok_perm sp w pins pins' hand hand' loose loose' :
  pins ≡ₚ pins' → hand ≡ₚ hand' → loose ≡ₚ loose' →
  cache_ok sp w pins hand loose → cache_ok sp w pins' hand' loose'.
Proof.
  intros Hp Hh Hl [? ? ? Hen Hpi ? Hm ? ? ? ? ? ? ? ? ?]. split; try done.
  - by rewrite <- Hh, <- Hl.
  - intros a. rewrite <- Hh, <- Hl. auto.
  - intros a e E. rewrite <- Hp, <- Hh, <- Hl. by apply Hen.
  - intros a. rewrite <- Hp, <- Hl. auto.
  - by rewrite <- Hp.
  - intros k a. rewrite <- Hh. auto.
Qed.

Lemma cache_ok_unpins_perm u u' sp w pins hand loose :
  u ≡ₚ u' → cache_ok_with u sp w pins hand loose → cache_ok_with u' sp w pins hand loose.
Proof.
  intros Hu [? ? ? Hen ? ? ? ? ? ? ? ? ? ? ? ? Hun Hcl]. split; try done.
  - intros a e E. destruct (Hen a e E) as [Hd ? ? ? ? Hr]. split; try done; [by rewrite <- Hu|].
    destruct (retired e); [|done]. destruct Hr as [[?|[st ?]] ?]; (split; [|done]); [by left|right].
    exists st. by rewrite <- Hu.
  - intros st a. rewrite <- Hu. apply Hun.
  - unfold claims. by rewrite <- Hu.
Qed.

(** *** Segments *)

Lemma bytes_ok_update st w w' l n :
  seg_list (segment st (shard w')) = l → seg_bytes (segment st (shard w')) = n →
  (∀ st', st' ≠ st → segment st' (shard w') = segment st' (shard w)) →
  (∀ a, size_of w' a = size_of w a) → bytes_ok w → n = u64 (total w l) → bytes_ok w'.
Proof.
  intros Hl Hn Ho Hs Hb E st'. destruct (decide (st' = st)) as [-> | Hst].
  - rewrite Hl, Hn, E. f_equal. symmetry. by apply total_ext.
  - rewrite (Ho st' Hst), (Hb st'). f_equal. symmetry. by apply total_ext.
Qed.

(** The other segments, the entries and the map are as they were. *)
Lemma seg_unlink_ok sp w pins hand loose st a e :
  cache_ok sp w pins hand loose → a ∈ seg_list (segment st (shard w)) → entries (heap w) !! a = Some e →
  ∃ n, let w' := set_segment st w (mkSegment (filter (λ x, x ≠ a) (seg_list (segment st (shard w)))) n) in
    seg_unlink st a (esize e) w = Ok w' ∧ cache_ok sp w' pins (a :: hand) loose.
Proof.
  intros Hc Ha E. pose proof (ck_nodup_lists _ _ _ _ _ Hc) as Hnd.
  exists (u64 (seg_bytes (segment st (shard w)) - esize e)). cbn zeta. unfold seg_unlink, unlink.
  rewrite bool_decide_true by done. split; [done|].
  set (n := u64 _). set (l := filter _ _). set (w' := set_segment _ _ _).
  assert (a :: lists (shard w') ≡ₚ lists (shard w)) as Hp by by apply lists_unlink.
  assert (lists (shard w') ++ (a :: hand) ++ loose ≡ₚ lists (shard w) ++ hand ++ loose) as Hall.
  { rewrite <- Hp, <- app_comm_cons. by rewrite <- Permutation_middle. }
  assert (heap w' = heap w) as Hh by by destruct st.
  assert (sh_map (shard w') = sh_map (shard w) ∧ buf_pool (shard w') = buf_pool (shard w) ∧
    sketch (shard w') = sketch (shard w)) as (Hm & Hpool & Hsk) by by destruct st.
  destruct Hc as [? Hl Hst Hen ? ? Hmap ? ? ? ? ? ? ? ? Hb].
  split; rewrite ?Hh, ?Hm, ?Hpool, ?Hsk; try done.
  - by rewrite Hall.
  - intros b. rewrite Hall. auto.
  - intros st' b eb. unfold w'. rewrite segment_set_segment. case_decide as Hs; [subst st'|by apply Hst].
    cbn [seg_list]. unfold l. rewrite list_elem_of_filter. intros [_ Hin]. by apply Hst.
  - intros b eb Eb. rewrite Hall. by apply Hen.
  - intros k b Hk. destruct (Hmap k b Hk) as [Hin ?]. split; [|done].
    by rewrite <- Hp, <- app_comm_cons, Permutation_middle in Hin.
  - intros Hex. apply (bytes_ok_update st w w' l n); try done.
    + unfold w'. by rewrite segment_set_segment, decide_True.
    + unfold w'. by rewrite segment_set_segment, decide_True.
    + intros st' Hs. unfold w'. by rewrite segment_set_segment, decide_False.
    + by apply Hb.
    + unfold n. rewrite (Hb Hex st). unfold u64. rewrite Zminus_mod_idemp_l. f_equal.
      rewrite <- (total_Permutation w _ _ (filter_ne_perm a _ (NoDup_segment st _ Hnd) Ha)).
      cbn [sum_of]. rewrite (size_of_entry w a e E). fold l. lia.
Qed.

(** Pushing an entry a section holds. *)
Lemma seg_pushed_ok sp w pins hand loose st a e :
  cache_ok sp w pins (a :: hand) loose → entries (heap w) !! a = Some e → status e = st →
  cache_ok sp (set_segment st w (mkSegment (a :: seg_list (segment st (shard w)))
    (u64 (seg_bytes (segment st (shard w)) + esize e)))) pins hand loose.
Proof.
  intros Hc E Hste. set (n := u64 _). set (w' := set_segment _ _ _).
  assert (lists (shard w') ≡ₚ a :: lists (shard w)) as Hp by apply lists_push.
  assert (lists (shard w') ++ hand ++ loose ≡ₚ lists (shard w) ++ (a :: hand) ++ loose) as Hall.
  { rewrite Hp, <- !app_comm_cons. by rewrite <- Permutation_middle. }
  assert (heap w' = heap w) as Hh by by destruct st.
  assert (sh_map (shard w') = sh_map (shard w) ∧ buf_pool (shard w') = buf_pool (shard w) ∧
    sketch (shard w') = sketch (shard w)) as (Hm & Hpool & Hsk) by by destruct st.
  destruct Hc as [? Hl Hst Hen ? ? Hmap ? ? ? ? ? ? ? ? Hb].
  split; rewrite ?Hh, ?Hm, ?Hpool, ?Hsk; try done.
  - by rewrite Hall.
  - intros b. rewrite Hall. auto.
  - intros st' b eb. unfold w'. rewrite segment_set_segment. case_decide as Hs; [subst st'|by apply Hst].
    cbn [seg_list]. rewrite elem_of_cons. intros [-> | Hin]; [congruence|by apply Hst].
  - intros b eb Eb. rewrite Hall. by apply Hen.
  - intros k b Hk. destruct (Hmap k b Hk) as [Hin ?]. split; [|done].
    by rewrite Hp, <- app_comm_cons, Permutation_middle.
  - intros Hex. apply (bytes_ok_update st w w' (a :: seg_list (segment st (shard w))) n); try done.
    + unfold w'. by rewrite segment_set_segment, decide_True.
    + unfold w'. by rewrite segment_set_segment, decide_True.
    + intros st' Hs. unfold w'. by rewrite segment_set_segment, decide_False.
    + by apply Hb.
    + unfold n. rewrite (Hb Hex st). unfold u64. rewrite Zplus_mod_idemp_l. f_equal.
      cbn [sum_of]. rewrite (size_of_entry w a e E). lia.
Qed.

(** *** Entries *)

Lemma set_entry_follows w a e e' :
  entries (heap w) !! a = Some e → same_entry e e' → follows w (set_entry a e' w).
Proof.
  intros E Hs. split; [done| |done]. intros b eb. cbn. destruct (decide (a = b)) as [<- | Hab].
  - rewrite lookup_insert_eq. intros [= <-] _. by exists e.
  - rewrite lookup_insert_ne by done. intros Eb _. by exists eb.
Qed.

(** The [unpin]s of other entries are where they were. *)
Definition same_unpins (a : Z) (u' : list (UnpinAt * Z)) : Prop :=
  NoDup (claims u') ∧ ∀ st b, b ≠ a → (st, b) ∈ u' ↔ (st, b) ∈ unpins.

(** An entry changes, with the pins of it and the [unpin]s of it. *)
Lemma update_entry_ok u' sp w pins pins' hand loose a e e' :
  cache_ok sp w pins hand loose → entries (heap w) !! a = Some e → same_entry e e' → same_unpins a u' →
  (deleted e' = true → (AtDelete, a) ∈ u') → (∀ st, (st, a) ∈ u' → stage_ok st e') → retired e' = retired e →
  (∀ k, k ∈ keys e → k ∈ keys e') → (∀ k, k ∈ keys e' → page e ≤ k) →
  refs e' = pin_count a pins' → (∀ b, b ≠ a → pin_count b pins' = pin_count b pins) →
  Z.of_nat (length pins') < 2 ^ 32 → (retired e = true → 0 < refs e' ∨ ∃ st, (st, a) ∈ u') → (a ∈ pins' → a ∉ loose) →
  (a ∈ lists (shard w) → status e' = status e) →
  cache_ok_with u' sp (set_entry a e' w) pins' hand loose.
Proof.
  intros [? Hl Hst Hen Hpi ? Hmap Hinj ? Hsp Hown Hpool Hfr ? ? Hb Hun _] E (Hpg & Hsz & Hd & Hcap) [Hcl Hu] Hdel Hstage Hret Hk Hk' Hrefs Hoth ? Hr Ha Hstat.
  assert (∀ b, is_Some (entries (heap w) !! b) → is_Some (<[a := e']> (entries (heap w)) !! b)) as Hsome.
  { intros b ?. destruct (decide (a = b)) as [<- | Hab]; [by rewrite lookup_insert_eq|by rewrite lookup_insert_ne]. }
  assert (∀ b eb, <[a := e']> (entries (heap w)) !! b = Some eb →
    ∃ eb0, entries (heap w) !! b = Some eb0 ∧ data eb = data eb0) as Hold.
  { intros b eb. destruct (decide (a = b)) as [<- | Hab].
    - rewrite lookup_insert_eq. intros [= <-]. by exists e.
    - rewrite lookup_insert_ne by done. intros Eb. by exists eb. }
  pose proof (Hen a e E) as [? ? ? ? [? ? ? ?] Hre].
  split; cbn [heap shard set_entry set_entries entries buffers next_addr]; try done.
  - auto.
  - intros st b eb Hin. destruct (decide (a = b)) as [<- | Hab].
    + rewrite lookup_insert_eq. intros [= <-]. rewrite Hstat; [by apply (Hst st a e)|]. apply elem_lists. by exists st.
    + rewrite lookup_insert_ne by done. by apply Hst.
  - intros b eb. destruct (decide (a = b)) as [<- | Hab].
    + rewrite lookup_insert_eq. intros [= <-]. split; rewrite ?Hpg, ?Hret; auto.
      * split; rewrite ?Hpg, ?Hcap, ?Hd; auto.
      * destruct (retired e); [|done]. split; [auto|tauto].
    + rewrite lookup_insert_ne by done. intros Eb. destruct (Hen b eb Eb) as [? ? ? ? ? Hre'].
      assert (b ≠ a) as Hba by done. split; try done.
      * intros Hdb. apply Hu; auto.
      * by rewrite Hoth.
      * destruct (retired eb); [|done]. destruct Hre' as [[?|[st' ?]] ?]; (split; [|done]); [by left|].
        right. exists st'. by apply Hu.
  - intros b Hb'. destruct (decide (b = a)) as [-> | Hab]; [split; [apply Hsome; by exists e|auto]|].
    destruct (Hpi b) as [? ?]; [|auto]. apply pin_count_pos. rewrite <- Hoth by done. by apply pin_count_pos.
  - intros k b Hkb. destruct (Hmap k b Hkb) as (? & eb & Eb & Hin). split; [done|].
    destruct (decide (a = b)) as [<- | Hab]; [|exists eb; by rewrite lookup_insert_ne].
    exists e'. rewrite lookup_insert_eq. split; [done|]. apply Hk. congruence.
  - intros b b' eb eb' Eb Eb'. destruct (Hold b eb Eb) as (? & ? & ->), (Hold b' eb' Eb') as (? & ? & ->). by eapply Hinj.
  - intros b Hb' x ex Ex. destruct (Hold x ex Ex) as (? & ? & ->). by eapply Hsp.
  - intros b x Eb. destruct (Hown b x Eb) as [? | (y & ey & Ey & <-)]; [by left|right].
    destruct (decide (a = y)) as [<- | Hay]; [|exists y, ey; by rewrite lookup_insert_ne].
    exists a, e'. rewrite lookup_insert_eq. split; [done|]. congruence.
  - intros b c Hin. destruct (Hpool b c Hin) as [? Hne]. split; [done|].
    intros x ex Ex. destruct (Hold x ex Ex) as (? & ? & ->). by eapply Hne.
  - intros b eb Eb. destruct (Hold b eb Eb) as (? & ? & _). by eapply Hfr.
  - intros Hex st. etransitivity; [apply (Hb Hex st)|]. f_equal. symmetry. apply total_ext. intros b _. unfold size_of. cbn.
    destruct (decide (a = b)) as [<- | Hab]; [by rewrite lookup_insert_eq, E|by rewrite lookup_insert_ne].
  - intros st b Hin. destruct (decide (a = b)) as [<- | Hab].
    + rewrite lookup_insert_eq. split; [by eapply Hfr|by apply Hstage].
    + rewrite lookup_insert_ne by done. apply Hun, Hu; [by apply not_eq_sym|done].
Qed.

(** No [unpin] of an entry that is not retired gets past the load of [retired]. *)
Lemma unretired sp w pins hand loose a e :
  cache_ok sp w pins hand loose → entries (heap w) !! a = Some e → retired e = false →
  deleted e = false ∧ ∀ st, (st, a) ∈ unpins → st = AtRetired.
Proof.
  intros Hc E Hr.
  assert (∀ st, (st, a) ∈ unpins → st = AtRetired) as Hu.
  { intros st [_ Hs]%(ck_unpins _ _ _ _ _ _ _ Hc). rewrite E in Hs. destruct st; cbn in Hs; try done; try congruence; destruct Hs; congruence. }
  split; [|done]. destruct (deleted e) eqn:Hd; [|done].
  by specialize (Hu _ (eo_deleted _ _ _ _ _ _ (ck_entries _ _ _ _ _ _ _ Hc a e E) Hd)).
Qed.

(** The pins, keys or status of an entry that is not retired change. *)
Lemma set_entry_ok sp w pins pins' hand loose a e e' :
  cache_ok sp w pins hand loose → entries (heap w) !! a = Some e → same_entry e e' →
  deleted e' = deleted e → retired e' = retired e →
  (∀ k, k ∈ keys e → k ∈ keys e') → (∀ k, k ∈ keys e' → page e ≤ k) →
  refs e' = pin_count a pins' → (∀ b, b ≠ a → pin_count b pins' = pin_count b pins) →
  Z.of_nat (length pins') < 2 ^ 32 → retired e = false → (a ∈ pins' → a ∉ loose) →
  (a ∈ lists (shard w) → status e' = status e) →
  cache_ok sp (set_entry a e' w) pins' hand loose.
Proof.
  intros Hc E Hs Hd Hr Hk Hk' Hn Hoth Hfew Hret Ha Hst. destruct (unretired _ _ _ _ _ _ _ Hc E Hret) as [Hdel Hu].
  apply (update_entry_ok unpins sp w pins pins' hand loose a e e'); try done; try congruence.
  - split; [by apply (ck_claims _ _ _ _ _ _ _ Hc)|done].
  - intros st Hin. by rewrite (Hu st Hin).
Qed.

(** The segment pushed to and the entry change; the map does not. *)
Lemma seg_push_ok sp w pins hand loose st a :
  cache_ok sp w pins (a :: hand) loose →
  ∃ w' n, seg_push st a w = Ok w' ∧ cache_ok sp w' pins hand loose ∧ follows w w' ∧
    (∀ st', segment st' (shard w') =
      if decide (st' = st) then mkSegment (a :: seg_list (segment st (shard w))) n else segment st' (shard w)) ∧
    ∀ e, entries (heap w) !! a = Some e → entries (heap w') !! a = Some (with_status e st).
Proof.
  intros Hc. destruct (entry_at_live sp w pins (a :: hand) loose a Hc) as (e & E & Ea & Hr & He).
  { rewrite !elem_of_app. right. left. left. }
  unfold seg_push. rewrite Ea, bind_Ok. eexists _, _. split; [done|].
  set (w1 := set_entry _ _ w).
  assert (cache_ok sp w1 pins (a :: hand) loose) as Hc1.
  { apply (set_entry_ok sp w pins pins (a :: hand) loose a e); try done; try apply He; [by apply (ck_few _ _ _ _ _ _ _ Hc)| |].
    - intros Hp. by apply (ck_pins _ _ _ _ _ _ _ Hc).
    - intros Hl. exfalso. pose proof (ck_nodup _ _ _ _ _ _ _ Hc) as Hn. rewrite NoDup_app in Hn.
      destruct Hn as (_ & Hn & _). apply (Hn a Hl). left. }
  split; [|split; [|split]].
  - apply (seg_pushed_ok sp w1 pins hand loose st a (with_status e st)); [done| |done].
    unfold w1. cbn. by rewrite lookup_insert_eq.
  - transitivity w1; [by apply (set_entry_follows w a e)|]. split; [by destruct st| |by destruct st].
    intros b eb Eb _. exists eb. split; [|done]. by destruct st.
  - intros st'. rewrite segment_set_segment. by destruct (decide (st' = st)).
  - intros e' E'. assert (e' = e) as -> by congruence. destruct st; cbn; by rewrite lookup_insert_eq.
Qed.

(** *** The map *)

Lemma set_map_ok sp w pins hand loose m :
  cache_ok sp w pins hand loose → (∀ k a, m !! k = Some a → sh_map (shard w) !! k = Some a) →
  cache_ok sp (set_map w m) pins hand loose.
Proof. intros [] Hm. split; try done. intros k a Hk. apply Hm in Hk. auto. Qed.

Lemma erase_fold (a : Z) ks (m : gmap Z Z) k b :
  foldl (λ m k, if bool_decide (m !! k = Some a) then delete k m else m) m ks !! k = Some b ↔
  m !! k = Some b ∧ (b = a → k ∉ ks).
Proof.
  revert m. induction ks as [|k' ks IH]; intros m; cbn [foldl]; [rewrite elem_of_nil; tauto|].
  rewrite IH, not_elem_of_cons. destruct (decide (m !! k' = Some a)) as [E|E].
  - rewrite bool_decide_true by done. destruct (decide (k' = k)) as [<- | Hk].
    + rewrite lookup_delete_eq, E. split; [by intros [? _]|]. intros [[= ->] Hn]. by destruct (Hn eq_refl).
    + rewrite lookup_delete_ne by done. split; intros [? Hn]; split; try done; intros ->; [split; [done|auto]|].
      by apply Hn.
  - rewrite bool_decide_false by done. split; intros [? Hn]; (split; [done|]); intros ->; [|by apply Hn].
    split; [|auto]. intros ->. done.
Qed.

(** Afterwards no key points at the entry. *)
Lemma erase_keys_ok sp w pins hand loose a e :
  cache_ok sp w pins hand loose → entries (heap w) !! a = Some e →
  ∃ m, erase_keys a w = Ok (set_map w m) ∧ cache_ok sp (set_map w m) pins hand loose ∧
    ∀ k b, m !! k = Some b ↔ sh_map (shard w) !! k = Some b ∧ b ≠ a.
Proof.
  intros Hc E. unfold erase_keys, entry_at. rewrite E. eexists. split; [done|].
  set (m := foldl _ _ _).
  assert (∀ k b, m !! k = Some b ↔ sh_map (shard w) !! k = Some b ∧ b ≠ a) as Hm.
  { intros k b. unfold m. rewrite erase_fold. split; intros [Hk Hn]; (split; [done|]); [|done].
    intros ->. apply Hn; [done|]. destruct (ck_map _ _ _ _ _ _ _ Hc k a Hk) as (_ & e' & E' & ?). congruence. }
  split; [|done]. apply set_map_ok; [done|]. intros k b Hk. by apply Hm.
Qed.

(** *** Buffers *)

Lemma filled_delete bufs b e : filled bufs e → data e ≠ b → filled (delete b bufs) e.
Proof. intros [? ? ? (bytes & E & ?)] Hne. split; try done. exists bytes. by rewrite lookup_delete_ne. Qed.

(** A buffer a section holds goes to the pool or is freed. *)
Lemma release_buf_ok u sp w pins hand loose b cap bytes :
  cache_ok_with u (b :: sp) w pins hand loose → buffers (heap w) !! b = Some bytes → cap ≤ Z.of_nat (length bytes) →
  cache_ok_with u sp (release_buf b cap w) pins hand loose.
Proof.
  intros [Hnd ? ? Hen ? ? ? ? Hpool Hsp Hown Hfree ? Hfb ? ?] Hb Hcap.
  assert (NoDup (sp ++ (buf_pool (shard w)).*1) ∧ b ∉ sp ++ (buf_pool (shard w)).*1) as [Hnd' Hnb].
  { cbn in Hpool. apply NoDup_cons in Hpool. tauto. }
  unfold release_buf. destruct (_ <=? _).
  - assert (b :: sp ++ (buf_pool (shard w)).*1 ≡ₚ sp ++ (buf_pool (shard w) ++ [(b, cap)]).*1) as Hp.
    { rewrite fmap_app, app_assoc. cbn. apply Permutation_cons_append. }
    split; cbn; try done.
    + by rewrite <- Hp.
    + intros x Hx. apply Hsp. by right.
    + intros x y Hx. rewrite <- Hp. by apply (Hown x y).
    + intros x c. rewrite elem_of_app, list_elem_of_singleton. intros [Hin | [= -> ->]]; [by apply Hfree|].
      split; [by exists bytes|]. apply Hsp. left.
  - split; cbn; try done.
    + intros a e E. destruct (Hen a e E) as [? ? ? ? ? ?]. split; try done. apply filled_delete; [done|].
      apply (Hsp b) with (a := a); [left|done].
    + intros x Hx. apply Hsp. by right.
    + intros x y. rewrite lookup_delete_Some. intros [Hne Hx]. destruct (Hown x y Hx) as [Hin|?]; [left|by right].
      cbn in Hin. apply elem_of_cons in Hin as [-> |?]; [done|done].
    + intros x c Hin. destruct (Hfree x c Hin) as [(bs & E & ?) ?]. split; [|done]. exists bs.
      rewrite lookup_delete_ne; [done|]. intros ->. apply Hnb. rewrite elem_of_app, list_elem_of_fmap.
      right. by exists (x, c).
    + intros x y. rewrite lookup_delete_Some. intros [_ ?]. by eapply Hfb.
Qed.

Lemma release_buf_frame b cap w :
  (∀ st, segment st (shard (release_buf b cap w)) = segment st (shard w)) ∧
  sh_map (shard (release_buf b cap w)) = sh_map (shard w) ∧
  (∀ m, release_buf b cap (set_entries w m) = set_entries (release_buf b cap w) m) ∧
  entries (heap (release_buf b cap w)) = entries (heap w) ∧ follows w (release_buf b cap w).
Proof.
  assert (∀ w', next_addr (heap w') = next_addr (heap w) → entries (heap w') = entries (heap w) →
    limits (shard w') = limits (shard w) → follows w w') as Hf.
  { intros w' N E L. split; [lia| |done]. intros a e. rewrite E. intros Ea _. by exists e. }
  unfold release_buf. cbn [shard heap set_entries]. destruct (_ <=? _); split_and!; try done; try by (intros []).
  all: by apply Hf.
Qed.

(** *** Dropping an entry *)

Lemma no_longer_reached sp w pins a hand loose b :
  cache_ok sp w pins (a :: hand) loose →
  b ∈ lists (shard w) ++ hand ++ loose ↔ b ∈ lists (shard w) ++ (a :: hand) ++ loose ∧ b ≠ a.
Proof.
  intros Hc. pose proof (ck_nodup _ _ _ _ _ _ _ Hc) as Hn.
  assert (lists (shard w) ++ (a :: hand) ++ loose ≡ₚ a :: lists (shard w) ++ hand ++ loose) as Hp.
  { rewrite <- app_comm_cons. by rewrite <- Permutation_middle. }
  rewrite Hp in Hn |- *. apply NoDup_cons in Hn as [Hn _]. rewrite elem_of_cons. split; [|tauto].
  intros Hb. split; [by right|]. by intros ->.
Qed.

Lemma retire_ok sp w pins hand loose a e :
  cache_ok sp w pins (a :: hand) loose → entries (heap w) !! a = Some e →
  (∀ k, sh_map (shard w) !! k ≠ Some a) → refs e ≠ 0 →
  cache_ok sp (set_entry a (with_retired e) w) pins hand loose.
Proof.
  intros Hc E Hk Hr. pose proof (no_longer_reached sp w pins a hand loose) as Hreach.
  destruct (entry_at_live sp w pins (a :: hand) loose a Hc) as (e0 & E0 & _ & Hret & _).
  { rewrite !elem_of_app. right. left. left. }
  assert (e0 = e) as -> by congruence. destruct (unretired _ _ _ _ _ _ _ Hc E Hret) as [Hdel Hu]. clear E0.
  assert (∀ b eb, <[a := with_retired e]> (entries (heap w)) !! b = Some eb →
    ∃ eb0, entries (heap w) !! b = Some eb0 ∧ data eb = data eb0) as Hdata.
  { intros b eb. destruct (decide (a = b)) as [<- | Hab].
    - rewrite lookup_insert_eq. intros [= <-]. by exists e.
    - rewrite lookup_insert_ne by done. intros Eb. by exists eb. }
  assert (∀ b, b ∈ lists (shard w) ++ hand ++ loose → a ≠ b ∧ b ∈ lists (shard w) ++ (a :: hand) ++ loose) as Hold.
  { intros b Hb. apply (Hreach b) in Hb as [??]; [by split|done]. }
  assert (a ∉ lists (shard w) ++ hand ++ loose) as Hna by (intros Hb; by apply Hold in Hb as [? _]).
  specialize (λ b, Hreach b Hc).
  destruct Hc as [Hnd Hl Hst Hen Hpi ? Hmap Hinj ? Hsp Hown Hpool Hfr ? ? Hb Hun ?].
  split; cbn [heap shard set_entry set_entries entries buffers next_addr]; try done.
  - rewrite <- app_comm_cons in Hnd. rewrite <- Permutation_middle in Hnd. by apply NoDup_cons in Hnd as [_ ?].
  - intros b Hb'. destruct (Hold b Hb') as [? ?]. rewrite lookup_insert_ne by done. by apply Hl.
  - intros st b eb Hin. assert (a ≠ b) by (intros <-; apply Hna; apply elem_of_app; left; apply elem_lists; by exists st).
    rewrite lookup_insert_ne by done. by apply Hst.
  - intros b eb. destruct (decide (a = b)) as [<- | Hab].
    + rewrite lookup_insert_eq. intros [= <-]. destruct (Hen a e E) as [? Hrf ? ? Hf ?]. split; try done.
      * by destruct Hf.
      * cbn. split; [|done]. left. pose proof (pin_count_le a pins). lia.
    + rewrite lookup_insert_ne by done. intros Eb. destruct (Hen b eb Eb) as [? ? ? ? ? Hr']. split; try done.
      destruct (retired eb); rewrite Hreach; [tauto|]. by split; [|apply not_eq_sym].
  - intros b Hb'. destruct (Hpi b Hb') as [? ?]. split; [|done].
    destruct (decide (a = b)) as [<- | Hab]; [by rewrite lookup_insert_eq|by rewrite lookup_insert_ne].
  - intros k b Hkb. destruct (Hmap k b Hkb) as (Hin & eb & Eb & ?). assert (b ≠ a) by (intros ->; by apply (Hk k)).
    split.
    + rewrite !elem_of_app, elem_of_cons in Hin. rewrite elem_of_app. tauto.
    + exists eb. by rewrite lookup_insert_ne.
  - intros b b' eb eb' Eb Eb'. destruct (Hdata b eb Eb) as (? & ? & ->), (Hdata b' eb' Eb') as (? & ? & ->). by eapply Hinj.
  - intros b Hb' x ex Ex. destruct (Hdata x ex Ex) as (? & ? & ->). by eapply Hsp.
  - intros b x Eb. destruct (Hown b x Eb) as [? | (y & ey & Ey & <-)]; [by left|right].
    destruct (decide (a = y)) as [<- | Hay]; [|exists y, ey; by rewrite lookup_insert_ne].
    exists a, (with_retired e). rewrite lookup_insert_eq. split; [done|]. cbn. congruence.
  - intros b c Hin. destruct (Hpool b c Hin) as [? Hne]. split; [done|].
    intros x ex Ex. destruct (Hdata x ex Ex) as (? & ? & ->). by eapply Hne.
  - intros b eb Eb. destruct (Hdata b eb Eb) as (? & ? & _). by eapply Hfr.
  - intros Hex st. etransitivity; [apply (Hb Hex st)|]. f_equal. symmetry. apply total_ext. intros b _.
    unfold size_of. cbn.
    destruct (decide (a = b)) as [<- | Hab]; [by rewrite lookup_insert_eq, E|by rewrite lookup_insert_ne].
  - intros st b Hin. destruct (decide (a = b)) as [<- | Hab]; [|rewrite lookup_insert_ne by done; by apply Hun].
    rewrite lookup_insert_eq. split; [by eapply Hfr|]. by rewrite (Hu st Hin).
Qed.

(** An entry nobody reaches and nobody has pinned any more goes, its buffer stays. *)
Lemma forget_ok u' sp w pins pins' hand hand' loose a e :
  cache_ok sp w pins hand loose → entries (heap w) !! a = Some e → same_unpins a u' →
  (∀ st, (st, a) ∈ u' → st ≠ AtDelete ∧ st ≠ AtDecrement) →
  NoDup (lists (shard w) ++ hand' ++ loose) →
  (∀ b, b ∈ lists (shard w) ++ hand' ++ loose ↔ b ∈ lists (shard w) ++ hand ++ loose ∧ b ≠ a) →
  (∀ b, b ∈ lists (shard w) ++ hand → b ≠ a → b ∈ lists (shard w) ++ hand') →
  (∀ b, b ≠ a → pin_count b pins' = pin_count b pins) → a ∉ pins' → Z.of_nat (length pins') < 2 ^ 32 →
  (∀ k, sh_map (shard w) !! k ≠ Some a) →
  cache_ok_with u' (data e :: sp) (set_entries w (delete a (entries (heap w)))) pins' hand' loose.
Proof.
  intros Hc E [Hcl Hu] Hnc Hnd Hreach Hhand Hcount Hnp Hfew Hk.
  assert (a ∉ lists (shard w) ++ hand' ++ loose) as Hna by (rewrite Hreach; tauto).
  destruct Hc as [_ Hl Hst Hen Hpi _ Hmap Hinj ? Hsp Hown Hpool Hfr ? ? Hb Hun _].
  split; cbn [heap shard set_entries entries buffers next_addr]; try done.
  - intros b Hb'. apply Hreach in Hb' as [? ?]. rewrite lookup_delete_ne by done. by apply Hl.
  - intros st b eb Hin. rewrite lookup_delete_Some. intros [_ Eb]. by apply (Hst st b eb).
  - intros b eb. rewrite lookup_delete_Some. intros [Hab%not_eq_sym Eb]. destruct (Hen b eb Eb) as [? ? ? ? ? Hr'].
    assert (b ≠ a) as Hba by done. split; try done; [intros ?; apply Hu; auto|by rewrite Hcount|].
    destruct (retired eb); rewrite Hreach by done; [|tauto]. destruct Hr' as [[?|[st ?]] ?]; (split; [|tauto]); [by left|].
    right. exists st. by apply Hu.
  - intros b Hb'. assert (b ≠ a) by congruence. destruct (Hpi b) as [? ?].
    + apply pin_count_pos. rewrite <- Hcount by done. by apply pin_count_pos.
    + by rewrite lookup_delete_ne.
  - intros k b Hkb. destruct (Hmap k b Hkb) as (Hin & eb & Eb & ?). assert (b ≠ a) by (intros ->; by apply (Hk k)).
    split; [auto|]. exists eb. by rewrite lookup_delete_ne.
  - intros b b' eb eb'. rewrite !lookup_delete_Some. intros [_ ?] [_ ?]. by apply Hinj.
  - cbn. apply NoDup_cons. split; [|done]. rewrite elem_of_app. intros [Hin|Hin].
    + by apply (Hsp _ Hin a e).
    + apply list_elem_of_fmap in Hin as ([b c] & Eb & Hin). destruct (Hpool b c Hin) as [_ Hne]. by apply (Hne a e).
  - intros b Hin x ex. rewrite lookup_delete_Some. intros [Hx Ex]. apply elem_of_cons in Hin as [-> | Hin]; [|by eapply Hsp].
    intros Hd. apply Hx. by apply (Hinj a x e ex).
  - intros b x Hx. destruct (Hown b x Hx) as [? | (y & ey & Ey & <-)]; [left; cbn; by right|].
    destruct (decide (a = y)) as [<- | Hay]; [left; cbn; apply elem_of_cons; left; congruence|right].
    exists y, ey. by rewrite lookup_delete_ne.
  - intros b c Hin. destruct (Hpool b c Hin) as [? Hne]. split; [done|]. intros x ex.
    rewrite lookup_delete_Some. intros [_ ?]. by eapply Hne.
  - intros b eb. rewrite lookup_delete_Some. intros [_ ?]. by eapply Hfr.
  - intros Hex st. etransitivity; [apply (Hb Hex st)|]. f_equal. symmetry. apply total_ext. intros b Hin.
    unfold size_of. cbn. rewrite lookup_delete_ne; [done|]. intros ->. apply Hna. apply elem_of_app. left.
    apply elem_lists. by exists st.
  - intros st b Hin. destruct (decide (a = b)) as [<- | Hab].
    + rewrite lookup_delete_eq. split; [by eapply Hfr|auto].
    + rewrite lookup_delete_ne by done. apply Hun, Hu; [by apply not_eq_sym|done].
Qed.

(** A filled buffer is as long as its entry says. *)
Lemma filled_length bufs e :
  filled bufs e → ∃ bytes, bufs !! data e = Some bytes ∧ buf_cap e ≤ Z.of_nat (length bytes).
Proof.
  intros [Hp Hc Hf (bytes & E & Ht)]. exists bytes. split; [done|].
  apply (f_equal length) in Ht. unfold bytes_at in Ht. rewrite !length_take, length_drop in Ht.
  unfold kPageSize in *. lia.
Qed.

(** Only lists and map entries of others matter to what follows. *)
Record same_shape (w w' : World) : Prop := {
  sh_segments st : segment st (shard w') = segment st (shard w);
  sh_same_map : sh_map (shard w') = sh_map (shard w);
}.

(** Freeing an entry nobody reaches any more. *)
Lemma free_entry_ok u' sp w pins hand loose a e e' :
  cache_ok_with u' (data e :: sp) (set_entries w (delete a (entries (heap w)))) pins hand loose →
  entries (heap w) !! a = Some e → filled (buffers (heap w)) e → same_entry e e' →
  let w' := free_entry a e' (set_entry a e' w) in
  cache_ok_with u' sp w' pins hand loose ∧ follows w w' ∧ same_shape w w' ∧ entries (heap w') !! a = None.
Proof.
  intros Hc E Hfi (_ & _ & Hda & Hcap). cbn zeta. unfold free_entry. rewrite Hda, Hcap.
  destruct (release_buf_frame (data e) (buf_cap e) (set_entry a e' w)) as (_ & _ & Hcomm & Hent & _).
  rewrite Hent. cbn [set_entry set_entries heap entries]. rewrite delete_insert_eq.
  fold (set_entry a e' w). rewrite <- Hcomm.
  change (set_entries (set_entry a e' w) ?m) with (set_entries w m).
  destruct (filled_length _ _ Hfi) as (bytes & Eb & Hb).
  destruct (release_buf_frame (data e) (buf_cap e) (set_entries w (delete a (entries (heap w))))) as (Hseg' & Hm' & _ & _ & Hf').
  split; [by eapply release_buf_ok|]. rewrite lookup_delete_eq. split; [|split; [split|done]].
  - etransitivity; [|apply Hf']. split; [done| |done]. intros b eb. cbn. rewrite lookup_delete_Some. intros [_ Eb'] _.
    by exists eb.
  - intros st. by rewrite Hseg'.
  - by rewrite Hm'.
Qed.

Lemma drop_entry_ok sp w pins hand loose a :
  cache_ok sp w pins (a :: hand) loose → (∀ k, sh_map (shard w) !! k ≠ Some a) →
  ∃ w', drop_entry a w = Ok w' ∧ cache_ok sp w' pins hand loose ∧ follows w w' ∧ same_shape w w' ∧
    (a ∉ pins → entries (heap w') !! a = None).
Proof.
  intros Hc Hk. destruct (entry_at_live sp w pins (a :: hand) loose a Hc) as (e & E & Ea & Hr & He).
  { rewrite !elem_of_app. right. left. left. }
  destruct (unretired _ _ _ _ _ _ _ Hc E Hr) as [Hdel Hu].
  unfold drop_entry. rewrite Ea, bind_Ok. unfold maybe_delete_locked at 1, entry_at. cbn [set_entry set_entries heap entries].
  rewrite lookup_insert_eq. unfold mret, res_ret. rewrite bind_Ok. cbn [refs deleted with_retired]. rewrite Hdel.
  pose proof (eo_refs _ _ _ _ _ _ He) as Hcount. destruct (Z.eqb_spec (refs e) 0) as [Hz|Hz]; cbn [negb].
  - eexists. split; [done|]. destruct (free_entry_ok unpins sp w pins hand loose a e (with_retired e)) as (? & ? & ? & ?);
      [|done|apply He|done|by split_and!].
    apply (forget_ok unpins sp w pins pins (a :: hand) hand loose a e); try done.
    + split; [by apply (ck_claims _ _ _ _ _ _ _ Hc)|done].
    + intros st Hin. by rewrite (Hu st Hin).
    + pose proof (ck_nodup _ _ _ _ _ _ _ Hc) as Hnd. rewrite <- app_comm_cons, <- Permutation_middle in Hnd.
      by apply NoDup_cons in Hnd as [_ ?].
    + intros b. by apply no_longer_reached with (sp := sp) (pins := pins).
    + intros b. rewrite !elem_of_app, elem_of_cons. tauto.
    + apply pin_count_zero. by rewrite <- (eo_refs _ _ _ _ _ _ He).
    + by apply (ck_few _ _ _ _ _ _ _ Hc).
  - eexists. split; [done|]. split; [by apply (retire_ok sp w pins hand loose a e)|].
    split; [by apply (set_entry_follows w a e)|]. split; [by split|]. intros Hp%pin_count_zero. lia.
Qed.

(** Evicting a listed entry, pinned or not. *)
Lemma evict_ok sp w pins hand loose st a :
  cache_ok sp w pins hand loose → a ∈ seg_list (segment st (shard w)) →
  ∃ w' n, evict st a w = Ok w' ∧ cache_ok sp w' pins hand loose ∧ follows w w' ∧
    (∀ st', segment st' (shard w') = if decide (st' = st)
      then mkSegment (filter (λ x, x ≠ a) (seg_list (segment st (shard w)))) n else segment st' (shard w)) ∧
    ∀ k b, sh_map (shard w') !! k = Some b ↔ sh_map (shard w) !! k = Some b ∧ b ≠ a.
Proof.
  intros Hc Ha. destruct (entry_at_live sp w pins hand loose a Hc) as (e & E & Ea & _); [by eapply live_listed|].
  destruct (seg_unlink_ok sp w pins hand loose st a e Hc Ha E) as (n & E1 & Hc1).
  unfold evict. rewrite Ea, bind_Ok, E1, bind_Ok. set (w1 := set_segment _ _ _) in *.
  assert (heap w1 = heap w) as Hh by by destruct st.
  destruct (erase_keys_ok sp w1 pins (a :: hand) loose a e Hc1) as (m & E2 & Hc2 & Hm); [by rewrite Hh|].
  rewrite E2, bind_Ok. destruct (drop_entry_ok sp (set_map w1 m) pins hand loose a Hc2) as (w' & E3 & Hc3 & Hf & Hsh & _).
  { intros k Hk. cbn in Hk. apply Hm in Hk as [_ ?]. done. }
  exists w', n. split; [done|]. split; [done|]. split; [|split].
  - transitivity (set_map w1 m); [|done]. split; [by destruct st| |by destruct st].
    intros b eb Eb _. exists eb. split; [|done]. by destruct st.
  - intros st'. rewrite (sh_segments _ _ Hsh st'). change (segment st' (shard (set_map w1 m))) with (segment st' (shard w1)).
    unfold w1. by rewrite segment_set_segment.
  - intros k b. rewrite (sh_same_map _ _ Hsh). cbn [set_map set_shard shard sh_map]. rewrite Hm.
    by replace (sh_map (shard w1)) with (sh_map (shard w)) by by destruct st.
Qed.
End cache.
