(* ===== verification/LeafCacheSections.v ===== *)
(** * Every critical section of the leaf cache keeps the invariant *)
From S2P Require Import Prelude PageFile FrequencySketch LeafExtentCache LeafCacheSafety.

(** A sketch before or after [set_expected_entries]. *)
Definition sketch_sound (s : FrequencySketch) : Prop := table_ s = None ∨ ∃ t, sketch_ok s t.

Lemma increment_sound s key : sketch_sound s → ∃ s', increment key s = Ok s' ∧ sketch_sound s'.
Proof.
  intros [E | [t Hs]].
  - exists s. split; [|by left]. unfold increment. by rewrite E.
  - destruct (increment_ok s t key Hs) as (s' & t' & E & Hs' & _). exists s'. split; [done|]. right. by exists t'.
Qed.

Lemma frequency_sound s key : sketch_sound s → ∃ n, frequency s key = Ok n.
Proof.
  intros [E | [t Hs]].
  - eexists. unfold frequency. by rewrite E.
  - eexists. by apply (frequency_ok s t).
Qed.

Section sections.
Context (file : list Z) (exact : Prop) {unpins : list (UnpinAt * Z)}.
Local Abbreviation cache_ok_with u := (cache_ok file exact (unpins := u)).
Local Abbreviation cache_ok := (cache_ok_with unpins).

Lemma set_sketch_ok sp w pins hand loose s :
  cache_ok sp w pins hand loose → sketch_sound s → cache_ok sp (set_sketch w s) pins hand loose.
Proof. intros [] Hs. by split. Qed.

Lemma set_sketch_follows w s : follows w (set_sketch w s).
Proof. split; [done| |done]. intros a e E _. by exists e. Qed.

(** Statistics are not part of the invariant. *)
Lemma stats_ok sp w pins hand loose t :
  cache_ok sp w pins hand loose → cache_ok sp (mkWorld (heap w) (shard w) t) pins hand loose.
Proof. intros []. by split. Qed.

Lemma stats_follows w t : follows w (mkWorld (heap w) (shard w) t).
Proof. split; [done| |done]. intros a e E _. by exists e. Qed.

(** One pin more. *)
Lemma pinned_ok sp w pins hand loose a e :
  cache_ok sp w pins hand loose → entries (heap w) !! a = Some e → retired e = false → a ∉ loose →
  Z.of_nat (length pins) + 1 < 2 ^ 32 →
  cache_ok sp (set_entry a (with_refs e (u32 (refs e + 1))) w) (a :: pins) hand loose.
Proof.
  intros Hc E Hret Ha Hn. destruct (ck_entries _ _ _ _ _ _ _ Hc a e E) as [? Hr ? ? ? ?].
  pose proof (pin_count_le a pins). rewrite Hr, u32_id by lia.
  apply (set_entry_ok _ _ sp w pins (a :: pins) hand loose a e); try done.
  - cbn. rewrite pin_count_cons, decide_True by done. lia.
  - intros b Hb. rewrite pin_count_cons, decide_False by done. lia.
  - cbn. lia.
Qed.

(** An entry moves within its list. *)
Lemma seg_reorder_ok sp w pins hand loose st l :
  cache_ok sp w pins hand loose → l ≡ₚ seg_list (segment st (shard w)) →
  cache_ok sp (set_segment st w (mkSegment l (seg_bytes (segment st (shard w))))) pins hand loose.
Proof.
  intros Hc Hl. set (n := seg_bytes _). set (w' := set_segment _ _ _).
  assert (lists (shard w') ≡ₚ lists (shard w)) as Hp by (unfold lists; destruct st; cbn in *; by rewrite Hl).
  assert (heap w' = heap w) as Hh by by destruct st.
  assert (sh_map (shard w') = sh_map (shard w) ∧ buf_pool (shard w') = buf_pool (shard w) ∧
    sketch (shard w') = sketch (shard w)) as (Hm & Hpool & Hsk) by by destruct st.
  destruct Hc as [? ? Hst Hen ? ? Hmap ? ? ? ? ? ? ? ? Hb].
  split; rewrite ?Hh, ?Hm, ?Hpool, ?Hsk, ?Hp; try done.
  - intros b. rewrite Hp. auto.
  - intros st' b eb. unfold w'. rewrite segment_set_segment. case_decide as Hs; [subst st'|by apply Hst].
    cbn [seg_list]. rewrite Hl. by apply Hst.
  - intros b eb Eb. rewrite Hp. by apply Hen.
  - intros k b Hk. rewrite Hp. by apply Hmap.
  - intros Hex. apply (bytes_ok_update st w w' l n); try done.
    + unfold w'. by rewrite segment_set_segment, decide_True.
    + unfold w'. by rewrite segment_set_segment, decide_True.
    + intros st' Hs. unfold w'. by rewrite segment_set_segment, decide_False.
    + by apply Hb.
    + rewrite (total_Permutation w l _ Hl). by apply Hb.
Qed.

Lemma set_segment_follows st w g : follows w (set_segment st w g).
Proof. split; [by destruct st| |by destruct st]. intros a e Ea _. exists e. split; [|done]. by destruct st. Qed.

Lemma move_to_mru_ok (a : Z) l : a ∈ l → move_to_mru a l = Ok (a :: filter (λ x, x ≠ a) l).
Proof. intros Ha. unfold move_to_mru, unlink. by rewrite bool_decide_true. Qed.

Lemma first_unpinned_ok sp w pins hand loose l :
  cache_ok sp w pins hand loose → (∀ a, a ∈ l → a ∈ lists (shard w)) →
  ∃ r, first_unpinned w l = Ok r ∧
    match r with None => ∀ a, a ∈ l → a ∈ pins | Some v => v ∈ l ∧ v ∉ pins end.
Proof.
  intros Hc. induction l as [|a l IH]; intros Hl; cbn [first_unpinned].
  - exists None. split; [done|]. intros a Ha. by apply not_elem_of_nil in Ha.
  - destruct (entry_at_live _ _ sp w pins hand loose a Hc) as (e & E & Ea & _ & He).
    { apply elem_of_app. left. apply Hl. left. }
    rewrite Ea, bind_Ok, (eo_refs _ _ _ _ _ _ He). destruct (Z.ltb_spec 0 (pin_count a pins)) as [Hp|Hp].
    + apply pin_count_pos in Hp. destruct IH as (r & Er & Hr); [intros b Hb; apply Hl; by right|].
      exists r. split; [done|]. destruct r as [v|]; [split; [right|]; apply Hr|].
      intros b Hb. apply elem_of_cons in Hb as [-> | Hb]; [done|by apply Hr].
    + exists (Some a). split; [done|]. split; [left|]. rewrite <- pin_count_pos. lia.
Qed.

Lemma reverse_listed st (s : Shard) a : a ∈ reverse (seg_list (segment st s)) → a ∈ lists s.
Proof. intros Ha. apply elem_lists. exists st. by apply elem_of_reverse. Qed.

Lemma filter_ne_length (a : Z) l : NoDup l → a ∈ l → length l = Datatypes.S (length (filter (λ x, x ≠ a) l)).
Proof. intros Hl Ha. by rewrite <- (filter_ne_perm a l Hl Ha) at 1. Qed.

Lemma last_elem (l : list Z) a : last l = Some a → a ∈ l.
Proof. intros E. apply last_Some in E as [l' ->]. apply elem_of_app. right. left. Qed.

(** *** Hits *)

Lemma demote_loop_ok sp w pins loose fuel :
  cache_ok sp w pins [] loose → (length (seg_list (protected_ (shard w))) ≤ fuel)%nat →
  ∃ w', demote_loop fuel w = Ok w' ∧ cache_ok sp w' pins [] loose ∧ follows w w' ∧
    (seg_bytes (protected_ (shard w')) ≤ max_protected_bytes (limits (shard w)) ∨ seg_list (protected_ (shard w')) = []).
Proof.
  revert w. induction fuel as [|fuel IH]; intros w Hc Hf; cbn [demote_loop];
    (destruct (Z.ltb_spec (max_protected_bytes (limits (shard w))) (seg_bytes (protected_ (shard w)))) as [Hlt|Hle];
      [|exists w; split_and!; [done|done|done|by left]]);
    (destruct (last (seg_list (protected_ (shard w)))) as [d|] eqn:El;
      [|exists w; split_and!; [done|done|done|right; by apply last_None]]).
  - apply last_elem in El. destruct (seg_list (protected_ (shard w))); [by apply not_elem_of_nil in El|cbn in Hf; lia].
  - apply last_elem in El. pose proof (ck_nodup_lists _ _ _ _ _ _ _ Hc) as Hnd.
    destruct (entry_at_live _ _ sp w pins [] loose d Hc) as (e & E & Ea & _).
    { apply (live_listed _ _ _ _ _ _ _ PROTECTED _ Hc El). }
    rewrite Ea, bind_Ok. destruct (seg_unlink_ok _ _ sp w pins [] loose PROTECTED d e Hc El E) as (n & E1 & Hc1).
    rewrite E1, bind_Ok. set (w1 := set_segment _ _ _) in *.
    destruct (seg_push_ok _ _ sp w1 pins [] loose PROBATION d Hc1) as (w2 & n2 & E2 & Hc2 & Hf2 & Hseg & _).
    rewrite E2, bind_Ok. assert (follows w w2) as Hfw by (transitivity w1; [apply set_segment_follows|done]).
    destruct (IH w2 Hc2) as (w' & E3 & Hc3 & Hf3 & Hpost).
    { rewrite (Hseg PROTECTED : protected_ (shard w2) = _). cbn.
      pose proof (filter_ne_length d _ (NoDup_segment PROTECTED _ Hnd) El) as Hlen. cbn in Hlen. lia. }
    exists w'. split; [done|]. split; [done|]. split; [by transitivity w2|].
    by rewrite <- (fo_limits _ _ Hfw).
Qed.

Lemma evict_loop_ok sp w pins loose fuel :
  cache_ok sp w pins [] loose → (length (seg_list (probation (shard w))) ≤ fuel)%nat →
  ∃ w', evict_loop fuel w = Ok w' ∧ cache_ok sp w' pins [] loose ∧ follows w w' ∧
    (u64 (seg_bytes (probation (shard w')) + seg_bytes (protected_ (shard w'))) ≤ max_main_bytes (limits (shard w)) ∨
     seg_bytes (probation (shard w')) ≤ 0 ∨ ∀ a, a ∈ seg_list (probation (shard w')) → a ∈ pins).
Proof.
  revert w. induction fuel as [|fuel IH]; intros w Hc Hf; cbn [evict_loop];
    (destruct (_ && _) eqn:Hcond; [|exists w; split_and!; try done; apply andb_false_iff in Hcond as [Hcond|Hcond];
      apply Z.ltb_ge in Hcond; tauto]);
    destruct (first_unpinned_ok sp w pins [] loose (reverse (seg_list (probation (shard w)))) Hc) as (r & Er & Hr);
    try (intros a Ha; by apply (reverse_listed PROBATION));
    rewrite Er, bind_Ok;
    (destruct r as [v|]; [|exists w; split_and!; try done; right; right; intros a Ha; apply Hr; by apply elem_of_reverse]);
    rewrite elem_of_reverse in Hr; destruct Hr as [Hv Hnp].
  - destruct (seg_list (probation (shard w))); [by apply not_elem_of_nil in Hv|cbn in Hf; lia].
  - pose proof (ck_nodup_lists _ _ _ _ _ _ _ Hc) as Hnd.
    destruct (evict_ok _ _ sp w pins [] loose PROBATION v Hc Hv) as (w1 & n & E1 & Hc1 & Hf1 & Hseg & _).
    rewrite E1, bind_Ok. assert (follows w (add_eviction w1)) as Hfw by (transitivity w1; [done|apply stats_follows]).
    destruct (IH (add_eviction w1)) as (w' & E2 & Hc2 & Hf2 & Hpost).
    { by apply stats_ok. }
    { cbn [add_eviction shard]. rewrite (Hseg PROBATION : probation (shard w1) = _). cbn.
      pose proof (filter_ne_length v _ (NoDup_segment PROBATION _ Hnd) Hv) as Hlen. cbn in Hlen. lia. }
    exists w'. split; [done|]. split; [done|]. split; [by transitivity (add_eviction w1)|].
    by rewrite <- (fo_limits _ _ Hfw).
Qed.

Lemma in_its_segment sp w pins hand loose a e :
  cache_ok sp w pins hand loose → a ∈ lists (shard w) → entries (heap w) !! a = Some e →
  a ∈ seg_list (segment (status e) (shard w)).
Proof.
  intros Hc Ha E. apply elem_lists in Ha as [st Ha]. by rewrite (ck_status _ _ _ _ _ _ _ Hc st a e Ha E).
Qed.

Lemma listed_not_loose sp w pins hand loose a : cache_ok sp w pins hand loose → a ∈ lists (shard w) → a ∉ loose.
Proof.
  intros Hc Ha Hl. pose proof (ck_nodup _ _ _ _ _ _ _ Hc) as Hn. rewrite NoDup_app in Hn.
  destruct Hn as (_ & Hn & _). apply (Hn a Ha). apply elem_of_app. by right.
Qed.

(** A hit pins the entry and leaves it reachable or pinned. *)
Lemma hit_locked_ok sp w pins loose a pg :
  cache_ok sp w pins [] loose → a ∈ lists (shard w) → Z.of_nat (length pins) + 1 < 2 ^ 32 →
  ∃ w', hit_locked a pg w = Ok w' ∧ cache_ok sp w' (a :: pins) [] loose ∧ follows w w'.
Proof.
  intros Hc Ha Hn. destruct (entry_at_live _ _ sp w pins [] loose a Hc) as (e & E & Ea & Hret & _).
  { apply elem_of_app. by left. }
  unfold hit_locked. rewrite Ea, bind_Ok.
  pose proof (pinned_ok sp w pins [] loose a e Hc E Hret (listed_not_loose _ _ _ _ _ _ Hc Ha) Hn) as Hc1.
  set (e1 := with_refs e _) in *. set (w1 := set_entry a e1 w) in *.
  assert (follows w w1) as Hf1 by by apply (set_entry_follows w a e).
  destruct (increment_sound (sketch (shard w1)) pg (ck_sketch _ _ _ _ _ _ _ Hc1)) as (k & Ek & Hk).
  rewrite Ek, bind_Ok. set (w2 := add_hit (set_sketch w1 k)).
  assert (cache_ok sp w2 (a :: pins) [] loose) as Hc2 by (apply stats_ok; by apply set_sketch_ok).
  assert (follows w w2) as Hf2.
  { transitivity w1; [done|]. transitivity (set_sketch w1 k); [apply set_sketch_follows|apply stats_follows]. }
  assert (entries (heap w2) !! a = Some e1) as E2 by (cbn; by rewrite lookup_insert_eq).
  pose proof (in_its_segment sp w2 (a :: pins) [] loose a e1 Hc2 Ha E2) as Hin.
  clearbody w2. clear w1 Hc1 Hf1 k Ek Hk. change (status e) with (status e1). change (esize e) with (esize e1). clearbody e1.
  assert (∀ st, a ∈ seg_list (segment st (shard w2)) → ∃ w',
    (l ← move_to_mru a (seg_list (segment st (shard w2)));
     mret (set_segment st w2 (mkSegment l (seg_bytes (segment st (shard w2)))))) = Ok w' ∧
    cache_ok sp w' (a :: pins) [] loose ∧ follows w w') as Hmove.
  { intros st Hst. rewrite move_to_mru_ok by done. eexists. split; [done|].
    pose proof (NoDup_segment st _ (ck_nodup_lists _ _ _ _ _ _ _ Hc2)) as Hnd.
    split; [apply seg_reorder_ok; [done|by apply filter_ne_perm]|].
    transitivity w2; [done|apply set_segment_follows]. }
  destruct (status e1); [by apply (Hmove WINDOW)| |by apply (Hmove PROTECTED)]. clear Hmove.
  destruct (seg_unlink_ok _ _ sp w2 (a :: pins) [] loose PROBATION a e1 Hc2 Hin E2) as (n & E3 & Hc3).
  rewrite E3, bind_Ok. set (w3 := set_segment _ _ _) in *.
  destruct (seg_push_ok _ _ sp w3 (a :: pins) [] loose PROTECTED a Hc3) as (w4 & n4 & E4 & Hc4 & Hf4 & _).
  rewrite E4, bind_Ok.
  destruct (demote_loop_ok sp w4 (a :: pins) loose _ Hc4 (le_n _)) as (w5 & E5 & Hc5 & Hf5 & _). rewrite E5, bind_Ok.
  destruct (evict_loop_ok sp w5 (a :: pins) loose _ Hc5 (le_n _)) as (w6 & E6 & Hc6 & Hf6 & _).
  exists w6. split; [done|]. split; [done|].
  transitivity w2; [done|]. transitivity w3; [apply set_segment_follows|]. transitivity w4; [done|]. by transitivity w5.
Qed.

(** *** The sections before the fill *)

(** An entry a key names covers the range asked for when it has enough bytes. *)
Definition covers (w : World) (a pg pages : Z) : Prop :=
  ∃ e, entries (heap w) !! a = Some e ∧ 0 ≤ page e ≤ pg ∧ (pg + pages) * kPageSize ≤ page e * kPageSize + buf_cap e.

Definition extent_ok (pg pages : Z) : Prop := 0 ≤ pg ∧ 0 < pages < 2 ^ 32 ∧ (pg + pages) * kPageSize < 2 ^ 63.

Lemma needed_ok e pg pages :
  extent_ok pg pages → 0 ≤ page e ≤ pg → needed e pg pages = (pg - page e + pages) * kPageSize.
Proof.
  unfold extent_ok, needed, kPageSize. intros Hx Hp. rewrite (u64_id (pg - page e)) by lia. rewrite u64_id by lia. lia.
Qed.

Lemma mapped sp w pins loose k a :
  cache_ok sp w pins [] loose → sh_map (shard w) !! k = Some a →
  a ∈ lists (shard w) ∧ ∃ e, entries (heap w) !! a = Some e ∧ entry_at w a = Ok e ∧ 0 ≤ page e ≤ k.
Proof.
  intros Hc Hk. destruct (ck_map _ _ _ _ _ _ _ Hc k a Hk) as (Ha & e & E & Hin). rewrite app_nil_r in Ha.
  split; [done|]. exists e. split; [done|]. unfold entry_at. rewrite E. split; [done|].
  destruct (ck_entries _ _ _ _ _ _ _ Hc a e E) as [? ? ? Hkeys [? ? ? ?] ?]. split; [done|auto].
Qed.

(** What a section that may pin does: the pins grow by the entry it returns. *)
Definition pins_after (hit : option Z) (pins : list Z) : list Z := match hit with Some a => a :: pins | None => pins end.

Lemma hit_covers w w' a pg pages e :
  follows w w' → entries (heap w) !! a = Some e → is_Some (entries (heap w') !! a) → a < next_addr (heap w) →
  extent_ok pg pages → 0 ≤ page e ≤ pg → needed e pg pages ≤ buf_cap e → covers w' a pg pages.
Proof.
  intros Hf E [e' E'] Ha Hx Hp Hn. destruct (fo_entries _ _ Hf a e' E' Ha) as (e0 & E0 & Hpg & _ & _ & Hcap).
  assert (e0 = e) as -> by congruence. exists e'. rewrite Hpg, Hcap. split; [done|]. split; [done|].
  rewrite needed_ok in Hn by done. lia.
Qed.

Definition hit_spec (pg pages : Z) (w : World) (pins loose : list Z) (r : res (option Z * World)) : Prop :=
  ∃ hit w', r = Ok (hit, w') ∧ cache_ok [] w' (pins_after hit pins) [] loose ∧ follows w w' ∧
    ∀ a, hit = Some a → covers w' a pg pages.

Lemma hit_spec_hit w pins loose a e pg pages :
  cache_ok [] w pins [] loose → extent_ok pg pages → Z.of_nat (length pins) + 1 < 2 ^ 32 →
  sh_map (shard w) !! pg = Some a → entries (heap w) !! a = Some e → needed e pg pages ≤ buf_cap e →
  hit_spec pg pages w pins loose (w ← hit_locked a pg w; mret (Some a, w)).
Proof.
  intros Hc Hx Hn Hk E Hle. destruct (mapped _ _ _ _ _ _ Hc Hk) as (Ha & e0 & E0 & _ & Hp).
  assert (e0 = e) as -> by congruence.
  destruct (hit_locked_ok [] w pins loose a pg Hc Ha Hn) as (w' & Ew & Hc' & Hf). rewrite Ew, bind_Ok.
  exists (Some a), w'. split; [done|]. split; [done|]. split; [done|]. intros ? [= <-].
  apply (hit_covers w w' a pg pages e); try done; [|by apply (ck_fresh _ _ _ _ _ _ _ Hc a e)].
  apply (ck_pins _ _ _ _ _ _ _ Hc' a). left.
Qed.

Lemma try_hit_ok w pins loose pg pages :
  cache_ok [] w pins [] loose → extent_ok pg pages → Z.of_nat (length pins) + 1 < 2 ^ 32 →
  hit_spec pg pages w pins loose (try_hit pg pages w).
Proof.
  intros Hc Hx Hn. unfold try_hit. destruct (sh_map (shard w) !! pg) as [a|] eqn:Hk.
  - destruct (mapped _ _ _ _ _ _ Hc Hk) as (_ & e & E & Ea & _). rewrite Ea, bind_Ok.
    destruct (Z.leb_spec (needed e pg pages) (buf_cap e)); [by apply (hit_spec_hit w pins loose a e)|].
    by exists None, w.
  - by exists None, w.
Qed.

Lemma pin_fast_ok w pins loose pg pages :
  cache_ok [] w pins [] loose → extent_ok pg pages → Z.of_nat (length pins) + 1 < 2 ^ 32 →
  hit_spec pg pages w pins loose (pin_fast pg pages w).
Proof.
  intros Hc Hx Hn. unfold pin_fast. destruct (sh_map (shard w) !! pg) as [a|] eqn:Hk.
  - destruct (mapped _ _ _ _ _ _ Hc Hk) as (Ha & e & E & Ea & _). rewrite Ea, bind_Ok.
    destruct (Z.leb_spec (needed e pg pages) (buf_cap e)); [by apply (hit_spec_hit w pins loose a e)|].
    destruct (refs e =? 0); [|by exists None, w].
    destruct (evict_ok _ _ [] w pins [] loose (status e) a Hc (in_its_segment _ _ _ _ _ _ _ Hc Ha E))
      as (w' & n & Ew & Hc' & Hf & _).
    rewrite Ew, bind_Ok. by exists None, w'.
  - by exists None, w.
Qed.

Lemma contest_ok sp w pins hand loose pg :
  cache_ok sp w pins hand loose →
  ∃ r, contest pg w = Ok r ∧ ∀ v, r = Some v → v ∈ seg_list (probation (shard w)).
Proof.
  intros Hc. unfold contest.
  destruct (first_unpinned_ok sp w pins hand loose (reverse (seg_list (probation (shard w)))) Hc) as (r & Er & Hr).
  { intros a Ha. by apply (reverse_listed PROBATION). }
  rewrite Er, bind_Ok. destruct r as [v|]; [|by exists None]. destruct Hr as [Hv _]. rewrite elem_of_reverse in Hv.
  destruct (entry_at_live _ _ sp w pins hand loose v Hc) as (e & E & Ea & _).
  { apply (live_listed _ _ _ _ _ _ _ PROBATION _ Hc Hv). }
  pose proof (ck_sketch _ _ _ _ _ _ _ Hc) as Hk. rewrite Ea, bind_Ok.
  destruct (frequency_sound (sketch (shard w)) pg Hk) as [n1 E1].
  destruct (frequency_sound (sketch (shard w)) (page e) Hk) as [n2 E2].
  rewrite E1, bind_Ok, E2, bind_Ok. eexists. split; [done|]. intros u. destruct (_ <? _); [by intros [= <-]|done].
Qed.

Lemma pin_gate_ok w pins loose pg pages :
  cache_ok [] w pins [] loose →
  ∃ r w', pin_gate pg pages w = Ok (r, w') ∧ cache_ok [] w' pins [] loose ∧ follows w w'.
Proof.
  intros Hc. unfold pin_gate.
  assert (cache_ok [] (add_miss w) pins [] loose) as Hc1 by by apply stats_ok.
  destruct (increment_sound (sketch (shard (add_miss w))) pg (ck_sketch _ _ _ _ _ _ _ Hc1)) as (k & Ek & Hk).
  rewrite Ek, bind_Ok. set (w2 := set_sketch (add_miss w) k).
  assert (cache_ok [] w2 pins [] loose) as Hc2 by by apply set_sketch_ok.
  assert (follows w w2) as Hf2 by (transitivity (add_miss w); [apply stats_follows|apply set_sketch_follows]).
  assert (follows w (add_rejection w2)) as Hf3 by (transitivity w2; [done|apply stats_follows]).
  assert (cache_ok [] (add_rejection w2) pins [] loose) as Hc3 by by apply stats_ok.
  destruct (_ <=? _); [by exists true, w2|].
  destruct (contest_ok [] w2 pins [] loose pg Hc2) as ([v|] & Er & _); rewrite Er, bind_Ok;
    [by exists true, w2|by exists false, (add_rejection w2)].
Qed.

(** *** [unpin] *)

(** The [unpin]s under way, once one has made an access. *)
Definition past (next : option UnpinAt) (a : Z) (u : list (UnpinAt * Z)) : list (UnpinAt * Z) :=
  match next with Some st => (st, a) :: u | None => u end.

Lemma elem_past next a u st b : (st, b) ∈ past next a u ↔ next = Some st ∧ b = a ∨ (st, b) ∈ u.
Proof.
  destruct next as [st'|]; cbn [past].
  - rewrite elem_of_cons. split; intros [E|?]; auto; left; [by injection E as -> ->|]. by destruct E as [[= ->] ->].
  - split; [by right|]. by intros [[? _]|?].
Qed.

Lemma claims_past next a u : claims (past next a u) = if decide (next = Some AtDelete) then (AtDelete, a) :: claims u else claims u.
Proof. destruct next as [[]|]; done. Qed.

Lemma set_entry_id a e w : entries (heap w) !! a = Some e → set_entry a e w = w.
Proof. intros E. destruct w as [[] ? ?]. unfold set_entry, set_entries. cbn in *. by rewrite insert_id. Qed.

(** An [unpin] makes an access that neither takes a pin nor frees. *)
Lemma advance_ok st next u sp w pins loose a e e' :
  cache_ok_with (past (Some st) a u) sp w pins [] loose → entries (heap w) !! a = Some e → st ≠ AtDelete →
  e' = e ∨ e' = with_deleted e ∧ (deleted e = true ∨ next = Some AtDelete) →
  (∀ st', next = Some st' → stage_ok st' e') → (next = Some AtDelete → deleted e = false) →
  (next = None → retired e = true → 0 < refs e ∨ ∃ st', (st', a) ∈ u) →
  cache_ok_with (past next a u) sp (set_entry a e' w) pins [] loose.
Proof.
  intros Hc E Hst He' Hstage Hclaim Hreach. pose proof (ck_entries _ _ _ _ _ _ _ Hc a e E) as He.
  pose proof (ck_claims _ _ _ _ _ _ _ Hc) as Hcl. rewrite claims_past, decide_False in Hcl by congruence.
  assert (∀ st', (st', a) ∈ u → stage_ok st' e) as Hold.
  { intros st' Hin. destruct (ck_unpins _ _ _ _ _ _ _ Hc st' a) as [_ Hs]; [by right|]. by rewrite E in Hs. }
  assert (deleted e = true → (AtDelete, a) ∈ u) as Hdel.
  { intros Hd. apply (eo_deleted _ _ _ _ _ _ He) in Hd. apply elem_past in Hd as [[[= ->] _]|?]; done. }
  assert (same_entry e e' ∧ retired e' = retired e ∧ refs e' = refs e ∧ keys e' = keys e ∧ status e' = status e) as (Hsame & Hr & Hn & Hk & Hs).
  { destruct He' as [-> |[-> _]]; by split_and!. }
  apply (update_entry_ok _ _ (unpins := past (Some st) a u) (past next a u) sp w pins pins [] loose a e e'); try done; rewrite ?Hk, ?Hn; try apply He; try done.
  - split; [|intros st' b Hb; rewrite !elem_past; tauto].
    rewrite claims_past. case_decide as Hnext; [|done]. apply NoDup_cons. split; [|done].
    intros [_ Hin]%list_elem_of_filter. apply Hold in Hin as (_ & _ & Hin). rewrite Hclaim in Hin; done.
  - intros Hd. apply elem_past. destruct He' as [-> |[_ [?| ->]]]; [right|right|left]; auto.
  - intros st' [[? _]|Hin%Hold]%elem_past; [auto|]. destruct He' as [-> |[-> _]]; [done|].
    destruct st'; cbn in *; tauto.
  - by apply (ck_few _ _ _ _ _ _ _ Hc).
  - intros Hret. destruct next as [st'|]; [right; exists st'; left|]. by apply Hreach.
  - by apply (ck_pins _ _ _ _ _ _ _ Hc).
Qed.

Lemma unpin_decrement_ok u sp w pins loose a :
  cache_ok_with u sp w (a :: pins) [] loose →
  ∃ next w', unpin AtDecrement a w = Ok (next, w') ∧ cache_ok_with (past next a u) sp w' pins [] loose ∧ follows w w'.
Proof.
  intros Hc. destruct (ck_pins _ _ _ _ _ _ _ Hc a) as [[e E] Hl]; [left|].
  pose proof (ck_entries _ _ _ _ _ _ _ Hc a e E) as He. pose proof (eo_refs _ _ _ _ _ _ He) as Hr.
  rewrite pin_count_cons, decide_True in Hr by done. pose proof (pin_count_le a pins) as Hle.
  pose proof (ck_few _ _ _ _ _ _ _ Hc) as Hfew. cbn [length] in Hfew.
  assert (∀ st, (st, a) ∈ u → stage_ok st e) as Hold.
  { intros st Hin. destruct (ck_unpins _ _ _ _ _ _ _ Hc st a Hin) as [_ Hs]. by rewrite E in Hs. }
  unfold unpin, entry_at. rewrite E. unfold mret, res_ret. rewrite bind_Ok. rewrite (u32_id (refs e - 1)) by lia.
  eexists _, _. split; [done|]. split; [|by apply (set_entry_follows w a e)].
  set (next := if _ =? _ then _ else _). set (e' := with_refs e (refs e - 1)).
  apply (update_entry_ok _ _ (unpins := u) (past next a u) sp w (a :: pins) pins [] loose a e e'); try done; try apply He.
  - split; [|intros st' b Hb; rewrite !elem_past; tauto].
    rewrite claims_past, decide_False by (unfold next; by destruct (_ =? _)). by apply (ck_claims _ _ _ _ _ _ _ Hc).
  - intros Hd. apply elem_past. right. by apply (eo_deleted _ _ _ _ _ _ He).
  - intros st [[Hnext _]|Hin%Hold]%elem_past.
    + unfold next in Hnext. destruct (_ =? _); [by injection Hnext as <-|done].
    + destruct st; cbn in *; try done; lia.
  - cbn. lia.
  - intros b Hb. rewrite pin_count_cons, decide_False by done. lia.
  - lia.
  - intros Hret. unfold next. destruct (Z.eqb_spec (refs e) 1); [right; exists AtRetired; left|left; cbn; lia].
Qed.

(** An [unpin] past its decrement makes its next access to an entry that is still there. *)
Lemma unpin_next_ok st u sp w pins loose a e :
  cache_ok_with (past (Some st) a u) sp w pins [] loose → entries (heap w) !! a = Some e →
  ∃ next w', unpin st a w = Ok (next, w') ∧ cache_ok_with (past next a u) sp w' pins [] loose ∧ follows w w'.
Proof.
  intros Hc E. destruct (ck_unpins _ _ _ _ _ _ _ Hc st a) as [_ Hst]; [left|]. rewrite E in Hst.
  pose proof (ck_entries _ _ _ _ _ _ _ Hc a e E) as He.
  assert (∀ next, cache_ok_with (past next a u) sp (set_entry a e w) pins [] loose →
    cache_ok_with (past next a u) sp w pins [] loose) as Hid by (intros next; by rewrite set_entry_id).
  destruct st; cbn [stage_ok] in Hst; [done|..]; unfold unpin, maybe_delete, entry_at; rewrite E;
    unfold mret, res_ret; rewrite bind_Ok; eexists _, _; (split; [done|]).
  - split; [|done]. apply Hid, (advance_ok AtRetired _ u sp w pins loose a e e); auto; destruct (retired e) eqn:Hret; try done.
    by intros ? [= <-].
  - split; [|done]. apply Hid, (advance_ok AtRefs _ u sp w pins loose a e e); auto.
    + intros st'. destruct (Z.eqb_spec (refs e) 0); cbn; [|done]. by intros [= <-].
    + by destruct (_ =? _).
    + intros Hnext _. left. pose proof (pin_count_le a pins). rewrite <- (eo_refs _ _ _ _ _ _ He) in *.
      destruct (Z.eqb_spec (refs e) 0); [done|lia].
  - split; [|by apply (set_entry_follows w a e)]. destruct Hst as [Hret Hz].
    apply (advance_ok AtExchange _ u sp w pins loose a e); auto.
    + right. split; [done|]. destruct (deleted e); auto.
    + intros st'. destruct (deleted e); [done|]. by intros [= <-].
    + by destruct (deleted e).
    + intros Hnext _. right. exists AtDelete. destruct (deleted e) eqn:Hd; [|done].
      pose proof (eo_deleted _ _ _ _ _ _ He Hd) as Hin. apply elem_past in Hin as [[[=] _]|?]; done.
  - destruct Hst as (Hret & Hz & Hd). pose proof (eo_reach _ _ _ _ _ _ He) as Hre. rewrite Hret in Hre. destruct Hre as [_ Hna].
    rewrite (eo_refs _ _ _ _ _ _ He) in Hz. apply pin_count_zero in Hz.
    pose proof (ck_claims _ _ _ _ _ _ _ Hc) as Hcl. rewrite claims_past, decide_True in Hcl by done. apply NoDup_cons in Hcl as [Hnc Hcl].
    destruct (free_entry_ok file exact u sp w pins [] loose a e e) as (Hc' & Hf & _); [|done|apply He|by split_and!|].
    + apply (forget_ok _ _ (unpins := past (Some AtDelete) a u) u sp w pins pins [] [] loose a e); try done.
      * split; [done|]. intros st b Hb. rewrite elem_past. tauto.
      * intros st Hin. split; intros ->; [apply Hnc; by apply list_elem_of_filter|].
        destruct (ck_unpins _ _ _ _ _ _ _ Hc AtDecrement a) as [_ Hs]; [by right|]. by rewrite E in Hs.
      * by apply (ck_nodup _ _ _ _ _ _ _ Hc).
      * intros b. split; [|tauto]. intros Hb. split; [done|]. by intros ->.
      * by apply (ck_few _ _ _ _ _ _ _ Hc).
      * intros k Hk. destruct (ck_map _ _ _ _ _ _ _ Hc k a Hk) as [Hin _]. apply Hna. rewrite app_assoc. apply elem_of_app. by left.
    + cbn zeta in Hc', Hf. rewrite set_entry_id in Hc', Hf by done. by split.
Qed.

(** *** [invalidate_all] *)

(** A freed entry stays freed. *)
Lemma follows_freed w w' a :
  follows w w' → a < next_addr (heap w) → entries (heap w) !! a = None → entries (heap w') !! a = None.
Proof.
  intros Hf Ha E. destruct (entries (heap w') !! a) as [e|] eqn:E'; [|done].
  destruct (fo_entries _ _ Hf a e E' Ha) as (e0 & E0 & _). congruence.
Qed.

(** The map is not read while the entries go. *)
Lemma drop_entry_map a w m : drop_entry a (set_map w m) = (λ w', set_map w' m) <$> drop_entry a w.
Proof.
  unfold drop_entry, entry_at. cbn [set_map set_shard heap shard entries].
  destruct (entries (heap w) !! a) as [e|]; [|done]. unfold mret at 1 2, res_ret. rewrite !bind_Ok.
  unfold maybe_delete_locked, entry_at. cbn [set_entry set_entries heap shard entries set_shard].
  rewrite !lookup_insert_eq. unfold mret, res_ret. rewrite !bind_Ok.
  destruct (negb _); [done|]. destruct (deleted _); [done|]. cbn. f_equal.
  unfold free_entry, release_buf, live_bytes. cbn. by destruct (_ <=? _).
Qed.

Lemma invalidate_entry_map a w m :
  invalidate_entry a (set_map w m) = (λ w', set_map w' m) <$> invalidate_entry a w.
Proof.
  unfold invalidate_entry, entry_at. cbn [set_map set_shard heap shard entries].
  destruct (entries (heap w) !! a) as [e|] eqn:E; [|done]. unfold mret at 1 3, res_ret. rewrite !bind_Ok.
  destruct (retired e); [done|].
  replace (segment (status e) (mkShard m (window (shard w)) (probation (shard w)) (protected_ (shard w)) (limits (shard w))
    (sketch (shard w)) (buf_pool (shard w)) (buf_pool_bytes (shard w)))) with (segment (status e) (shard w)) by by destruct (status e).
  destruct (unlink a _) as [l|]; [|done]. rewrite !bind_Ok, <- drop_entry_map. f_equal. by destruct (status e).
Qed.

Lemma invalidate_loop_map seen todo w m :
  invalidate_loop seen todo (set_map w m) = (λ w', set_map w' m) <$> invalidate_loop seen todo w.
Proof.
  revert seen w. induction todo as [|a todo IH]; intros seen w; cbn [invalidate_loop]; [done|].
  case_bool_decide; [apply IH|]. rewrite invalidate_entry_map. destruct (invalidate_entry a w) as [w'|]; [|done].
  cbn. apply IH.
Qed.
End sections.

(** Accounting is given up while the lists are emptied: [exact] is [False]. *)
Section invalidate.
Context (file : list Z) {unpins : list (UnpinAt * Z)}.
Local Abbreviation cache_ok := (cache_ok file False (unpins := unpins)).

Lemma seg_unaccount sp w pins hand loose st n :
  cache_ok sp w pins hand loose →
  cache_ok sp (set_segment st w (mkSegment (seg_list (segment st (shard w))) n)) pins hand loose.
Proof.
  intros []. destruct st; split; try done; intros st' b eb; pose proof (ck_status st' b eb) as Hs; destruct st'; exact Hs.
Qed.

Lemma invalidate_entry_ok sp w pins loose a :
  cache_ok sp w pins [] loose → sh_map (shard w) = ∅ → a ∈ lists (shard w) →
  ∃ w', invalidate_entry a w = Ok w' ∧ cache_ok sp w' pins [] loose ∧ follows w w' ∧ sh_map (shard w') = ∅ ∧
    (∀ b, b ∈ lists (shard w') ↔ b ∈ lists (shard w) ∧ b ≠ a) ∧ (a ∉ pins → entries (heap w') !! a = None).
Proof.
  intros Hc Hm Ha. pose proof (ck_nodup_lists _ _ _ _ _ _ _ Hc) as Hnd.
  destruct (entry_at_live _ _ sp w pins [] loose a Hc) as (e & E & Ea & Hr & He).
  { apply elem_of_app. by left. }
  pose proof (in_its_segment _ _ _ _ _ _ _ _ _ Hc Ha E) as Hin.
  unfold invalidate_entry. rewrite Ea, bind_Ok, Hr. unfold unlink. rewrite bool_decide_true by done.
  unfold mret, res_ret. rewrite bind_Ok.
  destruct (seg_unlink_ok _ _ sp w pins [] loose (status e) a e Hc Hin E) as (n & _ & Hc1).
  set (l := filter _ _) in *. set (n' := seg_bytes _).
  apply (seg_unaccount _ _ _ _ _ (status e) n') in Hc1.
  replace (set_segment (status e) (set_segment (status e) w (mkSegment l n)) _)
    with (set_segment (status e) w (mkSegment l n')) in Hc1 by by destruct (status e).
  destruct (drop_entry_ok _ _ sp _ pins [] loose a Hc1) as (w' & Ew & Hc' & Hf & Hsh & Hfree).
  { intros k. replace (sh_map _) with (sh_map (shard w)) by by destruct (status e). by rewrite Hm, lookup_empty. }
  exists w'. split; [done|]. split; [done|]. split; [|split; [|split; [|done]]].
  - etransitivity; [apply set_segment_follows|done].
  - rewrite (sh_same_map _ _ Hsh), <- Hm. by destruct (status e).
  - intros b. unfold l in Hsh. pose proof (lists_unlink (status e) a w n' Hnd Hin) as Hp. fold l in Hp, Hsh.
    set (w1 := set_segment _ _ _) in *.
    assert (lists (shard w') = lists (shard w1)) as ->.
    { unfold lists. pose proof (sh_segments _ _ Hsh WINDOW) as E1. pose proof (sh_segments _ _ Hsh PROBATION) as E2.
      pose proof (sh_segments _ _ Hsh PROTECTED) as E3. cbn in E1, E2, E3. by rewrite E1, E2, E3. }
    rewrite <- Hp in Hnd. apply NoDup_cons in Hnd as [Hna _]. rewrite <- Hp, elem_of_cons.
    split; [|tauto]. intros Hb. split; [by right|]. by intros ->.
Qed.

Lemma invalidate_loop_ok sp w pins loose seen todo :
  cache_ok sp w pins [] loose → sh_map (shard w) = ∅ → (∀ a, a ∈ todo → a ∉ seen → a ∈ lists (shard w)) →
  ∃ w', invalidate_loop seen todo w = Ok w' ∧ cache_ok sp w' pins [] loose ∧ follows w w' ∧ sh_map (shard w') = ∅ ∧
    (∀ b, b ∈ lists (shard w') ↔ b ∈ lists (shard w) ∧ (b ∈ todo → b ∈ seen)) ∧
    ∀ b, b ∈ todo → b ∉ seen → b ∉ pins → entries (heap w') !! b = None.
Proof.
  revert seen w. induction todo as [|a todo IH]; intros seen w Hc Hm Htodo; cbn [invalidate_loop].
  - exists w. split_and!; try done; [|by intros b ?%not_elem_of_nil].
    intros b. split; [|tauto]. intros Hb. split; [done|]. by intros ?%not_elem_of_nil.
  - case_bool_decide as Hs.
    + destruct (IH seen w Hc Hm) as (w' & Ew & Hc' & Hf & Hm' & Hl & Hfree).
      { intros b Hb. apply Htodo. by right. }
      exists w'. split_and!; try done; [|intros b [-> |Hb]%elem_of_cons ?; [done|by apply Hfree]]. intros b. rewrite Hl, elem_of_cons. split; intros [? Hb]; (split; [done|]); [|tauto].
      intros [-> |?]; tauto.
    + destruct (invalidate_entry_ok sp w pins loose a Hc Hm) as (w1 & E1 & Hc1 & Hf1 & Hm1 & Hl1 & Hfree1).
      { apply Htodo; [left|done]. }
      rewrite E1, bind_Ok. destruct (IH (a :: seen) w1 Hc1 Hm1) as (w' & Ew & Hc' & Hf & Hm' & Hl & Hfree).
      { intros b Hb Hn. apply not_elem_of_cons in Hn as [Hne Hn]. apply Hl1. split; [|done]. apply Htodo; [by right|done]. }
      exists w'. split_and!; try done; [by transitivity w1|..]; intros b.
      * rewrite Hl, Hl1, !elem_of_cons. destruct (decide (b = a)) as [-> | Hne]; tauto.
      * intros Hb Hn Hp. destruct (decide (b = a)) as [-> | Hne].
        -- apply (follows_freed w1); [done| |by apply Hfree1].
           destruct (ck_live _ _ _ _ _ _ _ Hc a) as [e E]; [apply elem_of_app; left; apply Htodo; [left|done]|].
           pose proof (ck_fresh _ _ _ _ _ _ _ Hc a e E). pose proof (fo_next _ _ Hf1). lia.
        -- apply elem_of_cons in Hb as [?|Hb]; [done|]. apply Hfree; [done|by apply not_elem_of_cons|done].
Qed.

(** Every key is gone; what stays listed are the entries no key named. *)
Lemma invalidate_shard_ok exact w pins loose :
  LeafCacheSafety.cache_ok file exact (unpins := unpins) [] w pins [] loose →
  ∃ w', invalidate_shard w = Ok w' ∧ cache_ok [] w' pins [] loose ∧ follows w w' ∧ sh_map (shard w') = ∅ ∧
    (∀ b, b ∈ lists (shard w') ↔ b ∈ lists (shard w) ∧ ∀ k, sh_map (shard w) !! k ≠ Some b) ∧
    (∀ st, seg_bytes (segment st (shard w')) = 0) ∧
    ∀ k a, sh_map (shard w) !! k = Some a → a ∉ pins → entries (heap w') !! a = None.
Proof.
  intros Hc. set (m := sh_map (shard w)).
  assert (cache_ok [] w pins [] loose) as Hw by (destruct Hc; by split).
  assert (cache_ok [] (set_map w ∅) pins [] loose) as Hc0.
  { apply set_map_ok; [done|]. intros k a. by rewrite lookup_empty. }
  assert (∀ a, a ∈ (map_to_list m).*2 ↔ ∃ k, m !! k = Some a) as Hvals.
  { intros a. rewrite list_elem_of_fmap. split.
    - intros ([k a'] & -> & Hk). exists k. by apply elem_of_map_to_list.
    - intros [k Hk]. exists (k, a). split; [done|]. by apply elem_of_map_to_list. }
  destruct (invalidate_loop_ok [] _ pins loose [] (map_to_list m).*2 Hc0) as (w1 & E1 & Hc1 & Hf1 & Hm1 & Hl1 & Hfree1); [done| |].
  { intros a Ha _. apply Hvals in Ha as [k Hk]. by destruct (mapped _ _ _ _ _ _ _ _ Hc Hk). }
  assert (invalidate_loop [] (map_to_list m).*2 w = Ok (set_map w1 m)) as E.
  { replace w with (set_map (set_map w ∅) m) at 1 by by destruct w as [? [] ?].
    by rewrite invalidate_loop_map, E1. }
  unfold invalidate_shard. fold m. rewrite E, bind_Ok.
  change (set_map (set_map w1 m) ∅) with (set_map w1 ∅).
  assert (set_map w1 ∅ = w1) as -> by (rewrite <- Hm1; by destruct w1 as [? [] ?]).
  eexists. split; [done|]. cbn zeta. split; [by repeat apply seg_unaccount|].
  split; [|split; [done|split; [|split; [by intros []|]]]].
  - transitivity w1; [|by repeat (etransitivity; [|apply set_segment_follows])].
    transitivity (set_map w ∅); [|done]. split; [done| |done]. intros a e Ea _. by exists e.
  - intros b. change (lists (shard (set_segment _ _ _))) with (lists (shard w1)). rewrite Hl1.
    split; intros [Hb Hk]; (split; [done|]).
    + intros k Hkb. apply (not_elem_of_nil b). apply Hk, Hvals. by exists k.
    + intros [k Hkb]%Hvals. by destruct (Hk k).
  - intros k a Hk Hp. apply Hfree1; [apply Hvals; by exists k|by apply not_elem_of_nil|done].
Qed.
End invalidate.
