(* ===== verification/LeafCacheFill.v ===== *)
(** * Filling an entry from the file and inserting it *)
From S2P Require Import Prelude PageFile FrequencySketch LeafExtentCache LeafCacheSafety LeafCacheSections.

Lemma bytes_at_split (buf : list Z) off n m : bytes_at buf off (n + m) = bytes_at buf off n ++ bytes_at buf (off + n) m.
Proof.
  unfold bytes_at. rewrite <- take_take_drop. f_equal. by rewrite drop_drop.
Qed.

Lemma pool_take_ok size pool before b rest :
  pool_take size before pool = Some (b, rest) → size ≤ b.2 ∧ b :: rest ≡ₚ before ++ pool.
Proof.
  revert before. induction pool as [|c pool IH]; intros before; cbn [pool_take]; [done|].
  destruct (Z.leb_spec size c.2) as [Hle|_].
  - intros [= <- <-]. split; [done|]. destruct (last pool) as [l|] eqn:El.
    + apply last_Some in El as [pre ->]. rewrite removelast_last.
      rewrite <- !Permutation_middle. by rewrite app_nil_r.
    + apply last_None in El as ->. by rewrite <- Permutation_cons_append.
  - intros E. apply IH in E as [? Hp]. split; [done|]. by rewrite Hp, <- app_assoc.
Qed.

(** What [pread] promises: no more bytes than asked for, and at some point no
    more interruptions. *)
Record kernel_ok (kernel : nat → Z → Z → pread_answer) (last : nat) : Prop := {
  ke_bound i off n m : kernel i off n = Transferred m → m ≤ n;
  ke_calm i off n : (last ≤ i)%nat → kernel i off n ≠ Interrupted;
}.

Lemma mem_write_prefix (buf bs : list Z) got :
  (got ≤ length buf)%nat → (got + length bs ≤ length buf)%nat →
  mem_write buf (Z.of_nat got) bs = Ok (bytes_put buf got bs) ∧ length (bytes_put buf got bs) = length buf ∧
  take (got + length bs) (bytes_put buf got bs) = take got buf ++ bs.
Proof.
  intros Hd Hl. split; [|split].
  - unfold mem_write. rewrite bool_decide_true by lia. by rewrite Nat2Z.id.
  - by apply length_bytes_put.
  - unfold bytes_put. rewrite app_assoc. apply take_app_length'. rewrite length_app, length_take. lia.
Qed.

Section fill.
Context (file : list Z) (kernel : nat → Z → Z → pread_answer) (last : nat).
Context (Hkernel : kernel_ok kernel last).

(** A fill that ends well has the bytes of the file; it fails only with an error
    of the file system, and it ends. *)
Lemma fill_loop_ok fuel i off size got buf :
  (got ≤ size ≤ length buf)%nat → (0 < size)%nat →
  (got = 0 ∨ off + got ≤ length file)%nat → take got buf = bytes_at file off got →
  (size - got + (last - i) ≤ fuel)%nat →
  fill_loop file kernel fuel i (Z.of_nat off) (Z.of_nat size) (Z.of_nat got) buf = Err (Thrown IoError) ∨
  ∃ buf', fill_loop file kernel fuel i (Z.of_nat off) (Z.of_nat size) (Z.of_nat got) buf = Ok buf' ∧
    length buf' = length buf ∧ take size buf' = bytes_at file off size ∧ (off + size ≤ length file)%nat.
Proof.
  revert i got buf. induction fuel as [|fuel IH]; intros i got buf Hd Hs Hfile Hbuf Hfuel; cbn [fill_loop];
    (destruct (Z.leb_spec (Z.of_nat size) (Z.of_nat got)) as [Hle|Hlt];
      [right; exists buf; assert (got = size) as -> by lia; split_and!; [done..|lia]|]); [lia|].
  destruct (kernel i _ _) as [| |n] eqn:Hk; [|by left|].
  - apply IH; try done. destruct (decide (last ≤ i)%nat) as [Hi|Hi]; [by apply (ke_calm _ _ Hkernel _ _ _ Hi) in Hk|lia].
  - apply (ke_bound _ _ Hkernel) in Hk. set (m := Z.min _ _). destruct (Z.leb_spec m 0) as [|Hm]; [by left|].
    assert (m = Z.of_nat (Z.to_nat m)) as Em by lia. set (k := Z.to_nat m) in *.
    assert ((off + got + k ≤ length file)%nat ∧ (k ≤ size - got)%nat ∧ (0 < k)%nat) as (Hf & Hks & Hk0) by lia.
    replace (Z.to_nat (Z.of_nat off + Z.of_nat got)) with (off + got)%nat by lia.
    assert (length (bytes_at file (off + got) k) = k) as Hlen.
    { unfold bytes_at. rewrite length_take, length_drop. lia. }
    destruct (mem_write_prefix buf (bytes_at file (off + got) k) got) as (-> & Hl & Ht); [lia..|].
    rewrite bind_Ok. replace (Z.of_nat got + m) with (Z.of_nat (got + k)) by lia.
    rewrite Hlen in Ht. destruct (IH (Datatypes.S i) (got + k)%nat (bytes_put buf got (bytes_at file (off + got) k)))
      as [E|(buf' & E & Hl' & ? & ?)]; [lia|done|right; lia| |lia|by left|].
    + by rewrite Ht, Hbuf, bytes_at_split.
    + right. exists buf'. by rewrite Hl', Hl.
Qed.
End fill.

Section buffers.
Context (file : list Z) (exact : Prop) {unpins : list (UnpinAt * Z)}.
Local Abbreviation cache_ok := (cache_ok file exact (unpins := unpins)).

(** A section holds the buffer it acquires. *)
Lemma acquire_buf_ok w pins loose size :
  cache_ok [] w pins [] loose → 0 ≤ size →
  ∃ b w' bytes, acquire_buf size w = (b, w') ∧ cache_ok [b] w' pins [] loose ∧ follows w w' ∧
    buffers (heap w') !! b = Some bytes ∧ size ≤ Z.of_nat (length bytes).
Proof.
  intros Hc Hsize. destruct Hc as [? ? ? Hen ? ? ? ? Hpool _ Hown Hfree Hfr Hfb ? ? Hun ?]. unfold acquire_buf.
  destruct (pool_take size [] (buf_pool (shard w))) as [[b rest]|] eqn:Et.
  - apply pool_take_ok in Et as [Hle Hp]. cbn [app] in Hp.
    destruct (Hfree b.1 b.2) as [(bytes & Eb & Hb) Hne]; [rewrite <- Hp; destruct b; left|].
    exists b.1, (set_pool w rest (u64 (buf_pool_bytes (shard w) - b.2))), bytes.
    split; [done|]. split; [|split; [|split; [done|lia]]].
    + assert ((buf_pool (shard w)).*1 ≡ₚ b.1 :: rest.*1) as Hp1 by by rewrite <- Hp.
      split; cbn; try done.
      * cbn in Hpool. by rewrite <- Hp1.
      * intros x Hx%list_elem_of_singleton. by subst.
      * intros x y Hx. destruct (Hown x y Hx) as [Hin|?]; [left|by right]. cbn in Hin. by rewrite Hp1 in Hin.
      * intros x c Hin. apply Hfree. rewrite <- Hp. by right.
    + split; [done| |done]. intros a e E _. by exists e.
  - unfold new_buf. eexists _, _, _. split; [done|]. cbn [heap buffers]. rewrite lookup_insert_eq.
    split; [|split; [|split; [done|rewrite length_replicate; lia]]].
    + assert (∀ x y, buffers (heap w) !! x = Some y → next_addr (heap w) ≠ x) as Hne by (intros x y Hx%Hfb; lia).
      split; cbn; try done.
      * intros a e E. destruct (Hen a e E) as [? ? ? ? [? ? ? (bytes & Eb & ?)] ?]. split; try done. split; try done.
        exists bytes. rewrite lookup_insert_ne; [done|by eapply Hne].
      * apply NoDup_cons. split; [|by cbn in Hpool]. intros Hin. apply list_elem_of_fmap in Hin as ([x c] & Ex & Hin).
        destruct (Hfree x c Hin) as [(bytes & Eb & _) _]. by apply (Hne x bytes).
      * intros x Hx%list_elem_of_singleton a e E. subst x.
        destruct (filled_length _ _ _ (eo_filled _ _ _ _ _ _ (Hen a e E))) as (bytes & Eb & _).
        apply not_eq_sym. by apply (Hne (data e) bytes).
      * intros x y. rewrite lookup_insert_Some. intros [[<- _]|[_ Hx]]; [left; left|].
        destruct (Hown x y Hx) as [Hin|?]; [left; by right|by right].
      * intros x c Hin. destruct (Hfree x c Hin) as [(bytes & Eb & ?) ?]. split; [|done]. exists bytes.
        rewrite lookup_insert_ne; [done|by eapply Hne].
      * intros a e E%Hfr. lia.
      * intros x y. rewrite lookup_insert_Some. intros [[<- _]|[_ Hx%Hfb]]; lia.
      * intros st x [Hx ?]%Hun. split; [lia|done].
    + split; cbn; [lia| |done]. intros a e E _. by exists e.
Qed.

(** The filled entry is published to the section that filled it. *)
Lemma publish_ok w pins loose b old bytes pg size :
  cache_ok [b] w pins [] loose → buffers (heap w) !! b = Some old → size ≤ Z.of_nat (length bytes) → 0 ≤ pg → 0 ≤ size →
  pg * kPageSize + size ≤ Z.of_nat (length file) →
  take (Z.to_nat size) bytes = bytes_at file (Z.to_nat (pg * kPageSize)) (Z.to_nat size) →
  let e := mkEntry pg [pg] (u32 size) WINDOW 0 false false b size in
  let a := next_addr (heap w) in
  let w' := mkWorld (mkHeap (<[a := e]> (entries (heap w))) (<[b := bytes]> (buffers (heap w))) (a + 1)) (shard w) (stats w) in
  cache_ok [] w' pins [] (a :: loose) ∧ follows w w'.
Proof.
  intros Hc Hold Hlen Hpg Hsize Hfile Hbytes e a w'.
  destruct Hc as [Hnd Hl Hst Hen Hpi ? Hmap Hinj Hpool Hsp Hown Hfree Hfr Hfb ? Hb Hun ?].
  assert (∀ x ex, entries (heap w) !! x = Some ex → x ≠ a) as Hne by (intros x ex Ex%Hfr; unfold a; lia).
  assert (a ∉ lists (shard w) ++ [] ++ loose) as Hna.
  { intros Hin. destruct (Hl a Hin) as [ex Ex]. by apply (Hne a ex). }
  assert (a ∉ pins) as Hnp.
  { intros Hin. destruct (Hpi a Hin) as [[ex Ex] _]. by apply (Hne a ex). }
  assert (∀ x, x ∈ lists (shard w) ++ [] ++ (a :: loose) ↔ x = a ∨ x ∈ lists (shard w) ++ [] ++ loose) as Hreach.
  { intros x. rewrite !elem_of_app, elem_of_cons. tauto. }
  assert (∀ x ex, x ≠ a → entries (heap w) !! x = Some ex → <[a := e]> (entries (heap w)) !! x = Some ex) as Hother.
  { intros x ex Hx. by rewrite lookup_insert_ne by by apply not_eq_sym. }
  split; [split; cbn|].
  - rewrite <- Permutation_middle. apply NoDup_cons. by split.
  - intros x [-> | Hx]%Hreach; [by rewrite lookup_insert_eq|]. destruct (Hl x Hx) as [ex Ex]. exists ex.
    apply Hother; [by eapply Hne|done].
  - intros st x ex Hin. rewrite lookup_insert_Some. intros [[<- _]|[_ Ex]]; [|by apply (Hst st x)].
    exfalso. apply Hna. apply elem_of_app. left. apply elem_lists. by exists st.
  - intros x ex. rewrite lookup_insert_Some. intros [[<- <-]|[_ Ex]].
    + split; cbn; try done.
      * symmetry. by apply pin_count_zero.
      * left.
      * intros k Hk%list_elem_of_singleton. by subst.
      * split; try done. exists bytes. cbn. by rewrite lookup_insert_eq.
      * apply Hreach. by left.
    + destruct (Hen x ex Ex) as [? ? ? ? [? ? ? (bs & Eb & ?)] Hr]. split; try done.
      * split; try done. exists bs. rewrite lookup_insert_ne; [done|]. apply not_eq_sym. apply (Hsp b) with (a := x); [left|done].
      * destruct (retired ex); [|apply Hreach; by right]. destruct Hr as [? Hr]. split; [done|].
        intros [-> |?]%Hreach; [by apply (Hne a ex)|done].
  - intros x Hx. destruct (Hpi x Hx) as [[ex Ex] Hlo]. split.
    + exists ex. apply Hother; [by eapply Hne|done].
    + intros [-> |?]%elem_of_cons; done.
  - done.
  - intros k x Hk. destruct (Hmap k x Hk) as (Hin & ex & Ex & ?). split; [done|]. exists ex.
    split; [apply Hother; [by eapply Hne|done]|done].
  - intros x x' ex ex'. rewrite !lookup_insert_Some. intros [[<- <-]|[Hx Ex]] [[<- <-]|[Hx' Ex']] Hd; try done.
    + symmetry in Hd. exfalso. revert Hd. apply (Hsp b) with (a := x'); [left|done].
    + exfalso. revert Hd. apply (Hsp b) with (a := x); [left|done].
    + by apply (Hinj x x' ex ex').
  - cbn in Hpool. by apply NoDup_cons in Hpool as [_ ?].
  - intros x Hx. by apply not_elem_of_nil in Hx.
  - intros x y. destruct (decide (x = b)) as [-> | Hxb].
    + intros _. right. exists a, e. by rewrite lookup_insert_eq.
    + rewrite lookup_insert_ne by by apply not_eq_sym. intros Hx. destruct (Hown x y Hx) as [Hin|(z & ez & Ez & <-)].
      * cbn in Hin. apply elem_of_cons in Hin as [-> |?]; [done|by left].
      * right. exists z, ez. split; [apply Hother; [by eapply Hne|done]|done].
  - intros x c Hin. assert (x ≠ b) as Hxb.
    { intros ->. cbn in Hpool. apply NoDup_cons in Hpool as [Hnb _]. apply Hnb, list_elem_of_fmap. by exists (b, c). }
    destruct (Hfree x c Hin) as [(bs & Eb & ?) Hnx]. split.
    + exists bs. by rewrite lookup_insert_ne by by apply not_eq_sym.
    + intros z ez. rewrite lookup_insert_Some. intros [[<- <-]|[_ Ez]]; [cbn; by apply not_eq_sym|by eapply Hnx].
  - intros x ex. rewrite lookup_insert_Some. intros [[<- _]|[_ Ex%Hfr]]; unfold a; lia.
  - intros x y. rewrite lookup_insert_Some. intros [[<- _]|[_ Hx%Hfb]]; [|unfold a; lia].
    pose proof (Hfb b old Hold). unfold a. lia.
  - done.
  - intros Hex st. etransitivity; [apply (Hb Hex st)|]. f_equal. symmetry. apply total_ext. intros x Hin.
    unfold size_of. cbn. rewrite lookup_insert_ne; [done|]. intros <-. apply Hna. apply elem_of_app. left.
    apply elem_lists. by exists st.
  - intros st x [Hx Hs]%Hun. split; [unfold a; lia|]. rewrite lookup_insert_ne; [done|unfold a; lia].
  - done.
  - split; cbn; [unfold a; lia| |done]. intros x ex. rewrite lookup_insert_Some. intros [[<- _]|[_ Ex]] Hx; [unfold a in Hx; lia|].
    by exists ex.
Qed.

(** The whole fill: an entry of its own, or an error and nothing kept. *)
Lemma new_entry_ok kernel last_eintr fuel w pins loose pg pages :
  kernel_ok kernel last_eintr → cache_ok [] w pins [] loose → extent_ok pg pages →
  (Z.to_nat (pages * kPageSize) + last_eintr ≤ fuel)%nat →
  (∃ w', new_entry file kernel fuel pg pages w = (Err (Thrown IoError), w') ∧
     cache_ok [] w' pins [] loose ∧ follows w w') ∨
  ∃ a w' e, new_entry file kernel fuel pg pages w = (Ok (a, w'), w') ∧
    cache_ok [] w' pins [] (a :: loose) ∧ follows w w' ∧ entries (heap w') !! a = Some e ∧
    page e = pg ∧ buf_cap e = pages * kPageSize ∧ next_addr (heap w) ≤ a ∧ a ∉ pins.
Proof.
  intros Hkernel Hc (Hpg & Hpages & Hmax) Hfuel. assert (0 < pages * kPageSize) as Hsize by (unfold kPageSize; lia).
  destruct (acquire_buf_ok w pins loose (pages * kPageSize) Hc) as (b & w1 & old & Ea & Hc1 & Hf1 & Hb & Hlen); [lia|].
  unfold new_entry. rewrite Ea, Hb.
  pose proof (fill_loop_ok file kernel last_eintr Hkernel fuel 0 (Z.to_nat (pg * kPageSize)) (Z.to_nat (pages * kPageSize)) 0 old) as Hfill.
  rewrite !Z2Nat.id in Hfill by (unfold kPageSize in *; lia).
  destruct Hfill as [E|(bytes & E & Hl & Ht & Hfile)]; [lia|lia|by left|done|lia| |].
  - left. change (Z.of_nat 0) with 0 in E. rewrite E. eexists. split; [done|].
    destruct (release_buf_frame b (pages * kPageSize) w1) as (_ & _ & _ & _ & Hf2).
    split; [by eapply release_buf_ok|by transitivity w1].
  - right. change (Z.of_nat 0) with 0 in E. rewrite E.
    destruct (publish_ok w1 pins loose b old bytes pg (pages * kPageSize) Hc1 Hb) as [Hc2 Hf2]; [lia..|done|].
    eexists (next_addr (heap w1)), _, _. split; [done|]. split; [done|]. split; [by transitivity w1|].
    cbn [heap entries]. rewrite lookup_insert_eq. split; [done|]. split; [done|]. split; [done|].
    split; [by apply (fo_next _ _ Hf1)|]. intros Hin. apply (ck_pins _ _ _ _ _ _ _ Hc2) in Hin as [_ Hin]. apply Hin. left.
Qed.

(** *** Insertion *)

Lemma add_aliases_ok w pins loose a ks :
  cache_ok [] w pins [] loose → a ∈ loose → (∀ e, entries (heap w) !! a = Some e → ∀ k, k ∈ ks → page e ≤ k) →
  ∃ w' e, add_aliases a ks w = Ok w' ∧ cache_ok [] w' pins [] loose ∧ follows w w' ∧
    entries (heap w) !! a = Some e ∧ entries (heap w') !! a = Some (with_keys e (keys e ++ ks)).
Proof.
  intros Hc Ha Hks. destruct (entry_at_live _ _ [] w pins [] loose a Hc) as (e & E & Ea & Hret & He).
  { by apply elem_of_app; right. }
  unfold add_aliases. rewrite Ea, bind_Ok. eexists _, e. split; [done|].
  pose proof (set_entry_ok _ _ [] w pins pins [] loose a e (with_keys e (keys e ++ ks)) Hc E) as Hset.
  split; [|split; [|split; [done|cbn; by rewrite lookup_insert_eq]]].
  - apply (stats_ok _ _ [] (set_entry a (with_keys e (keys e ++ ks)) w)). apply Hset; try done; try apply He.
    + intros k Hk. apply elem_of_app. by left.
    + intros k [Hk|Hk]%elem_of_app; [by apply (eo_keys _ _ _ _ _ _ He)|by apply (Hks e E)].
    + by apply (ck_few _ _ _ _ _ _ _ Hc).
    + intros Hp. by apply (ck_pins _ _ _ _ _ _ _ Hc).
  - transitivity (set_entry a (with_keys e (keys e ++ ks)) w); [by apply (set_entry_follows w a e)|].
    split; [done| |done]. intros x ex Ex _. by exists ex.
Qed.

Lemma first_unpinned_before_ok sp w pins hand loose mine l :
  cache_ok sp w pins hand loose → (∀ a, a ∈ l → a ∈ lists (shard w)) → mine ∉ l →
  ∃ c, first_unpinned_before w mine (l ++ [mine]) = Ok (Some c) ∧
    (c = mine ∧ (∀ a, a ∈ l → a ∈ pins) ∨ c ∈ l ∧ c ∉ pins).
Proof.
  intros Hc. induction l as [|a l IH]; intros Hl Hm; cbn [app first_unpinned_before].
  - rewrite Z.eqb_refl. exists mine. split; [done|]. left. split; [done|]. intros a Ha. by apply not_elem_of_nil in Ha.
  - apply not_elem_of_cons in Hm as [Hne Hm]. rewrite (proj2 (Z.eqb_neq a mine)) by congruence.
    destruct (entry_at_live _ _ sp w pins hand loose a Hc) as (e & E & Ea & _ & He).
    { apply elem_of_app. left. apply Hl. left. }
    rewrite Ea, bind_Ok, (eo_refs _ _ _ _ _ _ He). destruct (Z.ltb_spec 0 (pin_count a pins)) as [Hp|Hp].
    + apply pin_count_pos in Hp. destruct IH as (c & Ec & Hcase); [intros b Hb; apply Hl; by right|done|].
      exists c. split; [done|]. destruct Hcase as [[-> Hall]|[? ?]]; [left|right; split; [by right|done]].
      split; [done|]. intros b [-> |Hb]%elem_of_cons; [done|by apply Hall].
    + exists a. split; [done|]. right. split; [left|]. rewrite <- pin_count_pos. lia.
Qed.

(** The room the window is brought to. *)
Definition window_settled (w : World) (pins : list Z) (mine : Z) : Prop :=
  mine ∈ seg_list (window (shard w)) ∧
  (seg_bytes (window (shard w)) ≤ max_window_bytes (limits (shard w)) ∨
   ∀ a, a ∈ seg_list (window (shard w)) → a ≠ mine → a ∈ pins).

(** One candidate leaves the window: admitted, admitted for a victim, or rejected. *)
Lemma admit_one_ok w pins loose c :
  cache_ok [] w pins [] loose → c ∈ seg_list (window (shard w)) →
  ∃ w', admit_one c w = Ok w' ∧ cache_ok [] w' pins [] loose ∧ follows w w' ∧
    seg_list (window (shard w')) = filter (λ x, x ≠ c) (seg_list (window (shard w))).
Proof.
  intros Hcw Hin. destruct (entry_at_live _ _ [] w pins [] loose c Hcw) as (e & E & Ea & _).
  { apply (live_listed _ _ _ _ _ _ _ WINDOW _ Hcw Hin). }
  destruct (seg_unlink_ok _ _ [] w pins [] loose WINDOW c e Hcw Hin E) as (n & E1 & Hc).
  unfold admit_one. rewrite Ea, bind_Ok, E1, bind_Ok. set (w1 := set_segment _ _ _) in *. cbn zeta.
  assert (follows w w1) as Hf1 by apply set_segment_follows.
  assert (seg_list (segment WINDOW (shard w1)) = filter (λ x, x ≠ c) (seg_list (window (shard w)))) as Hwin by done.
  assert (entries (heap w1) !! c = Some e) as Ew1 by done. clearbody w1. clear Ea E1. destruct (_ <=? _).
  - destruct (seg_push_ok _ _ [] w1 pins [] loose PROBATION c Hc) as (w' & n' & Ew & Hc' & Hf & Hseg & _).
    exists w'. split_and!; try done; [by transitivity w1|].
    change (window (shard w')) with (segment WINDOW (shard w')). by rewrite Hseg.
  - destruct (contest_ok file exact [] w1 pins [c] loose (page e) Hc) as ([v|] & Er & Hv); rewrite Er, bind_Ok.
    + specialize (Hv v eq_refl).
      destruct (evict_ok _ _ [] w1 pins [c] loose PROBATION v Hc Hv) as (w2 & n2 & E3 & Hc2 & Hf2 & Hseg2 & _).
      rewrite E3, bind_Ok.
      destruct (seg_push_ok file exact (unpins := unpins) [] (add_eviction w2) pins [] loose PROBATION c) as (w3 & n3 & E4 & Hc3 & Hf3 & Hseg3 & _).
      { by apply stats_ok. }
      exists w3. split_and!; try done.
      * transitivity w1; [done|]. transitivity w2; [done|]. transitivity (add_eviction w2); [apply stats_follows|done].
      * change (window (shard w3)) with (segment WINDOW (shard w3)). rewrite Hseg3, decide_False by done.
        change (segment WINDOW (shard (add_eviction w2))) with (segment WINDOW (shard w2)). by rewrite Hseg2, decide_False.
    + destruct (erase_keys_ok _ _ [] w1 pins [c] loose c e Hc) as (m & E2 & Hc2 & Hm); [done|].
      rewrite E2, bind_Ok.
      destruct (drop_entry_ok file exact (unpins := unpins) [] (add_rejection (set_map w1 m)) pins [] loose c) as (w2 & E3 & Hc3 & Hf3 & Hsh & _).
      { by apply stats_ok. }
      { intros x Hx. cbn in Hx. by apply Hm in Hx as [_ ?]. }
      exists w2. split_and!; try done.
      * transitivity w1; [done|]. transitivity (add_rejection (set_map w1 m)); [|done].
        split; [done| |done]. intros x ex Ex _. by exists ex.
      * change (window (shard w2)) with (segment WINDOW (shard w2)). by rewrite (sh_segments _ _ Hsh).
Qed.

Lemma admit_loop_ok w pins loose mine rest fuel :
  cache_ok [] w pins [] loose → seg_list (window (shard w)) = mine :: rest → (length rest ≤ fuel)%nat →
  ∃ w', admit_loop fuel mine w = Ok w' ∧ cache_ok [] w' pins [] loose ∧ follows w w' ∧ window_settled w' pins mine.
Proof.
  revert w rest. induction fuel as [|fuel IH]; intros w rest Hc Hw Hfuel; cbn [admit_loop];
    (destruct (Z.ltb_spec (max_window_bytes (limits (shard w))) (seg_bytes (window (shard w)))) as [Hlt|Hle];
      [|exists w; unfold window_settled; split_and!; try done; [rewrite Hw; left|by left]]);
    pose proof (NoDup_segment WINDOW _ (ck_nodup_lists _ _ _ _ _ _ _ Hc)) as Hnd; cbn [segment] in Hnd;
    rewrite Hw in Hnd |- *; apply NoDup_cons in Hnd as [Hmr Hnd]; rewrite reverse_cons;
    destruct (first_unpinned_before_ok [] w pins [] loose mine (reverse rest) Hc) as (c & Ec & Hcase);
    try (intros a Ha; rewrite elem_of_reverse in Ha; apply elem_lists; exists WINDOW; cbn; rewrite Hw; by right);
    try (by rewrite elem_of_reverse);
    rewrite Ec, bind_Ok.
  1: { destruct rest; [|cbn in Hfuel; lia]. destruct Hcase as [[-> _]|[Hin _]]; [|by apply not_elem_of_nil in Hin].
    rewrite Z.eqb_refl. exists w. unfold window_settled. split_and!; try done; [rewrite Hw; left|right]. rewrite Hw.
    intros a [-> |Ha%not_elem_of_nil]%elem_of_cons; done. }
  destruct Hcase as [[-> Hall]|[Hin Hnp]].
  - rewrite Z.eqb_refl. exists w. unfold window_settled. split_and!; try done; [rewrite Hw; left|right]. rewrite Hw.
    intros a [-> |Ha]%elem_of_cons Hne; [done|]. apply Hall. by rewrite elem_of_reverse.
  - rewrite elem_of_reverse in Hin. assert (c ≠ mine) as Hcm by (by intros ->). rewrite (proj2 (Z.eqb_neq c mine) Hcm).
    assert (c ∈ seg_list (segment WINDOW (shard w))) as Hcw by (cbn; rewrite Hw; by right).
    destruct (admit_one_ok w pins loose c Hc Hcw) as (w' & -> & Hc' & Hf' & Hseg). rewrite bind_Ok.
    destruct (IH w' (filter (λ x, x ≠ c) rest) Hc') as (w2 & E2 & Hc2 & Hf2 & Hpost).
    + by rewrite Hseg, Hw, filter_cons, decide_True by by apply not_eq_sym.
    + pose proof (filter_ne_length c rest Hnd Hin). lia.
    + exists w2. split_and!; try done. by transitivity w'.
Qed.

Lemma add_keys_lookup a ks m k b : add_keys a ks m !! k = Some b → m !! k = Some b ∨ b = a ∧ k ∈ ks.
Proof.
  unfold add_keys. revert m. induction ks as [|k' ks IH]; intros m; cbn [foldl]; [by left|].
  intros Hk. apply IH in Hk as [Hk|[-> ?]]; [|right; split; [done|by right]].
  destruct (m !! k') as [x|] eqn:Ek; [by left|]. apply lookup_insert_Some in Hk as [[<- <-]|[_ ?]]; [|by left].
  right. split; [done|left].
Qed.

(** Keys are added for a listed entry that has them. *)
Lemma add_keys_ok w pins hand loose a e ks :
  cache_ok [] w pins hand loose → a ∈ lists (shard w) → entries (heap w) !! a = Some e → (∀ k, k ∈ ks → k ∈ keys e) →
  cache_ok [] (set_map w (add_keys a ks (sh_map (shard w)))) pins hand loose.
Proof.
  intros [] Ha E Hks. split; try done. cbn. intros k b Hk. apply add_keys_lookup in Hk as [Hk|[-> Hin]]; [by apply ck_map|].
  split; [apply elem_of_app; by left|]. exists e. split; [done|auto].
Qed.

Lemma loose_to_hand w pins a loose : cache_ok [] w pins [] (a :: loose) → cache_ok [] w pins [a] loose.
Proof.
  intros [? ? ? ? Hpi ? Hm ? ? ? ? ? ? ? ? ?]. split; try done.
  - intros b Hb. destruct (Hpi b Hb) as [? Hn]. split; [done|]. apply not_elem_of_cons in Hn. tauto.
  - intros k b Hk. destruct (Hm k b Hk) as [Hin ?]. split; [|done]. rewrite app_nil_r in Hin. apply elem_of_app. by left.
Qed.

(** A fill nobody has seen goes again. *)
Lemma drop_filled_ok w pins a loose :
  cache_ok [] w pins [] (a :: loose) →
  ∃ w', drop_filled a w = Ok w' ∧ cache_ok [] w' pins [] loose ∧ follows w w' ∧ same_shape w w'.
Proof.
  intros Hc. destruct (drop_entry_ok file exact (unpins := unpins) [] w pins [] loose a) as (w' & ? & ? & ? & ? & _); [by apply loose_to_hand| |by exists w']. intros k Hk.
  destruct (ck_map _ _ _ _ _ _ _ Hc k a Hk) as [Hin _]. rewrite app_nil_r in Hin.
  apply (listed_not_loose _ _ _ _ _ _ _ _ Hc Hin). left.
Qed.

(** *** The section after the fill *)

Definition pinned_by (r : pinned) : option Z := match r with Pinned a => Some a | Fallback => None end.

Lemma covers_follows w w' a pg pages :
  covers w a pg pages → follows w w' → a < next_addr (heap w) → is_Some (entries (heap w') !! a) → covers w' a pg pages.
Proof.
  intros (e & E & Hp & Hn) Hf Ha [e' E']. destruct (fo_entries _ _ Hf a e' E' Ha) as (e0 & E0 & Hpg & _ & _ & Hcap).
  assert (e0 = e) as -> by congruence. exists e'. rewrite Hpg, Hcap. by split.
Qed.

(** The pin is taken, the entry listed and its keys added, then the window settles. *)
Lemma insert_new_ok w pins loose a e :
  cache_ok [] w pins [] (a :: loose) → entries (heap w) !! a = Some e → Z.of_nat (length pins) + 1 < 2 ^ 32 →
  ∃ w', (w ← seg_push WINDOW a (set_entry a (with_refs e 1) w);
      let w := set_map w (add_keys a (page e :: filter (λ k, k ≠ page e) (keys e)) (sh_map (shard w))) in
      admit_loop (length (seg_list (window (shard w)))) a w) = Ok w' ∧
    cache_ok [] w' (a :: pins) [] loose ∧ follows w w' ∧ window_settled w' (a :: pins) a.
Proof.
  intros Hc E Hn. assert (a ∉ pins) as Hnp.
  { intros Hp. apply (ck_pins _ _ _ _ _ _ _ Hc) in Hp as [_ Hl]. apply Hl. left. }
  pose proof (ck_entries _ _ _ _ _ _ _ Hc a e E) as He.
  assert (retired e = false) as Hret.
  { pose proof (eo_reach _ _ _ _ _ _ He) as Hr. destruct (retired e); [|done]. destruct Hr as [_ []].
    rewrite !elem_of_app. right. right. left. }
  pose proof (ck_nodup _ _ _ _ _ _ _ Hc) as Hnd. rewrite app_nil_l, NoDup_app, NoDup_cons in Hnd.
  destruct Hnd as (_ & Hdis & Hal & _).
  set (e1 := with_refs e 1). set (w1 := set_entry a e1 w).
  assert (cache_ok [] w1 (a :: pins) [a] loose) as Hc1.
  { apply (set_entry_ok _ _ [] w pins (a :: pins) [a] loose a e); try done; try apply He.
    - by apply loose_to_hand.
    - cbn. rewrite pin_count_cons, decide_True, (proj2 (pin_count_zero a pins)) by done. lia.
    - intros b Hb. rewrite pin_count_cons, decide_False by done. lia.
    - cbn. lia. }
  destruct (seg_push_ok _ _ [] w1 (a :: pins) [] loose WINDOW a Hc1) as (w2 & n & E2 & Hc2 & Hf2 & Hseg & He2).
  rewrite E2, bind_Ok. cbn zeta. specialize (He2 e1 ltac:(cbn; by rewrite lookup_insert_eq)).
  assert (seg_list (window (shard w2)) = a :: seg_list (window (shard w1))) as Hw.
  { change (window (shard w2)) with (segment WINDOW (shard w2)). by rewrite Hseg. }
  set (w3 := set_map w2 _).
  assert (cache_ok [] w3 (a :: pins) [] loose) as Hc3.
  { apply (add_keys_ok w2 (a :: pins) [] loose a (with_status e1 WINDOW) _ Hc2); [|exact He2|].
    - apply elem_lists. exists WINDOW. cbn [segment]. rewrite Hw. left.
    - intros k [-> |Hk]%elem_of_cons; [apply He|]. by apply list_elem_of_filter in Hk as [_ ?]. }
  destruct (admit_loop_ok w3 (a :: pins) loose a _ (length (seg_list (window (shard w3)))) Hc3 Hw) as (w' & E4 & Hc4 & Hf4 & Hpost).
  { change (window (shard w3)) with (window (shard w2)). rewrite Hw. cbn. lia. }
  exists w'. split_and!; try done. transitivity w1; [by apply (set_entry_follows w a e)|]. transitivity w2; [done|].
  transitivity w3; [|done]. split; [done| |done]. intros x ex Ex _. by exists ex.
Qed.

Lemma pin_insert_ok w pins loose a e pg pages :
  cache_ok [] w pins [] (a :: loose) → entries (heap w) !! a = Some e → page e = pg →
  extent_ok pg pages → buf_cap e = pages * kPageSize → Z.of_nat (length pins) + 1 < 2 ^ 32 →
  ∃ r w', pin_insert a pg pages w = Ok (r, w') ∧ cache_ok [] w' (pins_after (pinned_by r) pins) [] loose ∧
    follows w w' ∧ (∀ b, r = Pinned b → covers w' b pg pages) ∧
    (r = Pinned a → window_settled w' (a :: pins) a).
Proof.
  intros Hc E Hpg Hx Hcap Hn. unfold pin_insert.
  destruct (try_hit_ok _ _ w pins (a :: loose) pg pages Hc Hx Hn) as (hit & w1 & E1 & Hc1 & Hf1 & Hcov).
  rewrite E1, bind_Ok. destruct hit as [v|]; cbn [pins_after] in Hc1.
  - destruct (drop_filled_ok w1 (v :: pins) a loose Hc1) as (w2 & E2 & Hc2 & Hf2 & _). rewrite E2, bind_Ok.
    exists (Pinned v), w2. destruct (ck_pins _ _ _ _ _ _ _ Hc1 v) as [[ev Ev] Hv]; [left|].
    split; [done|]. split; [done|]. split; [by transitivity w1|]. split.
    + intros ? [= <-]. apply (covers_follows w1); [by apply Hcov|done|by apply (ck_fresh _ _ _ _ _ _ _ Hc1 v ev)|].
      apply (ck_pins _ _ _ _ _ _ _ Hc2 v). left.
    + intros [= ->]. exfalso. apply Hv. left.
  - destruct (entry_at_live _ _ [] w1 pins [] (a :: loose) a Hc1) as (e1 & E2 & Ea & _); [rewrite !elem_of_app; right; right; left|].
    rewrite Ea, bind_Ok. cbn zeta.
    destruct (fo_entries _ _ Hf1 a e1 E2) as (e0 & E0 & Hp1 & _ & _ & Hcap1); [by apply (ck_fresh _ _ _ _ _ _ _ Hc a e)|].
    assert (e0 = e) as -> by congruence. destruct (_ <? _).
    + destruct (drop_filled_ok (add_rejection w1) pins a loose) as (w2 & E3 & Hc2 & Hf2 & _); [by apply stats_ok|].
      rewrite E3, bind_Ok. exists Fallback, w2. split_and!; try done.
      transitivity w1; [done|]. transitivity (add_rejection w1); [apply stats_follows|done].
    + destruct (insert_new_ok w1 pins loose a e1 Hc1 E2 Hn) as (w' & E3 & Hc3 & Hf3 & Hpost).
      rewrite Hp1, Hpg in E3. exists (Pinned a), w'. split; [|split; [done|split; [by transitivity w1|split; [|done]]]].
      * apply bind_Ok_inv in E3 as (w2 & E3 & E4). rewrite E3, bind_Ok. cbn zeta in E4 |- *. by rewrite E4.
      * intros ? [= <-]. apply (covers_follows w1); [|done|by apply (ck_fresh _ _ _ _ _ _ _ Hc1 a e1)|].
        -- exists e1. destruct Hx as (? & ? & ?). rewrite Hp1, Hcap1, Hpg, Hcap. split; [done|]. lia.
        -- apply (ck_pins _ _ _ _ _ _ _ Hc3 a). left.
Qed.
End buffers.
