(* ===== verification/LeafCacheRuns.v ===== *)
(** * Runs of the leaf cache: any interleaving of the sections of its calls

    A run is a sequence of critical sections of [pin] and [invalidate_all] and of
    atomic accesses of [unpin], by any number of threads, in any order; the ghost
    state is the pins held, the fills not yet inserted and the [unpin]s under way.
    The accesses of an [unpin] fall between sections; EntryLifetime.v has those that
    fall inside the section that evicts the entry. *)
From S2P Require Import Prelude PageFile FrequencySketch LeafExtentCache LeafCacheSafety LeafCacheSections LeafCacheFill.

Record Run := mkRun { world : World; pins : list Z; fills : list Z; unpins : list (UnpinAt * Z) }.

(** A section, or an access of an [unpin], with what its thread knows. *)
Inductive Op :=
  | PinFast (pg pages : Z)
  | PinRecheck (pg pages : Z)
  | PinGate (pg pages : Z)
  | PinFill (kernel : nat → Z → Z → pread_answer) (fuel : nat) (pg pages : Z) (aliases : list Z)
  | PinInsert (a pg pages : Z)
  | Unpin (at_ : UnpinAt) (a : Z)
  | Invalidate.

Fixpoint drop_pin (a : Z) (l : list Z) : list Z :=
  match l with [] => [] | b :: l => if b =? a then l else b :: drop_pin a l end.

(** A thread in [unpin] leaves the access it was at. *)
Fixpoint drop_unpin (at_ : UnpinAt) (a : Z) (l : list (UnpinAt * Z)) : list (UnpinAt * Z) :=
  match l with [] => [] | p :: l => if bool_decide (p = (at_, a)) then l else p :: drop_unpin at_ a l end.

Section runs.
Context (file : list Z).

(** The entry the section pins, and what it leaves. *)
Definition step (op : Op) (s : Run) : res (option Z * Run) :=
  match op with
  | PinFast pg pages =>
      '(hit, w) ← pin_fast pg pages (world s); mret (hit, mkRun w (pins_after hit (pins s)) (fills s) (unpins s))
  | PinRecheck pg pages =>
      '(hit, w) ← try_hit pg pages (world s); mret (hit, mkRun w (pins_after hit (pins s)) (fills s) (unpins s))
  | PinGate pg pages => '(_, w) ← pin_gate pg pages (world s); mret (None, mkRun w (pins s) (fills s) (unpins s))
  | PinFill kernel fuel pg pages aliases =>
      match new_entry file kernel fuel pg pages (world s) with
      | (Ok (a, w), _) => w ← add_aliases a aliases w; mret (None, mkRun w (pins s) (a :: fills s) (unpins s))
      | (Err (Thrown _), w) => mret (None, mkRun w (pins s) (fills s) (unpins s))
      | (Err x, _) => Err x
      end
  | PinInsert a pg pages =>
      '(r, w) ← pin_insert a pg pages (world s);
      mret (pinned_by r, mkRun w (pins_after (pinned_by r) (pins s)) (drop_pin a (fills s)) (unpins s))
  | Unpin at_ a =>
      '(next, w) ← unpin at_ a (world s);
      mret (None, mkRun w (if decide (at_ = AtDecrement) then drop_pin a (pins s) else pins s) (fills s)
        (past next a (drop_unpin at_ a (unpins s))))
  | Invalidate => w ← invalidate_shard (world s); mret (None, mkRun w (pins s) (fills s) (unpins s))
  end.

(** The extent a section is asked for. *)
Definition asks (op : Op) : option (Z * Z) :=
  match op with
  | PinFast pg pages | PinRecheck pg pages | PinInsert _ pg pages => Some (pg, pages)
  | _ => None
  end.

(** What callers and the kernel keep to: extents inside a file system's reach,
    fewer than 2^32 pins at once, run aliases at or after the start of the run,
    a thread inserts its own fill, unpins what it has pinned and makes the accesses
    of its [unpin] in their order. *)
Definition allowed (op : Op) (s : Run) : Prop :=
  match op with
  | PinFast pg pages | PinRecheck pg pages => extent_ok pg pages ∧ Z.of_nat (length (pins s)) + 1 < 2 ^ 32
  | PinGate pg pages => extent_ok pg pages
  | PinFill kernel fuel pg pages aliases => extent_ok pg pages ∧ (∀ k, k ∈ aliases → pg ≤ k) ∧
      ∃ last, kernel_ok kernel last ∧ (Z.to_nat (pages * kPageSize) + last ≤ fuel)%nat
  | PinInsert a pg pages => extent_ok pg pages ∧ Z.of_nat (length (pins s)) + 1 < 2 ^ 32 ∧ a ∈ fills s ∧
      ∃ e, entries (heap (world s)) !! a = Some e ∧ page e = pg ∧ buf_cap e = pages * kPageSize
  | Unpin AtDecrement a => a ∈ pins s
  | Unpin at_ a => (at_, a) ∈ unpins s
  | Invalidate => True
  end.

(** An [unpin]'s access to its entry after another thread has freed it. *)
Definition stale (op : Op) (s : Run) : Prop :=
  match op with
  | Unpin (AtRetired | AtRefs | AtExchange) a => entries (heap (world s)) !! a = None
  | _ => False
  end.

#[export] Instance stale_dec op s : Decision (stale op s).
Proof. destruct op as [| | | | |[] a|]; apply _. Defined.

Definition run_step (s s' : Run) : Prop := ∃ op r, allowed op s ∧ step op s = Ok (r, s').

(** A shard before any call, its sketch sized or not. *)
Definition fresh_run (lim : Limits) (n : option Z) : Run :=
  let w := mkWorld (mkHeap ∅ ∅ 0) (new_shard lim) (mkStats 0 0 0 0 0) in
  mkRun (match n with Some n => set_sketch w (ensure_capacity n sketch_new) | None => w end) [] [] [].

(** ** The invariant along a run *)

Definition run_ok (exact : Prop) (s : Run) : Prop :=
  cache_ok file exact (unpins := unpins s) [] (world s) (pins s) [] (fills s).

Lemma drop_pin_perm a l : a ∈ l → l ≡ₚ a :: drop_pin a l.
Proof.
  induction l as [|b l IH]; [by intros ?%not_elem_of_nil|]. cbn. destruct (Z.eqb_spec b a) as [-> |Hne]; [done|].
  intros [->|Ha]%elem_of_cons; [done|]. rewrite (IH Ha) at 1. apply Permutation_swap.
Qed.

Lemma drop_unpin_perm at_ a l : (at_, a) ∈ l → l ≡ₚ (at_, a) :: drop_unpin at_ a l.
Proof.
  induction l as [|p l IH]; [by intros ?%not_elem_of_nil|]. cbn. case_bool_decide as Hp; [by subst p|].
  intros [Hp'|Ha]%elem_of_cons; [by subst p|]. rewrite (IH Ha) at 1. apply Permutation_swap.
Qed.

Lemma drop_unpin_decrement a l : (∀ p, p ∈ l → p.1 ≠ AtDecrement) → drop_unpin AtDecrement a l = l.
Proof.
  induction l as [|p l IH]; intros Hl; [done|]. cbn. rewrite IH by (intros p' Hp; apply Hl; by right).
  rewrite bool_decide_false; [done|]. intros ->. by apply (Hl (AtDecrement, a)); [left|].
Qed.

Lemma fresh_run_ok exact lim n : from_option (λ n, 0 ≤ n ≤ 2 ^ 28) True n → run_ok exact (fresh_run lim n).
Proof.
  intros Hn. unfold run_ok.
  assert (sketch_sound (sketch (shard (world (fresh_run lim n))))) as Hs.
  { destruct n as [n|]; [|by left]. right. destruct (ensure_capacity_ok n Hn) as (t & Ht & _). by exists t. }
  set (w := world (fresh_run lim n)) in *.
  assert (entries (heap w) = ∅ ∧ buffers (heap w) = ∅ ∧ sh_map (shard w) = ∅ ∧ buf_pool (shard w) = [] ∧ lists (shard w) = [])
    as (He & Hb & Hm & Hp & Hl) by by destruct n.
  split; rewrite ?He, ?Hb, ?Hm, ?Hp, ?Hl; try done; try (intros *; rewrite lookup_empty; done);
    try (intros *; by rewrite elem_of_nil).
  - destruct n; constructor.
  - constructor.
  - intros _ st. by destruct n, st.
  - constructor.
Qed.

Lemma exact_weaken (P Q : Prop) u sp w ps hand loose :
  (Q → P) → cache_ok file P (unpins := u) sp w ps hand loose → cache_ok file Q (unpins := u) sp w ps hand loose.
Proof. intros HPQ []. split; auto. Qed.

(** The bytes stay accounted unless a listed entry had no key when everything
    was invalidated. *)
Definition all_keyed (w : World) : Prop := ∀ a, a ∈ lists (shard w) → ∃ k, sh_map (shard w) !! k = Some a.
Definition keeps_exact (op : Op) (s : Run) : Prop := match op with Invalidate => all_keyed (world s) | _ => True end.

(** An [unpin]'s access to a freed entry is undefined. *)
Lemma stale_faults op s : stale op s → step op s = Err UndefinedBehaviour.
Proof.
  destruct op as [| | | | |at_ a|]; try done. cbn [step]. intros E.
  assert (unpin at_ a (world s) = Err UndefinedBehaviour) as ->; [|done].
  destruct at_; cbn in E; try done; unfold unpin, maybe_delete, entry_at; by rewrite E.
Qed.

Lemma unpin_step_ok exact at_ a s :
  run_ok exact s → allowed (Unpin at_ a) s → ¬ stale (Unpin at_ a) s →
  ∃ s', step (Unpin at_ a) s = Ok (None, s') ∧ run_ok exact s' ∧ follows (world s) (world s').
Proof.
  intros Hok Ha Hs. unfold run_ok in Hok. cbn [step]. destruct (decide (at_ = AtDecrement)) as [-> |Hat].
  - cbn [allowed] in Ha. apply drop_pin_perm in Ha.
    apply (cache_ok_perm _ _ [] _ _ (a :: drop_pin a (pins s)) [] [] _ (fills s)) in Hok; try done.
    destruct (unpin_decrement_ok _ _ (unpins s) [] (world s) (drop_pin a (pins s)) (fills s) a Hok) as (next & w & -> & Hc & Hf).
    rewrite bind_Ok, drop_unpin_decrement; [by eexists|].
    intros [st b] Hin Hst. cbn in Hst. subst st. apply (ck_unpins _ _ _ _ _ _ _ Hok) in Hin as [_ Hn].
    destruct (entries _ !! b); [done|by destruct Hn].
  - assert ((at_, a) ∈ unpins s) as Hin by by destruct at_.
    destruct (entries (heap (world s)) !! a) as [e|] eqn:E.
    + apply (cache_ok_unpins_perm _ _ _ (past (Some at_) a (drop_unpin at_ a (unpins s)))) in Hok; [|by apply drop_unpin_perm].
      destruct (unpin_next_ok _ _ at_ _ [] (world s) (pins s) (fills s) a e Hok E) as (next & w & -> & Hc & Hf).
      rewrite bind_Ok. by eexists.
    + exfalso. destruct (ck_unpins _ _ _ _ _ _ _ Hok _ _ Hin) as [_ Hn]. rewrite E in Hn. destruct Hn. by destruct at_.
Qed.

(** What a section of an allowed step does, in one statement. *)
Lemma step_ok exact op s :
  run_ok exact s → allowed op s → ¬ stale op s →
  ∃ r s', step op s = Ok (r, s') ∧ run_ok (exact ∧ keeps_exact op s) s' ∧ follows (world s) (world s') ∧
    (∀ a, r = Some a → a ∈ pins s' ∧ ∀ pg pages, asks op = Some (pg, pages) → covers (world s') a pg pages).
Proof.
  intros Hok Ha Hs. destruct op as [pg pages|pg pages|pg pages|kernel fuel pg pages ks|a pg pages|at_ a|].
  6: { destruct (unpin_step_ok exact at_ a s Hok Ha Hs) as (s' & -> & Hok' & Hf). exists None, s'. split; [done|].
    split; [by eapply exact_weaken; [|exact Hok']; tauto|by split]. }
  all: unfold run_ok in Hok; cbn [step allowed] in *.
  - destruct Ha as [Hx Hn]. destruct (pin_fast_ok _ _ (world s) (pins s) (fills s) pg pages Hok Hx Hn) as (hit & w & -> & Hc & Hf & Hcov).
    exists hit, (mkRun w (pins_after hit (pins s)) (fills s) (unpins s)). split; [done|].
    split; [by eapply exact_weaken; [|exact Hc]; tauto|]. split; [done|]. intros a ->. split; [left|].
    intros ? ? [= <- <-]. by apply Hcov.
  - destruct Ha as [Hx Hn]. destruct (try_hit_ok _ _ (world s) (pins s) (fills s) pg pages Hok Hx Hn) as (hit & w & -> & Hc & Hf & Hcov).
    exists hit, (mkRun w (pins_after hit (pins s)) (fills s) (unpins s)). split; [done|].
    split; [by eapply exact_weaken; [|exact Hc]; tauto|]. split; [done|]. intros a ->. split; [left|].
    intros ? ? [= <- <-]. by apply Hcov.
  - destruct (pin_gate_ok _ _ (world s) (pins s) (fills s) pg pages Hok) as (r & w & -> & Hc & Hf).
    exists None, (mkRun w (pins s) (fills s) (unpins s)). split; [done|].
    split; [by eapply exact_weaken; [|exact Hc]; tauto|by split].
  - destruct Ha as (Hx & Hks & last & Hk & Hfuel).
    destruct (new_entry_ok _ _ kernel last fuel (world s) (pins s) (fills s) pg pages Hk Hok Hx Hfuel)
      as [(w & -> & Hc & Hf)|(a & w & e & -> & Hc & Hf & E & Hpg & _)].
    + exists None, (mkRun w (pins s) (fills s) (unpins s)). split; [done|].
      split; [by eapply exact_weaken; [|exact Hc]; tauto|by split].
    + destruct (add_aliases_ok _ _ w (pins s) (a :: fills s) a ks Hc) as (w' & e' & -> & Hc' & Hf' & _); [left| |].
      { intros e1 E1 k Hin. assert (e1 = e) as -> by congruence. rewrite Hpg. auto. }
      exists None, (mkRun w' (pins s) (a :: fills s) (unpins s)). split; [done|].
      split; [by eapply exact_weaken; [|exact Hc']; tauto|]. split; [by transitivity w|done].
  - destruct Ha as (Hx & Hn & Hin & e & E & Hpg & Hcap). apply drop_pin_perm in Hin.
    apply (cache_ok_perm _ _ [] _ _ (pins s) [] [] _ (a :: drop_pin a (fills s))) in Hok; try done.
    destruct (pin_insert_ok _ _ (world s) (pins s) _ a e pg pages Hok E Hpg Hx Hcap Hn) as (r & w & -> & Hc & Hf & Hcov & _).
    exists (pinned_by r), (mkRun w (pins_after (pinned_by r) (pins s)) (drop_pin a (fills s)) (unpins s)). split; [done|].
    split; [by eapply exact_weaken; [|exact Hc]; tauto|]. split; [done|]. intros b Hb. destruct r as [x|]; [|done].
    injection Hb as ->. split; [left|]. intros ? ? [= <- <-]. by apply Hcov.
  - destruct (invalidate_shard_ok file exact (world s) (pins s) (fills s) Hok) as (w & -> & Hc & Hf & Hm & Hl & Hz & _).
    exists None, (mkRun w (pins s) (fills s) (unpins s)). split; [done|]. split; [|by split].
    destruct Hc. split; try done. intros [_ Hk] st. rewrite Hz. cbn [world].
    assert (seg_list (segment st (shard w)) = []) as ->; [|done].
    destruct (seg_list (segment st (shard w))) as [|b l] eqn:E; [done|]. exfalso.
    assert (b ∈ lists (shard w)) as Hb by (apply elem_lists; exists st; rewrite E; left).
    apply Hl in Hb as [Hb Hn]. destruct (Hk b Hb) as [k Hk']. by apply (Hn k).
Qed.

Lemma step_Ok_ok exact op r s s' :
  run_ok exact s → allowed op s → step op s = Ok (r, s') → run_ok (exact ∧ keeps_exact op s) s' ∧
  follows (world s) (world s') ∧
  (∀ a, r = Some a → a ∈ pins s' ∧ ∀ pg pages, asks op = Some (pg, pages) → covers (world s') a pg pages).
Proof.
  intros Hok Ha E. destruct (decide (stale op s)) as [Hs|Hs]; [by rewrite (stale_faults op s Hs) in E|].
  destruct (step_ok exact op s Hok Ha Hs) as (r' & s1 & E1 & H1). by assert (r' = r ∧ s1 = s') as [-> ->] by by (rewrite E1 in E; injection E).
Qed.

Lemma steps_ok s s' : run_ok False s → rtc run_step s s' → run_ok False s' ∧ follows (world s) (world s').
Proof.
  intros Hok Hrun. induction Hrun as [s|s s1 s2 (op & r & Ha & E) _ IH]; [done|].
  destruct (step_Ok_ok False op r s s1 Hok Ha E) as (Hok' & Hf & _). destruct IH as [? ?]; [|split; [done|by transitivity (world s1)]].
  eapply exact_weaken; [|exact Hok']. tauto.
Qed.

(** With nothing pinned, filled or being unpinned only what is listed is allocated. *)
Lemma quiet_ok exact s :
  run_ok exact s → pins s = [] → fills s = [] → unpins s = [] →
  (∀ a, is_Some (entries (heap (world s)) !! a) ↔ a ∈ lists (shard (world s))) ∧
  ∀ b, is_Some (buffers (heap (world s)) !! b) → b ∈ (buf_pool (shard (world s))).*1 ∨
    ∃ a e, a ∈ lists (shard (world s)) ∧ entries (heap (world s)) !! a = Some e ∧ data e = b.
Proof.
  unfold run_ok. intros Hok Hp Hf Hu. rewrite Hp, Hf, Hu in Hok.
  assert (∀ a e, entries (heap (world s)) !! a = Some e → a ∈ lists (shard (world s))) as Hlisted.
  { intros a e E. destruct (ck_entries _ _ _ _ _ _ _ Hok a e E) as [_ Hr _ _ _ Hre]. rewrite app_nil_r in Hre.
    destruct (retired e); [|done]. destruct Hre as [[Hpos|[st Hin]] _]; [unfold pin_count in Hr; cbn in Hr; lia|by apply not_elem_of_nil in Hin]. }
  split.
  - intros a. split; [by intros [e E]; apply (Hlisted a e)|]. intros Ha. apply (ck_live _ _ _ _ _ _ _ Hok). by rewrite app_nil_r.
  - intros b [x Hx]. destruct (ck_owned _ _ _ _ _ _ _ Hok b x Hx) as [?|(a & e & E & Hd)]; [by left|right].
    exists a, e. split; [by apply (Hlisted a e)|done].
Qed.

(** Steps that keep the accounting. *)
Definition exact_step (s s' : Run) : Prop := ∃ op r, allowed op s ∧ keeps_exact op s ∧ step op s = Ok (r, s').

Lemma exact_steps_ok s s' : run_ok True s → rtc exact_step s s' → run_ok True s'.
Proof.
  intros Hok Hrun. induction Hrun as [s|s s1 s2 (op & r & Ha & Hk & E) _ IH]; [done|].
  destruct (step_Ok_ok True op r s s1 Hok Ha E) as (Hok' & _). apply IH. by eapply exact_weaken; [|exact Hok'].
Qed.

(** The pointer a pin returned reads the file. *)
Definition serves (w : World) (a pg pages : Z) : Prop :=
  ∃ e bytes, entries (heap w) !! a = Some e ∧ buffers (heap w) !! (entry_ptr e pg).1 = Some bytes ∧
    mem_read bytes (entry_ptr e pg).2 (pages * kPageSize) =
      Ok (bytes_at file (Z.to_nat (pg * kPageSize)) (Z.to_nat (pages * kPageSize))).

Lemma bytes_at_bytes_at (l : list Z) o c off n :
  (off + n ≤ c)%nat → bytes_at (bytes_at l o c) off n = bytes_at l (o + off) n.
Proof.
  intros Hle. apply list_eq. intros i. unfold bytes_at. destruct (decide (i < n)%nat) as [Hi|Hi].
  - rewrite !lookup_take_lt, !lookup_drop by lia. rewrite lookup_take_lt, lookup_drop by lia. f_equal. lia.
  - by rewrite !lookup_take_ge by lia.
Qed.

Lemma covers_serves exact u w ps hand loose a pg pages :
  cache_ok file exact (unpins := u) [] w ps hand loose → covers w a pg pages → extent_ok pg pages → serves w a pg pages.
Proof.
  intros Hc (e & E & Hp & Hle) (_ & Hpages & Hmax).
  pose proof (eo_filled _ _ _ _ _ _ (ck_entries _ _ _ _ _ _ _ Hc a e E)) as Hfi.
  destruct (filled_length _ _ _ Hfi) as (bytes & Eb & Hlen). destruct Hfi as [_ Hcap Hfile (bytes' & Eb' & Ht)].
  assert (bytes' = bytes) as -> by congruence. exists e, bytes. split; [done|]. split; [done|]. cbn [entry_ptr snd].
  unfold kPageSize in *. rewrite u64_id by lia. unfold mem_read. rewrite bool_decide_true by lia. f_equal.
  transitivity (bytes_at (take (Z.to_nat (buf_cap e)) bytes) (Z.to_nat ((pg - page e) * 4096)) (Z.to_nat (pages * 4096))).
  - pose proof (bytes_at_bytes_at bytes 0 (Z.to_nat (buf_cap e)) (Z.to_nat ((pg - page e) * 4096)) (Z.to_nat (pages * 4096))) as Hb.
    rewrite bytes_at_0 in Hb. rewrite Hb by lia. done.
  - rewrite Ht, bytes_at_bytes_at by lia. f_equal. lia.
Qed.

(** The same buffer and offset as long as the pin is held. *)
Lemma held_pointer s s' a pg pages :
  run_ok False s → rtc run_step s s' → covers (world s) a pg pages → extent_ok pg pages → a ∈ pins s' →
  ∃ e e', entries (heap (world s)) !! a = Some e ∧ entries (heap (world s')) !! a = Some e' ∧
    entry_ptr e' pg = entry_ptr e pg ∧ serves (world s') a pg pages.
Proof.
  intros Hok Hrun Hcov Hx Ha. destruct (steps_ok s s' Hok Hrun) as [Hok' Hf]. pose proof Hcov as (e & E & _).
  destruct (ck_pins _ _ _ _ _ _ _ Hok' a Ha) as [[e' E'] _].
  pose proof (ck_fresh _ _ _ _ _ _ _ Hok a e E) as Hlt.
  destruct (fo_entries _ _ Hf a e' E' Hlt) as (e0 & E0 & Hpg & _ & Hd & _). assert (e0 = e) as -> by congruence.
  exists e, e'. unfold entry_ptr. rewrite Hpg, Hd. split_and!; try done.
  apply (covers_serves False _ _ _ _ _ _ _ _ Hok'); [|done]. apply (covers_follows (world s)); try done.
Qed.
End runs.

(** ** What runs guarantee *)

(** C33: In a run that interleaves the sections of [pin] and [invalidate_all] with the
    atomic accesses of [unpin] in any order, the one use of freed memory is an [unpin]'s
    load of [retired], load of [refs] or exchange on [deleted], past its decrement, after
    another thread has freed the entry; it is undefined, and it happens
    ([unpin_races_invalidate]).  Every other step ends: no section, decrement or deletion
    touches a freed entry or buffer, unlinks an entry from a list it is not in, or loops (a
    failed read leaves the shard as if nothing was filled), and the invariant is kept, by
    which an allocated entry is listed, being inserted, pinned, or about to be freed by an
    [unpin] under way, and every entry's buffer holds its pages of the file.  Once nothing
    is pinned, filled or being unpinned, only listed entries and their buffers and the
    pooled buffers are allocated.  Accesses of [unpin]s inside a section are not part of
    these runs; EntryLifetime.v has those inside an eviction. *)
Theorem cache_memory_safe file lim n s op :
  from_option (λ n, 0 ≤ n ≤ 2 ^ 28) True n → rtc (run_step file) (fresh_run lim n) s → allowed op s →
  if decide (stale op s) then step file op s = Err UndefinedBehaviour
  else ∃ r s', step file op s = Ok (r, s') ∧ run_ok file False s' ∧
    (pins s' = [] → fills s' = [] → unpins s' = [] →
      (∀ a, is_Some (entries (heap (world s')) !! a) ↔ a ∈ lists (shard (world s'))) ∧
      ∀ b, is_Some (buffers (heap (world s')) !! b) → b ∈ (buf_pool (shard (world s'))).*1 ∨
        ∃ a e, a ∈ lists (shard (world s')) ∧ entries (heap (world s')) !! a = Some e ∧ data e = b).
Proof.
  intros Hn Hrun Ha. destruct (steps_ok file _ _ (fresh_run_ok file False lim n Hn) Hrun) as [Hok _].
  destruct (decide (stale op s)) as [Hs|Hs]; [by apply stale_faults|].
  destruct (step_ok file False op s Hok Ha Hs) as (r & s' & E & Hok' & _).
  apply (exact_weaken file _ False) in Hok'; [|tauto]. exists r, s'. split; [done|]. split; [done|].
  intros Hp Hf Hu. by apply (quiet_ok file False s' Hok').
Qed.

(** C32: The pointer a pin returns reads the file's bytes over the whole range
    asked for, and stays valid and in place through whatever other sections run
    (hits, evictions, fills, invalidations) for as long as the pin is held. *)
Theorem pinned_range_serves_file file lim n s op a pg pages s1 s2 :
  from_option (λ n, 0 ≤ n ≤ 2 ^ 28) True n → rtc (run_step file) (fresh_run lim n) s → allowed op s →
  step file op s = Ok (Some a, s1) → asks op = Some (pg, pages) → rtc (run_step file) s1 s2 → a ∈ pins s2 →
  ∃ e1 e2, entries (heap (world s1)) !! a = Some e1 ∧ entries (heap (world s2)) !! a = Some e2 ∧
    entry_ptr e2 pg = entry_ptr e1 pg ∧ serves file (world s2) a pg pages.
Proof.
  intros Hn Hrun Ha E Hask Hrun2 Hpin. destruct (steps_ok file _ _ (fresh_run_ok file False lim n Hn) Hrun) as [Hok _].
  destruct (step_Ok_ok file False op _ s s1 Hok Ha E) as (Hok' & _ & Hr). destruct (Hr a eq_refl) as [_ Hcov].
  apply (held_pointer file s1 s2 a pg pages); try done; [by eapply exact_weaken; [|exact Hok']; tauto|by apply Hcov|].
  destruct op; try discriminate Hask; injection Hask as -> ->; apply Ha.
Qed.

(** A fill that was inserted is in the window; the accounted bytes of every
    list are those of its entries, and the window is within its byte budget or
    holds nothing else that could leave: the rest of it is pinned. *)
Theorem insert_settles_window file lim n s a pg pages s' :
  from_option (λ n, 0 ≤ n ≤ 2 ^ 28) True n → rtc (exact_step file) (fresh_run lim n) s →
  allowed (PinInsert a pg pages) s → step file (PinInsert a pg pages) s = Ok (Some a, s') →
  let w := world s' in
  bytes_ok w ∧ a ∈ seg_list (window (shard w)) ∧
  (u64 (total w (seg_list (window (shard w)))) ≤ max_window_bytes (limits (shard w)) ∨
   ∀ b, b ∈ seg_list (window (shard w)) → b ≠ a → b ∈ pins s').
Proof.
  intros Hn Hrun Ha E w. pose proof (exact_steps_ok file _ _ (fresh_run_ok file True lim n Hn) Hrun) as Hok.
  destruct (step_Ok_ok file True _ _ s s' Hok Ha E) as (Hok' & _).
  assert (bytes_ok w) as Hb by by apply (ck_bytes _ _ _ _ _ _ _ Hok').
  destruct Ha as (Hx & Hfew & Hin & e & Ee & Hpg & Hcap). apply drop_pin_perm in Hin. unfold run_ok in Hok.
  apply (cache_ok_perm _ _ [] _ _ (pins s) [] [] _ (a :: drop_pin a (fills s))) in Hok; try done.
  destruct (pin_insert_ok _ _ (world s) (pins s) _ a e pg pages Hok Ee Hpg Hx Hcap Hfew) as (r & w1 & E1 & _ & _ & _ & Hset).
  cbn [step] in E. rewrite E1, bind_Ok in E. destruct r as [b|]; [|discriminate E].
  injection E as -> <-. destruct (Hset eq_refl) as [Hmem Hcase]. split; [done|]. split; [done|].
  pose proof (Hb WINDOW) as Hbw. cbn [segment] in Hbw. rewrite <- Hbw. exact Hcase.
Qed.

(** [invalidate_all] leaves no key to be hit, takes every entry a key named
    off its list and frees it unless it is pinned, and keeps the pinned ones
    allocated for their readers. *)
Theorem invalidate_forgets file lim n s s' :
  from_option (λ n, 0 ≤ n ≤ 2 ^ 28) True n → rtc (run_step file) (fresh_run lim n) s →
  step file Invalidate s = Ok (None, s') →
  (∀ pg, contains pg (world s') = false) ∧
  (∀ k a, sh_map (shard (world s)) !! k = Some a →
    (a ∉ pins s → entries (heap (world s')) !! a = None) ∧ a ∉ lists (shard (world s'))) ∧
  ∀ a, a ∈ pins s → is_Some (entries (heap (world s')) !! a).
Proof.
  intros Hn Hrun E. destruct (steps_ok file _ _ (fresh_run_ok file False lim n Hn) Hrun) as [Hok _].
  destruct (invalidate_shard_ok file False (world s) (pins s) (fills s) Hok) as (w & Ew & Hc & Hf & Hm & Hl & _ & Hfree).
  cbn [step] in E. rewrite Ew, bind_Ok in E. injection E as <-. cbn [world]. split; [|split].
  - intros pg. unfold contains. rewrite Hm, lookup_empty. apply bool_decide_false. by intros [? ?].
  - intros k a Hk. assert (a ∉ lists (shard w)) as Hna by (intros Ha; apply Hl in Ha as [_ Ha]; by apply (Ha k)).
    split; [|done]. by apply (Hfree k a).
  - intros a Ha. by apply (ck_pins _ _ _ _ _ _ _ Hc).
Qed.

(** C34: A whole [pin] ends: with the caller's own mapping to be used, with a
    pointer that reads the extent's bytes, or with an I/O error. *)
Theorem pin_correct file lim n s kernel fuel gated pg pages aliases :
  from_option (λ n, 0 ≤ n ≤ 2 ^ 28) True n → rtc (run_step file) (fresh_run lim n) s →
  extent_ok pg pages → Z.of_nat (length (pins s)) + 1 < 2 ^ 32 →
  allowed (PinFill kernel fuel pg pages aliases) s →
  (∃ w, pin file kernel fuel gated pg pages aliases (world s) = Ok (Fallback, w) ∧
    run_ok file False (mkRun w (pins s) (fills s) (unpins s))) ∨
  (∃ a w, pin file kernel fuel gated pg pages aliases (world s) = Ok (Pinned a, w) ∧
    run_ok file False (mkRun w (a :: pins s) (fills s) (unpins s)) ∧ serves file w a pg pages) ∨
  pin file kernel fuel gated pg pages aliases (world s) = Err (Thrown IoError).
Proof.
  intros Hn Hrun Hx Hfew (_ & Hks & last & Hk & Hfuel).
  destruct (steps_ok file _ _ (fresh_run_ok file False lim n Hn) Hrun) as [Hok _]. unfold run_ok in Hok. unfold pin.
  assert (∀ w a, cache_ok file False (unpins := unpins s) [] w (a :: pins s) [] (fills s) → covers w a pg pages →
    ∃ a' w', Ok (Pinned a, w) = Ok (Pinned a', w') ∧ run_ok file False (mkRun w' (a' :: pins s) (fills s) (unpins s)) ∧
      serves file w' a' pg pages) as Hpinned.
  { intros w a Hc Hcov. exists a, w. split; [done|]. split; [exact Hc|]. by apply (covers_serves file False _ _ _ _ _ _ _ _ Hc). }
  destruct (pin_fast_ok _ _ (world s) (pins s) (fills s) pg pages Hok Hx Hfew) as (h1 & w1 & -> & Hc1 & _ & Hcov1). rewrite bind_Ok.
  destruct h1 as [a1|]; [right; left; apply Hpinned; [done|by apply Hcov1]|]. cbn [pins_after] in Hc1.
  assert (∃ h2 w2, (if gated then try_hit pg pages w1 else mret (None, w1)) = Ok (h2, w2) ∧
    cache_ok file False (unpins := unpins s) [] w2 (pins_after h2 (pins s)) [] (fills s) ∧ ∀ a, h2 = Some a → covers w2 a pg pages)
    as (h2 & w2 & -> & Hc2 & Hcov2).
  { destruct gated; [|by exists None, w1].
    destruct (try_hit_ok _ _ w1 (pins s) (fills s) pg pages Hc1 Hx Hfew) as (h & w & ? & ? & _ & ?). by exists h, w. }
  rewrite bind_Ok. destruct h2 as [a2|]; [right; left; apply Hpinned; [done|by apply Hcov2]|]. cbn [pins_after] in Hc2.
  destruct (pin_gate_ok _ _ w2 (pins s) (fills s) pg pages Hc2) as (adm & w3 & -> & Hc3 & _). rewrite bind_Ok.
  destruct adm; cbn [negb]; [|by left; exists w3].
  destruct (new_entry_ok _ _ kernel last fuel w3 (pins s) (fills s) pg pages Hk Hc3 Hx Hfuel)
    as [(w4 & -> & _)|(a & w4 & e & -> & Hc4 & _ & E4 & Hpg & Hcap & _)]; cbn [fst]; [by right; right|]. rewrite bind_Ok.
  destruct (add_aliases_ok _ _ w4 (pins s) (a :: fills s) a aliases Hc4) as (w5 & e4 & -> & Hc5 & _ & E4' & E5); [left| |].
  { intros e' E' k Hin. assert (e' = e) as -> by congruence. rewrite Hpg. auto. }
  rewrite bind_Ok. assert (e4 = e) as -> by congruence.
  destruct (pin_insert_ok _ _ w5 (pins s) (fills s) a (with_keys e (keys e ++ aliases)) pg pages Hc5 E5 Hpg Hx Hcap Hfew)
    as (r & w6 & -> & Hc6 & _ & Hcov6 & _).
  destruct r as [b|]; [right; left; apply Hpinned; [done|by apply Hcov6]|]. left. by exists w6.
Qed.

(** ** Concrete runs *)

(** Page [i] of the file holds bytes [i]. *)
Definition sample_file : list Z := replicate 4096 0 ++ replicate 4096 1 ++ replicate 4096 2.
Definition whole_read (i : nat) (off n : Z) : pread_answer := Transferred n.

Lemma whole_read_ok : kernel_ok whole_read 0.
Proof. split; [intros ? ? ? ? [= ->]; lia|done]. Qed.

Definition is_Ok {A} (r : res A) : bool := match r with Ok _ => true | Err _ => false end.
Definition after (op : Op) (s : Run) : Run := match step sample_file op s with Ok (_, s') => s' | Err _ => s end.
Definition returned (op : Op) (s : Run) : option Z := match step sample_file op s with Ok (r, _) => r | Err _ => None end.

Lemma step_after op s : is_Ok (step sample_file op s) = true → step sample_file op s = Ok (returned op s, after op s).
Proof. unfold returned, after. by destruct (step sample_file op s) as [[]|]. Qed.

Lemma run_after s0 op s :
  rtc (exact_step sample_file) s0 s → allowed op s → keeps_exact op s → is_Ok (step sample_file op s) = true →
  rtc (exact_step sample_file) s0 (after op s).
Proof. intros Hrun Ha Hk E%step_after. eapply rtc_r; [exact Hrun|]. by exists op, (returned op s). Qed.

Lemma exact_runs s s' : rtc (exact_step sample_file) s s' → rtc (run_step sample_file) s s'.
Proof.
  apply rtc_subrel. intros x y (op & r & ? & _ & ?). by exists op, r.
Qed.

(** A fill of page 0 and its insertion. *)
Definition sample_limits : Limits := shard_limits (64 * 4096) 1 10.
Definition r0 : Run := fresh_run sample_limits None.
Definition fill_op (pg pages : Z) : Op := PinFill whole_read (Z.to_nat (pages * 4096)) pg pages [].
Definition r1 : Run := after (fill_op 0 1) r0.
Definition r2 : Run := after (PinInsert 1 0 1) r1.
(** A whole [unpin] of an entry that is not retired. *)
Definition unpinned (a : Z) (s : Run) : Run := after (Unpin AtRetired a) (after (Unpin AtDecrement a) s).
Definition r3 : Run := after (Unpin AtDecrement 1) r2.
Definition r4 : Run := after (Unpin AtRetired 1) r3.

Lemma fill_allowed pg pages s : extent_ok pg pages → allowed (fill_op pg pages) s.
Proof.
  intros Hx. split; [done|]. split; [by intros k ?%not_elem_of_nil|]. exists 0%nat. split; [apply whole_read_ok|].
  unfold kPageSize. lia.
Qed.

Lemma r1_ok : is_Ok (step sample_file (fill_op 0 1) r0) = true.
Proof. vm_compute. reflexivity. Qed.
Lemma r1_fill : ∃ e, fills r1 = [1] ∧ pins r1 = [] ∧ entries (heap (world r1)) !! 1 = Some e ∧ page e = 0 ∧ buf_cap e = 1 * kPageSize.
Proof. eexists. vm_compute. split_and!; reflexivity. Qed.
Lemma r2_ok : is_Ok (step sample_file (PinInsert 1 0 1) r1) = true ∧ returned (PinInsert 1 0 1) r1 = Some 1.
Proof. vm_compute. split; reflexivity. Qed.
Lemma r2_state : pins r2 = [1] ∧ sh_map (shard (world r2)) !! 0 = Some 1.
Proof. vm_compute. split; reflexivity. Qed.

Lemma sample_extent : extent_ok 0 1.
Proof. unfold extent_ok, kPageSize. lia. Qed.

Lemma r1_run : rtc (exact_step sample_file) r0 r1.
Proof. apply run_after; [reflexivity|apply fill_allowed, sample_extent|exact I|exact r1_ok]. Qed.

Lemma r1_insert_allowed : allowed (PinInsert 1 0 1) r1.
Proof.
  destruct r1_fill as (e & Hf & Hp & E & Hpg & Hcap). split; [apply sample_extent|]. rewrite Hp, Hf.
  split; [cbn; lia|]. split; [left|]. exact (ex_intro _ e (conj E (conj Hpg Hcap))).
Qed.

Lemma r2_run : rtc (exact_step sample_file) r0 r2.
Proof. apply run_after; [exact r1_run|exact r1_insert_allowed|exact I|exact (proj1 r2_ok)]. Qed.


Lemma pinned_range_serves_file_witness :
  ∃ e1 e2, entries (heap (world r2)) !! 1 = Some e1 ∧ entries (heap (world r2)) !! 1 = Some e2 ∧
    entry_ptr e2 0 = entry_ptr e1 0 ∧ serves sample_file (world r2) 1 0 1.
Proof.
  apply (pinned_range_serves_file sample_file sample_limits None r1 (PinInsert 1 0 1) 1 0 1 r2 r2);
    [exact I|exact (exact_runs _ _ r1_run)|exact r1_insert_allowed| |reflexivity|reflexivity|].
  - rewrite (step_after _ _ (proj1 r2_ok)), (proj2 r2_ok). reflexivity.
  - rewrite (proj1 r2_state). left.
Defined.

Lemma insert_settles_window_witness :
  bytes_ok (world r2) ∧ 1 ∈ seg_list (window (shard (world r2))) ∧
  (u64 (total (world r2) (seg_list (window (shard (world r2))))) ≤ max_window_bytes (limits (shard (world r2))) ∨
   ∀ b, b ∈ seg_list (window (shard (world r2))) → b ≠ 1 → b ∈ pins r2).
Proof.
  apply (insert_settles_window sample_file sample_limits None r1 1 0 1 r2); [exact I|exact r1_run|exact r1_insert_allowed|].
  rewrite (step_after _ _ (proj1 r2_ok)), (proj2 r2_ok). reflexivity.
Defined.

Lemma r3_ok : is_Ok (step sample_file (Unpin AtDecrement 1) r2) = true ∧ unpins r3 = [(AtRetired, 1)] ∧
  is_Ok (step sample_file Invalidate r3) = true.
Proof. vm_compute. split_and!; reflexivity. Qed.

Lemma r4_ok : is_Ok (step sample_file (Unpin AtRetired 1) r3) = true ∧ is_Ok (step sample_file Invalidate r4) = true ∧
  returned Invalidate r4 = None.
Proof. vm_compute. split_and!; reflexivity. Qed.

Lemma r3_run : rtc (exact_step sample_file) r0 r3.
Proof.
  refine (run_after r0 (Unpin AtDecrement 1) r2 r2_run _ I (proj1 r3_ok)). cbn [allowed]. rewrite (proj1 r2_state). left.
Qed.

Lemma r3_unpin_allowed : allowed (Unpin AtRetired 1) r3.
Proof. cbn [allowed]. rewrite (proj1 (proj2 r3_ok)). left. Qed.

Lemma r4_run : rtc (exact_step sample_file) r0 r4.
Proof. exact (run_after r0 (Unpin AtRetired 1) r3 r3_run r3_unpin_allowed I (proj1 r4_ok)). Qed.

(** The load of [retired] after the decrement, the entry still there. *)
Lemma cache_memory_safe_witness :
  ∃ r s', step sample_file (Unpin AtRetired 1) r3 = Ok (r, s') ∧ run_ok sample_file False s'.
Proof.
  pose proof (cache_memory_safe sample_file sample_limits None r3 (Unpin AtRetired 1) I (exact_runs _ _ r3_run) r3_unpin_allowed) as Hs.
  destruct (decide (stale (Unpin AtRetired 1) r3)) as [E|_].
  - vm_compute in E. discriminate E.
  - destruct Hs as (r & s' & E & Hok & _). exact (ex_intro _ r (ex_intro _ s' (conj E Hok))).
Defined.

Lemma invalidate_forgets_witness :
  (∀ pg, contains pg (world (after Invalidate r4)) = false) ∧
  (∀ k a, sh_map (shard (world r4)) !! k = Some a →
    (a ∉ pins r4 → entries (heap (world (after Invalidate r4))) !! a = None) ∧
    a ∉ lists (shard (world (after Invalidate r4)))) ∧
  ∀ a, a ∈ pins r4 → is_Some (entries (heap (world (after Invalidate r4))) !! a).
Proof.
  apply (invalidate_forgets sample_file sample_limits None r4); [exact I|exact (exact_runs _ _ r4_run)|].
  rewrite (step_after _ _ (proj1 (proj2 r4_ok))), (proj2 (proj2 r4_ok)). reflexivity.
Defined.

Lemma r0_pin_allowed : allowed (PinFill whole_read 4096 0 1 []) r0.
Proof. exact (fill_allowed 0 1 r0 sample_extent). Qed.

Lemma pin_correct_witness :
  (∃ w, pin sample_file whole_read 4096 true 0 1 [] (world r0) = Ok (Fallback, w) ∧ run_ok sample_file False (mkRun w (pins r0) (fills r0) (unpins r0))) ∨
  (∃ a w, pin sample_file whole_read 4096 true 0 1 [] (world r0) = Ok (Pinned a, w) ∧
    run_ok sample_file False (mkRun w (a :: pins r0) (fills r0) (unpins r0)) ∧ serves sample_file w a 0 1) ∨
  pin sample_file whole_read 4096 true 0 1 [] (world r0) = Err (Thrown IoError).
Proof.
  apply (pin_correct sample_file sample_limits None r0 whole_read 4096 true 0 1 []);
    [exact I|reflexivity|exact sample_extent|cbn; lia|exact r0_pin_allowed].
Defined.

(** ** What the code does not do *)

(** [invalidate_all] runs between the decrement of a last unpin and its load of
    [retired]: nobody has the entry pinned, so it is freed, and the load reads freed
    memory. *)
Definition race_run : Run := after Invalidate r3.

Lemma race_state : is_Ok (step sample_file Invalidate r3) = true ∧ unpins race_run = [(AtRetired, 1)] ∧
  step sample_file (Unpin AtRetired 1) race_run = Err UndefinedBehaviour.
Proof. vm_compute. split_and!; reflexivity. Qed.

Lemma unpin_races_invalidate :
  rtc (run_step sample_file) r0 race_run ∧ allowed (Unpin AtRetired 1) race_run ∧
  step sample_file (Unpin AtRetired 1) race_run = Err UndefinedBehaviour.
Proof.
  destruct race_state as (Hok & Hu & E). split_and!; [|cbn [allowed]; rewrite Hu; left|exact E].
  eapply rtc_r; [exact (exact_runs _ _ r3_run)|]. exists Invalidate, (returned Invalidate r3). split; [exact I|].
  by apply step_after.
Qed.

(** A wider fill inserted while a short entry under its page is pinned has no
    key.  [invalidate_all] finds entries by their keys, so it stays in its list
    while the list's bytes are set to zero; when it leaves the list the byte
    count wraps around, and the window looks over budget from then on. *)
Definition small_limits : Limits := shard_limits (8 * 4096) 1 10.
Definition keyless_run : Run :=
  after Invalidate (unpinned 3 (unpinned 1
    (after (PinInsert 3 0 2) (after (fill_op 0 2) (after (PinInsert 1 0 1) (after (fill_op 0 1) (fresh_run small_limits None))))))).

Lemma invalidate_leaves_keyless :
  seg_list (window (shard (world keyless_run))) = [3] ∧ seg_bytes (window (shard (world keyless_run))) = 0 ∧
  size_of (world keyless_run) 3 = 2 * 4096.
Proof. vm_compute. split_and!; reflexivity. Qed.

Lemma window_bytes_wrap :
  let s := after (PinInsert 4 2 1) (after (fill_op 2 1) keyless_run) in
  seg_bytes (window (shard (world s))) = 2 ^ 64 - 4096 ∧ seg_list (window (shard (world s))) = [4].
Proof. vm_compute. split; reflexivity. Qed.

(** A candidate that wins its contest is admitted whatever the victim's size:
    main grows past its budget. *)
Definition contest_run : Run :=
  after (PinInsert 5 2 1) (after (fill_op 2 1) (unpinned 3 (after (PinInsert 3 1 2) (after (fill_op 1 2)
    (after (PinGate 1 2) (after (PinGate 1 2) (unpinned 1 (after (PinInsert 1 0 1) (after (fill_op 0 1)
      (fresh_run (shard_limits (2 * 4096) 1 1) (Some 1))))))))))).

Lemma main_over_budget :
  seg_list (probation (shard (world contest_run))) = [3] ∧
  max_main_bytes (limits (shard (world contest_run))) < seg_bytes (probation (shard (world contest_run))).
Proof. vm_compute. split; reflexivity. Qed.

(** Without [set_expected_entries] every estimate is 0 and no candidate ever
    wins: once main is full nothing is admitted any more. *)
Lemma unsized_sketch_rejects pg w v : table_ (sketch (shard w)) = None → contest pg w ≠ Ok (Some v).
Proof.
  intros Hs. unfold contest. destruct (first_unpinned _ _) as [[u|]|]; [|done..]. rewrite bind_Ok.
  destruct (entry_at w u) as [e|]; [|done]. unfold frequency. rewrite Hs. done.
Qed.

(** Six bits of the hash choose the stripe: 64 of the 1024 are ever used. *)
Lemma stripes_used pg : 0 ≤ fill_stripe pg < 64.
Proof.
  unfold fill_stripe, kFillStripes, u32. rewrite Z.shiftr_div_pow2 by lia.
  assert (0 ≤ u64 (pg * 0x9E3779B97F4A7C15) / 2 ^ 58 < 64) as Hd.
  { unfold u64. pose proof (Z.mod_pos_bound (pg * 0x9E3779B97F4A7C15) (2 ^ 64) ltac:(lia)).
    split; [apply Z.div_pos; lia|apply Z.div_lt_upper_bound; lia]. }
  set (q := _ / _) in *. rewrite (Z.mod_small q (2 ^ 32)), (Z.mod_small q 1024) by lia. done.
Qed.

(** The aliases of a run go to the shard of its first page, where a lookup of
    the alias does not look. *)
Lemma alias_in_another_shard : shard_for 16 0 ≠ shard_for 16 256.
Proof. vm_compute. done. Qed.
