(* ===== verification/FastScanCodes.v ===== *)
(** * FastScanCodes: the interleaved code blocks of a leaf
    ([src/tree/coders/coder_util.hpp], [src/tree/coders/global_pq_coder.cpp])

    A leaf's codes are stored in blocks of 32 (4-bit segments) or 16 (8-bit
    segments) vectors: segment [s] of the vector in lane [j] is the low or high
    nibble of byte [16 s + j mod 16], or that byte.  The model writes, extracts and
    compacts them byte by byte; the theorems speak of the cells. *)
From S2P Require Import Prelude TreeNodes.

(** ** Operations *)

Definition or_byte (buf : list Z) (k v : Z) : res (list Z) := b ← vec_get buf k; vec_set buf k (Z.lor b v).

(** The block of the [i]-th code. *)
Definition block_of (base m4 bits i : Z) : Z := base + i / codes_per_block bits * (m4 * 16).

Definition write_code_to_fs_block (buf : list Z) (blk j m4 pq_bits code_size : Z) (code : list Z) : res (list Z) :=
  if pq_bits =? 4 then
    for_range (Z.to_nat m4) 0 (λ s buf,
      nib ← (if s / 2 <? code_size then
               b ← vec_get code (s / 2); mret (if s mod 2 =? 0 then Z.land b 0x0F else Z.shiftr b 4)
             else mret 0);
      or_byte buf (blk + (s * 16 + j mod 16)) (if 16 <=? j then u8 (Z.shiftl nib 4) else nib)) buf
  else
    for_range (Z.to_nat m4) 0 (λ s buf,
      v ← (if s <? code_size then vec_get code s else mret 0);
      vec_set buf (blk + (s * 16 + j)) v) buf.

Definition extract_code_from_leaf (leaf : list Z) (local_idx base m4 pq_bits : Z) (out : list Z) : res (list Z) :=
  let blk := block_of base m4 pq_bits local_idx in
  let slot := local_idx mod codes_per_block pq_bits in
  if pq_bits =? 8 then
    for_range (Z.to_nat m4) 0 (λ s out, v ← vec_get leaf (blk + (s * 16 + slot)); vec_set out s v) out
  else
    for_range (Z.to_nat m4) 0 (λ s out,
      b ← vec_get leaf (blk + (s * 16 + slot mod 16));
      let nib := if 16 <=? slot then Z.shiftr b 4 else Z.land b 0x0F in
      o ← vec_get out (s / 2);
      vec_set out (s / 2)
        (u8 (Z.lor (if s mod 2 =? 0 then Z.land o 0xF0 else Z.land o 0x0F) (Z.shiftl nib (s mod 2 * 4))))) out.

(** [GlobalPqCoder::encode_group]: the codes, then the row ids (little-endian,
    8 bytes each).  [src_codes + i * code_size] is the rest of the buffer from there. *)
Definition encode_group (summary_size m4 pq_bits code_size count : Z) (src_codes row_ids : list Z) (leaf : list Z)
    : res (list Z) :=
  let cpb := codes_per_block pq_bits in
  let new_nb := u32 (count + cpb - 1) / cpb in
  let ncb := leaf_codes_offset summary_size in
  leaf ← for_range (Z.to_nat count) 0 (λ i leaf,
    write_code_to_fs_block leaf (block_of ncb m4 pq_bits i) (i mod cpb) m4 pq_bits code_size
      (drop (Z.to_nat (i * code_size)) src_codes)) leaf;
  ids ← mem_read row_ids 0 (count * sizeof_RowId);
  mem_write leaf (leaf_rowids_offset summary_size new_nb (m4 * 16)) ids.

(** [GlobalPqCoder::extract_codes]. *)
Definition extract_codes (summary_size m4 pq_bits code_size count : Z) (leaf codes : list Z) : res (list Z) :=
  for_range (Z.to_nat count) 0 (λ i codes,
    code ← mem_read codes (i * code_size) code_size;
    code ← extract_code_from_leaf leaf i (leaf_codes_offset summary_size) m4 pq_bits code;
    mem_write codes (i * code_size) code) codes.

(** [GlobalPqCoder::append_encode]: the old blocks, then the codes of the new
    vectors; [encode] is the trained quantizer's [encode] into a zeroed buffer of
    [code_size] bytes. *)
Definition append_encode {V} (encode : V → list Z) (summary_size m4 pq_bits code_size old_count : Z)
    (old_leaf : list Z) (vecs : list V) (leaf : list Z) : res (list Z) :=
  let cpb := codes_per_block pq_bits in
  let old_nb := u32 (old_count + cpb - 1) / cpb in
  let ncb := leaf_codes_offset summary_size in
  old ← mem_read old_leaf ncb (old_nb * (m4 * 16));
  leaf ← mem_write leaf ncb old;
  for_range (length vecs) 0 (λ ai leaf,
    vec ← vec_get vecs ai;
    let gi := u32 (old_count + ai) in
    write_code_to_fs_block leaf (block_of ncb m4 pq_bits gi) (gi mod cpb) m4 pq_bits code_size (encode vec)) leaf.

(** [GlobalPqCoder::compact]. *)
Definition compact (summary_size m4 pq_bits : Z) (leaf_in : list Z) (keep : list Z) (leaf_out : list Z) : res (list Z) :=
  let base := leaf_codes_offset summary_size in
  for_range (length keep) 0 (λ i out,
    src ← vec_get keep i;
    let blk := block_of base m4 pq_bits i in
    let j := i mod codes_per_block pq_bits in
    let old_blk := block_of base m4 pq_bits src in
    let old_j := src mod codes_per_block pq_bits in
    if pq_bits =? 8 then
      for_range (Z.to_nat m4) 0 (λ s out,
        v ← vec_get leaf_in (old_blk + (s * 16 + old_j)); vec_set out (blk + (s * 16 + j)) v) out
    else
      for_range (Z.to_nat m4) 0 (λ s out,
        b ← vec_get leaf_in (old_blk + (s * 16 + old_j mod 16));
        let nib := if 16 <=? old_j then Z.shiftr b 4 else Z.land b 0x0F in
        or_byte out (blk + (s * 16 + j mod 16)) (if 16 <=? j then u8 (Z.shiftl nib 4) else nib)) out) leaf_out.

(** ** Nibbles *)

Definition nib (h x : Z) : Z := Z.land (Z.shiftr x (4 * h)) 15.

Lemma nib_range h x : 0 ≤ nib h x < 16.
Proof. unfold nib. change 15 with (Z.ones 4). rewrite Z.land_ones by lia. apply Z.mod_pos_bound. lia. Qed.

Lemma nib_high b : is_byte b → Z.shiftr b 4 = nib 1 b.
Proof.
  intros Hb. unfold nib. change 15 with (Z.ones 4). rewrite Z.land_ones, Z.mod_small; [done| |lia].
  rewrite Z.shiftr_div_pow2 by lia. unfold is_byte in Hb.
  split; [apply Z.div_pos; lia|apply Z.div_lt_upper_bound; lia].
Qed.

Lemma nib_low b : Z.land b 0x0F = nib 0 b.
Proof. unfold nib. by rewrite Z.shiftr_0_r. Qed.

Lemma nib_lor h x y : nib h (Z.lor x y) = Z.lor (nib h x) (nib h y).
Proof. unfold nib. by rewrite Z.shiftr_lor, Z.land_lor_distr_l. Qed.

Lemma nib_shiftl h h' v :
  0 ≤ h ≤ 1 → 0 ≤ h' ≤ 1 → 0 ≤ v < 16 → nib h (Z.shiftl v (4 * h')) = if h =? h' then v else 0.
Proof.
  intros H1 H2 Hv. assert (h = 0 ∨ h = 1) as [-> | ->] by lia; assert (h' = 0 ∨ h' = 1) as [-> | ->] by lia;
    unfold nib; cbn [Z.eqb Z.mul]; change (4 * 1) with 4; change (4 * 0) with 0; change 15 with (Z.ones 4);
    rewrite ?Z.shiftr_0_r, ?Z.shiftl_0_r, Z.land_ones by lia; rewrite ?Z.shiftr_div_pow2, ?Z.shiftl_mul_pow2 by lia;
    change (2 ^ 4) with 16; try (Z.div_mod_to_equations; lia).
  cbn. rewrite Z.div_mul by lia. by apply Z.mod_small.
Qed.

Lemma lor_byte x v h : is_byte x → 0 ≤ v < 16 → 0 ≤ h ≤ 1 → is_byte (Z.lor x (Z.shiftl v (4 * h))).
Proof.
  intros Hx Hv Hh. unfold is_byte in *. assert (0 ≤ Z.shiftl v (4 * h) < 2 ^ 8) as Hs.
  { rewrite Z.shiftl_mul_pow2 by lia. assert (h = 0 ∨ h = 1) as [-> | ->] by lia; cbn; lia. }
  split; [apply Z.lor_nonneg; lia|]. change 256 with (2 ^ 8).
  destruct (Z.eq_dec (Z.lor x (Z.shiftl v (4 * h))) 0) as [->|Hne]; [lia|].
  apply Z.log2_lt_pow2; [pose proof (proj2 (Z.lor_nonneg x (Z.shiftl v (4 * h))) ltac:(lia)); lia|].
  rewrite Z.log2_lor by lia. apply Z.max_lub_lt.
  - destruct (Z.eq_dec x 0) as [->|]; [cbn; lia|]. apply Z.log2_lt_pow2; lia.
  - destruct (Z.eq_dec (Z.shiftl v (4 * h)) 0) as [->|]; [cbn; lia|]. apply Z.log2_lt_pow2; lia.
Qed.

(** ** Cells *)

(** Segment [s] of code [i]: its byte, and which nibble of it. *)
Section cells.
Context (base m4 bits n_codes : Z).

Record codes_ok : Prop := {
  co_base : 0 ≤ base;
  co_m4 : 0 < m4;
  co_bits : bits = 4 ∨ bits = 8;
}.

Definition half (i : Z) : Z := if bits =? 4 then i mod codes_per_block bits / 16 else 0.
Definition pos (i s : Z) : Z := block_of base m4 bits i + (s * 16 + i mod codes_per_block bits mod 16).

Definition cell (buf : list Z) (i s : Z) : Z :=
  let b := byte_at buf (Z.to_nat (pos i s)) in if bits =? 4 then nib (half i) b else b.

(** Room for [n_codes] codes. *)
Definition room (buf : list Z) : Prop :=
  Forall is_byte buf ∧ ∀ i s, 0 ≤ i < n_codes → 0 ≤ s < m4 → pos i s < Z.of_nat (length buf).

Definition cell_value (v : Z) : Prop := if bits =? 4 then 0 ≤ v < 16 else is_byte v.

Context (Hok : codes_ok).

Lemma cpb_cases : bits = 4 ∧ codes_per_block bits = 32 ∨ bits = 8 ∧ codes_per_block bits = 16.
Proof. destruct (co_bits Hok) as [-> | ->]; [left|right]; done. Qed.

Lemma pos_nonneg i s : 0 ≤ i → 0 ≤ s → base ≤ pos i s.
Proof.
  intros Hi Hs. pose proof (co_m4 Hok). unfold pos, block_of.
  destruct cpb_cases as [[_ ->]|[_ ->]].
  - pose proof (Z.div_pos i 32 Hi ltac:(lia)). pose proof (Z.mod_pos_bound (i mod 32) 16). nia.
  - pose proof (Z.div_pos i 16 Hi ltac:(lia)). pose proof (Z.mod_pos_bound (i mod 16) 16). nia.
Qed.

(** Two codes share a byte only as its two halves. *)
Lemma pos_inj i s i' s' :
  0 ≤ i → 0 ≤ i' → 0 ≤ s < m4 → 0 ≤ s' < m4 → pos i s = pos i' s' → half i = half i' → i = i' ∧ s = s'.
Proof.
  intros Hi Hi' Hs Hs' Hp Hh. pose proof (co_m4 Hok). unfold pos, block_of, half in *.
  set (c := codes_per_block bits) in *.
  assert (i / c * m4 + s = i' / c * m4 + s' ∧ i mod c mod 16 = i' mod c mod 16) as [Hq Hr].
  { pose proof (Z.mod_pos_bound (i mod c) 16). pose proof (Z.mod_pos_bound (i' mod c) 16). lia. }
  assert (i / c = i' / c ∧ s = s') as [Hd ->].
  { apply (Z.div_mod_unique m4); [left; lia|left; lia|lia]. }
  split; [|done]. assert (i mod c = i' mod c) as Hm.
  { subst c. destruct cpb_cases as [[Hb Hc]|[Hb Hc]]; rewrite Hc in *; rewrite Hb in Hh; cbn in Hh.
    - rewrite (Z.div_mod (i mod 32) 16), (Z.div_mod (i' mod 32) 16) by lia. lia.
    - rewrite !Z.mod_mod in Hr by lia. done. }
  assert (0 < c) by (subst c; destruct cpb_cases as [[_ ->]|[_ ->]]; lia).
  rewrite (Z.div_mod i c), (Z.div_mod i' c) by lia. by rewrite Hd, Hm.
Qed.

Lemma half_range i : 0 ≤ i → 0 ≤ half i ≤ 1.
Proof.
  intros Hi. unfold half. destruct cpb_cases as [[-> ->]|[-> ->]]; cbn; [|lia].
  pose proof (Z.mod_pos_bound i 32). Z.div_mod_to_equations. lia.
Qed.

(** Writing one cell, as the code does: or into the nibble, or the whole byte. *)
Definition put_cell (buf : list Z) (i s v : Z) : res (list Z) :=
  if bits =? 4 then or_byte buf (pos i s) (if 16 <=? i mod codes_per_block bits then u8 (Z.shiftl v 4) else v)
  else vec_set buf (pos i s) v.

Definition in_codes (i s : Z) : Prop := 0 ≤ i < n_codes ∧ 0 ≤ s < m4.

(** Bytes of no cell stay. *)
Definition same_elsewhere (buf buf' : list Z) : Prop :=
  length buf' = length buf ∧
  ∀ k, (∀ i s, in_codes i s → pos i s ≠ Z.of_nat k) → byte_at buf' k = byte_at buf k.

Lemma put_cell_byte buf i s v x :
  byte_at buf (Z.to_nat (pos i s)) = x → room buf → in_codes i s → cell_value v →
  let y := if bits =? 4 then Z.lor x (Z.shiftl v (4 * half i)) else v in
  put_cell buf i s v = Ok (<[Z.to_nat (pos i s) := y]> buf) ∧ is_byte y.
Proof.
  intros <- [Hb Hroom] [Hi Hs] Hv y. pose proof (pos_nonneg i s ltac:(lia) ltac:(lia)). pose proof (co_base Hok).
  pose proof (Hroom i s Hi Hs) as Hlt. pose proof (byte_at_is_byte buf (Z.to_nat (pos i s)) Hb) as Hx.
  unfold put_cell, cell_value in *. subst y. pose proof (half_range i ltac:(lia)) as Hh.
  destruct cpb_cases as [[Hbits Hc]|[Hbits Hc]]; rewrite Hbits in *; cbn [Z.eqb Pos.eqb] in *.
  - unfold or_byte. destruct (vec_get_Ok buf (pos i s)) as (b & Eb & Eg); [lia|]. rewrite Eg, bind_Ok.
    unfold byte_at in *. rewrite Eb in Hx |- *. cbn [default] in *.
    assert ((if 16 <=? i mod codes_per_block 4 then u8 (Z.shiftl v 4) else v) = Z.shiftl v (4 * half i)) as ->.
    { unfold half in *. rewrite Hbits, Hc in *. cbn [Z.eqb Pos.eqb] in *. pose proof (Z.mod_pos_bound i 32 ltac:(lia)).
      destruct (Z.leb_spec 16 (i mod 32)).
      - replace (i mod 32 / 16) with 1 by (Z.div_mod_to_equations; lia). unfold u8.
        rewrite Z.mod_small; [done|]. rewrite Z.shiftl_mul_pow2 by lia. lia.
      - replace (i mod 32 / 16) with 0 by (Z.div_mod_to_equations; lia). by rewrite Z.shiftl_0_r. }
    rewrite vec_set_Ok by lia. split; [done|]. by apply lor_byte.
  - rewrite vec_set_Ok by lia. by split.
Qed.

Lemma byte_at_insert (buf : list Z) k x j :
  (k < length buf)%nat → byte_at (<[k := x]> buf) j = if decide (j = k) then x else byte_at buf j.
Proof.
  intros Hk. unfold byte_at. case_decide as Hj; [subst; by rewrite list_lookup_insert_eq by done|].
  by rewrite list_lookup_insert_ne by congruence.
Qed.

(** The cells after writing one of them that was empty. *)
Lemma put_cell_ok buf i s v :
  room buf → in_codes i s → cell_value v → cell buf i s = 0 →
  ∃ buf', put_cell buf i s v = Ok buf' ∧ room buf' ∧ same_elsewhere buf buf' ∧
    ∀ i' s', in_codes i' s' → cell buf' i' s' = if decide (i' = i ∧ s' = s) then v else cell buf i' s'.
Proof.
  intros Hroom Hin Hv H0. destruct (put_cell_byte buf i s v _ eq_refl Hroom Hin Hv) as [E Hy].
  eexists. split; [exact E|]. set (y := if bits =? 4 then _ else _) in *.
  pose proof Hin as [Hi Hs]. pose proof (pos_nonneg i s ltac:(lia) ltac:(lia)). pose proof (co_base Hok).
  pose proof (proj2 Hroom i s Hi Hs) as Hlt.
  assert (Z.to_nat (pos i s) < length buf)%nat as Hn by lia.
  split; [|split].
  - destruct Hroom as [Hb Hr]. split; [by apply Forall_insert|]. intros. rewrite length_insert. by apply Hr.
  - split; [by rewrite length_insert|]. intros k Hk. rewrite byte_at_insert, decide_False; [done| |done].
    intros ->. apply (Hk i s Hin). lia.
  - intros i' s' [Hi' Hs']. pose proof (pos_nonneg i' s' ltac:(lia) ltac:(lia)). unfold cell in *.
    rewrite byte_at_insert by done. case_decide as Hp.
    + assert (pos i' s' = pos i s) as Hp' by lia. rewrite Hp'. subst y.
      destruct (co_bits Hok) as [Hb|Hb]; rewrite Hb in *; cbn [Z.eqb Pos.eqb] in *; unfold cell_value in Hv; rewrite Hb in Hv; cbn in Hv.
      * rewrite nib_lor, nib_shiftl by (try apply half_range; lia). case_decide as Heq.
        -- destruct Heq as [-> ->]. by rewrite H0, Z.eqb_refl.
        -- destruct (Z.eqb_spec (half i') (half i)) as [Hh|_]; [|by rewrite Z.lor_0_r].
           destruct (pos_inj i' s' i s) as [-> ->]; try done; lia.
      * rewrite decide_True; [done|]. apply pos_inj; try done; try lia. unfold half. by rewrite Hb.
    + rewrite decide_False; [done|]. intros [-> ->]. done.
Qed.

Lemma same_elsewhere_trans b1 b2 b3 : same_elsewhere b1 b2 → same_elsewhere b2 b3 → same_elsewhere b1 b3.
Proof. intros [L1 S1] [L2 S2]. split; [congruence|]. intros k Hk. by rewrite S2, S1. Qed.

(** A code: all its segments, one after the other. *)
Lemma put_code_ok (v : Z → Z) (put : Z → list Z → res (list Z)) buf i :
  room buf → 0 ≤ i < n_codes → (∀ s, 0 ≤ s < m4 → cell buf i s = 0 ∧ cell_value (v s)) →
  (∀ s b, 0 ≤ s < m4 → put s b = put_cell b i s (v s)) →
  ∃ buf', for_range (Z.to_nat m4) 0 put buf = Ok buf' ∧ room buf' ∧ same_elsewhere buf buf' ∧
    ∀ i' s', in_codes i' s' → cell buf' i' s' = if decide (i' = i) then v s' else cell buf i' s'.
Proof.
  intros Hroom Hi Hv Hput. pose proof (co_m4 Hok).
  set (J := λ n b, room b ∧ same_elsewhere buf b ∧
    ∀ i' s', in_codes i' s' → cell b i' s' = if decide (i' = i ∧ s' < n) then v s' else cell buf i' s').
  destruct (for_range_ok J put (Z.to_nat m4) 0 buf) as (buf' & E & Hr & Hs & Hc).
  - split; [done|]. split; [by split|]. intros i' s' [_ ?]. rewrite decide_False; [done|]. lia.
  - intros s b Hs (Hr & Hsame & Hc). rewrite Hput by lia.
    destruct (put_cell_ok b i s (v s)) as (b' & E & Hr' & Hsame' & Hc'); [done|split; lia|apply Hv; lia| |].
    + rewrite Hc by (split; lia). rewrite decide_False by lia. apply Hv. lia.
    + exists b'. split; [done|]. split; [done|]. split; [by eapply same_elsewhere_trans|].
      intros i' s' Hin. rewrite Hc', Hc by done. pose proof Hin as [_ ?].
      destruct (decide (i' = i ∧ s' = s)) as [[-> ->]|Hne].
      * by rewrite decide_True by lia.
      * destruct (decide (i' = i ∧ s' < s)); [by rewrite decide_True by lia|by rewrite decide_False by lia].
  - exists buf'. split; [done|]. split; [done|]. split; [done|]. intros i' s' Hin. rewrite Hc by done.
    destruct (decide (i' = i)) as [Hx|Hx]; [|by rewrite decide_False by lia].
    rewrite decide_True; [done|]. destruct Hin. lia.
Qed.

(** The codes [from, from + n). *)
Lemma put_codes_ok (v : Z → Z → Z) (row : Z → list Z → res (list Z)) n from buf :
  room buf → 0 ≤ from → from + Z.of_nat n ≤ n_codes →
  (∀ k s, 0 ≤ k < Z.of_nat n → 0 ≤ s < m4 → cell buf (from + k) s = 0 ∧ cell_value (v k s)) →
  (∀ k b, 0 ≤ k < Z.of_nat n → room b → ∃ put, row k b = for_range (Z.to_nat m4) 0 put b ∧
     ∀ s b, 0 ≤ s < m4 → put s b = put_cell b (from + k) s (v k s)) →
  ∃ buf', for_range n 0 row buf = Ok buf' ∧ room buf' ∧ same_elsewhere buf buf' ∧
    ∀ i s, in_codes i s → cell buf' i s = if decide (from ≤ i < from + Z.of_nat n) then v (i - from) s else cell buf i s.
Proof.
  intros Hroom Hf Hn Hv Hrow.
  set (J := λ k b, room b ∧ same_elsewhere buf b ∧
    ∀ i s, in_codes i s → cell b i s = if decide (from ≤ i < from + k) then v (i - from) s else cell buf i s).
  destruct (for_range_ok J row n 0 buf) as (buf' & E & Hr & Hs & Hc).
  - split; [done|]. split; [by split|]. intros i s _. by rewrite decide_False by lia.
  - intros k b Hk (Hr & Hsame & Hc). destruct (Hrow k b ltac:(lia) Hr) as (put & -> & Hput).
    destruct (put_code_ok (v k) put b (from + k)) as (b' & E & Hr' & Hsame' & Hc'); [done|lia| |done|].
    + intros s Hs. rewrite Hc by (split; lia). rewrite decide_False by lia. apply Hv; lia.
    + exists b'. split; [done|]. split; [done|]. split; [by eapply same_elsewhere_trans|].
      intros i s Hin. rewrite Hc', Hc by done. destruct (decide (i = from + k)) as [-> |Hne].
      * rewrite decide_True by lia. f_equal. lia.
      * destruct (decide (from ≤ i < from + k)); [by rewrite decide_True by lia|by rewrite decide_False by lia].
  - by exists buf'.
Qed.

(** ** Segments of a packed code *)

Definition seg (code_size : Z) (code : list Z) (s : Z) : Z :=
  if bits =? 4 then (if s / 2 <? code_size then nib (s mod 2) (byte_at code (Z.to_nat (s / 2))) else 0)
  else (if s <? code_size then byte_at code (Z.to_nat s) else 0).

Lemma seg_value code_size code s : Forall is_byte code → cell_value (seg code_size code s).
Proof.
  intros Hc. unfold cell_value, seg. destruct (co_bits Hok) as [-> | ->]; cbn [Z.eqb Pos.eqb]; destruct (_ <? _); try (unfold is_byte; lia).
  - apply nib_range.
  - by apply byte_at_is_byte.
Qed.

Lemma vec_get_byte (l : list Z) k : 0 ≤ k < Z.of_nat (length l) → vec_get l k = Ok (byte_at l (Z.to_nat k)).
Proof. intros Hk. destruct (vec_get_Ok l k Hk) as (x & E & ->). unfold byte_at. by rewrite E. Qed.

Lemma write_code_row buf i code_size code :
  0 ≤ i → Forall is_byte code → 0 ≤ code_size ≤ Z.of_nat (length code) →
  ∃ put, write_code_to_fs_block buf (block_of base m4 bits i) (i mod codes_per_block bits) m4 bits code_size code =
      for_range (Z.to_nat m4) 0 put buf ∧
    ∀ s b, 0 ≤ s < m4 → put s b = put_cell b i s (seg code_size code s).
Proof.
  intros Hi Hc Hl. unfold write_code_to_fs_block, put_cell, seg.
  destruct cpb_cases as [[Hb Hcp]|[Hb Hcp]]; rewrite Hb; cbn [Z.eqb Pos.eqb]; eexists; (split; [reflexivity|]); intros s b Hs.
  - cbv beta. pose proof (Z.div_pos s 2 ltac:(lia) ltac:(lia)).
    destruct (Z.ltb_spec (s / 2) code_size).
    + rewrite vec_get_byte by lia. cbn [mbind res_bind]. unfold mret, res_ret. cbn [mbind res_bind].
      replace (if s mod 2 =? 0 then Z.land (byte_at code (Z.to_nat (s / 2))) 15 else Z.shiftr (byte_at code (Z.to_nat (s / 2))) 4)
        with (nib (s mod 2) (byte_at code (Z.to_nat (s / 2)))).
      * unfold pos. rewrite Hb. done.
      * pose proof (Z.mod_pos_bound s 2). destruct (Z.eqb_spec (s mod 2) 0) as [->|]; [by rewrite nib_low|].
        replace (s mod 2) with 1 by lia. rewrite nib_high; [done|]. by apply byte_at_is_byte.
    + unfold mret, res_ret. cbn [mbind res_bind]. unfold pos. rewrite Hb. done.
  - cbv beta. unfold pos. rewrite Hb in *. rewrite Hcp, Z.mod_mod by lia.
    destruct (Z.ltb_spec s code_size); [by rewrite vec_get_byte by lia|done].
Qed.

(** ** The codes a leaf stores *)

Context (code_size : Z).

Definition stored (codes : list (list Z)) (i s : Z) : Z :=
  match codes !! Z.to_nat i with Some c => seg code_size c s | None => 0 end.

(** The leaf holds [codes] in its first lanes, the other lanes are zero. *)
Definition stores (leaf : list Z) (codes : list (list Z)) : Prop :=
  room leaf ∧ ∀ i s, in_codes i s → cell leaf i s = stored codes i s.

Definition code_ok (c : list Z) : Prop := Forall is_byte c ∧ 0 ≤ code_size ≤ Z.of_nat (length c).

Lemma put_rows_stores row codes new buf :
  stores buf codes → Z.of_nat (length codes + length new) ≤ n_codes → Forall code_ok new →
  (∀ k c b, new !! k = Some c → room b → ∃ put, row (Z.of_nat k) b = for_range (Z.to_nat m4) 0 put b ∧
     ∀ s b, 0 ≤ s < m4 → put s b = put_cell b (Z.of_nat (length codes) + Z.of_nat k) s (seg code_size c s)) →
  ∃ buf', for_range (length new) 0 row buf = Ok buf' ∧ stores buf' (codes ++ new) ∧ same_elsewhere buf buf'.
Proof.
  intros [Hroom Hst] Hn Hnew Hrow. rewrite Forall_lookup in Hnew. set (from := Z.of_nat (length codes)).
  destruct (put_codes_ok (λ k, seg code_size (default [] (new !! Z.to_nat k))) row (length new) from buf)
    as (buf' & E & Hr & Hsame & Hc); [done|lia|lia| | |].
  - intros k s Hk Hs. split.
    + rewrite Hst by (split; lia). unfold stored. by rewrite lookup_ge_None_2 by lia.
    + destruct (lookup_lt_is_Some_2 new (Z.to_nat k)) as [c Ec]; [lia|]. rewrite Ec. by eapply seg_value, Hnew.
  - intros k b Hk Hb. destruct (lookup_lt_is_Some_2 new (Z.to_nat k)) as [c Ec]; [lia|]. rewrite Ec.
    destruct (Hrow _ _ b Ec Hb) as (put & Er & Hput). rewrite Z2Nat.id in Er, Hput by lia. by exists put.
  - exists buf'. split; [done|]. split; [|done]. split; [done|]. intros i s Hin. rewrite Hc by done.
    destruct Hin as [Hi Hs]. unfold stored. destruct (decide (from ≤ i < from + Z.of_nat (length new))) as [Hd|Hd].
    + rewrite lookup_app_r by lia. destruct (lookup_lt_is_Some_2 new (Z.to_nat (i - from))) as [c Ec]; [lia|].
      rewrite Ec. replace (Z.to_nat i - length codes)%nat with (Z.to_nat (i - from)) by lia. by rewrite Ec.
    + rewrite Hst by done. unfold stored. destruct (decide (i < from)).
      * by rewrite lookup_app_l by lia.
      * rewrite !lookup_ge_None_2; [done|rewrite length_app|]; lia.
Qed.

(** ** Reading a code back *)

Lemma nib_land h x y : nib h (Z.land x y) = Z.land (nib h x) (nib h y).
Proof.
  unfold nib. rewrite Z.shiftr_land. apply Z.bits_inj'. intros n _. rewrite !Z.land_spec. by destruct (Z.testbit _ _), (Z.testbit _ _), (Z.testbit 15 n).
Qed.

Lemma put_nib o h v :
  is_byte o → 0 ≤ v < 16 → 0 ≤ h ≤ 1 →
  let y := u8 (Z.lor (if h =? 0 then Z.land o 0xF0 else Z.land o 0x0F) (Z.shiftl v (h * 4))) in
  is_byte y ∧ ∀ h', 0 ≤ h' ≤ 1 → nib h' y = if h' =? h then v else nib h' o.
Proof.
  intros Ho Hv Hh y. set (m := if h =? 0 then 0xF0 else 0x0F).
  assert ((if h =? 0 then Z.land o 0xF0 else Z.land o 0x0F) = Z.land o m) as Em by (unfold m; by destruct (h =? 0)).
  assert (is_byte (Z.land o m)) as Hm.
  { unfold is_byte in *. pose proof (Z.land_nonneg o m). split; [apply Z.land_nonneg; lia|].
    apply (Z.le_lt_trans _ o); [|lia]. apply Z.ldiff_le; [lia|]. apply Z.bits_inj'. intros n _.
    rewrite Z.ldiff_spec, Z.land_spec, Z.bits_0. by destruct (Z.testbit o n), (Z.testbit m n). }
  assert (y = Z.lor (Z.land o m) (Z.shiftl v (4 * h))) as Ey.
  { unfold y. rewrite Em, (Z.mul_comm h). unfold u8. apply Z.mod_small. by apply lor_byte. }
  rewrite Ey. split; [by apply lor_byte|]. intros h' Hh'. rewrite nib_lor, nib_land, nib_shiftl by lia.
  pose proof (nib_range h' o) as Hr. destruct (Z.eqb_spec h' h) as [->|Hne].
  - replace (nib h m) with 0; [by rewrite Z.land_0_r|]. assert (h = 0 ∨ h = 1) as [-> | ->] by lia; done.
  - replace (nib h' m) with (Z.ones 4).
    + rewrite Z.land_ones, Z.lor_0_r by lia. by apply Z.mod_small.
    + assert (h = 0 ∧ h' = 1 ∨ h = 1 ∧ h' = 0) as [[-> ->]|[-> ->]] by lia; done.
Qed.

Lemma seg_ext c c' :
  Forall is_byte c → Forall is_byte c' → Z.of_nat (length c) = code_size → length c' = length c →
  (∀ s, 0 ≤ s → seg code_size c s = seg code_size c' s) → c = c'.
Proof.
  intros Hc Hc' Hl Hl' Hs. apply list_eq. intros k. destruct (decide (k < length c)%nat) as [Hk|Hk].
  2:{ by rewrite !lookup_ge_None_2 by lia. }
  assert (byte_at c k = byte_at c' k) as E.
  { unfold seg in Hs. destruct (co_bits Hok) as [Hb|Hb]; rewrite Hb in Hs; cbn [Z.eqb Pos.eqb] in Hs.
    - assert (∀ h, 0 ≤ h ≤ 1 → nib h (byte_at c k) = nib h (byte_at c' k)) as Hn.
      { intros h Hh. specialize (Hs (Z.of_nat k * 2 + h) ltac:(lia)).
        rewrite Z.div_add_l, (Z.div_small h 2), Z.add_0_r in Hs by lia.
        rewrite (Z.add_comm _ h), Z.mod_add, (Z.mod_small h 2), Nat2Z.id in Hs by lia.
        destruct (Z.ltb_spec (Z.of_nat k) code_size); [done|lia]. }
      pose proof (Hn 0 ltac:(lia)) as N0. pose proof (Hn 1 ltac:(lia)) as N1.
      pose proof (byte_at_is_byte c k Hc) as B. pose proof (byte_at_is_byte c' k Hc') as B'.
      rewrite <- !nib_high in N1 by done. rewrite <- !nib_low in N0. change 0x0F with (Z.ones 4) in N0.
      rewrite !Z.land_ones in N0 by lia. rewrite !Z.shiftr_div_pow2 in N1 by lia. change (2 ^ 4) with 16 in *.
      Z.div_mod_to_equations. lia.
    - specialize (Hs (Z.of_nat k) ltac:(lia)). rewrite Nat2Z.id in Hs.
      destruct (Z.ltb_spec (Z.of_nat k) code_size); [done|lia]. }
  unfold byte_at in E. destruct (lookup_lt_is_Some_2 c k Hk) as [x Ex], (lookup_lt_is_Some_2 c' k) as [y Ey]; [lia|].
  rewrite Ex, Ey in *. by cbn in E; subst.
Qed.

Lemma extract_ok leaf i out :
  room leaf → 0 ≤ i < n_codes → Forall is_byte out → Z.of_nat (length out) = code_size → m4 * bits ≤ code_size * 8 →
  ∃ out', extract_code_from_leaf leaf i base m4 bits out = Ok out' ∧ Forall is_byte out' ∧ length out' = length out ∧
    ∀ s, 0 ≤ s → seg code_size out' s = if decide (s < m4) then cell leaf i s else seg code_size out s.
Proof.
  intros [Hb Hroom] Hi Ho Hl Hm. pose proof (co_m4 Hok). pose proof (co_base Hok).
  set (J := λ n o, Forall is_byte o ∧ length o = length out ∧
    ∀ s, 0 ≤ s → seg code_size o s = if decide (s < n) then cell leaf i s else seg code_size out s).
  assert (∀ s, 0 ≤ s < m4 → vec_get leaf (pos i s) = Ok (byte_at leaf (Z.to_nat (pos i s)))) as Hget.
  { intros s Hs. apply vec_get_byte. pose proof (pos_nonneg i s ltac:(lia) ltac:(lia)). pose proof (Hroom i s Hi Hs). lia. }
  assert (J 0 out) as J0. { split; [done|]. split; [done|]. intros s Hs. by rewrite decide_False by lia. }
  assert (∀ put, (∀ s o, 0 ≤ s < m4 → J s o → ∃ o', put s o = Ok o' ∧ J (s + 1) o') →
    ∃ o', for_range (Z.to_nat m4) 0 put out = Ok o' ∧ J m4 o') as Hloop.
  { intros put Hput. destruct (for_range_ok J put (Z.to_nat m4) 0 out J0) as (o' & E & HJ).
    - intros s o Hs. apply Hput. lia.
    - exists o'. split; [done|]. by rewrite Z.add_0_l, Z2Nat.id in HJ by lia. }
  assert (∀ put, (∀ s o, 0 ≤ s < m4 → J s o → ∃ o', put s o = Ok o' ∧ Forall is_byte o' ∧ length o' = length o ∧
      ∀ s', 0 ≤ s' → seg code_size o' s' = if decide (s' = s) then cell leaf i s else seg code_size o s') →
    ∃ o', for_range (Z.to_nat m4) 0 put out = Ok o' ∧ J m4 o') as Hrow.
  { intros put Hput. apply Hloop. intros s o Hs HJ. destruct (Hput s o Hs HJ) as (o' & E & Hb' & Hl' & Hseg).
    destruct HJ as (_ & HJl & HJ). exists o'. split; [done|]. split; [done|]. split; [lia|]. intros s' Hs'.
    rewrite Hseg by done. destruct (decide (s' = s)) as [-> |]; [by rewrite decide_True by lia|].
    rewrite HJ by done. destruct (decide (s' < s)); [by rewrite decide_True by lia|by rewrite decide_False by lia]. }
  unfold extract_code_from_leaf. destruct cpb_cases as [[Hbits Hc]|[Hbits Hc]]; rewrite Hbits in *; cbn [Z.eqb Pos.eqb].
  - apply Hrow. intros s o Hs (HB & HL & _).
    replace (block_of base m4 4 i + (s * 16 + (i mod codes_per_block 4) mod 16)) with (pos i s) by (unfold pos; by rewrite Hbits).
    rewrite Hget, bind_Ok by done. pose proof (Z.div_pos s 2 ltac:(lia) ltac:(lia)).
    assert (s / 2 < code_size) by (Z.div_mod_to_equations; lia).
    rewrite vec_get_byte, bind_Ok, vec_set_Ok by lia.
    assert ((if 16 <=? i mod codes_per_block 4 then Z.shiftr (byte_at leaf (Z.to_nat (pos i s))) 4
             else Z.land (byte_at leaf (Z.to_nat (pos i s))) 15) = cell leaf i s) as ->.
    { unfold cell, half. rewrite Hbits, Hc. cbn [Z.eqb Pos.eqb]. pose proof (Z.mod_pos_bound i 32 ltac:(lia)).
      destruct (Z.leb_spec 16 (i mod 32)).
      - replace (i mod 32 / 16) with 1 by (Z.div_mod_to_equations; lia). rewrite nib_high; [done|by apply byte_at_is_byte].
      - replace (i mod 32 / 16) with 0 by (Z.div_mod_to_equations; lia). by rewrite nib_low. }
    pose proof (Z.mod_pos_bound s 2 ltac:(lia)). assert (0 ≤ cell leaf i s < 16) as Hcell.
    { unfold cell. rewrite Hbits. apply nib_range. }
    destruct (put_nib (byte_at o (Z.to_nat (s / 2))) (s mod 2) (cell leaf i s)) as [Hy Hn];
      [by apply byte_at_is_byte|done|lia|].
    eexists. split; [reflexivity|]. split; [by apply Forall_insert|]. split; [by rewrite length_insert|].
    intros s' Hs'. unfold seg. rewrite Hbits. cbn [Z.eqb Pos.eqb]. rewrite byte_at_insert by lia.
    pose proof (Z.mod_pos_bound s' 2 ltac:(lia)). pose proof (Z.div_pos s' 2 ltac:(lia) ltac:(lia)).
    case_decide as Hd.
    + rewrite Hn by lia. assert (s' / 2 = s / 2) as Hq by lia. rewrite Hq.
      destruct (Z.ltb_spec (s / 2) code_size); [|lia]. destruct (Z.eqb_spec (s' mod 2) (s mod 2)) as [Hr|Hr].
      * rewrite decide_True; [done|]. rewrite (Z.div_mod s' 2), (Z.div_mod s 2) by lia. lia.
      * rewrite decide_False; [done|]. congruence.
    + rewrite decide_False; [done|]. congruence.
  - apply Hrow. intros s o Hs (HB & HL & _).
    replace (block_of base m4 8 i + (s * 16 + i mod codes_per_block 8)) with (pos i s)
      by (unfold pos; rewrite Hbits, Hc, Z.mod_mod by lia; done).
    rewrite Hget, bind_Ok, vec_set_Ok by lia. eexists. split; [reflexivity|].
    split; [apply Forall_insert; [done|by apply byte_at_is_byte]|]. split; [by rewrite length_insert|].
    intros s' Hs'. unfold seg, cell. rewrite Hbits. cbn [Z.eqb Pos.eqb]. rewrite byte_at_insert by lia.
    destruct (decide (s' = s)) as [-> |].
    + rewrite decide_True by done. destruct (Z.ltb_spec s code_size); [done|lia].
    + by rewrite decide_False by lia.
Qed.
End cells.
