(* ===== verification/FastScanLeaves.v ===== *)
(** * FastScanLeaves: a leaf's codes as a list
    ([src/tree/coders/global_pq_coder.cpp])

    [stores_leaf] relates the blocks of FastScanCodes.v to the list of the codes
    they hold; encoding a group, appending to a leaf, compacting it and extracting
    its codes are the list operations. *)
From S2P Require Import Prelude TreeNodes FastScanCodes.

Section leaves.
Context (summary_size m4 bits code_size : Z).
Abbreviation base := (leaf_codes_offset summary_size).
Abbreviation cpb := (codes_per_block bits).

(** A leaf's parameters: [code_size] bytes have room for [m4] segments. *)
Record geo_ok : Prop := {
  go_summary : 0 ≤ summary_size < 2 ^ 32;
  go_m4 : 0 < m4 < 2 ^ 16;
  go_bits : bits = 4 ∨ bits = 8;
  go_code : m4 * bits ≤ code_size * 8;
}.

Context (Hgeo : geo_ok).

Definition area_end (nb : Z) : Z := base + nb * (m4 * 16).

(** [nb] blocks hold [codes]. *)
Definition stores_leaf (nb : Z) (leaf : list Z) (codes : list (list Z)) : Prop :=
  stores base m4 bits (nb * cpb) code_size leaf codes.

(** A code as the quantizer leaves it: nothing past the last segment. *)
Definition code_clean (c : list Z) : Prop :=
  Forall is_byte c ∧ Z.of_nat (length c) = code_size ∧ ∀ s, m4 ≤ s → seg bits code_size c s = 0.

Lemma base_pos : 0 < base < 2 ^ 33.
Proof.
  destruct (go_summary Hgeo). unfold leaf_codes_offset. unfold sizeof_TreeLeafHeader in *.
  destruct (align8 (112 + summary_size)) as (q & -> & ?); lia.
Qed.

Lemma geo_codes : codes_ok base m4 bits.
Proof. destruct Hgeo. pose proof base_pos. split; [lia|lia|done]. Qed.

Lemma cpb_pos : 16 ≤ cpb ≤ 32.
Proof. destruct (codes_per_block_range bits) as [-> | ->]; lia. Qed.

Lemma pos_in_area nb i s : in_codes m4 (nb * cpb) i s → base ≤ pos base m4 bits i s < area_end nb.
Proof.
  intros [Hi Hs]. pose proof cpb_pos. split; [apply (pos_nonneg base m4 bits geo_codes); lia|].
  unfold pos, block_of, area_end. pose proof (Z.mod_pos_bound (i mod cpb) 16 ltac:(lia)).
  assert (i / cpb < nb) by (apply Z.div_lt_upper_bound; lia). nia.
Qed.

Lemma room_of_length nb leaf : Forall is_byte leaf → area_end nb ≤ Z.of_nat (length leaf) → room base m4 bits (nb * cpb) leaf.
Proof. intros Hb Hl. split; [done|]. intros i s Hi Hs. pose proof (pos_in_area nb i s ltac:(by split)). lia. Qed.

Lemma cell_same leaf leaf' nb i s :
  in_codes m4 (nb * cpb) i s → (∀ k, base ≤ Z.of_nat k < area_end nb → byte_at leaf' k = byte_at leaf k) →
  cell base m4 bits leaf' i s = cell base m4 bits leaf i s.
Proof.
  intros Hin Hsame. pose proof (pos_in_area nb i s Hin). pose proof base_pos. unfold cell. by rewrite Hsame by lia.
Qed.

(** A zeroed area holds no code. *)
Lemma blank_stores nb leaf :
  Forall is_byte leaf → area_end nb ≤ Z.of_nat (length leaf) →
  (∀ k, base ≤ Z.of_nat k < area_end nb → byte_at leaf k = 0) → stores_leaf nb leaf [].
Proof.
  intros Hb Hl Hz. split; [by apply room_of_length|]. intros i s Hin. pose proof (pos_in_area nb i s Hin). pose proof base_pos.
  unfold cell, stored. rewrite lookup_nil, Hz by lia. destruct (bits =? 4); [|done]. unfold nib. by rewrite Z.shiftr_0_l.
Qed.

Lemma stores_same nb leaf leaf' codes :
  stores_leaf nb leaf codes → Forall is_byte leaf' → length leaf' = length leaf →
  (∀ k, base ≤ Z.of_nat k < area_end nb → byte_at leaf' k = byte_at leaf k) → stores_leaf nb leaf' codes.
Proof.
  intros [[_ Hr] Hst] Hb Hl Hsame. split; [split; [done|by rewrite Hl]|]. intros i s Hin.
  by rewrite (cell_same leaf leaf' nb), Hst.
Qed.

(** More blocks, zeroed, hold the same codes. *)
Lemma stores_more nb nb' leaf leaf' codes :
  stores_leaf nb leaf codes → Z.of_nat (length codes) ≤ nb * cpb → Forall is_byte leaf' → area_end nb' ≤ Z.of_nat (length leaf') →
  (∀ k, base ≤ Z.of_nat k < area_end nb → byte_at leaf' k = byte_at leaf k) →
  (∀ k, area_end nb ≤ Z.of_nat k < area_end nb' → byte_at leaf' k = 0) → stores_leaf nb' leaf' codes.
Proof.
  intros [_ Hst] Hn Hb Hl Hsame Hz. split; [by apply room_of_length|]. intros i s Hin.
  destruct (decide (i < nb * cpb)) as [Hi|Hi].
  - assert (in_codes m4 (nb * cpb) i s) by (destruct Hin; split; lia).
    by rewrite (cell_same leaf leaf' nb), Hst.
  - unfold stored. rewrite lookup_ge_None_2 by lia. pose proof (pos_in_area nb' i s Hin). pose proof base_pos. pose proof cpb_pos.
    assert (area_end nb ≤ pos base m4 bits i s).
    { unfold area_end, pos, block_of. pose proof (Z.mod_pos_bound (i mod cpb) 16 ltac:(lia)).
      assert (nb ≤ i / cpb) by (apply Z.div_le_lower_bound; lia). destruct Hin. pose proof (go_m4 Hgeo). nia. }
    unfold cell. rewrite Hz by lia. destruct (bits =? 4); [|done]. unfold nib. by rewrite Z.shiftr_0_l.
Qed.

(** Changes to cells stay inside the area. *)
Lemma same_elsewhere_outside nb leaf leaf' :
  same_elsewhere base m4 bits (nb * cpb) leaf leaf' → same_outside leaf leaf' base (area_end nb).
Proof.
  intros [Hl Hs]. split; [done|]. intros k Hk. apply Hs. intros i s Hin. pose proof (pos_in_area nb i s Hin). lia.
Qed.

(** ** Encoding *)

Lemma seg_prefix c rest s : Z.of_nat (length c) = code_size → 0 ≤ s → seg bits code_size (c ++ rest) s = seg bits code_size c s.
Proof.
  intros Hl Hs. unfold seg. destruct (bits =? 4).
  - pose proof (Z.div_pos s 2 Hs ltac:(lia)). destruct (Z.ltb_spec (s / 2) code_size); [|done]. by rewrite byte_at_app, decide_True by lia.
  - destruct (Z.ltb_spec s code_size); [|done]. by rewrite byte_at_app, decide_True by lia.
Qed.

Lemma drop_concat (codes : list (list Z)) k c :
  Forall (λ c, Z.of_nat (length c) = code_size) codes → codes !! k = Some c →
  drop (Z.to_nat (Z.of_nat k * code_size)) (concat codes) = c ++ concat (drop (S k) codes).
Proof.
  revert k. induction codes as [|c' codes IH]; intros [|k] Hl Hk; [done..| |].
  - injection Hk as ->. by rewrite Z.mul_0_l, drop_0.
  - apply Forall_cons in Hl as [Hc Hl]. cbn [concat drop].
    replace (Z.to_nat (Z.of_nat (S k) * code_size)) with (length c' + Z.to_nat (Z.of_nat k * code_size))%nat by lia.
    rewrite <- drop_drop, drop_app_length. by apply IH.
Qed.

Lemma clean_ok codes : Forall code_clean codes → Forall (code_ok code_size) codes ∧ Forall (λ c, Z.of_nat (length c) = code_size) codes.
Proof. intros Hc. split; eapply Forall_impl; try exact Hc; intros c (Hb & Hl & _); [split; [done|]; lia|done]. Qed.
(** The loop of [encode_group] and [append_encode]: code after code behind those
    already there; [next k] is where the [k]-th code is read from. *)
Lemma put_new_codes nb leaf codes new (row : Z → list Z → res (list Z)) :
  stores_leaf nb leaf codes → Z.of_nat (length codes + length new) ≤ nb * cpb → Forall code_clean new →
  (∀ k c b, new !! k = Some c → ∃ rest, row (Z.of_nat k) b =
     write_code_to_fs_block b (block_of base m4 bits (Z.of_nat (length codes) + Z.of_nat k))
       ((Z.of_nat (length codes) + Z.of_nat k) mod cpb) m4 bits code_size (c ++ rest) ∧ Forall is_byte rest) →
  ∃ leaf', for_range (length new) 0 row leaf = Ok leaf' ∧ stores_leaf nb leaf' (codes ++ new) ∧
    same_outside leaf leaf' base (area_end nb).
Proof.
  intros Hst Hn Hnew Hrow. destruct (clean_ok new Hnew) as [Hok Hlen].
  destruct (put_rows_stores base m4 bits (nb * cpb) geo_codes code_size row codes new leaf) as (leaf' & E & Hs & Hsame); [done..| |].
  - intros k c b Ek _. destruct (Hrow k c b Ek) as (rest & -> & Hrest). rewrite Forall_lookup in Hok, Hlen.
    destruct (Hok _ _ Ek) as [Hc Hcl]. pose proof (Hlen _ _ Ek) as Hl. cbn beta in Hl.
    destruct (write_code_row base m4 bits geo_codes b (Z.of_nat (length codes) + Z.of_nat k) code_size (c ++ rest)) as (put & -> & Hput);
      [lia|by apply Forall_app|rewrite length_app; lia|].
    exists put. split; [done|]. intros s b' Hs. rewrite Hput by done. by rewrite seg_prefix by (done || lia).
  - exists leaf'. split; [done|]. split; [done|]. by apply same_elsewhere_outside.
Qed.

Lemma nb_ok count : 0 ≤ count < 2 ^ 32 - 32 →
  0 ≤ u32 (count + cpb - 1) / cpb < 2 ^ 28 ∧ count ≤ u32 (count + cpb - 1) / cpb * cpb.
Proof. intros Hc. destruct (n_blocks_ok count cpb Hc (codes_per_block_range bits)) as (_ & ? & ?). lia. Qed.

Lemma rowids_at nb : 0 ≤ nb < 2 ^ 28 → leaf_rowids_offset summary_size nb (m4 * 16) = area_end nb.
Proof.
  intros Hnb. destruct Hgeo as [_ Hm _ _]. pose proof base_pos. unfold leaf_rowids_offset, area_end.
  rewrite (u64_id (nb * _)) by nia. apply u64_id. nia.
Qed.

Abbreviation blocks n := (u32 (n + cpb - 1) / cpb).

Lemma encode_stores count codes ids leaf :
  count = Z.of_nat (length codes) → count < 2 ^ 32 - 32 → Forall code_clean codes →
  length ids = Z.to_nat (count * sizeof_RowId) → Forall is_byte ids → Forall is_byte leaf →
  area_end (blocks count) + count * sizeof_RowId ≤ Z.of_nat (length leaf) →
  (∀ k, base ≤ Z.of_nat k < area_end (blocks count) → byte_at leaf k = 0) →
  ∃ leaf', encode_group summary_size m4 bits code_size count (concat codes) ids leaf = Ok leaf' ∧
    stores_leaf (blocks count) leaf' codes ∧ holds leaf' (area_end (blocks count)) ids ∧
    same_outside leaf leaf' base (area_end (blocks count) + count * sizeof_RowId).
Proof.
  intros Hcount Hc Hcodes Hids Hidb Hb Hl Hz. destruct (nb_ok count ltac:(lia)) as [Hnb Hcap].
  unfold sizeof_RowId in *. set (nb := blocks count) in *. destruct (clean_ok codes Hcodes) as [Hok Hlen].
  unfold encode_group. fold nb. rewrite rowids_at, Hcount, Nat2Z.id by done.
  assert (Forall is_byte (concat codes)) as Hcb.
  { rewrite Forall_concat. eapply Forall_impl; [exact Hok|]. by intros c []. }
  destruct (put_new_codes nb leaf [] codes (λ i leaf, write_code_to_fs_block leaf (block_of base m4 bits i) (i mod cpb) m4 bits code_size
      (drop (Z.to_nat (i * code_size)) (concat codes)))) as (leaf1 & -> & Hst & Hout); [by apply blank_stores; try done; lia|cbn; lia|done| |].
  - intros k c b Ek. rewrite !Z.add_0_l. exists (concat (drop (S k) codes)). rewrite (drop_concat codes k c) by done.
    split; [done|]. rewrite Forall_concat. apply Forall_drop. eapply Forall_impl; [exact Hok|]. by intros ? [].
  - rewrite bind_Ok. cbn [app] in Hst. unfold sizeof_RowId.
    replace (Z.of_nat (length codes) * 8) with (Z.of_nat (length ids)) by lia. rewrite mem_read_holds.
    2:{ split_and!; [lia|lia|]. by apply bytes_at_exact. }
    rewrite bind_Ok. pose proof (proj1 (proj1 Hst)) as Hb1. destruct Hout as [Hl1 Hout].
    pose proof base_pos. assert (base ≤ area_end nb) by (unfold area_end; destruct Hgeo; nia).
    destruct (mem_write_ok leaf1 (area_end nb) ids) as (leaf2 & E & Hh & Hl2 & Hout2); [lia|lia|].
    exists leaf2. split; [done|]. split; [|split; [done|]].
    + apply (stores_same nb leaf1); [done|by eapply mem_write_bytes|done|]. intros k Hk. apply Hout2. lia.
    + split; [congruence|]. intros k Hk. rewrite Hout2 by lia. apply Hout. lia.
Qed.
(** ** Extracting *)

Lemma seg_zeros n s : seg bits code_size (replicate n 0) s = 0.
Proof. unfold seg. rewrite !byte_at_zeros. destruct (bits =? 4), (_ <? _); try done. unfold nib. by rewrite Z.shiftr_0_l. Qed.

Lemma code_size_pos : 0 < code_size.
Proof. destruct Hgeo as [_ ? [-> | ->] ?]; lia. Qed.

(** One lane, read into a zeroed code. *)
Lemma extract_stored nb leaf codes i c :
  stores_leaf nb leaf codes → codes !! i = Some c → Z.of_nat i < nb * cpb → code_clean c →
  extract_code_from_leaf leaf (Z.of_nat i) base m4 bits (replicate (Z.to_nat code_size) 0) = Ok c.
Proof.
  intros [Hroom Hst] Ec Hi (Hcb & Hcl & Hz). pose proof code_size_pos.
  destruct (extract_ok base m4 bits (nb * cpb) geo_codes code_size leaf (Z.of_nat i) (replicate (Z.to_nat code_size) 0))
    as (out & -> & Hb & Hl & Hseg); [done|lia|by apply Forall_replicate|rewrite length_replicate; lia|apply Hgeo|].
  rewrite length_replicate in Hl. f_equal. apply (seg_ext base m4 bits geo_codes code_size); [done|done|lia|lia|].
  intros s Hs. rewrite Hseg by done. case_decide as Hd; [|by rewrite seg_zeros, Hz by lia].
  rewrite Hst by (split; lia). unfold stored. by rewrite Nat2Z.id, Ec.
Qed.

Lemma mem_write_over (pre old post new : list Z) :
  length new = length old → mem_write (pre ++ old ++ post) (Z.of_nat (length pre)) new = Ok (pre ++ new ++ post).
Proof.
  intros Hl. unfold mem_write. rewrite bool_decide_true by (rewrite !length_app; lia). f_equal. unfold bytes_put.
  rewrite Nat2Z.id, take_app_length, <- drop_drop, drop_app_length, Hl. by rewrite drop_app_length.
Qed.

Lemma mem_read_mid (pre mid post : list Z) : mem_read (pre ++ mid ++ post) (Z.of_nat (length pre)) (Z.of_nat (length mid)) = Ok mid.
Proof.
  apply mem_read_holds. split_and!; [lia|rewrite !length_app; lia|].
  by rewrite Nat2Z.id, bytes_at_app_r, Nat.sub_diag, bytes_at_0, take_app_length by lia.
Qed.

Lemma extract_stores nb leaf codes :
  stores_leaf nb leaf codes → Z.of_nat (length codes) ≤ nb * cpb → Forall code_clean codes →
  extract_codes summary_size m4 bits code_size (Z.of_nat (length codes)) leaf
    (replicate (Z.to_nat (Z.of_nat (length codes) * code_size)) 0) = Ok (concat codes).
Proof.
  intros Hst Hn Hcodes. unfold extract_codes. pose proof code_size_pos. destruct (clean_ok codes Hcodes) as [_ Hlen].
  assert (∀ n, (n ≤ length codes)%nat → Z.of_nat (length (concat (take n codes))) = Z.of_nat n * code_size) as Hpre.
  { intros n Hn'. replace (Z.of_nat n) with (Z.of_nat (length (take n codes))) by (rewrite length_take; lia).
    assert (Forall (λ c, Z.of_nat (length c) = code_size) (take n codes)) as Ht by by apply Forall_take.
    induction Ht as [|c l Hc _ IH]; cbn [concat length]; rewrite ?length_app; lia. }
  set (zs := λ n, replicate (Z.to_nat (Z.of_nat n * code_size)) 0).
  rewrite Nat2Z.id. change (replicate (Z.to_nat (Z.of_nat (length codes) * code_size)) 0) with (zs (length codes)).
  set (J := λ n buf, buf = concat (take (Z.to_nat n) codes) ++ zs (length codes - Z.to_nat n)%nat).
  destruct (for_range_ok J (λ i codes, code ← mem_read codes (i * code_size) code_size;
    code ← extract_code_from_leaf leaf i base m4 bits code; mem_write codes (i * code_size) code) (length codes) 0 (zs (length codes)))
    as (buf & -> & HJ).
  - unfold J. cbn [Z.to_nat take concat app]. by rewrite Nat.sub_0_r.
  - intros i b Hi HJ. unfold J in HJ. subst b.
    destruct (lookup_lt_is_Some_2 codes (Z.to_nat i)) as [c Ec]; [lia|]. pose proof Hcodes as Hcl. rewrite Forall_lookup in Hcl.
    specialize (Hcl _ _ Ec). pose proof Hcl as (_ & Hl & _).
    assert (zs (length codes - Z.to_nat i)%nat = replicate (Z.to_nat code_size) 0 ++ zs (length codes - Z.to_nat (i + 1))%nat) as ->.
    { unfold zs. rewrite <- replicate_add. f_equal. nia. }
    assert (i * code_size = Z.of_nat (length (concat (take (Z.to_nat i) codes)))) as -> by (rewrite Hpre; lia).
    pose proof (mem_read_mid (concat (take (Z.to_nat i) codes)) (replicate (Z.to_nat code_size) 0)
      (zs (length codes - Z.to_nat (i + 1))%nat)) as Er. rewrite length_replicate, Z2Nat.id in Er by lia.
    rewrite Er, bind_Ok.
    pose proof (extract_stored nb leaf codes (Z.to_nat i) c) as Ex. rewrite Z2Nat.id in Ex by lia.
    rewrite Ex, bind_Ok by (done || lia).
    rewrite mem_write_over by (rewrite length_replicate; lia). eexists. split; [reflexivity|]. unfold J.
    replace (Z.to_nat (i + 1)) with (S (Z.to_nat i)) by lia.
    rewrite (take_S_r _ _ _ Ec), concat_app. cbn [concat]. by rewrite app_nil_r, <- app_assoc.
  - unfold J in HJ. rewrite HJ. rewrite Z.add_0_l, Nat2Z.id, firstn_all, Nat.sub_diag. unfold zs. by rewrite app_nil_r.
Qed.

(** ** Appending and compacting *)

Lemma append_stores {V} (encode : V → list Z) old codes vecs leaf :
  stores_leaf (blocks (Z.of_nat (length codes))) old codes →
  let total := Z.of_nat (length codes + length vecs) in
  total < 2 ^ 32 - 32 → Forall code_clean (encode <$> vecs) → Forall is_byte leaf →
  area_end (blocks (Z.of_nat (length codes))) ≤ Z.of_nat (length old) → area_end (blocks total) ≤ Z.of_nat (length leaf) →
  (∀ k, base ≤ Z.of_nat k < area_end (blocks total) → byte_at leaf k = 0) →
  ∃ leaf', append_encode encode summary_size m4 bits code_size (Z.of_nat (length codes)) old vecs leaf = Ok leaf' ∧
    stores_leaf (blocks total) leaf' (codes ++ (encode <$> vecs)) ∧ same_outside leaf leaf' base (area_end (blocks total)).
Proof.
  intros Hst total Ht Hnew Hb Hlo Hl Hz. destruct (nb_ok (Z.of_nat (length codes)) ltac:(lia)) as [Hnb Hcap].
  destruct (nb_ok total ltac:(lia)) as [Hnb' Hcap']. pose proof base_pos. pose proof (go_m4 Hgeo).
  assert (blocks (Z.of_nat (length codes)) ≤ blocks total) as Hle.
  { rewrite !u32_id by (pose proof cpb_pos; lia). apply Z.div_le_mono; pose proof cpb_pos; lia. }
  set (nb := blocks (Z.of_nat (length codes))) in *. set (nb' := blocks total) in *.
  assert (area_end nb ≤ area_end nb') by (unfold area_end; nia).
  unfold append_encode. fold nb. set (n := nb * (m4 * 16)). assert (0 ≤ n) by (unfold n; nia).
  assert (area_end nb = base + n) as En by done.
  destruct (proj1 Hst) as [Hob _].
  set (area := bytes_at old (Z.to_nat base) (Z.to_nat n)).
  assert (mem_read old base n = Ok area) as -> by (unfold mem_read; rewrite bool_decide_true by lia; done).
  assert (length area = Z.to_nat n) as Ha by (unfold area, bytes_at; rewrite length_take, length_drop; lia).
  assert (Forall is_byte area) as Hab by by apply Forall_take, Forall_drop.
  rewrite bind_Ok. destruct (mem_write_ok leaf base area) as (leaf1 & E1 & Hh & Hl1 & Hout1); [lia|lia|].
  rewrite E1, bind_Ok.
  assert (stores_leaf nb' leaf1 codes) as Hst1.
  { apply (stores_more nb nb' old); [done|done|by eapply mem_write_bytes|lia| |].
    - intros k Hk. destruct Hh as (_ & _ & Hh). assert (k = (Z.to_nat base + (k - Z.to_nat base))%nat) as -> by lia.
      assert (byte_at area (k - Z.to_nat base) = byte_at leaf1 (Z.to_nat base + (k - Z.to_nat base))) as <-.
      { rewrite <- Hh, byte_at_bytes_at, decide_True by lia. done. }
      unfold area. by rewrite byte_at_bytes_at, decide_True by lia.
    - intros k Hk. rewrite Hout1 by lia. apply Hz. lia. }
  rewrite <- (length_fmap encode vecs).
  match goal with |- context [for_range _ _ ?f _] => destruct (put_new_codes nb' leaf1 codes (encode <$> vecs) f)
    as (leaf' & -> & Hst' & Hl' & Hout') end; [done|rewrite length_fmap; lia|done| |].
  - intros k c b Ek. apply list_lookup_fmap_Some in Ek as (v & -> & Ev). exists [].
    destruct (vec_get_Ok vecs (Z.of_nat k)) as (v' & Ev' & ->); [apply lookup_lt_Some in Ev; lia|].
    rewrite Nat2Z.id, Ev in Ev'. injection Ev' as <-. rewrite bind_Ok, app_nil_r. apply lookup_lt_Some in Ev.
    rewrite u32_id by lia. by split.
  - exists leaf'. split; [done|]. split; [done|]. split; [congruence|]. intros k Hk. rewrite Hout', Hout1 by lia. done.
Qed.

Lemma compact_stores leaf codes keep new out :
  stores_leaf (blocks (Z.of_nat (length codes))) leaf codes → Z.of_nat (length codes) < 2 ^ 32 - 32 →
  Forall code_clean codes →
  Forall2 (λ k c, 0 ≤ k ∧ codes !! Z.to_nat k = Some c) keep new → Z.of_nat (length keep) < 2 ^ 32 - 32 → Forall is_byte out →
  let nb' := blocks (Z.of_nat (length keep)) in
  area_end nb' ≤ Z.of_nat (length out) → (∀ k, base ≤ Z.of_nat k < area_end nb' → byte_at out k = 0) →
  ∃ out', compact summary_size m4 bits leaf keep out = Ok out' ∧ stores_leaf nb' out' new ∧
    same_outside out out' base (area_end nb').
Proof.
  intros [Hroom Hst] Hc Hcodes Hkeep Hk Hb nb' Hl Hz. destruct (nb_ok (Z.of_nat (length codes)) ltac:(lia)) as [Hnb Hcap].
  destruct (nb_ok (Z.of_nat (length keep)) ltac:(lia)) as [Hnb' Hcap']. fold nb' in Hnb', Hcap'.
  pose proof (Forall2_length _ _ _ Hkeep) as Hlen. destruct (clean_ok codes Hcodes) as [Hok _]. rewrite Forall_lookup in Hok.
  unfold compact. rewrite Hlen.
  match goal with |- context [for_range _ _ ?f _] => set (row := f) end.
  destruct (put_rows_stores base m4 bits (nb' * cpb) geo_codes code_size row [] new out) as (out' & -> & Hst' & Hsame).
  - by apply blank_stores.
  - cbn [length]. lia.
  - rewrite Forall_lookup. intros k c Ek. destruct (Forall2_lookup_r _ _ _ _ _ Hkeep Ek) as (src & _ & _ & Es). by eapply Hok.
  - intros k c b Ek _. destruct (Forall2_lookup_r _ _ _ _ _ Hkeep Ek) as (src & Esrc & Hsrc & Es).
    unfold row. destruct (vec_get_Ok keep (Z.of_nat k)) as (src' & Ev & ->); [apply lookup_lt_Some in Esrc; lia|].
    rewrite Nat2Z.id, Esrc in Ev. injection Ev as <-. rewrite bind_Ok, Z.add_0_l.
    assert (∀ s, 0 ≤ s < m4 → seg bits code_size c s = cell base m4 bits leaf src s ∧
      vec_get leaf (pos base m4 bits src s) = Ok (byte_at leaf (Z.to_nat (pos base m4 bits src s)))) as Hcell.
    { intros s Hs. apply lookup_lt_Some in Es as Hlt. assert (in_codes m4 (blocks (Z.of_nat (length codes)) * cpb) src s) as Hin by (split; lia).
      split; [rewrite Hst by done; unfold stored; by rewrite Es|]. apply vec_get_byte. pose proof (pos_in_area _ _ _ Hin).
      pose proof base_pos. destruct Hroom as [_ Hr]. destruct Hin as [H1 H2]. pose proof (Hr _ _ H1 H2). lia. }
    unfold put_cell. destruct Hroom as [Hlb _].
    destruct (cpb_cases base m4 bits geo_codes) as [[Hbits Hcp]|[Hbits Hcp]]; rewrite Hbits in *; cbn [Z.eqb Pos.eqb];
      eexists; (split; [reflexivity|]); intros s b' Hs; cbv beta; destruct (Hcell s Hs) as [Hce Hg].
    + unfold pos in Hg at 1. rewrite Hg, bind_Ok, Hce. unfold cell, half. cbn [Z.eqb Pos.eqb]. rewrite Hcp.
      pose proof (Z.mod_pos_bound src 32 ltac:(lia)).
      assert ((if 16 <=? src mod 32 then Z.shiftr (byte_at leaf (Z.to_nat (pos base m4 4 src s))) 4
        else Z.land (byte_at leaf (Z.to_nat (pos base m4 4 src s))) 15) =
        nib (src mod 32 / 16) (byte_at leaf (Z.to_nat (pos base m4 4 src s)))) as E2.
      { destruct (Z.leb_spec 16 (src mod 32)).
        - replace (src mod 32 / 16) with 1 by (Z.div_mod_to_equations; lia). rewrite nib_high; [done|by apply byte_at_is_byte].
        - replace (src mod 32 / 16) with 0 by (Z.div_mod_to_equations; lia). by rewrite nib_low. }
      rewrite E2. unfold pos. rewrite Hcp. done.
    + unfold pos in Hg at 1. rewrite Hcp, Z.mod_mod in Hg by lia. rewrite Hcp, Hg, bind_Ok, Hce. unfold cell, pos. cbn [Z.eqb Pos.eqb]. rewrite !Hcp, !Z.mod_mod by lia. done.
  - exists out'. split; [done|]. split; [done|]. by apply same_elsewhere_outside.
Qed.
End leaves.

(** ** Theorems *)

(** The extent of a leaf about to be written: bytes, room for the codes and
    [tail] bytes behind them, and no code yet. *)
Definition fresh_leaf (summary_size m4 bits n tail : Z) (leaf : list Z) : Prop :=
  let cpb := codes_per_block bits in
  let stop := area_end summary_size m4 (u32 (n + cpb - 1) / cpb) in
  Forall is_byte leaf ∧ stop + tail ≤ Z.of_nat (length leaf) ∧
  ∀ k, leaf_codes_offset summary_size ≤ Z.of_nat k < stop → byte_at leaf k = 0.

(** C38: encoding a group and extracting its codes is the identity: every code
    comes back byte for byte, at 4 and at 8 bits, whatever its lane; the row ids are
    at the offset the readers compute, and nothing before the codes or behind the
    row ids is touched. *)
Theorem encode_extract summary_size m4 bits code_size codes ids leaf :
  let count := Z.of_nat (length codes) in
  geo_ok summary_size m4 bits code_size → count < 2 ^ 32 - 32 →
  Forall (code_clean m4 bits code_size) codes → Forall is_byte ids → length ids = Z.to_nat (count * sizeof_RowId) →
  fresh_leaf summary_size m4 bits count (count * sizeof_RowId) leaf →
  let cpb := codes_per_block bits in
  let rowids := leaf_rowids_offset summary_size (u32 (count + cpb - 1) / cpb) (m4 * 16) in
  ∃ leaf', encode_group summary_size m4 bits code_size count (concat codes) ids leaf = Ok leaf' ∧
    extract_codes summary_size m4 bits code_size count leaf' (replicate (Z.to_nat (count * code_size)) 0) = Ok (concat codes) ∧
    mem_read leaf' rowids (count * sizeof_RowId) = Ok ids ∧
    same_outside leaf leaf' (leaf_codes_offset summary_size) (rowids + count * sizeof_RowId).
Proof.
  intros count Hgeo Hc Hcodes Hib Hil (Hb & Hl & Hz) cpb rowids.
  destruct (nb_ok bits count ltac:(lia)) as [Hnb Hcap].
  destruct (encode_stores summary_size m4 bits code_size Hgeo count codes ids leaf)
    as (leaf' & E & Hst & Hh & Hout); [done..|].
  assert (rowids = area_end summary_size m4 (u32 (count + cpb - 1) / cpb)) as -> by (by eapply rowids_at).
  exists leaf'. split; [done|]. split; [by eapply extract_stores|]. split; [|done].
  apply mem_read_holds in Hh. rewrite <- Hh. f_equal. unfold sizeof_RowId in *. lia.
Qed.

(** C39: the coder's operations on a leaf's blocks are the operations on the list
    of its codes: extracting reads the list, appending encodes the new vectors behind
    it (the last block may be partly filled), compacting selects the kept positions
    in their order.  Each succeeds in a fresh extent of the new size and writes
    nothing outside the code area. *)
Theorem leaf_code_list_ops summary_size m4 bits code_size leaf codes :
  let cpb := codes_per_block bits in
  let blocks n := u32 (n + cpb - 1) / cpb in
  let count := Z.of_nat (length codes) in
  let holds_codes l cs := stores_leaf summary_size m4 bits code_size (blocks (Z.of_nat (length cs))) l cs in
  geo_ok summary_size m4 bits code_size → count < 2 ^ 32 - 32 → Forall (code_clean m4 bits code_size) codes →
  area_end summary_size m4 (blocks count) ≤ Z.of_nat (length leaf) → holds_codes leaf codes →
  extract_codes summary_size m4 bits code_size count leaf (replicate (Z.to_nat (count * code_size)) 0) = Ok (concat codes) ∧
  (∀ (encode : Z → list Z) vecs out, let total := Z.of_nat (length codes + length vecs) in
    total < 2 ^ 32 - 32 → Forall (code_clean m4 bits code_size) (encode <$> vecs) → fresh_leaf summary_size m4 bits total 0 out →
    ∃ out', append_encode encode summary_size m4 bits code_size count leaf vecs out = Ok out' ∧
      holds_codes out' (codes ++ (encode <$> vecs)) ∧
      same_outside out out' (leaf_codes_offset summary_size) (area_end summary_size m4 (blocks total))) ∧
  (∀ keep kept out, Forall2 (λ k c, 0 ≤ k ∧ codes !! Z.to_nat k = Some c) keep kept →
    Z.of_nat (length keep) < 2 ^ 32 - 32 → fresh_leaf summary_size m4 bits (Z.of_nat (length keep)) 0 out →
    ∃ out', compact summary_size m4 bits leaf keep out = Ok out' ∧ holds_codes out' kept ∧
      same_outside out out' (leaf_codes_offset summary_size) (area_end summary_size m4 (blocks (Z.of_nat (length keep))))).
Proof.
  intros cpb blocks count holds_codes Hgeo Hc Hcodes Hl Hst. destruct (nb_ok bits count ltac:(lia)) as [Hnb Hcap].
  split; [by eapply extract_stores|]. split.
  - intros encode vecs out total Ht Hnew (Hb & Hlo & Hz). unfold holds_codes. rewrite length_app, length_fmap.
    rewrite Z.add_0_r in Hlo. by eapply append_stores.
  - intros keep kept out Hkeep Hk (Hb & Hlo & Hz). unfold holds_codes. rewrite <- (Forall2_length _ _ _ Hkeep).
    rewrite Z.add_0_r in Hlo. by eapply compact_stores.
Qed.

(** ** Witnesses: three 4-bit codes of three segments, compacted to two *)

Definition ex_codes : list (list Z) := [[0x21; 0x03]; [0xFE; 0x0D]; [0x90; 0x07]].
Definition ex_ids : list Z := le_enc 8 5 ++ le_enc 8 6 ++ le_enc 8 7.

Lemma seg_past m4 bits code_size c s :
  bits = 4 → m4 ≤ s → m4 = 3 → code_size = 2 → nib 1 (byte_at c 1) = 0 → seg bits code_size c s = 0.
Proof.
  intros -> Hs -> -> Hn. unfold seg. cbn [Z.eqb Pos.eqb]. destruct (Z.ltb_spec (s / 2) 2); [|done].
  assert (s = 3) as -> by (Z.div_mod_to_equations; lia). done.
Qed.

Lemma ex_geo : geo_ok 0 3 4 2.
Proof. split; [lia|lia|by left|lia]. Qed.

Lemma ex_clean : Forall (code_clean 3 4 2) ex_codes.
Proof. repeat constructor; try done; intros s Hs; by apply (seg_past 3). Qed.

Lemma ex_fresh n tail len : Z.of_nat len = 200 → 0 ≤ n ≤ 32 → 0 ≤ tail ≤ 24 → fresh_leaf 0 3 4 n tail (replicate len 0).
Proof.
  intros Hlen Hn Ht. split; [by apply Forall_replicate|]. split; [|intros; apply byte_at_zeros].
  rewrite length_replicate. unfold area_end. change (leaf_codes_offset 0) with 112. change (codes_per_block 4) with 32.
  rewrite u32_id by lia. Z.div_mod_to_equations. lia.
Qed.

Lemma encode_extract_witness :
  ∃ leaf', encode_group 0 3 4 2 3 (concat ex_codes) ex_ids (replicate 200 0) = Ok leaf' ∧
    extract_codes 0 3 4 2 3 leaf' (replicate 6 0) = Ok (concat ex_codes) ∧
    mem_read leaf' 160 24 = Ok ex_ids ∧ same_outside (replicate 200 0) leaf' 112 184.
Proof.
  apply (encode_extract 0 3 4 2 ex_codes ex_ids (replicate 200 0));
    [apply ex_geo|done|apply ex_clean|by repeat constructor|done|by apply ex_fresh].
Defined.

Lemma leaf_code_list_ops_witness :
  ∃ leaf, encode_group 0 3 4 2 3 (concat ex_codes) ex_ids (replicate 200 0) = Ok leaf ∧
    (∃ out, compact 0 3 4 leaf [2; 0] (replicate 200 0) = Ok out ∧
      extract_codes 0 3 4 2 2 out (replicate 4 0) = Ok [0x90; 0x07; 0x21; 0x03]) ∧
    ∃ out, append_encode (λ v, [v; 0]) 0 3 4 2 3 leaf [9] (replicate 200 0) = Ok out.
Proof.
  destruct (encode_stores 0 3 4 2 ex_geo 3 ex_codes ex_ids (replicate 200 0)) as (leaf & E & Hst & _ & Hl & _);
    [done|done|apply ex_clean|done|by repeat constructor|by apply Forall_replicate|by vm_compute|intros; apply byte_at_zeros|].
  exists leaf. split; [done|].
  destruct (leaf_code_list_ops 0 3 4 2 leaf ex_codes) as (_ & Happ & Hcomp);
    [apply ex_geo|done|apply ex_clean|rewrite Hl; by vm_compute|done|].
  destruct (Hcomp [2; 0] [[0x90; 0x07]; [0x21; 0x03]] (replicate 200 0)) as (out & Eo & Hout & Hlo & _);
    [by repeat constructor|done|by apply ex_fresh|].
  destruct (Happ (λ v, [v; 0]) [9] (replicate 200 0)) as (out2 & Eo2 & _);
    [done| |by apply ex_fresh|].
  { repeat constructor; try done. intros s Hs. by apply (seg_past 3). }
  split; [|by exists out2]. exists out. split; [done|].
  apply (leaf_code_list_ops 0 3 4 2 out [[0x90; 0x07]; [0x21; 0x03]]);
    [apply ex_geo|done| |rewrite Hlo; by vm_compute|done].
  repeat constructor; try done; intros s Hs; by apply (seg_past 3).
Defined.
