(* ===== verification/Ownership.v ===== *)
(** * Ownership: the extents in use and the allocator

    A client of the allocator holds a list of extents.  [owned] says that no page
    belongs to two of them and that the bitmap marks each; allocating, freeing
    (whole extents and tails) and writing keep it, and leave the content of the
    other extents alone.  The interface between PageAllocator.v and LeafStore.v. *)
From S2P Require Import Prelude PageFile PageAllocator.

Abbreviation extent := (Z * Z)%type.

Definition extent_pages (e : extent) : list Z := seqZ e.1 e.2.
Definition owned_pages (l : list extent) : list Z := l ≫= extent_pages.

Definition owned (a : PageAllocator) (l : list extent) : Prop :=
  NoDup (owned_pages l) ∧ ∀ p, p ∈ owned_pages l → 0 ≤ p < n_pages_ a ∧ bitv (bitmap_ a) p = true.

Lemma elem_of_extent p e : p ∈ extent_pages e ↔ e.1 ≤ p < e.1 + e.2.
Proof. unfold extent_pages. by rewrite elem_of_seqZ. Qed.

Lemma owned_pages_cons e l : owned_pages (e :: l) = extent_pages e ++ owned_pages l.
Proof. done. Qed.

Lemma owned_pages_app l1 l2 : owned_pages (l1 ++ l2) = owned_pages l1 ++ owned_pages l2.
Proof. apply bind_app. Qed.

#[export] Instance owned_pages_perm : Proper (Permutation ==> Permutation) owned_pages.
Proof. intros l1 l2 E. unfold owned_pages. by rewrite E. Qed.

#[export] Instance owned_proper : Proper (eq ==> Permutation ==> iff) owned.
Proof. intros a _ <- l1 l2 E. unfold owned. by setoid_rewrite E. Qed.

Lemma extent_split p n k : 0 ≤ k ≤ n → extent_pages (p, n) = extent_pages (p, k) ++ extent_pages (p + k, n - k).
Proof. intros Hk. unfold extent_pages. cbn [fst snd]. rewrite <- seqZ_app by lia. f_equal. lia. Qed.

Lemma extent_empty p n : n ≤ 0 → extent_pages (p, n) = [].
Proof. intros Hn. unfold extent_pages. by rewrite seqZ_nil. Qed.

Section ownership.
Context `{PageStoreLaws F}.
Implicit Types (a : PageAllocator) (f : F) (l : list extent).

(** The pages of the extents of [l] have the same content. *)
Definition same_pages f f' l : Prop := ∀ p, p ∈ owned_pages l → ps_page f' p = ps_page f p.

Lemma same_pages_refl f l : same_pages f f l.
Proof. by intros p _. Qed.

Lemma same_pages_trans f1 f2 f3 l : same_pages f1 f2 l → same_pages f2 f3 l → same_pages f1 f3 l.
Proof. intros H12 H23 p Hp. by rewrite H23, H12. Qed.

Lemma same_pages_incl f f' l l' :
  same_pages f f' l → (∀ p, p ∈ owned_pages l' → p ∈ owned_pages l) → same_pages f f' l'.
Proof. intros Hs Hi p Hp. by apply Hs, Hi. Qed.

Lemma same_pages_read f f' l e bs :
  ps_wf f → ps_wf f' → num_pages f ≤ num_pages f' → same_pages f f' l → e ∈ l → 0 ≤ e.1 → 0 ≤ e.2 →
  read_pages f e.1 e.2 = Ok bs → read_pages f' e.1 e.2 = Ok bs.
Proof.
  intros Hf Hf' Hn Hs He H1 H2. apply read_same; [done..|]. intros q Hq. apply Hs.
  unfold owned_pages. apply list_elem_of_bind. exists e. split; [by apply elem_of_extent|done].
Qed.

Lemma owned_alloc a f p count a' f' l :
  owned a l → allocated a f p count a' f' → owned a' ((p, count) :: l) ∧ same_pages f f' l.
Proof.
  intros [Hnd Hb] (_ & Hn & Hp & Hpc & Hfree & Hbits & Hkeep). split; [split|].
  - rewrite owned_pages_cons. apply NoDup_app. split; [apply NoDup_seqZ|]. split; [|done].
    intros q Hq1%elem_of_extent Hq2. cbn in Hq1. apply Hb in Hq2 as [_ Hq2]. by rewrite Hfree in Hq2 by lia.
  - intros q. rewrite owned_pages_cons, elem_of_app, elem_of_extent. cbn. intros [Hq|Hq].
    + split; [lia|]. rewrite Hbits by lia. by rewrite decide_True by lia.
    + destruct (Hb q Hq). split; [lia|]. rewrite Hbits by lia. by case_decide.
  - intros q Hq. apply Hkeep. by apply Hb.
Qed.

Lemma owned_free a f e l a' f' :
  owned a (e :: l) → freed a f e.1 e.2 a' f' → owned a' l ∧ same_pages f f' l.
Proof.
  intros [Hnd Hb] (_ & Hn & Hbits & Hkeep). rewrite owned_pages_cons in Hnd, Hb.
  apply NoDup_app in Hnd as (_ & Hdis & Hnd).
  assert (∀ q, q ∈ owned_pages l → ¬ (e.1 ≤ q < e.1 + e.2)) as Hout.
  { intros q Hq Hin. by apply (Hdis q); [apply elem_of_extent|]. }
  assert (∀ q, q ∈ owned_pages l → 0 ≤ q < n_pages_ a ∧ bitv (bitmap_ a) q = true) as Hb'.
  { intros q Hq. apply Hb, elem_of_app. by right. }
  split; [split; [done|]|].
  - intros q Hq. destruct (Hb' q Hq). split; [lia|]. rewrite Hbits by lia. by rewrite decide_False by by apply Hout.
  - intros q Hq. destruct (Hb' q Hq). apply Hkeep; [lia|]. intros [Hin _]. by apply (Hout q).
Qed.

(** Splitting an extent, and dropping an empty one. *)
Lemma owned_split a p n k l : 0 ≤ k ≤ n → owned a ((p, n) :: l) ↔ owned a ((p + k, n - k) :: (p, k) :: l).
Proof.
  intros Hk. unfold owned. rewrite !owned_pages_cons, (extent_split p n k Hk).
  assert (extent_pages (p + k, n - k) ++ extent_pages (p, k) ++ owned_pages l ≡ₚ
    (extent_pages (p, k) ++ extent_pages (p + k, n - k)) ++ owned_pages l) as E by solve_Permutation.
  by setoid_rewrite E.
Qed.

Lemma owned_tail a e l : owned a (e :: l) → owned a l.
Proof.
  intros [Hnd Hb]. rewrite owned_pages_cons in *. split; [by apply NoDup_app in Hnd as (_ & _ & ?)|].
  intros p Hp. apply Hb, elem_of_app. by right.
Qed.

Lemma owned_range a e l : owned a (e :: l) → 0 < e.2 → 0 ≤ e.1 ∧ e.1 + e.2 ≤ n_pages_ a.
Proof.
  intros [_ Hb] Hn. assert (∀ p, e.1 ≤ p < e.1 + e.2 → 0 ≤ p < n_pages_ a) as Hr.
  { intros p Hp. apply Hb. rewrite owned_pages_cons, elem_of_app, elem_of_extent. by left. }
  pose proof (Hr e.1 ltac:(lia)). pose proof (Hr (e.1 + e.2 - 1) ltac:(lia)). lia.
Qed.

(** Writing into an owned extent. *)
Lemma owned_write a f e l n bs :
  alloc_ok a f → owned a (e :: l) → 0 < n ≤ e.2 → length bs = Z.to_nat (n * kPageSize) → Forall is_byte bs →
  ∃ f', write_pages f e.1 n bs = Ok f' ∧ alloc_ok a f' ∧ num_pages f' = num_pages f ∧ same_pages f f' l ∧
    read_pages f' e.1 n = Ok bs.
Proof.
  intros Ha Ho Hn Hl Hb. destruct (owned_range a e l Ho) as [He1 He2]; [lia|].
  pose proof (ok_range a f Ha). pose proof (ok_file a f Ha) as Hfile. pose proof (ok_wf a f Ha) as Hwf.
  destruct (ps_write_ok f e.1 n bs) as (f' & E & Hwf' & Hn' & Hq); [done|lia|lia|lia|done|done|].
  assert (num_pages f' = num_pages f) as Hnum by lia.
  pose proof Ho as [Hnd Hbits]. rewrite owned_pages_cons in Hnd, Hbits. apply NoDup_app in Hnd as (_ & Hdis & _).
  exists f'. split; [done|]. split; [|split; [done|split]].
  - destruct Ha as [A1 A2 A3 A4 A5 A6 A7 A8]. split; try done; [congruence|].
    intros p Hp Hfree. unfold free_link. rewrite Hq by lia. rewrite decide_False; [by apply A8|].
    intros Hin. destruct (Hbits p) as [_ Ht]; [|congruence]. apply elem_of_app. left. apply elem_of_extent. lia.
  - intros p Hp. assert (p ∈ extent_pages e ++ owned_pages l) as Hp' by (apply elem_of_app; by right).
    destruct (Hbits p Hp') as [Hpr _]. rewrite Hq, decide_False; [done| |lia].
    intros Hin. apply (Hdis p); [apply elem_of_extent; lia|done].
  - destruct (ps_read_ok f' e.1 n) as (bs' & E' & Hl' & Hs); [done|lia|lia|lia|]. rewrite E'. f_equal.
    apply (page_slices_ext _ _ n); [done..|]. intros k Hk. rewrite Hs, Hq by lia. rewrite decide_True by lia. f_equal. lia.
Qed.
End ownership.

(** ** The bitmap's place and size *)

Ltac bind_inv E := repeat (let E1 := fresh "E" in let a := fresh "v" in apply bind_Ok_inv in E as (a & E1 & E)).

(** Nothing of the allocator's geometry changed. *)
Definition same_shape (a a' : PageAllocator) : Prop :=
  bitmap_page_ a' = bitmap_page_ a ∧ bitmap_pages_ a' = bitmap_pages_ a ∧ n_pages_ a' = n_pages_ a ∧
  length (bitmap_ a') = length (bitmap_ a).

(** The bitmap region is where it was, and the bitmap is no longer than before
    or than the file needs. *)
Definition same_region (a a' : PageAllocator) : Prop :=
  bitmap_page_ a' = bitmap_page_ a ∧ bitmap_pages_ a' = bitmap_pages_ a ∧
  Z.of_nat (length (bitmap_ a')) ≤ Z.max (Z.of_nat (length (bitmap_ a))) ((n_pages_ a' + 7) / 8).

Lemma same_shape_refl a : same_shape a a.
Proof. done. Qed.

Lemma same_shape_trans a1 a2 a3 : same_shape a1 a2 → same_shape a2 a3 → same_shape a1 a3.
Proof. intros (? & ? & ? & ?) (? & ? & ? & ?). split_and!; congruence. Qed.

Lemma shape_region a a' : same_shape a a' → same_region a a'.
Proof. intros (? & ? & ? & Hl). split_and!; [done..|]. rewrite Hl. lia. Qed.

Lemma shape_region_trans a1 a2 a3 : same_shape a1 a2 → same_region a2 a3 → same_region a1 a3.
Proof. intros (? & ? & ? & Hl) (? & ? & L2). split_and!; [congruence..|]. by rewrite <- Hl. Qed.

Lemma same_region_trans a1 a2 a3 :
  n_pages_ a2 ≤ n_pages_ a3 → same_region a1 a2 → same_region a2 a3 → same_region a1 a3.
Proof.
  intros Hn (? & ? & L1) (? & ? & L2). split_and!; [congruence..|].
  pose proof (Z.div_le_mono (n_pages_ a2 + 7) (n_pages_ a3 + 7) 8). lia.
Qed.

Lemma vec_set_length {A} (l l' : list A) i x : vec_set l i x = Ok l' → length l' = length l.
Proof. unfold vec_set. destruct (_ || _); [done|]. intros [= <-]. apply length_insert. Qed.

Lemma bit_set_length bm i bm' : bit_set bm i = Ok bm' → length bm' = length bm.
Proof. unfold bit_set. intros E. res_inv. by eapply vec_set_length. Qed.

Lemma bit_clear_length bm i bm' : bit_clear bm i = Ok bm' → length bm' = length bm.
Proof. unfold bit_clear. intros E. res_inv. by eapply vec_set_length. Qed.

Lemma set_bit_shape a h n page bm : bit_set (bitmap_ a) page = Ok bm → same_shape a (with_bitmap (with_free a h n) bm).
Proof. intros E. split_and!; [done..|]. by eapply bit_set_length. Qed.

Lemma clear_list_shape a a' : clear_free_list a = Ok a' → same_shape a a'.
Proof. unfold clear_free_list. intros E. res_inv. by subst. Qed.

Lemma mark_shape a start count a' : mark_allocated a start count = Ok a' → same_shape a a'.
Proof.
  unfold mark_allocated. apply (for_range_preserves same_shape); [done|apply same_shape_trans|].
  intros j t t' E. res_inv. subst. destruct v; by apply (set_bit_shape _ _ _ (u64 (start + j))) || (split_and!; [done..|by eapply bit_set_length]).
Qed.

Section shapes.
Context `{PageStore F}.
Implicit Types (f : F).

Lemma grow_region a f n a' f' : grow a f n = Ok (a', f') → 0 ≤ n_pages_ a + n < 2 ^ 63 → same_region a a'.
Proof.
  unfold grow. intros E Hn. bind_inv E. injection E as <- _. split_and!; [done..|]. cbn [bitmap_ n_pages_ with_free with_n_pages].
  rewrite (u64_id (_ + _)) by lia. unfold grow_bitmap. cbn [bitmap_]. rewrite u64_id by lia.
  destruct (Z.ltb_spec (Z.of_nat (length (bitmap_ a))) ((n_pages_ a + n + 7) / 8)); [|lia].
  rewrite length_resize. lia.
Qed.

(** Allocation at most grows the file. *)
Lemma alloc_extent_region a f count p a' f' :
  alloc_extent a f count = Ok (p, a', f') → 0 ≤ n_pages_ a + count < 2 ^ 62 → 0 ≤ count → same_region a a'.
Proof.
  assert (∀ a f p a' f', 0 ≤ n_pages_ a + 1 < 2 ^ 63 → alloc_scan a f = Ok (p, a', f') → same_region a a') as Hscan.
  { clear. intros a f p a' f' Hn E. unfold alloc_scan in E. res_inv. destruct (negb _).
    - bind_inv E. injection E as <- <- <-. apply shape_region. by eapply set_bit_shape.
    - apply bind_Ok_inv in E as ([a1 f1] & Eg & E). bind_inv E. injection E as <- <- <-.
      apply (same_region_trans _ a1); [done|by eapply grow_region|]. apply shape_region. by eapply set_bit_shape. }
  unfold alloc_extent. intros E Hn Hc. destruct (Z.eqb_spec count 0); [injection E as <- <- <-; by apply shape_region|].
  destruct (Z.eqb_spec count 1) as [->|].
  - unfold alloc_page in E. destruct (free_list_head_ a =? kInvalidPage); [eapply Hscan; [|done]; lia|].
    apply bind_Ok_inv in E as (b & _ & E). destruct b.
    + apply bind_Ok_inv in E as (a1 & E1 & E). pose proof (clear_list_shape _ _ E1) as S1. pose proof S1 as (_ & _ & N1 & _).
      apply (shape_region_trans _ a1); [done|]. eapply Hscan; [|done]. lia.
    + bind_inv E. injection E as <- <- <-. apply shape_region. by eapply set_bit_shape.
  - apply bind_Ok_inv in E as (r & _ & E). destruct (negb _).
    + bind_inv E. injection E as <- <- <-. apply shape_region. by eapply mark_shape.
    + apply bind_Ok_inv in E as ([a1 f1] & Eg & E). pose proof (grow_region _ _ _ _ _ Eg ltac:(lia)) as G.
      apply bind_Ok_inv in E as (r' & _ & E). destruct (_ =? _); [injection E as <- <- <-; done|].
      bind_inv E. injection E as <- <- <-. pose proof (mark_shape _ _ _ _ E0) as S2. pose proof S2 as (_ & _ & N2 & _).
      apply (same_region_trans _ a1); [lia|done|by apply shape_region].
Qed.

Lemma push_free_shape a f page a' f' : push_free a f page = Ok (a', f') → same_shape a a'.
Proof. unfold push_free. intros E. bind_inv E. injection E as <- <-. split_and!; [done..|]. by eapply bit_clear_length. Qed.

Lemma free_extent_shape a f start count a' f' : free_extent a f start count = Ok (a', f') → same_shape a a'.
Proof.
  unfold free_extent. apply (for_range_preserves (λ s s', same_shape s.1 s'.1) _ _ _ (a, f) (a', f')); [done| |].
  - intros t u v. apply same_shape_trans.
  - intros j [a1 f1] [a2 f2] E. apply bind_Ok_inv in E as (b & _ & E). destruct b; [by eapply push_free_shape|by injection E as <- <-].
Qed.
End shapes.
