(* ===== verification/LeafStore.v ===== *)
(** * LeafStore: leaves, their table and the commit of a mutation
    ([src/tree/ivf_tree_mutate.cpp])

    A leaf is reached through the leaf table: id, first page, pages.  [read_leaf_],
    [write_leaf_], [commit_mutable_], [remap_] and [defrag] are the code's, over any
    [PageStore]; the text of the manifest is what the writer of the TOML file makes
    of the row count, a parameter.  [remap_] also maps the file and re-parses the
    root: the model keeps what the mutations use, superblock, table and counters. *)
From S2P Require Import Prelude PageFile TreeNodes PageAllocator Superblock Ownership.

(** ** State *)

Record IVFTreeIndex (F : Type) := mkIndex {
  file_ : F;
  superblock_ : SuperblockDisk;
  leaf_table_ : list LeafTableEntry;
  mf_n_vectors : Z;
  mf_n_leaves : Z;
  n_vectors_disk_ : Z;
}.
Arguments mkIndex {F}.
Arguments file_ {F}.
Arguments superblock_ {F}.
Arguments leaf_table_ {F}.
Arguments mf_n_vectors {F}.
Arguments mf_n_leaves {F}.
Arguments n_vectors_disk_ {F}.

Definition with_file {F} (ix : IVFTreeIndex F) (f : F) : IVFTreeIndex F :=
  mkIndex f (superblock_ ix) (leaf_table_ ix) (mf_n_vectors ix) (mf_n_leaves ix) (n_vectors_disk_ ix).
Definition with_table {F} (ix : IVFTreeIndex F) (t : list LeafTableEntry) : IVFTreeIndex F :=
  mkIndex (file_ ix) (superblock_ ix) t (mf_n_vectors ix) (mf_n_leaves ix) (n_vectors_disk_ ix).
Definition with_superblock {F} (ix : IVFTreeIndex F) (sb : SuperblockDisk) : IVFTreeIndex F :=
  mkIndex (file_ ix) sb (leaf_table_ ix) (mf_n_vectors ix) (mf_n_leaves ix) (n_vectors_disk_ ix).
Definition with_n_vectors {F} (ix : IVFTreeIndex F) (n : Z) : IVFTreeIndex F :=
  mkIndex (file_ ix) (superblock_ ix) (leaf_table_ ix) n (mf_n_leaves ix) (n_vectors_disk_ ix).

Section store.
Context `{PageStore F}.
Implicit Types (ix : IVFTreeIndex F) (alloc : PageAllocator).

(** ** Leaf read/write helpers *)

Definition read_leaf_ ix (leaf_id : Z) : res (list Z) :=
  if Z.of_nat (length (leaf_table_ ix)) <=? leaf_id then throw CorruptIndex
  else
    e ← vec_get (leaf_table_ ix) leaf_id;
    read_pages (file_ ix) (le_page e) (le_pages e).

Definition write_leaf_ ix (leaf_id : Z) (buf : list Z) (new_pages : Z) alloc : res (IVFTreeIndex F * PageAllocator) :=
  old_entry ← vec_get (leaf_table_ ix) leaf_id;
  let old_pages := le_pages old_entry in
  if new_pages <=? old_pages then
    f ← write_pages (file_ ix) (le_page old_entry) new_pages buf;
    table ← vec_set (leaf_table_ ix) leaf_id (mkLeafEntry (le_page old_entry) new_pages);
    '(alloc, f) ← (if new_pages <? old_pages
                   then free_extent alloc f (u64 (le_page old_entry + new_pages)) (old_pages - new_pages)
                   else mret (alloc, f));
    mret (with_table (with_file ix f) table, alloc)
  else
    '(new_page, alloc, f) ← alloc_extent alloc (file_ ix) new_pages;
    f ← write_pages f new_page new_pages buf;
    '(alloc, f) ← free_extent alloc f (le_page old_entry) old_pages;
    table ← vec_set (leaf_table_ ix) leaf_id (mkLeafEntry new_page new_pages);
    mret (with_table (with_file ix f) table, alloc).

(** Rows in all leaves, from their headers. *)
Definition live_count ix : res Z :=
  for_range (length (leaf_table_ ix)) 0 (λ lid total,
    e ← vec_get (leaf_table_ ix) lid;
    if le_page e =? kInvalidPage then mret total
    else
      buf ← read_pages (file_ ix) (le_page e) (le_pages e);
      hdr ← mem_read buf 0 sizeof_TreeLeafHeader;
      mret (u64 (total + lh_count (leaf_header_of_bytes hdr)))) 0.

(** ** The leaf table on disk *)

Definition entry_bytes (e : LeafTableEntry) : list Z := encode_fields [(8%nat, le_page e); (4%nat, le_pages e)].

(** The blob: the number of entries, the entries, zeros. *)
Definition leaf_table_blob (table : list LeafTableEntry) (npg : Z) : res (list Z) :=
  b ← mem_write (replicate (Z.to_nat (u32 (npg * kPageSize))) 0) 0 (le_enc 8 (Z.of_nat (length table)));
  for_range (length table) 0 (λ i b,
    e ← vec_get table i;
    mem_write b (8 + i * sizeof_LeafTableEntry) (entry_bytes e)) b.

(** Superblock, table and leaf count as they are on disk. *)
Definition remap_ ix : res (IVFTreeIndex F) :=
  sb ← load (file_ ix);
  table ← (if negb (leaf_table_page sb =? kInvalidPage) && (0 <? leaf_table_pages sb) then
             blob ← read_pages (file_ ix) (leaf_table_page sb) (leaf_table_pages sb);
             n_entries ← mem_uint blob 0 8;
             bs ← mem_read blob 8 (u64 (n_entries * sizeof_LeafTableEntry));
             mret ((λ i, leaf_entry_of_bytes (bytes_at bs (i * 12) 12)) <$> seq 0 (Z.to_nat n_entries))
           else mret (leaf_table_ ix));
  mret (mkIndex (file_ ix) sb table (mf_n_vectors ix) (u32 (n_leaves sb)) (n_vectors_disk_ ix)).

(** ** Commit *)

Context (manifest_to_toml : Z → list Z).

(** The manifest blob is rewritten when the row count changed. *)
Definition rewrite_manifest ix alloc : res (IVFTreeIndex F * PageAllocator) :=
  if mf_n_vectors ix =? n_vectors_disk_ ix then mret (ix, alloc)
  else
    let cfg_toml := manifest_to_toml (mf_n_vectors ix) in
    let cfg_npg := u32 (u64 (Z.of_nat (length cfg_toml) + kPageSize - 1) / kPageSize) in
    '(cfg_page, alloc, f) ← alloc_extent alloc (file_ ix) cfg_npg;
    b ← mem_write (replicate (Z.to_nat (u32 (cfg_npg * kPageSize))) 0) 0 cfg_toml;
    f ← write_pages f cfg_page cfg_npg b;
    let sb := superblock_ ix in
    '(alloc, f) ← (if negb (config_page sb =? kInvalidPage)
                   then free_extent alloc f (config_page sb) (config_pages sb)
                   else mret (alloc, f));
    mret (mkIndex f (set_config sb cfg_page cfg_npg) (leaf_table_ ix) (mf_n_vectors ix) (mf_n_leaves ix)
            (mf_n_vectors ix), alloc).

(** The leaf table in a fresh extent; the old one is given back. *)
Definition rewrite_leaf_table ix alloc : res (Z * Z * IVFTreeIndex F * PageAllocator) :=
  let sb := superblock_ ix in
  let blob_bytes := u64 (8 + u64 (Z.of_nat (length (leaf_table_ ix)) * sizeof_LeafTableEntry)) in
  let lt_npg := u32 (u64 (blob_bytes + kPageSize - 1) / kPageSize) in
  '(lt_page, alloc, f) ← alloc_extent alloc (file_ ix) lt_npg;
  b ← leaf_table_blob (leaf_table_ ix) lt_npg;
  f ← write_pages f lt_page lt_npg b;
  '(alloc, f) ← (if negb (leaf_table_page sb =? kInvalidPage)
                 then free_extent alloc f (leaf_table_page sb) (leaf_table_pages sb)
                 else mret (alloc, f));
  mret (lt_page, lt_npg, with_file ix f, alloc).

(** Bitmap, then superblock, then the new state read back. *)
Definition publish ix alloc (lt_page lt_npg : Z) : res (IVFTreeIndex F * PageAllocator) :=
  f ← flush_bitmap alloc (file_ ix);
  let sb := set_leaf_table (superblock_ ix) lt_page lt_npg in
  let sb := set_n_pages sb (num_pages f) in
  let sb := set_free_list sb (free_list_head_ alloc) (n_free_pages_ alloc) in
  let sb := set_n_leaves sb (Z.of_nat (length (leaf_table_ ix))) in
  '(sb, f) ← commit sb f;
  alloc ← clear_free_list alloc;
  ix ← remap_ (with_superblock (with_file ix f) sb);
  mret (ix, alloc).

Definition commit_mutable_ ix alloc : res (IVFTreeIndex F * PageAllocator) :=
  '(lt_page, lt_npg, ix, alloc) ← rewrite_leaf_table ix alloc;
  '(ix, alloc) ← rewrite_manifest ix alloc;
  publish ix alloc lt_page lt_npg.

(** ** Defragmentation *)

Definition load_allocator ix : res PageAllocator :=
  let sb := superblock_ ix in
  PageAllocator.load (file_ ix) (alloc_bitmap_page sb) (alloc_bitmap_pages sb) (n_pages sb) (free_list_head sb) (n_free_pages sb).

(** One leaf of the relocation loop; the last component counts the leaves
    relocated since the last commit. *)
Definition relocate_leaf (batch_size lid : Z) (st : IVFTreeIndex F * PageAllocator * Z * Z) :
    res (IVFTreeIndex F * PageAllocator * Z * Z) :=
  let '(ix, alloc, relocated, batch_count) := st in
  entry ← vec_get (leaf_table_ ix) lid;
  if (le_page entry =? kInvalidPage) || (le_pages entry =? 0) then mret st
  else
    let pages := le_pages entry in
    buf ← read_leaf_ ix lid;
    '(new_page, alloc, f) ← alloc_extent alloc (file_ ix) pages;
    f ← write_pages f new_page pages buf;
    '(alloc, f) ← free_extent alloc f (le_page entry) pages;
    table ← vec_set (leaf_table_ ix) lid (mkLeafEntry new_page pages);
    let ix := with_table (with_file ix f) table in
    let batch_count := u32 (batch_count + 1) in
    if batch_size <=? batch_count then
      '(ix, alloc) ← commit_mutable_ ix alloc;
      alloc ← clear_free_list alloc;
      mret (ix, alloc, u64 (relocated + 1), 0)
    else mret (ix, alloc, u64 (relocated + 1), batch_count).

(** The extents [defrag] keeps when it truncates the file. *)
Definition considered ix : list extent :=
  let sb := superblock_ ix in
  ((λ e, (le_page e, le_pages e)) <$> leaf_table_ ix) ++
  [(alloc_bitmap_page sb, alloc_bitmap_pages sb); (root_node_page sb, root_node_pages sb);
   (codebook_page sb, codebook_pages sb); (config_page sb, config_pages sb); (pca_page sb, pca_pages sb);
   (cardinality_page sb, cardinality_pages sb); (leaf_table_page sb, leaf_table_pages sb)].

Definition consider (max_end : Z) (e : extent) : Z :=
  if negb (e.1 =? kInvalidPage) && (0 <? e.2) then Z.max max_end (u64 (e.1 + e.2)) else max_end.

Definition shrink_file ix alloc : res (IVFTreeIndex F * Z) :=
  let new_n_pages := foldl consider 0 (considered ix) in
  let old_n_pages := num_pages (file_ ix) in
  if new_n_pages <? old_n_pages then
    f ← truncate (file_ ix) new_n_pages;
    let sb := set_n_pages (superblock_ ix) new_n_pages in
    f ← flush_bitmap alloc f;
    '(sb, f) ← commit sb f;
    ix ← remap_ (with_superblock (with_file ix f) sb);
    mret (ix, old_n_pages - new_n_pages)
  else mret (ix, 0).

Record DefragConfig := mkDefrag { batch_size : Z; dc_shrink_file : bool }.

(** The index, the number of leaves relocated, the pages reclaimed. *)
Definition defrag (plane : bool) (config : DefragConfig) ix : res (IVFTreeIndex F * Z * Z) :=
  if plane then throw NotImplemented
  else
    alloc ← load_allocator ix;
    let bs := if 0 <? batch_size config then batch_size config else 1 in
    '(ix, alloc, relocated, batch_count) ←
      for_range (length (leaf_table_ ix)) 0 (relocate_leaf bs) (ix, alloc, 0, 0);
    '(ix, alloc) ← (if 0 <? batch_count then
                      '(ix, alloc) ← commit_mutable_ ix alloc;
                      alloc ← clear_free_list alloc;
                      mret (ix, alloc)
                    else mret (ix, alloc));
    if dc_shrink_file config then
      '(ix, reclaimed) ← shrink_file ix alloc;
      mret (ix, relocated, reclaimed)
    else mret (ix, relocated, 0).
End store.
