(* ===== verification/LeafStoreSafety.v ===== *)
(** * LeafStoreSafety: no mutation touches a leaf it does not write

    The invariant of an index under mutation, its leaf extents and those of the
    superblock's blobs owned by it, each once, and what [write_leaf_] and the two
    rewrites of a commit do to it. *)
From S2P Require Import Prelude PageFile TreeNodes PageAllocator Superblock Ownership LeafStore.

(** ** Replacing an extent by a new one *)

Section replace.
Context `{PageStoreLaws F}.
Implicit Types (a : PageAllocator) (f : F) (l : list extent).

Definition free_old a f (old : list extent) : res (PageAllocator * F) :=
  match old with [] => mret (a, f) | e :: _ => free_extent a f e.1 e.2 end.

Lemma free_extent_owned a f e l :
  alloc_ok a f → owned a (e :: l) → 0 ≤ e.2 →
  ∃ a' f', free_extent a f e.1 e.2 = Ok (a', f') ∧ alloc_ok a' f' ∧ owned a' l ∧ same_pages f f' l ∧
    n_pages_ a' = n_pages_ a ∧ same_region a a'.
Proof.
  intros Ha Ho He. destruct (decide (e.2 = 0)) as [Hz|Hz].
  { exists a, f. unfold free_extent. rewrite Hz. split; [done|]. split; [done|].
    split; [by eapply owned_tail|]. by split_and!; [..|apply shape_region]. }
  destruct (owned_range a e l Ho ltac:(lia)) as [H1 H2].
  destruct (free_extent_freed a f e.1 e.2) as (a' & f' & E & Hf); [done|lia..|].
  destruct (owned_free a f e l a' f' Ho Hf) as [Ho' Hs]. pose proof Hf as (Ha' & Hn & _).
  exists a', f'. split_and!; try done. apply shape_region. by eapply free_extent_shape.
Qed.

(** Allocate, write, give the old extent back: what a growing leaf, the table and
    the manifest do. *)
Lemma replace_extent a f old l np bs :
  alloc_ok a f → owned a (old ++ l) → (length old ≤ 1)%nat → Forall (λ e, 0 ≤ e.2) old →
  0 < np < 2 ^ 32 → n_pages_ a + np ≤ max_pages → length bs = Z.to_nat (np * kPageSize) → Forall is_byte bs →
  ∃ p a1 f1 f2 a3 f3, alloc_extent a f np = Ok (p, a1, f1) ∧ write_pages f1 p np bs = Ok f2 ∧
    free_old a1 f2 old = Ok (a3, f3) ∧ alloc_ok a3 f3 ∧ owned a3 ((p, np) :: l) ∧ same_pages f f3 l ∧
    read_pages f3 p np = Ok bs ∧ n_pages_ a ≤ n_pages_ a3 ≤ n_pages_ a + np ∧ same_region a a3 ∧
    0 ≤ p ∧ p + np ≤ n_pages_ a3.
Proof.
  intros Ha Ho Hold He Hnp Hmax Hl Hb. pose proof (ok_range a f Ha) as Hr.
  destruct (alloc_extent_allocated a f np) as (p & a1 & f1 & E1 & Hal); [done..|].
  destruct (owned_alloc a f p np a1 f1 (old ++ l) Ho Hal) as [Ho1 Hs1].
  pose proof Hal as (Ha1 & Hn1 & Hp0 & Hp1 & _).
  destruct (owned_write a1 f1 (p, np) (old ++ l) np bs) as (f2 & E2 & Ha2 & _ & Hs2 & Er); [done|done|cbn; lia|done|done|].
  assert (same_region a a1) as Hreg by (eapply alloc_extent_region; [done|unfold max_pages in *; lia|lia]).
  destruct old as [|e [|? ?]]; cbn [length] in Hold; [..|lia]; cbn [app] in *.
  - exists p, a1, f1, f2, a1, f2. split_and!; try done; try lia. by eapply same_pages_trans.
  - assert (owned a1 (e :: (p, np) :: l)) as Ho2 by by rewrite (Permutation_swap (p, np) e l).
    destruct (free_extent_owned a1 f2 e ((p, np) :: l)) as (a3 & f3 & E3 & Ha3 & Ho3 & Hs3 & Hn3 & Hr3);
      [done|done|by apply Forall_inv in He|].
    exists p, a1, f1, f2, a3, f3. split_and!; try done; try lia.
    + assert (∀ g g', same_pages g g' (e :: l) → same_pages g g' l) as Htl.
      { intros g g' Hg q Hq. apply Hg. rewrite owned_pages_cons. apply elem_of_app. by right. }
      eapply same_pages_trans; [by apply Htl|]. eapply same_pages_trans; [by apply Htl|].
      intros q Hq. apply Hs3. rewrite owned_pages_cons. apply elem_of_app. by right.
    + eapply (same_pages_read f2 f3 _ (p, np)); try done; [apply Ha2|apply Ha3| |by left|cbn; lia].
      rewrite (ok_file a3 f3 Ha3), (ok_file a1 f2 Ha2). lia.
    + apply (same_region_trans _ a1); [lia|done..].
Qed.
End replace.

(** ** The invariant *)

Section store.
Context `{PageStoreLaws F}.
Implicit Types (ix : IVFTreeIndex F) (a : PageAllocator) (rest : list extent).

Definition leaf_ext (e : LeafTableEntry) : extent := (le_page e, le_pages e).
Definition opt_ext (page pages : Z) : list extent := if page =? kInvalidPage then [] else [(page, pages)].

(** The extents of the superblock's leaf table and manifest. *)
Definition table_ext (sb : SuperblockDisk) : list extent := opt_ext (leaf_table_page sb) (leaf_table_pages sb).
Definition config_ext (sb : SuperblockDisk) : list extent := opt_ext (config_page sb) (config_pages sb).

Definition store_exts ix rest : list extent :=
  (leaf_ext <$> leaf_table_ ix) ++ table_ext (superblock_ ix) ++ config_ext (superblock_ ix) ++ rest.

(** [rest]: the extents no mutation here replaces, the superblock's own pages, the
    bitmap, the nodes. *)
Record store_ok ix a rest : Prop := {
  st_alloc : alloc_ok a (file_ ix);
  st_owned : owned a (store_exts ix rest);
  st_entries : Forall (λ e, 0 ≤ le_page e < 2 ^ 64 ∧ 0 ≤ le_pages e < 2 ^ 32) (leaf_table_ ix);
  st_blobs : 0 ≤ leaf_table_pages (superblock_ ix) ∧ 0 ≤ config_pages (superblock_ ix);
}.

Lemma opt_ext_short page pages : (length (opt_ext page pages) ≤ 1)%nat.
Proof. unfold opt_ext. destruct (_ =? _); simpl; lia. Qed.

Lemma opt_ext_nonneg page pages : 0 ≤ pages → Forall (λ e : extent, 0 ≤ e.2) (opt_ext page pages).
Proof. unfold opt_ext. destruct (_ =? _); by repeat constructor. Qed.

(** Giving a blob back is [free_old] of its extent. *)
Lemma free_blob a (f : F) page pages :
  (if negb (page =? kInvalidPage) then free_extent a f page pages else mret (a, f)) = free_old a f (opt_ext page pages).
Proof. unfold opt_ext. by destruct (page =? kInvalidPage). Qed.

Lemma opt_ext_page p n k : 0 ≤ p → p + n ≤ k → 0 < n → k ≤ max_pages → opt_ext p n = [(p, n)].
Proof. intros. unfold opt_ext. destruct (Z.eqb_spec p kInvalidPage); [unfold kInvalidPage, UINT64_MAX, max_pages in *; lia|done]. Qed.

(** ** Reading leaves *)

Lemma read_leaf_lookup ix lid e :
  leaf_table_ ix !! lid = Some e → read_leaf_ ix (Z.of_nat lid) = read_pages (file_ ix) (le_page e) (le_pages e).
Proof.
  intros E. pose proof (lookup_lt_Some _ _ _ E). unfold read_leaf_. rewrite (proj2 (Z.leb_gt _ _)) by lia.
  destruct (vec_get_Ok (leaf_table_ ix) (Z.of_nat lid)) as (e' & E' & ->); [lia|].
  rewrite Nat2Z.id, E in E'. by injection E' as <-.
Qed.

(** A leaf id outside the table is refused. *)
Lemma read_leaf_missing ix lid : Z.of_nat (length (leaf_table_ ix)) ≤ lid → read_leaf_ ix lid = throw CorruptIndex.
Proof. intros Hl. unfold read_leaf_. by rewrite (proj2 (Z.leb_le _ _)). Qed.

Lemma leaf_readable ix a rest lid e :
  store_ok ix a rest → leaf_table_ ix !! lid = Some e →
  ∃ bs, read_leaf_ ix (Z.of_nat lid) = Ok bs ∧ length bs = Z.to_nat (le_pages e * kPageSize) ∧ Forall is_byte bs.
Proof.
  intros [Ha Ho He _] E. rewrite (read_leaf_lookup _ _ e) by done.
  rewrite Forall_lookup in He. destruct (He _ _ E) as [Hp Hn].
  assert (∃ bs, read_pages (file_ ix) (le_page e) (le_pages e) = Ok bs ∧ length bs = Z.to_nat (le_pages e * kPageSize)) as (bs & Eb & Hl).
  { destruct (decide (le_pages e = 0)) as [->|Hz]; [exists []; by rewrite ps_read_none|].
    unfold store_exts in Ho. rewrite <- (take_drop_middle _ _ _ E), fmap_app, fmap_cons, <- app_assoc in Ho.
    rewrite <- app_comm_cons, <- Permutation_middle in Ho. apply owned_range in Ho as [_ Hr]; [|cbn; lia]. cbn in Hr.
    destruct (ps_read_ok (file_ ix) (le_page e) (le_pages e)) as (bs & Eb & Hl & _);
      [apply Ha|lia|lia|by rewrite (ok_file _ _ Ha)|]. by exists bs. }
  exists bs. split_and!; [done..|]. apply (read_bytes (file_ ix) (le_page e) (le_pages e)); [apply Ha|lia|lia|done].
Qed.

(** What [ix] reads of a leaf, [ix'] reads too. *)
Definition keeps ix ix' (lid : nat) : Prop :=
  ∀ bs, read_leaf_ ix (Z.of_nat lid) = Ok bs → read_leaf_ ix' (Z.of_nat lid) = Ok bs.

Lemma keeps_trans ix1 ix2 ix3 lid : keeps ix1 ix2 lid → keeps ix2 ix3 lid → keeps ix1 ix3 lid.
Proof. unfold keeps. auto. Qed.

Lemma keeps_pages ix ix' a a' l lid e :
  alloc_ok a (file_ ix) → alloc_ok a' (file_ ix') → n_pages_ a ≤ n_pages_ a' →
  leaf_table_ ix !! lid = Some e → leaf_table_ ix' !! lid = Some e → 0 ≤ le_page e → 0 ≤ le_pages e →
  same_pages (file_ ix) (file_ ix') l → leaf_ext e ∈ l → keeps ix ix' lid.
Proof.
  intros Ha Ha' Hn E E' Hp Hq Hs He bs. rewrite !(read_leaf_lookup _ _ e) by done.
  apply (same_pages_read _ _ l (leaf_ext e)); try done; [apply Ha|apply Ha'|].
  by rewrite (ok_file _ _ Ha), (ok_file _ _ Ha').
Qed.

(** ** write_leaf_ *)

(** The table with one entry singled out. *)
Lemma store_exts_middle t1 e t2 (m : list extent) :
  (leaf_ext <$> t1 ++ e :: t2) ++ m ≡ₚ leaf_ext e :: (leaf_ext <$> t1 ++ t2) ++ m.
Proof. rewrite !fmap_app, fmap_cons. solve_Permutation. Qed.

Lemma lookup_middle_ne {A} (t1 t2 : list A) e e' j : j ≠ length t1 → (t1 ++ e :: t2) !! j = (t1 ++ e' :: t2) !! j.
Proof.
  intros Hj. destruct (decide (j < length t1)%nat); [by rewrite !lookup_app_l by lia|].
  rewrite !lookup_app_r by lia. destruct (j - length t1)%nat eqn:E; [lia|done].
Qed.

Lemma elem_of_others t1 t2 e e' j (m : list extent) :
  (t1 ++ e :: t2) !! j = Some e' → j ≠ length t1 → leaf_ext e' ∈ (leaf_ext <$> t1 ++ t2) ++ m.
Proof.
  intros E Hj. apply elem_of_app. left. apply list_elem_of_fmap. exists e'. split; [done|]. apply elem_of_app.
  destruct (decide (j < length t1)%nat).
  - left. rewrite lookup_app_l in E by done. by eapply list_elem_of_lookup_2.
  - right. rewrite lookup_app_r in E by lia. destruct (j - length t1)%nat eqn:Ej; [lia|]. cbn in E. by eapply list_elem_of_lookup_2.
Qed.

(** Putting [e'] in the place of one entry. *)
Lemma store_replace ix ix' a a' rest t1 e t2 e' bs :
  store_ok ix a rest → leaf_table_ ix = t1 ++ e :: t2 → leaf_table_ ix' = t1 ++ e' :: t2 →
  superblock_ ix' = superblock_ ix →
  let others := (leaf_ext <$> t1 ++ t2) ++ table_ext (superblock_ ix) ++ config_ext (superblock_ ix) ++ rest in
  alloc_ok a' (file_ ix') → owned a' (leaf_ext e' :: others) → same_pages (file_ ix) (file_ ix') others →
  n_pages_ a ≤ n_pages_ a' ≤ max_pages → 0 ≤ le_page e' < 2 ^ 64 → 0 ≤ le_pages e' < 2 ^ 32 →
  read_pages (file_ ix') (le_page e') (le_pages e') = Ok bs →
  store_ok ix' a' rest ∧ read_leaf_ ix' (Z.of_nat (length t1)) = Ok bs ∧
  ∀ j, (j < length (leaf_table_ ix))%nat → j ≠ length t1 → keeps ix ix' j.
Proof.
  intros [Ha Ho He Hbl] Et Et' Esb others Ha' Ho' Hs Hn Hp' Hn' Er. split; [|split].
  - split; [done| | |by rewrite Esb].
    + unfold store_exts. rewrite Et', Esb. by rewrite store_exts_middle.
    + rewrite Et'. rewrite Et in He. apply Forall_app in He as [He1 He2]. apply Forall_cons in He2 as [_ He2].
      apply Forall_app. split; [done|]. by constructor.
  - rewrite (read_leaf_lookup _ _ e'); [done|]. by rewrite Et', list_lookup_middle.
  - intros j Hj Hne. destruct (lookup_lt_is_Some_2 _ _ Hj) as [ej Ej]. rewrite Forall_lookup in He. destruct (He _ _ Ej).
    apply (keeps_pages ix ix' a a' others j ej); try done; try lia.
    + rewrite Et', <- (lookup_middle_ne t1 t2 e) by done. by rewrite <- Et.
    + rewrite Et in Ej. by eapply elem_of_others.
Qed.

Lemma vec_get_middle' {A} (t1 t2 : list A) e : vec_get (t1 ++ e :: t2) (Z.of_nat (length t1)) = Ok e.
Proof.
  destruct (vec_get_Ok (t1 ++ e :: t2) (Z.of_nat (length t1))) as (e' & E & ->); [rewrite length_app; cbn; lia|].
  rewrite Nat2Z.id, list_lookup_middle in E by done. by injection E as <-.
Qed.

Lemma vec_set_middle' {A} (t1 t2 : list A) e e' : vec_set (t1 ++ e :: t2) (Z.of_nat (length t1)) e' = Ok (t1 ++ e' :: t2).
Proof.
  rewrite vec_set_Ok by (rewrite length_app; cbn; lia). rewrite Nat2Z.id. by rewrite insert_app_r_alt, Nat.sub_diag by lia.
Qed.

Lemma write_leaf_ok ix a rest lid e buf np :
  store_ok ix a rest → leaf_table_ ix !! lid = Some e → 0 < np < 2 ^ 32 → n_pages_ a + np ≤ max_pages →
  length buf = Z.to_nat (np * kPageSize) → Forall is_byte buf →
  ∃ ix' a', write_leaf_ ix (Z.of_nat lid) buf np a = Ok (ix', a') ∧ store_ok ix' a' rest ∧
    read_leaf_ ix' (Z.of_nat lid) = Ok buf ∧
    (∀ j, (j < length (leaf_table_ ix))%nat → j ≠ lid → keeps ix ix' j) ∧
    length (leaf_table_ ix') = length (leaf_table_ ix) ∧ superblock_ ix' = superblock_ ix ∧
    mf_n_vectors ix' = mf_n_vectors ix ∧ n_vectors_disk_ ix' = n_vectors_disk_ ix ∧
    same_pages (file_ ix) (file_ ix') (table_ext (superblock_ ix) ++ config_ext (superblock_ ix) ++ rest) ∧
    n_pages_ a ≤ n_pages_ a' ≤ n_pages_ a + np ∧ same_region a a' ∧ (np ≤ le_pages e → n_pages_ a' = n_pages_ a).
Proof.
  intros Hst E Hnp Hmax Hl Hb. pose proof Hst as [Ha Ho He _]. pose proof (ok_range _ _ Ha) as Hr.
  rewrite Forall_lookup in He. destruct (He _ _ E) as [Hp Hn]. clear He.
  pose proof (lookup_lt_Some _ _ _ E) as Hlt.
  destruct (list_elem_of_split_length _ _ _ E) as (t1 & t2 & Et & ->).
  set (m := table_ext (superblock_ ix) ++ config_ext (superblock_ ix) ++ rest).
  set (others := (leaf_ext <$> t1 ++ t2) ++ m).
  assert (owned a (leaf_ext e :: others)) as Ho'.
  { unfold store_exts in Ho. fold m in Ho. by rewrite Et, store_exts_middle in Ho. }
  assert (∀ (f : F) ix', file_ ix' = f → same_pages (file_ ix) f others → same_pages (file_ ix) (file_ ix') m) as Hm.
  { intros f ix' -> Hs q Hq. apply Hs. unfold others. rewrite owned_pages_app. apply elem_of_app. by right. }
  unfold write_leaf_. rewrite Et, vec_get_middle', bind_Ok. destruct (Z.leb_spec np (le_pages e)) as [Hle|Hgt].
  - destruct (owned_range a _ _ Ho') as [Hp1 Hp2]; [cbn; lia|]. cbn in Hp1, Hp2.
    destruct (owned_write a (file_ ix) (leaf_ext e) others np buf) as (f1 & E1 & Ha1 & Hn1 & Hs1 & Er1); [done|done|cbn; lia|done|done|].
    cbn [leaf_ext fst snd] in E1, Er1. rewrite E1, bind_Ok, vec_set_middle', bind_Ok.
    pose proof (proj1 (owned_split a (le_page e) (le_pages e) np others ltac:(lia)) Ho') as Hsp.
    assert (∃ a2 f2, (if np <? le_pages e then free_extent a f1 (u64 (le_page e + np)) (le_pages e - np) else mret (a, f1)) = Ok (a2, f2) ∧
      alloc_ok a2 f2 ∧ owned a2 ((le_page e, np) :: others) ∧ same_pages f1 f2 ((le_page e, np) :: others) ∧
      n_pages_ a2 = n_pages_ a ∧ same_region a a2) as (a2 & f2 & -> & Ha2 & Ho2 & Hs2 & Hn2 & Hr2).
    { destruct (Z.ltb_spec np (le_pages e)).
      - rewrite u64_id by (unfold max_pages in *; lia).
        destruct (free_extent_owned a f1 (le_page e + np, le_pages e - np) ((le_page e, np) :: others)) as (a2 & f2 & R);
          [done|done|cbn; lia|]. exists a2, f2. apply R.
      - exists a, f1. split; [done|]. split; [done|]. split; [by eapply owned_tail|]. split; [done|]. split; [done|]. by apply shape_region. }
    rewrite bind_Ok. set (ix' := with_table (with_file ix f2) _).
    assert (same_pages (file_ ix) f2 others) as Hs.
    { eapply same_pages_trans; [done|]. intros q Hq. apply Hs2. rewrite owned_pages_cons. apply elem_of_app. by right. }
    assert (read_pages f2 (le_page e) np = Ok buf) as Er2.
    { eapply (same_pages_read f1 f2 _ (le_page e, np)); try done; [apply Ha1|apply Ha2| |by left|cbn; lia].
      rewrite (ok_file _ _ Ha1), (ok_file _ _ Ha2). lia. }
    destruct (store_replace ix ix' a a2 rest t1 e t2 (mkLeafEntry (le_page e) np) buf) as (Hst' & Hrl & Hk);
      try done; try (cbn; unfold max_pages in *; lia). rewrite Et in Hk.
    exists ix', a2. split; [done|]. split_and!; try done; try lia; [cbn [leaf_table_ ix' with_table]; by rewrite !length_app|by eapply Hm].
  - destruct (replace_extent a (file_ ix) [leaf_ext e] others np buf) as (p & a1 & f1 & f2 & a3 & f3 & E1 & E2 & E3 & Ha3 & Ho3 & Hs3 & Er3 & Hn3 & Hr3 & Hp3 & Hp4);
      [done..|cbn; lia| |done|done|done|done|]; [repeat constructor; cbn; lia|].
    rewrite E1, bind_Ok, E2, bind_Ok. cbn [free_old leaf_ext fst snd] in E3. rewrite E3, bind_Ok, vec_set_middle', bind_Ok.
    set (ix' := with_table (with_file ix f3) _).
    destruct (store_replace ix ix' a a3 rest t1 e t2 (mkLeafEntry p np) buf) as (Hst' & Hrl & Hk);
      try done; try (cbn; unfold max_pages in *; lia). rewrite Et in Hk.
    exists ix', a3. split; [done|]. split_and!; try done; try lia; [cbn [leaf_table_ ix' with_table]; by rewrite !length_app|by eapply Hm].
Qed.
End store.
