(* ===== verification/LeafStoreCommit.v ===== *)
(** * LeafStoreCommit: the commit of a mutation is durable

    The leaf table round trips through its blob, and [commit_mutable_] leaves on
    disk what the index has in memory: superblock, leaf table, manifest, bitmap.
    No leaf and no other extent changes. *)
From S2P Require Import Prelude PageFile TreeNodes PageAllocator Superblock Ownership LeafStore LeafStoreSafety.

(** ** The leaf table blob *)

Definition entry_ok (e : LeafTableEntry) : Prop := 0 ≤ le_page e < 2 ^ 64 ∧ 0 ≤ le_pages e < 2 ^ 32.
Definition table_bytes (t : list LeafTableEntry) : list Z := concat (entry_bytes <$> t).

Lemma length_entry_bytes e : length (entry_bytes e) = 12%nat.
Proof. unfold entry_bytes. by rewrite length_encode_fields. Qed.

Lemma table_bytes_cons e t : table_bytes (e :: t) = entry_bytes e ++ table_bytes t.
Proof. done. Qed.

Lemma table_bytes_snoc t e : table_bytes (t ++ [e]) = table_bytes t ++ entry_bytes e.
Proof. unfold table_bytes. rewrite fmap_app, concat_app. cbn [fmap list_fmap concat]. by rewrite app_nil_r. Qed.

Lemma length_table_bytes t : length (table_bytes t) = (length t * 12)%nat.
Proof. induction t as [|e t IH]; [done|]. rewrite table_bytes_cons, length_app, length_entry_bytes, IH. cbn. lia. Qed.

Lemma table_bytes_bytes t : Forall is_byte (table_bytes t).
Proof. induction t as [|e t IH]; [constructor|]. rewrite table_bytes_cons. apply Forall_app. split; [apply encode_fields_bytes|done]. Qed.

Lemma entry_roundtrip e rest : entry_ok e → leaf_entry_of_bytes (entry_bytes e ++ rest) = e.
Proof.
  intros [Hp Hn]. unfold leaf_entry_of_bytes, entry_bytes.
  change [8; 4]%nat with [(8%nat, le_page e); (4%nat, le_pages e)].*1.
  rewrite decode_encode_fields; [by destruct e|].
  repeat constructor; cbn; lia.
Qed.

(** Decoding the array of entries. *)
Lemma table_decode t :
  Forall entry_ok t → (λ i, leaf_entry_of_bytes (bytes_at (table_bytes t) (i * 12) 12)) <$> seq 0 (length t) = t.
Proof.
  induction 1 as [|e t He _ IH]; [done|]. cbn [length seq fmap list_fmap]. f_equal.
  - rewrite Nat.mul_0_l, table_bytes_cons, bytes_at_0, take_app_le by (rewrite length_entry_bytes; lia).
    rewrite take_ge by (rewrite length_entry_bytes; lia). rewrite <- (app_nil_r (entry_bytes e)). by apply entry_roundtrip.
  - rewrite <- fmap_S_seq, <- list_fmap_compose. rewrite <- IH at 2. apply list_fmap_ext. intros k i _. unfold compose. f_equal.
Qed.

Lemma length_write b off bs b' : mem_write b off bs = Ok b' → length b' = length b.
Proof. unfold mem_write. case_bool_decide; [|done]. intros [= <-]. apply length_bytes_put. lia. Qed.

(** A buffer that starts with [pre], extended by writing behind it. *)
Lemma write_behind b pre bs :
  holds b 0 pre → Z.of_nat (length pre + length bs) ≤ Z.of_nat (length b) → Forall is_byte b → Forall is_byte bs →
  ∃ b', mem_write b (Z.of_nat (length pre)) bs = Ok b' ∧ holds b' 0 (pre ++ bs) ∧ length b' = length b ∧ Forall is_byte b'.
Proof.
  intros Hh Hl Hb Hbs. destruct (mem_write_ok b (Z.of_nat (length pre)) bs) as (b' & E & Hh' & Hs); [lia|lia|].
  exists b'. split; [done|]. split; [|split; [apply Hs|by eapply mem_write_bytes]].
  apply holds_app. split; [|done]. eapply holds_same_outside; [done| |done]. left. lia.
Qed.

Lemma leaf_table_blob_ok t npg :
  Z.of_nat (8 + 12 * length t) ≤ npg * kPageSize → npg * kPageSize < 2 ^ 32 →
  ∃ b, leaf_table_blob t npg = Ok b ∧ length b = Z.to_nat (npg * kPageSize) ∧ Forall is_byte b ∧
    holds b 0 (le_enc 8 (Z.of_nat (length t)) ++ table_bytes t).
Proof.
  intros Hfit Hmax. unfold leaf_table_blob. rewrite (u32_id (npg * kPageSize)) by lia.
  set (z := replicate (Z.to_nat (npg * kPageSize)) 0). assert (length z = Z.to_nat (npg * kPageSize)) as Hz by apply length_replicate.
  destruct (write_behind z [] (le_enc 8 (Z.of_nat (length t)))) as (b0 & E0 & H0b & Hl0 & Hb0);
    [by apply holds_nil; lia|rewrite length_le_enc; cbn; lia|by apply Forall_replicate|apply le_enc_bytes|].
  change (Z.of_nat (length (@nil Z))) with 0 in E0. rewrite E0, bind_Ok.
  set (J := λ i b, length b = length z ∧ Forall is_byte b ∧
    holds b 0 (le_enc 8 (Z.of_nat (length t)) ++ table_bytes (take (Z.to_nat i) t))).
  match goal with |- context [for_range _ _ ?f _] => destruct (for_range_ok J f (length t) 0 b0) as (b & E & Hb) end.
  - split_and!; [done..|]. cbn [Z.to_nat take]. by rewrite app_nil_r.
  - intros i b Hi (Hl & Hb & Hh). destruct (lookup_lt_is_Some_2 t (Z.to_nat i)) as [e Ee]; [lia|].
    destruct (vec_get_Ok t i) as (e' & E1 & ->); [lia|]. rewrite Ee in E1. injection E1 as <-. rewrite bind_Ok.
    destruct (write_behind b (le_enc 8 (Z.of_nat (length t)) ++ table_bytes (take (Z.to_nat i) t)) (entry_bytes e)) as (b' & E2 & Hh' & Hl' & Hb');
      [done| |done|apply encode_fields_bytes|].
    { rewrite length_app, length_le_enc, length_table_bytes, length_take, length_entry_bytes. lia. }
    replace (8 + i * sizeof_LeafTableEntry) with (Z.of_nat (length (le_enc 8 (Z.of_nat (length t)) ++ table_bytes (take (Z.to_nat i) t))))
      by (rewrite length_app, length_le_enc, length_table_bytes, length_take; unfold sizeof_LeafTableEntry; lia).
    exists b'. split; [done|]. split_and!; [congruence|done|]. replace (Z.to_nat (i + 1)) with (S (Z.to_nat i)) by lia.
    by rewrite (take_S_r _ _ _ Ee), table_bytes_snoc, app_assoc.
  - exists b. destruct Hb as (Hl & Hb & Hh). rewrite Z.add_0_l, Nat2Z.id, firstn_all in Hh. split_and!; [done|congruence|done..].
Qed.

(** Reading the blob back, as [remap_] does. *)
Lemma leaf_table_read b t :
  Forall entry_ok t → Z.of_nat (length t) < 2 ^ 59 → holds b 0 (le_enc 8 (Z.of_nat (length t)) ++ table_bytes t) →
  mem_uint b 0 8 = Ok (Z.of_nat (length t)) ∧
  mem_read b 8 (u64 (Z.of_nat (length t) * sizeof_LeafTableEntry)) = Ok (table_bytes t).
Proof.
  intros He Hn Hh. apply holds_app in Hh as [H1 H2]. split.
  - apply mem_uint_holds; [done|]. change (256 ^ Z.of_nat 8) with (2 ^ 64). lia.
  - rewrite length_le_enc in H2. apply mem_read_holds in H2. rewrite length_table_bytes in H2.
    unfold sizeof_LeafTableEntry. rewrite u64_id by lia. rewrite <- H2. f_equal. lia.
Qed.

(** Enough pages for a blob. *)
Lemma pages_for n : 0 < n < 2 ^ 31 →
  0 < u32 (u64 (n + kPageSize - 1) / kPageSize) < 2 ^ 20 ∧ n ≤ u32 (u64 (n + kPageSize - 1) / kPageSize) * kPageSize < 2 ^ 32.
Proof.
  intros Hn. rewrite u64_id by page_lia. assert (0 < (n + kPageSize - 1) / kPageSize < 2 ^ 20 ∧ n ≤ (n + kPageSize - 1) / kPageSize * kPageSize < 2 ^ 32) as [? ?] by page_div_lia.
  rewrite u32_id by lia. done.
Qed.

(** ** Pages the allocator does not care about *)

Section commit.
Context `{PageStoreLaws F} (manifest_to_toml : Z → list Z).
Implicit Types (ix : IVFTreeIndex F) (a : PageAllocator).

Lemma alloc_ok_frame a (f f' : F) :
  alloc_ok a f → ps_wf f' → num_pages f' = num_pages f →
  (∀ p, 0 ≤ p < n_pages_ a → bitv (bitmap_ a) p = false → ps_page f' p = ps_page f p) → alloc_ok a f'.
Proof.
  intros [A1 A2 A3 A4 A5 A6 A7 A8] Hwf Hn Hp. split; try done; [congruence|].
  intros p Hr Hb. unfold free_link. rewrite Hp by done. by apply A8.
Qed.

Lemma sb_committed_frame s (f f' : F) :
  sb_committed s f → ps_wf f' → 2 ≤ num_pages f' → ps_page f' 0 = ps_page f 0 → ps_page f' 1 = ps_page f 1 → sb_committed s f'.
Proof.
  intros (_ & _ & Hs & Hv & Hq & Ho) Hwf Hn H0p H1p.
  assert (∀ p, 0 ≤ p ≤ 1 → copy_at f' p = copy_at f p) as Hc.
  { intros p Hp. unfold copy_at. assert (p = 0 ∨ p = 1) as [-> | ->] by lia; congruence. }
  unfold sb_committed. rewrite !Hc by apply commit_page_range. done.
Qed.

(** ** The two rewrites *)

Definition table_small (t : list LeafTableEntry) : Prop := Z.of_nat (length t) < 2 ^ 27.
Definition table_pages (t : list LeafTableEntry) : Z :=
  u32 (u64 (8 + Z.of_nat (length t) * sizeof_LeafTableEntry + kPageSize - 1) / kPageSize).

(** The blob is in a fresh extent, everything owned is kept. *)
Lemma rewrite_leaf_table_ok ix a l :
  let sb := superblock_ ix in
  alloc_ok a (file_ ix) → owned a (table_ext sb ++ l) → 0 ≤ leaf_table_pages sb → table_small (leaf_table_ ix) →
  n_pages_ a + table_pages (leaf_table_ ix) ≤ max_pages →
  ∃ p npg f b a', rewrite_leaf_table ix a = Ok (p, npg, with_file ix f, a') ∧ npg = table_pages (leaf_table_ ix) ∧
    alloc_ok a' f ∧ owned a' ((p, npg) :: l) ∧ same_pages (file_ ix) f l ∧ read_pages f p npg = Ok b ∧
    holds b 0 (le_enc 8 (Z.of_nat (length (leaf_table_ ix))) ++ table_bytes (leaf_table_ ix)) ∧
    n_pages_ a ≤ n_pages_ a' ≤ n_pages_ a + npg ∧ same_region a a' ∧ 0 ≤ p ∧ p + npg ≤ n_pages_ a' ∧ 0 < npg < 2 ^ 20.
Proof.
  intros sb Ha Ho Hlt Hsm Hmax. unfold table_small in Hsm. unfold rewrite_leaf_table. fold sb.
  rewrite (u64_id (Z.of_nat (length (leaf_table_ ix)) * sizeof_LeafTableEntry)) by (unfold sizeof_LeafTableEntry; lia).
  rewrite (u64_id (8 + _)) by (unfold sizeof_LeafTableEntry; lia). fold (table_pages (leaf_table_ ix)).
  destruct (pages_for (8 + Z.of_nat (length (leaf_table_ ix)) * sizeof_LeafTableEntry)) as [Hnp Hfit];
    [unfold sizeof_LeafTableEntry; lia|]. fold (table_pages (leaf_table_ ix)) in Hnp, Hfit. set (npg := table_pages (leaf_table_ ix)) in *.
  destruct (leaf_table_blob_ok (leaf_table_ ix) npg) as (b & Eb & Hl & Hb & Hh); [unfold sizeof_LeafTableEntry in Hfit; lia|lia|].
  destruct (replace_extent a (file_ ix) (table_ext sb) l npg b) as (p & a1 & f1 & f2 & a3 & f3 & E1 & E2 & E3 & Ha3 & Ho3 & Hs3 & Er3 & Hn3 & Hr3 & Hp3 & Hp4);
    [done|done|apply opt_ext_short|by apply opt_ext_nonneg|lia|done|done|done|].
  rewrite E1, bind_Ok, Eb, bind_Ok, E2, bind_Ok, free_blob. fold (table_ext sb). rewrite E3, bind_Ok.
  exists p, npg, f3, b, a3. split_and!; try done; lia.
Qed.

(** What the writer of the manifest promises: some text, not gigantic. *)
Definition toml_ok (toml : list Z) : Prop := Forall is_byte toml ∧ 0 < Z.of_nat (length toml) < 2 ^ 31.
Definition config_blob (toml : list Z) : list Z :=
  resize (Z.to_nat (u32 (u64 (Z.of_nat (length toml) + kPageSize - 1) / kPageSize) * kPageSize)) 0 toml.
Definition toml_pages (toml : list Z) : Z := u32 (u64 (Z.of_nat (length toml) + kPageSize - 1) / kPageSize).

Lemma write_front toml n : (length toml ≤ n)%nat →
  mem_write (replicate n 0) 0 toml = Ok (resize n 0 toml).
Proof.
  intros Hl. unfold mem_write. rewrite bool_decide_true by (rewrite length_replicate; lia). f_equal.
  unfold bytes_put. rewrite take_0, app_nil_l, drop_replicate, resize_spec, take_ge by lia. done.
Qed.

(** A superblock that may differ from [sb] in the manifest's extent. *)
Definition only_config (sb sb' : SuperblockDisk) : Prop :=
  sb' = sb ∨ ∃ p n, sb' = set_config sb p n ∧ 0 ≤ p < 2 ^ 64 ∧ 0 ≤ n < 2 ^ 32.

Lemma rewrite_manifest_ok ix a l :
  let sb := superblock_ ix in
  let toml := manifest_to_toml (mf_n_vectors ix) in
  alloc_ok a (file_ ix) → owned a (config_ext sb ++ l) → 0 ≤ config_pages sb → toml_ok toml →
  n_pages_ a + toml_pages toml ≤ max_pages →
  ∃ f sb' a', rewrite_manifest manifest_to_toml ix a =
      Ok (mkIndex f sb' (leaf_table_ ix) (mf_n_vectors ix) (mf_n_leaves ix) (mf_n_vectors ix), a') ∧
    alloc_ok a' f ∧ owned a' (config_ext sb' ++ l) ∧ same_pages (file_ ix) f l ∧ 0 ≤ config_pages sb' ∧ only_config sb sb' ∧
    n_pages_ a ≤ n_pages_ a' ≤ n_pages_ a + toml_pages toml ∧ same_region a a' ∧
    (mf_n_vectors ix ≠ n_vectors_disk_ ix → read_pages f (config_page sb') (config_pages sb') = Ok (config_blob toml)) ∧
    (mf_n_vectors ix = n_vectors_disk_ ix → sb' = sb ∧ f = file_ ix).
Proof.
  intros sb toml Ha Ho Hcp [Htb Htl] Hmax. destruct (pages_for (Z.of_nat (length toml))) as [Hnp Hfit]; [lia|].
  fold (toml_pages toml) in Hnp, Hfit. unfold rewrite_manifest. destruct (Z.eqb_spec (mf_n_vectors ix) (n_vectors_disk_ ix)) as [Heq|Hne].
  - exists (file_ ix), sb, a. split; [destruct ix; cbn in *; by subst|]. split_and!; try done; try lia; [by left|by apply shape_region].
  - fold toml. fold (toml_pages toml). rewrite (u32_id (toml_pages toml * kPageSize)) by lia.
    set (np := toml_pages toml) in *.
    assert (config_blob toml = resize (Z.to_nat (np * kPageSize)) 0 toml) as Ecb by done.
    destruct (replace_extent a (file_ ix) (config_ext sb) l np (config_blob toml)) as (p & a1 & f1 & f2 & a3 & f3 & E1 & E2 & E3 & Ha3 & Ho3 & Hs3 & Er3 & Hn3 & Hr3 & Hp3 & Hp4);
      [done|done|apply opt_ext_short|by apply opt_ext_nonneg|lia|done|by rewrite Ecb, length_resize|rewrite Ecb; by apply Forall_resize|].
    pose proof (ok_range _ _ Ha3).
    rewrite E1, bind_Ok, write_front, <- Ecb by lia. rewrite bind_Ok, E2, bind_Ok. fold sb. rewrite free_blob. fold (config_ext sb). rewrite E3, bind_Ok.
    exists f3, (set_config sb p np), a3. split; [done|].
    assert (config_ext (set_config sb p np) = [(p, np)]) as Ec by (eapply opt_ext_page; [done|done|lia|lia]).
    rewrite Ec. split_and!; try done; try (cbn; lia). right. exists p, np. split; [done|]. unfold max_pages in *. lia.
Qed.

(** ** The commit *)

(** The extents every index owns besides its blobs and leaves: the two copies of
    the superblock, the bitmap, and [nodes], the rest of the tree. *)
Definition meta a (nodes : list extent) : list extent := (0, 2) :: (bitmap_page_ a, bitmap_pages_ a) :: nodes.

Record index_ok ix a (nodes : list extent) : Prop := {
  ix_store : store_ok ix a (meta a nodes);
  ix_sb : sb_committed (commit_seq (superblock_ ix)) (file_ ix);
  ix_valid : valid_copy (superblock_ ix);
  ix_range : sb_in_range (superblock_ ix);
  ix_bitmap : alloc_bitmap_page (superblock_ ix) = bitmap_page_ a ∧ alloc_bitmap_pages (superblock_ ix) = bitmap_pages_ a;
  ix_bpages : 0 < bitmap_pages_ a < 2 ^ 20;
  ix_fits : Z.of_nat (length (bitmap_ a)) ≤ bitmap_pages_ a * kPageSize;
}.

(** The pages the bitmap has bits for. *)
Definition capacity a : Z := bitmap_pages_ a * kPageSize * 8.

Lemma fits_region a a' :
  same_region a a' → Z.of_nat (length (bitmap_ a)) ≤ bitmap_pages_ a * kPageSize → n_pages_ a' ≤ capacity a →
  Z.of_nat (length (bitmap_ a')) ≤ bitmap_pages_ a' * kPageSize.
Proof.
  intros (_ & -> & Hl) Hf Hn. unfold capacity in Hn. assert ((n_pages_ a' + 7) / 8 ≤ bitmap_pages_ a * kPageSize); [|lia].
  assert ((n_pages_ a' + 7) / 8 < bitmap_pages_ a * kPageSize + 1); [|lia]. apply Z.div_lt_upper_bound; lia.
Qed.

Lemma owned_ext a a' l :
  owned a l → n_pages_ a' = n_pages_ a → (∀ j, bitv (bitmap_ a') j = bitv (bitmap_ a) j) → owned a' l.
Proof. intros [Hnd Hb] Hn Hbit. split; [done|]. intros p Hp. rewrite Hn, Hbit. by apply Hb. Qed.

(** Pages of one owned extent are not those of the others. *)
Lemma owned_outside a e l (f f' : F) :
  owned a (e :: l) → (∀ q, 0 ≤ q → ¬ (e.1 ≤ q < e.1 + e.2) → ps_page f' q = ps_page f q) → same_pages f f' l.
Proof.
  intros [Hnd Hb] Hq q Hin. rewrite owned_pages_cons in Hnd, Hb. apply NoDup_app in Hnd as (_ & Hd & _). apply Hq.
  - apply Hb. apply elem_of_app. by right.
  - intros Hr. by apply (Hd q); [apply elem_of_extent|].
Qed.

Lemma same_pages_sub (f f' : F) l l' : same_pages f f' l → (∀ e, e ∈ l' → e ∈ l) → same_pages f f' l'.
Proof.
  intros Hs Hi q Hq. apply Hs. unfold owned_pages in *. apply list_elem_of_bind in Hq as (e & Hqe & He). apply list_elem_of_bind. exists e. auto.
Qed.

Lemma owned_own a e l : owned a (e :: l) → 0 < e.2 →
  0 ≤ e.1 ∧ e.1 + e.2 ≤ n_pages_ a ∧ ∀ q, e.1 ≤ q < e.1 + e.2 → bitv (bitmap_ a) q = true.
Proof.
  intros Ho He. destruct (owned_range a e l Ho He). split_and!; [done..|]. intros q Hq. apply Ho.
  rewrite owned_pages_cons. apply elem_of_app. left. by apply elem_of_extent.
Qed.

(** The superblock a commit writes. *)
Definition committed_sb (sb : SuperblockDisk) (p npg npages head nfree nleaves : Z) : SuperblockDisk :=
  set_n_leaves (set_free_list (set_n_pages (set_leaf_table sb p npg) npages) head nfree) nleaves.

Lemma committed_sb_range sb sb' p npg npages head nfree nleaves :
  sb_in_range sb → only_config sb sb' → 0 ≤ p < 2 ^ 64 → 0 ≤ npg < 2 ^ 32 → 0 ≤ npages < 2 ^ 64 → 0 ≤ head < 2 ^ 64 →
  0 ≤ nfree < 2 ^ 64 → 0 ≤ nleaves < 2 ^ 64 → sb_in_range (committed_sb sb' p npg npages head nfree nleaves).
Proof.
  intros Hr Hc. intros. unfold sb_in_range, sb_fields, committed_sb in *. repeat (apply Forall_cons in Hr as [? Hr]).
  unfold field_fits in *. cbn [fst snd] in *. change (256 ^ Z.of_nat 8) with (2 ^ 64) in *. change (256 ^ Z.of_nat 4) with (2 ^ 32) in *.
  destruct Hc as [-> | (p' & n' & -> & ? & ?)];
    repeat (apply Forall_cons; split); try (cbn; lia); try done; constructor.
Qed.

Lemma remap_reads ix b :
  load (file_ ix) = Ok (superblock_ ix) → leaf_table_page (superblock_ ix) ≠ kInvalidPage → 0 < leaf_table_pages (superblock_ ix) →
  read_pages (file_ ix) (leaf_table_page (superblock_ ix)) (leaf_table_pages (superblock_ ix)) = Ok b →
  Forall entry_ok (leaf_table_ ix) → table_small (leaf_table_ ix) →
  holds b 0 (le_enc 8 (Z.of_nat (length (leaf_table_ ix))) ++ table_bytes (leaf_table_ ix)) →
  remap_ ix = Ok (mkIndex (file_ ix) (superblock_ ix) (leaf_table_ ix) (mf_n_vectors ix) (u32 (n_leaves (superblock_ ix))) (n_vectors_disk_ ix)).
Proof.
  intros El Hp Hn Er He Hsm Hh. unfold remap_. rewrite El, bind_Ok, (proj2 (Z.eqb_neq _ _)), (proj2 (Z.ltb_lt _ _)) by done.
  cbn [negb andb]. rewrite Er, bind_Ok. unfold table_small in Hsm.
  destruct (leaf_table_read b (leaf_table_ ix)) as [E1 E2]; [done|lia|done|]. rewrite E1, bind_Ok, E2, bind_Ok, Nat2Z.id, table_decode by done. done.
Qed.

(** The end of a commit: the table's blob is at [p]. *)
Lemma publish_commits ix a nodes p npg b :
  let sb := superblock_ ix in
  let exts := (leaf_ext <$> leaf_table_ ix) ++ meta a nodes in
  alloc_ok a (file_ ix) → owned a (config_ext sb ++ (p, npg) :: exts) →
  Forall entry_ok (leaf_table_ ix) → 0 ≤ config_pages sb → sb_committed (commit_seq sb) (file_ ix) → valid_copy sb →
  sb_in_range sb → alloc_bitmap_page sb = bitmap_page_ a ∧ alloc_bitmap_pages sb = bitmap_pages_ a → 0 < bitmap_pages_ a < 2 ^ 20 →
  Z.of_nat (length (bitmap_ a)) ≤ bitmap_pages_ a * kPageSize →
  table_small (leaf_table_ ix) → commit_seq sb + 1 < 2 ^ 64 → 0 < npg < 2 ^ 32 → read_pages (file_ ix) p npg = Ok b →
  holds b 0 (le_enc 8 (Z.of_nat (length (leaf_table_ ix))) ++ table_bytes (leaf_table_ ix)) →
  ∃ ix' a', publish ix a p npg = Ok (ix', a') ∧ index_ok ix' a' nodes ∧ leaf_table_ ix' = leaf_table_ ix ∧
    same_pages (file_ ix) (file_ ix') ((leaf_ext <$> leaf_table_ ix) ++ config_ext sb ++ nodes) ∧
    mf_n_vectors ix' = mf_n_vectors ix ∧ n_vectors_disk_ ix' = n_vectors_disk_ ix ∧
    config_page (superblock_ ix') = config_page sb ∧ config_pages (superblock_ ix') = config_pages sb ∧
    commit_seq (superblock_ ix') = commit_seq sb + 1 ∧ load (file_ ix') = Ok (superblock_ ix') ∧
    (∃ a'', load_allocator ix' = Ok a'' ∧ index_ok ix' a'' nodes) ∧
    n_pages_ a' = n_pages_ a ∧ bitmap_pages_ a' = bitmap_pages_ a ∧ num_pages (file_ ix') = num_pages (file_ ix) ∧
    remap_ ix' = Ok ix'.
Proof.
  intros sb exts Ha Ho He Hcp Hsb Hv Hr [Hb1 Hb2] Hbp Hfit Hsm Hseq Hnpg Er Hh.
  pose proof (ok_range _ _ Ha) as Hrange. pose proof (ok_free_range _ _ Ha) as Hfree. pose proof (ok_file _ _ Ha) as Hfile.
  set (L := leaf_ext <$> leaf_table_ ix) in *. set (C := config_ext sb) in *.
  set (bm := (bitmap_page_ a, bitmap_pages_ a)) in *.
  assert (owned a (bm :: (0, 2) :: (p, npg) :: C ++ L ++ nodes)) as Hobm.
  { assert (C ++ (p, npg) :: exts ≡ₚ bm :: (0, 2) :: (p, npg) :: C ++ L ++ nodes) as <-; [|done].
    unfold exts, meta. fold bm. solve_Permutation. }
  destruct (owned_own a bm _ Hobm) as (Hm1 & Hm2 & Hm3); [cbn; lia|]. cbn [bm fst snd] in Hm1, Hm2, Hm3.
  assert (region_own a) as Hown by (split_and!; done || lia).
  (* the bitmap *)
  destruct (flush_ok a (file_ ix) Ha Hown Hfit) as (f1 & E1 & Ha1 & Hn1 & Hq1 & Erb).
  assert (same_pages (file_ ix) f1 ((0, 2) :: (p, npg) :: C ++ L ++ nodes)) as Hs1 by by eapply (owned_outside a bm).
  assert (owned a ((0, 2) :: bm :: (p, npg) :: C ++ L ++ nodes)) as Hosb by by rewrite (Permutation_swap bm (0, 2)).
  destruct (owned_own a (0, 2) _ Hosb) as (_ & Hsb2 & Hsb3); [cbn; lia|]. cbn [fst snd] in Hsb2, Hsb3.
  assert (∀ q, 0 ≤ q < 2 → q ∈ owned_pages ((0, 2) :: (p, npg) :: C ++ L ++ nodes)) as H02.
  { intros q Hq. rewrite owned_pages_cons. apply elem_of_app. left. by apply elem_of_extent. }
  (* the superblock *)
  unfold publish. rewrite E1, bind_Ok. fold sb.
  match goal with |- context [commit ?s _] => set (sb1 := s) end.
  assert (sb1 = committed_sb sb p npg (num_pages f1) (free_list_head_ a) (n_free_pages_ a) (Z.of_nat (length (leaf_table_ ix)))) as Esb1 by done.
  pose proof (ok_head _ _ Ha) as Hhead.
  destruct (owned_own a (p, npg) ((0, 2) :: bm :: C ++ L ++ nodes)) as (Hp1 & Hp2 & _); [|cbn; lia|].
  { assert ((p, npg) :: (0, 2) :: bm :: C ++ L ++ nodes ≡ₚ (0, 2) :: bm :: (p, npg) :: C ++ L ++ nodes) as ->; [solve_Permutation|done]. }
  cbn [fst snd] in Hp1, Hp2.
  assert (sb_in_range sb1) as Hr1.
  { rewrite Esb1. eapply (committed_sb_range sb); [done|by left|..]; unfold table_small, max_pages, link_ok, kInvalidPage, UINT64_MAX in *; lia. }
  destruct (commit_ok sb1 f1) as (f2 & E2 & Hsc2 & El2 & Hn2 & Hq2); [|done|done|done|].
  { apply (sb_committed_frame _ (file_ ix)); [done|apply Ha1|rewrite Hn1; lia|apply Hs1, H02; lia|apply Hs1, H02; lia]. }
  change (commit_seq sb1) with (commit_seq sb) in *.
  rewrite E2, bind_Ok. set (sb2 := with_seq sb1 (commit_seq sb + 1)) in *.
  assert (same_pages f1 f2 (bm :: (p, npg) :: C ++ L ++ nodes)) as Hs2.
  { apply (owned_outside a (0, 2)); [done|]. intros q Hq Hout. apply Hq2. cbn [fst snd] in Hout. lia. }
  assert (alloc_ok a f2) as Ha2.
  { apply (alloc_ok_frame a f1); [done|apply Hsc2|done|]. intros q Hq Hbit. apply Hq2.
    destruct (decide (q < 2)); [|lia]. rewrite Hsb3 in Hbit by lia. done. }
  assert (∀ e, e ∈ (p, npg) :: C ++ L ++ nodes → 0 ≤ e.1 → 0 ≤ e.2 → ∀ bs,
    read_pages (file_ ix) e.1 e.2 = Ok bs → read_pages f2 e.1 e.2 = Ok bs) as Hread.
  { intros e Hin H1e H2e bs Ebs.
    apply (same_pages_read f1 f2 (bm :: (p, npg) :: C ++ L ++ nodes) e); try done; [apply Ha1|apply Ha2|lia|by right|].
    apply (same_pages_read (file_ ix) f1 ((0, 2) :: (p, npg) :: C ++ L ++ nodes) e); try done; [apply Ha|apply Ha1|lia|by right]. }
  (* read back *)
  destruct (clear_free_list_ok a f2 Ha2) as (a3 & E3 & Ha3 & Hn3 & Hbit3 & _).
  pose proof (clear_list_shape _ _ E3) as (Hs31 & Hs32 & _ & _). rewrite E3, bind_Ok.
  assert (table_ext sb2 = [(p, npg)]) as Ete by (eapply opt_ext_page; [done|done|lia|lia]).
  rewrite (remap_reads (with_superblock (with_file ix f2) sb2) b), bind_Ok; try done;
    [|cbn; unfold kInvalidPage, UINT64_MAX, max_pages in *; lia|cbn; lia|].
  2:{ cbn. apply (Hread (p, npg)); [by left|cbn; lia|cbn; lia|done]. }
  set (ix' := mkIndex _ _ _ _ _ _).
  assert (∀ a', alloc_ok a' f2 → n_pages_ a' = n_pages_ a → (∀ j, bitv (bitmap_ a') j = bitv (bitmap_ a) j) →
    bitmap_page_ a' = bitmap_page_ a → bitmap_pages_ a' = bitmap_pages_ a →
    Z.of_nat (length (bitmap_ a')) ≤ bitmap_pages_ a * kPageSize → index_ok ix' a' nodes) as Hix.
  { intros a' Ha' Hn' Hbit' Hp' Hpp' Hl'. split; try done; try (by rewrite Hpp').
    - split; [done| |done|cbn; lia]. unfold store_exts, meta. rewrite Hp', Hpp'. 
      change (table_ext (superblock_ ix')) with (table_ext sb2). rewrite Ete.
      change (config_ext (superblock_ ix')) with C. change (leaf_ext <$> leaf_table_ ix') with L. fold bm. apply (owned_ext a); [|done|done].
      assert (L ++ [(p, npg)] ++ C ++ (0, 2) :: bm :: nodes ≡ₚ bm :: (0, 2) :: (p, npg) :: C ++ L ++ nodes) as ->; [solve_Permutation|done].
    - pose proof Hsb as (_ & _ & ? & _). by apply with_seq_in_range; [|lia].
    - by rewrite Hp', Hpp'. }
  assert (remap_ ix' = Ok ix') as Ere.
  { apply (remap_reads ix' b); try done; [cbn; unfold kInvalidPage, UINT64_MAX, max_pages in *; lia|cbn; lia|].
    cbn. apply (Hread (p, npg)); [by left|cbn; lia|cbn; lia|done]. }
  exists ix', a3. split; [done|]. split.
  { apply Hix; [done|done|by rewrite Hbit3|done|done|by rewrite Hbit3]. }
  split; [done|]. split.
  { eapply (same_pages_trans _ f1); (eapply same_pages_sub; [done|]); intros e Hin; rewrite !elem_of_cons, !elem_of_app in *; tauto. }
  split_and!; try done; try (cbn; congruence).
  destruct (load_flushed a f2) as (a4 & E4 & Ha4 & Hb4 & Hn4 & _ & _ & Hs41 & Hs42 & Hl4); [done|done|done| |].
  { apply (same_pages_read f1 f2 (bm :: (p, npg) :: C ++ L ++ nodes) bm); try done; [apply Ha1|apply Ha2|lia|by left|cbn; lia]. }
  exists a4. split.
  - change (load_allocator ix') with (PageAllocator.load f2 (alloc_bitmap_page sb) (alloc_bitmap_pages sb)
      (num_pages f1) (free_list_head_ a) (n_free_pages_ a)).
    by rewrite Hb1, Hb2, Hn1, Hfile.
  - apply Hix; try done. lia.
Qed.

Lemma only_config_keeps sb sb' :
  only_config sb sb' → sb_in_range sb →
  commit_seq sb' = commit_seq sb ∧ magic sb' = magic sb ∧ alloc_bitmap_page sb' = alloc_bitmap_page sb ∧
  alloc_bitmap_pages sb' = alloc_bitmap_pages sb ∧ sb_in_range sb'.
Proof.
  intros [-> | (p & n & -> & Hp & Hn)] Hr; [done|]. split_and!; try done.
  unfold sb_in_range, sb_fields in *. repeat (apply Forall_cons in Hr as [? Hr]).
  unfold field_fits in *. cbn [fst snd] in *. change (256 ^ Z.of_nat 8) with (2 ^ 64) in *. change (256 ^ Z.of_nat 4) with (2 ^ 32) in *.
  repeat (apply Forall_cons; split); try (cbn; lia); try done; constructor.
Qed.

Lemma commit_ok_store ix a nodes :
  let sb := superblock_ ix in
  let toml := manifest_to_toml (mf_n_vectors ix) in
  index_ok ix a nodes → table_small (leaf_table_ ix) → toml_ok toml → commit_seq sb + 1 < 2 ^ 64 →
  n_pages_ a + table_pages (leaf_table_ ix) + toml_pages toml ≤ capacity a →
  ∃ ix' a', commit_mutable_ manifest_to_toml ix a = Ok (ix', a') ∧ index_ok ix' a' nodes ∧
    leaf_table_ ix' = leaf_table_ ix ∧ (∀ j, (j < length (leaf_table_ ix))%nat → keeps ix ix' j) ∧
    same_pages (file_ ix) (file_ ix') nodes ∧ mf_n_vectors ix' = mf_n_vectors ix ∧ n_vectors_disk_ ix' = mf_n_vectors ix ∧
    commit_seq (superblock_ ix') = commit_seq sb + 1 ∧ load (file_ ix') = Ok (superblock_ ix') ∧
    (∃ a'', load_allocator ix' = Ok a'' ∧ index_ok ix' a'' nodes) ∧
    n_pages_ a ≤ n_pages_ a' ≤ n_pages_ a + table_pages (leaf_table_ ix) + toml_pages toml ∧
    bitmap_pages_ a' = bitmap_pages_ a ∧ remap_ ix' = Ok ix'.
Proof.
  intros sb toml Hix Hsm Htoml Hseq Hcap. pose proof Hix as [[Ha Ho He [Hlt Hcf]] Hsb Hv Hr [Hb1 Hb2] Hbp Hfit].
  pose proof (ok_range _ _ Ha) as Hrange. pose proof Hsb as (_ & Hn2 & _).
  assert (capacity a ≤ 2 ^ 35) as Hcap35 by (unfold capacity, kPageSize; lia).
  destruct (pages_for (Z.of_nat (length toml))) as [Htp _]; [apply Htoml|]. fold (toml_pages toml) in Htp.
  set (L := leaf_ext <$> leaf_table_ ix). set (T := table_ext sb). set (C := config_ext sb). set (M := meta a nodes).
  unfold store_exts in Ho. fold sb T C L M in Ho.
  (* the leaf table *)
  destruct (rewrite_leaf_table_ok ix a (C ++ L ++ M)) as (p & npg & f1 & b & a1 & E1 & Enpg & Ha1 & Ho1 & Hs1 & Er1 & Hh & Hn1 & Hr1 & Hp0 & Hp1 & Hnpg).
  { done. } { fold sb T. assert (T ++ C ++ L ++ M ≡ₚ L ++ T ++ C ++ M) as ->; [solve_Permutation|done]. }
  { done. } { done. } { unfold max_pages; lia. }
  rewrite <- Enpg in Hcap |- *.
  (* the manifest *)
  destruct (rewrite_manifest_ok (with_file ix f1) a1 ((p, npg) :: L ++ M)) as (f2 & sb2 & a2 & E2 & Ha2 & Ho2 & Hs2 & Hcp2 & Hoc & Hn2' & Hr2 & _);
    [done| |done|done|cbn [with_file mf_n_vectors]; fold toml; unfold max_pages; lia|].
  { cbn [with_file superblock_]. fold sb C. by rewrite <- Permutation_middle. }
  cbn [with_file mf_n_vectors leaf_table_ mf_n_leaves] in *. fold toml in Hn2'.
  destruct (only_config_keeps _ _ Hoc Hr) as (Eq1 & Eq2 & Eq3 & Eq4 & Hr2').
  destruct Hr1 as (R1 & R2 & R3). destruct Hr2 as (R4 & R5 & R6).
  assert (Z.of_nat (length (bitmap_ a2)) ≤ bitmap_pages_ a2 * kPageSize) as Hfit2.
  { apply (fits_region a); [|done|lia]. apply (same_region_trans _ a1); [lia|by split_and!..]. }
  assert (meta a2 nodes = M) as EM by (unfold M, meta; congruence).
  set (ix2 := mkIndex f2 sb2 (leaf_table_ ix) (mf_n_vectors ix) (mf_n_leaves ix) (mf_n_vectors ix)) in *.
  assert (same_pages (file_ ix) f2 (L ++ M)) as Hs12.
  { eapply (same_pages_trans _ f1); (eapply same_pages_sub; [done|]); intros e Hin; rewrite ?elem_of_cons, ?elem_of_app in *; tauto. }
  assert ((0, 2) ∈ L ++ M) as H02 by (apply elem_of_app; right; by left).
  assert (∀ q, 0 ≤ q < 2 → ps_page f2 q = ps_page (file_ ix) q) as Hq02.
  { intros q Hq. apply Hs12. unfold owned_pages. apply list_elem_of_bind. exists (0, 2). split; [by apply elem_of_extent|done]. }
  pose proof (ok_file _ _ Ha) as Hfile. pose proof (ok_file _ _ Ha2) as Hfile2.
  destruct (publish_commits ix2 a2 nodes p npg b) as (ix' & a' & E3 & Hix' & Et & Hs3 & Env & Ed & _ & _ & Es & El & Hdur & Hn3 & Hbp3 & _ & Ere).
  { done. } { rewrite EM. done. } { done. } { done. }
  { cbn [superblock_ ix2]. rewrite Eq1. apply (sb_committed_frame _ (file_ ix)); [done|apply Ha2|cbn; lia|by apply Hq02|by apply Hq02]. }
  { unfold valid_copy. cbn [superblock_ ix2]. by rewrite Eq2. } { done. }
  { cbn [superblock_ ix2]. rewrite Eq3, Eq4, R4, R5, R1, R2. by split. } { by rewrite R5, R2. } { done. } { done. }
  { cbn [superblock_ ix2]. by rewrite Eq1. } { lia. }
  { cbn [file_ ix2]. apply (same_pages_read f1 f2 ((p, npg) :: L ++ M) (p, npg)); try done;
      [apply Ha1|apply Ha2| |by left|cbn; lia]. rewrite (ok_file _ _ Ha1). lia. }
  { done. }
  unfold commit_mutable_. rewrite E1, bind_Ok, E2, bind_Ok, E3.
  cbn [ix2 mf_n_vectors n_vectors_disk_ superblock_ leaf_table_ file_] in Env, Ed, Es, Et, Hs3.
  exists ix', a'. split; [done|]. split; [done|]. split; [done|].
  assert (same_pages (file_ ix) (file_ ix') (L ++ nodes)) as Hs.
  { eapply (same_pages_trans _ f2); (eapply same_pages_sub; [done|]); intros e Hin;
      unfold M, meta; rewrite ?elem_of_cons, ?elem_of_app in *; rewrite ?elem_of_cons; tauto. }
  split; [|split; [by eapply same_pages_sub; [done|]; intros e Hin; apply elem_of_app; right|]].
  - intros j Hj. destruct (lookup_lt_is_Some_2 _ _ Hj) as [e Ee]. rewrite Forall_lookup in He. destruct (He _ _ Ee).
    apply (keeps_pages ix ix' a a' (L ++ nodes) j e); try done; try lia; [apply Hix'|by rewrite Et|].
    apply elem_of_app. left. apply list_elem_of_fmap. exists e. split; [done|]. by eapply list_elem_of_lookup_2.
  - split_and!; try done; try lia. by rewrite Es, Eq1.
Qed.

End commit.
