(* ===== verification/LeafStoreRuns.v ===== *)
(** * LeafStoreRuns: what a write, a commit and a defragmentation establish *)
From S2P Require Import Prelude PageFile TreeNodes PageAllocator Superblock Ownership LeafStore LeafStoreSafety LeafStoreCommit.

Section runs.
Context `{PageStoreLaws F} (manifest_to_toml : Z → list Z).
Implicit Types (ix : IVFTreeIndex F) (a : PageAllocator) (nodes : list extent).

(** A change to one leaf keeps the invariant of the index. *)
Lemma index_ok_step ix ix' a a' nodes :
  index_ok ix a nodes → store_ok ix' a' (meta a nodes) → superblock_ ix' = superblock_ ix →
  same_pages (file_ ix) (file_ ix') (meta a nodes) → same_region a a' → n_pages_ a' ≤ capacity a → index_ok ix' a' nodes.
Proof.
  intros [Hst Hsb Hv Hr [Hb1 Hb2] Hbp Hf] Hst' Esb Hs Hreg Hcap. pose proof Hreg as (R1 & R2 & _).
  pose proof Hst' as [Ha' Ho' _ _].
  assert (∀ q, 0 ≤ q < 2 → ps_page (file_ ix') q = ps_page (file_ ix) q) as Hq.
  { intros q Hq. apply Hs. unfold meta. rewrite owned_pages_cons. apply elem_of_app. left. by apply elem_of_extent. }
  assert (meta a' nodes = meta a nodes) as Em by (unfold meta; congruence).
  split; rewrite ?Esb; try done.
  - by rewrite Em.
  - apply (sb_committed_frame _ (file_ ix)); [done|apply Ha'| |by apply Hq|by apply Hq].
    rewrite (ok_file _ _ Ha'). assert (owned a' ((0, 2) :: (bitmap_page_ a, bitmap_pages_ a) :: nodes)) as Ho2.
    { unfold store_exts, meta in Ho'. rewrite !app_assoc in Ho'. rewrite <- Permutation_middle in Ho'.
      destruct Ho' as [Hnd Hb]. rewrite owned_pages_cons in Hnd, Hb. split; rewrite owned_pages_cons.
      - rewrite owned_pages_app in Hnd. apply NoDup_app in Hnd as (N1 & N2 & N3). apply NoDup_app in N3 as (_ & _ & N3).
        apply NoDup_app. split_and!; [done| |done]. intros p Hp Hp'. apply (N2 p Hp). apply elem_of_app. by right.
      - intros p Hp. apply Hb. rewrite owned_pages_app, !elem_of_app in *. tauto. }
    apply owned_range in Ho2 as [_ Hr2]; cbn in *; lia.
  - by rewrite R1, R2.
  - by rewrite R2.
  - by eapply fits_region.
Qed.

Lemma index_pages ix a nodes : index_ok ix a nodes → capacity a ≤ max_pages ∧ 0 ≤ n_pages_ a ≤ max_pages.
Proof.
  intros Hix. split; [|eapply ok_range, Hix]. destruct Hix. unfold capacity, max_pages, kPageSize. lia.
Qed.

Lemma index_capacity ix a nodes : index_ok ix a nodes → n_pages_ a ≤ capacity a.
Proof.
  intros Hix. pose proof (ok_cover _ _ (st_alloc _ _ _ (ix_store _ _ _ Hix))) as Hc. pose proof (ix_fits _ _ _ Hix).
  unfold capacity, bits in *. lia.
Qed.

Lemma write_leaf_index ix a nodes lid e buf np :
  index_ok ix a nodes → leaf_table_ ix !! lid = Some e → 0 < np < 2 ^ 32 →
  np ≤ le_pages e ∨ n_pages_ a + np ≤ capacity a → length buf = Z.to_nat (np * kPageSize) → Forall is_byte buf →
  ∃ ix' a', write_leaf_ ix (Z.of_nat lid) buf np a = Ok (ix', a') ∧ index_ok ix' a' nodes ∧
    read_leaf_ ix' (Z.of_nat lid) = Ok buf ∧ (∀ j, (j < length (leaf_table_ ix))%nat → j ≠ lid → keeps ix ix' j) ∧
    length (leaf_table_ ix') = length (leaf_table_ ix) ∧ superblock_ ix' = superblock_ ix ∧
    mf_n_vectors ix' = mf_n_vectors ix ∧ n_vectors_disk_ ix' = n_vectors_disk_ ix ∧
    same_pages (file_ ix) (file_ ix') nodes ∧ n_pages_ a ≤ n_pages_ a' ≤ n_pages_ a + np ∧
    bitmap_pages_ a' = bitmap_pages_ a ∧ (np ≤ le_pages e → n_pages_ a' = n_pages_ a).
Proof.
  intros Hix E Hnp Hcap Hl Hb. destruct (index_pages _ _ _ Hix) as [Hcm Hr]. pose proof (index_capacity _ _ _ Hix) as Hcc.
  destruct (write_leaf_ok ix a (meta a nodes) lid e buf np) as (ix' & a' & Ew & Hst & Er & Hk & Hlen & Esb & En & Ed & Hs & Hn & Hreg & Hin);
    [apply Hix|done|done| |done|done|].
  { assert (capacity a ≤ 2 ^ 35) by (destruct Hix; unfold capacity, kPageSize; lia). unfold max_pages. lia. }
  assert (same_pages (file_ ix) (file_ ix') (meta a nodes)) as Hsm.
  { eapply same_pages_sub; [exact Hs|]. intros x Hx. rewrite !elem_of_app. auto. }
  exists ix', a'. split; [done|]. split; [eapply index_ok_step; try done; lia|]. split_and!; try done; try lia.
  - eapply same_pages_sub; [exact Hsm|]. intros x Hx. by do 2 right.
  - apply Hreg.
Qed.

(** ** Defragmentation without truncation *)

Definition same_leaves ix ix' : Prop :=
  length (leaf_table_ ix') = length (leaf_table_ ix) ∧ ∀ j, (j < length (leaf_table_ ix))%nat → keeps ix ix' j.

Lemma same_leaves_trans ix1 ix2 ix3 : same_leaves ix1 ix2 → same_leaves ix2 ix3 → same_leaves ix1 ix3.
Proof.
  intros [L1 K1] [L2 K2]. split; [congruence|]. intros j Hj. eapply keeps_trans; [by apply K1|]. apply K2. by rewrite L1.
Qed.

(** Pages a relocation of the leaves from the [i]-th on can add. *)
Definition leaf_pages (t : list LeafTableEntry) : Z := foldr (λ e n, le_pages e + n) 0 t.

Lemma leaf_pages_nonneg t : Forall (λ e, 0 ≤ le_pages e) t → 0 ≤ leaf_pages t.
Proof. unfold leaf_pages. induction 1; cbn in *; lia. Qed.

(** What a crash-free reader of the file finds: the superblock, and an allocator
    that owns every extent. *)
Definition durable ix nodes : Prop :=
  load (file_ ix) = Ok (superblock_ ix) ∧ ∃ a, load_allocator ix = Ok a ∧ index_ok ix a nodes.

Lemma index_ok_clear ix a nodes :
  index_ok ix a nodes → ∃ a', clear_free_list a = Ok a' ∧ index_ok ix a' nodes ∧ n_pages_ a' = n_pages_ a ∧ bitmap_pages_ a' = bitmap_pages_ a.
Proof.
  intros Hix. destruct (clear_free_list_ok a (file_ ix)) as (a' & E & Ha' & Hn & Hb & _); [apply Hix|].
  pose proof (clear_list_shape _ _ E) as (S1 & S2 & _ & _). exists a'. split; [done|]. split; [|by split].
  destruct Hix as [[Ha Ho He Hbl] Hsb Hv Hr Hbm Hbp Hf].
  assert (meta a' nodes = meta a nodes) as Em by (unfold meta; congruence).
  split; try done; rewrite ?S1, ?S2, ?Hb; try done. rewrite Em. split; try done.
  eapply owned_ext; [done|done|]. intros j. by rewrite Hb.
Qed.

(** The growth a commit may cause. *)
Definition commit_pages ix : Z := table_pages (leaf_table_ ix) + toml_pages (manifest_to_toml (mf_n_vectors ix)).

(** What the loop of [defrag] has done to [ix] before leaf [i]; [pages] is what the
    relocations so far can have added to the file. *)
Record relocated ix0 (a0 : PageAllocator) nodes (bs i : Z) (st : IVFTreeIndex F * PageAllocator * Z * Z) : Prop := {
  rl_ok : index_ok st.1.1.1 st.1.1.2 nodes;
  rl_leaves : same_leaves ix0 st.1.1.1;
  rl_sizes : le_pages <$> leaf_table_ st.1.1.1 = le_pages <$> leaf_table_ ix0;
  rl_nodes : same_pages (file_ ix0) (file_ st.1.1.1) nodes;
  rl_rows : mf_n_vectors st.1.1.1 = mf_n_vectors ix0;
  rl_bitmap : bitmap_pages_ st.1.1.2 = bitmap_pages_ a0;
  rl_grown : n_pages_ st.1.1.2 ≤ n_pages_ a0 + leaf_pages (take (Z.to_nat i) (leaf_table_ ix0)) + i * commit_pages ix0;
  rl_seq : commit_seq (superblock_ st.1.1.1) ≤ commit_seq (superblock_ ix0) + i;
  rl_batch : 0 ≤ st.2 < bs;
  rl_count : 0 ≤ st.1.2 ≤ i;
  rl_durable : st.2 = 0 → durable st.1.1.1 nodes;
}.

Lemma leaf_pages_app t1 t2 : leaf_pages (t1 ++ t2) = leaf_pages t1 + leaf_pages t2.
Proof. unfold leaf_pages. induction t1 as [|e t1 IH]; cbn in *; lia. Qed.

Lemma leaf_pages_take t i : Forall (λ e, 0 ≤ le_pages e) t → leaf_pages (take i t) ≤ leaf_pages t.
Proof.
  intros Ht. rewrite <- (take_drop i t) at 2. rewrite leaf_pages_app.
  pose proof (leaf_pages_nonneg (drop i t) (Forall_drop _ _ _ Ht)). lia.
Qed.

(** Moving one leaf, before any commit. *)
Lemma move_leaf ix a nodes lid e :
  index_ok ix a nodes → leaf_table_ ix !! lid = Some e → 0 < le_pages e → n_pages_ a + le_pages e ≤ capacity a →
  ∃ buf p a1 f1 f2 a2 f3 ix', read_leaf_ ix (Z.of_nat lid) = Ok buf ∧
    alloc_extent a (file_ ix) (le_pages e) = Ok (p, a1, f1) ∧ write_pages f1 p (le_pages e) buf = Ok f2 ∧
    free_extent a1 f2 (le_page e) (le_pages e) = Ok (a2, f3) ∧
    vec_set (leaf_table_ ix) (Z.of_nat lid) (mkLeafEntry p (le_pages e)) = Ok (leaf_table_ ix') ∧
    ix' = with_table (with_file ix f3) (leaf_table_ ix') ∧ index_ok ix' a2 nodes ∧ same_leaves ix ix' ∧
    le_pages <$> leaf_table_ ix' = le_pages <$> leaf_table_ ix ∧ same_pages (file_ ix) (file_ ix') nodes ∧
    n_pages_ a2 ≤ n_pages_ a + le_pages e ∧ bitmap_pages_ a2 = bitmap_pages_ a.
Proof.
  intros Hix E Hpos Hcap. destruct (index_pages _ _ _ Hix) as [Hcm Hr]. pose proof (ix_store _ _ _ Hix) as Hst.
  destruct (leaf_readable _ _ _ _ _ Hst E) as (buf & Eb & Hl & Hb). pose proof Hst as [Ha Ho He _].
  rewrite Forall_lookup in He. destruct (He _ _ E) as [Hp Hn].
  destruct (list_elem_of_split_length _ _ _ E) as (t1 & t2 & Et & ->).
  set (m := table_ext (superblock_ ix) ++ config_ext (superblock_ ix) ++ meta a nodes).
  unfold store_exts in Ho. fold m in Ho. rewrite Et, store_exts_middle in Ho. set (others := (leaf_ext <$> t1 ++ t2) ++ m) in *.
  destruct (replace_extent a (file_ ix) [leaf_ext e] others (le_pages e) buf)
    as (p & a1 & f1 & f2 & a2 & f3 & E1 & E2 & E3 & Ha3 & Ho3 & Hs3 & Er3 & Hn3 & Hr3 & Hp3 & Hp4);
    [done|done|cbn; lia|by repeat constructor; cbn; lia|lia|lia|done|done|].
  cbn [free_old leaf_ext fst snd] in E3. set (e' := mkLeafEntry p (le_pages e)).
  set (ix' := with_table (with_file ix f3) (t1 ++ e' :: t2)).
  destruct (store_replace ix ix' a a2 (meta a nodes) t1 e t2 e' buf) as (Hst' & Hrl & Hk);
    try done; try (cbn; unfold max_pages in *; lia).
  exists buf, p, a1, f1, f2, a2, f3, ix'. split_and!; try done; try lia.
  - by rewrite Et, vec_set_middle'.
  - eapply index_ok_step; try done; [|lia]. eapply same_pages_sub; [exact Hs3|]. intros x Hx. unfold others, m. rewrite !elem_of_app. auto.
  - split; [cbn; by rewrite Et, !length_app|]. intros j Hj. destruct (decide (j = length t1)) as [->|Hne]; [|by apply Hk].
    intros bs Ebs. rewrite Hrl. congruence.
  - cbn. rewrite Et. by rewrite !fmap_app.
  - eapply same_pages_sub; [exact Hs3|]. intros x Hx. unfold others, m, meta. rewrite !elem_of_app, !elem_of_cons. tauto.
  - apply Hr3.
Qed.

Lemma table_pages_same t t' : length t' = length t → table_pages t' = table_pages t.
Proof. unfold table_pages. by intros ->. Qed.

Lemma relocate_leaf_step ix0 a0 nodes bs i st :
  let n := Z.of_nat (length (leaf_table_ ix0)) in
  index_ok ix0 a0 nodes → table_small (leaf_table_ ix0) → toml_ok (manifest_to_toml (mf_n_vectors ix0)) →
  commit_seq (superblock_ ix0) + n + 1 < 2 ^ 64 → 0 < bs < 2 ^ 32 →
  n_pages_ a0 + leaf_pages (leaf_table_ ix0) + (n + 1) * commit_pages ix0 ≤ capacity a0 →
  0 ≤ i < n → relocated ix0 a0 nodes bs i st →
  ∃ st', relocate_leaf manifest_to_toml bs i st = Ok st' ∧ relocated ix0 a0 nodes bs (i + 1) st'.
Proof.
  intros n Hix0 Hsm Htoml Hseq Hbs Hcap Hi. destruct st as [[[ix a] rel] bc]. intros [Hix Hlv Hsz Hnd Hrow Hbm Hgr Hsq Hbc Hct Hdur].
  cbn [fst snd] in *. destruct Hlv as [Hlen Hkeep].
  destruct (lookup_lt_is_Some_2 (leaf_table_ ix) (Z.to_nat i)) as [e Ee]; [lia|].
  assert (leaf_table_ ix0 !! Z.to_nat i ≫= (λ e0, Some (le_pages e0)) = Some (le_pages e)) as Ee0.
  { apply (f_equal (λ l, l !! Z.to_nat i)) in Hsz. rewrite !list_lookup_fmap, Ee in Hsz. cbn in Hsz.
    destruct (leaf_table_ ix0 !! Z.to_nat i); [cbn in *; congruence|done]. }
  destruct (leaf_table_ ix0 !! Z.to_nat i) as [e0|] eqn:E0; [|done]. cbn in Ee0. injection Ee0 as Ep.
  assert (Forall (λ e, 0 ≤ le_pages e) (leaf_table_ ix0)) as Hnn.
  { eapply Forall_impl; [eapply st_entries, Hix0|]. cbn. lia. }
  assert (0 ≤ le_pages e) as Hpos. { rewrite <- Ep. by eapply (Forall_lookup_1 _ _ _ _ Hnn). }
  assert (leaf_pages (take (Z.to_nat (i + 1)) (leaf_table_ ix0)) = leaf_pages (take (Z.to_nat i) (leaf_table_ ix0)) + le_pages e) as Hlp.
  { replace (Z.to_nat (i + 1)) with (S (Z.to_nat i)) by lia. rewrite (take_S_r _ _ _ E0), leaf_pages_app. cbn. lia. }
  pose proof (leaf_pages_take (leaf_table_ ix0) (Z.to_nat (i + 1)) Hnn) as Hle.
  assert (0 < commit_pages ix0) as Hcp.
  { unfold commit_pages. destruct (pages_for (Z.of_nat (length (manifest_to_toml (mf_n_vectors ix0))))) as [Htp _]; [apply Htoml|].
    fold (toml_pages (manifest_to_toml (mf_n_vectors ix0))) in Htp. unfold table_pages.
    destruct (pages_for (8 + Z.of_nat (length (leaf_table_ ix0)) * sizeof_LeafTableEntry)) as [Hnp _];
      [unfold table_small, sizeof_LeafTableEntry in *; lia|]. lia. }
  assert (capacity a = capacity a0) as Hca by (unfold capacity; by rewrite Hbm).
  unfold relocate_leaf. destruct (vec_get_Ok (leaf_table_ ix) i) as (e' & Ee' & ->); [lia|]. rewrite Ee in Ee'. injection Ee' as <-.
  rewrite bind_Ok. destruct ((le_page e =? kInvalidPage) || (le_pages e =? 0)) eqn:Eskip.
  { exists (ix, a, rel, bc). split; [done|]. split; try done; cbn [fst snd]; try lia. }
  apply orb_false_iff in Eskip as [_ Ez%Z.eqb_neq].
  destruct (move_leaf ix a nodes (Z.to_nat i) e) as (buf & p & a1 & f1 & f2 & a2 & f3 & ix' & E1 & E2 & E3 & E4 & E5 & Eix & Hix' & Hlv' & Hsz' & Hnd' & Hn' & Hb');
    [done|done|lia|nia|]. rewrite Z2Nat.id in E1, E5 by lia.
  rewrite E1, bind_Ok, E2, bind_Ok, E3, bind_Ok, E4, bind_Ok, E5, bind_Ok, <- Eix.
  assert (same_leaves ix0 ix') as Hlv0 by (by eapply same_leaves_trans).
  assert (superblock_ ix' = superblock_ ix ∧ mf_n_vectors ix' = mf_n_vectors ix) as [Esb Env] by (by rewrite Eix).
  assert (same_pages (file_ ix0) (file_ ix') nodes) as Hnd0 by by eapply same_pages_trans.
  assert (u64 (rel + 1) = rel + 1) as -> by (apply u64_id; unfold table_small in Hsm; lia).
  rewrite (u32_id (bc + 1)) by lia. destruct (Z.leb_spec bs (bc + 1)).
  - destruct (commit_ok_store manifest_to_toml ix' a2 nodes) as (ix2 & a3 & Ec & Hix2 & Et2 & Hk2 & Hs2 & Ev2 & _ & Esq2 & El2 & Hd2 & Hn2 & Hb2 & _).
    { done. } { unfold table_small. by rewrite (proj1 Hlv0). } { by rewrite Env, Hrow. } { rewrite Esb. lia. }
    { rewrite (table_pages_same _ _ (proj1 Hlv0)), Env, Hrow. fold (commit_pages ix0).
      unfold capacity. rewrite Hb', Hbm. unfold capacity in Hcap. unfold commit_pages in *. nia. }
    rewrite Ec, bind_Ok. destruct (index_ok_clear ix2 a3 nodes Hix2) as (a4 & Ecl & Hix4 & Hn4 & Hb4). rewrite Ecl, bind_Ok.
    eexists. split; [reflexivity|]. split; cbn [fst snd]; try done; try lia.
    + eapply same_leaves_trans; [done|]. split; [by rewrite Et2|]. done.
    + rewrite Et2. congruence.
    + by eapply same_pages_trans.
    + rewrite (table_pages_same _ _ (proj1 Hlv0)), Env, Hrow in Hn2. unfold commit_pages in *. nia.
    + by rewrite Esq2, Esb; lia.
  - eexists. split; [reflexivity|]. split; cbn [fst snd]; try done; try lia.
    all: first [congruence | rewrite Esb; lia | intros; exfalso; lia | nia].
Qed.

(** ** Theorems *)

(** C40: writing a leaf: the bytes are read back, in place when they fit the old
    extent and in a fresh one otherwise, every other leaf keeps its bytes, no node
    changes, the file grows by at most the new leaf, and the extents stay disjoint
    and accounted for. *)
Theorem write_leaf_isolated ix a nodes lid e buf np :
  index_ok ix a nodes → leaf_table_ ix !! lid = Some e → 0 < np < 2 ^ 32 → n_pages_ a + np ≤ capacity a →
  length buf = Z.to_nat (np * kPageSize) → Forall is_byte buf →
  ∃ ix' a', write_leaf_ ix (Z.of_nat lid) buf np a = Ok (ix', a') ∧ index_ok ix' a' nodes ∧
    read_leaf_ ix' (Z.of_nat lid) = Ok buf ∧
    (∀ j bs, (j < length (leaf_table_ ix))%nat → j ≠ lid →
       read_leaf_ ix (Z.of_nat j) = Ok bs → read_leaf_ ix' (Z.of_nat j) = Ok bs) ∧
    superblock_ ix' = superblock_ ix ∧ same_pages (file_ ix) (file_ ix') nodes ∧ n_pages_ a' ≤ n_pages_ a + np.
Proof.
  intros Hix E Hnp Hcap Hl Hb.
  destruct (write_leaf_index ix a nodes lid e buf np) as (ix' & a' & Ew & Hix' & Hr & Hk & _ & Es & _ & _ & Hs & Hn & _);
    [done|done|done|by right|done|done|]. exists ix', a'. split_and!; try done; [|lia]. intros j bs Hj Hne. by apply Hk.
Qed.

(** C16: a commit is durable: whatever the leaves written since the last one, the
    file afterwards holds the leaf table, the superblock and a bitmap that owns
    every extent, so that an index opened on it has the same leaves; no byte of a
    leaf or of a tree node changes, and the manifest follows the row count. *)
Theorem commit_durable ix a nodes :
  let toml := manifest_to_toml (mf_n_vectors ix) in
  index_ok ix a nodes → table_small (leaf_table_ ix) → toml_ok toml → commit_seq (superblock_ ix) + 1 < 2 ^ 64 →
  n_pages_ a + table_pages (leaf_table_ ix) + toml_pages toml ≤ capacity a →
  ∃ ix' a', commit_mutable_ manifest_to_toml ix a = Ok (ix', a') ∧ index_ok ix' a' nodes ∧ durable ix' nodes ∧
    remap_ ix' = Ok ix' ∧ leaf_table_ ix' = leaf_table_ ix ∧ same_leaves ix ix' ∧ same_pages (file_ ix) (file_ ix') nodes ∧
    n_vectors_disk_ ix' = mf_n_vectors ix ∧ commit_seq (superblock_ ix') = commit_seq (superblock_ ix) + 1.
Proof.
  intros toml Hix Hsm Ht Hseq Hcap.
  destruct (commit_ok_store manifest_to_toml ix a nodes) as (ix' & a' & E & Hix' & Et & Hk & Hs & _ & Ed & Es & El & Hd & _ & _ & Ere); [done..|].
  exists ix', a'. split; [done|]. split; [done|]. split; [by split|]. split; [done|].
  split; [done|]. split; [split; [by rewrite Et|done]|]. by split_and!.
Qed.

(** C17: [defrag] moves leaves and nothing else: without truncation it succeeds, every
    leaf reads the same bytes after it as before, at the same sizes, tree nodes are
    untouched, and the result is committed. *)
Theorem defrag_keeps_leaves ix nodes a bs :
  let n := Z.of_nat (length (leaf_table_ ix)) in
  load (file_ ix) = Ok (superblock_ ix) → load_allocator ix = Ok a → index_ok ix a nodes →
  table_small (leaf_table_ ix) → toml_ok (manifest_to_toml (mf_n_vectors ix)) →
  commit_seq (superblock_ ix) + n + 1 < 2 ^ 64 → 0 ≤ bs < 2 ^ 32 →
  n_pages_ a + leaf_pages (leaf_table_ ix) + (n + 1) * commit_pages ix ≤ capacity a →
  ∃ ix' moved, defrag manifest_to_toml false (mkDefrag bs false) ix = Ok (ix', moved, 0) ∧ 0 ≤ moved ≤ n ∧
    same_leaves ix ix' ∧ le_pages <$> leaf_table_ ix' = le_pages <$> leaf_table_ ix ∧
    same_pages (file_ ix) (file_ ix') nodes ∧ durable ix' nodes.
Proof.
  intros n El Ea Hix Hsm Ht Hseq Hbs Hcap. unfold defrag. rewrite Ea, bind_Ok. cbn [batch_size dc_shrink_file].
  set (b := if 0 <? bs then bs else 1). assert (0 < b < 2 ^ 32) as Hb by (unfold b; destruct (Z.ltb_spec 0 bs); lia).
  destruct (for_range_ok (relocated ix a nodes b) (relocate_leaf manifest_to_toml b) (length (leaf_table_ ix)) 0 (ix, a, 0, 0))
    as ([[[ix1 a1] rel] bc] & E1 & [Hix1 Hlv Hsz Hnd Hrow Hbm Hgr Hsq Hbc Hct Hdur]).
  - split; cbn [fst snd]; try done; try lia; [by split; [|intros j _ bytes]|rewrite take_0; cbn; lia|intros _; split; [done|by exists a]].
  - intros i st Hi Hst. apply relocate_leaf_step; done || lia.
  - cbn [fst snd] in *. rewrite Z.add_0_l in *. rewrite Nat2Z.id, firstn_all in Hgr. fold n in Hgr, Hsq, Hct.
    rewrite E1, bind_Ok. destruct (Z.ltb_spec 0 bc).
    + destruct (commit_ok_store manifest_to_toml ix1 a1 nodes) as (ix2 & a2 & E2 & Hix2 & Et & Hk & Hs & _ & _ & _ & El2 & Hd & _ & _ & _).
      { done. } { unfold table_small. by rewrite (proj1 Hlv). } { by rewrite Hrow. } { lia. }
      { rewrite (table_pages_same _ _ (proj1 Hlv)), Hrow. unfold capacity, commit_pages in *. rewrite Hbm. nia. }
      rewrite E2, bind_Ok. destruct (index_ok_clear _ _ _ Hix2) as (a3 & E3 & _). rewrite E3, bind_Ok.
      exists ix2, rel. split; [done|]. split; [lia|]. split; [|split; [by rewrite Et|split; [by eapply same_pages_trans|by split]]].
      eapply same_leaves_trans; [done|]. split; [by rewrite Et|done].
    + exists ix1, rel. split; [done|]. split_and!; try done; try lia; apply Hlv || (apply Hdur; lia).
Qed.
End runs.

(** ** A concrete index: one leaf of one page behind the superblock and the bitmap *)

Definition w_alloc0 : PageAllocator := match init w_sb_file 2 1 with Ok a => a | Err _ => PageAllocator_new end.
Definition w_grown : Z * PageAllocator * PageFile :=
  match alloc_extent w_alloc0 w_sb_file 1 with Ok r => r | Err _ => (0, w_alloc0, w_sb_file) end.
Definition w_index : IVFTreeIndex PageFile := mkIndex w_grown.2 w_sb [mkLeafEntry 3 1] 5 1 0.
Definition w_toml (n : Z) : list Z := [n mod 256].

Lemma w_sb_file_pages : num_pages w_sb_file = 3.
Proof. by vm_compute. Qed.

Lemma w_alloc0_ok :
  alloc_ok w_alloc0 w_sb_file ∧ n_pages_ w_alloc0 = 3 ∧ bitmap_page_ w_alloc0 = 2 ∧ bitmap_pages_ w_alloc0 = 1 ∧
  owned w_alloc0 [(0, 2); (2, 1)].
Proof.
  destruct (init_ok w_sb_file 2 1) as (a & E & Ha & Hn & Hp & Hpp & _ & _ & Hb);
    [apply w_sb_committed|lia|lia|apply w_sb_file_pages|].
  assert (w_alloc0 = a) as -> by (unfold w_alloc0; by rewrite E). split_and!; try done.
  split.
  - by apply (bool_decide_unpack _).
  - intros p Hin. assert (0 ≤ p < 3) as Hp3.
    { unfold owned_pages in Hin. apply list_elem_of_bind in Hin as (e & He%elem_of_extent & Hin).
      apply elem_of_cons in Hin as [-> | Hin%list_elem_of_singleton]; subst; cbn in He; lia. }
    rewrite Hn, Hb by lia. by rewrite bool_decide_true by lia.
Qed.

Lemma w_grown_eq : alloc_extent w_alloc0 w_sb_file 1 = Ok (3, w_grown.1.2, w_grown.2).
Proof.
  assert (match alloc_extent w_alloc0 w_sb_file 1 with Ok (p, _, _) => p | Err _ => 0 end = 3) as Hp by (by vm_compute).
  unfold w_grown. destruct (alloc_extent w_alloc0 w_sb_file 1) as [[[p a] f]|]; [by subst|done].
Qed.

Lemma w_bitmap_length : Z.of_nat (length (bitmap_ w_alloc0)) = 1.
Proof. by vm_compute. Qed.

Lemma one_leaf_ok (a0 a : PageAllocator) (f0 f : PageFile) :
  alloc_ok a0 f0 ∧ n_pages_ a0 = 3 ∧ bitmap_page_ a0 = 2 ∧ bitmap_pages_ a0 = 1 ∧ owned a0 [(0, 2); (2, 1)] →
  sb_committed 1 f0 → Z.of_nat (length (bitmap_ a0)) = 1 → alloc_extent a0 f0 1 = Ok (3, a, f) →
  index_ok (mkIndex f w_sb [mkLeafEntry 3 1] 5 1 0) a [] ∧ n_pages_ a ≤ 4 ∧ bitmap_pages_ a = 1.
Proof.
  intros (Ha & Hn & Hp & Hpp & Ho) Hsb Hl Eg.
  destruct (alloc_extent_allocated a0 f0 1) as (p & a1 & f1 & E & Hal); [done|lia|unfold max_pages; lia|].
  rewrite Eg in E. injection E as <- <- <-.
  destruct (owned_alloc _ _ _ _ _ _ _ Ho Hal) as [Ho1 Hs]. pose proof Hal as (Ha1 & Hn1 & _ & _ & _ & _ & Hkeep).
  destruct (alloc_extent_region _ _ _ _ _ _ Eg) as (R1 & R2 & R3); [lia|lia|]. rewrite Hl in R3.
  split; [|split; [lia|congruence]]. split; cbn [superblock_ file_].
  - unfold meta. rewrite R1, R2, Hp, Hpp. split; [done| |repeat constructor; cbn; lia|done].
    exact Ho1.
  - apply (sb_committed_frame _ f0); [exact Hsb|apply Ha1|rewrite (ok_file _ _ Ha1); lia|apply Hkeep; lia|apply Hkeep; lia].
  - done.
  - by apply (bool_decide_unpack _).
  - by rewrite R1, R2, Hp, Hpp.
  - rewrite R2, Hpp. lia.
  - rewrite R2, Hpp. unfold kPageSize. assert ((n_pages_ a + 7) / 8 ≤ 2) by (apply Z.div_le_upper_bound; lia). lia.
Qed.

Lemma w_index_ok : index_ok w_index w_grown.1.2 [] ∧ n_pages_ w_grown.1.2 ≤ 4 ∧ bitmap_pages_ w_grown.1.2 = 1.
Proof. exact (one_leaf_ok _ _ _ _ w_alloc0_ok w_sb_committed w_bitmap_length w_grown_eq). Qed.

Lemma commit_durable_witness :
  ∃ ix' a', commit_mutable_ w_toml w_index w_grown.1.2 = Ok (ix', a') ∧ durable ix' [] ∧ remap_ ix' = Ok ix' ∧
    leaf_table_ ix' = [mkLeafEntry 3 1] ∧ n_vectors_disk_ ix' = 5.
Proof.
  destruct w_index_ok as (Hix & Hn & Hbp). revert Hix Hn Hbp. unfold w_index. generalize w_grown.1.2, w_grown.2.
  intros a f Hix Hn Hbp.
  destruct (commit_durable w_toml (mkIndex f w_sb [mkLeafEntry 3 1] 5 1 0) a []) as (ix' & a' & E & _ & Hd & Hr & Et & _ & _ & Ed & _);
    [done|unfold table_small; cbn; lia|split; [by repeat constructor|cbn; lia]|by vm_compute| |by exists ix', a'].
  change (table_pages _) with 1. change (toml_pages _) with 1. unfold capacity. rewrite Hbp. unfold kPageSize. lia.
Defined.

(** A defragmentation of an index as a commit leaves it. *)
Lemma defrag_committed (ix : IVFTreeIndex PageFile) a :
  index_ok ix a [] → leaf_table_ ix = [mkLeafEntry 3 1] → mf_n_vectors ix = 5 → commit_seq (superblock_ ix) < 2 ^ 63 →
  n_pages_ a ≤ 4 → bitmap_pages_ a = 1 →
  ∃ ix1 a1, commit_mutable_ w_toml ix a = Ok (ix1, a1) ∧ load (file_ ix1) = Ok (superblock_ ix1) ∧
    leaf_table_ ix1 = [mkLeafEntry 3 1] ∧ mf_n_vectors ix1 = 5 ∧ commit_seq (superblock_ ix1) = commit_seq (superblock_ ix) + 1 ∧
    ∃ a2, load_allocator ix1 = Ok a2 ∧ index_ok ix1 a2 [] ∧ n_pages_ a2 ≤ 6 ∧ bitmap_pages_ a2 = 1.
Proof.
  intros Hix Et Ev Hs Hn Hb.
  assert (table_pages (leaf_table_ ix) + toml_pages (w_toml (mf_n_vectors ix)) = 2) as Hp by (by rewrite Et, Ev).
  destruct (commit_ok_store w_toml ix a []) as (ix1 & a1 & E & Hix1 & Et1 & _ & _ & Ev1 & _ & Esq & El & (a2 & Ea & Hix2) & Hn1 & Hb1 & _);
    [done|unfold table_small; rewrite Et; cbn; lia|rewrite Ev; split; [by repeat constructor|cbn; lia]|lia| |].
  { unfold capacity. rewrite Hb. unfold kPageSize. lia. }
  exists ix1, a1. split_and!; try done; try congruence. exists a2. split; [done|]. split; [done|].
  pose proof (ix_bitmap _ _ _ Hix1) as [_ B1]. pose proof (ix_bitmap _ _ _ Hix2) as [_ B2].
  pose proof (ok_file _ _ (st_alloc _ _ _ (ix_store _ _ _ Hix1))) as F1.
  pose proof (ok_file _ _ (st_alloc _ _ _ (ix_store _ _ _ Hix2))) as F2. lia.
Qed.

Lemma defrag_keeps_leaves_witness :
  ∃ ix a ix' moved, commit_mutable_ w_toml w_index w_grown.1.2 = Ok (ix, a) ∧
    defrag w_toml false (mkDefrag 0 false) ix = Ok (ix', moved, 0) ∧ 0 ≤ moved ≤ 1 ∧ same_leaves ix ix' ∧ durable ix' [].
Proof.
  destruct w_index_ok as (Hix & Hn & Hb).
  assert (commit_seq (superblock_ w_index) < 2 ^ 62) as Hs by exact (eq_refl Lt).
  pose proof (conj eq_refl eq_refl : leaf_table_ w_index = [mkLeafEntry 3 1] ∧ mf_n_vectors w_index = 5) as [Et Ev].
  revert Hix Hn Hb Hs Et Ev. generalize w_index, w_grown.1.2. intros ix0 a0 Hix Hn Hb Hs Et Ev.
  destruct (defrag_committed ix0 a0) as (ix & a & E & El & Et1 & Ev1 & Es & a2 & Ea & Hix2 & Hn2 & Hb2); [done..|lia|done|done|].
  destruct (defrag_keeps_leaves w_toml ix [] a2 0) as (ix' & moved & Ed & Hm & Hl & _ & _ & Hd).
  - done.
  - done.
  - done.
  - unfold table_small. rewrite Et1. cbn. lia.
  - rewrite Ev1. split; [by repeat constructor|cbn; lia].
  - rewrite Et1, Es. cbn. lia.
  - lia.
  - assert (commit_pages w_toml ix = 2) as -> by (unfold commit_pages; by rewrite Et1, Ev1).
    unfold capacity. rewrite Hb2, Et1. unfold kPageSize. cbn. lia.
  - rewrite Et1 in Hm. by exists ix, a, ix', moved.
Defined.

Lemma write_leaf_isolated_witness :
  ∃ ix' a', write_leaf_ w_index 0 (replicate (Z.to_nat (2 * kPageSize)) 7) 2 w_grown.1.2 = Ok (ix', a') ∧
    read_leaf_ ix' 0 = Ok (replicate (Z.to_nat (2 * kPageSize)) 7).
Proof.
  destruct w_index_ok as (Hix & Hn & Hbp). revert Hix Hn Hbp. unfold w_index. generalize w_grown.1.2, w_grown.2.
  intros a f Hix Hn Hbp.
  destruct (write_leaf_isolated w_toml (mkIndex f w_sb [mkLeafEntry 3 1] 5 1 0) a [] 0 (mkLeafEntry 3 1)
    (replicate (Z.to_nat (2 * kPageSize)) 7) 2) as (ix' & a' & E & _ & Er & _).
  - done.
  - done.
  - lia.
  - unfold capacity. rewrite Hbp. unfold kPageSize. lia.
  - apply length_replicate.
  - apply Forall_replicate. unfold is_byte. lia.
  - by exists ix', a'.
Defined.
