(* ===== verification/FilterBytes.v ===== *)
(** * FilterBytes: filter columns stay bytes

    Whatever reading, selecting and writing the filter columns of a leaf do, from
    bytes they make bytes: what lets the result be a leaf again. *)
From S2P Require Import Prelude Schema FilterHash FilterColumns.

(** The raw data of a column. *)
Record raw_ok (fc : ColumnData) : Prop := {
  raw_nulls : bytes_ok (null_mask fc);
  raw_fixed : bytes_ok (fixed_data fc);
  raw_str : bytes_ok (str_data fc);
  raw_set : bytes_ok (set_elem_data fc);
}.

(** Follows the reads and writes from buffers known to be bytes. *)
Ltac bytes_fwd :=
  unfold bytes_ok in *;
  repeat match goal with
  | h : mem_read ?b _ _ = Ok _, hb : Forall is_byte ?b |- _ => apply mem_read_bytes in h; [|exact hb]
  | h : mem_write ?b _ _ = Ok _, hb : Forall is_byte ?b |- _ =>
      apply mem_write_bytes in h; [|exact hb|first [assumption|apply le_enc_bytes]]
  end; try assumption.

(** Splits [m ≫= f = Ok b] with the pairs [f] binds. *)
Ltac bytes_inv E :=
  repeat first
    [ let v := fresh "v" in let E1 := fresh "E" in apply bind_Ok_inv in E as (v & E1 & E); cbn beta in E
    | match type of E with match ?v with (_, _) => _ end = _ => destruct v; cbn beta iota in E end ].

Lemma vec_get_forall {A} (P : A → Prop) l i x : vec_get l i = Ok x → Forall P l → P x.
Proof.
  unfold vec_get. intros E Hl. destruct (i <? 0); [done|]. destruct (l !! Z.to_nat i) eqn:El; [|done].
  injection E as <-. by eapply (Forall_lookup_1 _ _ _ _ Hl).
Qed.

Section write.
Context `{RapidHash}.

Lemma set_elem_bytes fc k n s : set_elem fc k = Ok (n, s) → raw_ok fc → bytes_ok s.
Proof. intros E Hr. unfold set_elem in E. bytes_inv E. injection E as _ <-. eapply mem_read_bytes; [done|apply Hr]. Qed.

Lemma write_set_elem_bytes fc hashes acc off e st st' :
  write_set_elem fc hashes acc off e st = Ok st' → raw_ok fc → bytes_ok st.1 → bytes_ok st'.1.
Proof.
  intros E Hr Hb. unfold write_set_elem in E. destruct st as [buf p]. bytes_inv E. injection E as <-. cbn [fst snd] in *.
  pose proof (set_elem_bytes _ _ _ _ E0 Hr). bytes_fwd.
Qed.

Lemma write_set_row_bytes fc counts offs hashes i st st' :
  write_set_row fc counts offs hashes i st = Ok st' → raw_ok fc → bytes_ok st.1.1 → bytes_ok st'.1.1.
Proof.
  intros E Hr Hb. unfold write_set_row in E. destruct st as [[buf p] acc]. bytes_inv E. injection E as <-. cbn [fst snd] in *.
  match goal with h : for_range _ _ _ _ = Ok (?b, ?q) |- _ =>
    apply (for_range_keeps (λ st, bytes_ok st.1)) in h; [exact h|intros j t t' Et Ht; by eapply write_set_elem_bytes|] end.
  cbn. bytes_fwd.
Qed.

Lemma write_string_row_bytes fc offs lens hashes i st st' :
  write_string_row fc offs lens hashes i st = Ok st' → raw_ok fc → bytes_ok st.1.1 → bytes_ok st'.1.1.
Proof.
  intros E Hr Hb. unfold write_string_row in E. destruct st as [[buf p] acc]. bytes_inv E. injection E as <-. cbn [fst snd] in *.
  pose proof (raw_str _ Hr). bytes_fwd.
Qed.

Lemma write_data_bytes n col fc buf p buf' p' :
  write_data n col fc buf p = Ok (buf', p') → raw_ok fc → bytes_ok buf → bytes_ok buf'.
Proof.
  intros E Hr Hb. unfold write_data in E.
  assert (∀ w, ((buf ← (if 0 <? n then bs ← mem_read (fixed_data fc) 0 (n * w); mem_write buf p bs else mret buf);
    mret (buf, p + n * w)) : res (list Z * Z)) = Ok (buf', p') → bytes_ok buf') as Hfix.
  { intros w E'. bytes_inv E'. injection E' as <- _. destruct (0 <? n); [bytes_inv E0|by injection E0 as <-].
    pose proof (raw_fixed _ Hr). bytes_fwd. }
  destruct (col_type col); try by eapply Hfix.
  - bytes_inv E. injection E as <- _. apply (for_range_keeps (λ st, bytes_ok st.1.1)) in E0; [done| |done].
    intros j t t' Et Ht. by eapply write_string_row_bytes.
  - bytes_inv E. injection E as <- _. apply (for_range_keeps (λ st, bytes_ok st.1.1)) in E1; [done| |done].
    intros j t t' Et Ht. by eapply write_set_row_bytes.
Qed.

Lemma write_nulls_bytes n col fc buf p buf' p' :
  write_nulls n col fc buf p = Ok (buf', p') → raw_ok fc → bytes_ok buf → bytes_ok buf'.
Proof.
  intros E Hr Hb. unfold write_nulls in E. destruct (nullable col); [|by injection E as <- _].
  bytes_inv E. injection E as <- _. destruct (0 <? n); [|by injection E0 as <-].
  pose proof (raw_nulls _ Hr) as Hn. destruct (null_mask fc) as [|x l].
  - eapply mem_write_bytes; [done|done|]. by apply Forall_replicate.
  - bytes_inv E0. bytes_fwd.
Qed.

Lemma write_columns_bytes n cols fcs c buf p buf' p' :
  write_columns_loop n cols fcs c buf p = Ok (buf', p') → Forall raw_ok fcs → bytes_ok buf → bytes_ok buf'.
Proof.
  intros E Hr. revert c buf p E. induction cols as [|col cols IH]; intros c buf p E Hb; cbn [write_columns_loop] in E.
  { by injection E as <- _. }
  bytes_inv E. unfold write_column in E1. bytes_inv E1. injection E1 as <- <-.
  pose proof (vec_get_forall _ _ _ _ E0 Hr) as Hv.
  eapply IH; [exact E|]. eapply write_nulls_bytes; [done|done|]. by eapply write_data_bytes.
Qed.
End write.

(** ** Reading *)

Lemma read_nulls_bytes buf n col p ns p' : read_nulls buf n col p = Ok (ns, p') → bytes_ok buf → bytes_ok ns.
Proof.
  unfold read_nulls. intros E Hb. destruct (nullable col); [|injection E as <- _; constructor].
  bytes_inv E. injection E as <- _. by eapply mem_read_bytes.
Qed.

Lemma read_column_bytes buf n col p fc p' : read_column buf n col p = Ok (fc, p') → bytes_ok buf → raw_ok fc.
Proof.
  intros E Hb. unfold read_column in E. apply bind_Ok_inv in E as ([fc0 q] & E & E'). injection E' as <- _.
  destruct (col_type col); bytes_inv E; injection E as <- _;
    try match goal with h : read_nulls _ _ _ _ = Ok _ |- _ => apply read_nulls_bytes in h; [|done] end.
  1-5: split; cbn; first [done | by constructor | by eapply mem_read_bytes].
  split; cbn; try done; try by constructor.
  match goal with h : for_range _ _ (read_set_row _ _) _ = Ok (_, (_, _, ?l, _)) |- _ =>
    apply (for_range_keeps (λ st, bytes_ok st.2.1.2)) in h; [exact h| |by constructor] end.
  intros j [offs st] [offs' st'] Et Ht. unfold read_set_row in Et. destruct st as [[[q1 lens] data] acc]. bytes_inv Et.
  injection Et as _ <-. match goal with h : for_range _ _ (read_set_elem _) _ = Ok _ |- _ =>
    apply (for_range_keeps (λ st, bytes_ok st.1.2)) in h; [exact h| |exact Ht] end.
  intros k [[[q2 m2] d2] a2] t' Ek Hk. unfold read_set_elem in Ek. bytes_inv Ek. injection Ek as <-. cbn [fst snd] in *.
  apply Forall_app. split; [done|by eapply mem_read_bytes].
Qed.

Lemma read_columns_bytes buf n cols p fcs p' : read_columns_loop buf n cols p = Ok (fcs, p') → bytes_ok buf → Forall raw_ok fcs.
Proof.
  intros E Hb. revert p fcs E. induction cols as [|col cols IH]; intros p fcs E; cbn [read_columns_loop] in E.
  { injection E as <- _. constructor. }
  bytes_inv E. injection E as <- <-. constructor; [by eapply read_column_bytes|]. by eapply IH.
Qed.

(** ** Selecting *)

Lemma push_set_elem_bytes s off e d d' : push_set_elem s off e d = Ok d' → raw_ok s → raw_ok d → raw_ok d'.
Proof.
  intros E Hs Hd. unfold push_set_elem in E. bytes_inv E. injection E as <-. split; cbn; try apply Hd.
  apply Forall_app. split; [apply Hd|eapply mem_read_bytes; [done|apply Hs]].
Qed.

Lemma push_row_bytes t s i d d' : push_row t s i d = Ok d' → raw_ok s → raw_ok d → raw_ok d'.
Proof.
  intros E Hs Hd. destruct t; cbn in E.
  1-4: unfold push_fixed in E; bytes_inv E; injection E as <-; split; cbn; try apply Hd;
    apply Forall_app; split; [apply Hd|eapply mem_read_bytes; [done|apply Hs]].
  - unfold push_string in E. bytes_inv E. injection E as <-. split; cbn; try apply Hd.
    apply Forall_app; split; [apply Hd|eapply mem_read_bytes; [done|apply Hs]].
  - unfold push_set in E. bytes_inv E. apply (for_range_keeps raw_ok) in E; [done| |by split; apply Hd].
    intros j d1 d2 Ed Hd1. by eapply push_set_elem_bytes.
Qed.

Lemma push_rows_bytes t s idx d d' : push_rows t s idx d = Ok d' → raw_ok s → raw_ok d → raw_ok d'.
Proof.
  intros E Hs. revert d E. induction idx as [|i idx IH]; intros d E Hd; cbn in E; [by injection E as <-|].
  apply bind_Ok_inv in E as (d1 & E1 & E). eapply IH; [exact E|by eapply push_row_bytes].
Qed.

Lemma get_all_bytes l idx ns : get_all l idx = Ok ns → bytes_ok l → bytes_ok ns.
Proof.
  intros E Hl. revert ns E. induction idx as [|i idx IH]; intros ns E; cbn in E; [injection E as <-; constructor|].
  bytes_inv E. injection E as <-. constructor; [|by apply IH].
  by apply (vec_get_forall _ _ _ _ E0).
Qed.

Lemma select_columns_bytes cols src c idx ds : select_columns_loop cols src c idx = Ok ds → Forall raw_ok src → Forall raw_ok ds.
Proof.
  intros E Hs. revert c ds E. induction cols as [|col cols IH]; intros c ds E; cbn [select_columns_loop] in E.
  { injection E as <-. constructor. }
  bytes_inv E. injection E as <-. constructor; [|by eapply IH].
  pose proof (vec_get_forall _ _ _ _ E0 Hs) as Hv.
  unfold select_column in E1. apply bind_Ok_inv in E1 as (ns & En & E1).
  assert (bytes_ok ns) as Hn.
  { destruct (_ && _); [eapply get_all_bytes; [done|apply Hv]|injection En as <-; constructor]. }
  assert (raw_ok (add_nulls ns (set_type (col_type col) empty_cd))) as Hd by (split; cbn; done || constructor).
  by eapply push_rows_bytes.
Qed.
