(* ===== verification/CompactLeaf.v ===== *)
(** * CompactLeaf: a leaf without its deleted rows
    ([src/tree/ivf_tree_mutate.cpp], [src/tree/coders/global_pq_coder.cpp])

    [compact_leaf] is the part of [IVFTreeIndex::delete_batch] that works on one
    leaf: header and summary are copied, the code blocks compacted, the row ids and
    the filter columns of the surviving rows written behind them, and the header
    sealed.  [leaf_holds] is what a leaf of the global coders stores: rows of an id,
    a code and a cell per filter column. *)
From S2P Require Import Prelude Doubles Schema FilterHash FilterColumns PageFile TreeNodes FastScanCodes FastScanLeaves FilterBytes.

(** ** Operations *)

(** [GlobalPqCoder::geometry]. *)
Definition geometry (h : TreeLeafHeader) : LeafGeometry :=
  let cpb := codes_per_block (lh_pq_bits h) in
  let bb := u32 (lh_m4 h * 16) in
  let n_blocks := u64 (lh_count h + cpb - 1) / cpb in
  let rowids := leaf_rowids_offset (lh_summary_size h) n_blocks bb in
  mkGeometry (leaf_codes_offset (lh_summary_size h)) rowids
    (u64 (rowids + u64 (lh_count h * sizeof_RowId)))
    (leaf_extent_bytes (lh_count h) (lh_m4 h) (lh_pq_bits h) (lh_summary_size h) 0).

(** Fields of the header the deletion overwrites. *)
Definition count_offset : Z := 8.
Definition extent_pages_offset : Z := 40.
Definition summary_dirty_offset : Z := 76.

Section compact.
Context `{RapidHash} (params_m4 params_pq_bits summary_size : Z) (schema : Schema).

(** [GlobalPqCoder::extent_bytes]. *)
Definition coder_extent_bytes (count filter_cols_bytes : Z) : Z :=
  leaf_extent_bytes count params_m4 params_pq_bits summary_size filter_cols_bytes.

(** The row ids of the survivors, behind the blocks. *)
Definition compact_rowids (buf : list Z) (old_base : Z) (survivors : list Z) (new_base : Z) (nb : list Z) : res (list Z) :=
  for_range (length survivors) 0 (λ i nb,
    s ← vec_get survivors i;
    v ← load_rowid buf old_base s;
    store_rowid nb new_base i v) nb.

(** The filter columns of the survivors, at the end. *)
Definition compact_filters (buf : list Z) (old_off count : Z) (survivors : list Z) (new_off : Z) (nb : list Z) : res (list Z) :=
  '(old_cols, _) ← read_filter_columns (drop (Z.to_nat old_off) buf) count schema;
  new_cols ← select_filter_rows old_cols schema survivors;
  '(fb, _) ← write_filter_columns (drop (Z.to_nat new_off) nb) (Z.of_nat (length survivors)) schema new_cols;
  mret (take (Z.to_nat new_off) nb ++ fb).

(** The last writes to the header. *)
Definition seal_leaf (nb : list Z) (new_npg : Z) : res (list Z) :=
  nb ← mem_write nb extent_pages_offset (le_enc 8 new_npg);
  nb ← mem_write nb summary_dirty_offset [1];
  crc ← header_crc nb leaf_crc_offset;
  mem_write nb leaf_crc_offset (le_enc 4 crc).

Definition slots_kept (count : Z) (slots : list Z) : list Z := filter (λ s, s ∉ slots) (seqZ 0 count).

(** The leaf without the rows at [slots] and its pages; [None] when nothing goes. *)
Definition compact_leaf (buf slots : list Z) : res (option (list Z * Z)) :=
  hdr ← mem_read buf 0 sizeof_TreeLeafHeader;
  let lh := leaf_header_of_bytes hdr in
  let count := u32 (lh_count lh) in
  let survivors := slots_kept count slots in
  let new_count := Z.of_nat (length survivors) in
  if new_count =? count then mret None
  else
    let old_geo := geometry lh in
    let old_filter_bytes :=
      if negb (lh_filter_columns_offset lh =? 0)
      then u64 (u64 (lh_extent_pages lh * kPageSize) - coder_extent_bytes count 0) else 0 in
    let new_npg := u32 (u64 (coder_extent_bytes new_count old_filter_bytes + kPageSize - 1) / kPageSize) in
    head ← mem_read buf 0 (u64 (sizeof_TreeLeafHeader + summary_size));
    nb ← mem_write (replicate (Z.to_nat (new_npg * kPageSize)) 0) 0 head;
    nb ← mem_write nb count_offset (le_enc 8 new_count);
    nb ← compact (lh_summary_size lh) (lh_m4 lh) (lh_pq_bits lh) buf survivors nb;
    nhdr ← mem_read nb 0 sizeof_TreeLeafHeader;
    let new_geo := geometry (leaf_header_of_bytes nhdr) in
    nb ← compact_rowids buf (rowids_offset old_geo) survivors (rowids_offset new_geo) nb;
    nb ← (if 0 <? old_filter_bytes
          then compact_filters buf (filter_offset old_geo) count survivors (filter_offset new_geo) nb
          else mret nb);
    nb ← seal_leaf nb new_npg;
    mret (Some (nb, new_npg)).
End compact.

(** ** Specification: the rows of a leaf *)

Record leaf_rows := mkRows {
  r_ids : list Z;
  r_codes : list (list Z);
  r_cells : list (list FilterColumns.cell * list Z);
}.

Definition pick_all (keep : list Z) (rows : leaf_rows) : leaf_rows :=
  mkRows (pick (r_ids rows) keep) (pick (r_codes rows) keep) (pick_rows keep <$> r_cells rows).

(** The slots of the rows whose id is not in [del], and those rows. *)
Definition kept_slots (del ids : list Z) : list Z :=
  filter (λ s, default 0 (ids !! Z.to_nat s) ∉ del) (seqZ 0 (zlen ids)).

Definition rows_without (del : list Z) (rows : leaf_rows) : leaf_rows :=
  pick_all (kept_slots del (r_ids rows)) rows.

Definition n_rows (rows : leaf_rows) : Z := zlen (r_ids rows).

Section spec.
Context `{RapidHash} (m4 bits code_size summary_size : Z) (schema : Schema).

Definition blocks (n : Z) : Z := u32 (n + codes_per_block bits - 1) / codes_per_block bits.
Definition ids_at (n : Z) : Z := area_end summary_size m4 (blocks n).
Definition filters_at (n : Z) : Z := ids_at n + n * sizeof_RowId.

(** [buf] is the leaf [rows]: the header's counts are its own, and codes, ids and
    cells are at the offsets the header gives. *)
Record leaf_holds (buf : list Z) (rows : leaf_rows) : Prop := {
  lw_bytes : Forall is_byte buf;
  lw_length : Z.of_nat (length buf) = lh_extent_pages (leaf_header_of_bytes buf) * kPageSize;
  lw_pages : 0 < lh_extent_pages (leaf_header_of_bytes buf) < 2 ^ 20;
  lw_count : lh_count (leaf_header_of_bytes buf) = n_rows rows;
  lw_m4 : lh_m4 (leaf_header_of_bytes buf) = m4;
  lw_bits : lh_pq_bits (leaf_header_of_bytes buf) = bits;
  lw_summary : lh_summary_size (leaf_header_of_bytes buf) = summary_size;
  lw_filtered : lh_filter_columns_offset (leaf_header_of_bytes buf) ≠ 0 ∨ columns schema = [];
  lw_codes : zlen (r_codes rows) = n_rows rows ∧ Forall (code_clean m4 bits code_size) (r_codes rows) ∧
    stores_leaf summary_size m4 bits code_size (blocks (n_rows rows)) buf (r_codes rows);
  lw_ids : Forall (λ v, - 2 ^ 63 ≤ v < 2 ^ 63) (r_ids rows) ∧ holds buf (ids_at (n_rows rows)) (arr 8 (r_ids rows));
  lw_cells : Forall2 (λ col d, column_ok col d ∧ zlen d.1 = n_rows rows) (columns schema) (r_cells rows) ∧
    stored_table (columns schema) (r_cells rows) = r_cells rows;
  lw_filters : all_stored (drop (Z.to_nat (filters_at (n_rows rows))) buf) (columns schema) (r_cells rows) 0 ∧
    filters_at (n_rows rows) + columns_end (columns schema) (r_cells rows) 0 ≤ Z.of_nat (length buf);
}.
End spec.

(** ** Lemmas: rows *)

Lemma pick_fmap {A B} (f : A → B) l keep : pick (f <$> l) keep = f <$> pick l keep.
Proof.
  unfold pick. induction keep as [|i keep IH]; [done|]. cbn [omap list_omap].
  rewrite list_lookup_fmap. destruct (l !! Z.to_nat i); cbn; [by rewrite IH|done].
Qed.

Lemma pick_seqZ {A} (l : list A) (n : Z) (pre : list A) :
  n = zlen pre → pick (pre ++ l) (seqZ n (zlen l)) = l.
Proof.
  revert n pre. induction l as [|x l IH]; intros n pre ->; [done|].
  unfold zlen. cbn [length]. rewrite Nat2Z.inj_succ, seqZ_cons by lia. unfold pick in *. cbn [omap list_omap].
  rewrite Nat2Z.id, list_lookup_middle by done. f_equal.
  specialize (IH (zlen pre + 1) (pre ++ [x])). rewrite <- app_assoc in IH. unfold zlen in IH.
  rewrite Z.pred_succ. apply IH. rewrite length_app. cbn. lia.
Qed.

Lemma pick_all_slots {A} (l : list A) : pick l (seqZ 0 (zlen l)) = l.
Proof. exact (pick_seqZ l 0 [] eq_refl). Qed.

Lemma pick_sublist {A} (l : list A) k1 k2 : k1 `sublist_of` k2 → pick l k1 `sublist_of` pick l k2.
Proof.
  unfold pick. induction 1 as [|x k1 k2 _ IH|x k1 k2 _ IH]; cbn [omap list_omap]; [done| |];
    destruct (l !! Z.to_nat x); cbn; by constructor || done.
Qed.

Lemma kept_sublist {A} (P : Z → Prop) `{∀ s, Decision (P s)} (l : list A) :
  pick l (filter P (seqZ 0 (zlen l))) `sublist_of` l.
Proof.
  assert (pick l (filter P (seqZ 0 (zlen l))) `sublist_of` pick l (seqZ 0 (zlen l))) as Hs
    by apply pick_sublist, sublist_filter. by rewrite pick_all_slots in Hs.
Qed.

Lemma kept_in_range (P : Z → Prop) `{∀ s, Decision (P s)} n : Forall (λ s, 0 ≤ s < n) (filter P (seqZ 0 n)).
Proof. apply Forall_forall. intros s [_ Hs]%list_elem_of_filter. apply elem_of_seqZ in Hs. lia. Qed.

(** ** Lemmas: the space of the columns *)

Lemma zlen_sublist {A} (l1 l2 : list A) : l1 `sublist_of` l2 → zlen l1 ≤ zlen l2.
Proof. intros Hs%sublist_length. unfold zlen. lia. Qed.

Lemma concat_sublist {A B} (f : A → list B) l1 l2 : l1 `sublist_of` l2 → concat (f <$> l1) `sublist_of` concat (f <$> l2).
Proof.
  induction 1 as [|x l1 l2 _ IH|x l1 l2 _ IH]; cbn [fmap list_fmap concat]; [done| |].
  - by apply sublist_app.
  - by apply sublist_inserts_l.
Qed.

Lemma data_end_sublist t c1 c2 p q : c1 `sublist_of` c2 → p ≤ q → data_end t c1 p ≤ data_end t c2 q.
Proof.
  intros Hs Hpq. pose proof (zlen_sublist _ _ Hs). unfold data_end, string_data, set_data_base, set_hash_base. rewrite !zlen_fmap.
  destruct t; cbn [column_type_width]; try lia.
  - pose proof (al4_mono (p + 6 * zlen c1) (q + 6 * zlen c2)). pose proof (zlen_sublist _ _ (concat_sublist str_of _ _ Hs)). lia.
  - pose proof (al4_mono (p + zlen c1) (q + zlen c2)). pose proof (concat_sublist elems_of _ _ Hs) as He.
    pose proof (zlen_sublist _ _ He). pose proof (zlen_sublist _ _ (concat_sublist record_of _ _ He)). lia.
Qed.

Lemma col_end_sublist col c1 c2 p q : c1 `sublist_of` c2 → p ≤ q → col_end col c1 p ≤ col_end col c2 q.
Proof.
  intros Hs Hpq. unfold col_end. apply al4_mono. pose proof (data_end_sublist (col_type col) _ _ _ _ Hs Hpq).
  pose proof (zlen_sublist _ _ Hs). destruct (nullable col); lia.
Qed.

Lemma columns_end_sublist cols (t1 t2 : list (list FilterColumns.cell * list Z)) p q :
  Forall2 (λ d1 d2, d1.1 `sublist_of` d2.1) t1 t2 → p ≤ q → columns_end cols t1 p ≤ columns_end cols t2 q.
Proof.
  intros Hs. revert cols p q. induction Hs as [|d1 d2 t1 t2 Hd _ IH]; intros [|col cols] p q Hpq; cbn [columns_end]; try lia.
  apply IH. by apply col_end_sublist.
Qed.

Lemma columns_end_0 cols tbl : 0 ≤ columns_end cols tbl 0.
Proof. by apply columns_end_ge. Qed.

(** Every column of a non-empty leaf takes space. *)
Lemma columns_end_pos n cols tbl :
  0 < n → Forall2 (λ col d, column_ok col d ∧ zlen d.1 = n) cols tbl → cols ≠ [] → 0 < columns_end cols tbl 0.
Proof.
  intros Hn [|col d cols' tbl' [_ Hd] _] Hne; [done|]. cbn [columns_end].
  eapply Z.lt_le_trans; [|apply columns_end_ge; apply col_end_ge; lia].
  unfold col_end. pose proof (al4_bounds (data_end (col_type col) d.1 0 + (if nullable col then zlen d.1 else 0))) as Ha.
  assert (0 < data_end (col_type col) d.1 0); [|destruct (nullable col); lia].
  unfold data_end, string_data, set_data_base, set_hash_base. rewrite !zlen_fmap.
  destruct (col_type col); cbn [column_type_width]; try lia.
  - pose proof (al4_bounds (0 + 6 * zlen d.1)). pose proof (zlen_nonneg (concat (str_of <$> d.1))). lia.
  - pose proof (al4_bounds (0 + zlen d.1)). pose proof (zlen_nonneg (concat (elems_of <$> d.1))).
    pose proof (zlen_nonneg (concat (record_of <$> concat (elems_of <$> d.1)))). lia.
Qed.

(** A column fits the 32-bit counters when the leaf does. *)
Lemma table_small_of_end cols tbl p :
  Forall2 (λ _ _, True) cols tbl → 0 ≤ p → columns_end cols tbl p < 2 ^ 32 → table_small cols tbl.
Proof.
  intros Hl. revert p. induction Hl as [|col d cols tbl _ _ IH]; intros p Hp Hlt; [constructor|].
  cbn [columns_end] in Hlt. pose proof (col_end_ge col d.1 p Hp) as Hc.
  pose proof (columns_end_ge cols tbl (col_end col d.1 p) ltac:(lia)) as Hce.
  constructor; [|apply (IH (col_end col d.1 p)); lia]. unfold cells_small.
  pose proof (data_end_mono (col_type col) d.1 p Hp). unfold col_end in *.
  pose proof (al4_bounds (data_end (col_type col) d.1 p + (if nullable col then zlen d.1 else 0))). pose proof (zlen_nonneg d.1).
  destruct (nullable col); lia.
Qed.

(** ** Lemmas: the three regions *)

Lemma stored_table_id cols tbl :
  stored_table cols tbl = tbl → ∀ keep n, Forall (λ s, 0 ≤ s < n) keep →
  Forall2 (λ col d, column_ok col d ∧ zlen d.1 = n) cols tbl →
  Forall2 (λ col d, column_ok col d ∧ zlen d.1 = zlen keep) cols (pick_rows keep <$> tbl) ∧
  stored_table cols (pick_rows keep <$> tbl) = pick_rows keep <$> tbl.
Proof.
  intros Es keep n Hk Hc. revert Es. unfold stored_table. induction Hc as [|col d cols tbl [Hok Hn] Hc IH]; [by split; [constructor|]|].
  rewrite fmap_cons. cbn [zip_with]. intros [= Ed Et]. destruct (IH Et) as [IH1 IH2].
  destruct Hok as (H1 & H2 & H3).
  assert (zlen (pick d.1 keep) = zlen keep) as L1 by (unfold zlen; rewrite length_pick; [done|by rewrite Hn]).
  assert (zlen (pick d.2 keep) = zlen keep) as L2.
  { unfold zlen in *. rewrite length_pick; [done|]. unfold zlen. by rewrite H2, Hn. }
  split.
  - constructor; [|done]. unfold column_ok, pick_rows. cbn [fst snd]. split_and!; [by apply pick_ok|unfold zlen in *; lia|by apply pick_ok|done].
  - rewrite IH2. f_equal. unfold stored_nulls, pick_rows in *. cbn [fst snd] in *. destruct (nullable col); [done|].
    f_equal. assert (d.2 = replicate (length d.1) 0) as -> by (by rewrite <- Ed at 1). unfold zlen in *.
    rewrite pick_replicate by by rewrite Hn. f_equal. lia.
Qed.

Lemma zsum_take_const {A} (l : list A) (c : Z) n : (n ≤ length l)%nat → zsum (take n ((λ _, c) <$> l)) = Z.of_nat n * c.
Proof.
  revert n. induction l as [|x l IH]; intros [|n] Hn; try done; [cbn in Hn; lia|].
  rewrite fmap_cons. cbn [take zsum]. cbn in Hn. rewrite IH by lia. lia.
Qed.

Lemma ids_read buf base ids s v :
  holds buf base (arr 8 ids) → Forall (λ v, - 2 ^ 63 ≤ v < 2 ^ 63) ids → 0 ≤ s → ids !! Z.to_nat s = Some v → load_rowid buf base s = Ok v.
Proof.
  intros Hh Hr Hs Ev. unfold load_rowid, sizeof_RowId. unfold arr in Hh.
  pose proof (mem_read_concat buf base (le_enc 8 <$> ids) (Z.to_nat s) (le_enc 8 v) Hh) as E.
  rewrite list_lookup_fmap, Ev in E. specialize (E eq_refl).
  assert (zsum (take (Z.to_nat s) (zlen <$> (le_enc 8 <$> ids))) = s * 8) as Ez.
  { apply lookup_lt_Some in Ev. rewrite <- list_fmap_compose, (list_fmap_ext _ (λ _, 8)).
    - rewrite zsum_take_const; lia.
    - intros i x _. cbn [compose]. by rewrite zlen_le_enc. }
  rewrite Ez, zlen_le_enc in E. change (Z.of_nat 8) with 8 in E. rewrite E, bind_Ok, le_dec_enc.
  rewrite Forall_lookup in Hr. specialize (Hr _ _ Ev). change (256 ^ Z.of_nat 8) with (2 ^ 64).
  unfold mret, res_ret, to_signed. f_equal. change (2 ^ (64 - 1)) with (2 ^ 63). rewrite Z.mod_mod by lia.
  destruct (Z.ltb_spec (v mod 2 ^ 64) (2 ^ 63)); Z.div_mod_to_equations; lia.
Qed.

Lemma compact_rowids_ok buf old_base ids keep new_base nb :
  holds buf old_base (arr 8 ids) → Forall (λ v, - 2 ^ 63 ≤ v < 2 ^ 63) ids → Forall (λ s, 0 ≤ s < zlen ids) keep →
  0 ≤ new_base → new_base + zlen keep * 8 ≤ Z.of_nat (length nb) → Forall is_byte nb →
  ∃ nb', compact_rowids buf old_base keep new_base nb = Ok nb' ∧ holds nb' new_base (arr 8 (pick ids keep)) ∧
    same_outside nb nb' new_base (new_base + zlen keep * 8) ∧ Forall is_byte nb'.
Proof.
  intros Hh Hr Hk Hb Hfit Hby. unfold compact_rowids.
  destruct (for_range_ok (λ i b, holds b new_base (arr 8 (pick ids (take (Z.to_nat i) keep))) ∧
      same_outside nb b new_base (new_base + i * 8) ∧ Forall is_byte b)
    (λ i nb, s ← vec_get keep i; v ← load_rowid buf old_base s; store_rowid nb new_base i v) (length keep) 0 nb)
    as (nb' & E & Hh' & Hs' & Hb').
  - unfold zlen in Hfit. split; [apply holds_nil; lia|]. split; [apply same_outside_refl|done].
  - intros i b Hi (Hhb & Hsb & Hbb). destruct (vec_get_Ok keep i) as (s & Es & ->); [lia|]. rewrite bind_Ok.
    destruct (lookup_lt_is_Some_2 ids (Z.to_nat s)) as [v Ev].
    { rewrite Forall_lookup in Hk. specialize (Hk _ _ Es). unfold zlen in Hk. lia. }
    rewrite Forall_lookup in Hk. pose proof (Hk _ _ Es) as Hs. rewrite (ids_read buf old_base ids s v) by (done || lia). rewrite bind_Ok.
    unfold store_rowid, sizeof_RowId. pose proof (same_outside_length _ _ _ _ Hsb) as Hl. unfold zlen in Hfit.
    destruct (mem_write_ok b (new_base + i * 8) (le_enc 8 v)) as (b' & Ew & Hw & Hws); [lia|rewrite length_le_enc; lia|].
    exists b'. split; [done|]. rewrite length_le_enc in Hws. change (Z.of_nat 8) with 8 in Hws.
    assert (length (pick ids (take (Z.to_nat i) keep)) = Z.to_nat i) as Hlp.
    { rewrite length_pick; [rewrite length_take; lia|]. apply Forall_take. by apply Forall_lookup. }
    split_and!.
    + replace (Z.to_nat (i + 1)) with (S (Z.to_nat i)) by lia. rewrite (take_S_r _ _ _ Es).
      unfold pick. rewrite omap_app. cbn [omap list_omap]. rewrite Ev. fold (pick ids (take (Z.to_nat i) keep)).
      rewrite arr_app, arr_singleton. apply holds_app. split.
      * apply (holds_same_outside b b' (new_base + i * 8) (new_base + i * 8 + 8)); [done| |done].
        left. rewrite length_arr, Hlp. lia.
      * rewrite length_arr, Hlp. replace (Z.of_nat (8 * Z.to_nat i)) with (i * 8) by lia. done.
    + eapply same_outside_trans; [exact Hsb|exact Hws|lia..].
    + eapply mem_write_bytes; [done|done|apply le_enc_bytes].
  - exists nb'. rewrite Z.add_0_l, Nat2Z.id, firstn_all in *. by split_and!.
Qed.

Lemma kept_cells_sublist (P : Z → Prop) `{∀ s, Decision (P s)} n cols tbl :
  Forall2 (λ col d, column_ok col d ∧ zlen d.1 = n) cols tbl →
  Forall2 (λ d1 d2, d1.1 `sublist_of` d2.1) (pick_rows (filter P (seqZ 0 n)) <$> tbl) tbl.
Proof.
  induction 1 as [|col d cols tbl [_ Hd] _ IH]; [constructor|]. rewrite fmap_cons. constructor; [|done].
  cbn [pick_rows fst]. rewrite <- Hd. apply kept_sublist.
Qed.

Lemma take_drop_app {A} n (l l' : list A) : (n ≤ length l)%nat → take n (take n l ++ l') = take n l ∧ drop n (take n l ++ l') = l'.
Proof.
  intros Hn. split; [rewrite take_app_length' by (rewrite length_take; lia); done|].
  by rewrite drop_app_length' by (rewrite length_take; lia).
Qed.

Lemma compact_filters_ok `{RapidHash} schema (P : Z → Prop) `{∀ s, Decision (P s)} buf old_off n new_off nb tbl :
  let cols := columns schema in let keep := filter P (seqZ 0 n) in let tbl' := pick_rows keep <$> tbl in
  Forall2 (λ col d, column_ok col d ∧ zlen d.1 = n) cols tbl → stored_table cols tbl = tbl → 0 ≤ n →
  all_stored (drop (Z.to_nat old_off) buf) cols tbl 0 → Forall is_byte buf → Forall is_byte nb →
  0 ≤ old_off → old_off + columns_end cols tbl 0 ≤ zlen buf → zlen buf < 2 ^ 32 →
  0 ≤ new_off → new_off + columns_end cols tbl' 0 ≤ zlen nb → zlen nb < 2 ^ 32 →
  ∃ nb', compact_filters schema buf old_off n keep new_off nb = Ok nb' ∧ length nb' = length nb ∧ Forall is_byte nb' ∧
    take (Z.to_nat new_off) nb' = take (Z.to_nat new_off) nb ∧ all_stored (drop (Z.to_nat new_off) nb') cols tbl' 0.
Proof.
  intros cols keep tbl' Hc Est Hn Hst Hbb Hbn Ho Hof Hol Hno Hnf Hnl.
  pose proof (columns_end_0 cols tbl) as Hp. pose proof (columns_end_0 cols tbl') as Hp'.
  assert (Forall2 (λ col d, column_ok col d ∧ length d.1 = Z.to_nat n) cols tbl) as Hc'.
  { eapply Forall2_impl; [exact Hc|]. unfold zlen. cbn. intros col d [? ?]. split; [done|lia]. }
  assert (columns_end cols tbl' 0 ≤ columns_end cols tbl 0) as Hle.
  { apply columns_end_sublist; [|done]. by eapply kept_cells_sublist. }
  pose proof (kept_in_range P n) as Hk. destruct (stored_table_id _ _ Est keep n Hk Hc) as [Hc2 Est2]. fold tbl' in Hc2, Est2.
  pose proof (canon_table_is (Z.to_nat n) cols tbl 0 Hc' ltac:(lia) ltac:(lia)) as Ht. rewrite Est in Ht.
  assert (zlen (drop (Z.to_nat old_off) buf) = zlen buf - old_off) as Ld by (unfold zlen in *; rewrite length_drop; lia).
  assert (zlen (drop (Z.to_nat new_off) nb) = zlen nb - new_off) as Ln by (unfold zlen in *; rewrite length_drop; lia).
  destruct (read_columns_ok (Z.to_nat n) cols _ tbl (drop (Z.to_nat old_off) buf) 0 Ht Hst) as (Er & _); [lia..|].
  rewrite Z2Nat.id in Er by done. unfold compact_filters, read_filter_columns. fold cols. rewrite Er, bind_Ok.
  pose proof (read_columns_bytes _ _ _ _ _ _ Er (Forall_drop _ _ _ Hbb)) as Hraw.
  assert (table_small cols tbl') as Hsm.
  { apply (table_small_of_end _ _ 0); [|lia|lia]. eapply Forall2_impl; [exact Hc2|done]. }
  destruct (select_loop_ok (Z.to_nat n) cols [] _ tbl keep Ht) as (fcs' & Es & Ht'); [by rewrite Z2Nat.id|done|].
  cbn [app] in Es. change (zlen []) with 0 in Es. unfold select_filter_rows. fold cols. rewrite Es, bind_Ok.
  pose proof (select_columns_bytes _ _ _ _ _ Es Hraw) as Hraw'. rewrite Est in Ht'. fold tbl' in Ht'.
  assert (∃ fb p, write_filter_columns (drop (Z.to_nat new_off) nb) (Z.of_nat (length keep)) schema fcs' = Ok (fb, p) ∧
    zlen fb = zlen nb - new_off ∧ all_stored fb cols tbl' 0 ∧ Forall is_byte fb) as (fb & p & -> & Lf & Hs' & Hbf).
  { unfold write_filter_columns. fold cols. case_bool_decide as Ec; cbn [orb].
    { exists (drop (Z.to_nat new_off) nb), 0. rewrite Ec. split_and!; [done|done|done|by apply Forall_drop]. }
    rewrite bool_decide_false by (intros ->; inversion Ht'; congruence).
    destruct (write_columns_ok _ cols [] fcs' tbl' (drop (Z.to_nat new_off) nb) 0 Ht') as (fb & Ew & Hso & Hs'); [lia..|].
    exists fb, (columns_end cols tbl' 0). split_and!; [done| |done|].
    - rewrite <- Ln. unfold zlen. by rewrite (same_outside_length _ _ _ _ Hso).
    - by eapply write_columns_bytes; [exact Ew| |apply Forall_drop]. }
  rewrite bind_Ok. eexists. split; [done|].
  destruct (take_drop_app (Z.to_nat new_off) nb fb) as [Et Ed]; [unfold zlen in *; lia|]. rewrite Et, Ed. split_and!; try done.
  - rewrite length_app, length_take. unfold zlen in *. lia.
  - apply Forall_app. split; [by apply Forall_take|done].
Qed.

(** ** Lemmas: the header *)

Definition fld (bs : list Z) (o w : nat) : Z := le_dec (bytes_at bs o w).

Lemma leaf_header_fields bs :
  leaf_header_of_bytes bs = mkLeafHeader (fld bs 0 4) (fld bs 8 8) (fld bs 16 8) (fld bs 24 2) (fld bs 26 1)
    (fld bs 28 4) (fld bs 32 4) (fld bs 40 8) (fld bs 48 4) (fld bs 52 4) (fld bs 56 8) (fld bs 64 8) (fld bs 72 4)
    (fld bs 76 1) (fld bs 80 8) (fld bs 88 1) (fld bs 89 1) (fld bs 90 2) (fld bs 92 4) (fld bs 96 4) (fld bs 100 4) (fld bs 104 4).
Proof.
  unfold leaf_header_of_bytes, leaf_fields. cbn [fmap list_fmap fst decode_fields].
  rewrite !drop_drop. reflexivity.
Qed.

(** The header after a deletion: new counts, a stale summary, a new checksum. *)
Definition deleted_header (h : TreeLeafHeader) (count npg crc : Z) : TreeLeafHeader :=
  mkLeafHeader (lh_magic h) count (lh_tombstone_count h) (lh_m4 h) (lh_pq_bits h) (lh_block_bytes h)
    (lh_codes_per_block h) npg (lh_summary_size h) (lh_n_filter_columns h) (lh_filter_columns_offset h)
    (lh_payload_extent_page h) (lh_payload_extent_pages h) 1 (lh_next_dirty h) (lh_leaf_state h) (lh_pad1 h)
    (lh_pad2 h) (lh_centroid_offset h) (lh_codebook_offset h) (lh_plane_offset h) crc.

(** A byte of the header no deletion writes. *)
Definition untouched (k : nat) : Prop :=
  (k < 112)%nat ∧ ¬ (8 ≤ k < 16)%nat ∧ ¬ (40 ≤ k < 48)%nat ∧ k ≠ 76%nat ∧ ¬ (104 ≤ k < 108)%nat.

Lemma fld_same b b' o w : length b' = length b ∨ (112 ≤ length b ∧ 112 ≤ length b')%nat ∧ (o + w ≤ 112)%nat →
  (∀ k, (o ≤ k < o + w)%nat → byte_at b' k = byte_at b k) → fld b' o w = fld b o w.
Proof.
  intros Hl Hs. unfold fld. f_equal. apply bytes_ext; unfold bytes_at.
  - rewrite !length_take, !length_drop. lia.
  - intros k Hk. rewrite length_take in Hk. fold (bytes_at b o w) (bytes_at b' o w).
    rewrite !byte_at_bytes_at, !decide_True by lia. apply Hs. lia.
Qed.

Lemma fld_enc b o w z : holds b (Z.of_nat o) (le_enc w z) → 0 ≤ z < 256 ^ Z.of_nat w → fld b o w = z.
Proof.
  intros (_ & _ & E) Hz. rewrite Nat2Z.id, length_le_enc in E. unfold fld. rewrite E. by apply le_dec_enc_small.
Qed.

Lemma deleted_header_ok buf nb n npg crc :
  (112 ≤ length buf)%nat → (112 ≤ length nb)%nat → (∀ k, untouched k → byte_at nb k = byte_at buf k) →
  holds nb count_offset (le_enc 8 n) → holds nb extent_pages_offset (le_enc 8 npg) → holds nb summary_dirty_offset [1] →
  holds nb leaf_crc_offset (le_enc 4 crc) → 0 ≤ n < 2 ^ 64 → 0 ≤ npg < 2 ^ 64 → 0 ≤ crc < 2 ^ 32 →
  leaf_header_of_bytes nb = deleted_header (leaf_header_of_bytes buf) n npg crc.
Proof.
  intros Hl Hl' Hs H1 H2 H3 H4 R1 R2 R3. rewrite !leaf_header_fields. unfold deleted_header.
  cbn [lh_magic lh_count lh_tombstone_count lh_m4 lh_pq_bits lh_block_bytes lh_codes_per_block lh_extent_pages lh_summary_size
    lh_n_filter_columns lh_filter_columns_offset lh_payload_extent_page lh_payload_extent_pages lh_summary_dirty lh_next_dirty
    lh_leaf_state lh_pad1 lh_pad2 lh_centroid_offset lh_codebook_offset lh_plane_offset lh_header_crc].
  assert (fld nb 76 1 = 1) as E76 by exact (fld_enc nb 76 1 1 H3 ltac:(lia)).
  f_equal; try done; try (by apply fld_enc);
    (apply fld_same; [right; lia|intros k Hk; apply Hs; unfold untouched; lia]).
Qed.

Lemma seal_leaf_ok nb npg :
  (112 ≤ length nb)%nat → Forall is_byte nb → 0 ≤ npg < 2 ^ 64 →
  ∃ nb' crc, seal_leaf nb npg = Ok nb' ∧ Forall is_byte nb' ∧ length nb' = length nb ∧ 0 ≤ crc < 2 ^ 32 ∧
    header_crc nb' leaf_crc_offset = Ok crc ∧ holds nb' extent_pages_offset (le_enc 8 npg) ∧
    holds nb' summary_dirty_offset [1] ∧ holds nb' leaf_crc_offset (le_enc 4 crc) ∧
    ∀ k, ¬ (40 ≤ k < 48)%nat → k ≠ 76%nat → ¬ (104 ≤ k < 108)%nat → byte_at nb' k = byte_at nb k.
Proof.
  intros Hl Hb Hn. unfold seal_leaf, extent_pages_offset, summary_dirty_offset, leaf_crc_offset.
  destruct (mem_write_ok nb 40 (le_enc 8 npg)) as (b1 & E1 & H1 & S1); [lia|rewrite length_le_enc; lia|].
  rewrite E1, bind_Ok. pose proof (same_outside_length _ _ _ _ S1) as L1. rewrite length_le_enc in S1.
  destruct (mem_write_ok b1 76 [1]) as (b2 & E2 & H2 & S2); [lia|cbn; lia|].
  rewrite E2, bind_Ok. pose proof (same_outside_length _ _ _ _ S2) as L2. cbn [length] in S2.
  assert (header_crc b2 104 = Ok (compute_crc32 (bytes_at b2 0 104))) as Ec.
  { unfold header_crc, mem_read. rewrite bool_decide_true by lia. by rewrite bind_Ok. }
  rewrite Ec, bind_Ok. set (crc := compute_crc32 _).
  assert (Forall is_byte b1) as B1 by (eapply mem_write_bytes; [done|done|apply le_enc_bytes]).
  assert (Forall is_byte b2) as B2 by (eapply mem_write_bytes; [done|done|by repeat constructor]).
  assert (0 ≤ crc < 2 ^ 32) as Hc by (apply compute_crc32_range; by apply Forall_take, Forall_drop).
  destruct (mem_write_ok b2 104 (le_enc 4 crc)) as (b3 & E3 & H3 & S3); [lia|rewrite length_le_enc; lia|].
  rewrite length_le_enc in S3. pose proof (same_outside_length _ _ _ _ S3) as L3. exists b3, crc. split_and!; try done; try congruence; try lia.
  - eapply mem_write_bytes; [done|done|apply le_enc_bytes].
  - unfold header_crc, mem_read. rewrite bool_decide_true by lia. rewrite bind_Ok. unfold mret, res_ret, crc. do 2 f_equal.
    apply bytes_ext; unfold bytes_at; [rewrite !length_take, !length_drop; lia|].
    intros k Hk. rewrite length_take in Hk. rewrite !drop_0. rewrite !byte_at_take, !decide_True by lia. apply S3. lia.
  - eapply holds_same_outside; [exact S3|rewrite length_le_enc; lia|].
    eapply holds_same_outside; [exact S2|rewrite length_le_enc; lia|done].
  - eapply holds_same_outside; [exact S3|cbn; lia|done].
  - intros k K1 K2 K3. destruct S3 as [_ ->]; [|lia]. destruct S2 as [_ ->]; [|lia]. destruct S1 as [_ ->]; [done|lia].
Qed.

(** ** Lemmas: one leaf *)

Lemma pick_lookup {A} (l : list A) keep :
  Forall (λ s, 0 ≤ s < zlen l) keep → Forall2 (λ k c, 0 ≤ k ∧ l !! Z.to_nat k = Some c) keep (pick l keep).
Proof.
  induction 1 as [|s keep Hs _ IH]; [constructor|]. unfold pick in *. cbn [omap list_omap].
  destruct (lookup_lt_is_Some_2 l (Z.to_nat s)) as [c Ec]; [unfold zlen in Hs; lia|]. rewrite Ec. constructor; [|done]. split; [lia|done].
Qed.

Lemma holds_same b b' off bs :
  holds b off bs → length b' = length b → (∀ k, off ≤ Z.of_nat k → byte_at b' k = byte_at b k) → holds b' off bs.
Proof.
  intros Hh Hl Hs. eapply (holds_same_outside b b' 0 off); [|right; lia|done]. split; [done|]. intros k Hk. destruct Hh. apply Hs. lia.
Qed.

Lemma take_same (b b' : list Z) n k : take n b' = take n b → (k < n)%nat → byte_at b' k = byte_at b k.
Proof. intros E Hk. pose proof (f_equal (λ l, byte_at l k) E) as Ek. cbn beta in Ek. by rewrite !byte_at_take, !decide_True in Ek. Qed.

Lemma drop_same (b b' : list Z) n : length b' = length b → (∀ k, (n ≤ k)%nat → byte_at b' k = byte_at b k) → drop n b' = drop n b.
Proof.
  intros Hl Hs. apply bytes_ext; [by rewrite !length_drop, Hl|]. intros k _. rewrite !byte_at_drop. apply Hs. lia.
Qed.

Section leaf.
Context `{RapidHash} (m4 bits code_size summary_size : Z) (schema : Schema).
Context (Hgeo : geo_ok summary_size m4 bits code_size).
Abbreviation base := (leaf_codes_offset summary_size).
Abbreviation blocks := (blocks bits).
Abbreviation ids_at := (ids_at m4 bits summary_size).
Abbreviation filters_at := (filters_at m4 bits summary_size).
Abbreviation leaf_holds := (leaf_holds m4 bits code_size summary_size schema).
Abbreviation header := leaf_header_of_bytes.

Lemma base_behind : 112 + summary_size ≤ base < 2 ^ 33.
Proof.
  pose proof (base_pos _ _ _ _ Hgeo). destruct (go_summary _ _ _ _ Hgeo). unfold leaf_codes_offset, sizeof_TreeLeafHeader in *.
  destruct (align8 (112 + summary_size)) as (q & E & ?); [lia|]. rewrite E in *. lia.
Qed.

Lemma blocks_ok n : 0 ≤ n < 2 ^ 32 - 32 → 0 ≤ blocks n < 2 ^ 28 ∧ base ≤ ids_at n < 2 ^ 49.
Proof.
  intros Hn. destruct (nb_ok bits n Hn) as [Hb _]. fold (blocks n) in Hb. split; [done|]. unfold CompactLeaf.ids_at, area_end.
  pose proof (go_m4 _ _ _ _ Hgeo). pose proof base_behind. nia.
Qed.

Lemma ids_at_mono n n' : 0 ≤ n' ≤ n → n < 2 ^ 32 - 32 → ids_at n' ≤ ids_at n.
Proof.
  intros Hn Hm. unfold CompactLeaf.ids_at, area_end, CompactLeaf.blocks. pose proof (go_m4 _ _ _ _ Hgeo).
  pose proof (cpb_pos bits). rewrite !u32_id by lia.
  assert ((n' + codes_per_block bits - 1) / codes_per_block bits ≤ (n + codes_per_block bits - 1) / codes_per_block bits)
    by (apply Z.div_le_mono; lia). nia.
Qed.

Lemma coder_bytes n fcb : 0 ≤ n < 2 ^ 32 - 32 → 0 ≤ fcb < 2 ^ 40 → coder_extent_bytes m4 bits summary_size n fcb = filters_at n + fcb.
Proof.
  intros Hn Hf. destruct (n_blocks_ok n _ Hn (codes_per_block_range bits)) as (E & Hb & _).
  pose proof (blocks_ok n Hn) as [_ Hi]. pose proof (go_m4 _ _ _ _ Hgeo). pose proof base_behind.
  unfold coder_extent_bytes, leaf_extent_bytes. cbv zeta. rewrite E. fold (blocks n) in *.
  unfold CompactLeaf.filters_at, CompactLeaf.ids_at, area_end, sizeof_RowId in *.
  assert (0 ≤ blocks n * (m4 * 16) < 2 ^ 48) by nia. destruct (go_summary _ _ _ _ Hgeo).
  rewrite (u64_id (n * 8)), (u64_id (blocks n * (m4 * 16))) by lia. apply u64_id. lia.
Qed.

Lemma geometry_at h n :
  lh_count h = n → lh_m4 h = m4 → lh_pq_bits h = bits → lh_summary_size h = summary_size → 0 ≤ n < 2 ^ 32 - 32 →
  rowids_offset (geometry h) = ids_at n ∧ filter_offset (geometry h) = filters_at n.
Proof.
  intros E1 E2 E3 E4 Hn. pose proof (blocks_ok n Hn) as [Hb Hi]. pose proof (go_m4 _ _ _ _ Hgeo). pose proof (cpb_pos bits).
  unfold geometry. cbn [rowids_offset filter_offset]. rewrite E1, E2, E3, E4.
  assert (u64 (n + codes_per_block bits - 1) / codes_per_block bits = blocks n) as ->.
  { unfold CompactLeaf.blocks. by rewrite u64_id, u32_id by lia. }
  rewrite (u32_id (m4 * 16)), (rowids_at _ _ _ _ Hgeo) by lia. fold (ids_at n). split; [done|].
  unfold CompactLeaf.filters_at, sizeof_RowId. rewrite (u64_id (n * 8)) by lia. apply u64_id. pose proof base_behind.
  destruct (go_summary _ _ _ _ Hgeo). lia.
Qed.

(** The sizes of a leaf. *)
Lemma leaf_sizes buf rows :
  leaf_holds buf rows → 0 ≤ n_rows rows < 2 ^ 30 ∧ (112 ≤ length buf)%nat ∧ Z.of_nat (length buf) < 2 ^ 32 ∧
  112 + summary_size ≤ base ≤ ids_at (n_rows rows) ∧ 0 ≤ columns_end (columns schema) (r_cells rows) 0 ∧
  filters_at (n_rows rows) + columns_end (columns schema) (r_cells rows) 0 ≤ Z.of_nat (length buf).
Proof.
  intros Hl. pose proof (lw_length _ _ _ _ _ _ _ Hl) as L. pose proof (lw_pages _ _ _ _ _ _ _ Hl) as P.
  destruct (lw_ids _ _ _ _ _ _ _ Hl) as [_ (Hi1 & Hi2 & _)]. destruct (lw_filters _ _ _ _ _ _ _ Hl) as [_ Hf].
  rewrite length_arr in Hi2. pose proof (columns_end_0 (columns schema) (r_cells rows)). unfold kPageSize in L.
  assert (0 ≤ n_rows rows) by (unfold n_rows, zlen; lia).
  assert (n_rows rows < 2 ^ 30) by (unfold n_rows, zlen in *; lia).
  destruct (blocks_ok (n_rows rows)); [lia|]. pose proof base_behind. destruct (go_summary _ _ _ _ Hgeo).
  split_and!; try done; try lia.
Qed.

(** The regions behind header and summary hold the rows. *)
Record regions_hold (nb : list Z) (rows : leaf_rows) : Prop := {
  rg_codes : stores_leaf summary_size m4 bits code_size (blocks (n_rows rows)) nb (r_codes rows);
  rg_ids : holds nb (ids_at (n_rows rows)) (arr 8 (r_ids rows));
  rg_filters : all_stored (drop (Z.to_nat (filters_at (n_rows rows))) nb) (columns schema) (r_cells rows) 0;
}.

Lemma regions_same nb nb' rows :
  regions_hold nb rows → 0 ≤ n_rows rows < 2 ^ 32 - 32 → Forall is_byte nb' → length nb' = length nb →
  (∀ k, (112 ≤ k)%nat → byte_at nb' k = byte_at nb k) → regions_hold nb' rows.
Proof.
  intros [R1 R2 R3] Hn Hb Hl Hs. destruct (blocks_ok _ Hn) as [_ Hi]. pose proof base_behind. destruct (go_summary _ _ _ _ Hgeo). split.
  - eapply stores_same; [done..|]. intros k Hk. apply Hs. lia.
  - eapply holds_same; [done..|]. intros k Hk. apply Hs. lia.
  - rewrite (drop_same nb nb'); [done..|]. intros k Hk. apply Hs. unfold CompactLeaf.filters_at, sizeof_RowId in Hk. lia.
Qed.

Lemma head_ok buf len n :
  Forall is_byte buf → 112 + summary_size ≤ Z.of_nat (length buf) → 112 + summary_size ≤ len →
  ∃ head nb1 nb2, mem_read buf 0 (u64 (sizeof_TreeLeafHeader + summary_size)) = Ok head ∧
    mem_write (replicate (Z.to_nat len) 0) 0 head = Ok nb1 ∧ mem_write nb1 count_offset (le_enc 8 n) = Ok nb2 ∧
    Z.of_nat (length nb2) = len ∧ Forall is_byte nb2 ∧ holds nb2 count_offset (le_enc 8 n) ∧
    (∀ k, Z.of_nat k < 112 + summary_size → ¬ (8 ≤ k < 16)%nat → byte_at nb2 k = byte_at buf k) ∧
    (∀ k, 112 + summary_size ≤ Z.of_nat k → byte_at nb2 k = 0).
Proof.
  intros Hb Hl Hl'. destruct (go_summary _ _ _ _ Hgeo). unfold sizeof_TreeLeafHeader, count_offset. rewrite u64_id by lia.
  set (m := Z.to_nat (112 + summary_size)). exists (take m buf).
  assert (mem_read buf 0 (112 + summary_size) = Ok (take m buf)) as ->.
  { unfold mem_read. rewrite bool_decide_true by lia. by rewrite bytes_at_0. }
  assert (length (take m buf) = m) as Lm by (rewrite length_take; unfold m; lia).
  destruct (mem_write_ok (replicate (Z.to_nat len) 0) 0 (take m buf)) as (nb1 & E1 & (_ & _ & Hh1) & S1);
    [lia|rewrite Lm, length_replicate; unfold m; lia|].
  pose proof (same_outside_length _ _ _ _ S1) as L1. rewrite length_replicate in L1. rewrite Lm in Hh1, S1. cbn in Hh1.
  destruct (mem_write_ok nb1 8 (le_enc 8 n)) as (nb2 & E2 & Hh2 & S2); [lia|rewrite length_le_enc; lia|].
  pose proof (same_outside_length _ _ _ _ S2) as L2. rewrite length_le_enc in S2.
  exists nb1, nb2. split_and!; try done; try lia.
  - eapply mem_write_bytes; [done| |apply le_enc_bytes]. eapply mem_write_bytes; [done|by apply Forall_replicate|by apply Forall_take].
  - intros k Hk Hc. destruct S2 as [_ ->]; [|lia]. pose proof (f_equal (λ l, byte_at l k) Hh1) as Ek. cbn beta in Ek.
    rewrite bytes_at_0, !byte_at_take, !decide_True in Ek by (unfold m; lia). done.
  - intros k Hk. destruct S2 as [_ ->]; [|lia]. destruct S1 as [_ ->]; [|unfold m; lia]. apply byte_at_zeros.
Qed.

Lemma fld_head buf nb2 nb o w :
  (112 ≤ length buf)%nat → (112 ≤ length nb)%nat → (o + w ≤ 112)%nat → (o + w ≤ 8 ∨ 16 ≤ o)%nat → 0 ≤ summary_size →
  (∀ k, Z.of_nat k < 112 + summary_size → ¬ (8 ≤ k < 16)%nat → byte_at nb2 k = byte_at buf k) →
  (∀ k, (k < 112)%nat → byte_at nb k = byte_at nb2 k) → fld nb o w = fld buf o w.
Proof. intros L1 L2 R1 R2 R3 Hs Hs2. apply fld_same; [by right|]. intros k Hk. by rewrite Hs2, Hs by lia. Qed.

Lemma header_geometry buf nb2 nb rows n :
  leaf_holds buf rows → (112 ≤ length nb)%nat → holds nb2 count_offset (le_enc 8 n) → length nb = length nb2 → 0 ≤ n < 2 ^ 32 - 32 →
  (∀ k, Z.of_nat k < 112 + summary_size → ¬ (8 ≤ k < 16)%nat → byte_at nb2 k = byte_at buf k) →
  (∀ k, (k < 112)%nat → byte_at nb k = byte_at nb2 k) →
  ∃ hdr, mem_read nb 0 sizeof_TreeLeafHeader = Ok hdr ∧
    rowids_offset (geometry (header hdr)) = ids_at n ∧ filter_offset (geometry (header hdr)) = filters_at n.
Proof.
  intros Hl L Hc Ln Hn Hs Hs2. destruct (leaf_sizes _ _ Hl) as (_ & Lb & _). destruct (go_summary _ _ _ _ Hgeo) as [Hss _].
  exists (take 112 nb). split; [unfold mem_read, sizeof_TreeLeafHeader; rewrite bool_decide_true by lia; by rewrite bytes_at_0|].
  assert (∀ o w, (o + w ≤ 112)%nat → fld (take 112 nb) o w = fld nb o w) as Ht.
  { intros o w How. apply fld_same; [right; rewrite length_take; lia|]. intros k Hk. rewrite byte_at_take, decide_True by lia. done. }
  apply geometry_at; [..|done]; rewrite leaf_header_fields; cbn [lh_count lh_m4 lh_pq_bits lh_summary_size]; rewrite Ht by lia.
  - apply fld_enc; [|lia]. eapply (holds_same_outside nb2 nb 112 (Z.of_nat (length nb))); [|left; rewrite length_le_enc; unfold count_offset; lia|exact Hc].
    split; [done|]. intros k [Hk|Hk]; [apply Hs2; lia|]. by rewrite !byte_at_ge by lia.
  - rewrite (fld_head buf nb2 nb) by (done || lia). rewrite <- (lw_m4 _ _ _ _ _ _ _ Hl), leaf_header_fields. done.
  - rewrite (fld_head buf nb2 nb) by (done || lia). rewrite <- (lw_bits _ _ _ _ _ _ _ Hl), leaf_header_fields. done.
  - rewrite (fld_head buf nb2 nb) by (done || lia). rewrite <- (lw_summary _ _ _ _ _ _ _ Hl), leaf_header_fields. done.
Qed.

(** The regions, one after the other. *)
Lemma regions_ok buf rows (P : Z → Prop) `{∀ s, Decision (P s)} ofb nb2 :
  let n := n_rows rows in let keep := filter P (seqZ 0 n) in let n' := zlen keep in
  leaf_holds buf rows → n' ≠ n → columns_end (columns schema) (r_cells rows) 0 ≤ ofb → 0 < ofb ∨ columns schema = [] →
  holds nb2 count_offset (le_enc 8 n') → filters_at n' + ofb ≤ zlen nb2 → zlen nb2 < 2 ^ 32 → Forall is_byte nb2 →
  (∀ k, Z.of_nat k < 112 + summary_size → ¬ (8 ≤ k < 16)%nat → byte_at nb2 k = byte_at buf k) →
  (∀ k, 112 + summary_size ≤ Z.of_nat k → byte_at nb2 k = 0) →
  ∃ nb3 nb4 nb5 hdr, compact summary_size m4 bits buf keep nb2 = Ok nb3 ∧
    mem_read nb3 0 sizeof_TreeLeafHeader = Ok hdr ∧ rowids_offset (geometry (header hdr)) = ids_at n' ∧
    filter_offset (geometry (header hdr)) = filters_at n' ∧
    compact_rowids buf (ids_at n) keep (ids_at n') nb3 = Ok nb4 ∧
    (if 0 <? ofb then compact_filters schema buf (filters_at n) n keep (filters_at n') nb4 else mret nb4) = Ok nb5 ∧
    regions_hold nb5 (pick_all keep rows) ∧ length nb5 = length nb2 ∧ Forall is_byte nb5 ∧
    (∀ k, Z.of_nat k < 112 + summary_size → byte_at nb5 k = byte_at nb2 k).
Proof.
  intros n keep n' Hl Hne Hofb Hpos Hcnt Hfit Hlt Hb2 Hhd Hz.
  destruct (leaf_sizes _ _ Hl) as (Hn & Lb & Lb2 & Hbase & Hce & Hlen). fold n in Hn, Hbase, Hlen.
  pose proof (kept_in_range P n) as Hk. fold keep in Hk.
  assert (0 ≤ n' ≤ n) as Hn'.
  { pose proof (zlen_sublist _ _ (sublist_filter P (seqZ 0 n))) as Hs. unfold n', zlen in *. rewrite length_seqZ in Hs. fold keep in Hs. lia. }
  pose proof (ids_at_mono n n' Hn' ltac:(lia)) as Him. destruct (blocks_ok n') as [_ Hb']; [lia|].
  destruct (lw_codes _ _ _ _ _ _ _ Hl) as (Hlc & Hclean & Hst). destruct (lw_ids _ _ _ _ _ _ _ Hl) as [Hir Hih].
  destruct (lw_cells _ _ _ _ _ _ _ Hl) as [Hcells Est]. destruct (lw_filters _ _ _ _ _ _ _ Hl) as [Hfs _]. fold n in Hlc, Hst, Hih, Hcells, Hfs.
  destruct (go_summary _ _ _ _ Hgeo) as [Hss _]. pose proof base_behind as Hbb.
  assert (n_rows (pick_all keep rows) = n') as En' by (unfold n_rows, pick_all, zlen; cbn; rewrite length_pick by done; done).
  unfold CompactLeaf.filters_at, sizeof_RowId in Hfit, Hlen.
  destruct (compact_stores _ _ _ _ Hgeo buf (r_codes rows) keep (pick (r_codes rows) keep) nb2) as (nb3 & E3 & Hst3 & S3).
  { unfold zlen in Hlc. by rewrite Hlc. } { unfold zlen in Hlc. lia. } { done. } { apply pick_lookup. by rewrite Hlc. } { fold n'. unfold zlen in n'. lia. } { done. }
  { change (area_end summary_size m4 _) with (ids_at n'). unfold zlen in Hfit. lia. } { intros k Hkk. apply Hz. lia. }
  change (u32 (Z.of_nat (length keep) + codes_per_block bits - 1) / codes_per_block bits) with (blocks n') in Hst3, S3.
  change (area_end summary_size m4 (blocks n')) with (ids_at n') in S3. pose proof (same_outside_length _ _ _ _ S3) as L3.
  destruct (header_geometry buf nb2 nb3 rows n' Hl) as (hdr & Eh & Eg1 & Eg2); [unfold zlen in Hfit; lia|done|done|lia|done| |].
  { intros k Hkk. apply S3. lia. }
  pose proof (proj1 (proj1 Hst3)) as Hb3.
  destruct (compact_rowids_ok buf (ids_at n) (r_ids rows) keep (ids_at n') nb3) as (nb4 & E4 & Hih4 & S4 & Hb4);
    [done|done|done|lia|rewrite L3; unfold zlen in *; lia|done|]. fold n' in S4. pose proof (same_outside_length _ _ _ _ S4) as L4.
  assert (∃ nb5, (if 0 <? ofb then compact_filters schema buf (filters_at n) n keep (filters_at n') nb4 else mret nb4) = Ok nb5 ∧
    length nb5 = length nb4 ∧ Forall is_byte nb5 ∧ take (Z.to_nat (filters_at n')) nb5 = take (Z.to_nat (filters_at n')) nb4 ∧
    all_stored (drop (Z.to_nat (filters_at n')) nb5) (columns schema) (pick_rows keep <$> r_cells rows) 0) as (nb5 & E5 & L5 & Hb5 & T5 & Hf5).
  { destruct (Z.ltb_spec 0 ofb).
    - pose proof (columns_end_sublist (columns schema) _ _ 0 0 (kept_cells_sublist P n _ _ Hcells) ltac:(lia)) as Hcs. fold keep in Hcs.
      apply compact_filters_ok; try done; unfold zlen in *; unfold CompactLeaf.filters_at, sizeof_RowId; fold keep; first [lia|apply Hl].
    - destruct Hpos as [|Hc]; [lia|]. exists nb4. rewrite Hc. by split_and!. }
  exists nb3, nb4, nb5, hdr. split_and!; try done.
  - assert (same_outside nb3 nb5 (ids_at n') (Z.of_nat (length nb2))) as S35.
    { split; [congruence|]. intros k [Hkk|Hkk]; [|by rewrite !byte_at_ge by lia].
      rewrite (take_same nb4 nb5 (Z.to_nat (filters_at n'))) by (done || unfold CompactLeaf.filters_at, sizeof_RowId; lia). apply S4. lia. }
    split; rewrite ?En'; cbn [pick_all r_codes r_ids r_cells].
    + eapply (stores_same _ _ _ _ Hgeo); [exact Hst3|done|congruence|]. intros k Hkk. apply S35. change (area_end summary_size m4 (blocks n')) with (ids_at n') in Hkk. lia.
    + eapply (holds_same_outside nb4 nb5 (filters_at n') (Z.of_nat (length nb4))); [|left|done].
      * split; [done|]. intros k [Hkk|Hkk]; [|by rewrite !byte_at_ge by lia]. apply (take_same nb4 nb5 (Z.to_nat (filters_at n'))); [done|lia].
      * rewrite length_arr, length_pick by done. unfold CompactLeaf.filters_at, sizeof_RowId. unfold n', zlen. lia.
    + done.
  - congruence.
  - intros k Hkk. rewrite (take_same nb4 nb5 (Z.to_nat (filters_at n'))) by (done || unfold CompactLeaf.filters_at, sizeof_RowId; lia).
    destruct S4 as [_ ->]; [|lia]. apply S3. lia.
Qed.

Lemma kept_shorter (P : Z → Prop) `{∀ s, Decision (P s)} n : 0 ≤ n → 0 ≤ zlen (filter P (seqZ 0 n)) ≤ n.
Proof.
  intros Hn. pose proof (zlen_sublist _ _ (sublist_filter P (seqZ 0 n))) as Hs. unfold zlen in *. rewrite length_seqZ in Hs. lia.
Qed.

(** The pages of the compacted leaf: enough, and no more than before. *)
Lemma compact_sizes buf rows n' :
  let h := header buf in let n := n_rows rows in
  let ofb := if negb (lh_filter_columns_offset h =? 0)
             then u64 (u64 (lh_extent_pages h * kPageSize) - coder_extent_bytes m4 bits summary_size n 0) else 0 in
  let npg := u32 (u64 (coder_extent_bytes m4 bits summary_size n' ofb + kPageSize - 1) / kPageSize) in
  leaf_holds buf rows → 0 ≤ n' < n →
  columns_end (columns schema) (r_cells rows) 0 ≤ ofb ∧ (0 < ofb ∨ columns schema = []) ∧
  0 < npg ≤ lh_extent_pages h ∧ filters_at n' + ofb ≤ npg * kPageSize ∧ 112 + summary_size ≤ npg * kPageSize.
Proof.
  intros h n ofb npg Hl Hn'. destruct (leaf_sizes _ _ Hl) as (Hn & Lb & Lb2 & Hbase & Hce & Hlen). fold n in Hn, Hbase, Hlen.
  pose proof (lw_length _ _ _ _ _ _ _ Hl) as L. pose proof (lw_pages _ _ _ _ _ _ _ Hl) as Pg. fold h in L, Pg.
  destruct (go_summary _ _ _ _ Hgeo) as [Hss _]. destruct (lw_cells _ _ _ _ _ _ _ Hl) as [Hcells _]. fold n in Hcells.
  assert (filters_at n = ids_at n + n * 8) as Ef by done. assert (filters_at n' = ids_at n' + n' * 8) as Ef' by done.
  pose proof (ids_at_mono n n' ltac:(lia) ltac:(lia)). destruct (blocks_ok n') as [_ Hb']; [lia|].
  assert (0 ≤ ofb ∧ columns_end (columns schema) (r_cells rows) 0 ≤ ofb ∧ filters_at n + ofb ≤ Z.of_nat (length buf)) as (Ho & Hco & Hfo).
  { unfold ofb. destruct (Z.eqb_spec (lh_filter_columns_offset h) 0) as [E0|E0]; cbn [negb].
    - destruct (lw_filtered _ _ _ _ _ _ _ Hl) as [Hf|Hf]; [done|]. rewrite Hf. cbn [columns_end]. rewrite Ef. lia.
    - rewrite coder_bytes, Z.add_0_r, <- L, (u64_id (Z.of_nat _)), u64_id by lia. lia. }
  clearbody ofb. unfold kPageSize in L.
  assert (coder_extent_bytes m4 bits summary_size n' ofb = filters_at n' + ofb) as Eb by (apply coder_bytes; lia).
  unfold npg. rewrite Eb. fold (pages_of (filters_at n' + ofb)). destruct (pages_of_ok (filters_at n' + ofb)) as [Hp1 Hp2]; [lia|].
  unfold kPageSize in *. rewrite u32_id by lia. split_and!; try lia.
  destruct (decide (columns schema = [])) as [|Hne]; [by right|left].
  pose proof (columns_end_pos n _ _ ltac:(lia) Hcells Hne). lia.
Qed.

Lemma header_take buf : header (take 112 buf) = header buf.
Proof.
  rewrite !leaf_header_fields. f_equal; unfold fld; f_equal; unfold bytes_at; rewrite skipn_firstn_comm, firstn_firstn; f_equal; lia.
Qed.

(** What a compaction makes of a leaf: the rows kept, no more pages than before, the
    summary and the other fields of the header untouched, the checksum right. *)
Definition compacted buf rows keep nb npg : Prop :=
  leaf_holds nb (pick_all keep rows) ∧ 0 < npg ≤ lh_extent_pages (header buf) ∧ Z.of_nat (length nb) = npg * kPageSize ∧
  (∃ crc, header nb = deleted_header (header buf) (zlen keep) npg crc ∧ header_crc nb leaf_crc_offset = Ok crc) ∧
  ∀ k, (112 ≤ k)%nat → Z.of_nat k < 112 + summary_size → byte_at nb k = byte_at buf k.

Lemma pick_all_holds nb nb5 buf rows keep npg crc :
  leaf_holds buf rows → Forall (λ s, 0 ≤ s < n_rows rows) keep → regions_hold nb5 (pick_all keep rows) → Forall is_byte nb → length nb = length nb5 →
  (∀ k, (112 ≤ k)%nat → byte_at nb k = byte_at nb5 k) → header nb = deleted_header (header buf) (zlen keep) npg crc →
  Z.of_nat (length nb) = npg * kPageSize → 0 < npg < 2 ^ 20 → zlen keep ≤ n_rows rows →
  filters_at (zlen keep) + columns_end (columns schema) (pick_rows keep <$> r_cells rows) 0 ≤ Z.of_nat (length nb) →
  leaf_holds nb (pick_all keep rows).
Proof.
  intros Hl Hk Hr Hb Hlen Hs Eh Hpg Hp Hkn Hfit. destruct (leaf_sizes _ _ Hl) as (Hn & _).
  assert (n_rows (pick_all keep rows) = zlen keep) as En by (unfold n_rows, pick_all, zlen; cbn; rewrite length_pick by done; done).
  destruct (lw_codes _ _ _ _ _ _ _ Hl) as (Hlc & Hclean & _). destruct (lw_ids _ _ _ _ _ _ _ Hl) as [Hir _].
  destruct (lw_cells _ _ _ _ _ _ _ Hl) as [Hcells Est]. destruct (stored_table_id _ _ Est keep _ Hk Hcells) as [Hc2 Est2].
  pose proof (regions_same nb5 nb _ Hr ltac:(rewrite En; unfold zlen in *; lia) Hb Hlen Hs) as [R1 R2 R3].
  rewrite En in R1, R2, R3. assert (zlen (pick (r_codes rows) keep) = zlen keep) as Lc.
  { unfold zlen in *. rewrite length_pick; [done|]. unfold zlen. by rewrite Hlc. }
  pose proof (pick_ok _ _ keep Hclean). pose proof (pick_ok _ _ keep Hir).
  destruct Hl. split; rewrite ?Eh, ?En;
    cbn [deleted_header lh_extent_pages lh_count lh_m4 lh_pq_bits lh_summary_size lh_filter_columns_offset pick_all r_codes r_ids r_cells]; try done; by split_and!.
Qed.

Lemma compact_leaf_ok buf rows slots :
  let keep := slots_kept (n_rows rows) slots in
  leaf_holds buf rows → zlen keep ≠ n_rows rows →
  ∃ nb npg, compact_leaf m4 bits summary_size schema buf slots = Ok (Some (nb, npg)) ∧ compacted buf rows keep nb npg.
Proof.
  intros keep Hl Hne. destruct (leaf_sizes _ _ Hl) as (Hn & Lb & Lb2 & Hbase & Hce & Hlen).
  set (P := λ s, s ∉ slots). pose proof (kept_shorter P (n_rows rows) ltac:(lia)) as Hkn. pose proof (kept_in_range P (n_rows rows)) as Hk.
  change (filter P (seqZ 0 (n_rows rows))) with keep in Hkn, Hk.
  destruct (compact_sizes buf rows (zlen keep) Hl ltac:(lia)) as (S1 & S2 & S3 & S4 & S5).
  pose proof (lw_count _ _ _ _ _ _ _ Hl) as Ec. pose proof (lw_bytes _ _ _ _ _ _ _ Hl) as Hb. pose proof (lw_pages _ _ _ _ _ _ _ Hl) as Hpg.
  unfold compact_leaf. assert (mem_read buf 0 sizeof_TreeLeafHeader = Ok (take 112 buf)) as ->.
  { unfold mem_read, sizeof_TreeLeafHeader. rewrite bool_decide_true by lia. by rewrite bytes_at_0. }
  rewrite bind_Ok, header_take, Ec, (u32_id (n_rows rows)) by lia. fold keep. unfold zlen in Hne, Hkn.
  rewrite (proj2 (Z.eqb_neq _ _)) by done. cbv zeta.
  set (ofb := if negb _ then _ else _) in *. fold (zlen keep) in *. set (npg := u32 _) in *.
  assert (112 + summary_size ≤ Z.of_nat (length buf)) as Hl112 by (unfold CompactLeaf.filters_at, sizeof_RowId in Hlen; lia).
  destruct (go_summary _ _ _ _ Hgeo) as [Hss _].
  destruct (head_ok buf (npg * kPageSize) (zlen keep)) as (hd & nb1 & nb2 & -> & E1 & E2 & L2 & B2 & H2 & Hs2 & Hz2); [done|lia|lia|].
  rewrite bind_Ok, E1, bind_Ok, E2, bind_Ok.
  rewrite (lw_summary _ _ _ _ _ _ _ Hl), (lw_m4 _ _ _ _ _ _ _ Hl), (lw_bits _ _ _ _ _ _ _ Hl).
  destruct (regions_ok buf rows P ofb nb2 Hl) as (nb3 & nb4 & nb5 & hdr & E3 & Eh & Eg1 & Eg2 & E4 & E5 & Hr5 & L5 & B5 & Hs5); try done.
  { change (filter P (seqZ 0 (n_rows rows))) with keep. unfold zlen at 2. lia. } { unfold zlen. unfold kPageSize in *. lia. }
  change (filter P (seqZ 0 (n_rows rows))) with keep in *.
  rewrite E3, bind_Ok, Eh, bind_Ok, Eg1, Eg2.
  destruct (geometry_at (header buf) (n_rows rows)) as [-> ->]; [apply Hl..|lia|].
  rewrite E4, bind_Ok, E5, bind_Ok.
  destruct (seal_leaf_ok nb5 npg) as (nb6 & crc & E6 & B6 & L6 & Hcrc & Ecrc & K1 & K2 & K3 & K4); [unfold kPageSize in *; lia|done|lia|].
  rewrite E6, bind_Ok. exists nb6, npg. split; [done|].
  assert (holds nb6 count_offset (le_enc 8 (zlen keep))) as K0.
  { eapply (holds_same_outside nb2 nb6 16 (Z.of_nat (length nb2))); [|left; rewrite length_le_enc; unfold count_offset; lia|exact H2].
    split; [congruence|]. intros k [Hk8|Hk8]; [rewrite K4, Hs5 by lia; done|by rewrite !byte_at_ge by lia]. }
  assert (header nb6 = deleted_header (header buf) (zlen keep) npg crc) as Eh6.
  { apply deleted_header_ok; try done; try lia; try (unfold zlen, kPageSize in *; lia). intros k (U1 & U2 & U3 & U4 & U5).
    rewrite K4, Hs5, Hs2 by (done || lia). done. }
  split; [|split; [done|split; [lia|split; [by exists crc|]]]].
  - eapply (pick_all_holds nb6 nb5); try done; try lia.
    + intros k Hk'. apply K4; lia.
    + assert (columns_end (columns schema) (pick_rows keep <$> r_cells rows) 0 ≤ columns_end (columns schema) (r_cells rows) 0); [|lia].
      apply columns_end_sublist; [|done]. unfold keep. destruct (lw_cells _ _ _ _ _ _ _ Hl) as [Hcells _].
      exact (kept_cells_sublist P _ _ _ Hcells).
  - intros k Hk' Hk2. rewrite K4, Hs5, Hs2 by lia. done.
Qed.
End leaf.
