(* ===== verification/DeleteBatch.v ===== *)
(** * DeleteBatch: deleting rows ([IVFTreeIndex::delete_batch] of
    [src/tree/ivf_tree_mutate.cpp])

    The leaves are scanned for the ids, every leaf with one is compacted and written
    back, and the mutation is committed.  The order in which the hash map of leaves
    is walked is a parameter. *)
From S2P Require Import Prelude PageFile TreeNodes PageAllocator Superblock Ownership LeafStore LeafStoreSafety LeafStoreCommit LeafStoreRuns.
From S2P Require Import FastScanCodes FastScanLeaves Schema FilterHash FilterColumns CompactLeaf.

Inductive CoderFamily := GlobalPq | LocalPq | ScalarLm | LocalScalar.
#[export] Instance CoderFamily_eq_dec : EqDecision CoderFamily.
Proof. solve_decision. Defined.

Section delete.
Context `{PageStore F, RapidHash} (manifest_to_toml : Z → list Z).
Context (family : CoderFamily) (params_m4 params_pq_bits summary_size : Z) (schema : Schema).
Implicit Types (ix : IVFTreeIndex F) (alloc : PageAllocator).

(** ** Finding the slots *)

(** [row_to_leaf_slot] and [leaf_deletes]. *)
Definition delete_maps : Type := gmap Z (Z * Z) * gmap Z (list Z).

Definition note_slot (lid : Z) (buf : list Z) (rids s : Z) (st : delete_maps) : res delete_maps :=
  rid ← load_rowid buf rids s;
  mret (match st.1 !! rid with
        | Some _ => (<[rid := (lid, s)]> st.1, <[lid := default [] (st.2 !! lid) ++ [s]]> st.2)
        | None => st
        end).

Definition scan_leaf ix (lid : Z) (st : delete_maps) : res delete_maps :=
  buf ← read_leaf_ ix lid;
  hdr ← mem_read buf 0 sizeof_TreeLeafHeader;
  let lh := leaf_header_of_bytes hdr in
  let count := u32 (lh_count lh) in
  if count =? 0 then mret st
  else for_range (Z.to_nat count) 0 (note_slot lid buf (rowids_offset (geometry lh))) st.

Definition find_slots ix (row_ids : list Z) : res delete_maps :=
  for_range (length (leaf_table_ ix)) 0 (scan_leaf ix)
    (foldl (λ m rid, <[rid := (UINT32_MAX, UINT32_MAX)]> m) ∅ row_ids, ∅).

Definition not_found (slots : gmap Z (Z * Z)) (row_ids : list Z) : Z :=
  zlen (filter (λ rid, (default (0, 0) (slots !! rid)).1 = UINT32_MAX) row_ids).

(** ** Rewriting the leaves *)

Definition delete_leaf (leaf_id : Z) (slots : list Z) ix alloc : res (IVFTreeIndex F * PageAllocator) :=
  buf ← read_leaf_ ix leaf_id;
  r ← compact_leaf params_m4 params_pq_bits summary_size schema buf slots;
  match r with
  | None => mret (ix, alloc)
  | Some (nb, npg) => write_leaf_ ix leaf_id nb npg alloc
  end.

Fixpoint delete_leaves (l : list (Z * list Z)) ix alloc : res (IVFTreeIndex F * PageAllocator) :=
  match l with
  | [] => mret (ix, alloc)
  | (lid, slots) :: l => '(ix, alloc) ← delete_leaf lid slots ix alloc; delete_leaves l ix alloc
  end.

(** ** The handler; [order] is how the hash map is walked *)

Context (plane : bool) (order : gmap Z (list Z) → list (Z * list Z)).

Definition delete_batch ix (row_ids : list Z) : res (IVFTreeIndex F) :=
  if bool_decide (row_ids = []) then mret ix
  else if plane then throw NotImplemented
  else if has_payload schema then throw NotImplemented
  else if negb (bool_decide (family = GlobalPq)) then throw NotImplemented
  else
    '(slots, leaf_deletes) ← find_slots ix row_ids;
    if bool_decide (leaf_deletes = ∅) then mret ix
    else
      let ix := with_n_vectors ix (u64 (mf_n_vectors ix - u64 (zlen row_ids - not_found slots row_ids))) in
      alloc ← load_allocator ix;
      '(ix, alloc) ← delete_leaves (order leaf_deletes) ix alloc;
      '(ix, _) ← commit_mutable_ manifest_to_toml ix alloc;
      mret ix.
End delete.

(** ** Lemmas: rows *)

Lemma kept_ids del ids : pick ids (kept_slots del ids) = filter (λ v, v ∉ del) ids.
Proof.
  unfold kept_slots. assert (∀ pre, pick (pre ++ ids) (filter (λ s, default 0 ((pre ++ ids) !! Z.to_nat s) ∉ del) (seqZ (zlen pre) (zlen ids))) =
    filter (λ v, v ∉ del) ids) as Hg; [|exact (Hg [])].
  induction ids as [|v ids IH]; intros pre; [done|].
  unfold zlen at 2. cbn [length]. rewrite Nat2Z.inj_succ, seqZ_cons, Z.pred_succ by lia.
  assert ((pre ++ v :: ids) !! Z.to_nat (zlen pre) = Some v) as Ev by (unfold zlen; by rewrite Nat2Z.id, list_lookup_middle).
  specialize (IH (pre ++ [v])). rewrite <- app_assoc in IH. cbn [app] in IH.
  replace (zlen (pre ++ [v])) with (Z.succ (zlen pre)) in IH by (rewrite zlen_app; done). unfold zlen at 2 in IH.
  destruct (decide (v ∈ del)) as [Hd|Hd].
  - by rewrite !filter_cons_False by (rewrite ?Ev; cbn; tauto).
  - rewrite !filter_cons_True by (rewrite ?Ev; done). unfold pick in *. cbn [omap list_omap]. rewrite Ev. by f_equal.
Qed.

Lemma filter_ext_in {A} (P Q : A → Prop) `{∀ x, Decision (P x), ∀ x, Decision (Q x)} (l : list A) :
  (∀ x, x ∈ l → P x ↔ Q x) → filter P l = filter Q l.
Proof.
  induction l as [|x l IH]; intros Hl; [done|]. rewrite !filter_cons.
  rewrite IH by (intros y Hy; apply Hl; by right). pose proof (Hl x ltac:(by left)) as Hx.
  destruct (decide (P x)), (decide (Q x)); first [done | tauto].
Qed.

Lemma filter_none {A} (P : A → Prop) `{∀ x, Decision (P x)} (l : list A) : (∀ x, x ∈ l → ¬ P x) → filter P l = [].
Proof.
  induction l as [|x l IH]; intros Hl; [done|]. rewrite filter_cons, decide_False by (apply Hl; by left).
  apply IH. intros y Hy. apply Hl. by right.
Qed.

Lemma filter_whole {A} (P : A → Prop) `{∀ x, Decision (P x)} (l : list A) : (∀ x, x ∈ l → P x) → filter P l = l.
Proof.
  induction l as [|x l IH]; intros Hl; [done|]. rewrite filter_cons, decide_True by (apply Hl; by left).
  f_equal. apply IH. intros y Hy. apply Hl. by right.
Qed.

Definition matched (del ids : list Z) (n : nat) : list Z := filter (λ s, default 0 (ids !! Z.to_nat s) ∈ del) (seqZ 0 (Z.of_nat n)).

Lemma slots_kept_matched del ids : slots_kept (zlen ids) (matched del ids (length ids)) = kept_slots del ids.
Proof.
  unfold slots_kept, kept_slots, matched, zlen. apply filter_ext_in. intros s Hs.
  rewrite list_elem_of_filter. tauto.
Qed.

Lemma kept_all_or_fewer del ids :
  matched del ids (length ids) = [] ∧ kept_slots del ids = seqZ 0 (zlen ids) ∨
  matched del ids (length ids) ≠ [] ∧ zlen (kept_slots del ids) ≠ zlen ids.
Proof.
  destruct (matched del ids (length ids)) as [|s l] eqn:E; [left|right].
  - split; [done|]. unfold kept_slots. apply filter_whole. intros s Hs Hin.
    assert (s ∈ matched del ids (length ids)) as Hm by (by apply list_elem_of_filter). by rewrite E in Hm; apply elem_of_nil in Hm.
  - split; [done|]. assert (s ∈ matched del ids (length ids)) as [Hin Hs]%list_elem_of_filter by (rewrite E; by left).
    unfold kept_slots, zlen in *. pose proof (length_filter_lt (λ s, default 0 (ids !! Z.to_nat s) ∉ del) _ s Hs (λ Hn, Hn Hin)) as Hlt.
    rewrite length_seqZ in Hlt. lia.
Qed.

(** ** Lemmas: the scan *)

Definition found_ok (row_ids seen : list Z) (m : gmap Z (Z * Z)) : Prop :=
  ∀ rid, if decide (rid ∈ row_ids) then ∃ v, m !! rid = Some v ∧ (v.1 = UINT32_MAX ↔ rid ∉ seen) else m !! rid = None.

Definition put_slots (ld : gmap Z (list Z)) (lid : Z) (slots : list Z) : gmap Z (list Z) :=
  match slots with [] => ld | _ => <[lid := slots]> ld end.

Lemma found_start row_ids :
  found_ok row_ids [] (foldl (λ m rid, <[rid := (UINT32_MAX, UINT32_MAX)]> m) ∅ row_ids).
Proof.
  assert (∀ l1 l2 m, found_ok l1 [] m → found_ok (l1 ++ l2) [] (foldl (λ m rid, <[rid := (UINT32_MAX, UINT32_MAX)]> m) m l2)) as Hg.
  { intros l1 l2. revert l1. induction l2 as [|rid l2 IH]; intros l1 m Hm; [by rewrite app_nil_r|].
    cbn [foldl]. replace (l1 ++ rid :: l2) with ((l1 ++ [rid]) ++ l2) by by rewrite <- app_assoc. apply IH.
    intros r. specialize (Hm r). destruct (decide (r = rid)) as [->|Hne].
    - rewrite decide_True by (apply elem_of_app; right; by left). rewrite lookup_insert_eq. eexists. split; [done|].
      split; [|done]. intros _. apply not_elem_of_nil.
    - rewrite lookup_insert_ne by done. destruct (decide (r ∈ l1)) as [Hr|Hr].
      + by rewrite decide_True by (apply elem_of_app; by left).
      + rewrite decide_False; [done|]. rewrite elem_of_app, list_elem_of_singleton. by intros [?| ->]. }
  apply (Hg [] row_ids ∅). intros r. by rewrite decide_False by apply not_elem_of_nil.
Qed.

Lemma found_seen row_ids seen m rid lid s :
  found_ok row_ids seen m → lid ≠ UINT32_MAX →
  found_ok row_ids (seen ++ [rid]) (match m !! rid with Some _ => <[rid := (lid, s)]> m | None => m end).
Proof.
  intros Hm Hlid r. pose proof (Hm r) as Hr. pose proof (Hm rid) as Hrid.
  destruct (decide (rid ∈ row_ids)) as [Hin|Hin].
  - destruct Hrid as (v & -> & _). destruct (decide (r = rid)) as [->|Hne].
    + rewrite decide_True by done. rewrite lookup_insert_eq. eexists. split; [done|]. cbn [fst].
      split; [done|]. intros Hns. destruct Hns. apply elem_of_app. right. by left.
    + rewrite lookup_insert_ne by done. destruct (decide (r ∈ row_ids)); [|done].
      destruct Hr as (v' & Ev & Hv). exists v'. split; [done|]. rewrite Hv, elem_of_app, list_elem_of_singleton. split; [|tauto]. intros Hns [?|?]; tauto.
  - rewrite Hrid. destruct (decide (r ∈ row_ids)); [|done].
    destruct Hr as (v' & Ev & Hv). exists v'. split; [done|]. rewrite Hv, elem_of_app, list_elem_of_singleton.
    split; [|tauto]. intros Hns [?| ->]; tauto.
Qed.

Lemma matched_snoc del ids n v :
  ids !! n = Some v → matched del ids (S n) = matched del ids n ++ (if decide (v ∈ del) then [Z.of_nat n] else []).
Proof.
  intros Ev. unfold matched. replace (Z.of_nat (S n)) with (Z.of_nat n + 1) by lia. rewrite seqZ_app by lia. rewrite filter_app.
  f_equal. replace (seqZ (0 + Z.of_nat n) 1) with [Z.of_nat n] by (unfold seqZ; cbn; f_equal; lia).
  rewrite filter_cons, Nat2Z.id, Ev. cbn. by destruct (decide (v ∈ del)).
Qed.

Lemma scan_slots_ok row_ids buf base ids lid m ld seen :
  holds buf base (arr 8 ids) → Forall (λ v, - 2 ^ 63 ≤ v < 2 ^ 63) ids → lid ≠ UINT32_MAX → ld !! lid = None →
  found_ok row_ids seen m →
  ∃ m', for_range (length ids) 0 (note_slot lid buf base) (m, ld) = Ok (m', put_slots ld lid (matched row_ids ids (length ids))) ∧
    found_ok row_ids (seen ++ ids) m'.
Proof.
  intros Hh Hr Hlid Hld Hm.
  destruct (for_range_ok (λ i st, st.2 = put_slots ld lid (matched row_ids ids (Z.to_nat i)) ∧ found_ok row_ids (seen ++ take (Z.to_nat i) ids) st.1)
    (note_slot lid buf base) (length ids) 0 (m, ld)) as ([m' ld'] & E & El & Hm').
  - cbn [fst snd Z.to_nat]. rewrite take_0, app_nil_r. by split.
  - intros i [m1 ld1] Hi [El Hm1]. cbn [fst snd] in *. destruct (lookup_lt_is_Some_2 ids (Z.to_nat i)) as [v Ev]; [lia|].
    unfold note_slot. rewrite (ids_read buf base ids i v) by (done || lia). rewrite bind_Ok. cbn [fst snd].
    replace (Z.to_nat (i + 1)) with (S (Z.to_nat i)) by lia. rewrite (take_S_r _ _ _ Ev), (matched_snoc _ _ _ _ Ev), app_assoc, Z2Nat.id by lia.
    pose proof (found_seen _ _ _ v lid i Hm1 Hlid) as Hs. pose proof (Hm1 v) as Hv. rewrite El. clear El ld1.
    destruct (decide (v ∈ row_ids)) as [Hin|Hin].
    + destruct Hv as (x & Ex & _). rewrite Ex in *. eexists. split; [done|]. cbn [fst snd]. split; [|done].
      destruct (matched row_ids ids (Z.to_nat i)) as [|y l]; cbn [put_slots app].
      * by rewrite Hld.
      * by rewrite lookup_insert_eq, insert_insert_eq.
    + rewrite Hv in *. eexists. split; [done|]. cbn [fst snd]. by rewrite app_nil_r.
  - cbn [fst snd] in *. rewrite Z.add_0_l, Nat2Z.id in El, Hm'. rewrite firstn_all in Hm'. exists m'. split; [|done]. by rewrite <- El.
Qed.

Section delete_lemmas.
Context `{PageStoreLaws F, RapidHash} (manifest_to_toml : Z → list Z).
Context (m4 bits code_size summary_size : Z) (schema : Schema) (Hgeo : geo_ok summary_size m4 bits code_size).
Implicit Types (ix : IVFTreeIndex F) (a : PageAllocator) (nodes : list extent).
Abbreviation leaf_holds := (leaf_holds m4 bits code_size summary_size schema).

Abbreviation table_small := LeafStoreCommit.table_small.

(** The rows the leaves of an index hold. *)
Definition leaves_are ix (rowss : list leaf_rows) : Prop :=
  length rowss = length (leaf_table_ ix) ∧
  ∀ lid rows, rowss !! lid = Some rows → ∃ buf, read_leaf_ ix (Z.of_nat lid) = Ok buf ∧ leaf_holds buf rows.

Definition seen_ids (rowss : list leaf_rows) : list Z := concat (r_ids <$> rowss).

Lemma scan_leaf_ok row_ids ix rowss lid rows m ld :
  leaves_are ix rowss → rowss !! lid = Some rows → Z.of_nat lid ≠ UINT32_MAX → ld !! Z.of_nat lid = None →
  found_ok row_ids (seen_ids (take lid rowss)) m →
  ∃ m', scan_leaf ix (Z.of_nat lid) (m, ld) = Ok (m', put_slots ld (Z.of_nat lid) (matched row_ids (r_ids rows) (length (r_ids rows)))) ∧
    found_ok row_ids (seen_ids (take (S lid) rowss)) m'.
Proof.
  intros [_ Hl] Er Hlid Hld Hm. destruct (Hl _ _ Er) as (buf & Eb & Hlh).
  destruct (leaf_sizes _ _ _ _ _ Hgeo _ _ Hlh) as (Hn & Lb & _).
  unfold scan_leaf. rewrite Eb, bind_Ok. unfold mem_read, sizeof_TreeLeafHeader. rewrite bool_decide_true by lia. rewrite bind_Ok.
  change (Z.to_nat 0) with 0%nat. change (Z.to_nat 112) with 112%nat. rewrite bytes_at_0, header_take, (lw_count _ _ _ _ _ _ _ Hlh), u32_id by lia.
  unfold seen_ids in *. rewrite (take_S_r _ _ _ Er), fmap_app, concat_app. cbn [fmap list_fmap concat]. rewrite app_nil_r.
  destruct (Z.eqb_spec (n_rows rows) 0) as [E0|E0].
  - unfold n_rows, zlen in E0. destruct (r_ids rows) as [|v l]; [|cbn in E0; lia]. exists m. rewrite app_nil_r. by split.
  - destruct (geometry_at _ _ _ _ Hgeo (leaf_header_of_bytes buf) (n_rows rows)) as [-> _]; [apply Hlh..|lia|].
    destruct (lw_ids _ _ _ _ _ _ _ Hlh) as [Hir Hih]. unfold n_rows at 1, zlen at 1. rewrite Nat2Z.id. by apply scan_slots_ok.
Qed.

Definition wanted (row_ids : list Z) (rows : leaf_rows) : list Z := matched row_ids (r_ids rows) (length (r_ids rows)).

(** What the scan finds: the slots of each leaf that has any. *)
Definition deletes_ok (row_ids : list Z) (rowss : list leaf_rows) (ld : gmap Z (list Z)) : Prop :=
  ∀ lid slots, ld !! lid = Some slots ↔
    slots ≠ [] ∧ ∃ k rows, lid = Z.of_nat k ∧ rowss !! k = Some rows ∧ slots = wanted row_ids rows.

Lemma find_slots_ok row_ids ix rowss :
  leaves_are ix rowss → table_small (leaf_table_ ix) →
  ∃ m ld, find_slots ix row_ids = Ok (m, ld) ∧ found_ok row_ids (seen_ids rowss) m ∧ deletes_ok row_ids rowss ld.
Proof.
  intros Hl Hsm. pose proof (proj1 Hl) as Hlen.
  destruct (for_range_ok (λ i st, found_ok row_ids (seen_ids (take (Z.to_nat i) rowss)) st.1 ∧ deletes_ok row_ids (take (Z.to_nat i) rowss) st.2)
    (scan_leaf ix) (length (leaf_table_ ix)) 0 (foldl (λ m rid, <[rid := (UINT32_MAX, UINT32_MAX)]> m) ∅ row_ids, ∅)) as ([m ld] & E & Hm & Hd).
  - cbn [fst snd Z.to_nat take]. split; [apply found_start|]. intros lid slots. rewrite lookup_empty. split; [done|].
    by intros (_ & k & rows & _ & E & _).
  - intros i [m ld] Hi [Hm Hd]. cbn [fst snd] in *. destruct (lookup_lt_is_Some_2 rowss (Z.to_nat i)) as [rows Er]; [lia|].
    destruct (scan_leaf_ok row_ids ix rowss (Z.to_nat i) rows m ld Hl Er) as (m' & Es & Hm'); [|..|done|].
    { unfold LeafStoreCommit.table_small, UINT32_MAX in *. lia. }
    { destruct (ld !! _) as [slots|] eqn:El; [|done]. apply Hd in El as (_ & k & rows' & Ek & Ekr & _).
      apply lookup_lt_Some in Ekr. rewrite length_take in Ekr. lia. }
    rewrite Z2Nat.id in Es by lia. rewrite Es. eexists. split; [done|]. cbn [fst snd].
    replace (Z.to_nat (i + 1)) with (S (Z.to_nat i)) by lia. split; [done|]. fold (wanted row_ids rows). intros lid slots.
    rewrite (take_S_r _ _ _ Er).
    assert (∀ k rows', (take (Z.to_nat i) rowss ++ [rows]) !! k = Some rows' ↔ take (Z.to_nat i) rowss !! k = Some rows' ∨ k = Z.to_nat i ∧ rows' = rows) as Hsplit.
    { intros k rows'. rewrite lookup_app_Some, length_take, list_lookup_singleton_Some. rewrite Nat.min_l by lia.
      split; [intros [?|(? & ? & <-)]; [by left|right; split; [lia|done]]|intros [?|[-> ->]]; [by left|right; split_and!; [lia|lia|done]]]. }
    destruct (wanted row_ids rows) as [|s l] eqn:Ew; cbn [put_slots].
    + rewrite (Hd lid slots). split; intros (Hne & k & rows' & Ek & Ekr & Es'); (split; [done|]); exists k, rows'; (split; [done|]);
        (split; [|done]); apply Hsplit in Ekr || apply Hsplit; [by left|]. destruct Ekr as [?|[-> ->]]; [done|congruence].
    + destruct (decide (lid = i)) as [->|Hne].
      * rewrite lookup_insert_eq. split.
        -- intros [= <-]. split; [done|]. exists (Z.to_nat i), rows. split; [lia|]. split; [apply Hsplit; by right|done].
        -- intros (_ & k & rows' & Ek & Ekr & ->). apply Hsplit in Ekr as [Ekr|[-> ->]]; [|by rewrite Ew].
           apply lookup_lt_Some in Ekr. rewrite length_take in Ekr. lia.
      * rewrite lookup_insert_ne by done. rewrite (Hd lid slots).
        split; intros (Hne' & k & rows' & Ek & Ekr & Es'); (split; [done|]); exists k, rows'; (split; [done|]); (split; [|done]);
          apply Hsplit in Ekr || apply Hsplit; [by left|]. destruct Ekr as [?|[-> ->]]; [done|lia].
  - cbn [fst snd] in *. rewrite Z.add_0_l, Nat2Z.id, <- Hlen, firstn_all in Hm, Hd. by exists m, ld.
Qed.

(** ** Lemmas: one leaf after the other *)

Lemma pick_all_id buf rows : leaf_holds buf rows → pick_all (seqZ 0 (n_rows rows)) rows = rows.
Proof.
  intros Hl. destruct (lw_codes _ _ _ _ _ _ _ Hl) as (Hlc & _). destruct (lw_cells _ _ _ _ _ _ _ Hl) as [Hcells _].
  unfold pick_all. destruct rows as [ids codes tbl]. cbn [r_ids r_codes r_cells] in *. unfold n_rows in *. cbn [r_ids] in *. f_equal.
  - apply pick_all_slots.
  - rewrite <- Hlc. apply pick_all_slots.
  - clear Hl Hlc. induction Hcells as [|col d cols tbl [(_ & Hn & _) Hd] _ IH]; [done|]. rewrite fmap_cons, IH. f_equal.
    unfold pick_rows. rewrite <- Hd, pick_all_slots. replace (zlen d.1) with (zlen d.2) by (unfold zlen; by rewrite Hn).
    rewrite pick_all_slots. by destruct d.
Qed.

Lemma rows_without_none buf row_ids rows : leaf_holds buf rows → wanted row_ids rows = [] → rows_without row_ids rows = rows.
Proof.
  intros Hl Hw. unfold rows_without. destruct (kept_all_or_fewer row_ids (r_ids rows)) as [[_ ->]|[Hne _]]; [|done].
  by apply (pick_all_id buf).
Qed.

Lemma nothing_wanted ix rowss row_ids :
  leaves_are ix rowss → (∀ rows, rows ∈ rowss → wanted row_ids rows = []) → rows_without row_ids <$> rowss = rowss.
Proof.
  intros [_ Hl] Hw. apply list_eq. intros i. rewrite list_lookup_fmap. destruct (rowss !! i) as [rows|] eqn:Er; [|done]. cbn. f_equal.
  destruct (Hl _ _ Er) as (buf & _ & Hlh). eapply rows_without_none; [exact Hlh|]. apply Hw. by eapply list_elem_of_lookup_2.
Qed.

(** One leaf, compacted in place. *)
Lemma delete_leaf_ok row_ids ix a nodes rowss lid rows :
  index_ok ix a nodes → leaves_are ix rowss → rowss !! lid = Some rows → wanted row_ids rows ≠ [] →
  ∃ ix' a', delete_leaf m4 bits summary_size schema (Z.of_nat lid) (wanted row_ids rows) ix a = Ok (ix', a') ∧
    index_ok ix' a' nodes ∧ leaves_are ix' (<[lid := rows_without row_ids rows]> rowss) ∧
    length (leaf_table_ ix') = length (leaf_table_ ix) ∧ superblock_ ix' = superblock_ ix ∧ mf_n_vectors ix' = mf_n_vectors ix ∧
    same_pages (file_ ix) (file_ ix') nodes ∧ n_pages_ a' = n_pages_ a ∧ bitmap_pages_ a' = bitmap_pages_ a.
Proof.
  intros Hix [Hlen Hl] Er Hw. destruct (Hl _ _ Er) as (buf & Eb & Hlh).
  destruct (lookup_lt_is_Some_2 (leaf_table_ ix) lid) as [e Ee]; [rewrite <- Hlen; by eapply lookup_lt_Some|].
  destruct (leaf_readable _ _ _ _ _ (ix_store _ _ _ Hix) Ee) as (buf' & Eb' & Lb & _). rewrite Eb in Eb'. injection Eb' as <-.
  pose proof (lw_length _ _ _ _ _ _ _ Hlh) as L. pose proof (lw_pages _ _ _ _ _ _ _ Hlh) as Pg.
  destruct (kept_all_or_fewer row_ids (r_ids rows)) as [[? _]|[_ Hne]]; [done|].
  assert (slots_kept (n_rows rows) (wanted row_ids rows) = kept_slots row_ids (r_ids rows)) as Ek by apply slots_kept_matched.
  destruct (compact_leaf_ok _ _ _ _ schema Hgeo buf rows (wanted row_ids rows) Hlh) as (nb & npg & Ec & Hc); [by rewrite Ek|].
  rewrite Ek in Hc. fold (rows_without row_ids rows) in Hc. destruct Hc as (Hlh' & Hnp & Ln & _ & _).
  assert (npg ≤ le_pages e) as Hle by (unfold kPageSize in *; lia).
  destruct (write_leaf_index manifest_to_toml ix a nodes lid e nb npg) as (ix' & a' & Ew & Hix' & Erd & Hk & Hlt & Es & Env & _ & Hs & _ & Hbp & Hin);
    [done|done|unfold kPageSize in *; lia|by left|unfold kPageSize in *; lia|apply Hlh'|].
  exists ix', a'. unfold delete_leaf. rewrite Eb, bind_Ok, Ec, bind_Ok. split_and!; try done; [|by apply Hin].
  split; [by rewrite length_insert, Hlt|]. intros j rows' Ej. destruct (decide (j = lid)) as [->|Hj].
  - rewrite list_lookup_insert_eq in Ej by (by eapply lookup_lt_Some). injection Ej as <-. exists nb. by split.
  - rewrite list_lookup_insert_ne in Ej by done. destruct (Hl _ _ Ej) as (bj & Ebj & Hj'). exists bj. split; [|done].
    apply (Hk j); [|done|done]. rewrite <- Hlen. by eapply lookup_lt_Some.
Qed.

Definition delete_at (row_ids : list Z) (lids : list Z) (lid : nat) (rows : leaf_rows) : leaf_rows :=
  if decide (Z.of_nat lid ∈ lids) then rows_without row_ids rows else rows.

Lemma delete_leaves_ok row_ids l ix a nodes rowss :
  index_ok ix a nodes → leaves_are ix rowss → NoDup l.*1 →
  Forall (λ e, e.2 ≠ [] ∧ ∃ k rows, e.1 = Z.of_nat k ∧ rowss !! k = Some rows ∧ e.2 = wanted row_ids rows) l →
  ∃ ix' a', delete_leaves m4 bits summary_size schema l ix a = Ok (ix', a') ∧ index_ok ix' a' nodes ∧
    leaves_are ix' (imap (delete_at row_ids l.*1) rowss) ∧ length (leaf_table_ ix') = length (leaf_table_ ix) ∧
    superblock_ ix' = superblock_ ix ∧ mf_n_vectors ix' = mf_n_vectors ix ∧ same_pages (file_ ix) (file_ ix') nodes ∧
    n_pages_ a' = n_pages_ a ∧ bitmap_pages_ a' = bitmap_pages_ a.
Proof.
  revert ix a rowss. induction l as [|[lid slots] l IH]; intros ix a rowss Hix Hl Hnd Hall; cbn [delete_leaves].
  - exists ix, a. split_and!; try done. change (leaves_are ix (imap (delete_at row_ids []) rowss)).
    enough (imap (delete_at row_ids []) rowss = rowss) as -> by done.
    apply list_eq. intros i. rewrite list_lookup_imap. destruct (rowss !! i); [|done]. cbn. unfold delete_at.
    by rewrite decide_False by apply not_elem_of_nil.
  - apply Forall_cons in Hall as [(Hne & k & rows & Ek & Er & Es) Hall]. cbn [fst snd] in *. subst lid slots.
    cbn [fmap list_fmap fst] in Hnd. apply NoDup_cons in Hnd as [Hni Hnd].
    destruct (delete_leaf_ok row_ids ix a nodes rowss k rows Hix Hl Er Hne) as (ix1 & a1 & E1 & Hix1 & Hl1 & Lt1 & Es1 & En1 & Hs1 & Hn1 & Hb1).
    destruct (IH ix1 a1 (<[k := rows_without row_ids rows]> rowss) Hix1 Hl1 Hnd) as (ix2 & a2 & E2 & Hix2 & Hl2 & Lt2 & Es2 & En2 & Hs2 & Hn2 & Hb2).
    { apply Forall_forall. intros e He. rewrite Forall_forall in Hall. destruct (Hall e He) as (Hne' & k' & rows' & Ek' & Er' & Es').
      split; [done|]. exists k', rows'. split_and!; try done. rewrite list_lookup_insert_ne; [done|]. intros <-.
      apply Hni. rewrite <- Ek'. by apply list_elem_of_fmap_2. }
    exists ix2, a2. rewrite E1, bind_Ok, E2. split_and!; try done; try congruence; [|by eapply same_pages_trans].
    change (leaves_are ix2 (imap (delete_at row_ids (Z.of_nat k :: l.*1)) rowss)).
    enough (imap (delete_at row_ids (Z.of_nat k :: l.*1)) rowss = imap (delete_at row_ids l.*1) (<[k := rows_without row_ids rows]> rowss)) as -> by done.
    apply list_eq. intros i. rewrite !list_lookup_imap. unfold delete_at. destruct (decide (i = k)) as [->|Hi].
    + rewrite list_lookup_insert_eq, Er by (by eapply lookup_lt_Some). cbn. rewrite decide_True by by left. by rewrite decide_False.
    + rewrite list_lookup_insert_ne by done. destruct (rowss !! i); [|done]. cbn. f_equal.
      destruct (decide (Z.of_nat i ∈ l.*1)) as [Hin|Hin]; [by rewrite decide_True by by right|].
      rewrite decide_False; [done|]. rewrite elem_of_cons. intros [?|?]; [lia|done].
Qed.

(** ** Lemmas: counting *)

Lemma filter_split {A} (P : A → Prop) `{∀ x, Decision (P x)} (l : list A) :
  zlen (filter P l) + zlen (filter (λ x, ¬ P x) l) = zlen l.
Proof.
  unfold zlen. induction l as [|x l IH]; [done|]. rewrite !filter_cons. cbn [length].
  destruct (decide (P x)); destruct (decide (¬ P x)); cbn [length]; tauto || lia.
Qed.

Lemma common_count (l1 l2 : list Z) :
  NoDup l1 → NoDup l2 → zlen (filter (λ x, x ∈ l2) l1) = zlen (filter (λ x, x ∈ l1) l2).
Proof.
  intros N1 N2. unfold zlen. f_equal. apply Permutation_length, NoDup_Permutation; [by apply NoDup_filter..|].
  intros x. rewrite !list_elem_of_filter. tauto.
Qed.

Lemma seen_ids_without del rowss : seen_ids (rows_without del <$> rowss) = filter (λ v, v ∉ del) (seen_ids rowss).
Proof.
  unfold seen_ids. induction rowss as [|rows rowss IH]; [done|]. rewrite !fmap_cons. cbn [concat]. rewrite IH, filter_app. f_equal. apply kept_ids.
Qed.

Lemma not_found_count row_ids all m : found_ok row_ids all m → not_found m row_ids = zlen (filter (λ v, v ∉ all) row_ids).
Proof.
  intros Hm. unfold not_found. f_equal. apply filter_ext_in. intros rid Hin. specialize (Hm rid). rewrite decide_True in Hm by done.
  destruct Hm as (v & -> & Hv). exact Hv.
Qed.

(** The new row count, when no id is asked for or stored twice. *)
Lemma rows_left row_ids all m :
  found_ok row_ids all m → NoDup row_ids → NoDup all → zlen all < 2 ^ 64 → zlen row_ids < 2 ^ 64 →
  u64 (zlen all - u64 (zlen row_ids - not_found m row_ids)) = zlen (filter (λ v, v ∉ row_ids) all).
Proof.
  intros Hm N1 N2 L1 L2. rewrite (not_found_count _ _ _ Hm).
  pose proof (common_count row_ids all N1 N2) as Hc. pose proof (filter_split (λ v, v ∈ all) row_ids) as S1.
  pose proof (filter_split (λ v, v ∈ row_ids) all) as S2.
  cbn beta in *. pose proof (zlen_nonneg (filter (λ v, v ∈ all) row_ids)). pose proof (zlen_nonneg (filter (λ v, v ∉ row_ids) all)).
  pose proof (zlen_nonneg (filter (λ v, v ∉ all) row_ids)).
  rewrite (u64_id (zlen row_ids - _)) by lia. rewrite u64_id by lia. lia.
Qed.

Lemma index_ok_rows ix a nodes n : index_ok ix a nodes → index_ok (with_n_vectors ix n) a nodes.
Proof. intros [[] ? ? ? ? ? ?]. by split. Qed.

Lemma leaves_same rowss row_ids ld l ix :
  leaves_are ix rowss → deletes_ok row_ids rowss ld → l ≡ₚ map_to_list ld →
  imap (delete_at row_ids l.*1) rowss = rows_without row_ids <$> rowss.
Proof.
  intros [_ Hl] Hd Hp. apply list_eq. intros i. rewrite list_lookup_imap, list_lookup_fmap.
  destruct (rowss !! i) as [rows|] eqn:Er; [|done]. cbn. f_equal. unfold delete_at.
  destruct (decide (Z.of_nat i ∈ l.*1)) as [|Hn]; [done|]. destruct (Hl _ _ Er) as (buf & _ & Hlh). symmetry.
  apply (rows_without_none buf); [done|]. destruct (decide (wanted row_ids rows = [])) as [|Hne]; [done|]. destruct Hn.
  assert (ld !! Z.of_nat i = Some (wanted row_ids rows)) as El by (apply Hd; split; [done|by exists i, rows]).
  rewrite Hp. apply list_elem_of_fmap. exists (Z.of_nat i, wanted row_ids rows). split; [done|]. by apply elem_of_map_to_list.
Qed.

Lemma deletes_list row_ids rowss ld l :
  deletes_ok row_ids rowss ld → l ≡ₚ map_to_list ld →
  NoDup l.*1 ∧ Forall (λ e, e.2 ≠ [] ∧ ∃ k rows, e.1 = Z.of_nat k ∧ rowss !! k = Some rows ∧ e.2 = wanted row_ids rows) l.
Proof.
  intros Hd Hp. split; [rewrite Hp; apply NoDup_fst_map_to_list|]. rewrite Hp. apply Forall_forall.
  intros [lid slots] He%elem_of_map_to_list. by apply Hd.
Qed.
End delete_lemmas.

(** ** Theorems *)

Section runs.
Context `{PageStoreLaws F, RapidHash} (manifest_to_toml : Z → list Z).
Context (m4 bits code_size summary_size : Z) (schema : Schema).
Implicit Types (ix : IVFTreeIndex F) (a : PageAllocator) (nodes : list extent).
Context (order : gmap Z (list Z) → list (Z * list Z)).

(** C4: deleting rows: from every leaf exactly the rows with one of the given ids
    go, the codes and cells of the others stay with them and in the order they had; no
    node changes, and the result is committed.  The manifest's row count is the number of
    rows left on condition that no id is asked for twice, none is stored twice and the
    count was right before; the code counts the ids asked for, not the rows that go, so
    with duplicates it is wrong. *)
Theorem delete_batch_exact ix a nodes rowss row_ids tp :
  geo_ok summary_size m4 bits code_size → has_payload schema = false → (∀ m, order m ≡ₚ map_to_list m) →
  load (file_ ix) = Ok (superblock_ ix) → load_allocator ix = Ok a → index_ok ix a nodes →
  leaves_are m4 bits code_size summary_size schema ix rowss → LeafStoreCommit.table_small (leaf_table_ ix) →
  (∀ n, toml_ok (manifest_to_toml n) ∧ toml_pages (manifest_to_toml n) ≤ tp) → commit_seq (superblock_ ix) + 1 < 2 ^ 64 →
  n_pages_ a + table_pages (leaf_table_ ix) + tp ≤ capacity a →
  ∃ ix', delete_batch manifest_to_toml GlobalPq m4 bits summary_size schema false order ix row_ids = Ok ix' ∧
    leaves_are m4 bits code_size summary_size schema ix' (rows_without row_ids <$> rowss) ∧
    same_pages (file_ ix) (file_ ix') nodes ∧ durable ix' nodes ∧
    (NoDup row_ids → NoDup (seen_ids rowss) → zlen row_ids < 2 ^ 64 → mf_n_vectors ix = zlen (seen_ids rowss) → mf_n_vectors ix < 2 ^ 64 →
     mf_n_vectors ix' = zlen (seen_ids (rows_without row_ids <$> rowss))).
Proof.
  intros Hgeo Hpay Horder Hload Ea Hix Hl Hsm Htoml Hseq Hcap.
  assert (durable ix nodes) as Hdur by (split; [done|by exists a]).
  unfold delete_batch. case_bool_decide as Erow.
  { exists ix. rewrite (nothing_wanted _ _ _ _ _ ix rowss row_ids Hl); [by split_and!|].
    intros rows _. unfold wanted, matched. rewrite Erow. apply filter_none. intros s _. apply not_elem_of_nil. }
  rewrite Hpay, bool_decide_true by done. cbn [negb].
  destruct (find_slots_ok m4 bits code_size summary_size schema Hgeo row_ids ix rowss Hl Hsm) as (m & ld & Ef & Hm & Hd).
  rewrite Ef, bind_Ok. case_bool_decide as Eld.
  { exists ix. rewrite (nothing_wanted _ _ _ _ _ ix rowss row_ids Hl); [by split_and!|].
    intros rows [i Er]%list_elem_of_lookup_1. destruct (decide (wanted row_ids rows = [])) as [|Hne]; [done|].
    assert (ld !! Z.of_nat i = Some (wanted row_ids rows)) as El by (apply Hd; split; [done|by exists i, rows]). by rewrite Eld in El. }
  set (n' := u64 _). pose proof (index_ok_rows ix a nodes n' Hix) as Hix0.
  change (load_allocator (with_n_vectors ix n')) with (load_allocator ix). rewrite Ea, bind_Ok.
  destruct (deletes_list row_ids rowss ld (order ld) Hd (Horder ld)) as [Hnd Hall].
  destruct (delete_leaves_ok manifest_to_toml m4 bits code_size summary_size schema Hgeo row_ids (order ld) (with_n_vectors ix n') a nodes rowss)
    as (ix1 & a1 & E1 & Hix1 & Hl1 & Lt1 & Es1 & En1 & Hs1 & Hn1 & Hb1); [done|exact Hl|done|done|].
  rewrite E1, bind_Ok, (leaves_same m4 bits code_size summary_size schema rowss row_ids ld _ ix Hl Hd (Horder ld)) in *.
  cbn [leaf_table_ superblock_ mf_n_vectors with_n_vectors file_] in *. destruct (Htoml n') as [Ht1 Ht2].
  destruct (commit_ok_store manifest_to_toml ix1 a1 nodes) as (ix2 & a2 & E2 & Hix2 & Et & Hk & Hs2 & Ev2 & _ & _ & El2 & Hd2 & _).
  { done. } { unfold LeafStoreCommit.table_small. by rewrite Lt1. } { by rewrite En1. } { by rewrite Es1. }
  { rewrite (table_pages_same _ _ Lt1), En1. unfold capacity in *. rewrite Hb1. lia. }
  rewrite E2, bind_Ok. exists ix2. split; [done|]. split; [|split; [by eapply same_pages_trans|split; [by split|]]].
  - destruct Hl1 as [Hlen1 Hr1]. split; [by rewrite Et|]. intros lid rows Er. destruct (Hr1 _ _ Er) as (buf & Eb & Hlh).
    exists buf. split; [|done]. apply (Hk lid); [|done]. rewrite <- Hlen1. by eapply lookup_lt_Some.
  - intros N1 N2 Lr Ev Lv. rewrite Ev in Lv. rewrite Ev2, En1, seen_ids_without. unfold n'. rewrite Ev. by apply rows_left.
Qed.
End runs.

(** ** A concrete index: one leaf of three rows with an integer column; one goes *)

Definition w_schema1 : Schema := mkSchema [mkColumn [120] Int32 false] false.
Definition w_leaf_header : TreeLeafHeader := mkLeafHeader kTreeLeafMagic 3 0 3 4 48 32 1 0 1 184 kInvalidPage 0 0 kInvalidPage 1 0 0 0 0 0 0.
Definition w_cells : list Z := le_enc 4 10 ++ le_enc 4 20 ++ le_enc 4 30.
Definition w_rows : leaf_rows := mkRows [5; 6; 7] ex_codes [(CFixed <$> [le_enc 4 10; le_enc 4 20; le_enc 4 30], [0; 0; 0])].
Definition w_blank : list Z := encode_fields (leaf_fields w_leaf_header) ++ replicate 3984 0.
Definition w_leaf : list Z :=
  match l ← encode_group 0 3 4 2 3 (concat ex_codes) ex_ids w_blank; mem_write l 184 w_cells with Ok l => l | Err _ => [] end.

Lemma w_blank_zero k : (112 ≤ k)%nat → byte_at w_blank k = 0.
Proof.
  intros Hk. unfold w_blank. assert (length (encode_fields (leaf_fields w_leaf_header)) = 112%nat) as L by (by vm_compute).
  rewrite byte_at_app, decide_False by lia. apply byte_at_zeros.
Qed.

Lemma w_leaf_codes : stores_leaf 0 3 4 2 1 w_leaf ex_codes.
Proof.
  destruct (encode_stores 0 3 4 2 ex_geo 3 ex_codes ex_ids w_blank) as (l & E & Hst & _ & Hl & _).
  - done.
  - done.
  - apply ex_clean.
  - done.
  - by repeat constructor.
  - apply (bool_decide_unpack _). by vm_compute.
  - by vm_compute.
  - intros k [Hk _]. apply w_blank_zero. change (leaf_codes_offset 0) with 112 in Hk. lia.
  - assert (length l = 4096%nat) as L by (rewrite Hl; by vm_compute).
    destruct (mem_write_ok l 184 w_cells) as (l2 & E2 & _ & S2); [lia|rewrite L; by vm_compute|].
    assert (w_leaf = l2) as -> by (unfold w_leaf; by rewrite E, bind_Ok, E2).
    apply (stores_same 0 3 4 2 ex_geo 1 l); [exact Hst| |by rewrite (same_outside_length _ _ _ _ S2)|].
    + eapply mem_write_bytes; [done|apply Hst|by repeat constructor].
    + intros k Hk. change (area_end 0 3 1) with 160 in Hk. apply S2. lia.
Qed.

Lemma w_leaf_holds `{RapidHash} : leaf_holds 3 4 2 0 w_schema1 w_leaf w_rows.
Proof.
  assert (leaf_header_of_bytes w_leaf = w_leaf_header) as Eh by (by vm_compute).
  assert (Forall is_byte w_leaf) as Hb by (apply (bool_decide_unpack _); by vm_compute).
  assert (length w_leaf = 4096%nat) as Hl by (by vm_compute).
  assert (holds w_leaf 160 (arr 8 [5; 6; 7])) as Hi by (split_and!; by vm_compute).
  assert (holds (drop 184 w_leaf) 0 w_cells) as Hc by (split_and!; by vm_compute).
  pose proof w_leaf_codes as Hst. revert Eh Hb Hl Hi Hc Hst. generalize w_leaf. intros l Eh Hb Hl Hi Hc Hst.
  split; rewrite ?Eh.
  - done.
  - rewrite Hl. done.
  - done.
  - done.
  - done.
  - done.
  - done.
  - by left.
  - split; [done|]. split; [apply ex_clean|exact Hst].
  - split; [by repeat constructor|]. exact Hi.
  - split; [|done]. repeat constructor; done.
  - split; [|rewrite Hl; by vm_compute]. cbn [all_stored w_rows r_cells columns w_schema1]. split; [|done].
    split; [exact Hc|done].
Qed.

(** The leaf written to the concrete index of LeafStoreRuns.v, and committed. *)
Lemma w_filled_index `{RapidHash} (ix : IVFTreeIndex PageFile) a :
  index_ok ix a [] → leaf_table_ ix = [mkLeafEntry 3 1] → mf_n_vectors ix = 5 → commit_seq (superblock_ ix) < 2 ^ 62 →
  n_pages_ a ≤ 4 → bitmap_pages_ a = 1 →
  ∃ ix1 a1, load (file_ ix1) = Ok (superblock_ ix1) ∧ load_allocator ix1 = Ok a1 ∧ index_ok ix1 a1 [] ∧
    leaves_are 3 4 2 0 w_schema1 ix1 [w_rows] ∧ mf_n_vectors ix1 = 5 ∧ commit_seq (superblock_ ix1) < 2 ^ 63 ∧
    length (leaf_table_ ix1) = 1%nat ∧ n_pages_ a1 ≤ 7 ∧ bitmap_pages_ a1 = 1.
Proof.
  intros Hix Et Ev Hs Hn Hb.
  assert (length w_leaf = 4096%nat) as Hl by (by vm_compute).
  pose proof w_leaf_holds as Hh. revert Hl Hh. generalize w_leaf. intros l Hl Hh.
  assert (capacity a = 32768) as Hcap by (unfold capacity; by rewrite Hb).
  destruct (write_leaf_index w_toml ix a [] 0 (mkLeafEntry 3 1) l 1) as (ix2 & a2 & _ & Hix2 & Er & _ & Lt & Es & En & _ & _ & Hn2 & Hb2 & _).
  { done. } { by rewrite Et. } { lia. } { left. cbn. lia. } { rewrite Hl. done. } { apply Hh. }
  assert (length (leaf_table_ ix2) = 1%nat) as Lt2 by (by rewrite Lt, Et).
  assert (table_pages (leaf_table_ ix2) + toml_pages (w_toml (mf_n_vectors ix2)) = 2) as Hp.
  { rewrite En, Ev. unfold table_pages. by rewrite Lt2. }
  destruct (commit_ok_store w_toml ix2 a2 []) as (ix1 & a1 & E & Hix1 & Et1 & Hk & _ & Ev1 & _ & Esq & El & (a3 & Ea & Hix3) & Hn1 & Hb1 & _);
    [done|unfold LeafStoreCommit.table_small; rewrite Lt2; lia|rewrite En, Ev; split; [by repeat constructor|cbn; lia]|rewrite Es; lia| |].
  { unfold capacity in *. rewrite Hb2. lia. }
  exists ix1, a3. pose proof (ix_bitmap _ _ _ Hix1) as [_ B1]. pose proof (ix_bitmap _ _ _ Hix3) as [_ B3].
  pose proof (ok_file _ _ (st_alloc _ _ _ (ix_store _ _ _ Hix1))) as F1. pose proof (ok_file _ _ (st_alloc _ _ _ (ix_store _ _ _ Hix3))) as F3.
  split_and!; try done; try congruence; try lia.
  - split; [by rewrite Et1, Lt2|]. intros [|lid] rows Ek; [|done]. injection Ek as <-. exists l. split; [|done].
    apply (Hk 0%nat); [lia|exact Er].
  - rewrite Esq, Es. lia.
Qed.

Lemma delete_batch_exact_witness :
  let keeps := λ ix ids cells, ∃ buf rows, read_leaf_ ix 0 = Ok buf ∧ r_ids rows = ids ∧ fst <$> r_cells rows = cells ∧
    @leaf_holds w_hash 3 4 2 0 w_schema1 buf rows in
  ∃ ix ix' : IVFTreeIndex PageFile,
    keeps ix [5; 6; 7] [CFixed <$> [le_enc 4 10; le_enc 4 20; le_enc 4 30]] ∧
    @delete_batch _ _ w_hash w_toml GlobalPq 3 4 0 w_schema1 false map_to_list ix [6; 9] = Ok ix' ∧
    keeps ix' [5; 7] [CFixed <$> [le_enc 4 10; le_enc 4 30]] ∧ durable ix' [].
Proof.
  intros keeps. destruct w_index_ok as (Hix & Hn & Hb).
  assert (commit_seq (superblock_ w_index) < 2 ^ 62) as Hs by exact (eq_refl Lt).
  pose proof (conj eq_refl eq_refl : leaf_table_ w_index = [mkLeafEntry 3 1] ∧ mf_n_vectors w_index = 5) as [Et Ev].
  revert Hix Hn Hb Hs Et Ev. generalize w_index, w_grown.1.2. intros ix0 a0 Hix Hn Hb Hs Et Ev.
  destruct (w_filled_index (H := w_hash) ix0 a0) as (ix & a & El & Ea & Hix1 & Hl & Ev1 & Hs1 & Lt1 & Hn1 & Hb1); [done..|].
  destruct (delete_batch_exact (H1 := w_hash) w_toml 3 4 2 0 w_schema1 map_to_list ix a [] [w_rows] [6; 9] 1)
    as (ix' & Ed & Hl' & _ & Hdur & _).
  - apply ex_geo.
  - done.
  - done.
  - done.
  - done.
  - done.
  - done.
  - unfold LeafStoreCommit.table_small. rewrite Lt1. lia.
  - intros n. split; [split; [repeat constructor; apply Z.mod_pos_bound; lia|cbn; lia]|done].
  - lia.
  - unfold capacity, table_pages. rewrite Hb1, Lt1. change (u32 _) with 1. unfold kPageSize. lia.
  - exists ix, ix'. split_and!; [|done| |done].
    + destruct Hl as [_ Hl]. destruct (Hl 0%nat w_rows eq_refl) as (buf & Eb & Hh). by exists buf, w_rows.
    + destruct Hl' as [_ Hl']. destruct (Hl' 0%nat (rows_without [6; 9] w_rows) eq_refl) as (buf & Eb & Hh).
      by exists buf, (rows_without [6; 9] w_rows).
Defined.
