(* ===== verification/TopW.v ===== *)
(** * TopW: bounded top-[W] heaps
    ([src/tree/leaf_coder.hpp], [src/tree/ivf_tree_search.cpp])

    The scan heap and the harvest pool of a search are the same structure: a vector
    kept as a binary max-heap whose root is replaced and sifted down.  The first
    section is that structure for any element and any strict weak order, with
    [topw w l h]: [h] is [w] least elements of [l].  The second section is the scan
    heap with its total order. *)
From stdpp Require Import sorting.
From S2P Require Import Prelude.

(** ** The sift-down loop *)

(** [2 * pos + 1] and [2 * pos + 2] on [uint32_t]. *)
Definition child (pos : nat) (k : Z) : nat := Z.to_nat (u32 (2 * Z.of_nat pos + k)).

Section sift.
Context {A : Type} (less : A → A → bool).

(** [if (c < n && less(h[i], h[c])) largest = c]. *)
Definition larger (h : list A) (i c : nat) : nat :=
  match h !! i, h !! c with Some x, Some y => if less x y then c else i | _, _ => i end.

Definition swap (h : list A) (i j : nat) : list A :=
  match h !! i, h !! j with Some x, Some y => <[i := y]> (<[j := x]> h) | _, _ => h end.

Fixpoint sift_down (fuel pos : nat) (h : list A) : list A :=
  match fuel with
  | O => h
  | S fuel' =>
      let largest := larger h (larger h pos (child pos 1)) (child pos 2) in
      if bool_decide (largest = pos) then h else sift_down fuel' largest (swap h pos largest)
  end.

(** [h[0] = x], then the loop from the root. *)
Definition replace_root (h : list A) (x : A) : res (list A) :=
  match h with
  | [] => Err UndefinedBehaviour
  | _ :: t => Ok (sift_down (length h) 0 (x :: t))
  end.

Definition front (h : list A) : res A := match h with [] => Err UndefinedBehaviour | x :: _ => Ok x end.

(** [std::make_heap]: sift down from the last parent to the root. *)
Fixpoint make_heap_from (n : nat) (h : list A) : list A :=
  match n with O => h | S k => make_heap_from k (sift_down (length h) k h) end.

Definition make_heap (h : list A) : list A := make_heap_from (length h / 2) h.

(** [std::sort], as an insertion sort. *)
Fixpoint sorted_insert (x : A) (l : list A) : list A :=
  match l with
  | [] => [x]
  | y :: t => if less y x then y :: sorted_insert x t else x :: l
  end.

Definition std_sort (l : list A) : list A := foldr sorted_insert [] l.
End sift.

(** ** The scan heap *)

Record HeapEntry := mkHeapEntry { pq_dist : Z; leaf_slot : Z; local_idx : Z }.

#[export] Instance HeapEntry_eq_dec : EqDecision HeapEntry.
Proof. solve_decision. Defined.

Definition heap_entry_less (a b : HeapEntry) : bool :=
  if negb (pq_dist a =? pq_dist b) then pq_dist a <? pq_dist b
  else if negb (leaf_slot a =? leaf_slot b) then leaf_slot a <? leaf_slot b
  else local_idx a <? local_idx b.

Definition heap_replace (h : list HeapEntry) (new_d slot idx : Z) : res (list HeapEntry) :=
  replace_root heap_entry_less h (mkHeapEntry new_d slot idx).

Record RawScanHeap := mkRawScanHeap { rsh_h : list HeapEntry; rsh_w : Z; rsh_slot : Z }.

Definition set_heap (s : RawScanHeap) (h : list HeapEntry) : RawScanHeap := mkRawScanHeap h (rsh_w s) (rsh_slot s).

Definition heap_full (s : RawScanHeap) : bool := rsh_w s <=? Z.of_nat (length (rsh_h s)).

Definition heap_push (s : RawScanHeap) (dist_key idx : Z) : RawScanHeap :=
  let h := rsh_h s ++ [mkHeapEntry dist_key (rsh_slot s) idx] in
  set_heap s (if Z.of_nat (length h) =? rsh_w s then make_heap heap_entry_less h else h).

Definition heap_front (s : RawScanHeap) : res Z := f ← front (rsh_h s); mret (pq_dist f).

Definition sentinel : HeapEntry := mkHeapEntry 0xFFFFFFFF 0xFFFFFFFF 0xFFFFFFFF.

Definition heap_entry_is_sentinel (e : HeapEntry) : bool := pq_dist e =? 0xFFFFFFFF.

Definition heap_init (w : Z) : list HeapEntry := replicate (Z.to_nat w) sentinel.

Definition strip_sentinels (h : list HeapEntry) : list HeapEntry :=
  filter (λ e, heap_entry_is_sentinel e = false) h.

Definition heap_compact (h : list HeapEntry) : list HeapEntry := make_heap heap_entry_less (strip_sentinels h).

Definition heap_should_replace (s : RawScanHeap) (dist_key idx : Z) : res bool :=
  f ← front (rsh_h s);
  mret (if negb (dist_key =? pq_dist f) then dist_key <? pq_dist f
        else if negb (rsh_slot s =? leaf_slot f) then rsh_slot s <? leaf_slot f
        else idx <? local_idx f).

Definition heap_replace_top (s : RawScanHeap) (dist_key idx : Z) : res RawScanHeap :=
  h ← heap_replace (rsh_h s) dist_key (rsh_slot s) idx; mret (set_heap s h).

(** The guarded replacement every kernel ends in. *)
Definition heap_offer (s : RawScanHeap) (dist_key idx : Z) : res RawScanHeap :=
  b ← heap_should_replace s dist_key idx; if (b : bool) then heap_replace_top s dist_key idx else mret s.

(** The merge of the workers' heaps: everything, and the first [W] when there are more. *)
Definition merge_heaps (w : Z) (hs : list (list HeapEntry)) : list HeapEntry :=
  let all := concat hs in
  if w <? Z.of_nat (length all) then take (Z.to_nat w) (std_sort heap_entry_less all) else all.

(** ** Strict weak orders *)

Class StrictWeakOrder {A : Type} (less : A → A → bool) := {
  swo_irrefl x : less x x = false;
  swo_trans x y z : less x y = true → less y z = true → less x z = true;
  swo_cotrans x y z : less x z = true → less x y = true ∨ less y z = true;
}.

(** The order of a key of three integers. *)
Definition key_less (a b : Z * Z * Z) : bool :=
  let '(a1, a2, a3) := a in let '(b1, b2, b3) := b in
  if negb (a1 =? b1) then a1 <? b1 else if negb (a2 =? b2) then a2 <? b2 else a3 <? b3.

Ltac key_order :=
  unfold key_less; repeat match goal with k : Z * Z * Z |- _ => destruct k as [[? ?] ?] end;
  repeat match goal with |- context [?a =? ?b] => destruct (Z.eqb_spec a b) end; cbn [negb];
  rewrite ?Z.ltb_lt, ?Z.ltb_ge; lia.

#[export] Instance key_less_swo {A} (key : A → Z * Z * Z) : StrictWeakOrder (λ x y, key_less (key x) (key y)).
Proof.
  split.
  - intros x. generalize (key x). intros k. key_order.
  - intros x y z. generalize (key x), (key y), (key z). intros a b c. key_order.
  - intros x y z. generalize (key x), (key y), (key z). intros a b c. key_order.
Qed.

Definition entry_key (e : HeapEntry) : Z * Z * Z := (pq_dist e, leaf_slot e, local_idx e).

#[export] Instance heap_entry_swo : StrictWeakOrder heap_entry_less.
Proof. exact (key_less_swo entry_key). Qed.

Section order.
Context {A : Type} (less : A → A → bool) `{!StrictWeakOrder less}.

(** Not greater. *)
Definition le (x y : A) : Prop := less y x = false.

Lemma le_refl x : le x x.
Proof. apply swo_irrefl. Qed.

Lemma le_trans x y z : le x y → le y z → le x z.
Proof.
  unfold le. intros H1 H2. destruct (less z x) eqn:E; [|done].
  destruct (swo_cotrans z y x E); congruence.
Qed.

Lemma less_le x y : less x y = true → le x y.
Proof.
  unfold le. intros Hxy. destruct (less y x) eqn:E; [|done].
  pose proof (swo_trans x y x Hxy E) as Hx. by rewrite swo_irrefl in Hx.
Qed.

Lemma le_total x y : le x y ∨ le y x.
Proof. destruct (less y x) eqn:E; [right; by apply less_le|by left]. Qed.

Lemma le_less_trans x y z : le x y → less y z = true → less x z = true.
Proof. unfold le. intros H1 H2. destruct (swo_cotrans y x z H2); congruence. Qed.

Lemma less_le_trans x y z : less x y = true → le y z → less x z = true.
Proof. unfold le. intros H1 H2. destruct (swo_cotrans x z y H1); congruence. Qed.
End order.

(** ** The heap property *)

Lemma child_eq pos k :
  Z.of_nat pos < 2 ^ 31 - 1 → 1 ≤ k ≤ 2 → child pos k = (2 * pos + Z.to_nat k)%nat.
Proof. intros Hp Hk. unfold child. rewrite u32_id; lia. Qed.

Definition is_child (i j : nat) : Prop := j = (2 * i + 1)%nat ∨ j = (2 * i + 2)%nat.

Section heap.
Context {A : Type} (less : A → A → bool) `{!StrictWeakOrder less}.
Abbreviation le := (le less).

(** The heap property at the parents from [k] on, other than [p]; what is above [p] bounds what is below it. *)
Definition heap_from (k : nat) (h : list A) : Prop :=
  ∀ i j x y, (k ≤ i)%nat → is_child i j → h !! i = Some x → h !! j = Some y → le y x.

Definition weak_heap (k p : nat) (h : list A) : Prop :=
  (∀ i j x y, (k ≤ i)%nat → i ≠ p → is_child i j → h !! i = Some x → h !! j = Some y → le y x) ∧
  (∀ i j x y, (k ≤ i)%nat → is_child i p → is_child p j → h !! i = Some x → h !! j = Some y → le y x).

Abbreviation is_heap := (heap_from 0).

Implicit Types h l : list A.

Lemma swap_eq h i j x y : h !! i = Some x → h !! j = Some y → swap h i j = <[i := y]> (<[j := x]> h).
Proof. unfold swap. by intros -> ->. Qed.

Lemma swap_lookup h i j x y k :
  i ≠ j → h !! i = Some x → h !! j = Some y →
  swap h i j !! k = if decide (k = i) then Some y else if decide (k = j) then Some x else h !! k.
Proof.
  intros Hij Hi Hj. rewrite (swap_eq _ _ _ _ _ Hi Hj).
  pose proof (lookup_lt_Some _ _ _ Hi). pose proof (lookup_lt_Some _ _ _ Hj).
  repeat case_decide; subst.
  - rewrite list_lookup_insert_eq; [done|]. by rewrite length_insert.
  - rewrite list_lookup_insert_ne by done. by rewrite list_lookup_insert_eq.
  - by rewrite !list_lookup_insert_ne by done.
Qed.

Lemma swap_perm h i j : swap h i j ≡ₚ h.
Proof.
  unfold swap. destruct (h !! i) as [x|] eqn:Hi, (h !! j) as [y|] eqn:Hj; try done.
  destruct (decide (i = j)) as [->|Hij].
  { assert (x = y) as -> by congruence. by rewrite !list_insert_id by (by rewrite ?list_insert_id). }
  by apply Permutation_insert_swap.
Qed.

Lemma swap_length h i j : length (swap h i j) = length h.
Proof. unfold swap. destruct (h !! i), (h !! j); try done. by rewrite !length_insert. Qed.
Lemma larger_cases h i c :
  larger less h i c = i ∧ (∀ x y, h !! i = Some x → h !! c = Some y → le y x) ∨
  larger less h i c = c ∧ ∃ x y, h !! i = Some x ∧ h !! c = Some y ∧ less x y = true.
Proof.
  unfold larger. destruct (h !! i) as [x|] eqn:Hi; [|left; split; [done|congruence]].
  destruct (h !! c) as [y|] eqn:Hc; [|left; split; [done|congruence]].
  destruct (less x y) eqn:E; [right; split; [done|by exists x, y]|].
  left. split; [done|]. intros ? ? [= <-] [= <-]. exact E.
Qed.

(** One turn of the loop: the root of the subtree is not less than its children, or a child is the largest of the three. *)
Lemma largest_spec h p x :
  Z.of_nat p < 2 ^ 31 - 1 → h !! p = Some x →
  let m := larger less h (larger less h p (child p 1)) (child p 2) in
  m = p ∧ (∀ j y, is_child p j → h !! j = Some y → le y x) ∨
  is_child p m ∧ ∃ z, h !! m = Some z ∧ less x z = true ∧ ∀ j y, is_child p j → h !! j = Some y → le y z.
Proof.
  intros Hp Hx m. subst m. rewrite !child_eq by lia. change (Z.to_nat 1) with 1%nat. change (Z.to_nat 2) with 2%nat.
  destruct (larger_cases h p (2 * p + 1)) as [[-> H1]|[-> (? & y1 & ? & Hy1 & L1)]]; simplify_eq.
  - destruct (larger_cases h p (2 * p + 2)) as [[-> H2]|[-> (? & y2 & ? & Hy2 & L2)]]; simplify_eq.
    + left. split; [done|]. intros j y [-> | ->] Hj; eauto.
    + right. split; [by right|]. exists y2. split_and!; [done..|]. intros j y [-> | ->] Hj.
      * apply less_le; [done|]. eapply le_less_trans; eauto.
      * simplify_eq. by apply le_refl.
  - destruct (larger_cases h (2 * p + 1) (2 * p + 2)) as [[-> H2]|[-> (? & y2 & ? & Hy2 & L2)]]; simplify_eq.
    + right. split; [by left|]. exists y1. split_and!; [done..|]. intros j y [-> | ->] Hj; [|eauto].
      simplify_eq. by apply le_refl.
    + right. split; [by right|]. exists y2. split_and!; [done|by eapply swo_trans|]. intros j y [-> | ->] Hj; simplify_eq.
      * by apply less_le.
      * by apply le_refl.
Qed.

Lemma is_child_inj i i' j : is_child i j → is_child i' j → i = i'.
Proof. unfold is_child. lia. Qed.

(** Swapping the root of a subtree with its largest child moves the hole down. *)
Lemma weak_heap_step k p c h x z :
  (k ≤ p)%nat → weak_heap k p h → is_child p c → h !! p = Some x → h !! c = Some z → less x z = true →
  (∀ j y, is_child p j → h !! j = Some y → le y z) → weak_heap k c (swap h p c).
Proof.
  intros Hk [H1 H2] Hc Hx Hz Hlt Hmax. assert (p ≠ c) as Hpc by (unfold is_child in Hc; lia).
  assert (∀ i j, is_child i j → i ≠ j) as Hne by (unfold is_child; lia).
  split; intros i j a b Hi.
  - intros Hic Hij. rewrite !(swap_lookup h p c x z) by done. pose proof (Hne _ _ Hij).
    repeat case_decide; subst; intros; simplify_eq; try done.
    + by apply less_le.
    + eauto.
    + eapply H2; eauto.
    + by destruct (is_child_inj _ _ _ Hij Hc).
    + eapply H1; eauto.
  - intros Hip Hcj. assert (i = p) as -> by by eapply is_child_inj.
    rewrite !(swap_lookup h p c x z) by done. pose proof (Hne _ _ Hcj).
    assert (j ≠ p) by (unfold is_child in *; lia).
    repeat case_decide; subst; intros; simplify_eq; try done. eapply (H1 c); eauto. unfold is_child in Hc. lia.
Qed.

Lemma sift_down_ok k fuel p h :
  Z.of_nat (length h) < 2 ^ 31 → (k ≤ p)%nat → (length h ≤ p + fuel)%nat → weak_heap k p h →
  heap_from k (sift_down less fuel p h) ∧ sift_down less fuel p h ≡ₚ h.
Proof.
  intros Hl. revert p h Hl. induction fuel as [|fuel IH]; intros p h Hl Hk Hf Hw; cbn [sift_down].
  - split; [|done]. intros i j x y Hi Hc Hx Hy. destruct (decide (i = p)) as [->|]; [|by eapply (proj1 Hw)].
    apply lookup_lt_Some in Hx. lia.
  - destruct (h !! p) as [x|] eqn:Hx.
    + destruct (largest_spec h p x) as [[-> Hch]|(Hc & z & Hz & Hlt & Hmax)]; [apply lookup_lt_Some in Hx; lia|done|..].
      * rewrite bool_decide_true by done. split; [|done]. intros i j a b Hi Hij Ha Hb.
        destruct (decide (i = p)) as [->|]; [|by eapply (proj1 Hw)]. simplify_eq. eauto.
      * set (m := larger _ _ _ _) in *. assert (p < m)%nat by (unfold is_child in Hc; lia).
        rewrite bool_decide_false by lia.
        destruct (IH m (swap h p m)) as [Hh Hp]; rewrite ?swap_length; try lia.
        { by eapply weak_heap_step. }
        split; [done|]. by rewrite Hp, swap_perm.
    + assert (∀ c, larger less h p c = p) as E by (intros; unfold larger; by rewrite Hx).
      rewrite !E, bool_decide_true by done. split; [|done]. intros i j a b Hi Hij Ha Hb.
      destruct (decide (i = p)) as [->|]; [congruence|by eapply (proj1 Hw)].
Qed.

(** The root of a heap is a greatest element. *)
Lemma heap_root h x y : is_heap h → h !! 0%nat = Some x → y ∈ h → le y x.
Proof.
  intros Hh Hx Hy. apply list_elem_of_lookup_1 in Hy as [i Hi]. revert y Hi.
  induction (lt_wf i) as [i _ IH]. intros y Hi.
  destruct (decide (i = 0%nat)) as [->|Hne]; [simplify_eq; by apply le_refl|].
  set (g := ((i - 1) / 2)%nat). assert (is_child g i) as Hg.
  { unfold is_child, g. pose proof (Nat.div_mod_eq (i - 1) 2). pose proof (Nat.mod_upper_bound (i - 1) 2). lia. }
  assert (g < i)%nat by (unfold is_child in Hg; lia).
  destruct (lookup_lt_is_Some_2 h g) as [z Hz]; [apply lookup_lt_Some in Hi; lia|].
  eapply le_trans; [done|apply (Hh g i z y); [lia|done..]|by apply (IH g)].
Qed.

Lemma replace_root_ok x y t :
  is_heap (x :: t) → Z.of_nat (length (x :: t)) < 2 ^ 31 →
  ∃ h, replace_root less (x :: t) y = Ok h ∧ is_heap h ∧ h ≡ₚ y :: t.
Proof.
  intros Hh Hl. unfold replace_root. eexists. split; [done|].
  apply sift_down_ok; [done|lia|simpl; lia|]. split; [|unfold is_child; lia].
  intros i j a b _ Hi Hc Ha Hb. apply (Hh i j a b); [lia|done|..].
  - by destruct i.
  - destruct j; [unfold is_child in Hc; lia|done].
Qed.

Lemma make_heap_from_ok n h :
  Z.of_nat (length h) < 2 ^ 31 → heap_from n h → is_heap (make_heap_from less n h) ∧ make_heap_from less n h ≡ₚ h.
Proof.
  intros Hl. revert h Hl. induction n as [|n IH]; intros h Hl Hh; cbn [make_heap_from]; [done|].
  destruct (sift_down_ok n (length h) n h) as [H1 H2]; [done|lia|lia|..].
  { split; [|unfold is_child; lia]. intros i j a b Hi Hne. apply Hh. lia. }
  destruct (IH (sift_down less (length h) n h)) as [H3 H4]; [by rewrite H2|done|]. split; [done|by rewrite H4].
Qed.

Lemma make_heap_ok h : Z.of_nat (length h) < 2 ^ 31 → is_heap (make_heap less h) ∧ make_heap less h ≡ₚ h.
Proof.
  intros Hl. apply make_heap_from_ok; [done|]. intros i j x y Hi Hc _ Hy. apply lookup_lt_Some in Hy.
  pose proof (Nat.div_mod_eq (length h) 2). pose proof (Nat.mod_upper_bound (length h) 2). unfold is_child in Hc. lia.
Qed.

Lemma heap_replicate n s : is_heap (replicate n s).
Proof. intros i j x y _ _ Hx Hy. apply lookup_replicate in Hx as [-> _], Hy as [-> _]. by apply le_refl. Qed.
End heap.

(** ** The [w] least elements *)

Section topw.
Context {A : Type} (less : A → A → bool) `{!StrictWeakOrder less}.
Abbreviation le := (le less).
Implicit Types h l rest : list A.

Definition topw (w : nat) (l h : list A) : Prop :=
  ∃ rest, l ≡ₚ h ++ rest ∧ length h = (w `min` length l)%nat ∧ ∀ x y, x ∈ h → y ∈ rest → le x y.

Definition count_less (x : A) (l : list A) : nat := length (filter (λ y, less y x = true) l).

Lemma count_less_app x l1 l2 : count_less x (l1 ++ l2) = (count_less x l1 + count_less x l2)%nat.
Proof. unfold count_less. by rewrite filter_app, length_app. Qed.

#[export] Instance count_less_perm x : Proper ((≡ₚ) ==> eq) (count_less x).
Proof. intros l l' E. unfold count_less. by rewrite E. Qed.

Lemma count_less_none x l : (∀ y, y ∈ l → le x y) → count_less x l = 0%nat.
Proof.
  intros H. unfold count_less. induction l as [|y l IH]; [done|]. rewrite filter_cons_False.
  - apply IH. intros z Hz. apply H. by right.
  - specialize (H y (list_elem_of_here _ _)). unfold TopW.le in H. congruence.
Qed.

Lemma count_less_all x l : (∀ y, y ∈ l → less y x = true) → count_less x l = length l.
Proof.
  intros H. unfold count_less. induction l as [|y l IH]; [done|]. rewrite filter_cons_True by (apply H; by left).
  cbn [length]. f_equal. apply IH. intros z Hz. apply H. by right.
Qed.

(** Fewer than [w] elements are less than a chosen one. *)
Lemma topw_count w l h x : topw w l h → x ∈ h → (count_less x l < w)%nat.
Proof.
  intros (rest & E & Hl & Hle) Hx. rewrite E, count_less_app, (count_less_none x rest) by eauto.
  apply list_elem_of_split in Hx as (h1 & h2 & ->). rewrite !length_app in Hl. cbn [length] in Hl.
  change (x :: h2) with ([x] ++ h2). rewrite !count_less_app.
  assert (count_less x [x] = 0)%nat as ->.
  { apply count_less_none. intros y ->%list_elem_of_singleton. by apply le_refl. }
  pose proof (length_filter (λ y, less y x = true) h1). pose proof (length_filter (λ y, less y x = true) h2).
  unfold count_less. lia.
Qed.

#[export] Instance topw_perm w : Proper ((≡ₚ) ==> (≡ₚ) ==> iff) (topw w).
Proof.
  intros l l' El h h' Eh. unfold topw. split; intros (rest & E & Hl & Hle); exists rest; split_and!.
  - by rewrite <- El, <- Eh.
  - by rewrite <- El, <- Eh.
  - intros x y Hx. apply Hle. by rewrite Eh.
  - by rewrite El, Eh.
  - by rewrite El, Eh.
  - intros x y Hx. apply Hle. by rewrite <- Eh.
Qed.

Lemma topw_elem w l h x : topw w l h → x ∈ h → x ∈ l.
Proof. intros (rest & E & _) Hx. rewrite E. apply elem_of_app. by left. Qed.

Lemma topw_all w l : (length l ≤ w)%nat → topw w l l.
Proof. intros H. exists []. rewrite app_nil_r. split_and!; [done|lia|]. intros x y _ []%not_elem_of_nil. Qed.

Lemma topw_length w l h : topw w l h → length h = (w `min` length l)%nat.
Proof. by intros (rest & _ & Hl & _). Qed.

(** Offering an element to a full heap. *)
Lemma topw_offer w l x t y h :
  topw w l (x :: t) → length (x :: t) = w → (∀ z, z ∈ x :: t → le z x) →
  h ≡ₚ (if less y x then y :: t else x :: t) → topw w (y :: l) h.
Proof.
  intros (rest & E & Hl & Hle) Hw Hmax ->. destruct (less y x) eqn:Hyx.
  - exists (x :: rest). split_and!.
    + rewrite E. cbn [app]. constructor. apply Permutation_middle.
    + simpl in *. lia.
    + intros a b Ha Hb. apply elem_of_cons in Ha as [->|Ha], Hb as [->|Hb].
      * by apply less_le.
      * eapply le_trans; [done|by apply less_le|]. apply Hle; [by left|done].
      * apply Hmax. by right.
      * apply Hle; [by right|done].
  - exists (y :: rest). split_and!.
    + rewrite E. by rewrite Permutation_middle.
    + cbn [length] in *. lia.
    + intros a b Ha Hb. apply elem_of_cons in Hb as [->|Hb]; [|by apply Hle].
      eapply le_trans; [done|by apply Hmax|done].
Qed.

(** Elements above everything are dropped. *)
Lemma topw_filter w l h (P : A → Prop) `{!∀ x, Decision (P x)} :
  (∀ x y, x ∈ l → y ∈ l → le x y → P y → P x) → topw w l h → topw w (filter P l) (filter P h).
Proof.
  intros HP (rest & E & Hl & Hle). exists (filter P rest). split_and!.
  - by rewrite E, filter_app.
  - rewrite E, filter_app, length_app. rewrite E, length_app in Hl.
    destruct (filter P rest) as [|y r] eqn:Er.
    + cbn [length]. pose proof (length_filter P h). lia.
    + assert (y ∈ filter P rest) as Hy by (rewrite Er; by left). apply list_elem_of_filter in Hy as [Py Hy].
      assert (filter P h = h) as ->.
      { assert (∀ x, x ∈ h → P x) as Hall.
        { intros x Hx. apply (HP x y); [rewrite E; set_solver..|by apply Hle|done]. }
        clear -Hall. induction h as [|x h IH]; [done|].
        rewrite filter_cons_True by (apply Hall; by left). f_equal. apply IH. intros z Hz. apply Hall. by right. }
      destruct rest; [by apply not_elem_of_nil in Hy|]. cbn [length] in *. lia.
  - intros x y Hx Hy. apply list_elem_of_filter in Hx as [_ Hx], Hy as [_ Hy]. by apply Hle.
Qed.

(** The least elements of the least elements of the shards are the least elements of all. *)
Lemma topw_shards w ls hs h : Forall2 (topw w) ls hs → topw w (concat hs) h → topw w (concat ls) h.
Proof.
  intros Hls Hh. assert (∃ rr, concat ls ≡ₚ concat hs ++ rr ∧ (length (concat hs) `min` w = length (concat ls) `min` w)%nat ∧
    ∀ y, y ∈ rr → ∃ hi, hi ∈ hs ∧ length hi = w ∧ ∀ x, x ∈ hi → le x y) as (rr & Er & Hlr & Hr).
  { clear h Hh. induction Hls as [|l1 h1 ls hs (r1 & E1 & L1 & O1) _ (rr & Er & Hlr & Hr)].
    - exists []. split_and!; [done|done|]. intros y []%not_elem_of_nil.
    - exists (r1 ++ rr). cbn [concat]. split_and!.
      + rewrite E1, Er. rewrite <- !app_assoc. f_equiv. rewrite !app_assoc. f_equiv. apply Permutation_app_comm.
      + rewrite !length_app. lia.
      + intros y [Hy|Hy]%elem_of_app.
        * exists h1. split_and!; [by left| |by eauto]. rewrite E1, length_app in L1. destruct r1; [by apply not_elem_of_nil in Hy|].
          cbn [length] in L1. lia.
        * destruct (Hr y Hy) as (hi & ? & ? & ?). exists hi. split_and!; [by right|done..]. }
  destruct Hh as (r & E & Hl & Hle). exists (r ++ rr). split_and!.
  - by rewrite Er, E, app_assoc.
  - lia.
  - intros x y Hx [Hy|Hy]%elem_of_app; [by apply Hle|]. destruct (Hr y Hy) as (hi & Hhi & Hw & Hxy).
    destruct (less y x) eqn:Hlt; [exfalso|done].
    assert (count_less x (concat hs) < w)%nat as Hc by (eapply topw_count; [by exists r|done]).
    apply list_elem_of_split in Hhi as (ha & hb & ->).
    rewrite concat_app, count_less_app in Hc. cbn [concat] in Hc. rewrite count_less_app in Hc.
    rewrite (count_less_all x hi) in Hc; [lia|]. intros z Hz. eapply le_less_trans; [done|by apply Hxy|done].
Qed.

Lemma sorted_insert_perm x l : sorted_insert less x l ≡ₚ x :: l.
Proof.
  induction l as [|y t IH]; cbn [sorted_insert]; [done|]. destruct (less y x); [|done]. rewrite IH. apply Permutation_swap.
Qed.

Lemma std_sort_perm l : std_sort less l ≡ₚ l.
Proof. induction l as [|x l IH]; [done|]. cbn [std_sort foldr]. rewrite sorted_insert_perm. by f_equiv. Qed.

Lemma sorted_insert_sorted x l : StronglySorted le l → StronglySorted le (sorted_insert less x l).
Proof.
  induction 1 as [|y t Hs IH Hy]; cbn [sorted_insert]; [by repeat constructor|]. destruct (less y x) eqn:E.
  - constructor; [done|]. rewrite sorted_insert_perm. constructor; [|done]. by apply less_le.
  - constructor; [by constructor|]. constructor; [done|]. eapply Forall_impl; [exact Hy|]. intros z Hz. by eapply le_trans.
Qed.

Lemma std_sort_sorted l : StronglySorted le (std_sort less l).
Proof. induction l as [|x l IH]; [constructor|]. by apply sorted_insert_sorted. Qed.

(** Sorting what is sorted changes nothing. *)
Lemma std_sort_id l : StronglySorted le l → std_sort less l = l.
Proof.
  induction 1 as [|x t Hs IH Hx]; [done|]. cbn [std_sort foldr]. unfold std_sort in IH. rewrite IH.
  destruct t as [|y t]; [done|]. cbn [sorted_insert]. apply Forall_cons in Hx as [Hxy _]. unfold TopW.le in Hxy. by rewrite Hxy.
Qed.

Lemma sorted_topw w l : StronglySorted le l → topw w l (take w l).
Proof.
  intros Hs. exists (drop w l). rewrite take_drop. split_and!; [done|by rewrite length_take|].
  revert w Hs. induction l as [|a l IH]; intros w Hs x y Hx Hy.
  { rewrite take_nil in Hx. by apply not_elem_of_nil in Hx. }
  apply StronglySorted_inv in Hs as [Hs Ha]. destruct w as [|w]; [by apply not_elem_of_nil in Hx|].
  cbn [take drop] in Hx, Hy. apply elem_of_cons in Hx as [->|Hx]; [|by apply (IH w)].
  rewrite Forall_forall in Ha. apply Ha. rewrite <- (take_drop w l), elem_of_app. by right.
Qed.

Lemma topw_take_sort w l : topw w l (take w (std_sort less l)).
Proof. rewrite <- (std_sort_perm l) at 1. apply sorted_topw, std_sort_sorted. Qed.

(** Under a total order the least elements are determined. *)
Lemma topw_sort `{!AntiSymm eq le} w l h : topw w l h → std_sort less h = take w (std_sort less l).
Proof.
  intros (rest & E & Hl & Hle).
  assert (std_sort less l = std_sort less h ++ std_sort less rest) as ->.
  { apply (StronglySorted_unique le); [apply std_sort_sorted| |by rewrite !std_sort_perm, E].
    apply StronglySorted_app_2; [|apply std_sort_sorted..]. intros x y Hx Hy. rewrite std_sort_perm in Hx, Hy. by apply Hle. }
  assert (length (std_sort less h) = length h) as Hlen by by rewrite std_sort_perm.
  rewrite E, length_app in Hl. destruct rest as [|y rest].
  - rewrite app_nil_r. symmetry. apply take_ge. cbn [length] in Hl. lia.
  - rewrite take_app_length'; [done|]. cbn [length] in Hl. lia.
Qed.

Lemma topw_unique `{!AntiSymm eq le} w l l' h h' : topw w l h → topw w l' h' → l ≡ₚ l' → h ≡ₚ h'.
Proof.
  intros H1 H2 E. rewrite <- (std_sort_perm h), <- (std_sort_perm h'). rewrite E in H1.
  by rewrite (topw_sort w l' h), (topw_sort w l' h').
Qed.
End topw.

(** ** A bounded heap filled by guarded replacement *)

Section bounded.
Context {A : Type} (less : A → A → bool) `{!StrictWeakOrder less} (bottom : A).

(** [h] was filled with [bottom] and offered [pushed]. *)
Definition bounded_heap (w : nat) (pushed h : list A) : Prop :=
  heap_from less 0 h ∧ topw less w (replicate w bottom ++ pushed) h.

Definition offer (h : list A) (y : A) : res (list A) :=
  x ← front h; if less y x then replace_root less h y else mret h.

Lemma bounded_length w pushed h : bounded_heap w pushed h → length h = w.
Proof. intros [_ H]. apply topw_length in H. rewrite length_app, length_replicate in H. lia. Qed.

Lemma bounded_init w : bounded_heap w [] (replicate w bottom).
Proof. split; [by apply heap_replicate|]. rewrite app_nil_r. apply topw_all. by rewrite length_replicate. Qed.

#[export] Instance bounded_heap_perm w : Proper ((≡ₚ) ==> eq ==> iff) (bounded_heap w).
Proof. intros l l' E h ? <-. unfold bounded_heap. by rewrite E. Qed.

Lemma bounded_nonempty w pushed h : (0 < w)%nat → bounded_heap w pushed h → ∃ x t, h = x :: t.
Proof. intros Hw H. apply bounded_length in H. destruct h; simpl in H; [lia|eauto]. Qed.

Lemma bounded_front w pushed x t z : bounded_heap w pushed (x :: t) → z ∈ x :: t → le less z x.
Proof. intros [Hh _] Hz. by eapply (heap_root less (x :: t)). Qed.

Lemma offer_ok w pushed h y :
  (0 < w)%nat → Z.of_nat w < 2 ^ 31 → bounded_heap w pushed h →
  ∃ h', offer h y = Ok h' ∧ bounded_heap w (y :: pushed) h'.
Proof.
  intros Hw0 Hw H. destruct (bounded_nonempty _ _ _ Hw0 H) as (x & t & ->). pose proof (bounded_length _ _ _ H) as Hl.
  assert (∀ h', heap_from less 0 h' → h' ≡ₚ (if less y x then y :: t else x :: t) → bounded_heap w (y :: pushed) h') as Hoff.
  { intros h' Hh' E. split; [done|]. rewrite <- Permutation_middle.
    eapply (topw_offer _ _ _ x t); [exact (proj2 H)|done| |done]. intros z. by eapply bounded_front. }
  unfold offer. cbn [front]. rewrite bind_Ok. destruct (less y x).
  - destruct (replace_root_ok less x y t) as (h' & E & Hh' & Ep); [exact (proj1 H)|lia|].
    exists h'. split; [done|]. by apply Hoff.
  - exists (x :: t). split; [done|]. apply Hoff; [exact (proj1 H)|done].
Qed.

(** An element not less than the root changes nothing. *)
Lemma bounded_skip w pushed x t y :
  (0 < w)%nat → bounded_heap w pushed (x :: t) → less y x = false → bounded_heap w (y :: pushed) (x :: t).
Proof.
  intros Hw H E. split; [exact (proj1 H)|]. rewrite <- Permutation_middle.
  eapply (topw_offer _ _ _ x t); [exact (proj2 H)|by eapply bounded_length| |by rewrite E].
  intros z. by eapply bounded_front.
Qed.

(** The entries that are not at the bottom. *)
Lemma bounded_strip w pushed h (P : A → Prop) `{!∀ x, Decision (P x)} :
  ¬ P bottom → (∀ x, x ∈ pushed → P x → less x bottom = true) →
  (∀ x y, x ∈ pushed → y ∈ pushed → P x → ¬ P y → less x y = true) →
  bounded_heap w pushed h → topw less w (filter P pushed) (filter P h).
Proof.
  intros Hb Hreal Hnot [_ Ht]. apply (topw_filter less _ _ _ P) in Ht.
  - rewrite filter_app in Ht. assert (filter P (replicate w bottom) = []) as E; [|by rewrite E in Ht].
    clear -Hb. induction w as [|w IH]; [done|]. cbn [replicate]. by rewrite filter_cons_False.
  - intros x y Hx Hy Hxy Py. destruct (decide (P x)) as [|Px]; [done|exfalso]. unfold le in Hxy.
    apply elem_of_app in Hy as [[-> _]%elem_of_replicate|Hy]; [done|].
    apply elem_of_app in Hx as [[-> _]%elem_of_replicate|Hx].
    + by rewrite (Hreal y Hy Py) in Hxy.
    + by rewrite (Hnot y x Hy Hx Py Px) in Hxy.
Qed.
End bounded.

(** ** The scan heap *)

Definition entry_ok (e : HeapEntry) : Prop := 0 ≤ pq_dist e ≤ 0xFFFFFFFF.
Definition real (e : HeapEntry) : Prop := heap_entry_is_sentinel e = false.

#[export] Instance real_dec e : Decision (real e).
Proof. unfold real. apply _. Defined.

#[export] Instance heap_entry_antisymm : AntiSymm eq (le heap_entry_less).
Proof.
  intros [a1 a2 a3] [b1 b2 b3]. unfold le, heap_entry_less. cbn [pq_dist leaf_slot local_idx].
  repeat match goal with |- context [?a =? ?b] => destruct (Z.eqb_spec a b) end; cbn [negb];
    rewrite ?Z.ltb_ge; intros; f_equal; lia.
Qed.

Lemma heap_offer_offer s k i :
  heap_offer s k i =
  (h ← offer heap_entry_less (rsh_h s) (mkHeapEntry k (rsh_slot s) i); mret (set_heap s h)).
Proof.
  unfold heap_offer, heap_should_replace, offer, heap_replace_top, heap_replace.
  destruct s as [[|f h] w slot]; [done|]. cbn [rsh_h rsh_w rsh_slot front mbind res_bind mret res_ret].
  change (if negb (k =? pq_dist f) then _ else _) with (heap_entry_less (mkHeapEntry k slot i) f).
  by destruct (heap_entry_less _ f).
Qed.

Lemma strip_topw w pushed h :
  Forall entry_ok pushed → bounded_heap heap_entry_less sentinel w pushed h →
  topw heap_entry_less w (filter real pushed) (strip_sentinels h).
Proof.
  intros Hok. apply bounded_strip; [apply _|intros Hs; discriminate Hs|..].
  - intros x Hx Px. rewrite Forall_forall in Hok. specialize (Hok x Hx). unfold real, heap_entry_is_sentinel, entry_ok in *.
    unfold heap_entry_less. cbn [pq_dist sentinel]. destruct (Z.eqb_spec (pq_dist x) 0xFFFFFFFF); [done|]. cbn [negb]. lia.
  - intros x y Hx Hy Px Py. rewrite Forall_forall in Hok. pose proof (Hok x Hx). pose proof (Hok y Hy).
    unfold real, heap_entry_is_sentinel, entry_ok in *. unfold heap_entry_less.
    destruct (Z.eqb_spec (pq_dist x) 0xFFFFFFFF); [done|]. destruct (Z.eqb_spec (pq_dist y) 0xFFFFFFFF); [|done].
    destruct (Z.eqb_spec (pq_dist x) (pq_dist y)); [lia|]. cbn [negb]. lia.
Qed.

Lemma merge_heaps_topw w hs : 0 ≤ w → topw heap_entry_less (Z.to_nat w) (concat hs) (merge_heaps w hs).
Proof.
  intros Hw. unfold merge_heaps. destruct (Z.ltb_spec w (Z.of_nat (length (concat hs)))).
  - apply topw_take_sort, _.
  - apply topw_all. lia.
Qed.
