(* ===== verification/ScanKernels.v ===== *)
(** * ScanKernels: the block kernels of the code scan
    ([src/simd_kernels.hpp], [src/tree/coders/coder_util.hpp])

    A block holds the codes of 32 vectors (4-bit segments) or 16 (8-bit ones); its
    kernel adds up, for each vector, one table entry per segment.  The NEON, AVX2
    and portable variants are modelled on lists of lanes, with the wrap-around or
    the saturation of their accumulators, and are equal to the plain sum as long as
    that sum fits the accumulator.  Two consecutive 8-lane registers of the source
    are one 16-lane list here. *)
From S2P Require Import Prelude TreeNodes FastScanCodes.

(** ** Lanes *)

Definition zeros16 : list Z := replicate 16 0.

Definition vaddq_u16 (a b : list Z) : list Z := zip_with (λ x y, u16 (x + y)) a b.
Definition adds_epu16 (a b : list Z) : list Z := zip_with (λ x y, Z.min 65535 (x + y)) a b.
Definition add_u32 (a b : list Z) : list Z := zip_with (λ x y, u32 (x + y)) a b.

(** [vqtbl1q_u8] and [vqtbl4q_u8]: an index outside the table gives 0. *)
Definition vqtbl (table idx : list Z) : list Z := byte_at table ∘ Z.to_nat <$> idx.

(** [_mm_shuffle_epi8]: a set high bit gives 0, otherwise the low nibble selects. *)
Definition shuffle_epi8 (table idx : list Z) : list Z :=
  (λ i, if Z.testbit i 7 then 0 else byte_at table (Z.to_nat (Z.land i 15))) <$> idx.

(** [_mm_srli_epi16(c, 4)]: pairs of bytes shifted as 16-bit lanes. *)
Fixpoint srli_epi16_4 (c : list Z) : list Z :=
  match c with
  | a :: b :: rest =>
      let x := Z.shiftr (a + 256 * b) 4 in x mod 256 :: x / 256 :: srli_epi16_4 rest
  | _ => c
  end.

(** ** The 4-bit kernel *)

Definition neon_segment (blk lut4 : list Z) (s : Z) (acc : list Z * list Z) : res (list Z * list Z) :=
  lut_v ← mem_read lut4 (s * 16) 16;
  c ← mem_read blk (s * 16) 16;
  let rlo := vqtbl lut_v ((λ b, Z.land b 0x0F) <$> c) in
  let rhi := vqtbl lut_v ((λ b, Z.shiftr b 4) <$> c) in
  mret (vaddq_u16 acc.1 rlo, vaddq_u16 acc.2 rhi).

(** Even segments go to [a0], odd ones to [a1], and the last of an odd number to [a0]. *)
Definition pq4_block32_neon (blk lut4 : list Z) (m : Z) : res (list Z) :=
  '(a0, a1) ← for_range (Z.to_nat (m / 2)) 0 (λ i '(a0, a1),
      a0 ← neon_segment blk lut4 (2 * i) a0;
      a1 ← neon_segment blk lut4 (2 * i + 1) a1;
      mret (a0, a1)) ((zeros16, zeros16), (zeros16, zeros16));
  a0 ← (if m / 2 * 2 <? m then neon_segment blk lut4 (m / 2 * 2) a0 else mret a0);
  mret (vaddq_u16 a0.1 a1.1 ++ vaddq_u16 a0.2 a1.2).

Definition avx2_segment (blk lut4 : list Z) (s : Z) (acc : list Z * list Z) : res (list Z * list Z) :=
  c ← mem_read blk (s * 16) 16;
  l ← mem_read lut4 (s * 16) 16;
  let clo := (λ b, Z.land b 0x0F) <$> c in
  let chi := (λ b, Z.land b 0x0F) <$> srli_epi16_4 c in
  mret (adds_epu16 acc.1 (shuffle_epi8 l clo), adds_epu16 acc.2 (shuffle_epi8 l chi)).

Definition pq4_block32_avx2 (blk lut4 : list Z) (m : Z) : res (list Z) :=
  '(lo, hi) ← for_range (Z.to_nat m) 0 (avx2_segment blk lut4) (zeros16, zeros16);
  mret (lo ++ hi).

Definition scalar_segment (blk lut4 : list Z) (s : Z) (acc : list Z * list Z) : res (list Z * list Z) :=
  codes ← mem_read blk (s * 16) 16;
  row ← mem_read lut4 (s * 16) 16;
  mret (add_u32 acc.1 ((λ c, byte_at row (Z.to_nat (Z.land c 0x0F))) <$> codes),
        add_u32 acc.2 ((λ c, byte_at row (Z.to_nat (Z.shiftr c 4))) <$> codes)).

Definition pq4_block32 (blk lut4 : list Z) (m : Z) : res (list Z) :=
  '(lo, hi) ← for_range (Z.to_nat m) 0 (scalar_segment blk lut4) (zeros16, zeros16);
  mret (lo ++ hi).

(** ** The 8-bit kernel *)

(** A row of 256 entries is four tables of 64; the bank of an index is its top two bits. *)
Definition fs16_neon_segment (blk lut8 : list Z) (s : Z) (acc : list Z) : res (list Z) :=
  c16 ← mem_read blk (s * 16) 16;
  row ← mem_read lut8 (s * 256) 256;
  let i16 := (λ b, Z.land b 63) <$> c16 in
  let b16 := (λ b, Z.shiftr b 6) <$> c16 in
  let bank (bk : Z) := vqtbl (take 64 (drop (Z.to_nat (bk * 64)) row))
                             (zip_with (λ b i, if b =? bk then i else 0xFF) b16 i16) in
  let r := fold_left (zip_with Z.lor) [bank 0; bank 1; bank 2; bank 3] zeros16 in
  mret (add_u32 acc r).

Definition mask_lanes (valid_mask : Z) (out : list Z) : list Z :=
  imap (λ j x, if Z.testbit valid_mask (Z.of_nat j) then x else 0xFFFFFFFF) out.

Definition fastscan_block16_neon (blk lut8 : list Z) (m valid_mask : Z) : res (list Z) :=
  acc ← for_range (Z.to_nat m) 0 (fs16_neon_segment blk lut8) zeros16;
  mret (mask_lanes valid_mask acc).

Definition fastscan_block16 (blk lut8 : list Z) (m valid_mask : Z) : res (list Z) :=
  mapM (λ j,
    if negb (Z.testbit valid_mask j) then mret 0xFFFFFFFF
    else for_range (Z.to_nat m) 0 (λ s acc,
           code ← vec_get blk (s * 16 + j); x ← vec_get lut8 (s * 256 + code); mret (u32 (acc + x))) 0) (seqZ 0 16).

(** ** The lanes after the kernel *)

Definition u32_mask_sentinel32 (v : list Z) (valid_mask : Z) : list Z := mask_lanes valid_mask v.

Definition u32_min32 (v : list Z) : Z := fold_left Z.min v 0xFFFFFFFF.
Definition u32_min16 (v : list Z) : Z := fold_left Z.min v 0xFFFFFFFF.

(** ** Specification: the sum over the segments *)

Fixpoint sum_to (n : nat) (f : Z → Z) : Z :=
  match n with O => 0 | S k => sum_to k f + f (Z.of_nat k) end.

(** The table entry of segment [s] for the vector in lane [j]. *)
Definition pq4_term (blk lut4 : list Z) (j s : Z) : Z :=
  byte_at lut4 (Z.to_nat (s * 16 + nib (j / 16) (byte_at blk (Z.to_nat (s * 16 + j mod 16))))).

Definition fs16_term (blk lut8 : list Z) (j s : Z) : Z :=
  byte_at lut8 (Z.to_nat (s * 256 + byte_at blk (Z.to_nat (s * 16 + j)))).

(** ** Lemmas: lanes *)

Definition lanes {A} (f : Z → A) : list A := f <$> seqZ 0 16.

Lemma lanes_ext {A} (f g : Z → A) : (∀ j, 0 ≤ j < 16 → f j = g j) → lanes f = lanes g.
Proof. intros H. apply list_fmap_ext. intros i j Hj. apply lookup_seqZ in Hj. apply H. lia. Qed.

Lemma fmap_lanes {A B} (g : A → B) f : g <$> lanes f = lanes (λ j, g (f j)).
Proof. reflexivity. Qed.

Lemma zip_with_lanes {A B C} (g : A → B → C) f f' : zip_with g (lanes f) (lanes f') = lanes (λ j, g (f j) (f' j)).
Proof. reflexivity. Qed.

Lemma lanes_app {A} (f g : Z → A) : lanes f ++ lanes g = (λ j, if j <? 16 then f j else g (j - 16)) <$> seqZ 0 32.
Proof. reflexivity. Qed.

Lemma zeros_lanes : zeros16 = lanes (λ _, 0).
Proof. reflexivity. Qed.

Lemma byte_at_map (l : list Z) : l = byte_at l ∘ Z.to_nat <$> seqZ 0 (Z.of_nat (length l)).
Proof.
  apply list_eq. intros i. rewrite list_lookup_fmap. destruct (decide (i < length l)%nat) as [Hi|Hi].
  - rewrite lookup_seqZ_lt by lia. cbn [fmap option_fmap option_map compose]. rewrite byte_at_lookup by done.
    do 2 f_equal. lia.
  - rewrite !lookup_ge_None_2; [done|rewrite length_seqZ; lia|lia].
Qed.

Lemma mem_read_row buf off n :
  0 ≤ off → 0 ≤ n → off + n ≤ Z.of_nat (length buf) →
  mem_read buf off n = Ok ((λ j, byte_at buf (Z.to_nat (off + j))) <$> seqZ 0 n).
Proof.
  intros Ho Hn Hl. unfold mem_read. rewrite bool_decide_true by lia. f_equal. rewrite (byte_at_map (bytes_at _ _ _)).
  assert (length (bytes_at buf (Z.to_nat off) (Z.to_nat n)) = Z.to_nat n) as ->
    by (unfold bytes_at; rewrite length_take, length_drop; lia).
  rewrite Z2Nat.id by lia. apply list_fmap_ext. intros i j Hj%lookup_seqZ. cbn [compose].
  rewrite byte_at_bytes_at, decide_True by lia. f_equal. lia.
Qed.

Lemma row_lookup (g : Z → Z) n i : 0 ≤ i < n → byte_at (g <$> seqZ 0 n) (Z.to_nat i) = g i.
Proof.
  intros Hi. unfold byte_at. rewrite list_lookup_fmap, lookup_seqZ_lt, Z.add_0_l, Z2Nat.id by lia. done.
Qed.

Lemma vqtbl_row buf off n f :
  0 ≤ n → (∀ j, 0 ≤ j < 16 → 0 ≤ f j < n) →
  vqtbl ((λ j, byte_at buf (Z.to_nat (off + j))) <$> seqZ 0 n) (lanes f) = lanes (λ j, byte_at buf (Z.to_nat (off + f j))).
Proof.
  intros Hn Hf. unfold vqtbl. rewrite fmap_lanes. apply lanes_ext. intros j Hj. cbn [compose]. by rewrite row_lookup by by apply Hf.
Qed.

Lemma vqtbl_lanes buf off f :
  (∀ j, 0 ≤ j < 16 → 0 ≤ f j < 16) →
  vqtbl (lanes (λ j, byte_at buf (Z.to_nat (off + j)))) (lanes f) = lanes (λ j, byte_at buf (Z.to_nat (off + f j))).
Proof. by apply vqtbl_row. Qed.

Lemma lane_lookup (g : Z → Z) i : 0 ≤ i < 16 → byte_at (lanes g) (Z.to_nat i) = g i.
Proof. apply row_lookup. Qed.

Lemma shuffle_lanes f g :
  (∀ j, 0 ≤ j < 16 → 0 ≤ f j < 16) →
  shuffle_epi8 (lanes g) (lanes f) = lanes (λ j, byte_at (lanes g) (Z.to_nat (f j))).
Proof.
  intros Hf. unfold shuffle_epi8. rewrite fmap_lanes. apply lanes_ext. intros j Hj. specialize (Hf j Hj).
  destruct (Z.testbit (f j) 7) eqn:E.
  - exfalso. apply Z.testbit_true in E; [|lia]. rewrite Z.div_small in E by lia. done.
  - change 15 with (Z.ones 4). by rewrite Z.land_ones, Z.mod_small by lia.
Qed.

Lemma srli_lanes f : (∀ j, is_byte (f j)) → (λ b, Z.land b 0x0F) <$> srli_epi16_4 (lanes f) = lanes (λ j, Z.shiftr (f j) 4).
Proof.
  intros Hf. assert (∀ a b, is_byte a → is_byte b → Z.land (Z.shiftr (a + 256 * b) 4 mod 256) 15 = Z.shiftr a 4 ∧
    Z.land (Z.shiftr (a + 256 * b) 4 / 256) 15 = Z.shiftr b 4) as Hab.
  { intros a b Ha Hb. unfold is_byte in *. change 15 with (Z.ones 4). rewrite !Z.land_ones, !Z.shiftr_div_pow2 by lia.
    Z.div_mod_to_equations. lia. }
  change (lanes f) with [f 0; f 1; f 2; f 3; f 4; f 5; f 6; f 7; f 8; f 9; f 10; f 11; f 12; f 13; f 14; f 15].
  change (lanes (λ j, Z.shiftr (f j) 4)) with
    [Z.shiftr (f 0) 4; Z.shiftr (f 1) 4; Z.shiftr (f 2) 4; Z.shiftr (f 3) 4; Z.shiftr (f 4) 4; Z.shiftr (f 5) 4; Z.shiftr (f 6) 4; Z.shiftr (f 7) 4; Z.shiftr (f 8) 4; Z.shiftr (f 9) 4; Z.shiftr (f 10) 4; Z.shiftr (f 11) 4; Z.shiftr (f 12) 4; Z.shiftr (f 13) 4; Z.shiftr (f 14) 4; Z.shiftr (f 15) 4].
  cbn [srli_epi16_4 fmap list_fmap].
  repeat (apply (f_equal2 cons); [by apply (Hab (f _) (f _))|]). done.
Qed.

(** ** Lemmas: sums *)

Lemma sum_to_S n f : sum_to (S n) f = sum_to n f + f (Z.of_nat n).
Proof. reflexivity. Qed.

Lemma sum_to_ext n f g : (∀ s, 0 ≤ s < Z.of_nat n → f s = g s) → sum_to n f = sum_to n g.
Proof. intros H. induction n as [|n IH]; [done|]. cbn [sum_to]. rewrite H by lia. rewrite IH; [done|]. intros s Hs. apply H. lia. Qed.

Lemma sum_to_bound n f L : (∀ s, 0 ≤ s < Z.of_nat n → 0 ≤ f s ≤ L) → 0 ≤ sum_to n f ≤ Z.of_nat n * L.
Proof.
  intros H. induction n as [|n IH]; [done|]. cbn [sum_to]. pose proof (H (Z.of_nat n) ltac:(lia)).
  assert (0 ≤ sum_to n f ≤ Z.of_nat n * L) by (apply IH; intros s Hs; apply H; lia). lia.
Qed.

Lemma sum_to_pairs n f :
  sum_to (2 * n) f = sum_to n (λ i, f (2 * i)) + sum_to n (λ i, f (2 * i + 1)).
Proof.
  induction n as [|n IH]; [done|]. replace (2 * S n)%nat with (S (S (2 * n))) by lia. rewrite !sum_to_S, IH.
  replace (Z.of_nat (2 * n)) with (2 * Z.of_nat n) by lia. replace (Z.of_nat (S (2 * n))) with (2 * Z.of_nat n + 1) by lia. lia.
Qed.

(** A loop that follows a sequence of states. *)
Lemma for_range_state {S} (st : nat → S) body n :
  (∀ i, (i < n)%nat → body (Z.of_nat i) (st i) = Ok (st (Datatypes.S i))) → for_range n 0 body (st O) = Ok (st n).
Proof.
  intros Hb. destruct (for_range_ok (λ j t, t = st (Z.to_nat j)) body n 0 (st O)) as (s' & E & Hs); [done| |].
  - intros j t Hj ->. exists (st (Datatypes.S (Z.to_nat j))). specialize (Hb (Z.to_nat j) ltac:(lia)).
    rewrite Z2Nat.id in Hb by lia. split; [done|]. f_equal. lia.
  - rewrite E, Hs. do 2 f_equal. lia.
Qed.

(** ** Lemmas: one segment *)

Section pq4.
Context (blk lut4 : list Z) (m : Z).
Context (Hblk : Forall is_byte blk) (Hlut : Forall is_byte lut4).
Context (Hm : 0 ≤ m) (Hbl : m * 16 ≤ Z.of_nat (length blk)) (Hll : m * 16 ≤ Z.of_nat (length lut4)).

Abbreviation term := (pq4_term blk lut4).

Lemma term_range j s : 0 ≤ term j s < 256.
Proof. by apply byte_at_is_byte. Qed.

Lemma term_lo j s : 0 ≤ j < 16 → 0 ≤ s →
  term j s = byte_at lut4 (Z.to_nat (s * 16 + Z.land (byte_at blk (Z.to_nat (s * 16 + j))) 0x0F)).
Proof. intros Hj Hs. unfold pq4_term. by rewrite Z.div_small, Z.mod_small, nib_low by lia. Qed.

Lemma term_hi j s : 0 ≤ j < 16 → 0 ≤ s →
  term (16 + j) s = byte_at lut4 (Z.to_nat (s * 16 + Z.shiftr (byte_at blk (Z.to_nat (s * 16 + j))) 4)).
Proof.
  intros Hj Hs. unfold pq4_term. replace ((16 + j) / 16) with 1 by (apply Z.div_unique with j; lia).
  replace ((16 + j) mod 16) with j by (apply Z.mod_unique with 1; lia).
  by rewrite nib_high by by apply byte_at_is_byte.
Qed.

Lemma code_low j s : 0 ≤ Z.land (byte_at blk (Z.to_nat (s * 16 + j))) 0x0F < 16.
Proof. rewrite nib_low. apply nib_range. Qed.

Lemma code_high j s : 0 ≤ Z.shiftr (byte_at blk (Z.to_nat (s * 16 + j))) 4 < 16.
Proof. rewrite nib_high by by apply byte_at_is_byte. apply nib_range. Qed.

Lemma row_read buf s : m * 16 ≤ Z.of_nat (length buf) → 0 ≤ s < m →
  mem_read buf (s * 16) 16 = Ok (lanes (λ j, byte_at buf (Z.to_nat (s * 16 + j)))).
Proof. intros Hl Hs. by rewrite mem_read_row by lia. Qed.

Lemma neon_segment_ok s f g : 0 ≤ s < m →
  neon_segment blk lut4 s (lanes f, lanes g) =
  Ok (lanes (λ j, u16 (f j + term j s)), lanes (λ j, u16 (g j + term (16 + j) s))).
Proof.
  intros Hs. unfold neon_segment. rewrite !row_read, !bind_Ok by done. rewrite !fmap_lanes.
  rewrite !vqtbl_lanes by (intros; apply code_low || apply code_high).
  unfold vaddq_u16. cbn [fst snd]. rewrite !zip_with_lanes. unfold mret, res_ret. do 2 f_equal; apply lanes_ext; intros j Hj;
    by rewrite ?term_hi, ?term_lo by lia.
Qed.

Lemma scalar_segment_ok s f g : 0 ≤ s < m →
  scalar_segment blk lut4 s (lanes f, lanes g) =
  Ok (lanes (λ j, u32 (f j + term j s)), lanes (λ j, u32 (g j + term (16 + j) s))).
Proof.
  intros Hs. unfold scalar_segment. rewrite !row_read, !bind_Ok by done. rewrite !fmap_lanes.
  unfold add_u32. cbn [fst snd]. rewrite !zip_with_lanes. unfold mret, res_ret.
  do 2 f_equal; apply lanes_ext; intros j Hj; rewrite ?term_hi, ?term_lo by lia; rewrite lane_lookup;
    (apply code_low || apply code_high || done).
Qed.

Lemma avx2_segment_ok s f g : 0 ≤ s < m →
  avx2_segment blk lut4 s (lanes f, lanes g) =
  Ok (lanes (λ j, Z.min 65535 (f j + term j s)), lanes (λ j, Z.min 65535 (g j + term (16 + j) s))).
Proof.
  intros Hs. unfold avx2_segment. rewrite !row_read, !bind_Ok by done.
  rewrite srli_lanes by (intros; by apply byte_at_is_byte). rewrite !fmap_lanes.
  rewrite !shuffle_lanes by (intros; apply code_low || apply code_high).
  unfold adds_epu16. cbn [fst snd]. rewrite !zip_with_lanes. unfold mret, res_ret.
  do 2 f_equal; apply lanes_ext; intros j Hj; rewrite ?term_hi, ?term_lo by lia; rewrite lane_lookup;
    (apply code_low || apply code_high || done).
Qed.

(** ** The kernels compute the sums *)

Definition lane_sum (n : nat) (j : Z) : Z := sum_to n (term j).

Abbreviation both f := (lanes f%_function, lanes (λ j, f%_function (16 + j))) (only parsing).

Lemma both_app {A} (f : Z → A) : lanes f ++ lanes (λ j, f (16 + j)) = f <$> seqZ 0 32.
Proof. reflexivity. Qed.

Lemma sum_nonneg n j : 0 ≤ lane_sum n j.
Proof. apply (sum_to_bound n _ 255). intros s _. pose proof (term_range j s). lia. Qed.

Lemma pq4_block32_sum : pq4_block32 blk lut4 m = Ok ((λ j, u32 (lane_sum (Z.to_nat m) j)) <$> seqZ 0 32).
Proof.
  unfold pq4_block32. rewrite (for_range_state (λ n, both (λ j, u32 (lane_sum n j)))); [by rewrite bind_Ok, <- both_app|].
  intros i Hi. rewrite scalar_segment_ok by lia. do 2 f_equal; apply lanes_ext; intros j Hj;
    unfold lane_sum, u32; rewrite sum_to_S; by rewrite Zplus_mod_idemp_l.
Qed.

Lemma pq4_block32_avx2_sum : pq4_block32_avx2 blk lut4 m = Ok ((λ j, Z.min 65535 (lane_sum (Z.to_nat m) j)) <$> seqZ 0 32).
Proof.
  unfold pq4_block32_avx2. rewrite (for_range_state (λ n, both (λ j, Z.min 65535 (lane_sum n j)))); [by rewrite bind_Ok, <- both_app|].
  intros i Hi. rewrite avx2_segment_ok by lia. do 2 f_equal; apply lanes_ext; intros j Hj;
    unfold lane_sum; rewrite sum_to_S.
  - pose proof (term_range j (Z.of_nat i)). lia.
  - pose proof (term_range (16 + j) (Z.of_nat i)). lia.
Qed.

Definition even_sum (n : nat) (j : Z) : Z := sum_to n (λ i, term j (2 * i)).
Definition odd_sum (n : nat) (j : Z) : Z := sum_to n (λ i, term j (2 * i + 1)).

Lemma u16_add a b : u16 (u16 a + b) = u16 (a + b).
Proof. apply Zplus_mod_idemp_l. Qed.

Lemma pq4_block32_neon_sum : pq4_block32_neon blk lut4 m = Ok ((λ j, u16 (lane_sum (Z.to_nat m) j)) <$> seqZ 0 32).
Proof.
  pose proof (Z.div_mod m 2 ltac:(lia)) as Hdm. pose proof (Z.mod_pos_bound m 2 ltac:(lia)) as Hmod.
  unfold pq4_block32_neon.
  rewrite (for_range_state (λ n, (both (λ j, u16 (even_sum n j)), both (λ j, u16 (odd_sum n j))))).
  2:{ intros i Hi. rewrite !neon_segment_ok by lia. cbn [mbind res_bind].
      unfold mret, res_ret, even_sum, odd_sum. do 3 f_equal; apply lanes_ext; intros j Hj; rewrite sum_to_S; apply u16_add. }
  rewrite bind_Ok. rewrite <- both_app.
  assert (∀ n j, lane_sum (2 * n) j = even_sum n j + odd_sum n j) as Hpair by (intros; apply sum_to_pairs).
  destruct (Z.ltb_spec (m / 2 * 2) m).
  - rewrite neon_segment_ok by lia. rewrite bind_Ok. cbn [fst snd]. unfold vaddq_u16. rewrite !zip_with_lanes.
    unfold mret, res_ret. replace (Z.to_nat m) with (S (2 * Z.to_nat (m / 2))) by lia. do 2 f_equal; apply lanes_ext; intros j Hj;
      unfold lane_sum; rewrite sum_to_S; fold (lane_sum (2 * Z.to_nat (m / 2)) j) (lane_sum (2 * Z.to_nat (m / 2)) (16 + j)); rewrite Hpair;
      replace (Z.of_nat (2 * Z.to_nat (m / 2))) with (m / 2 * 2) by lia; unfold u16;
      rewrite <- Zplus_mod, <- Z.add_assoc, Zplus_mod_idemp_l; f_equal; lia.
  - unfold mret, res_ret. rewrite bind_Ok. cbn [fst snd]. unfold vaddq_u16. rewrite !zip_with_lanes.
    replace (Z.to_nat m) with (2 * Z.to_nat (m / 2))%nat by lia. do 2 f_equal; apply lanes_ext; intros j Hj; rewrite Hpair;
      unfold u16; by rewrite <- Zplus_mod.
Qed.
End pq4.

(** ** The 8-bit kernel: the four banks are the table *)

Lemma bank_lane row bk c :
  is_byte c → 0 ≤ bk < 4 →
  byte_at (take 64 (drop (Z.to_nat (bk * 64)) row)) (Z.to_nat (if Z.shiftr c 6 =? bk then Z.land c 63 else 0xFF)) =
  if Z.shiftr c 6 =? bk then byte_at row (Z.to_nat c) else 0.
Proof.
  intros Hc Hbk. unfold is_byte in Hc. change 63 with (Z.ones 6). rewrite Z.land_ones, Z.shiftr_div_pow2 by lia.
  rewrite byte_at_take, byte_at_drop. destruct (Z.eqb_spec (c / 2 ^ 6) bk) as [E|].
  - rewrite decide_True by (Z.div_mod_to_equations; lia). f_equal. Z.div_mod_to_equations. lia.
  - by rewrite decide_False by lia.
Qed.

Lemma banks_or row c :
  is_byte c →
  Z.lor (Z.lor (Z.lor (Z.lor 0 (if Z.shiftr c 6 =? 0 then byte_at row (Z.to_nat c) else 0))
                      (if Z.shiftr c 6 =? 1 then byte_at row (Z.to_nat c) else 0))
               (if Z.shiftr c 6 =? 2 then byte_at row (Z.to_nat c) else 0))
        (if Z.shiftr c 6 =? 3 then byte_at row (Z.to_nat c) else 0) = byte_at row (Z.to_nat c).
Proof.
  intros Hc. assert (0 ≤ Z.shiftr c 6 < 4) as Hb.
  { unfold is_byte in Hc. rewrite Z.shiftr_div_pow2 by lia. Z.div_mod_to_equations. lia. }
  assert (Z.shiftr c 6 = 0 ∨ Z.shiftr c 6 = 1 ∨ Z.shiftr c 6 = 2 ∨ Z.shiftr c 6 = 3) as [-> |[-> |[-> | ->]]] by lia;
    cbn [Z.eqb Pos.eqb]; by rewrite ?Z.lor_0_l, ?Z.lor_0_r.
Qed.

Section fs16.
Context (blk lut8 : list Z) (m : Z).
Context (Hblk : Forall is_byte blk) (Hlut : Forall is_byte lut8).
Context (Hm : 0 ≤ m) (Hbl : m * 16 ≤ Z.of_nat (length blk)) (Hll : m * 256 ≤ Z.of_nat (length lut8)).

Abbreviation term := (fs16_term blk lut8).

Lemma fs16_term_range j s : 0 ≤ term j s < 256.
Proof. by apply byte_at_is_byte. Qed.

Lemma fs16_neon_segment_ok s f : 0 ≤ s < m →
  fs16_neon_segment blk lut8 s (lanes f) = Ok (lanes (λ j, u32 (f j + term j s))).
Proof.
  intros Hs. unfold fs16_neon_segment. rewrite !mem_read_row, !bind_Ok by lia.
  set (row := _ <$> seqZ 0 256). change (_ <$> seqZ 0 16) with (lanes (λ j, byte_at blk (Z.to_nat (s * 16 + j)))).
  rewrite !fmap_lanes. cbv zeta. cbn [fold_left]. unfold vqtbl. rewrite !zip_with_lanes, !fmap_lanes, zeros_lanes, !zip_with_lanes.
  unfold add_u32. rewrite zip_with_lanes. unfold mret, res_ret. f_equal. apply lanes_ext. intros j Hj. do 2 f_equal. cbn [compose].
  assert (is_byte (byte_at blk (Z.to_nat (s * 16 + j)))) as Hc by by apply byte_at_is_byte.
  rewrite !bank_lane by lia || done. rewrite banks_or by done. unfold fs16_term, row. by rewrite row_lookup.
Qed.

Definition fs16_sum (n : nat) (j : Z) : Z := sum_to n (term j).

Definition masked (valid_mask : Z) (f : Z → Z) (j : Z) : Z := if Z.testbit valid_mask j then f j else 0xFFFFFFFF.

Lemma mask_lanes_row valid_mask f n :
  mask_lanes valid_mask (f <$> seqZ 0 n) = masked valid_mask f <$> seqZ 0 n.
Proof.
  apply list_eq. intros i. unfold mask_lanes. rewrite list_lookup_imap, !list_lookup_fmap.
  destruct (seqZ 0 n !! i) as [j|] eqn:E; [|done]. apply lookup_seqZ in E as [-> _]. cbn. unfold masked.
  by rewrite !Z.add_0_l.
Qed.

Lemma fastscan_block16_neon_sum valid_mask :
  fastscan_block16_neon blk lut8 m valid_mask = Ok (masked valid_mask (λ j, u32 (fs16_sum (Z.to_nat m) j)) <$> seqZ 0 16).
Proof.
  unfold fastscan_block16_neon. rewrite (for_range_state (λ n, lanes (λ j, u32 (fs16_sum n j)))).
  - rewrite bind_Ok. unfold mret, res_ret. reflexivity.
  - intros i Hi. rewrite fs16_neon_segment_ok by lia. f_equal. apply lanes_ext. intros j Hj.
    unfold fs16_sum, u32. rewrite sum_to_S. apply Zplus_mod_idemp_l.
Qed.

Lemma mapM_Ok {A B} (f : A → res B) (g : A → B) l : (∀ x, x ∈ l → f x = Ok (g x)) → mapM f l = Ok (g <$> l).
Proof.
  induction l as [|x l IH]; intros H; [done|]. cbn [mapM]. rewrite H by (by left). rewrite bind_Ok, IH; [done|].
  intros y Hy. apply H. by right.
Qed.

Lemma fastscan_block16_sum valid_mask :
  fastscan_block16 blk lut8 m valid_mask = Ok (masked valid_mask (λ j, u32 (fs16_sum (Z.to_nat m) j)) <$> seqZ 0 16).
Proof.
  unfold fastscan_block16. apply mapM_Ok. intros j Hj%elem_of_seqZ. unfold masked.
  destruct (Z.testbit valid_mask j); [cbn [negb]|done].
  apply (for_range_state (λ n, u32 (fs16_sum n j))). intros i Hi.
  rewrite vec_get_byte by lia. rewrite bind_Ok.
  assert (is_byte (byte_at blk (Z.to_nat (Z.of_nat i * 16 + j)))) as Hc by by apply byte_at_is_byte. unfold is_byte in Hc.
  rewrite vec_get_byte by lia. rewrite bind_Ok. unfold mret, res_ret. f_equal.
  unfold fs16_sum, u32. rewrite sum_to_S. apply Zplus_mod_idemp_l.
Qed.
End fs16.

(** ** Theorems *)

Lemma pq4_sum_bound blk lut4 m top j :
  Forall is_byte lut4 → 0 ≤ m → Forall (λ b, b ≤ top) lut4 → 0 ≤ top →
  0 ≤ sum_to (Z.to_nat m) (pq4_term blk lut4 j) ≤ m * top.
Proof.
  intros Hl Hm Ht Ht0. rewrite <- (Z2Nat.id m Hm) at 3. apply sum_to_bound. intros s Hs. split; [by apply byte_at_is_byte|].
  unfold pq4_term, byte_at at 1. destruct (lut4 !! _) as [x|] eqn:E; [|done]. by apply (Forall_lookup_1 _ _ _ _ Ht E).
Qed.

Lemma bytes_at_most l : Forall is_byte l → Forall (λ b, b ≤ 255) l.
Proof. intros H. eapply Forall_impl; [exact H|]. unfold is_byte. intros. lia. Qed.

Lemma pq4_block32_exact blk lut4 m :
  Forall is_byte blk → Forall is_byte lut4 →
  0 ≤ m < 2 ^ 24 → m * 16 ≤ Z.of_nat (length blk) → m * 16 ≤ Z.of_nat (length lut4) →
  pq4_block32 blk lut4 m = Ok ((λ j, sum_to (Z.to_nat m) (pq4_term blk lut4 j)) <$> seqZ 0 32).
Proof.
  intros Hb Hl Hm Hbl Hll. rewrite pq4_block32_sum by (done || lia). f_equal. apply list_fmap_ext. intros ? j _.
  pose proof (pq4_sum_bound blk lut4 m 255 j Hl ltac:(lia) (bytes_at_most _ Hl) ltac:(lia)). apply u32_id. lia.
Qed.

(** C23: the portable, NEON and AVX2 kernels of a 4-bit block agree lane by lane: they
    return the exact sums of the table entries when a sum fits 16 bits, and past
    that the NEON one wraps and the AVX2 one saturates. *)
Theorem pq4_kernels blk lut4 m :
  Forall is_byte blk → Forall is_byte lut4 →
  0 ≤ m < 2 ^ 24 → m * 16 ≤ Z.of_nat (length blk) → m * 16 ≤ Z.of_nat (length lut4) →
  let d j := sum_to (Z.to_nat m) (pq4_term blk lut4 j) in
  pq4_block32 blk lut4 m = Ok (d <$> seqZ 0 32) ∧
  pq4_block32_neon blk lut4 m = Ok ((λ j, d j mod 2 ^ 16) <$> seqZ 0 32) ∧
  pq4_block32_avx2 blk lut4 m = Ok ((λ j, 65535 `min` d j) <$> seqZ 0 32) ∧
  (∀ top, Forall (λ b, b ≤ top) lut4 → 0 ≤ top → m * top < 2 ^ 16 →
   pq4_block32_neon blk lut4 m = pq4_block32 blk lut4 m ∧ pq4_block32_avx2 blk lut4 m = pq4_block32 blk lut4 m).
Proof.
  intros Hb Hl Hm Hbl Hll d.
  assert (pq4_block32 blk lut4 m = Ok (d <$> seqZ 0 32)) as E1 by (apply pq4_block32_exact; done || lia).
  assert (pq4_block32_neon blk lut4 m = Ok ((λ j, d j mod 2 ^ 16) <$> seqZ 0 32)) as E2 by (apply pq4_block32_neon_sum; done || lia).
  assert (pq4_block32_avx2 blk lut4 m = Ok ((λ j, 65535 `min` d j) <$> seqZ 0 32)) as E3 by (apply pq4_block32_avx2_sum; done || lia).
  split_and!; [done..|]. intros top Ht Ht0 Hmt. rewrite E1, E2, E3.
  split; f_equal; apply list_fmap_ext; intros ? j _;
    pose proof (pq4_sum_bound blk lut4 m top j Hl ltac:(lia) Ht Ht0); [apply Z.mod_small|]; unfold d in *; lia.
Qed.

(** The portable and NEON kernels of an 8-bit block agree. *)
Lemma fastscan_block16_kernels blk lut8 m valid_mask :
  Forall is_byte blk → Forall is_byte lut8 →
  0 ≤ m < 2 ^ 24 → m * 16 ≤ Z.of_nat (length blk) → m * 256 ≤ Z.of_nat (length lut8) →
  fastscan_block16 blk lut8 m valid_mask =
    Ok (masked valid_mask (λ j, sum_to (Z.to_nat m) (fs16_term blk lut8 j)) <$> seqZ 0 16) ∧
  fastscan_block16_neon blk lut8 m valid_mask = fastscan_block16 blk lut8 m valid_mask.
Proof.
  intros Hb Hl Hm Hbl Hll. rewrite fastscan_block16_sum, fastscan_block16_neon_sum by (done || lia).
  split; [|done]. f_equal. apply list_fmap_ext. intros ? j _. unfold masked. destruct (Z.testbit _ _); [|done].
  apply u32_id. unfold fs16_sum.
  pose proof (sum_to_bound (Z.to_nat m) (fs16_term blk lut8 j) 255) as H.
  assert (∀ s, 0 ≤ s < Z.of_nat (Z.to_nat m) → 0 ≤ fs16_term blk lut8 j s ≤ 255) as Ht; [|specialize (H Ht); lia].
  intros s _. pose proof (fs16_term_range blk lut8 Hl j s). lia.
Qed.

(** ** Witness: four segments *)

Lemma pq4_kernels_witness :
  ∃ out, pq4_block32 (replicate 64 0x51) ((λ i, i mod 16) <$> seqZ 0 64) 4 = Ok out ∧
    pq4_block32_avx2 (replicate 64 0x51) ((λ i, i mod 16) <$> seqZ 0 64) 4 = Ok out ∧ out !! 0%nat = Some 4 ∧ out !! 16%nat = Some 20.
Proof.
  destruct (pq4_kernels (replicate 64 0x51) ((λ i, i mod 16) <$> seqZ 0 64) 4) as (E & _ & _ & Heq).
  - by apply Forall_replicate.
  - apply (bool_decide_unpack _). by vm_compute.
  - lia.
  - by vm_compute.
  - by vm_compute.
  - destruct (Heq 15) as [_ Ha]; [apply (bool_decide_unpack _); by vm_compute|lia|lia|].
    eexists. split; [exact E|]. rewrite Ha. split; [exact E|]. split; by vm_compute.
Defined.
