(* ===== verification/LeafScan.v ===== *)
(** * LeafScan: scanning a leaf into the top-[W] heap
    ([GlobalPqCoder::scan_leaf], [LocalPqCoder::scan_leaf], [f32_to_dist_key])

    A scan runs the block kernel over the code blocks of a leaf, masks the lanes
    past the last vector and offers every lane to the bounded heap.  The two coders
    differ in where the codes start and in the key made of a sum. *)
From stdpp Require Import sorting.
From S2P Require Import Prelude Doubles TreeNodes FastScanCodes FastScanLeaves TopW ScanKernels.

(** ** Keys *)

(** [f32_to_dist_key]. *)
Definition f32_to_dist_key (dist : float) : Z :=
  let bits := bits_of_sf 23 8 dist in
  if Z.testbit bits 31 then UINT32_MAX - bits else Z.lor bits 0x80000000.

Definition float_of_u32 (x : Z) : float := binary_normalize 24 128 x 0 false.

(** [LocalPqCoder]: the estimate [raw / scale + offset] as a key. *)
Definition local_to_key (lut_scale lut_offset : float) (raw : Z) : Z :=
  if raw =? 0xFFFFFFFF then raw
  else
    let sc := if SFltb (S754_zero false) lut_scale then lut_scale else float_of_u32 1 in
    f32_to_dist_key (SFadd 24 128 (SFdiv 24 128 (float_of_u32 raw) sc) lut_offset).

(** ** The scan *)

Definition tail_mask (count codes_per_block : Z) : Z :=
  let full_blocks := count / codes_per_block in
  let tail_count := count - full_blocks * codes_per_block in
  if tail_count =? 0 then (if codes_per_block =? 32 then 0xFFFFFFFF else 0xFFFF)
  else if codes_per_block =? 32
       then (if 32 <=? tail_count then 0xFFFFFFFF else u32 (Z.shiftl 1 tail_count - 1))
       else (if 16 <=? tail_count then 0xFFFF else u32 (Z.shiftl 1 tail_count - 1)).

(** The keys of one block's lanes. *)
Definition block_keys (to_key : Z → Z) (scan_8bit : bool) (blk lut : list Z) (m valid_mask : Z) : res (list Z) :=
  if scan_8bit then
    out ← fastscan_block16 blk lut m (u16 valid_mask); Ok (to_key <$> (out : list Z))
  else
    out ← pq4_block32 blk lut m;
    let out : list Z := if negb (valid_mask =? 0xFFFFFFFF) then u32_mask_sentinel32 out valid_mask else out in
    Ok (to_key <$> out).

(** The cold path: push lanes until the heap is full. *)
Fixpoint push_lanes (out : list Z) (base : Z) (heap : RawScanHeap) : RawScanHeap :=
  match out with
  | [] => heap
  | key :: out' =>
      if key =? 0xFFFFFFFF then push_lanes out' (base + 1) heap
      else let heap := heap_push heap key (u32 base) in
           if heap_full heap then heap else push_lanes out' (base + 1) heap
  end.

(** The replacement loop; the 8-bit one skips the sentinel lanes. *)
Fixpoint replace_lanes (scan_8bit : bool) (out : list Z) (base : Z) (heap : RawScanHeap) : res RawScanHeap :=
  match out with
  | [] => mret heap
  | key :: out' =>
      heap ← (if scan_8bit && (key =? 0xFFFFFFFF) then mret heap else heap_offer heap key (u32 base));
      replace_lanes scan_8bit out' (base + 1) heap
  end.

Definition admit_block (scan_8bit : bool) (out : list Z) (base : Z) (heap : RawScanHeap) : res RawScanHeap :=
  let heap := if heap_full heap then heap else push_lanes out base heap in
  if heap_full heap then
    f ← heap_front heap;
    if f <? (if scan_8bit then u32_min16 out else u32_min32 out) then mret heap
    else replace_lanes scan_8bit out base heap
  else mret heap.

Definition scan_leaf (codes_offset : TreeLeafHeader → res Z) (to_key : Z → Z) (lut leaf : list Z)
    (heap : RawScanHeap) : res RawScanHeap :=
  hdr ← mem_read leaf 0 sizeof_TreeLeafHeader;
  let lh := leaf_header_of_bytes hdr in
  let count := u32 (lh_count lh) in
  if count =? 0 then mret heap
  else
    let scan_8bit := lh_pq_bits lh =? 8 in
    let m := lh_m4 lh in
    let codes_per_block := if scan_8bit then 16 else 32 in
    let block_bytes := m * 16 in
    let n_blocks := u32 (count + codes_per_block - 1) / codes_per_block in
    codes ← codes_offset lh;
    for_range (Z.to_nat n_blocks) 0 (λ b heap,
      let blk := drop (Z.to_nat (codes + b * block_bytes)) leaf in
      let valid_mask := if b + 1 <? n_blocks then (if codes_per_block =? 32 then 0xFFFFFFFF else 0xFFFF)
                        else tail_mask count codes_per_block in
      out ← block_keys to_key scan_8bit blk lut m valid_mask;
      admit_block scan_8bit out (b * codes_per_block) heap) heap.

Definition global_scan_leaf (lut leaf : list Z) (heap : RawScanHeap) : res RawScanHeap :=
  scan_leaf (λ lh, mret (leaf_codes_offset (lh_summary_size lh))) (λ raw, raw) lut leaf heap.

Definition local_scan_leaf (dim : Z) (lut_scale lut_offset : float) (lut leaf : list Z) (heap : RawScanHeap) : res RawScanHeap :=
  scan_leaf (λ lh, local_codes_offset (lh_summary_size lh) dim (lh_m4 lh) (lh_pq_bits lh))
    (local_to_key lut_scale lut_offset) lut leaf heap.

(** ** Specification *)

(** The sum of the table entries of a code, 16 entries per 4-bit segment or 256 per 8-bit one. *)
Definition code_dist (bits code_size m : Z) (lut c : list Z) : Z :=
  sum_to (Z.to_nat m) (λ s, byte_at lut (Z.to_nat (s * 2 ^ bits + seg bits code_size c s))).

(** The entries of a leaf's codes. *)
Definition code_entries (bits code_size m : Z) (lut : list Z) (codes : list (list Z)) (slot : Z) : list HeapEntry :=
  imap (λ i c, mkHeapEntry (code_dist bits code_size m lut c) slot (Z.of_nat i)) codes.

(** The lanes of its blocks. *)
Definition leaf_lanes (bits : Z) (count : nat) : Z :=
  (Z.of_nat count + codes_per_block bits - 1) / codes_per_block bits * codes_per_block bits.

(** A leaf extent: its header, and its codes in the blocks. *)
Record coded_leaf (summary_size m4 bits code_size : Z) (leaf : list Z) (codes : list (list Z)) : Prop := {
  cl_header : ∃ hdr, mem_read leaf 0 sizeof_TreeLeafHeader = Ok hdr ∧
    lh_count (leaf_header_of_bytes hdr) = Z.of_nat (length codes) ∧ lh_m4 (leaf_header_of_bytes hdr) = m4 ∧
    lh_pq_bits (leaf_header_of_bytes hdr) = bits ∧ lh_summary_size (leaf_header_of_bytes hdr) = summary_size;
  cl_count : Z.of_nat (length codes) < 2 ^ 32 - 32;
  cl_room : area_end summary_size m4 ((Z.of_nat (length codes) + codes_per_block bits - 1) / codes_per_block bits) ≤
    Z.of_nat (length leaf);
  cl_codes : stores_leaf summary_size m4 bits code_size
    ((Z.of_nat (length codes) + codes_per_block bits - 1) / codes_per_block bits) leaf codes;
}.

(** A table with an entry per segment value. *)
Definition table_ok (bits m4 : Z) (lut : list Z) : Prop := Forall is_byte lut ∧ m4 * 2 ^ bits ≤ Z.of_nat (length lut).

(** A lane of a leaf in [slot] with [n] lanes, and what a scan offers for the entries [es]:
    the real ones, and lanes that are not. *)
Definition lane_entry (slot n : Z) (e : HeapEntry) : Prop :=
  entry_ok e ∧ leaf_slot e = slot ∧ 0 ≤ local_idx e < n.

Definition offered (slot n : Z) (es new : list HeapEntry) : Prop :=
  filter real new ≡ₚ filter real es ∧ Forall (lane_entry slot n) new.

(** ** One block *)

Section admission.
Context (w : nat) (Hw0 : (0 < w)%nat) (Hw : Z.of_nat w < 2 ^ 31).

Definition key_ok (k : Z) : Prop := 0 ≤ k ≤ 0xFFFFFFFF.

(** The lanes as entries. *)
Fixpoint lane_entries (slot base : Z) (out : list Z) : list HeapEntry :=
  match out with [] => [] | key :: out' => mkHeapEntry key slot (u32 base) :: lane_entries slot (base + 1) out' end.

(** The heap was filled with sentinels and offered [pushed]. *)
Definition heap_is (slot : Z) (pushed : list HeapEntry) (s : RawScanHeap) : Prop :=
  rsh_w s = Z.of_nat w ∧ rsh_slot s = slot ∧ bounded_heap heap_entry_less sentinel w pushed (rsh_h s).

Lemma heap_is_full slot pushed s : heap_is slot pushed s → heap_full s = true.
Proof.
  intros (E & _ & H). unfold heap_full. apply bounded_length in H. apply Z.leb_le. lia.
Qed.

Lemma heap_offer_ok slot pushed s k i :
  heap_is slot pushed s →
  ∃ s', heap_offer s k i = Ok s' ∧ heap_is slot (mkHeapEntry k slot i :: pushed) s'.
Proof.
  intros (E & Es & H). destruct (offer_ok heap_entry_less sentinel w pushed (rsh_h s) (mkHeapEntry k slot i) Hw0 Hw H) as (h' & Eo & H').
  exists (set_heap s h'). rewrite heap_offer_offer, Es, Eo, bind_Ok. done.
Qed.

(** A selection of lanes that has all the real ones. *)
Definition lanes_offered (es new : list HeapEntry) : Prop := filter real new ≡ₚ filter real es ∧ ∀ e, e ∈ new → e ∈ es.

Lemma replace_lanes_ok slot is8 out base pushed s :
  heap_is slot pushed s →
  ∃ s' new, replace_lanes is8 out base s = Ok s' ∧ heap_is slot (new ++ pushed) s' ∧ lanes_offered (lane_entries slot base out) new.
Proof.
  revert base pushed s. induction out as [|k out IH]; intros base pushed s H; cbn [replace_lanes lane_entries].
  { by exists s, []. }
  set (e := mkHeapEntry k slot (u32 base)).
  assert (∃ s1 new, (if is8 && (k =? 0xFFFFFFFF) then mret s else heap_offer s k (u32 base)) = Ok s1 ∧
    heap_is slot (new ++ pushed) s1 ∧ lanes_offered [e] new) as (s1 & new1 & E1 & H1 & Hn1 & Hi1).
  { destruct (is8 && (k =? 0xFFFFFFFF)) eqn:Es.
    - exists s, []. split_and!; [done..|]. split; [|by intros ? []%not_elem_of_nil]. rewrite filter_cons_False; [done|].
      unfold real, heap_entry_is_sentinel. apply andb_true_iff in Es as [_ Es]. unfold e. cbn [pq_dist]. by rewrite Es.
    - destruct (heap_offer_ok slot pushed s k (u32 base) H) as (s1 & E1 & H1). by exists s1, [e]. }
  rewrite E1, bind_Ok. destruct (IH (base + 1) _ s1 H1) as (s' & new & E' & H' & Hn & Hi).
  exists s', (new ++ new1). split; [done|]. split; [by rewrite <- app_assoc|]. split.
  - rewrite (filter_app real [e] (lane_entries slot (base + 1) out) : filter real (e :: _) = _), filter_app, Hn, Hn1.
    apply Permutation_app_comm.
  - intros x [Hx|Hx]%elem_of_app; [right; by apply Hi|]. apply Hi1, list_elem_of_singleton in Hx as ->. by left.
Qed.

Lemma min_lanes (out : list Z) m0 k : k ∈ out → fold_left Z.min out m0 ≤ k.
Proof.
  revert m0. assert (∀ l m, fold_left Z.min l m ≤ m) as Hle.
  { intros l. induction l as [|x l IH]; intros m; cbn [fold_left]; [done|]. specialize (IH (m `min` x)). lia. }
  induction out as [|x out IH]; intros m0 Hk; [by apply not_elem_of_nil in Hk|].
  apply elem_of_cons in Hk as [->|Hk]; cbn [fold_left]; [|by apply IH]. specialize (Hle out (m0 `min` x)). lia.
Qed.

(** A block all of whose lanes are above the front changes nothing. *)
Lemma skip_lanes slot f t out base pushed s :
  heap_is slot pushed s → rsh_h s = f :: t → (∀ k, k ∈ out → pq_dist f < k) →
  heap_is slot (lane_entries slot base out ++ pushed) s.
Proof.
  intros H Ef. revert base. induction out as [|k out IH]; intros base Hmin; [done|]. cbn [lane_entries].
  destruct (IH (base + 1)) as (E1 & E2 & Hb); [intros; apply Hmin; by right|].
  split_and!; [done..|]. rewrite Ef in *. cbn [app]. apply bounded_skip; [apply _|done|done|].
  specialize (Hmin k (list_elem_of_here _ _)). unfold heap_entry_less. cbn [pq_dist].
  destruct (Z.eqb_spec k (pq_dist f)); cbn [negb]; lia.
Qed.

Lemma admit_block_ok slot is8 out base pushed s :
  heap_is slot pushed s →
  ∃ s' new, admit_block is8 out base s = Ok s' ∧ heap_is slot (new ++ pushed) s' ∧ lanes_offered (lane_entries slot base out) new.
Proof.
  intros H. unfold admit_block. rewrite (heap_is_full slot pushed s H), (heap_is_full slot pushed s H).
  destruct (rsh_h s) as [|f t] eqn:Ef.
  { exfalso. destruct H as (_ & _ & Hb). rewrite Ef in Hb. apply bounded_length in Hb. simpl in Hb. lia. }
  unfold heap_front, front. rewrite Ef. cbn [mbind res_bind mret res_ret].
  replace (if is8 then u32_min16 out else u32_min32 out) with (fold_left Z.min out 0xFFFFFFFF) by by destruct is8.
  destruct (Z.ltb_spec (pq_dist f) (fold_left Z.min out 0xFFFFFFFF)) as [Hlt|]; [|by apply replace_lanes_ok].
  exists s, (lane_entries slot base out). split; [done|]. split; [|done]. apply (skip_lanes slot f t); [done..|].
  intros k Hk. pose proof (min_lanes out 0xFFFFFFFF k Hk). lia.
Qed.
End admission.

(** ** The blocks of a leaf *)

Definition key_map (to_key : Z → Z) : Prop :=
  to_key 0xFFFFFFFF = 0xFFFFFFFF ∧ ∀ x, 0 ≤ x < 2 ^ 24 → key_ok (to_key x).

Section blocks.
Context (base m4 bits count : Z) (leaf lut : list Z) (to_key : Z → Z).
Abbreviation cpb := (codes_per_block bits).

Definition n_code_blocks : Z := (count + cpb - 1) / cpb.

Record scannable : Prop := {
  sc_base : 0 ≤ base;
  sc_m4 : 0 < m4 < 2 ^ 16;
  sc_bits : bits = 4 ∨ bits = 8;
  sc_count : 0 ≤ count < 2 ^ 32 - 32;
  sc_leaf : Forall is_byte leaf;
  sc_lut : Forall is_byte lut;
  sc_room : base + n_code_blocks * (m4 * 16) ≤ Z.of_nat (length leaf);
  sc_table : m4 * 2 ^ bits ≤ Z.of_nat (length lut);
  sc_key : key_map to_key;
}.

Context (Hsc : scannable).

(** The scan distance of the [i]-th vector. *)
Definition leaf_dist (i : Z) : Z :=
  sum_to (Z.to_nat m4) (λ s, byte_at lut (Z.to_nat (s * 2 ^ bits + cell base m4 bits leaf i s))).

Definition leaf_entry (slot i : Z) : HeapEntry := mkHeapEntry (to_key (leaf_dist i)) slot i.

Definition leaf_entries (slot : Z) : list HeapEntry := leaf_entry slot <$> seqZ 0 count.

Lemma cpb_bounds : bits = 4 ∧ cpb = 32 ∨ bits = 8 ∧ cpb = 16.
Proof. destruct (sc_bits Hsc) as [-> | ->]; [left|right]; done. Qed.

Lemma leaf_dist_range i : 0 ≤ leaf_dist i < 2 ^ 24.
Proof.
  pose proof (sc_m4 Hsc). unfold leaf_dist.
  pose proof (sum_to_bound (Z.to_nat m4) (λ s, byte_at lut (Z.to_nat (s * 2 ^ bits + cell base m4 bits leaf i s))) 255) as Hb.
  assert (∀ s, 0 ≤ byte_at lut s ≤ 255) as Hbyte.
  { intros s. pose proof (byte_at_is_byte lut s (sc_lut Hsc)) as Hi. unfold is_byte in Hi. lia. }
  specialize (Hb (λ s _, Hbyte _)). lia.
Qed.

Definition valid_mask (b : Z) : Z :=
  if b + 1 <? n_code_blocks then (if cpb =? 32 then 0xFFFFFFFF else 0xFFFF) else tail_mask count cpb.

Lemma mask_bit b j :
  0 ≤ b < n_code_blocks → 0 ≤ j < cpb → Z.testbit (valid_mask b) j = (b * cpb + j <? count).
Proof.
  intros Hb Hj. pose proof (sc_count Hsc) as Hc. unfold valid_mask, tail_mask, n_code_blocks in *.
  assert (∀ t, 0 ≤ t ≤ 32 → u32 (Z.shiftl 1 t - 1) = Z.ones t) as Hones.
  { intros t Ht. rewrite Z.shiftl_1_l, Z.ones_equiv, <- Z.sub_1_r. apply u32_id.
    pose proof (Z.pow_pos_nonneg 2 t ltac:(lia) ltac:(lia)). pose proof (Z.pow_le_mono_r 2 t 32 ltac:(lia) ltac:(lia)). lia. }
  assert (∀ t, 0 ≤ t → Z.testbit (Z.ones t) j = (j <? t)) as Hbit by (intros t Ht; apply Z.testbit_ones_nonneg; lia).
  change 0xFFFFFFFF with (Z.ones 32). change 0xFFFF with (Z.ones 16).
  destruct cpb_bounds as [[_ Ecpb]|[_ Ecpb]]; rewrite Ecpb in *; cbn [Z.eqb Pos.eqb].
  all: repeat match goal with |- context [if ?x <? ?y then _ else _] => destruct (Z.ltb_spec x y) end.
  all: repeat match goal with |- context [?x =? 0] => destruct (Z.eqb_spec x 0) end.
  all: repeat match goal with |- context [if ?x <=? ?y then _ else _] => destruct (Z.leb_spec x y) end.
  all: rewrite ?Hones by (Z.div_mod_to_equations; lia).
  all: rewrite Hbit by (Z.div_mod_to_equations; lia).
  all: apply eq_true_iff_eq; rewrite !Z.ltb_lt; Z.div_mod_to_equations; lia.
Qed.

Lemma term_cell b j s :
  0 ≤ b < n_code_blocks → 0 ≤ j < cpb → 0 ≤ s < m4 →
  let blk := drop (Z.to_nat (base + b * (m4 * 16))) leaf in
  byte_at lut (Z.to_nat (s * 2 ^ bits + cell base m4 bits leaf (b * cpb + j) s)) =
  if bits =? 4 then pq4_term blk lut j s else fs16_term blk lut j s.
Proof.
  intros Hb Hj Hs blk. pose proof (sc_base Hsc). pose proof (sc_m4 Hsc).
  assert ((b * cpb + j) / cpb = b ∧ (b * cpb + j) mod cpb = j) as [Ed Em].
  { destruct cpb_bounds as [[_ ->]|[_ ->]] in Hj |- *; Z.div_mod_to_equations; lia. }
  unfold cell, half, pos, block_of. rewrite Ed, Em.
  assert (∀ k, 0 ≤ k → byte_at blk (Z.to_nat k) = byte_at leaf (Z.to_nat (base + b * (m4 * 16) + k))) as Hblk.
  { intros k Hk. unfold blk. rewrite byte_at_drop. f_equal. nia. }
  destruct cpb_bounds as [[Hbits Hc]|[Hbits Hc]]; rewrite Hbits in *; cbn [Z.eqb Pos.eqb]; rewrite Hc in *.
  - unfold pq4_term. pose proof (Z.mod_pos_bound j 16 ltac:(lia)). rewrite Hblk by lia. reflexivity.
  - unfold fs16_term. rewrite Hblk by lia. by rewrite (Z.mod_small j 16) by lia.
Qed.

Definition block_lane (b j : Z) : Z :=
  to_key (if b * cpb + j <? count then leaf_dist (b * cpb + j) else 0xFFFFFFFF).

Lemma block_keys_ok b :
  0 ≤ b < n_code_blocks →
  block_keys to_key (bits =? 8) (drop (Z.to_nat (base + b * (m4 * 16))) leaf) lut m4 (valid_mask b) =
  Ok (block_lane b <$> seqZ 0 cpb).
Proof.
  intros Hb. pose proof (sc_base Hsc) as Hb0. pose proof (sc_m4 Hsc) as Hm. pose proof (sc_room Hsc) as Hroom. pose proof (sc_table Hsc) as Htab.
  set (blk := drop _ leaf).
  assert (Forall is_byte blk) as Hblk by (apply Forall_drop, (sc_leaf Hsc)).
  assert (m4 * 16 ≤ Z.of_nat (length blk)) as Hlen by (unfold blk; rewrite length_drop; nia).
  assert (∀ j, 0 ≤ j < cpb → leaf_dist (b * cpb + j) =
    sum_to (Z.to_nat m4) (if bits =? 4 then pq4_term blk lut j else fs16_term blk lut j)) as Hd.
  { intros j Hj. apply sum_to_ext. intros s Hs. rewrite term_cell by lia. by destruct (bits =? 4). }
  unfold block_keys. destruct cpb_bounds as [[Hbits Hc]|[Hbits Hc]]; rewrite Hbits in Htab.
  - assert ((bits =? 8) = false ∧ (bits =? 4) = true) as [B8 B4] by (rewrite Hbits; done). rewrite B8. rewrite B4 in Hd. rewrite pq4_block32_exact, bind_Ok by (done || lia || apply (sc_lut Hsc)). f_equal.
    destruct (Z.eqb_spec (valid_mask b) 0xFFFFFFFF) as [Hv|Hv]; cbn [negb].
    + rewrite <- list_fmap_compose, Hc. apply list_fmap_ext. intros ? j Hj%lookup_seqZ. unfold block_lane. cbn [compose]. f_equal.
      assert (Z.testbit (valid_mask b) j = true) as Ht by (rewrite Hv; change 0xFFFFFFFF with (Z.ones 32); apply Z.ones_spec_low; lia).
      rewrite mask_bit in Ht by lia. rewrite Ht, Hd by lia. done.
    + unfold u32_mask_sentinel32. rewrite mask_lanes_row, <- list_fmap_compose, Hc. apply list_fmap_ext.
      intros ? j Hj%lookup_seqZ. unfold block_lane, masked. cbn [compose]. f_equal. rewrite mask_bit by lia.
      destruct (_ <? count); [|done]. by rewrite Hd by lia.
  - assert ((bits =? 8) = true ∧ (bits =? 4) = false) as [B8 B4] by (rewrite Hbits; done). rewrite B8. rewrite B4 in Hd.
    destruct (fastscan_block16_kernels blk lut m4 (u16 (valid_mask b))) as [-> _]; [done|apply (sc_lut Hsc)|lia..|]. rewrite bind_Ok. f_equal.
    rewrite <- list_fmap_compose, Hc. apply list_fmap_ext. intros ? j Hj%lookup_seqZ. unfold block_lane, masked. cbn [compose]. f_equal.
    unfold u16. rewrite Z.mod_pow2_bits_low by lia. rewrite mask_bit by lia.
    destruct (_ <? count); [|done]. by rewrite Hd by lia.
Qed.

(** ** The whole leaf *)

Context (w : nat) (Hw0 : (0 < w)%nat) (Hw : Z.of_nat w < 2 ^ 31).

Lemma lane_entries_row slot f k n start :
  lane_entries slot start (f <$> seqZ k n) = (λ j, mkHeapEntry (f j) slot (u32 (start + (j - k)))) <$> seqZ k n.
Proof.
  destruct (Z.le_gt_cases n 0) as [Hn|Hn]; [by rewrite seqZ_nil by lia|].
  replace n with (Z.of_nat (Z.to_nat n)) by lia. generalize (Z.to_nat n). clear Hn n. intros n. revert k start.
  induction n as [|n IH]; intros k start; [done|]. rewrite seqZ_cons by lia. cbn [fmap list_fmap lane_entries]. f_equal.
  - do 2 f_equal. lia.
  - replace (Z.pred (Z.of_nat (S n))) with (Z.of_nat n) by lia. rewrite IH. apply list_fmap_ext. intros ? j _. do 2 f_equal. lia.
Qed.

Definition entries_upto (slot n : Z) : list HeapEntry := leaf_entry slot <$> seqZ 0 n.

Lemma block_start b : 0 ≤ b < n_code_blocks → b * cpb < count.
Proof.
  intros Hb. assert (0 < cpb) as Hcpb by (destruct cpb_bounds as [[_ ->]|[_ ->]]; lia).
  unfold n_code_blocks in Hb. pose proof (Z.mul_div_le (count + cpb - 1) cpb Hcpb).
  pose proof (Z.mul_le_mono_nonneg_l (b + 1) ((count + cpb - 1) / cpb) cpb ltac:(lia) ltac:(lia)). lia.
Qed.

Lemma block_lanes slot b e :
  0 ≤ b < n_code_blocks → e ∈ lane_entries slot (b * cpb) (block_lane b <$> seqZ 0 cpb) → lane_entry slot (n_code_blocks * cpb) e.
Proof.
  intros Hb. pose proof (sc_count Hsc) as Hcount. pose proof (block_start b Hb). pose proof (sc_key Hsc) as [Hsent Hkey].
  assert (16 ≤ cpb ≤ 32) as Hcpb by (destruct cpb_bounds as [[_ ->]|[_ ->]]; lia).
  rewrite lane_entries_row. intros (j & -> & Hj%elem_of_seqZ)%list_elem_of_fmap. rewrite Z.sub_0_r, u32_id by lia.
  split_and!; cbn [leaf_slot local_idx]; [|done|lia|].
  - unfold entry_ok, block_lane. cbn [pq_dist]. case_match; [apply Hkey, leaf_dist_range|rewrite Hsent; lia].
  - pose proof (Z.mul_le_mono_nonneg_r (b + 1) n_code_blocks cpb ltac:(lia) ltac:(lia)). lia.
Qed.

Lemma block_entries slot b :
  0 ≤ b < n_code_blocks →
  filter real (lane_entries slot (b * cpb) (block_lane b <$> seqZ 0 cpb)) ++ filter real (entries_upto slot (b * cpb)) ≡ₚ
  filter real (entries_upto slot (Z.min ((b + 1) * cpb) count)).
Proof.
  intros Hb. pose proof (sc_count Hsc) as Hcount. pose proof (proj1 (sc_key Hsc)) as Hsent.
  assert (0 < cpb) as Hcpb by (destruct cpb_bounds as [[_ ->]|[_ ->]]; lia).
  pose proof (block_start b Hb) as Hlt.
  set (hi := Z.min ((b + 1) * cpb) count). assert (b * cpb < hi ≤ b * cpb + cpb) as Hhi by lia.
  assert (filter real (lane_entries slot (b * cpb) (block_lane b <$> seqZ 0 cpb)) =
          filter real (leaf_entry slot <$> seqZ (b * cpb) (hi - b * cpb))) as ->.
  { rewrite lane_entries_row.
    assert (seqZ 0 cpb = seqZ 0 (hi - b * cpb) ++ seqZ (0 + (hi - b * cpb)) (cpb - (hi - b * cpb))) as ->
      by (rewrite <- seqZ_app by lia; f_equal; lia).
    rewrite fmap_app, filter_app.
    assert (∀ l, (∀ e : HeapEntry, e ∈ l → ¬ real e) → filter real l = []) as Hnone.
    { intros l Hl. destruct (filter real l) as [|e r] eqn:E; [done|]. assert (e ∈ filter real l) as He by (rewrite E; by left).
      apply list_elem_of_filter in He as [Hr He]. by destruct (Hl e He). }
    rewrite (Hnone (_ <$> seqZ (0 + _) _)), app_nil_r.
    - f_equal. apply list_eq. intros i. rewrite !list_lookup_fmap. destruct (decide (Z.of_nat i < hi - b * cpb)).
      + rewrite !lookup_seqZ_lt by lia. cbn [fmap option_fmap option_map]. unfold leaf_entry, block_lane.
        rewrite !Z.add_0_l, Z.sub_0_r. rewrite u32_id by nia. by rewrite (proj2 (Z.ltb_lt _ _)) by lia.
      + by rewrite !lookup_seqZ_ge by lia.
    - intros e (j & -> & Hj%elem_of_seqZ)%list_elem_of_fmap. unfold real, heap_entry_is_sentinel, block_lane. cbn [pq_dist].
      destruct (Z.ltb_spec (b * cpb + j) count); [lia|]. by rewrite Hsent. }
  rewrite Permutation_app_comm, <- filter_app. unfold entries_upto. rewrite <- fmap_app.
  replace hi with (b * cpb + (hi - b * cpb)) at 2 by lia. rewrite seqZ_app by nia. done.
Qed.

Lemma scan_leaf_entries codes_offset hdr slot pushed s :
  mem_read leaf 0 sizeof_TreeLeafHeader = Ok hdr →
  lh_count (leaf_header_of_bytes hdr) = count → lh_m4 (leaf_header_of_bytes hdr) = m4 →
  lh_pq_bits (leaf_header_of_bytes hdr) = bits → codes_offset (leaf_header_of_bytes hdr) = Ok base →
  heap_is w slot pushed s →
  ∃ s' new, scan_leaf codes_offset to_key lut leaf s = Ok s' ∧ heap_is w slot (new ++ pushed) s' ∧
    offered slot (n_code_blocks * cpb) (leaf_entries slot) new.
Proof.
  intros Hhdr Ec Em Eb Eo Hs. pose proof (sc_count Hsc) as Hcount.
  unfold scan_leaf. rewrite Hhdr, bind_Ok, Ec, Em, Eb, Eo, bind_Ok. rewrite (u32_id count) by lia.
  destruct (Z.eqb_spec count 0) as [E0|Hne].
  { exists s, []. split_and!; [done..|]. unfold leaf_entries. by rewrite E0. }
  assert ((if bits =? 8 then 16 else 32) = cpb) as -> by (destruct cpb_bounds as [[-> ->]|[-> ->]]; done).
  assert (16 ≤ cpb ≤ 32) as Hcpb by (destruct cpb_bounds as [[_ ->]|[_ ->]]; lia).
  rewrite u32_id by lia. fold n_code_blocks.
  assert (0 < n_code_blocks) as Hnb by (unfold n_code_blocks; apply Z.div_str_pos; lia).
  destruct (for_range_ok (λ b t, ∃ new, heap_is w slot (new ++ pushed) t ∧
      filter real new ≡ₚ filter real (entries_upto slot (Z.min (b * cpb) count)) ∧ Forall (lane_entry slot (n_code_blocks * cpb)) new)
    (λ b heap, out ← block_keys to_key (bits =? 8) (drop (Z.to_nat (base + b * (m4 * 16))) leaf) lut m4 (valid_mask b);
               admit_block (bits =? 8) out (b * cpb) heap) (Z.to_nat n_code_blocks) 0 s) as (s' & E & new & Hs' & Hn & Hl).
  - exists []. split_and!; [done| |done]. by rewrite Z.min_l by lia.
  - intros b t Hb (new & Ht & Hn & Hl). rewrite block_keys_ok, bind_Ok by lia. assert (b * cpb < count) as Hlt by (apply block_start; lia).
    rewrite Z.min_l in Hn by lia.
    destruct (admit_block_ok w Hw0 Hw slot (bits =? 8) (block_lane b <$> seqZ 0 cpb) (b * cpb) _ t Ht) as (t' & new' & Et & Ht' & Hn' & Hl').
    exists t'. split; [done|]. exists (new' ++ new). split; [by rewrite <- app_assoc|]. split.
    + rewrite filter_app, Hn', Hn. apply block_entries. lia.
    + apply Forall_app. split; [|done]. apply Forall_forall. intros e He. apply (block_lanes slot b); [lia|by apply Hl'].
  - exists s', new. split_and!; [done..|]. split; [|done]. rewrite Z.add_0_l, Z2Nat.id in Hn by lia. rewrite Hn.
    assert (Z.min (n_code_blocks * cpb) count = count) as ->; [|done].
    unfold n_code_blocks. pose proof (Z.mod_pos_bound (count + cpb - 1) cpb ltac:(lia)).
    pose proof (Z.div_mod (count + cpb - 1) cpb ltac:(lia)). lia.
Qed.
End blocks.

(** ** The leaf of a coder *)

Lemma real_entries es : Forall (λ e, pq_dist e < 0xFFFFFFFF) es → filter real es = es.
Proof.
  induction 1 as [|e l He _ IH]; [done|]. rewrite filter_cons_True; [by rewrite IH|].
  unfold real, heap_entry_is_sentinel. apply Z.eqb_neq. lia.
Qed.

Section coded.
Context (summary_size m4 bits code_size : Z) (lut leaf : list Z) (codes : list (list Z)).
Context (Hgeo : geo_ok summary_size m4 bits code_size) (Hlut : table_ok bits m4 lut).
Context (Hleaf : coded_leaf summary_size m4 bits code_size leaf codes).
Abbreviation count := (Z.of_nat (length codes)).
Abbreviation base := (leaf_codes_offset summary_size).

Lemma coded_scannable : scannable base m4 bits count leaf lut (λ raw, raw).
Proof.
  destruct Hgeo, Hlut, Hleaf. split; try done; try lia.
  - pose proof (base_pos summary_size m4 bits code_size Hgeo). lia.
  - by apply cl_codes0.
  - split; [done|]. intros x Hx. unfold key_ok. lia.
Qed.

Lemma leaf_dist_code i c :
  codes !! i = Some c → leaf_dist base m4 bits leaf lut (Z.of_nat i) = code_dist bits code_size m4 lut c.
Proof.
  intros Hc. apply lookup_lt_Some in Hc as Hi. apply sum_to_ext. intros s Hs.
  pose proof coded_scannable as Hsc. destruct (cl_codes _ _ _ _ _ _ Hleaf) as [_ Hcell].
  rewrite Hcell; [unfold stored; by rewrite Nat2Z.id, Hc|]. unfold in_codes. split; [|lia].
  destruct (cpb_bounds _ _ _ _ _ _ _ Hsc) as [[_ ->]|[_ ->]]; Z.div_mod_to_equations; lia.
Qed.

Lemma code_leaf_entries slot : leaf_entries base m4 bits count leaf lut (λ raw, raw) slot = code_entries bits code_size m4 lut codes slot.
Proof.
  unfold leaf_entries, code_entries. apply list_eq. intros i. rewrite list_lookup_fmap, list_lookup_imap.
  destruct (codes !! i) as [c|] eqn:Ec.
  - apply lookup_lt_Some in Ec as Hi. rewrite lookup_seqZ_lt by lia. cbn [fmap option_fmap option_map]. unfold leaf_entry.
    rewrite Z.add_0_l. by rewrite (leaf_dist_code i c Ec).
  - apply lookup_ge_None in Ec. by rewrite lookup_seqZ_ge by lia.
Qed.

Lemma code_dist_real slot : Forall (λ e, pq_dist e < 0xFFFFFFFF) (code_entries bits code_size m4 lut codes slot).
Proof.
  rewrite <- code_leaf_entries. apply Forall_fmap, Forall_forall. intros i _. cbn [pq_dist leaf_entry compose].
  pose proof (leaf_dist_range _ _ _ _ _ _ _ coded_scannable i). lia.
Qed.

Lemma global_scan_entries w slot pushed s :
  (0 < w)%nat → Z.of_nat w < 2 ^ 31 → heap_is w slot pushed s →
  ∃ s' new, global_scan_leaf lut leaf s = Ok s' ∧ heap_is w slot (new ++ pushed) s' ∧
    offered slot (leaf_lanes bits (length codes)) (code_entries bits code_size m4 lut codes slot) new.
Proof.
  intros Hw0 Hw Hs. destruct (cl_header _ _ _ _ _ _ Hleaf) as (hdr & Eh & Ec & Em & Eb & Es).
  destruct (scan_leaf_entries base m4 bits count leaf lut (λ raw, raw) coded_scannable w Hw0 Hw
    (λ lh, mret (leaf_codes_offset (lh_summary_size lh))) hdr slot pushed s) as (s' & new & E & Hs' & Hn); [done..|by rewrite Es|done|].
  exists s', new. by rewrite code_leaf_entries in Hn.
Qed.
End coded.

(** ** Order of the keys *)

(** The exponent and fraction fields of a [float]. *)
Definition float_mag (x : float) : Z :=
  match x with
  | S754_zero _ | S754_nan => 0
  | S754_infinity _ => 255 * 2 ^ 23
  | S754_finite _ m e => if Zpos m <? 2 ^ 23 then Zpos m else (e + 150) * 2 ^ 23 + (Zpos m - 2 ^ 23)
  end.

Definition float_sign (x : float) : bool :=
  match x with S754_zero s | S754_infinity s | S754_finite s _ _ => s | S754_nan => false end.

Lemma float_mag_range x : float_ok x → 0 ≤ float_mag x ≤ 255 * 2 ^ 23.
Proof.
  destruct x as [|[]| |s m e]; cbn [float_mag float_ok]; try lia. intros (He & Hm & _).
  destruct (Z.ltb_spec (Zpos m) (2 ^ 23)); lia.
Qed.

Lemma float_bits x :
  float_ok x → is_nan x = false → bits_of_sf 23 8 x = (if float_sign x then 2 ^ 31 else 0) + float_mag x.
Proof.
  intros Hx Hn. destruct x as [[]|[]| |s m e]; try done. unfold bits_of_sf, float_sign, float_mag, emin.
  change (3 - 2 ^ (8 - 1) - (23 + 1)) with (-149). change (23 + 8) with 31. destruct (Z.ltb_spec (Zpos m) (2 ^ 23)); lia.
Qed.

Lemma dist_key_value x :
  float_ok x → is_nan x = false →
  f32_to_dist_key x = if float_sign x then 2 ^ 31 - 1 - float_mag x else 2 ^ 31 + float_mag x.
Proof.
  intros Hx Hn. pose proof (float_mag_range x Hx) as Hr. unfold f32_to_dist_key.
  rewrite float_bits by done.
  destruct (float_sign x).
  - assert (Z.testbit (2 ^ 31 + float_mag x) 31 = true) as ->.
    { apply Z.testbit_true; [lia|]. replace (2 ^ 31 + float_mag x) with (float_mag x + 1 * 2 ^ 31) by lia.
      rewrite Z.div_add, Z.div_small by lia. done. }
    unfold UINT32_MAX. lia.
  - assert (Z.testbit (0 + float_mag x) 31 = false) as ->.
    { apply Z.testbit_false; [lia|]. by rewrite Z.div_small by lia. }
    rewrite Z.add_0_l, Z.lor_comm. change 0x80000000 with (2 ^ 31).
    rewrite <- (Z.add_lor_land (2 ^ 31) (float_mag x)).
    assert (Z.land (2 ^ 31) (float_mag x) = 0) as ->; [|lia].
    apply Z.bits_inj'. intros k Hk. rewrite Z.land_spec, Z.pow2_bits_eqb, Z.bits_0 by lia.
    destruct (Z.eqb_spec 31 k) as [<-|]; [cbn [andb]|done]. apply Z.testbit_false; [lia|]. by rewrite Z.div_small by lia.
Qed.

Lemma float_mag_lt m1 e1 m2 e2 s1 s2 :
  float_ok (S754_finite s1 m1 e1) → float_ok (S754_finite s2 m2 e2) → e1 < e2 ∨ e1 = e2 ∧ Zpos m1 < Zpos m2 →
  float_mag (S754_finite s1 m1 e1) < float_mag (S754_finite s2 m2 e2).
Proof.
  cbn [float_ok float_mag]. intros (? & ? & ?) (? & ? & ?) Hlt.
  destruct (Z.ltb_spec (Zpos m1) (2 ^ 23)), (Z.ltb_spec (Zpos m2) (2 ^ 23)); lia.
Qed.

Lemma float_mag_finite s m e : float_ok (S754_finite s m e) → 0 < float_mag (S754_finite s m e) < 255 * 2 ^ 23.
Proof. cbn [float_ok float_mag]. intros (? & ? & ?). destruct (Z.ltb_spec (Zpos m) (2 ^ 23)); lia. Qed.

Lemma dist_key_lt x y : float_ok x → float_ok y → SFltb x y = true → f32_to_dist_key x < f32_to_dist_key y.
Proof.
  intros Hx Hy Hlt. destruct (SFltb_nan _ _ Hlt) as [Nx Ny]. rewrite !dist_key_value by done.
  apply SFltb_key in Hlt; [|done..].
  destruct x as [s1|s1| |s1 m1 e1]; try done; destruct y as [s2|s2| |s2 m2 e2]; try done;
    try (pose proof (float_mag_finite _ _ _ Hx)); try (pose proof (float_mag_finite _ _ _ Hy));
    try (pose proof (float_mag_lt m1 e1 m2 e2 s1 s2 Hx Hy) as H1); try (pose proof (float_mag_lt m2 e2 m1 e1 s2 s1 Hy Hx) as H2);
    destruct s1, s2; cbn [sf_key key_lt float_sign] in *; unfold key_lt in *; cbn [float_mag] in *; lia.
Qed.

(** The integer keys of distances are ordered as the distances are (a key is less
    where the distance is, and never less where it is greater), and none is the
    sentinel that marks an unfilled slot. *)
Theorem dist_key_order x y :
  float_ok x → float_ok y → is_nan x = false → is_nan y = false →
  (SFltb x y = true → f32_to_dist_key x < f32_to_dist_key y) ∧
  (f32_to_dist_key x < f32_to_dist_key y → SFleb x y = true) ∧
  0 ≤ f32_to_dist_key x < 0xFFFFFFFF.
Proof.
  intros Hx Hy Nx Ny. split_and!; [by apply dist_key_lt| | |].
  - intros Hk. apply SFnot_ltb_leb; [done..|]. destruct (SFltb y x) eqn:E; [|done]. apply dist_key_lt in E; [lia|done..].
  - rewrite dist_key_value by done. pose proof (float_mag_range x Hx). destruct (float_sign x); lia.
  - rewrite dist_key_value by done. pose proof (float_mag_range x Hx). destruct (float_sign x); lia.
Qed.

Lemma dist_key_order_witness :
  f32_to_dist_key (float_of_u32 3) < f32_to_dist_key (float_of_u32 7) ∧
  f32_to_dist_key (SFopp (float_of_u32 7)) < f32_to_dist_key (SFopp (float_of_u32 3)).
Proof.
  split.
  - apply (dist_key_order (float_of_u32 3) (float_of_u32 7)); try reflexivity; vm_compute; repeat split; try discriminate; by right.
  - apply (dist_key_order (SFopp (float_of_u32 7)) (SFopp (float_of_u32 3))); try reflexivity; vm_compute; repeat split; try discriminate; by right.
Defined.
