(* ===== verification/ScalarScan.v ===== *)
(** * ScalarScan: the candidate buffer of the scalar coders
    ([src/tree/coders/coder_util.hpp])

    The scalar families turn dot products into distances, buffer the candidates of a
    leaf and flush them into the heap; the incremental path offers each at once.  The
    AVX-512 flush is modelled beside the portable one: it compares blocks of sixteen
    keys with a threshold taken once. *)
From stdpp Require Import sorting.
From S2P Require Import Prelude Doubles TopW ScanKernels LeafScan.

Section scalar.
Context (c0 : float) (ip_bias : option (list float)) (bias_is_normsq : bool).

(** The distance of the vector in row [i] with dot product [dot]. *)
Definition scalar_dist (i : Z) (dot : float) : res float :=
  let score := SFadd 24 128 dot c0 in
  match ip_bias with
  | None => mret (SFopp score)
  | Some bias =>
      b ← vec_get bias i;
      mret (if bias_is_normsq then SFsub 24 128 b (SFmul 24 128 (float_of_u32 2) score)
            else SFopp (SFmul 24 128 score b))
  end.

Definition scalar_heap_push4 (heap : RawScanHeap) (i : Z) (dots : list float) : res RawScanHeap :=
  for_range (length dots) 0 (λ v heap,
    dot ← vec_get dots v; dist ← scalar_dist (i + v) dot;
    let pq_dist := f32_to_dist_key dist in
    if heap_full heap then heap_offer heap pq_dist (i + v) else mret (heap_push heap pq_dist (i + v))) heap.

(** [ScalarCandBuf]: distances and row indices. *)
Definition scalar_cand_push4 (b : list (float * Z)) (i : Z) (dots : list float) : res (list (float * Z)) :=
  for_range (length dots) 0 (λ v b,
    dot ← vec_get dots v; dist ← scalar_dist (i + v) dot; mret (b ++ [(dist, i + v)])) b.
End scalar.

Fixpoint offer_all (b : list (float * Z)) (heap : RawScanHeap) : res RawScanHeap :=
  match b with
  | [] => mret heap
  | (dist, idx) :: b' => heap ← heap_offer heap (f32_to_dist_key dist) idx; offer_all b' heap
  end.

Definition fill_all (b : list (float * Z)) (heap : RawScanHeap) : RawScanHeap :=
  fold_left (λ heap '(dist, idx), heap_push heap (f32_to_dist_key dist) idx) b heap.

(** The flush of the portable build; the buffer is empty afterwards. *)
Definition scalar_cand_flush (b : list (float * Z)) (heap : RawScanHeap) : res RawScanHeap :=
  if heap_full heap then offer_all b heap else mret (fill_all b heap).

(** [bits ^ (srai(bits, 31) | sign)]. *)
Definition avx_key (dist : float) : Z :=
  let bits := bits_of_sf 23 8 dist in
  Z.lxor bits (Z.lor (if Z.testbit bits 31 then 0xFFFFFFFF else 0) 0x80000000).

(** Sixteen lanes: those below the threshold replace the root, those equal to it are checked. *)
Definition flush16 (thr : Z) (lanes : list (float * Z)) (heap : RawScanHeap) : res RawScanHeap :=
  heap ← foldr (λ '(dist, idx) (k : RawScanHeap → res RawScanHeap) heap,
      heap ← heap_replace_top heap (avx_key dist) idx; k heap) mret (filter (λ l, avx_key l.1 < thr) lanes) heap;
  foldr (λ '(dist, idx) (k : RawScanHeap → res RawScanHeap) heap,
      heap ← heap_offer heap (avx_key dist) idx; k heap) mret (filter (λ l, avx_key l.1 = thr) lanes) heap.

Fixpoint flush_blocks (n : nat) (thr : Z) (b : list (float * Z)) (heap : RawScanHeap) : res RawScanHeap :=
  match n with
  | O => offer_all b heap
  | S n' => heap ← flush16 thr (take 16 b) heap; flush_blocks n' thr (drop 16 b) heap
  end.

Definition scalar_cand_flush_avx512 (b : list (float * Z)) (heap : RawScanHeap) : res RawScanHeap :=
  if heap_full heap then thr ← heap_front heap; flush_blocks (length b / 16) thr b heap
  else mret (fill_all b heap).

(** ** Lemmas *)

Lemma avx_key_eq dist : float_ok dist → is_nan dist = false → avx_key dist = f32_to_dist_key dist.
Proof.
  intros Hok Hn. pose proof (float_mag_range dist Hok).
  assert (0 ≤ bits_of_sf 23 8 dist < 2 ^ 32) as Hb.
  { rewrite float_bits by done. destruct (float_sign dist); lia. }
  unfold avx_key, f32_to_dist_key. set (bits := bits_of_sf 23 8 dist) in *. clearbody bits.
  destruct (Z.testbit bits 31) eqn:E.
  - change (Z.lor 0xFFFFFFFF 0x80000000) with (Z.ones 32). unfold UINT32_MAX. change (2 ^ 32 - 1) with (Z.ones 32).
    rewrite (Z.sub_nocarry_ldiff (Z.ones 32) bits).
    + rewrite Z.lxor_comm. apply Z.bits_inj'. intros k Hk. rewrite Z.lxor_spec, Z.ldiff_spec.
      destruct (Z.lt_ge_cases k 32); [rewrite Z.ones_spec_low by lia; by destruct (Z.testbit bits k)|].
      rewrite Z.ones_spec_high by lia. cbn [xorb andb]. destruct (Z.eq_dec bits 0) as [->|]; [apply Z.bits_0|].
      apply Z.bits_above_log2; [lia|]. assert (Z.log2 bits < 32) by (apply Z.log2_lt_pow2; lia). lia.
    + apply Z.bits_inj'. intros k Hk. rewrite Z.ldiff_spec, Z.bits_0. destruct (Z.lt_ge_cases k 32).
      * rewrite Z.ones_spec_low by lia. apply andb_false_r.
      * destruct (Z.eq_dec bits 0) as [->|]; [by rewrite Z.bits_0|].
        assert (Z.log2 bits < 32) by (apply Z.log2_lt_pow2; lia). by rewrite Z.bits_above_log2 by lia.
  - rewrite Z.lor_0_l. apply Z.bits_inj'. intros k Hk. rewrite Z.lxor_spec, Z.lor_spec. change 0x80000000 with (2 ^ 31).
    rewrite Z.pow2_bits_eqb by lia. destruct (Z.eqb_spec 31 k) as [<-|]; [by rewrite E|]. by rewrite xorb_false_r, orb_false_r.
Qed.

(** The keys of [dist] as they are offered. *)
Definition cand_entries (slot : Z) (b : list (float * Z)) : list HeapEntry :=
  (λ '(dist, idx), mkHeapEntry (f32_to_dist_key dist) slot idx) <$> b.

(** The portable flush of a full heap offers every candidate. *)
Lemma scalar_cand_flush_ok w slot pushed b s :
  (0 < w)%nat → Z.of_nat w < 2 ^ 31 → heap_is w slot pushed s →
  ∃ s', scalar_cand_flush b s = Ok s' ∧ heap_is w slot (rev (cand_entries slot b) ++ pushed) s'.
Proof.
  intros Hw0 Hw Hs. unfold scalar_cand_flush. assert (heap_full s = true) as -> by by eapply heap_is_full.
  revert pushed s Hs. induction b as [|[d i] b IH]; intros pushed s Hs; [by exists s|]. cbn [offer_all].
  destruct (heap_offer_ok w Hw0 Hw slot pushed s (f32_to_dist_key d) i Hs) as (s1 & E & H1).
  rewrite E, bind_Ok. destruct (IH _ s1 H1) as (s' & E' & H'). exists s'. split; [done|].
  cbn [cand_entries fmap list_fmap rev]. by rewrite <- app_assoc.
Qed.

(** ** The buffer and the incremental path *)

Section paths.
Context (c0 : float) (ip_bias : option (list float)) (bias_is_normsq : bool).

(** A leaf's batches: the first row of each and its dot products. *)
Fixpoint scan_incremental (batches : list (Z * list float)) (heap : RawScanHeap) : res RawScanHeap :=
  match batches with
  | [] => mret heap
  | (i, dots) :: rest => heap ← scalar_heap_push4 c0 ip_bias bias_is_normsq heap i dots; scan_incremental rest heap
  end.

Fixpoint scan_buffer (batches : list (Z * list float)) (b : list (float * Z)) : res (list (float * Z)) :=
  match batches with
  | [] => mret b
  | (i, dots) :: rest => b ← scalar_cand_push4 c0 ip_bias bias_is_normsq b i dots; scan_buffer rest b
  end.

Definition scan_buffered (batches : list (Z * list float)) (heap : RawScanHeap) : res RawScanHeap :=
  b ← scan_buffer batches []; scalar_cand_flush b heap.

Lemma sift_down_length {A} (less : A → A → bool) fuel p h : length (sift_down less fuel p h) = length h.
Proof.
  revert p h. induction fuel as [|fuel IH]; intros p h; cbn [sift_down]; [done|].
  case_bool_decide; [done|]. by rewrite IH, swap_length.
Qed.

(** A heap that is full and not empty stays so. *)
Definition ready (s : RawScanHeap) : Prop := heap_full s = true ∧ rsh_h s ≠ [].

Lemma ready_offer s k i : ready s → ∃ s', heap_offer s k i = Ok s' ∧ ready s'.
Proof.
  intros [Hf Hne]. rewrite heap_offer_offer. destruct s as [[|f t] w slot]; [done|]. unfold offer. cbn [rsh_h rsh_slot front].
  rewrite bind_Ok. unfold replace_root. destruct (heap_entry_less _ f).
  - rewrite bind_Ok. eexists. split; [done|]. unfold ready, heap_full, set_heap in *. cbn [rsh_h rsh_w rsh_slot length] in *.
    rewrite sift_down_length. split; [done|]. intros E. apply (f_equal length) in E. by rewrite sift_down_length in E.
  - by eexists.
Qed.

Lemma offer_all_app b1 b2 s : offer_all (b1 ++ b2) s = (s' ← offer_all b1 s; offer_all b2 s').
Proof.
  revert s. induction b1 as [|[d i] b1 IH]; intros s; [done|]. cbn [app offer_all].
  destruct (heap_offer s (f32_to_dist_key d) i); [apply IH|done].
Qed.

Lemma ready_offer_all b s : ready s → ∃ s', offer_all b s = Ok s' ∧ ready s'.
Proof.
  revert s. induction b as [|[d i] b IH]; intros s Hs; [by exists s|]. cbn [offer_all].
  destruct (ready_offer s (f32_to_dist_key d) i Hs) as (s1 & -> & H1). rewrite bind_Ok. by apply IH.
Qed.

Lemma push4_offers dots i n v b s s' :
  offer_all b s = Ok s' → ready s →
  for_range n v (λ v heap,
    dot ← vec_get dots v; dist ← scalar_dist c0 ip_bias bias_is_normsq (i + v) dot;
    let pq_dist := f32_to_dist_key dist in
    if heap_full heap then heap_offer heap pq_dist (i + v) else mret (heap_push heap pq_dist (i + v))) s' =
  (b' ← for_range n v (λ v b,
     dot ← vec_get dots v; dist ← scalar_dist c0 ip_bias bias_is_normsq (i + v) dot; mret (b ++ [(dist, i + v)])) b;
   offer_all b' s).
Proof.
  intros Hb Hs. revert v b s' Hb. induction n as [|n IH]; intros v b s' Hb; cbn [for_range]; [by rewrite bind_Ok, Hb|].
  destruct (vec_get dots v) as [dot|]; cbn [mbind res_bind]; [|done].
  destruct (scalar_dist c0 ip_bias bias_is_normsq (i + v) dot) as [dist|]; cbn [mbind res_bind]; [|done].
  destruct (ready_offer_all b s Hs) as (s1 & E & H1). assert (s1 = s') as -> by congruence.
  rewrite (proj1 H1). destruct (ready_offer s' (f32_to_dist_key dist) (i + v) H1) as (s2 & E2 & H2). rewrite E2.
  cbn [mbind res_bind mret res_ret]. apply IH. rewrite offer_all_app, Hb. cbn [mbind res_bind offer_all]. rewrite E2. done.
Qed.

Lemma scan_paths batches b s s' :
  offer_all b s = Ok s' → ready s → scan_incremental batches s' = (b' ← scan_buffer batches b; offer_all b' s).
Proof.
  intros Hb Hs. revert b s' Hb. induction batches as [|[i dots] rest IH]; intros b s' Hb; cbn [scan_incremental scan_buffer].
  { unfold mret, res_ret. by rewrite bind_Ok, Hb. }
  assert (scalar_heap_push4 c0 ip_bias bias_is_normsq s' i dots =
    (b' ← scalar_cand_push4 c0 ip_bias bias_is_normsq b i dots; offer_all b' s)) as -> by exact (push4_offers dots i (length dots) 0 b s s' Hb Hs).
  destruct (scalar_cand_push4 _ _ _ b i dots) as [b1|]; cbn [mbind res_bind]; [|done].
  destruct (ready_offer_all b1 s Hs) as (s1 & E & _). rewrite E. cbn [mbind res_bind]. by apply IH.
Qed.

(** Buffering a leaf's candidates and flushing them is the incremental path, on any full heap. *)
Lemma scan_buffered_incremental batches s : ready s → scan_buffered batches s = scan_incremental batches s.
Proof.
  intros Hs. unfold scan_buffered, scalar_cand_flush. rewrite (proj1 Hs). symmetry. by apply scan_paths.
Qed.
End paths.

(** ** The AVX-512 flush and the cold flush *)

(** Distances 1, 2 and fourteen larger ones, against a heap of two sentinels. *)
Definition close_first : list (float * Z) :=
  imap (λ i d, (float_of_u32 d, Z.of_nat i)) [1; 2; 3; 4; 5; 6; 7; 8; 9; 10; 11; 12; 13; 14; 15; 16].

Definition empty_heap (w : Z) : RawScanHeap := mkRawScanHeap (heap_init w) w 0.

(** The stale threshold lets later, farther lanes evict the closest ones. *)
Lemma avx512_flush_loses_closest :
  ((λ s, local_idx <$> rsh_h s) <$> scalar_cand_flush close_first (empty_heap 2) = Ok [1; 0]) ∧
  ((λ s, local_idx <$> rsh_h s) <$> scalar_cand_flush_avx512 close_first (empty_heap 2) = Ok [15; 0]).
Proof. split; by vm_compute. Qed.

(** A flush into a heap that lacks one entry pushes the whole buffer. *)
Lemma cold_flush_overflows :
  ((λ s, length (rsh_h s)) <$> scalar_cand_flush close_first (mkRawScanHeap [] 2 0) = Ok 16%nat).
Proof. by vm_compute. Qed.
