(* ===== verification/LeafScanRuns.v ===== *)
(** * LeafScanRuns: what the scan of a leaf leaves in the heap *)
From stdpp Require Import sorting.
From S2P Require Import Prelude Doubles PageFile TreeNodes FastScanCodes FastScanLeaves TopW ScanKernels LeafScan.

(** C21: scanning a leaf that holds [codes] into a prefilled heap (one of [w] entries,
    sentinels at first: [heap_is]) offers exactly one entry per code, with the sum of the
    query table's entries for its segments as the key, and padding lanes: the real entries
    left are [w] least ones of those offered before and of the leaf's, whatever the order,
    the block boundaries, the padding and the blocks skipped because their minimum is
    above the heap's front.  A heap of fewer than [w] entries, which feedback probing
    leaves behind when it compacts the heap, is excluded: there a block can be offered
    twice ([cold_block_duplicates]). *)
Theorem leaf_scan_keeps_least summary_size m4 bits code_size lut leaf codes w slot pushed s :
  geo_ok summary_size m4 bits code_size → table_ok bits m4 lut →
  coded_leaf summary_size m4 bits code_size leaf codes →
  (0 < w)%nat → Z.of_nat w < 2 ^ 31 → Forall entry_ok pushed → heap_is w slot pushed s →
  let entries := code_entries bits code_size m4 lut codes slot in
  ∃ s' new, global_scan_leaf lut leaf s = Ok s' ∧
    heap_is w slot (new ++ pushed) s' ∧ offered slot (leaf_lanes bits (length codes)) entries new ∧
    topw heap_entry_less w (entries ++ filter real pushed) (strip_sentinels (rsh_h s')).
Proof.
  intros Hgeo Hlut Hleaf Hw0 Hw Hok Hs entries.
  destruct (global_scan_entries summary_size m4 bits code_size lut leaf codes Hgeo Hlut Hleaf w slot pushed s Hw0 Hw Hs)
    as (s' & new & E & Hs' & Hnew & Hl).
  exists s', new. split_and!; [done..|]. destruct Hs' as (_ & _ & Hs'). apply strip_topw in Hs'.
  - by rewrite filter_app, Hnew, real_entries in Hs' by by eapply code_dist_real.
  - apply Forall_app. split; [|done]. eapply Forall_impl; [exact Hl|]. by intros e [].
Qed.

(** ** A prefilled heap *)

Lemma heap_init_is w slot : heap_is w slot [] (mkRawScanHeap (heap_init (Z.of_nat w)) (Z.of_nat w) slot).
Proof.
  split_and!; [done..|]. cbn [rsh_h]. unfold heap_init. rewrite Nat2Z.id. apply bounded_init, _.
Qed.

(** ** Witness: three 4-bit codes into a heap of two *)

Definition ex_header : TreeLeafHeader :=
  mkLeafHeader kTreeLeafMagic 3 0 3 4 48 32 1 0 0 0 kInvalidPage 0 0 kInvalidPage 0 0 0 0 0 0 0.
Definition ex_extent : list Z := encode_fields (leaf_fields ex_header) ++ replicate 88 0.
Definition ex_lut : list Z := (λ i, i mod 16) <$> seqZ 0 48.

Definition ex_leaf : list Z :=
  match encode_group 0 3 4 2 3 (concat ex_codes) ex_ids ex_extent with Ok l => l | Err _ => [] end.

Lemma ex_leaf_coded : coded_leaf 0 3 4 2 ex_leaf ex_codes.
Proof.
  destruct (encode_stores 0 3 4 2 ex_geo 3 ex_codes ex_ids ex_extent) as (l & E & Hst & _ & _).
  - done.
  - done.
  - apply ex_clean.
  - done.
  - by repeat constructor.
  - apply Forall_app. split; [|by apply Forall_replicate]. apply (bool_decide_unpack _). by vm_compute.
  - by vm_compute.
  - intros k Hk. unfold ex_extent. rewrite byte_at_app.
    change (area_end 0 3 _) with 160 in Hk. change (leaf_codes_offset 0) with 112 in Hk.
    assert (length (encode_fields (leaf_fields ex_header)) = 112%nat) as -> by reflexivity.
    rewrite decide_False by lia. apply byte_at_zeros.
  - assert (ex_leaf = l) as -> by (unfold ex_leaf; by rewrite E).
    assert (length l = 200%nat ∧ ∃ hdr, mem_read l 0 sizeof_TreeLeafHeader = Ok hdr ∧ leaf_header_of_bytes hdr = ex_header) as [Hl (hdr & Eh & Ehd)].
    { assert (Ok l = encode_group 0 3 4 2 3 (concat ex_codes) ex_ids ex_extent) as El by done.
      assert (l = ex_leaf) as -> by (unfold ex_leaf; by rewrite <- El). split; [by vm_compute|].
      eexists. split; [by vm_compute|by vm_compute]. }
    split; [|done|rewrite Hl; by vm_compute|done]. exists hdr. by rewrite Ehd.
Qed.

Lemma leaf_scan_keeps_least_witness :
  ∃ s', global_scan_leaf ex_lut ex_leaf (mkRawScanHeap (heap_init 2) 2 7) = Ok s' ∧
    strip_sentinels (rsh_h s') ≡ₚ [mkHeapEntry 6 7 0; mkHeapEntry 16 7 2].
Proof.
  destruct (leaf_scan_keeps_least 0 3 4 2 ex_lut ex_leaf ex_codes 2 7 [] (mkRawScanHeap (heap_init 2) 2 7)) as (s' & new & E & _ & _ & H).
  - apply ex_geo.
  - split; [|by vm_compute]. apply (bool_decide_unpack _). by vm_compute.
  - apply ex_leaf_coded.
  - lia.
  - lia.
  - done.
  - apply (heap_init_is 2).
  - exists s'. split; [exact E|]. eapply (topw_unique heap_entry_less 2); [exact H| |reflexivity].
    exists [mkHeapEntry 42 7 1]. split_and!; [|by vm_compute|].
    + apply (bool_decide_unpack _). by vm_compute.
    + intros x y Hx Hy. apply list_elem_of_singleton in Hy as ->.
      apply elem_of_cons in Hx as [->|Hx%list_elem_of_singleton]; [done|by subst].
Defined.

(** ** The cold path and the padding lanes *)

(** A heap that is not full takes a block twice: filled from its lanes, then offered all of
    them again. *)
Lemma cold_block_duplicates :
  ((λ s, local_idx <$> rsh_h s) <$> admit_block true [5; 3; 9] 0 (mkRawScanHeap [] 2 0) = Ok [1; 1]) ∧
  ((λ s, local_idx <$> rsh_h s) <$> admit_block true [5; 3; 9] 0 (mkRawScanHeap (heap_init 2) 2 0) = Ok [0; 1]).
Proof. split; by vm_compute. Qed.

(** While the heap holds prefilled slots, the 4-bit path admits padding lanes: their index is past the leaf's
    last vector. *)
Lemma padding_lane_admitted :
  ((λ s, (λ e, (leaf_slot e, local_idx e)) <$> rsh_h s) <$>
     admit_block false [7; 0xFFFFFFFF] 0 (mkRawScanHeap (heap_init 2) 2 4) = Ok [(4, 1); (4, 0)]).
Proof. by vm_compute. Qed.
