(* ===== verification/CutTopk.v ===== *)
(** * CutTopk: from scored rows to the answer
    ([cut_topk_results_] of [src/tree/ivf_tree_search.cpp])

    Every search ends here: one candidate per row, the adaptive cut of the shortlist
    at the first wide gap past [k], the [keep] nearest in a total order. *)
From stdpp Require Import sorting.
From S2P Require Import Prelude Doubles TopW LeafScan.

Record Candidate := mkCandidate { row_id : Z; dist : float }.

(** The parts of [SearchConfig] the tail of a search reads. *)
Record CutConfig := mkCutConfig { adaptive_w_gap : float; rerank : bool }.

(** ** The operation *)

Definition by_row (a b : Candidate) : bool :=
  if negb (row_id a =? row_id b) then row_id a <? row_id b else SFltb (dist a) (dist b).

Definition total_less (a b : Candidate) : bool :=
  if negb (SFeqb (dist a) (dist b)) then SFltb (dist a) (dist b) else row_id b <? row_id a.

(** [std::unique] on the row id: [last] is the element kept last. *)
Fixpoint unique_from (last : Candidate) (l : list Candidate) : list Candidate :=
  match l with
  | [] => []
  | c :: t => if row_id last =? row_id c then unique_from last t else c :: unique_from c t
  end.

Definition unique_rows (l : list Candidate) : list Candidate :=
  match l with [] => [] | c :: t => c :: unique_from c t end.

Definition float_1em12 : float := S754_finite false 9223372 (-63).

(** The first [w] from [start] on whose distance is more than the threshold above [dk]. *)
Fixpoint first_gap (l : list Candidate) (start : nat) (dk threshold : float) : option nat :=
  match l with
  | [] => None
  | c :: t => if SFltb threshold (SFsub 24 128 (dist c) dk) then Some start else first_gap t (S start) dk threshold
  end.

(** [results] is sorted and longer than [k]. *)
Definition adaptive_keep (gap : float) (k : Z) (results : list Candidate) : res nat :=
  rk ← vec_get results (u32 (k - 1));
  r0 ← vec_get results 0;
  let dk := dist rk in
  let g := SFdiv 24 128 (SFsub 24 128 dk (dist r0)) (float_of_u32 (u32 (k - 1))) in
  let scale := if SFltb g float_1em12 then float_1em12 else g in
  mret (default (length results) (first_gap (drop (Z.to_nat k) results) (Z.to_nat k) dk (SFmul 24 128 gap scale))).

Definition is_adaptive (config : CutConfig) : bool := SFltb (S754_zero false) (adaptive_w_gap config) && rerank config.

Definition cut_topk_results (results : list Candidate) (k : Z) (config : CutConfig) : res (list Candidate) :=
  let results := unique_rows (std_sort by_row results) in
  '(results, keep) ←
    (if is_adaptive config && (k <? Z.of_nat (length results)) then
       let results := std_sort total_less results in
       keep ← adaptive_keep (adaptive_w_gap config) k results; mret (results, keep)
     else mret (results, Z.to_nat k));
  let results := if (keep <? length results)%nat then take keep (std_sort total_less results) else results in
  mret (std_sort total_less results).

(** ** Orders on keys *)

Fixpoint lex_ltb (a b : list Z) : bool :=
  match a, b with
  | x :: a', y :: b' => if negb (x =? y) then x <? y else lex_ltb a' b'
  | [], _ :: _ => true
  | _, [] => false
  end.

Lemma lex_irrefl a : lex_ltb a a = false.
Proof. induction a as [|x a IH]; [done|]. cbn [lex_ltb]. by rewrite Z.eqb_refl. Qed.

Lemma lex_trans a b c : lex_ltb a b = true → lex_ltb b c = true → lex_ltb a c = true.
Proof.
  revert b c. induction a as [|x a IH]; intros [|y b] [|z c]; cbn [lex_ltb]; try done.
  destruct (Z.eqb_spec x y), (Z.eqb_spec y z), (Z.eqb_spec x z); cbn [negb]; subst; rewrite ?Z.ltb_lt; try lia; eauto.
Qed.

Lemma lex_cotrans a b c : lex_ltb a c = true → lex_ltb a b = true ∨ lex_ltb b c = true.
Proof.
  revert b c. induction a as [|x a IH]; intros [|y b] [|z c]; cbn [lex_ltb]; try (by auto).
  destruct (Z.eqb_spec x y), (Z.eqb_spec y z), (Z.eqb_spec x z); cbn [negb]; subst; rewrite ?Z.ltb_lt; try lia; eauto.
Qed.

Lemma lex_antisym a b : lex_ltb a b = false → lex_ltb b a = false → a = b.
Proof.
  revert b. induction a as [|x a IH]; intros [|y b]; cbn [lex_ltb]; try done.
  destruct (Z.eqb_spec x y), (Z.eqb_spec y x); cbn [negb]; rewrite ?Z.ltb_ge; intros H1 H2; try (exfalso; lia).
  subst. f_equal. by apply IH.
Qed.

#[export] Instance lex_swo {A} (key : A → list Z) : StrictWeakOrder (λ x y, lex_ltb (key x) (key y)).
Proof.
  split.
  - intros x. apply lex_irrefl.
  - intros x y z. apply lex_trans.
  - intros x y z. apply lex_cotrans.
Qed.

(** Orders that agree on a list sort it alike. *)
Lemma std_sort_ext {A} (less less' : A → A → bool) l :
  (∀ x y, x ∈ l → y ∈ l → less x y = less' x y) → std_sort less l = std_sort less' l.
Proof.
  intros H. assert (∀ x t, x ∈ l → (∀ y, y ∈ t → y ∈ l) → sorted_insert less x t = sorted_insert less' x t ∧
    ∀ y, y ∈ sorted_insert less x t → y ∈ l) as Hins.
  { intros x t Hx. induction t as [|y t IH]; intros Ht; cbn [sorted_insert].
    { split; [done|]. intros z Hz. by apply list_elem_of_singleton in Hz as ->. }
    rewrite <- H by (done || (apply Ht; by left)). destruct (less y x).
    - destruct IH as [-> IH]; [intros z Hz; apply Ht; by right|]. split; [done|]. intros z Hz. apply elem_of_cons in Hz as [->|Hz]; [apply Ht; by left|by apply IH].
    - split; [done|]. intros z Hz. apply elem_of_cons in Hz as [->|Hz]; [done|by apply Ht]. }
  enough (∀ t, (∀ y, y ∈ t → y ∈ l) → std_sort less t = std_sort less' t ∧ ∀ y, y ∈ std_sort less t → y ∈ l) as He by (by apply He).
  induction t as [|x t IH]; intros Ht; cbn [std_sort foldr]; [split; [done|by intros ? []%not_elem_of_nil]|].
  destruct IH as [E IH]; [intros y Hy; apply Ht; by right|]. unfold std_sort in *. rewrite <- E.
  apply Hins; [apply Ht; by left|done].
Qed.

(** ** Candidates *)

Definition sf_key3 (x : float) : list Z := let '(a, b, c) := sf_key x in [a; b; c].
Definition row_key (c : Candidate) : list Z := row_id c :: sf_key3 (dist c).
Definition dist_key (c : Candidate) : list Z := sf_key3 (dist c) ++ [- row_id c].

Definition no_nan (l : list Candidate) : Prop := ∀ c, c ∈ l → is_nan (dist c) = false.

Lemma SFltb_lex x y : is_nan x = false → is_nan y = false → SFltb x y = lex_ltb (sf_key3 x) (sf_key3 y).
Proof.
  intros Hx Hy. apply eq_true_iff_eq. rewrite SFltb_key by done. unfold sf_key3, key_lt.
  destruct (sf_key x) as [[a b] c], (sf_key y) as [[a' b'] c']. cbn [lex_ltb].
  repeat match goal with |- context [?a =? ?b] => destruct (Z.eqb_spec a b) end; cbn [negb]; rewrite ?Z.ltb_lt; try lia.
Qed.

Lemma SFeqb_lex x y : is_nan x = false → is_nan y = false → SFeqb x y = bool_decide (sf_key3 x = sf_key3 y).
Proof.
  intros Hx Hy. pose proof (SFcompare_key x y Hx Hy) as Hk. unfold SFeqb, sf_key3.
  destruct (sf_key x) as [[a b] c], (sf_key y) as [[a' b'] c']. unfold key_lt in Hk.
  destruct (SFcompare x y) as [[]|]; [..|done].
  - injection Hk as -> -> ->. by rewrite bool_decide_true.
  - rewrite bool_decide_false; [done|]. intros [= -> -> ->]. lia.
  - rewrite bool_decide_false; [done|]. intros [= -> -> ->]. lia.
Qed.

Lemma by_row_key a b :
  is_nan (dist a) = false → is_nan (dist b) = false → by_row a b = lex_ltb (row_key a) (row_key b).
Proof. intros Ha Hb. unfold by_row, row_key. cbn [lex_ltb]. by rewrite SFltb_lex. Qed.

Lemma lex_app3 a1 a2 a3 b1 b2 b3 a b :
  lex_ltb ([a1; a2; a3] ++ [a]) ([b1; b2; b3] ++ [b]) =
  if bool_decide ([a1; a2; a3] = [b1; b2; b3]) then a <? b else lex_ltb [a1; a2; a3] [b1; b2; b3].
Proof.
  cbn [lex_ltb app].
  destruct (Z.eqb_spec a1 b1), (Z.eqb_spec a2 b2), (Z.eqb_spec a3 b3); cbn [negb]; subst;
    try (rewrite bool_decide_false by congruence; done).
  rewrite bool_decide_true by done. destruct (Z.eqb_spec a b) as [->|]; cbn [negb]; [by rewrite Z.ltb_irrefl|done].
Qed.

Lemma total_less_key a b :
  is_nan (dist a) = false → is_nan (dist b) = false → total_less a b = lex_ltb (dist_key a) (dist_key b).
Proof.
  intros Ha Hb. unfold total_less, dist_key. rewrite SFeqb_lex, SFltb_lex by done. unfold sf_key3.
  destruct (sf_key (dist a)) as [[a1 a2] a3], (sf_key (dist b)) as [[b1 b2] b3]. rewrite lex_app3.
  case_bool_decide; cbn [negb]; [|done]. apply eq_true_iff_eq. rewrite !Z.ltb_lt. lia.
Qed.

(** ** One candidate per row *)

Abbreviation row_less := (λ x y : Candidate, lex_ltb (row_key x) (row_key y)).
Abbreviation near_less := (λ x y : Candidate, lex_ltb (dist_key x) (dist_key y)).

Definition is_best (l : list Candidate) (c : Candidate) : Prop :=
  c ∈ l ∧ ∀ c', c' ∈ l → row_id c' = row_id c → SFltb (dist c') (dist c) = false.

Lemma row_le_id a b : le row_less a b → row_id a ≤ row_id b.
Proof. unfold le, row_key. cbn [lex_ltb]. destruct (Z.eqb_spec (row_id b) (row_id a)); cbn [negb]; lia. Qed.

Lemma unique_from_spec last l :
  StronglySorted (le row_less) (last :: l) →
  StronglySorted (λ a b, row_id a < row_id b) (last :: unique_from last l) ∧
  (∀ u, u ∈ unique_from last l → u ∈ l) ∧
  (∀ c, c ∈ last :: l → ∃ u, u ∈ last :: unique_from last l ∧ row_id u = row_id c ∧ le row_less u c).
Proof.
  revert last. induction l as [|c l IH]; intros last Hs.
  { split_and!; [by repeat constructor|by intros ? []%not_elem_of_nil|].
    intros c Hc. apply list_elem_of_singleton in Hc as ->. exists last. split_and!; [by left|done|by apply lex_irrefl]. }
  apply StronglySorted_inv in Hs as [Hs Hl]. pose proof Hl as [Hlc Hl']%Forall_cons. apply row_le_id in Hlc as Hid.
  cbn [unique_from]. destruct (Z.eqb_spec (row_id last) (row_id c)) as [E|Hne].
  - destruct (IH last) as (H1 & H2 & H3).
    { constructor; [by apply StronglySorted_inv in Hs as []|done]. }
    split_and!; [done|intros u Hu; right; by apply H2|]. intros x Hx.
    apply elem_of_cons in Hx as [->|[->|Hx]%elem_of_cons]; [apply H3; by left| |apply H3; by right].
    exists last. split_and!; [by left|done|done].
  - destruct (IH c Hs) as (H1 & H2 & H3). split_and!.
    + constructor; [done|]. apply StronglySorted_inv in H1 as [_ H1]. constructor; [lia|].
      eapply Forall_impl; [exact H1|]. intros u Hu. cbn in Hu. lia.
    + intros u Hu. apply elem_of_cons in Hu as [->|Hu]; [by left|right; by apply H2].
    + intros x Hx. apply elem_of_cons in Hx as [->|Hx].
      * exists last. split_and!; [by left|done|by apply lex_irrefl].
      * destruct (H3 x Hx) as (u & Hu & ?). exists u. split; [by right|done].
Qed.

Lemma unique_rows_spec l :
  StronglySorted (le row_less) l →
  StronglySorted (λ a b, row_id a < row_id b) (unique_rows l) ∧ (∀ u, u ∈ unique_rows l → u ∈ l) ∧
  (∀ c, c ∈ l → ∃ u, u ∈ unique_rows l ∧ row_id u = row_id c ∧ le row_less u c).
Proof.
  destruct l as [|c l]; [intros _; split_and!; [constructor|done|by intros ? []%not_elem_of_nil]|].
  intros Hs. destruct (unique_from_spec c l Hs) as (H1 & H2 & H3). split_and!; [done| |done].
  intros u Hu. apply elem_of_cons in Hu as [->|Hu]; [by left|right; by apply H2].
Qed.

Lemma strict_rows_inj l u v :
  StronglySorted (λ a b, row_id a < row_id b) l → u ∈ l → v ∈ l → row_id u = row_id v → u = v.
Proof.
  induction 1 as [|x l _ IH Hx]; [by intros []%not_elem_of_nil|]. rewrite Forall_forall in Hx.
  intros Hu Hv E. apply elem_of_cons in Hu as [->|Hu], Hv as [->|Hv]; [done| | |by apply IH].
  - specialize (Hx v Hv). cbn in Hx. lia.
  - specialize (Hx u Hu). cbn in Hx. lia.
Qed.

Lemma strict_rows_nodup l : StronglySorted (λ a b, row_id a < row_id b) l → NoDup (row_id <$> l).
Proof.
  induction 1 as [|x l _ IH Hx]; [constructor|]. cbn [fmap list_fmap]. constructor; [|done].
  intros (y & E & Hy)%list_elem_of_fmap. rewrite Forall_forall in Hx. specialize (Hx y Hy). cbn in Hx. lia.
Qed.

Section cut.
Context (results : list Candidate) (Hnan : no_nan results).

Definition best_rows : list Candidate := unique_rows (std_sort row_less results).

Lemma by_row_sort : std_sort by_row results = std_sort row_less results.
Proof. apply std_sort_ext. intros x y Hx Hy. by apply by_row_key; apply Hnan. Qed.

Lemma best_rows_elem u : u ∈ best_rows → u ∈ results.
Proof.
  intros Hu. destruct (unique_rows_spec (std_sort row_less results)) as (_ & H2 & _); [apply std_sort_sorted, _|].
  specialize (H2 u Hu). by rewrite std_sort_perm in H2.
Qed.

Lemma best_rows_best u : u ∈ best_rows → is_best results u.
Proof.
  intros Hu. pose proof (best_rows_elem u Hu) as Hur. split; [done|]. intros c Hc E.
  destruct (unique_rows_spec (std_sort row_less results)) as (H1 & _ & H3); [apply std_sort_sorted, _|].
  destruct (H3 c) as (v & Hv & Ev & Hle); [by rewrite std_sort_perm|].
  assert (v = u) as -> by (eapply strict_rows_inj; [exact H1|done|done|congruence]).
  unfold le, row_key in Hle. cbn [lex_ltb] in Hle. rewrite E, Z.eqb_refl in Hle. cbn [negb] in Hle.
  by rewrite SFltb_lex by by apply Hnan.
Qed.

Lemma best_rows_all c : c ∈ results → ∃ u, u ∈ best_rows ∧ row_id u = row_id c.
Proof.
  intros Hc. destruct (unique_rows_spec (std_sort row_less results)) as (_ & _ & H3); [apply std_sort_sorted, _|].
  destruct (H3 c) as (u & Hu & E & _); [by rewrite std_sort_perm|]. by exists u.
Qed.

Lemma best_rows_nodup : NoDup (row_id <$> best_rows).
Proof. apply strict_rows_nodup, unique_rows_spec, std_sort_sorted, _. Qed.

(** ** The nearest *)

Lemma near_sort l : (∀ c, c ∈ l → c ∈ results) → std_sort total_less l = std_sort near_less l.
Proof. intros Hl. apply std_sort_ext. intros x y Hx Hy. by apply total_less_key; apply Hnan, Hl. Qed.

Definition nearest (keep : nat) : list Candidate := take keep (std_sort near_less best_rows).

Lemma nearest_elem keep c : c ∈ nearest keep → c ∈ best_rows.
Proof.
  intros Hc. rewrite <- (std_sort_perm near_less best_rows), <- (take_drop keep (std_sort near_less best_rows)), elem_of_app. by left.
Qed.

Lemma final_sort l keep :
  l ≡ₚ best_rows →
  std_sort total_less (if (keep <? length l)%nat then take keep (std_sort total_less l) else l) =
  take keep (std_sort near_less l).
Proof.
  intros E. assert (∀ c, c ∈ l → c ∈ results) as Hl by (intros c Hc; rewrite E in Hc; by apply best_rows_elem).
  destruct (Nat.ltb_spec keep (length l)).
  - rewrite (near_sort l Hl). rewrite near_sort.
    + apply std_sort_id, StronglySorted_app_1_l with (drop keep (std_sort near_less l)). rewrite take_drop. apply std_sort_sorted, _.
    + intros c Hc. apply Hl. rewrite <- (std_sort_perm near_less l), <- (take_drop keep (std_sort near_less l)), elem_of_app. by left.
  - rewrite (near_sort l Hl). symmetry. apply take_ge. by rewrite std_sort_perm.
Qed.

Lemma first_gap_range l start dk t w : first_gap l start dk t = Some w → (start ≤ w < start + length l)%nat.
Proof.
  revert start. induction l as [|c l IH]; intros start; cbn [first_gap length]; [done|].
  destruct (SFltb t _); [intros [= <-]; lia|]. intros H%IH. lia.
Qed.

Lemma adaptive_keep_ok gap k l :
  1 ≤ k < 2 ^ 32 → k < Z.of_nat (length l) →
  ∃ keep, adaptive_keep gap k l = Ok keep ∧ (Z.to_nat k ≤ keep ≤ length l)%nat.
Proof.
  intros Hk Hl. unfold adaptive_keep. rewrite u32_id by lia.
  destruct (vec_get_Ok l (k - 1)) as (rk & _ & ->); [lia|]. destruct (vec_get_Ok l 0) as (r0 & _ & ->); [lia|].
  cbn [mbind res_bind mret res_ret]. eexists. split; [done|].
  match goal with |- context [first_gap ?a ?b ?c ?d] => destruct (first_gap a b c d) as [w|] eqn:E end; cbn [default]; [|lia].
  apply first_gap_range in E. rewrite length_drop in E. unfold default, id, from_option. lia.
Qed.

Lemma cut_nearest k config :
  0 ≤ k < 2 ^ 32 → 1 ≤ k ∨ is_adaptive config = false →
  ∃ keep, cut_topk_results results k config = Ok (nearest keep) ∧ (Z.to_nat k ≤ keep)%nat ∧
    (is_adaptive config = false → keep = Z.to_nat k).
Proof.
  intros Hk Hka. unfold cut_topk_results. rewrite by_row_sort. fold best_rows.
  destruct (is_adaptive config) eqn:Ea; cbn [andb].
  - destruct Hka as [Hk1|]; [|done]. destruct (Z.ltb_spec k (Z.of_nat (length best_rows))) as [Hlt|].
    + assert (length (std_sort total_less best_rows) = length best_rows) as Hlen by by rewrite std_sort_perm.
      destruct (adaptive_keep_ok (adaptive_w_gap config) k (std_sort total_less best_rows)) as (keep & -> & Hkeep); [lia|lia|].
      cbn [mbind res_bind mret res_ret]. exists keep. split_and!; [|lia|done].
      rewrite final_sort by apply std_sort_perm. unfold nearest. do 2 f_equal. rewrite near_sort by apply best_rows_elem.
      apply std_sort_id, std_sort_sorted, _.
    + cbn [mbind res_bind mret res_ret]. exists (Z.to_nat k). split_and!; [by rewrite final_sort|done|done].
  - cbn [mbind res_bind mret res_ret]. exists (Z.to_nat k). split_and!; [by rewrite final_sort|done|done].
Qed.

(** The answer is strictly sorted. *)
Lemma nearest_sorted keep : StronglySorted (λ a b, total_less a b = true) (nearest keep).
Proof.
  assert (StronglySorted (le near_less) (nearest keep)) as Hs.
  { apply StronglySorted_app_1_l with (drop keep (std_sort near_less best_rows)). unfold nearest. rewrite take_drop. apply std_sort_sorted, _. }
  assert (NoDup (row_id <$> nearest keep)) as Hn.
  { pose proof best_rows_nodup as Hn. rewrite <- (std_sort_perm near_less best_rows), <- (take_drop keep (std_sort near_less best_rows)), fmap_app in Hn.
    by apply NoDup_app in Hn as [Hn _]. }
  pose proof (nearest_elem keep) as Hel. induction Hs as [|x l Hs IH Hx]; [constructor|].
  cbn [fmap list_fmap] in Hn. apply NoDup_cons in Hn as [Hxn Hn]. constructor; [apply IH; [done|intros; apply Hel; by right]|].
  rewrite Forall_forall in Hx |- *. intros y Hy. specialize (Hx y Hy). unfold le in Hx.
  assert (∀ c, c ∈ x :: l → is_nan (dist c) = false) as Hnn by (intros c Hc; apply Hnan, best_rows_elem, Hel, Hc).
  rewrite total_less_key by (apply Hnn; (by left) || (by right)).
  destruct (lex_ltb (dist_key x) (dist_key y)) eqn:E; [done|]. exfalso. apply Hxn.
  pose proof (lex_antisym _ _ E Hx) as Ek. unfold dist_key, sf_key3 in Ek.
  destruct (sf_key (dist x)) as [[? ?] ?], (sf_key (dist y)) as [[? ?] ?]. injection Ek as _ _ _ Er.
  apply list_elem_of_fmap. exists y. split; [lia|done].
Qed.

(** A row left out is behind all that are kept. *)
Lemma left_out keep c :
  is_best results c → row_id c ∉ row_id <$> nearest keep →
  length (nearest keep) = keep ∧ ∀ o, o ∈ nearest keep → total_less o c = true.
Proof.
  intros [Hc Hbest] Hout. destruct (best_rows_all c Hc) as (u & Hu & Eu).
  pose proof (topw_take_sort near_less keep best_rows) as (rest & Ep & Hlen & Hle). fold (nearest keep) in Ep, Hlen, Hle.
  assert (u ∈ rest) as Hur.
  { rewrite Ep in Hu. apply elem_of_app in Hu as [Hu|Hu]; [|done]. exfalso. apply Hout, list_elem_of_fmap. by exists u. }
  split.
  { rewrite Ep, length_app in Hlen. destruct rest; [by apply not_elem_of_nil in Hur|]. cbn [length] in Hlen. lia. }
  intros o Ho. pose proof (Hle o u Ho Hur) as Hou. unfold le in Hou.
  assert (is_nan (dist o) = false) as No by by apply Hnan, best_rows_elem, (nearest_elem keep).
  pose proof (Hnan c Hc) as Nc. pose proof (Hnan u (best_rows_elem u Hu)) as Nu.
  assert (sf_key3 (dist u) = sf_key3 (dist c)) as Ek.
  { apply lex_antisym; rewrite <- SFltb_lex by done; [|].
    - apply Hbest; [by apply best_rows_elem|done].
    - apply (best_rows_best u Hu); done. }
  assert (dist_key u = dist_key c) as Edk by (unfold dist_key; by rewrite Ek, Eu). rewrite Edk in Hou.
  rewrite total_less_key by done. destruct (lex_ltb (dist_key o) (dist_key c)) eqn:E; [done|]. exfalso.
  pose proof (lex_antisym _ _ E Hou) as Eq. apply Hout, list_elem_of_fmap. exists o. split; [|done].
  unfold dist_key, sf_key3 in Eq. destruct (sf_key (dist o)) as [[? ?] ?], (sf_key (dist c)) as [[? ?] ?]. injection Eq as _ _ _ Er. lia.
Qed.
End cut.

(** ** The order of the input does not matter *)

(** No two distances of the list are a zero of each sign. *)
Definition one_zero (l : list Candidate) : Prop :=
  ∀ x y, x ∈ l → y ∈ l → sf_key (dist x) = sf_key (dist y) → dist x = dist y.

Lemma cut_topk_perm l l' k config :
  no_nan l → one_zero l → l ≡ₚ l' → cut_topk_results l k config = cut_topk_results l' k config.
Proof.
  intros Hn Hz E. assert (std_sort by_row l = std_sort by_row l') as Es.
  { assert (no_nan l') as Hn' by (intros c Hc; apply Hn; by rewrite E).
    rewrite (by_row_sort l Hn), (by_row_sort l' Hn'). apply (StronglySorted_unique_strong (le row_less)).
    - intros x y Hx Hy. rewrite std_sort_perm in Hx, Hy. rewrite <- E in Hy. unfold le. intros H1 H2.
      pose proof (lex_antisym _ _ H2 H1) as Ek. unfold row_key, sf_key3 in Ek.
      destruct (sf_key (dist x)) as [[? ?] ?] eqn:Ex, (sf_key (dist y)) as [[? ?] ?] eqn:Ey. injection Ek as Er ? ? ?.
      destruct x as [rx dx], y as [ry dy]. cbn [row_id dist] in *. f_equal; [done|]. apply (Hz (mkCandidate rx dx) (mkCandidate ry dy)); [done|done|].
      cbn [dist]. congruence.
    - apply std_sort_sorted, _.
    - apply std_sort_sorted, _.
    - by rewrite !std_sort_perm. }
  unfold cut_topk_results. by rewrite Es.
Qed.

(** ** Theorems *)

(** C22: the tail of a search returns, for candidates whose distances are numbers, the
    nearest rows and only them: every row at most once with its least distance, in
    strict order (distance, then the higher row id), at least [k] of them when there are
    that many and exactly [k] without the adaptive cut, and every row left out is farther
    than each one kept.  The answer does not depend on the order of the candidates. *)
Theorem cut_topk_nearest results k config :
  no_nan results → 0 ≤ k < 2 ^ 32 → 1 ≤ k ∨ is_adaptive config = false →
  ∃ out keep, cut_topk_results results k config = Ok out ∧
    (∀ c, c ∈ out → is_best results c) ∧ NoDup (row_id <$> out) ∧
    StronglySorted (λ a b, total_less a b = true) out ∧
    (Z.to_nat k ≤ keep)%nat ∧ (is_adaptive config = false → keep = Z.to_nat k) ∧
    (∀ c, is_best results c → row_id c ∉ row_id <$> out → length out = keep ∧ ∀ o, o ∈ out → total_less o c = true) ∧
    (one_zero results → ∀ results', results ≡ₚ results' → cut_topk_results results' k config = Ok out).
Proof.
  intros Hn Hk Hka. destruct (cut_nearest results Hn k config Hk Hka) as (keep & E & Hkeep & Hna).
  exists (nearest results keep), keep. pose proof (nearest_elem results keep) as Hel. split_and!; [done| | | |done|done| |].
  - intros c Hc. by apply (best_rows_best results Hn), Hel.
  - pose proof (best_rows_nodup results) as Hnd.
    rewrite <- (std_sort_perm near_less (best_rows results)), <- (take_drop keep (std_sort near_less (best_rows results))), fmap_app in Hnd.
    by apply NoDup_app in Hnd as [Hnd _].
  - by apply nearest_sorted.
  - intros c Hc Hout. by apply left_out.
  - intros Hz results' Ep. by rewrite <- (cut_topk_perm results results' k config Hn Hz Ep).
Qed.

(** ** Witness *)

Definition cand (r d : Z) : Candidate := mkCandidate r (float_of_u32 d).

(** Row 3 is stored twice, rows 5 and 8 tie. *)
Definition ex_results : list Candidate := [cand 3 9; cand 5 4; cand 8 4; cand 3 2; cand 1 7].

Lemma cut_topk_nearest_witness :
  ∃ out keep, cut_topk_results ex_results 3 (mkCutConfig (S754_zero false) true) = Ok out ∧
    (row_id <$> out) = [3; 8; 5] ∧ keep = 3%nat ∧ (∀ c, c ∈ out → is_best ex_results c).
Proof.
  destruct (cut_topk_nearest ex_results 3 (mkCutConfig (S754_zero false) true)) as (out & keep & E & Hb & _ & _ & _ & Hk & _).
  - refine (proj1 (Forall_forall (λ c, is_nan (dist c) = false) ex_results) _). by repeat constructor.
  - lia.
  - by left.
  - exists out, keep. split; [exact E|]. split; [|split; [by apply Hk|exact Hb]].
    assert (cut_topk_results ex_results 3 (mkCutConfig (S754_zero false) true) = Ok [cand 3 2; cand 8 4; cand 5 4]) as E' by by vm_compute.
    rewrite E' in E. by injection E as <-.
Defined.

(** ** The adaptive cut at [k = 1] *)

(** The mean gap of the first [k] divides by [k - 1]: at [k = 1] it is not a number, no gap is
    wide, and the whole shortlist is returned; at [k = 2] the same shortlist is cut. *)
Lemma adaptive_cut_of_one :
  let shortlist := [cand 1 1; cand 2 2; cand 3 1000; cand 4 2000] in
  let config := mkCutConfig (float_of_u32 2) true in
  (length <$> cut_topk_results shortlist 1 config) = Ok 4%nat ∧
  (length <$> cut_topk_results shortlist 2 config) = Ok 2%nat.
Proof. split; by vm_compute. Qed.
