(* ===== verification/SweepPool.v ===== *)
(** * SweepPool: scan heap, harvest pool and the rows a query sees in a leaf
    ([src/tree/leaf_coder.hpp], [src/tree/ivf_tree_search.cpp])

    [LeafCoder] is the part of the coder interface a search calls on a leaf, for the
    families whose scan setup depends on the query only; [LeafCoderScan] is what it
    promises: a scan offers the leaf's entries, one per vector.  The batch
    sweep reads a leaf once and forgets it, so whatever the answer needs of an entry
    is harvested into a second bounded heap, the pool. *)
From stdpp Require Import sorting.
From S2P Require Import Prelude Doubles Schema FilterHash FilterColumns FilterScan TreeNodes TopW LeafScan CutTopk.

(** ** The coder interface *)

Class LeafCoder (Setup : Type) := {
  coder_geometry : TreeLeafHeader → LeafGeometry;
  coder_scan : Setup → list Z → RawScanHeap → res RawScanHeap;
  coder_rerank : Setup → list Z → Z → res float;
}.

(** A leaf of the setup's index has entries, one per vector, and lanes. *)
Class LeafCoderScan (Setup : Type) `{LeafCoder Setup} := {
  leaf_ok : Setup → list Z → Prop;
  scan_entries : Setup → list Z → Z → list HeapEntry;
  scan_lanes : Setup → list Z → Z;
  coder_scan_entries setup leaf w slot pushed s :
    leaf_ok setup leaf → (0 < w)%nat → Z.of_nat w < 2 ^ 31 → heap_is w slot pushed s →
    ∃ s' new, coder_scan setup leaf s = Ok s' ∧ heap_is w slot (new ++ pushed) s' ∧
      offered slot (scan_lanes setup leaf) (scan_entries setup leaf slot) new;
  scan_entries_real setup leaf slot e :
    leaf_ok setup leaf → e ∈ scan_entries setup leaf slot →
    real e ∧ leaf_slot e = slot ∧ 0 ≤ local_idx e < scan_lanes setup leaf;
  scan_entries_nodup setup leaf slot :
    leaf_ok setup leaf → NoDup (local_idx <$> scan_entries setup leaf slot);
}.

(** ** The pool *)

Record PoolEntry := mkPoolEntry {
  pe_pq_dist : Z;
  pe_leaf_slot : Z;
  pe_local_idx : Z;
  pe_row_id : Z;
  pe_dist : float;
  pe_reranked : bool;
  pe_pred_ok : bool;
}.

Definition pool_entry_less (a b : PoolEntry) : bool :=
  if negb (pe_pq_dist a =? pe_pq_dist b) then pe_pq_dist a <? pe_pq_dist b
  else if negb (pe_leaf_slot a =? pe_leaf_slot b) then pe_leaf_slot a <? pe_leaf_slot b
  else pe_local_idx a <? pe_local_idx b.

Definition pool_entry_is_sentinel (e : PoolEntry) : bool := pe_pq_dist e =? 0xFFFFFFFF.

Definition pool_sentinel : PoolEntry :=
  mkPoolEntry 0xFFFFFFFF 0xFFFFFFFF 0xFFFFFFFF (-1) (S754_zero false) false false.

Definition pool_init (w : Z) : list PoolEntry := replicate (Z.to_nat w) pool_sentinel.

Definition pool_should_replace (p : list PoolEntry) (pq_dist leaf_slot local_idx : Z) : res bool :=
  f ← front p;
  mret (if negb (pq_dist =? pe_pq_dist f) then pq_dist <? pe_pq_dist f
        else if negb (leaf_slot =? pe_leaf_slot f) then leaf_slot <? pe_leaf_slot f
        else local_idx <? pe_local_idx f).

Definition pool_replace (p : list PoolEntry) (pe : PoolEntry) : res (list PoolEntry) :=
  replace_root pool_entry_less p pe.

(** ** A query and the harvest of one of its leaves *)

Record LeafCandidate := mkLeafCandidate { lc_page : Z; lc_pages : Z }.

Record QueryState (Setup : Type) := mkQueryState {
  qs_setup : Setup;
  qs_candidates : list LeafCandidate;
  qs_predicates : list Predicate;
  qs_pred_cols : list Z;
  qs_geo_cols : list Z;
  qs_W : Z;
  qs_fallback : bool;
}.
Arguments qs_setup {Setup}. Arguments qs_candidates {Setup}. Arguments qs_predicates {Setup}.
Arguments qs_pred_cols {Setup}. Arguments qs_geo_cols {Setup}. Arguments qs_W {Setup}. Arguments qs_fallback {Setup}.

(** [rerank], and the distances to the caller's own vectors when it gave any
    ([exact_rerank_base]). *)
Record SweepConfig (Setup : Type) := mkSweepConfig {
  sc_cut : CutConfig;
  sc_exact : option (Setup → Z → float);
}.
Arguments sc_cut {Setup}. Arguments sc_exact {Setup}.

Section harvest.
Context {Setup : Type} `{LeafCoder Setup} `{RapidHash} `{LibM} (schema : Schema).

Definition leaf_header (leaf : list Z) : res TreeLeafHeader :=
  hdr ← mem_read leaf 0 sizeof_TreeLeafHeader; mret (leaf_header_of_bytes hdr).

(** The leaf's filter columns: where they start, and their views. *)
Definition leaf_columns (leaf : list Z) : res (list Z * list ColumnView) :=
  lh ← leaf_header leaf;
  let base := drop (Z.to_nat (filter_offset (coder_geometry lh))) leaf in
  views ← parse_filter_columns base (lh_count lh) schema;
  mret (base, views).

Definition leaf_row_id (leaf : list Z) (idx : Z) : res Z :=
  lh ← leaf_header leaf; load_rowid leaf (rowids_offset (coder_geometry lh)) idx.

(** Does the row satisfy the query's predicates? *)
Definition row_passes (q : QueryState Setup) (cols : list Z * list ColumnView) (idx : Z) : res bool :=
  eval_all_predicates cols.1 cols.2 idx (qs_predicates q) (qs_pred_cols q) (qs_geo_cols q).

Definition eager_rerank (config : SweepConfig Setup) : bool :=
  rerank (sc_cut config) && match sc_exact config with None => true | Some _ => false end.

(** What the answer needs of an entry: the row id, the coder's distance and the verdict. *)
Definition harvest_entry (config : SweepConfig Setup) (q : QueryState Setup) (leaf : list Z)
    (cols : list Z * list ColumnView) (e : HeapEntry) : res PoolEntry :=
  row ← leaf_row_id leaf (local_idx e);
  d ← (if eager_rerank config then coder_rerank (qs_setup q) leaf (local_idx e) else mret (S754_zero false));
  ok ← (match qs_predicates q with [] => mret true | _ => row_passes q cols (local_idx e) end);
  mret (mkPoolEntry (pq_dist e) (leaf_slot e) (local_idx e) row d (eager_rerank config) ok).

(** The harvest of the leaf in [slot]: the heap's entries from it that beat the pool's worst. *)
Fixpoint harvest (config : SweepConfig Setup) (q : QueryState Setup) (leaf : list Z)
    (cols : list Z * list ColumnView) (slot : Z) (heap : list HeapEntry) (pool : list PoolEntry) : res (list PoolEntry) :=
  match heap with
  | [] => mret pool
  | e :: heap' =>
      if negb (leaf_slot e =? slot) then harvest config q leaf cols slot heap' pool
      else
        b ← pool_should_replace pool (pq_dist e) (leaf_slot e) (local_idx e);
        pool ← (if (b : bool) then pe ← harvest_entry config q leaf cols e; pool_replace pool pe else mret pool);
        harvest config q leaf cols slot heap' pool
  end.
End harvest.

(** ** The pool is ordered as the heap is *)

Definition pool_key (p : PoolEntry) : HeapEntry := mkHeapEntry (pe_pq_dist p) (pe_leaf_slot p) (pe_local_idx p).

Lemma pool_less_key a b : pool_entry_less a b = heap_entry_less (pool_key a) (pool_key b).
Proof. reflexivity. Qed.

#[export] Instance pool_entry_swo : StrictWeakOrder pool_entry_less.
Proof.
  split.
  - intros x. apply (swo_irrefl (less := heap_entry_less) (pool_key x)).
  - intros x y z. apply (swo_trans (less := heap_entry_less) (pool_key x) (pool_key y) (pool_key z)).
  - intros x y z. apply (swo_cotrans (less := heap_entry_less) (pool_key x) (pool_key y) (pool_key z)).
Qed.

Lemma count_less_key x l : count_less pool_entry_less x l = count_less heap_entry_less (pool_key x) (pool_key <$> l).
Proof.
  unfold count_less. induction l as [|y l IH]; [done|]. rewrite fmap_cons, !filter_cons, <- pool_less_key.
  by destruct (decide (pool_entry_less y x = true)); cbn [length]; rewrite IH.
Qed.

Lemma pool_offer_should p e pe :
  pool_key pe = e →
  (b ← pool_should_replace p (pq_dist e) (leaf_slot e) (local_idx e);
   if (b : bool) then pool_replace p pe else mret p) = offer pool_entry_less p pe.
Proof. intros <-. unfold pool_should_replace, pool_replace, offer. by destruct p as [|f t]. Qed.

(** An element with fewer than [w] in front of it is among the [w] least. *)
Lemma topw_kept {A} (less : A → A → bool) `{!StrictWeakOrder less} w l kept x :
  topw less w l kept → x ∈ l → (count_less less x l < w)%nat →
  (∀ y, y ∈ l → less y x = false → less x y = false → y = x) → x ∈ kept.
Proof.
  intros (rest & E & Hl & Hle) Hx Hc Hinj. pose proof Hx as Hr. rewrite E in Hr. apply elem_of_app in Hr as [|Hr]; [done|].
  assert (length kept = w) as Hw.
  { rewrite E, length_app in Hl. destruct rest; [by apply not_elem_of_nil in Hr|]. cbn [length] in Hl. lia. }
  destruct (decide (Forall (λ y, less y x = true) kept)) as [Hall|Hn].
  - rewrite E, count_less_app, (count_less_all less x kept) in Hc; [lia|]. by apply Forall_forall.
  - apply not_Forall_Exists in Hn; [|apply _]. apply Exists_exists in Hn as (y & Hy & Hyx). cbn in Hyx.
    rewrite <- (Hinj y); [done|rewrite E; apply elem_of_app; by left|by apply not_true_is_false|by apply Hle].
Qed.

(** The least elements of a longer list come from the new part or were kept before. *)
Lemma topw_later w l1 l2 h h' e :
  topw heap_entry_less w l2 h → topw heap_entry_less w (l1 ++ l2) h' → e ∈ h' → e ∈ l1 ∨ e ∈ h.
Proof.
  intros H2 H' He. set (t1 := take w (std_sort heap_entry_less l1)).
  assert (topw heap_entry_less w (l1 ++ l2) (take w (std_sort heap_entry_less (t1 ++ h)))) as Ht.
  { pose proof (topw_shards heap_entry_less w [l1; l2] [t1; h] (take w (std_sort heap_entry_less (t1 ++ h)))) as Hs.
    cbn [concat] in Hs. rewrite !app_nil_r in Hs. apply Hs; [|apply topw_take_sort, _].
    constructor; [apply topw_take_sort, _|by constructor]. }
  rewrite (topw_unique heap_entry_less w _ _ _ _ H' Ht) in He by done.
  apply (topw_elem heap_entry_less w (t1 ++ h)) in He; [|apply topw_take_sort, _].
  apply elem_of_app in He as [He|He]; [left|by right].
  by apply (topw_elem heap_entry_less w l1) in He; [|apply topw_take_sort, _].
Qed.

(** ** A partial: heap and pool of one query in one worker *)

Section partial.
Context (w : nat) (Hw0 : (0 < w)%nat) (Hw : Z.of_nat w < 2 ^ 31).
Context (R : HeapEntry → PoolEntry) (HR : ∀ e, pool_key (R e) = e).

(** The slots [D] were scanned, those in [Pend] are not harvested yet; [P] was offered to the heap and
    (what [R] makes of) [H] to the pool. *)
Record partial_inv (D Pend : list Z) (P H heap : list HeapEntry) (pool : list PoolEntry) : Prop := {
  pi_heap : bounded_heap heap_entry_less sentinel w P heap;
  pi_pool : bounded_heap pool_entry_less pool_sentinel w (R <$> H) pool;
  pi_sub : ∃ r, P ≡ₚ H ++ r;
  pi_pending : ∀ e, e ∈ H → leaf_slot e ∉ Pend;
  pi_harvested : ∀ e, e ∈ heap → e ≠ sentinel → leaf_slot e ∉ Pend → e ∈ H;
  pi_slots : ∀ e, e ∈ P → leaf_slot e ∈ D;
}.

Lemma elem_of_sub (P H r : list HeapEntry) e : P ≡ₚ H ++ r → e ∈ H → e ∈ P.
Proof. intros -> He. apply elem_of_app. by left. Qed.

Lemma partial_init : partial_inv [] [] [] [] (replicate w sentinel) (replicate w pool_sentinel).
Proof.
  split; try (by intros ? []%not_elem_of_nil).
  - apply bounded_init, _.
  - apply bounded_init, _.
  - by exists [].
  - by intros e [-> _]%elem_of_replicate.
Qed.

Lemma partial_scan D Pend P H heap pool slot new heap' :
  partial_inv D Pend P H heap pool → slot ∉ D → (∀ e, e ∈ new → leaf_slot e = slot) →
  bounded_heap heap_entry_less sentinel w (new ++ P) heap' →
  partial_inv (slot :: D) (slot :: Pend) (new ++ P) H heap' pool.
Proof.
  intros [Hh Hp (r & Hr) Hpe Hha Hsl] Hslot Hnew Hh'. split; [done|done| | | |].
  - exists (new ++ r). rewrite Hr, !app_assoc. f_equiv. apply Permutation_app_comm.
  - intros e He [E|Hin]%elem_of_cons; [|by apply (Hpe e)]. apply Hslot. rewrite <- E. by apply Hsl, (elem_of_sub P H r).
  - intros e He Hne Hnot. apply not_elem_of_cons in Hnot as [Hs Hnp]. apply Hha; [|done|done].
    destruct Hh as [_ Hh], Hh' as [_ Hh']. destruct (topw_later w new (replicate w sentinel ++ P) heap heap' e) as [Hen|]; [done| |done| |done].
    + eapply topw_perm; [..|exact Hh']; [|done]. rewrite !app_assoc. f_equiv. apply Permutation_app_comm.
    + by rewrite (Hnew e Hen) in Hs.
  - intros e [He|He]%elem_of_app; [rewrite (Hnew e He); by left|right; by apply Hsl].
Qed.

(** Harvesting a pending slot, once or again. *)
Lemma partial_harvest D Pend P H heap pool slot pool' :
  partial_inv D Pend P H heap pool → slot ∈ Pend → slot ≠ 0xFFFFFFFF →
  bounded_heap pool_entry_less pool_sentinel w (R <$> (filter (λ e, leaf_slot e = slot) heap ++ H)) pool' →
  partial_inv D (filter (λ s, s ≠ slot) Pend) P (filter (λ e, leaf_slot e = slot) heap ++ H) heap pool'.
Proof.
  intros [Hh Hp (r & Hr) Hpe Hha Hsl] Hslot Hns Hp'.
  assert (∀ e, e ∈ H → leaf_slot e ≠ slot) as HHs by (intros e He E; apply (Hpe e He); by rewrite E).
  split; [done|done| | | |done].
  - destruct Hh as [_ (rest & E & _ & _)].
    assert (filter (λ e, leaf_slot e = slot) (replicate w sentinel) = []) as Esent.
    { clear -Hns. induction w as [|n IH]; [done|]. cbn [replicate]. by rewrite filter_cons_False by (cbn; lia). }
    assert (filter (λ e, leaf_slot e = slot) P ≡ₚ filter (λ e, leaf_slot e = slot) heap ++ filter (λ e, leaf_slot e = slot) rest) as E1.
    { rewrite <- filter_app, <- E, filter_app, Esent. done. }
    assert (filter (λ e, leaf_slot e ≠ slot) P ≡ₚ H ++ filter (λ e, leaf_slot e ≠ slot) r) as E2.
    { rewrite Hr at 1. rewrite filter_app. f_equiv. clear -HHs. induction H as [|e H IH]; [done|].
      rewrite filter_cons_True by (apply HHs; by left). f_equiv. apply IH. intros x Hx. apply HHs. by right. }
    exists (filter (λ e, leaf_slot e = slot) rest ++ filter (λ e, leaf_slot e ≠ slot) r).
    rewrite <- (filter_app_complement (λ e, leaf_slot e = slot) P) at 1. rewrite E1, E2. solve_Permutation.
  - intros e [He|He]%elem_of_app.
    + apply list_elem_of_filter in He as [E _]. rewrite E. intros [? _]%list_elem_of_filter. done.
    + intros [_ Hin]%list_elem_of_filter. by apply (Hpe e).
  - intros e He Hne Hnot. apply elem_of_app. destruct (decide (leaf_slot e = slot)); [left; by apply list_elem_of_filter|right].
    apply Hha; [done|done|]. intros Hin. apply Hnot, list_elem_of_filter. done.
Qed.

(** Everything left in the heap is in the pool. *)
Lemma partial_contained D P H heap pool e :
  partial_inv D [] P H heap pool → e ∈ heap → e ≠ sentinel → R e ∈ pool.
Proof.
  intros [Hh Hp (r & Hr) _ Hha _] He Hne.
  assert (e ∈ H) as HeH by (apply Hha; [done|done|by intros []%not_elem_of_nil]).
  destruct Hh as [_ Hh], Hp as [_ Hp]. pose proof (topw_count heap_entry_less w _ _ e Hh He) as Hc.
  assert (pool_key <$> (replicate w pool_sentinel ++ (R <$> H)) = replicate w sentinel ++ H) as Ek.
  { rewrite fmap_app, fmap_replicate, <- list_fmap_compose. f_equal. rewrite <- (list_fmap_id H) at 2.
    apply list_fmap_ext. intros ? x _. apply HR. }
  apply (topw_kept pool_entry_less w _ pool (R e) Hp).
  - apply elem_of_app. right. by apply list_elem_of_fmap_2.
  - rewrite (count_less_key (R e)), HR, Ek, count_less_app. rewrite count_less_app, (count_less_perm _ e _ _ Hr), count_less_app in Hc. lia.
  - intros y Hy H1 H2. rewrite !pool_less_key, HR in H1. rewrite pool_less_key, HR in H2.
    assert (pool_key y = e) as Ey by by apply heap_entry_antisymm.
    apply elem_of_app in Hy as [[-> _]%elem_of_replicate|Hy]; [by subst e|].
    apply list_elem_of_fmap in Hy as (x & -> & _). by rewrite HR in Ey; subst.
Qed.
End partial.

(** ** Harvesting *)

Section harvest_ok.
Context {Setup : Type} `{LeafCoder Setup} `{RapidHash} `{LibM} (schema : Schema).
Context (w : nat) (Hw0 : (0 < w)%nat) (Hw : Z.of_nat w < 2 ^ 31).
Context (R : HeapEntry → PoolEntry) (HR : ∀ e, pool_key (R e) = e).

Lemma harvest_ok config q leaf cols slot heap Hd pool :
  (∀ e, e ∈ heap → leaf_slot e = slot → harvest_entry config q leaf cols e = Ok (R e)) →
  bounded_heap pool_entry_less pool_sentinel w (R <$> Hd) pool →
  ∃ pool', harvest config q leaf cols slot heap pool = Ok pool' ∧
    bounded_heap pool_entry_less pool_sentinel w (R <$> (filter (λ e, leaf_slot e = slot) heap ++ Hd)) pool'.
Proof.
  revert Hd pool. induction heap as [|e heap IH]; intros Hd pool He Hp; [by exists pool|]. cbn [harvest].
  assert (∀ e, e ∈ heap → leaf_slot e = slot → harvest_entry config q leaf cols e = Ok (R e)) as He'
    by (intros x Hx; apply He; by right).
  destruct (Z.eqb_spec (leaf_slot e) slot) as [Es|Es]; cbn [negb].
  - rewrite filter_cons_True by done.
    destruct (offer_ok pool_entry_less pool_sentinel w (R <$> Hd) pool (R e)) as (p1 & E1 & Hp1); [done..|].
    rewrite <- (pool_offer_should pool e (R e)) in E1 by done.
    destruct (pool_should_replace pool (pq_dist e) (leaf_slot e) (local_idx e)) as [b|]; [|done]. rewrite bind_Ok in E1 |- *.
    assert ((if b then pe ← harvest_entry config q leaf cols e; pool_replace pool pe else mret pool) = Ok p1) as ->.
    { destruct b; [|done]. rewrite He by (done || by left). done. }
    rewrite bind_Ok. destruct (IH (e :: Hd) p1 He' Hp1) as (p' & E' & Hp'). exists p'. split; [done|].
    cbn [app]. by rewrite Permutation_middle.
  - rewrite filter_cons_False by done. by apply IH.
Qed.
End harvest_ok.
