(* ===== verification/BatchSweep.v ===== *)
(** * BatchSweep: many queries over one pass of the leaves
    ([IVFTreeIndex::search_batch] of [src/tree/ivf_tree_search.cpp])

    Routing gives each query its candidate leaves.  The batch inverts these probe sets
    into refs sorted by page, and sweeps the unique leaves: workers claim chunks of 32
    from a shared counter, and each keeps a heap and a pool per query it meets (its
    partials), which are merged at the end.  A [schedule] says which worker claimed
    which chunks and in which order the workers were done. *)
From stdpp Require Import sorting.
From S2P Require Import Prelude Doubles Schema FilterHash FilterColumns FilterScan PageFile TreeNodes TopW LeafScan CutTopk SweepPool.

(** ** Loops over a list *)

Fixpoint fold_res {A S} (f : A → S → res S) (l : list A) (s : S) : res S :=
  match l with [] => Ok s | x :: t => s ← f x s; fold_res f t s end.

(** Consecutive groups of [n] elements. *)
Fixpoint groups_of {A} (fuel n : nat) (l : list A) : list (list A) :=
  match fuel, l with
  | O, _ | _, [] => []
  | S fuel', _ => take n l :: groups_of fuel' n (drop n l)
  end.

(** ** Probe references *)

Record ProbeRef := mkProbeRef { pr_page : Z; pr_qidx : Z; pr_slot : Z }.

Definition ref_less (a b : ProbeRef) : bool :=
  if negb (pr_page a =? pr_page b) then pr_page a <? pr_page b
  else if negb (pr_qidx a =? pr_qidx b) then pr_qidx a <? pr_qidx b
  else pr_slot a <? pr_slot b.

Record UniqueLeaf := mkUniqueLeaf { ul_page : Z; ul_pages : Z; ul_ref_begin : Z }.

Record Partial := mkPartial { p_heap : list HeapEntry; p_pool : list PoolEntry }.

Section batch.
Context {Setup : Type} `{LeafCoder Setup} `{RapidHash} `{LibM}.
Context (schema : Schema) (config : SweepConfig Setup) (supports_batch_scan : bool).
(** What reading a leaf extent of so many pages gives: nothing when the read fails. *)
Context (leaves : Z → Z → option (list Z)).
Context (qs : list (QueryState Setup)).

(** *** Phase 2: the probe sets inverted *)

Definition query_refs (i : Z) (q : QueryState Setup) : list ProbeRef :=
  concat (imap (λ slot c, if lc_page c =? kInvalidPage then [] else [mkProbeRef (lc_page c) i (Z.of_nat slot)]) (qs_candidates q)).

Definition probe_refs : list ProbeRef := std_sort ref_less (concat (imap (λ i q, query_refs (Z.of_nat i) q) qs)).

(** The candidate a ref names. *)
Definition ref_candidate (r : ProbeRef) : res LeafCandidate :=
  q ← vec_get qs (pr_qidx r); vec_get (qs_candidates q) (pr_slot r).

Fixpoint unique_leaves_from (last : option Z) (i : Z) (refs : list ProbeRef) : res (list UniqueLeaf) :=
  match refs with
  | [] => mret []
  | r :: refs' =>
      if bool_decide (last = Some (pr_page r)) then unique_leaves_from last (i + 1) refs'
      else
        c ← ref_candidate r;
        uls ← unique_leaves_from (Some (pr_page r)) (i + 1) refs';
        mret (mkUniqueLeaf (pr_page r) (lc_pages c) i :: uls)
  end.

Definition unique_leaves : res (list UniqueLeaf) := unique_leaves_from None 0 probe_refs.

(** *** Phase 3: the sweep *)

(** The slice of a leaf's refs, up to the next leaf's. *)
Definition leaf_refs (refs : list ProbeRef) (uls : list UniqueLeaf) (li : nat) : res (list ProbeRef) :=
  ul ← vec_get uls (Z.of_nat li);
  let ref_end := match uls !! S li with Some nl => ul_ref_begin nl | None => Z.of_nat (length refs) end in
  mret (take (Z.to_nat (ref_end - ul_ref_begin ul)) (drop (Z.to_nat (ul_ref_begin ul)) refs)).

Definition batch_has_predicates : bool :=
  existsb (λ q, match qs_predicates q with [] => false | _ => true end) qs.

Definition ensure_partial (r : ProbeRef) (m : gmap Z Partial) : res (gmap Z Partial) :=
  q ← vec_get qs (pr_qidx r);
  mret (match m !! pr_qidx r with
        | Some _ => m
        | None => <[pr_qidx r := mkPartial (heap_init (qs_W q)) (pool_init (qs_W q))]> m
        end).

Definition get_partial (m : gmap Z Partial) (i : Z) : res Partial :=
  match m !! i with Some p => Ok p | None => Err UndefinedBehaviour end.

Definition scan_ref (leaf : list Z) (r : ProbeRef) (m : gmap Z Partial) : res (gmap Z Partial) :=
  q ← vec_get qs (pr_qidx r);
  p ← get_partial m (pr_qidx r);
  s ← coder_scan (qs_setup q) leaf (mkRawScanHeap (p_heap p) (qs_W q) (pr_slot r));
  mret (<[pr_qidx r := mkPartial (rsh_h s) (p_pool p)]> m).

Definition harvest_ref (leaf : list Z) (cols : list Z * list ColumnView) (r : ProbeRef)
    (m : gmap Z Partial) : res (gmap Z Partial) :=
  q ← vec_get qs (pr_qidx r);
  p ← get_partial m (pr_qidx r);
  pool ← harvest config q leaf cols (pr_slot r) (p_heap p) (p_pool p);
  mret (<[pr_qidx r := mkPartial (p_heap p) pool]> m).

(** A group is scanned, then harvested. *)
Definition sweep_group (leaf : list Z) (cols : list Z * list ColumnView) (group : list ProbeRef)
    (m : gmap Z Partial) : res (gmap Z Partial) :=
  m ← fold_res (scan_ref leaf) group m; fold_res (harvest_ref leaf cols) group m.

Definition group_size : nat := if supports_batch_scan then 4 else 1.

Definition sweep_leaf (refs : list ProbeRef) (uls : list UniqueLeaf) (li : nat) (m : gmap Z Partial) : res (gmap Z Partial) :=
  ul ← vec_get uls (Z.of_nat li);
  match leaves (ul_page ul) (ul_pages ul) with
  | None => mret m
  | Some leaf =>
      cols ← (if batch_has_predicates then leaf_columns schema leaf else mret ([], []));
      frs ← leaf_refs refs uls li;
      m ← fold_res ensure_partial frs m;
      fold_res (sweep_group leaf cols) (groups_of (length frs) group_size frs) m
  end.

Definition kChunk : nat := 32.

(** The leaves of the chunk that begins at [start]. *)
Definition chunk_leaves (n_unique start : nat) : list nat := seq start (kChunk `min` (n_unique - start)).

(** The values the shared counter hands out. *)
Definition chunk_starts (n_unique : nat) : list nat := (λ c, c * kChunk)%nat <$> seq 0 ((n_unique + kChunk - 1) / kChunk).

Definition sweep_worker (refs : list ProbeRef) (uls : list UniqueLeaf) (claims : list nat) : res (gmap Z Partial) :=
  fold_res (λ start m, fold_res (sweep_leaf refs uls) (chunk_leaves (length uls) start) m) claims ∅.

(** Every value of the counter was claimed by one worker. *)
Definition schedule_ok (n_unique : nat) (schedule : list (list nat)) : Prop := concat schedule ≡ₚ chunk_starts n_unique.

(** *** The merge *)

Definition query_partials (partials : list (gmap Z Partial)) (i : Z) : list Partial := omap (λ m, m !! i) partials.

Definition merge_heap (w : Z) (ps : list Partial) : list HeapEntry :=
  let heap := strip_sentinels (concat (p_heap <$> ps)) in
  if w <? Z.of_nat (length heap) then take (Z.to_nat w) (std_sort heap_entry_less heap) else heap.

Definition merge_pool (ps : list Partial) : list PoolEntry :=
  filter (λ p, pool_entry_is_sentinel p = false) (concat (p_pool <$> ps)).

(** *** Phase 4: the answer of a query *)

Definition slot_less (a b : Z * Z) : bool := if negb (a.1 =? b.1) then a.1 <? b.1 else a.2 <? b.2.

Definition pool_slot (p : PoolEntry) : Z * Z := (pe_leaf_slot p, pe_local_idx p).
Definition heap_slot (e : HeapEntry) : Z * Z := (leaf_slot e, local_idx e).

(** [std::lower_bound]. *)
Fixpoint lower_bound (pool : list PoolEntry) (k : Z * Z) : option PoolEntry :=
  match pool with
  | [] => None
  | p :: pool' => if slot_less (pool_slot p) k then lower_bound pool' k else Some p
  end.

Definition pool_dist (q : QueryState Setup) (e : HeapEntry) (p : PoolEntry) : float :=
  if pe_reranked p then pe_dist p
  else match sc_exact config with
       | Some exact => if rerank (sc_cut config) then exact (qs_setup q) (pe_row_id p) else float_of_u32 (pq_dist e)
       | None => float_of_u32 (pq_dist e)
       end.

Definition pool_result (q : QueryState Setup) (pool : list PoolEntry) (e : HeapEntry) : option Candidate :=
  p ← lower_bound pool (heap_slot e);
  if bool_decide (pool_slot p = heap_slot e) && pe_pred_ok p then Some (mkCandidate (pe_row_id p) (pool_dist q e p)) else None.

Definition finalize_pool_query (k : Z) (q : QueryState Setup) (pool : list PoolEntry) (heap : list HeapEntry) : res (list Candidate) :=
  let pool := std_sort (λ a b, slot_less (pool_slot a) (pool_slot b)) pool in
  cut_topk_results (omap (pool_result q pool) heap) k (sc_cut config).

Definition swept_answer (k : Z) (partials : list (gmap Z Partial)) (i : Z) (q : QueryState Setup) : res (list Candidate) :=
  let ps := query_partials partials i in
  let heap := merge_heap (qs_W q) ps in
  match qs_candidates q, heap with
  | [], _ | _, [] => mret []
  | _, _ => finalize_pool_query k q (merge_pool ps) heap
  end.
End batch.
