(* ===== verification/BatchSweepInv.v ===== *)
(** * BatchSweepInv: what a worker's partials hold

    [worker_inv done pend m]: for each query, the partial in [m] holds the least
    entries of the leaves of the refs [done], and its pool what the harvest of the
    entries outside [pend] left. *)
From stdpp Require Import sorting.
From S2P Require Import Prelude Doubles Schema FilterHash FilterColumns FilterScan PageFile TreeNodes TopW LeafScan CutTopk SweepPool BatchSweep.

(** ** Loops and groups *)

Lemma fold_res_ok {A S} (I : list A → S → Prop) (f : A → S → res S) l s :
  I [] s → (∀ pre x post t, l = pre ++ x :: post → I pre t → ∃ t', f x t = Ok t' ∧ I (pre ++ [x]) t') →
  ∃ s', fold_res f l s = Ok s' ∧ I l s'.
Proof.
  intros H0 Hs. assert (∀ post pre t, l = pre ++ post → I pre t → ∃ t', fold_res f post t = Ok t' ∧ I l t') as Hg.
  { induction post as [|x post IH]; intros pre t E Ht; cbn [fold_res].
    - exists t. rewrite app_nil_r in E. by subst.
    - destruct (Hs pre x post t E Ht) as (t' & -> & Ht'). rewrite bind_Ok. apply (IH (pre ++ [x])); [|done].
      by rewrite <- app_assoc. }
  by apply (Hg l []).
Qed.

Lemma concat_groups {A} fuel n (l : list A) : (0 < n)%nat → (length l ≤ fuel)%nat → concat (groups_of fuel n l) = l.
Proof.
  intros Hn. revert l. induction fuel as [|fuel IH]; intros l Hl; [by destruct l; [|cbn in Hl; lia]|].
  destruct l as [|x l]; [done|]. cbn [groups_of concat]. rewrite IH, take_drop; [done|]. rewrite length_drop. cbn [length] in *. lia.
Qed.

Lemma filter_keep {A} (P : A → Prop) `{!∀ x, Decision (P x)} (l : list A) : (∀ x, x ∈ l → P x) → filter P l = l.
Proof.
  induction l as [|x l IH]; intros Hall; [done|]. rewrite filter_cons_True by (apply Hall; by left).
  f_equal. apply IH. intros y Hy. apply Hall. by right.
Qed.

Lemma elem_of_rev {A} (x : A) l : x ∈ rev l ↔ x ∈ l.
Proof. by rewrite !list_elem_of_In, <- in_rev. Qed.

Section inv.
Context {Setup : Type} {HLC : LeafCoder Setup} {HLS : LeafCoderScan Setup} {HRH : RapidHash} {HLM : LibM}.
Context (schema : Schema) (config : SweepConfig Setup) (supports_batch_scan : bool).
Context (leaves : Z → Z → option (list Z)) (qs : list (QueryState Setup)).

(** ** The leaf of a slot, its entries, and what is harvested of them *)

Definition slot_leaf (q : QueryState Setup) (slot : Z) : option (list Z) :=
  c ← qs_candidates q !! Z.to_nat slot;
  if lc_page c =? kInvalidPage then None else leaves (lc_page c) (lc_pages c).

Definition entries_at (q : QueryState Setup) (slot : Z) : list HeapEntry :=
  match slot_leaf q slot with Some leaf => scan_entries (qs_setup q) leaf slot | None => [] end.

(** The slots that name a leaf. *)
Definition probed (q : QueryState Setup) : list Z :=
  concat (imap (λ slot c, if lc_page c =? kInvalidPage then [] else [Z.of_nat slot]) (qs_candidates q)).

Definition all_entries (q : QueryState Setup) : list HeapEntry := concat (entries_at q <$> probed q).

Definition query_columns (q : QueryState Setup) (leaf : list Z) : res (list Z * list ColumnView) :=
  match qs_predicates q with [] => mret ([], []) | _ => leaf_columns schema leaf end.

Definition harvest_of (q : QueryState Setup) (leaf : list Z) (e : HeapEntry) : res PoolEntry :=
  cols ← query_columns q leaf; harvest_entry config q leaf cols e.

Definition harvested (q : QueryState Setup) (e : HeapEntry) : PoolEntry :=
  let unknown := mkPoolEntry (pq_dist e) (leaf_slot e) (local_idx e) 0 (S754_zero false) false false in
  match slot_leaf q (leaf_slot e) with
  | Some leaf => match harvest_of q leaf e with Ok p => p | Err _ => unknown end
  | None => unknown
  end.

Lemma harvest_entry_key q leaf cols e p : harvest_entry config q leaf cols e = Ok p → pool_key p = e.
Proof.
  unfold harvest_entry. intros E. repeat (apply bind_Ok_inv in E as (? & _ & E)). injection E as <-. by destruct e.
Qed.

Lemma harvested_key q e : pool_key (harvested q e) = e.
Proof.
  unfold harvested. destruct (slot_leaf q (leaf_slot e)) as [leaf|]; [|by destruct e].
  destruct (harvest_of q leaf e) as [p|] eqn:E; [|by destruct e].
  unfold harvest_of in E. apply bind_Ok_inv in E as (cols & _ & E). by eapply harvest_entry_key.
Qed.

(** ** A batch that can be swept *)

(** Leaves are read, belong to the index, and every lane of their blocks can be harvested. *)
Record batch_ok : Prop := {
  bo_w i q : qs !! i = Some q → qs_candidates q ≠ [] → 0 < qs_W q < 2 ^ 31;
  bo_slots i q : qs !! i = Some q → Z.of_nat (length (qs_candidates q)) < 2 ^ 32;
  bo_pages i q c i' q' c' : qs !! i = Some q → qs !! i' = Some q' → c ∈ qs_candidates q → c' ∈ qs_candidates q' →
    lc_page c = lc_page c' → lc_pages c = lc_pages c';
  bo_leaf i q c : qs !! i = Some q → c ∈ qs_candidates q → lc_page c ≠ kInvalidPage →
    ∃ leaf, leaves (lc_page c) (lc_pages c) = Some leaf ∧ leaf_ok (qs_setup q) leaf ∧
      (batch_has_predicates qs = true → ∃ cols, leaf_columns schema leaf = Ok cols) ∧
      ∀ e, 0 ≤ local_idx e < scan_lanes (qs_setup q) leaf → ∃ p, harvest_of q leaf e = Ok p;
}.
Context (Hok : batch_ok).

(** A ref names a candidate of a query. *)
Definition ref_ok (r : ProbeRef) : Prop :=
  0 ≤ pr_qidx r ∧ 0 ≤ pr_slot r ∧ ∃ q c, qs !! Z.to_nat (pr_qidx r) = Some q ∧
    qs_candidates q !! Z.to_nat (pr_slot r) = Some c ∧ lc_page c = pr_page r ∧ pr_page r ≠ kInvalidPage.

Lemma ref_leaf r q :
  ref_ok r → qs !! Z.to_nat (pr_qidx r) = Some q →
  ∃ leaf, slot_leaf q (pr_slot r) = Some leaf ∧ leaf_ok (qs_setup q) leaf ∧
    (batch_has_predicates qs = true → ∃ cols, leaf_columns schema leaf = Ok cols) ∧
    (∀ e, 0 ≤ local_idx e < scan_lanes (qs_setup q) leaf → ∃ p, harvest_of q leaf e = Ok p) ∧
    0 < qs_W q < 2 ^ 31 ∧ pr_slot r < 0xFFFFFFFF ∧
    ∀ i' q' c', qs !! i' = Some q' → c' ∈ qs_candidates q' → lc_page c' = pr_page r → leaves (pr_page r) (lc_pages c') = Some leaf.
Proof.
  intros (H0 & H1 & q' & c & Hq & Hc & Hp & Hi) Hq'. assert (q' = q) as -> by congruence. pose proof (list_elem_of_lookup_2 _ _ _ Hc) as Hin.
  destruct (bo_leaf Hok _ q c Hq Hin) as (leaf & El & Hl & Hcols & Hh); [congruence|]. exists leaf.
  unfold slot_leaf. rewrite Hc. cbn [mbind option_bind]. destruct (Z.eqb_spec (lc_page c) kInvalidPage); [congruence|].
  split_and!; try done.
  - apply (bo_w Hok _ q Hq). intros E. rewrite E in Hin. by apply not_elem_of_nil in Hin.
  - apply (bo_w Hok _ q Hq). intros E. rewrite E in Hin. by apply not_elem_of_nil in Hin.
  - pose proof (bo_slots Hok _ q Hq). apply lookup_lt_Some in Hc. lia.
  - intros i' q2 c' Hq2 Hc' Ep. rewrite <- (bo_pages Hok _ q c i' q2 c') by (done || congruence). by rewrite <- Hp.
Qed.

(** ** The invariant *)

Definition slots (i : nat) (l : list ProbeRef) : list Z := pr_slot <$> filter (λ r, pr_qidx r = Z.of_nat i) l.

Definition lane_of (q : QueryState Setup) (e : HeapEntry) : Prop :=
  entry_ok e ∧ ∃ leaf, slot_leaf q (leaf_slot e) = Some leaf ∧ 0 ≤ local_idx e < scan_lanes (qs_setup q) leaf.

Definition partial_ok (q : QueryState Setup) (D Pend : list Z) (p : Partial) : Prop :=
  ∃ P Hd, partial_inv (Z.to_nat (qs_W q)) (harvested q) D Pend P Hd (p_heap p) (p_pool p) ∧
    filter real P ≡ₚ concat (entries_at q <$> D) ∧ Forall (lane_of q) P.

Definition worker_inv (done pend : list ProbeRef) (m : gmap Z Partial) : Prop :=
  ∀ i q, qs !! i = Some q →
    match m !! Z.of_nat i with
    | None => slots i done = []
    | Some p => partial_ok q (slots i done) (slots i pend) p
    end.

(** The refs [l] have partials. *)
Definition ensured (l : list ProbeRef) (m : gmap Z Partial) : Prop := ∀ r, r ∈ l → is_Some (m !! pr_qidx r).

Lemma slots_cons i r l : slots i (r :: l) = if decide (pr_qidx r = Z.of_nat i) then pr_slot r :: slots i l else slots i l.
Proof. unfold slots. rewrite filter_cons. by case_decide. Qed.

Lemma worker_init : worker_inv [] [] ∅.
Proof. intros i q Hq. by rewrite lookup_empty. Qed.

Lemma vec_query r q : ref_ok r → qs !! Z.to_nat (pr_qidx r) = Some q → vec_get qs (pr_qidx r) = Ok q.
Proof. intros (Hr & _) Hq. unfold vec_get. destruct (Z.ltb_spec (pr_qidx r) 0); [lia|]. by rewrite Hq. Qed.

Lemma ensure_partial_ok r done m :
  ref_ok r → worker_inv done [] m →
  ∃ m', ensure_partial qs r m = Ok m' ∧ worker_inv done [] m' ∧ is_Some (m' !! pr_qidx r) ∧ ∀ i, is_Some (m !! i) → is_Some (m' !! i).
Proof.
  intros Hr Hm. destruct Hr as (Hq0 & Hr'); pose proof (conj Hq0 Hr' : ref_ok r) as Hr. destruct Hr' as (_ & q & c & Hq & _).
  unfold ensure_partial. rewrite (vec_query r q Hr Hq), bind_Ok. eexists. split; [done|].
  destruct (m !! pr_qidx r) as [p|] eqn:Em; [by split_and!; [..|eauto]|]. split_and!.
  - intros i q' Hq'. destruct (decide (Z.of_nat i = pr_qidx r)) as [E|E].
    + rewrite E, lookup_insert_eq. assert (q' = q) as ->.
      { apply (inj Some). by rewrite <- Hq', <- Hq, <- E, Nat2Z.id. }
      pose proof (Hm i q Hq') as Hd. rewrite E, Em in Hd. rewrite Hd. exists [], []. cbn [p_heap p_pool]. split_and!; [|done..].
      apply partial_init.
    + rewrite lookup_insert_ne by done. by apply Hm.
  - rewrite lookup_insert_eq. eauto.
  - intros i [x Hx]. destruct (decide (pr_qidx r = i)) as [E|]; [subst i; congruence|]. rewrite lookup_insert_ne by done. eauto.
Qed.

(** A ref that is not done yet. *)
Definition fresh (done : list ProbeRef) (r : ProbeRef) : Prop :=
  ∀ r', r' ∈ done → pr_qidx r' = pr_qidx r → pr_slot r' ≠ pr_slot r.

Lemma fresh_slot done r i : fresh done r → pr_qidx r = Z.of_nat i → pr_slot r ∉ slots i done.
Proof.
  intros Hf Ei (r' & E & Hr')%list_elem_of_fmap. apply list_elem_of_filter in Hr' as [Hi Hr'].
  apply (Hf r' Hr'); congruence.
Qed.

(** A step on the query of one ref. *)
Lemma worker_step done pend done' pend' m r q p p' :
  ref_ok r → qs !! Z.to_nat (pr_qidx r) = Some q → worker_inv done pend m → m !! pr_qidx r = Some p →
  (∀ i, Z.of_nat i ≠ pr_qidx r → slots i done' = slots i done ∧ slots i pend' = slots i pend) →
  (let i := Z.to_nat (pr_qidx r) in partial_ok q (slots i done) (slots i pend) p → partial_ok q (slots i done') (slots i pend') p') →
  worker_inv done' pend' (<[pr_qidx r := p']> m).
Proof.
  intros [Hr _] Hq Hm Hp Hother Hstep i q' Hq'. destruct (decide (Z.of_nat i = pr_qidx r)) as [E|E].
  - rewrite E, lookup_insert_eq. rewrite <- E, Nat2Z.id in Hq. assert (q' = q) as -> by congruence.
    pose proof (Hm i q Hq') as Hi. rewrite E, Hp in Hi. rewrite <- E, Nat2Z.id in Hstep. by apply Hstep.
  - rewrite lookup_insert_ne by done. destruct (Hother i E) as [-> ->]. by apply Hm.
Qed.

Lemma scan_ref_ok leaf r q done pend m :
  ref_ok r → qs !! Z.to_nat (pr_qidx r) = Some q → slot_leaf q (pr_slot r) = Some leaf →
  fresh done r → worker_inv done pend m → is_Some (m !! pr_qidx r) →
  ∃ m', scan_ref qs leaf r m = Ok m' ∧ worker_inv (r :: done) (r :: pend) m' ∧ ∀ i, is_Some (m !! i) → is_Some (m' !! i).
Proof.
  intros Hr Hq Hl Hf Hm [p Hp]. pose proof (ref_leaf r q Hr Hq) as (leaf' & El & Hlok & _ & _ & HW & _).
  assert (leaf' = leaf) as -> by congruence. unfold scan_ref, get_partial. rewrite (vec_query r q Hr Hq), bind_Ok, Hp, bind_Ok.
  assert (partial_ok q (slots (Z.to_nat (pr_qidx r)) done) (slots (Z.to_nat (pr_qidx r)) pend) p) as (P & Hd & Hinv & Hreal & Hlane).
  { pose proof (Hm _ q Hq) as Hi. rewrite Z2Nat.id, Hp in Hi by apply Hr. done. }
  destruct (coder_scan_entries (qs_setup q) leaf (Z.to_nat (qs_W q)) (pr_slot r) P (mkRawScanHeap (p_heap p) (qs_W q) (pr_slot r)))
    as (s' & new & Es & (_ & _ & Hb) & Hoff & Hnew); [done|lia|lia| |].
  { split_and!; [cbn; lia|done|]. apply (pi_heap _ _ _ _ _ _ _ _ Hinv). }
  rewrite Es, bind_Ok. eexists. split; [done|]. split.
  - eapply (worker_step done pend); [done..| |].
    + intros i Hi. by rewrite !slots_cons, !decide_False by congruence.
    + intros i _. unfold i. rewrite !slots_cons, Z2Nat.id, !decide_True by (done || apply Hr).
      exists (new ++ P), Hd. cbn [p_heap p_pool]. split_and!.
      * eapply partial_scan; [done..| | |done].
        -- apply fresh_slot; [done|]. rewrite Z2Nat.id; [done|apply Hr].
        -- intros e He. rewrite Forall_forall in Hnew. by apply Hnew.
      * cbn [fmap list_fmap concat]. rewrite filter_app, Hoff. f_equiv; [|done]. unfold entries_at. rewrite Hl.
        rewrite filter_keep; [done|]. intros e He. by apply (scan_entries_real (qs_setup q) leaf (pr_slot r)).
      * apply Forall_app. split; [|done]. eapply Forall_impl; [exact Hnew|]. intros e (He1 & He2 & He3).
        split; [done|]. exists leaf. by rewrite He2.
  - intros i [x Hx]. destruct (decide (pr_qidx r = i)) as [E|]; [subst i; rewrite lookup_insert_eq; eauto|]. rewrite lookup_insert_ne by done. eauto.
Qed.

(** The refs still to harvest after [r] was. *)
Definition unpend (r : ProbeRef) (pend : list ProbeRef) : list ProbeRef :=
  filter (λ r', ¬ (pr_qidx r' = pr_qidx r ∧ pr_slot r' = pr_slot r)) pend.

Lemma slots_unpend i r pend :
  slots i (unpend r pend) = if decide (pr_qidx r = Z.of_nat i) then filter (λ s, s ≠ pr_slot r) (slots i pend) else slots i pend.
Proof.
  induction pend as [|r' pend IH]; [by destruct (decide _)|]. unfold unpend in *. rewrite filter_cons, (slots_cons i r' pend).
  destruct (decide (pr_qidx r = Z.of_nat i)) as [E|E], (decide (pr_qidx r' = Z.of_nat i)) as [E'|E'].
  - rewrite filter_cons. destruct (decide (pr_slot r' = pr_slot r)) as [Es|Es].
    + rewrite decide_False by (intros Hn; apply Hn; split; congruence). rewrite decide_False by auto. exact IH.
    + rewrite decide_True by (intros [_ ?]; done). rewrite decide_True by done. by rewrite slots_cons, decide_True, IH.
  - rewrite decide_True by (intros [? _]; congruence). by rewrite slots_cons, decide_False.
  - rewrite decide_True by (intros [? _]; congruence). by rewrite slots_cons, decide_True, IH.
  - case_decide; [by rewrite slots_cons, decide_False|done].
Qed.

(** The columns a leaf's harvest uses. *)
Definition columns_for (q : QueryState Setup) (leaf : list Z) (cols : list Z * list ColumnView) : Prop :=
  qs_predicates q ≠ [] → leaf_columns schema leaf = Ok cols.

Lemma harvest_of_cols q leaf cols e p :
  columns_for q leaf cols → harvest_of q leaf e = Ok p → harvest_entry config q leaf cols e = Ok p.
Proof.
  unfold columns_for, harvest_of, query_columns. intros Hc. destruct (qs_predicates q) eqn:Ep.
  - unfold mret, res_ret. rewrite bind_Ok. unfold harvest_entry. by rewrite Ep.
  - by rewrite Hc by done.
Qed.

Lemma harvested_ok q leaf cols e :
  slot_leaf q (leaf_slot e) = Some leaf → columns_for q leaf cols → (∃ p, harvest_of q leaf e = Ok p) →
  harvest_entry config q leaf cols e = Ok (harvested q e).
Proof.
  intros Hl Hc [p Hp]. rewrite (harvest_of_cols q leaf cols e p) by done. unfold harvested. by rewrite Hl, Hp.
Qed.

Lemma harvest_ref_ok leaf cols r q done pend m :
  ref_ok r → qs !! Z.to_nat (pr_qidx r) = Some q → slot_leaf q (pr_slot r) = Some leaf → columns_for q leaf cols →
  r ∈ pend → worker_inv done pend m → is_Some (m !! pr_qidx r) →
  ∃ m', harvest_ref config qs leaf cols r m = Ok m' ∧ worker_inv done (unpend r pend) m' ∧ ∀ i, is_Some (m !! i) → is_Some (m' !! i).
Proof.
  intros Hr Hq Hl Hcols Hpend Hm [p Hp]. pose proof (ref_leaf r q Hr Hq) as (leaf' & El & _ & _ & Hharv & HW & Hslot & _).
  assert (leaf' = leaf) as -> by congruence. unfold harvest_ref, get_partial. rewrite (vec_query r q Hr Hq), bind_Ok, Hp, bind_Ok.
  set (i := Z.to_nat (pr_qidx r)). assert (pr_qidx r = Z.of_nat i) as Ei by (unfold i; rewrite Z2Nat.id; [done|apply Hr]).
  assert (partial_ok q (slots i done) (slots i pend) p) as (P & Hd & Hinv & Hreal & Hlane).
  { pose proof (Hm _ q Hq) as Hi. rewrite Z2Nat.id, Hp in Hi by apply Hr. done. }
  destruct (harvest_ok (Z.to_nat (qs_W q)) ltac:(lia) ltac:(lia) (harvested q) (harvested_key q) config q leaf cols (pr_slot r) (p_heap p) Hd (p_pool p))
    as (pool & E & Hb).
  { intros e He Es. apply harvested_ok; [by rewrite Es|done|]. apply Hharv.
    destruct (pi_heap _ _ _ _ _ _ _ _ Hinv) as [_ Ht]. apply (topw_elem heap_entry_less _ _ _ e Ht), elem_of_app in He as [[-> _]%elem_of_replicate|He].
    - cbn [leaf_slot sentinel] in Es. lia.
    - rewrite Forall_forall in Hlane. destruct (Hlane e He) as (_ & leaf' & El' & Hlan). rewrite Es in El'. by assert (leaf' = leaf) as -> by congruence. }
  { apply (pi_pool _ _ _ _ _ _ _ _ Hinv). }
  rewrite E, bind_Ok. eexists. split; [done|]. split.
  - eapply (worker_step done pend); [done..| |].
    + intros j Hj. by rewrite slots_unpend, decide_False by congruence.
    + cbv zeta. fold i. intros _. rewrite slots_unpend, decide_True by done.
      exists P, (filter (λ e, leaf_slot e = pr_slot r) (p_heap p) ++ Hd). cbn [p_heap p_pool]. split_and!; [|done..].
      eapply partial_harvest; [done| |lia|done]. unfold slots. apply list_elem_of_fmap. exists r. split; [done|]. by apply list_elem_of_filter.
  - intros j [x Hx]. destruct (decide (pr_qidx r = j)) as [E'|]; [subst j; rewrite lookup_insert_eq; eauto|]. rewrite lookup_insert_ne by done. eauto.
Qed.

(** ** A group, a leaf *)

Definition ref_key (r : ProbeRef) : Z * Z := (pr_qidx r, pr_slot r).

(** [r] is a ref of the leaf read as [leaf]. *)
Definition ref_in (leaf : list Z) (cols : list Z * list ColumnView) (r : ProbeRef) : Prop :=
  ref_ok r ∧ ∃ q, qs !! Z.to_nat (pr_qidx r) = Some q ∧ slot_leaf q (pr_slot r) = Some leaf ∧ columns_for q leaf cols.

Lemma fresh_key done r : fresh done r ↔ ref_key r ∉ ref_key <$> done.
Proof.
  unfold fresh. rewrite list_elem_of_fmap. split.
  - intros Hf (r' & [= E1 E2] & Hr'). by apply (Hf r' Hr').
  - intros Hf r' Hr' E1 E2. apply Hf. exists r'. split; [|done]. unfold ref_key. by rewrite E1, E2.
Qed.

Lemma keys_split pre x post done :
  NoDup (ref_key <$> (pre ++ x :: post) ++ done) → fresh (rev pre ++ done) x ∧ fresh post x.
Proof.
  rewrite <- app_assoc. cbn [app]. rewrite !fmap_app, fmap_cons, fmap_app. intros Hn. apply NoDup_app in Hn as (_ & Hpre & Hn).
  apply NoDup_cons in Hn as [Hx _]. rewrite !fresh_key, fmap_app. split.
  - intros [Hin|Hin]%elem_of_app; [|apply Hx, elem_of_app; by right].
    apply (Hpre (ref_key x)); [|by left]. apply list_elem_of_fmap in Hin as (r & -> & Hr). apply list_elem_of_fmap_2. by apply elem_of_rev.
  - intros Hin. apply Hx, elem_of_app. by left.
Qed.

Lemma keys_sub l k rest : k ≡ₚ l ++ rest → NoDup (ref_key <$> k) → NoDup (ref_key <$> l).
Proof. intros ->. rewrite fmap_app. intros Hn. by apply NoDup_app in Hn as [Hn _]. Qed.

Lemma unpend_last x post : fresh post x → unpend x (rev (x :: post)) = rev post.
Proof.
  intros Hf. unfold unpend. cbn [rev]. rewrite filter_app, filter_cons_False by (intros Hn; by apply Hn). rewrite app_nil_r.
  apply filter_keep. intros r Hr [E1 E2]. apply (proj1 (elem_of_rev _ _)) in Hr. by apply (Hf r Hr).
Qed.

Lemma sweep_group_ok leaf cols g done m :
  Forall (ref_in leaf cols) g → NoDup (ref_key <$> g ++ done) → ensured g m → worker_inv done [] m →
  ∃ m', sweep_group config qs leaf cols g m = Ok m' ∧ worker_inv (rev g ++ done) [] m' ∧ ∀ i, is_Some (m !! i) → is_Some (m' !! i).
Proof.
  intros Hg Hn He Hm. rewrite Forall_forall in Hg. unfold sweep_group.
  destruct (fold_res_ok (λ pre m', worker_inv (rev pre ++ done) (rev pre) m' ∧ ∀ i, is_Some (m !! i) → is_Some (m' !! i))
    (scan_ref qs leaf) g m) as (m1 & -> & Hm1 & Hk1); [done| |].
  { intros pre x post t -> [Ht Hk]. destruct (Hg x) as (Hx & q & Hq & Hl & Hc); [apply elem_of_app; right; by left|].
    destruct (scan_ref_ok leaf x q (rev pre ++ done) (rev pre) t) as (t' & E & Ht' & Hk'); [done..| | | |].
    - by apply (keys_split pre x post done).
    - done.
    - apply Hk, He, elem_of_app. right. by left.
    - exists t'. rewrite rev_app_distr. cbn [rev app]. split_and!; [done..|]. auto. }
  rewrite bind_Ok.
  destruct (fold_res_ok (λ pre m', (∃ post, g = pre ++ post ∧ worker_inv (rev g ++ done) (rev post) m') ∧ ∀ i, is_Some (m !! i) → is_Some (m' !! i))
    (harvest_ref config qs leaf cols) g m1) as (m2 & -> & (post & Ep & Hm2) & Hk2).
  - split; [|done]. by exists g.
  - intros pre x post t E [(post' & E' & Ht) Hk]. rewrite E in E'. apply app_inv_head in E' as <-.
    destruct (Hg x) as (Hx & q & Hq & Hl & Hc); [rewrite E; apply elem_of_app; right; by left|].
    destruct (harvest_ref_ok leaf cols x q (rev g ++ done) (rev (x :: post)) t) as (t' & E' & Ht' & Hk'); [done..| | | |].
    + apply elem_of_rev. by left.
    + done.
    + apply Hk, He. rewrite E. apply elem_of_app. right. by left.
    + exists t'. split; [done|]. split; [|by auto]. exists post. split; [by rewrite <- app_assoc|].
      rewrite unpend_last in Ht'; [done|]. rewrite E in Hn. by apply (keys_split pre x post done).
  - exists m2. split; [done|]. rewrite <- (app_nil_r g) in Ep at 1. apply app_inv_head in Ep as <-. done.
Qed.

Lemma ensure_ok frs done m :
  Forall ref_ok frs → worker_inv done [] m →
  ∃ m', fold_res (ensure_partial qs) frs m = Ok m' ∧ worker_inv done [] m' ∧ ensured frs m'.
Proof.
  intros Hf Hm. rewrite Forall_forall in Hf.
  apply (fold_res_ok (λ pre m', worker_inv done [] m' ∧ ensured pre m')); [split; [done|by intros ? []%not_elem_of_nil]|].
  intros pre x post t -> [Ht Hk]. destruct (ensure_partial_ok x done t) as (t' & E & Ht' & Hx & Hk'); [apply Hf, elem_of_app; right; by left|done|].
  exists t'. split_and!; [done..|]. intros r [Hr|Hr%list_elem_of_singleton]%elem_of_app; [by apply Hk', Hk|by subst].
Qed.

(** The refs of one leaf, in groups. *)
Lemma sweep_refs_ok leaf cols frs done m :
  Forall (ref_in leaf cols) frs → NoDup (ref_key <$> frs ++ done) → worker_inv done [] m →
  ∃ m', (m ← fold_res (ensure_partial qs) frs m;
         fold_res (sweep_group config qs leaf cols) (groups_of (length frs) (group_size supports_batch_scan) frs) m) = Ok m' ∧
    worker_inv (rev frs ++ done) [] m'.
Proof.
  intros Hf Hn Hm. destruct (ensure_ok frs done m) as (m1 & -> & Hm1 & He); [eapply Forall_impl; [exact Hf|]; by intros r []|done|].
  rewrite bind_Ok. set (gs := groups_of _ _ _).
  assert (concat gs = frs) as Egs by (apply concat_groups; [by destruct supports_batch_scan; unfold group_size; lia|done]).
  destruct (fold_res_ok (λ pre m', worker_inv (rev (concat pre) ++ done) [] m' ∧ ensured frs m') (sweep_group config qs leaf cols) gs m1)
    as (m2 & -> & Hm2 & _); [done| |].
  - intros pre g post t E [Ht Hk]. assert (frs = concat pre ++ g ++ concat post) as Ef by (rewrite <- Egs, E, concat_app; done).
    destruct (sweep_group_ok leaf cols g (rev (concat pre) ++ done) t) as (t' & E' & Ht' & Hk').
    + rewrite Ef, !Forall_app in Hf. tauto.
    + rewrite Ef in Hn. refine (keys_sub _ _ (concat post) _ Hn). rewrite <- (Permutation_rev (concat pre)). solve_Permutation.
    + intros r Hr. apply Hk. rewrite Ef, !elem_of_app. auto.
    + done.
    + exists t'. rewrite concat_app, rev_app_distr. cbn [concat]. rewrite app_nil_r, <- app_assoc. split_and!; [done..|].
      intros r Hr. by apply Hk', Hk.
  - exists m2. by rewrite Egs in Hm2.
Qed.
End inv.
