(* ===== verification/BatchRefs.v ===== *)
(** * BatchRefs: the whole sweep, under any schedule

    The refs of a batch name each probed slot of each query once; the unique leaves cut
    them into one segment per leaf; and however the chunks are claimed, the workers'
    refs together are all of them. *)
From stdpp Require Import sorting.
From S2P Require Import Prelude Doubles Schema FilterHash FilterColumns FilterScan PageFile TreeNodes TopW LeafScan CutTopk SweepPool BatchSweep BatchSweepInv.

(** ** Nested loops *)

Lemma fold_res_app {A S} (f : A → S → res S) l1 l2 s : fold_res f (l1 ++ l2) s = (s' ← fold_res f l1 s; fold_res f l2 s').
Proof. revert s. induction l1 as [|x l1 IH]; intros s; [done|]. cbn [app fold_res]. destruct (f x s); [apply IH|done]. Qed.

Lemma fold_res_concat {A B S} (f : B → S → res S) (g : A → list B) l s :
  fold_res (λ x s, fold_res f (g x) s) l s = fold_res f (concat (g <$> l)) s.
Proof.
  revert s. induction l as [|x l IH]; intros s; [done|]. cbn [fold_res fmap list_fmap concat]. rewrite fold_res_app.
  destruct (fold_res f (g x) s); [apply IH|done].
Qed.

Lemma mapM_res {A B} (f : A → res B) (Q : A → B → Prop) l :
  (∀ x, x ∈ l → ∃ y, f x = Ok y ∧ Q x y) → ∃ ys, mapM f l = Ok ys ∧ Forall2 Q l ys.
Proof.
  induction l as [|x l IH]; intros Hl; [by exists []|]. destruct (Hl x) as (y & E & Hy); [by left|].
  destruct IH as (ys & E' & Hys); [intros z Hz; apply Hl; by right|]. exists (y :: ys). cbn [mapM]. rewrite E, bind_Ok, E'. split; [done|by constructor].
Qed.

Lemma concat_perm {A} (l l' : list (list A)) : l ≡ₚ l' → concat l ≡ₚ concat l'.
Proof.
  induction 1 as [|x l l' _ IH|x y l|l l' l'' _ IH1 _ IH2]; cbn [concat]; [done|by f_equiv| |by rewrite IH1].
  rewrite !app_assoc. f_equiv. apply Permutation_app_comm.
Qed.

(** The chunks cut the leaves. *)
Lemma chunks_cover n : concat (chunk_leaves n <$> chunk_starts n) = seq 0 n.
Proof.
  assert (∀ k, concat (chunk_leaves n <$> ((λ c, c * kChunk)%nat <$> seq 0 k)) = seq 0 (Nat.min (k * kChunk) n)) as Hk.
  { induction k as [|k IH]; [done|]. rewrite seq_S, !fmap_app, concat_app, IH. cbn [fmap list_fmap concat plus]. rewrite app_nil_r.
    unfold chunk_leaves, kChunk in *. destruct (decide (k * 32 ≤ n)%nat).
    - replace (Nat.min (k * 32) n) with (k * 32)%nat by lia.
      replace (Nat.min (S k * 32) n) with (k * 32 + (32 `min` (n - k * 32)))%nat by lia. by rewrite seq_app.
    - replace (n - k * 32)%nat with 0%nat by lia. rewrite Nat.min_0_r, app_nil_r. f_equal. lia. }
  unfold chunk_starts. rewrite Hk. f_equal. unfold kChunk. pose proof (Nat.div_mod_eq (n + 32 - 1) 32).
  pose proof (Nat.mod_upper_bound (n + 32 - 1) 32). lia.
Qed.

(** ** The refs *)

Section refs.
Context {Setup : Type}.
Implicit Types (q : QueryState Setup) (qs : list (QueryState Setup)).

(** A list built by index, and its part from index [n] on. *)
Lemma concat_imap_fmap {A B C} (f : nat → A → list B) (g : B → C) (h : nat → A → list C) l :
  (∀ i x, g <$> f i x = h i x) → g <$> concat (imap f l) = concat (imap h l).
Proof.
  revert f h. induction l as [|x l IH]; intros f h E; [done|]. rewrite !imap_cons. cbn [concat]. rewrite fmap_app, E. f_equal.
  apply (IH (f ∘ S) (h ∘ S)). intros i y. apply E.
Qed.

Lemma elem_of_concat_imap {A B} (f : nat → A → list B) l y :
  y ∈ concat (imap f l) ↔ ∃ i x, l !! i = Some x ∧ y ∈ f i x.
Proof.
  revert f. induction l as [|x l IH]; intros f.
  { split; [by intros []%not_elem_of_nil|by intros (i & x & E & _)]. }
  rewrite imap_cons. cbn [concat]. rewrite elem_of_app, IH. split.
  - intros [Hy|(i & z & Hz & Hy)]; [by exists O, x|by exists (S i), z].
  - intros ([|i] & z & Hz & Hy); cbn in Hz; [left; by simplify_eq|right; by exists i, z].
Qed.

Lemma nodup_concat_imap {A B} (f : nat → A → list B) l :
  (∀ i x, NoDup (f i x)) → (∀ i x j y z, i ≠ j → z ∈ f i x → z ∉ f j y) → NoDup (concat (imap f l)).
Proof.
  revert f. induction l as [|x l IH]; intros f Hn Hd; [constructor|]. rewrite imap_cons. cbn [concat].
  apply NoDup_app. split_and!; [done| |].
  - intros y Hy (i & z & _ & Hz)%elem_of_concat_imap. by apply (Hd 0%nat x (S i) z y).
  - apply (IH (f ∘ S)); [intros; apply Hn|]. intros i a j b c Hij. apply Hd. lia.
Qed.

Lemma query_refs_slots i q : pr_slot <$> query_refs i q = probed q.
Proof. apply concat_imap_fmap. intros s c. by destruct (_ =? _). Qed.

Lemma elem_of_query_refs i q r :
  r ∈ query_refs i q ↔ pr_qidx r = i ∧ 0 ≤ pr_slot r ∧ ∃ c, qs_candidates q !! Z.to_nat (pr_slot r) = Some c ∧
    lc_page c = pr_page r ∧ pr_page r ≠ kInvalidPage.
Proof.
  unfold query_refs. rewrite elem_of_concat_imap. split.
  - intros (s & c & Hc & Hr). destruct (Z.eqb_spec (lc_page c) kInvalidPage); [by apply not_elem_of_nil in Hr|].
    apply list_elem_of_singleton in Hr as ->. cbn [pr_qidx pr_slot pr_page]. split_and!; [done|lia|]. exists c. by rewrite Nat2Z.id.
  - intros (<- & Hs & c & Hc & Hp & Hi). exists (Z.to_nat (pr_slot r)), c. split; [done|].
    destruct (Z.eqb_spec (lc_page c) kInvalidPage); [congruence|]. apply list_elem_of_singleton. rewrite Z2Nat.id, Hp by done. by destruct r.
Qed.

Lemma probed_nodup q : NoDup (probed q).
Proof.
  apply nodup_concat_imap.
  - intros i c. destruct (_ =? _); [constructor|apply NoDup_singleton].
  - intros i c j c' z Hij Hz Hz'. destruct (_ =? _); [by apply not_elem_of_nil in Hz|].
    destruct (_ =? _); [by apply not_elem_of_nil in Hz'|]. apply list_elem_of_singleton in Hz, Hz'. lia.
Qed.

Lemma elem_of_probed q s :
  s ∈ probed q ↔ 0 ≤ s ∧ ∃ c, qs_candidates q !! Z.to_nat s = Some c ∧ lc_page c ≠ kInvalidPage.
Proof.
  rewrite <- (query_refs_slots 0), list_elem_of_fmap. split.
  - intros (r & -> & (_ & Hs & c & Hc & Hp & Hi)%elem_of_query_refs). split; [done|]. exists c. by rewrite Hp.
  - intros (Hs & c & Hc & Hi). exists (mkProbeRef (lc_page c) 0 s). split; [done|]. apply elem_of_query_refs.
    cbn [pr_qidx pr_slot pr_page]. split_and!; [done..|]. by exists c.
Qed.

Lemma elem_of_probe_refs qs r : r ∈ probe_refs qs ↔ ref_ok qs r.
Proof.
  unfold probe_refs. rewrite std_sort_perm, elem_of_concat_imap. unfold ref_ok. split.
  - intros (i & q & Hq & (Ei & Hs & c & Hc)%elem_of_query_refs). rewrite Ei, Nat2Z.id. split_and!; [lia|done|]. by exists q, c.
  - intros (Hi & Hs & q & c & Hq & Hc). exists (Z.to_nat (pr_qidx r)), q. split; [done|]. apply elem_of_query_refs.
    rewrite Z2Nat.id by done. split_and!; [done..|]. by exists c.
Qed.

Lemma query_keys i q : ref_key <$> query_refs i q = pair i <$> probed q.
Proof.
  rewrite <- (query_refs_slots i), <- list_fmap_compose. unfold query_refs.
  rewrite (concat_imap_fmap _ _ (λ s c, if lc_page c =? kInvalidPage then [] else [(i, Z.of_nat s)])) by (intros s c; by destruct (_ =? _)).
  symmetry. apply concat_imap_fmap. intros s c. by destruct (_ =? _).
Qed.

Lemma probe_refs_keys qs : NoDup (ref_key <$> probe_refs qs).
Proof.
  unfold probe_refs. rewrite std_sort_perm.
  rewrite (concat_imap_fmap _ _ (λ i q, pair (Z.of_nat i) <$> probed q)) by (intros; apply query_keys). apply nodup_concat_imap.
  - intros i q. apply NoDup_fmap_2; [|apply probed_nodup]. by intros x y [=].
  - intros i q j q' z Hij (s & -> & _)%list_elem_of_fmap (s' & [=E _] & _)%list_elem_of_fmap. lia.
Qed.

Lemma filter_concat {A} (P : A → Prop) `{!∀ x, Decision (P x)} (ls : list (list A)) :
  filter P (concat ls) = concat (filter P <$> ls).
Proof. induction ls as [|l ls IH]; [done|]. cbn [concat fmap list_fmap]. by rewrite filter_app, IH. Qed.

#[export] Instance slots_perm i : Proper ((≡ₚ) ==> (≡ₚ)) (slots i).
Proof. intros l l' E. unfold slots. by rewrite E. Qed.

(** The slots of a query's refs are the slots it probes. *)
Lemma probe_refs_slots qs i q : qs !! i = Some q → slots i (probe_refs qs) ≡ₚ probed q.
Proof.
  intros Hq. unfold probe_refs. rewrite std_sort_perm. apply NoDup_Permutation.
  - assert (NoDup (ref_key <$> filter (λ r, pr_qidx r = Z.of_nat i) (probe_refs qs))) as Hn.
    { pose proof (probe_refs_keys qs) as Hn. rewrite <- (filter_app_complement (λ r, pr_qidx r = Z.of_nat i) (probe_refs qs)), fmap_app in Hn.
      by apply NoDup_app in Hn as [Hn _]. }
    unfold slots. unfold probe_refs in Hn. rewrite std_sort_perm in Hn. clear -Hn.
    induction (concat _) as [|r l IH]; [constructor|]. rewrite filter_cons in Hn |- *. case_decide as E; [|by apply IH].
    cbn [fmap list_fmap] in *. apply NoDup_cons in Hn as [Hr Hn]. apply NoDup_cons. split; [|by apply IH].
    intros (r' & Es & Hr')%list_elem_of_fmap. apply Hr, list_elem_of_fmap. exists r'. split; [|done].
    apply list_elem_of_filter in Hr' as [Er' _]. unfold ref_key. by rewrite E, Er', Es.
  - apply probed_nodup.
  - intros s. unfold slots. rewrite list_elem_of_fmap, elem_of_probed. split.
    + intros (r & -> & Hr). apply list_elem_of_filter in Hr as [Er Hr].
      assert (ref_ok qs r) as (_ & Hs & q' & c & Hq' & Hc & Hp & Hi) by (apply elem_of_probe_refs; unfold probe_refs; by rewrite std_sort_perm).
      rewrite Er, Nat2Z.id in Hq'. assert (q' = q) as -> by congruence. split; [done|]. exists c. by rewrite Hp.
    + intros (Hs & c & Hc & Hi). exists (mkProbeRef (lc_page c) (Z.of_nat i) s). split; [done|]. apply list_elem_of_filter. split; [done|].
      assert (mkProbeRef (lc_page c) (Z.of_nat i) s ∈ probe_refs qs) as Hr.
      { apply elem_of_probe_refs. split_and!; [cbn; lia|done|]. exists q, c. cbn [pr_qidx pr_slot pr_page]. by rewrite Nat2Z.id. }
      unfold probe_refs in Hr. by rewrite std_sort_perm in Hr.
Qed.
End refs.

(** ** The segments of the unique leaves *)

Section leaves.
Context {Setup : Type} {HLC : LeafCoder Setup} {HLS : LeafCoderScan Setup} {HRH : RapidHash} {HLM : LibM}.
Context (schema : Schema) (config : SweepConfig Setup) (supports_batch_scan : bool).
Context (leaves : Z → Z → option (list Z)) (qs : list (QueryState Setup)).
Context (Hok : batch_ok schema config leaves qs).

(** Each unique leaf with the refs of its page, from position [i] on. *)
Fixpoint segments (i : Z) (uls : list UniqueLeaf) (segs : list (list ProbeRef)) : Prop :=
  match uls, segs with
  | [], [] => True
  | ul :: uls', g :: segs' =>
      ul_ref_begin ul = i ∧ (∀ r, r ∈ g → pr_page r = ul_page ul) ∧
      (∃ r c, r ∈ g ∧ ref_candidate qs r = Ok c ∧ ul_pages ul = lc_pages c) ∧
      segments (i + Z.of_nat (length g)) uls' segs'
  | _, _ => False
  end.

Lemma ref_candidate_ok r : ref_ok qs r → ∃ q c, qs !! Z.to_nat (pr_qidx r) = Some q ∧ c ∈ qs_candidates q ∧ lc_page c = pr_page r ∧ ref_candidate qs r = Ok c.
Proof.
  intros Hr. pose proof Hr as (Hi & Hs & q & c & Hq & Hc & Hp & _). exists q, c. split_and!; [done|by eapply list_elem_of_lookup_2|done|].
  unfold ref_candidate. rewrite (vec_query qs r q Hr Hq), bind_Ok. unfold vec_get. destruct (Z.ltb_spec (pr_slot r) 0); [lia|]. by rewrite Hc.
Qed.

Lemma unique_leaves_segments refs last i :
  Forall (ref_ok qs) refs →
  ∃ uls g segs, unique_leaves_from qs last i refs = Ok uls ∧ refs = g ++ concat segs ∧
    (∀ r, r ∈ g → last = Some (pr_page r)) ∧ segments (i + Z.of_nat (length g)) uls segs.
Proof.
  revert last i. induction refs as [|r refs IH]; intros last i Hr; cbn [unique_leaves_from].
  { exists [], [], []. split_and!; [done..|by intros ? []%not_elem_of_nil|done]. }
  apply Forall_cons in Hr as [Hr Hrs]. destruct (bool_decide_reflect (last = Some (pr_page r))) as [El|_].
  - destruct (IH last (i + 1) Hrs) as (uls & g & segs & E & Er & Hg & Hsegs). exists uls, (r :: g), segs.
    split_and!; [done|by rewrite Er| |].
    + intros r' [->|Hr']%elem_of_cons; [done|by apply Hg].
    + cbn [length]. by replace (i + Z.of_nat (S (length g))) with (i + 1 + Z.of_nat (length g)) by lia.
  - destruct (ref_candidate_ok r Hr) as (q & c & _ & _ & _ & Ec). rewrite Ec, bind_Ok.
    destruct (IH (Some (pr_page r)) (i + 1) Hrs) as (uls & g & segs & E & Er & Hg & Hsegs). rewrite E, bind_Ok.
    eexists _, [], ((r :: g) :: segs). split_and!; [done|by rewrite Er|by intros ? []%not_elem_of_nil|]. cbn [segments ul_ref_begin ul_page ul_pages length].
    split_and!; [lia| |by exists r, c; split_and!; [left|..]|].
    + intros r' [->|Hr']%elem_of_cons; [done|]. specialize (Hg r' Hr'). congruence.
    + by replace (i + Z.of_nat 0 + Z.of_nat (S (length g))) with (i + 1 + Z.of_nat (length g)) by lia.
Qed.

Lemma unique_leaves_ok : ∃ uls segs, unique_leaves qs = Ok uls ∧ probe_refs qs = concat segs ∧ segments 0 uls segs.
Proof.
  destruct (unique_leaves_segments (probe_refs qs) None 0) as (uls & g & segs & E & Er & Hg & Hsegs).
  { apply Forall_forall. intros r. apply elem_of_probe_refs. }
  destruct g as [|r g]; [|by discriminate (Hg r (list_elem_of_here _ _))]. exists uls, segs. done.
Qed.

Lemma segments_length i uls segs : segments i uls segs → length segs = length uls.
Proof.
  revert i segs. induction uls as [|ul uls IH]; intros i [|g segs]; try done. intros (_ & _ & _ & Hs). cbn [length]. f_equal. by eapply IH.
Qed.

(** The slice of the refs that the sweep computes for a leaf is its segment. *)
Lemma leaf_refs_segment pfx uls segs li g :
  segments (Z.of_nat (length pfx)) uls segs → segs !! li = Some g →
  leaf_refs (pfx ++ concat segs) uls li = Ok g ∧ ∃ ul, vec_get uls (Z.of_nat li) = Ok ul ∧
    (∀ r, r ∈ g → pr_page r = ul_page ul) ∧ ∃ r c, r ∈ g ∧ ref_candidate qs r = Ok c ∧ ul_pages ul = lc_pages c.
Proof.
  revert pfx uls segs. induction li as [|li IH]; intros pfx [|ul uls] [|g0 segs]; try done; intros (Hb & Hp & Hc & Hs) Hg.
  - injection Hg as <-. assert (vec_get (ul :: uls) (Z.of_nat 0) = Ok ul) as Ev by done. split; [|by exists ul].
    unfold leaf_refs. rewrite Ev, bind_Ok. unfold mret, res_ret. f_equal. rewrite Hb, Nat2Z.id, drop_app_length.
    assert (match uls !! 0%nat with Some nl => ul_ref_begin nl | None => Z.of_nat (length (pfx ++ concat (g0 :: segs))) end =
      Z.of_nat (length pfx) + Z.of_nat (length g0)) as Ee.
    { destruct uls as [|nl uls], segs as [|g1 segs]; try done.
      - cbn [lookup list_lookup concat]. rewrite app_nil_r, length_app. lia.
      - by destruct Hs as (Hb1 & _). }
    change ((ul :: uls) !! 1%nat) with (uls !! 0%nat). rewrite Ee. replace (Z.to_nat _) with (length g0) by lia. cbn [concat]. by rewrite take_app_length.
  - cbn [lookup list_lookup] in Hg. destruct (IH (pfx ++ g0) uls segs) as (E & ul' & Eul & H'); [by rewrite length_app, Nat2Z.inj_add|done|].
    assert (vec_get (ul :: uls) (Z.of_nat (S li)) = vec_get uls (Z.of_nat li)) as Ev.
    { unfold vec_get. destruct (Z.ltb_spec (Z.of_nat (S li)) 0), (Z.ltb_spec (Z.of_nat li) 0); try lia. by rewrite !Nat2Z.id. }
    split; [|exists ul'; by rewrite Ev]. rewrite <- E. unfold leaf_refs. rewrite Ev. cbn [concat]. by rewrite <- app_assoc.
Qed.

(** ** A leaf, a worker, all workers *)

Section segs.
Context (uls : list UniqueLeaf) (segs : list (list ProbeRef)).
Context (Hrefs : probe_refs qs = concat segs) (Hsegs : segments 0 uls segs).

Definition seg (li : nat) : list ProbeRef := default [] (segs !! li).

Lemma sweep_leaf_ok li done m :
  (li < length uls)%nat → NoDup (ref_key <$> seg li ++ done) → worker_inv schema config leaves qs done [] m →
  ∃ m', sweep_leaf schema config supports_batch_scan leaves qs (probe_refs qs) uls li m = Ok m' ∧
    worker_inv schema config leaves qs (rev (seg li) ++ done) [] m'.
Proof.
  intros Hli Hn Hm. unfold seg in *. destruct (lookup_lt_is_Some_2 segs li) as [g Hg]; [by rewrite (segments_length _ _ _ Hsegs)|].
  rewrite Hg in *. cbn [default] in *. destruct (leaf_refs_segment [] uls segs li g Hsegs Hg) as (El & ul & Eul & Hp & r0 & c0 & Hr0 & Ec0 & Epg).
  unfold sweep_leaf. rewrite Eul, bind_Ok. cbn [app] in El.
  assert (∀ r, r ∈ g → ref_ok qs r) as Hro.
  { intros r Hr. apply elem_of_probe_refs. rewrite Hrefs. apply list_elem_of_In, in_concat. exists g.
    split; apply list_elem_of_In; [by eapply list_elem_of_lookup_2|done]. }
  destruct (ref_candidate_ok r0 (Hro r0 Hr0)) as (q0 & c & Hq0 & Hc & Hcp & Ec). assert (c = c0) as -> by congruence.
  assert (∃ leaf, leaves (ul_page ul) (ul_pages ul) = Some leaf ∧ (batch_has_predicates qs = true → ∃ cols, leaf_columns schema leaf = Ok cols) ∧
    ∀ r, r ∈ g → ∃ q, qs !! Z.to_nat (pr_qidx r) = Some q ∧ slot_leaf leaves q (pr_slot r) = Some leaf) as (leaf & Eleaf & Hcols & Hall).
  { destruct (ref_leaf schema config leaves qs Hok r0 q0 (Hro r0 Hr0) Hq0) as (leaf & _ & _ & Hcols & _ & _ & _ & Hsame).
    exists leaf. rewrite <- (Hp r0 Hr0), Epg. split_and!; [by eapply Hsame|done|]. intros r Hr.
    pose proof (Hro r Hr) as (_ & _ & q & _ & Hq & _). exists q. split; [done|].
    destruct (ref_leaf schema config leaves qs Hok r q (Hro r Hr) Hq) as (leaf' & El' & _ & _ & _ & _ & _ & Hsame').
    rewrite El'. f_equal. specialize (Hsame' _ q0 c0 Hq0 Hc). specialize (Hsame _ q0 c0 Hq0 Hc).
    rewrite Hp in Hsame' by done. rewrite Hp in Hsame, Hcp by done. rewrite Hsame' in Hsame by done. by injection (Hsame Hcp) as ->. }
  rewrite Eleaf, Hrefs, El.
  assert (∃ cols, (if batch_has_predicates qs then leaf_columns schema leaf else mret ([], [])) = Ok cols ∧
    ∀ q i, qs !! i = Some q → columns_for schema q leaf cols) as (cols & -> & Hfor).
  { destruct (batch_has_predicates qs) eqn:Ebp; [destruct Hcols as [cols Hcols]; [done|]; exists cols; split; [done|]; by intros q i _ _|].
    eexists. split; [done|]. intros q i Hq Hpred. exfalso. apply not_true_iff_false in Ebp. apply Ebp.
    unfold batch_has_predicates. apply existsb_exists. exists q. split; [by eapply list_elem_of_In, list_elem_of_lookup_2|].
    by destruct (qs_predicates q). }
  rewrite !bind_Ok. apply sweep_refs_ok; [done| |done|done]. apply Forall_forall. intros r Hr. split; [by apply Hro|].
  destruct (Hall r Hr) as (q & Hq & Hl). exists q. split_and!; [done..|by eapply Hfor].
Qed.

(** The leaves a worker sweeps, and their refs. *)
Definition worker_leaves (claims : list nat) : list nat := concat (chunk_leaves (length uls) <$> claims).
Definition worker_refs (claims : list nat) : list ProbeRef := rev (concat (seg <$> worker_leaves claims)).

Lemma sweep_worker_ok claims :
  (∀ li, li ∈ worker_leaves claims → (li < length uls)%nat) → NoDup (ref_key <$> worker_refs claims) →
  ∃ m, sweep_worker schema config supports_batch_scan leaves qs (probe_refs qs) uls claims = Ok m ∧
    worker_inv schema config leaves qs (worker_refs claims) [] m.
Proof.
  intros Hlt Hn. unfold sweep_worker. rewrite fold_res_concat. fold (worker_leaves claims).
  apply (fold_res_ok (λ pre m, worker_inv schema config leaves qs (rev (concat (seg <$> pre))) [] m)); [apply worker_init|].
  intros pre li post m E Hm. destruct (sweep_leaf_ok li (rev (concat (seg <$> pre))) m) as (m' & E' & Hm').
  - apply Hlt. rewrite E. apply elem_of_app. right. by left.
  - refine (keys_sub _ _ (concat (seg <$> post)) _ Hn). unfold worker_refs. rewrite E, <- !Permutation_rev, fmap_app, concat_app.
    cbn [fmap list_fmap concat]. solve_Permutation.
  - done.
  - exists m'. split; [done|]. by rewrite fmap_app, concat_app, rev_app_distr; cbn [fmap list_fmap concat]; rewrite app_nil_r.
Qed.

Lemma schedule_refs schedule : concat (worker_refs <$> schedule) ≡ₚ concat (seg <$> worker_leaves (concat schedule)).
Proof.
  unfold worker_leaves. induction schedule as [|claims schedule IH]; [done|]. cbn [fmap list_fmap concat].
  rewrite !fmap_app, concat_app, fmap_app, concat_app, IH. f_equiv. unfold worker_refs. by rewrite <- Permutation_rev.
Qed.

Lemma all_segments : concat (seg <$> seq 0 (length uls)) = probe_refs qs.
Proof.
  rewrite Hrefs, <- (segments_length _ _ _ Hsegs). f_equal. apply list_eq. intros i. rewrite list_lookup_fmap. unfold seg.
  destruct (decide (i < length segs)%nat) as [Hi|Hi].
  - rewrite lookup_seq_lt by done. destruct (lookup_lt_is_Some_2 segs i Hi) as [g Hg]. cbn. by rewrite Hg.
  - rewrite lookup_seq_ge by lia. symmetry. apply lookup_ge_None_2. lia.
Qed.

(** However the chunks are claimed, the sweep ends, and the workers have met every ref. *)
Lemma schedule_sweeps schedule :
  schedule_ok (length uls) schedule →
  ∃ ms, mapM (sweep_worker schema config supports_batch_scan leaves qs (probe_refs qs) uls) schedule = Ok ms ∧
    Forall2 (λ claims m, worker_inv schema config leaves qs (worker_refs claims) [] m) schedule ms ∧
    concat (worker_refs <$> schedule) ≡ₚ probe_refs qs.
Proof.
  intros Hs. assert (concat (worker_refs <$> schedule) ≡ₚ probe_refs qs) as Ep.
  { rewrite schedule_refs, <- all_segments. apply concat_perm, fmap_Permutation. unfold worker_leaves.
    rewrite <- (chunks_cover (length uls)). apply concat_perm, fmap_Permutation, Hs. }
  assert (worker_leaves (concat schedule) ≡ₚ seq 0 (length uls)) as El.
  { unfold worker_leaves. rewrite <- (chunks_cover (length uls)). apply concat_perm, fmap_Permutation, Hs. }
  destruct (mapM_res (sweep_worker schema config supports_batch_scan leaves qs (probe_refs qs) uls)
    (λ claims m, worker_inv schema config leaves qs (worker_refs claims) [] m) schedule) as (ms & E & Hms); [|by exists ms].
  intros claims Hc. apply list_elem_of_split in Hc as (s1 & s2 & ->). apply sweep_worker_ok.
  - intros li Hli. assert (li ∈ seq 0 (length uls)) as Hin; [|apply elem_of_seq in Hin; lia].
    rewrite <- El. unfold worker_leaves in *. rewrite concat_app, fmap_app, concat_app. cbn [concat]. rewrite fmap_app, concat_app, !elem_of_app. auto.
  - pose proof (probe_refs_keys qs) as Hn. rewrite <- Ep, fmap_app, concat_app in Hn. cbn [fmap list_fmap concat] in Hn.
    refine (keys_sub _ _ (concat (worker_refs <$> s1) ++ concat (worker_refs <$> s2)) _ Hn). solve_Permutation.
Qed.
End segs.
End leaves.
