(* ===== verification/BatchSearch.v ===== *)
(** * BatchSearch: the batch sweep answers as the single search does
    ([IVFTreeIndex::search], [IVFTreeIndex::finalize_query_],
    [IVFTreeIndex::search_brute_force_filtered], [IVFTreeIndex::search_batch])

    The query-major search scans a query's leaves in the order of a probe list, on one
    thread or in shards, and then reads what the answer needs from the leaves; a query
    routing gives up on is answered by a pass over all rows of all leaves. *)
From stdpp Require Import sorting.
From S2P Require Import Prelude Doubles Schema FilterHash FilterColumns FilterScan FilterSummary PageFile TreeNodes TopW LeafScan CutTopk SweepPool BatchSweep BatchSweepInv BatchRefs.

(** ** The search of one query *)

Record HeapEntryFull := mkHeapEntryFull { hf_entry : HeapEntry; hf_row_id : Z; hf_page : Z; hf_leaf : list Z }.

Section search.
Context {Setup : Type} `{LeafCoder Setup} `{RapidHash} `{LibM}.
Context (schema : Schema) (config : SweepConfig Setup) (leaves : Z → Z → option (list Z)).
Implicit Types (q : QueryState Setup).

(** A leaf the search looks at through its mapping: a read that fails is a fault. *)
Definition candidate_leaf (c : LeafCandidate) : res (list Z) :=
  match leaves (lc_page c) (lc_pages c) with Some leaf => Ok leaf | None => Err UndefinedBehaviour end.

Definition scan_slot q (slot : Z) (heap : list HeapEntry) : res (list HeapEntry) :=
  c ← vec_get (qs_candidates q) slot;
  if lc_page c =? kInvalidPage then mret heap
  else
    leaf ← candidate_leaf c;
    s ← coder_scan (qs_setup q) leaf (mkRawScanHeap heap (qs_W q) slot);
    mret (rsh_h s).

Definition scan_shard q (shard : list Z) : res (list HeapEntry) := fold_res (scan_slot q) shard (heap_init (qs_W q)).

(** [search_threads] workers take ranges of the probe order. *)
Definition shards_of (threads : Z) (ord : list Z) : list (list Z) :=
  let n := Z.of_nat (length ord) in
  let T := Z.min threads n in
  let per := (n + T - 1) / T in
  (λ t, take (Z.to_nat (Z.min (t * per + per) n - t * per)) (drop (Z.to_nat (t * per)) ord)) <$>
    filter (λ t, t * per < Z.min (t * per + per) n) (seqZ 0 T).

Definition search_scan (threads : Z) (ord : list Z) q : res (list HeapEntry) :=
  heap ← (if (1 <? threads) && (2 <=? Z.of_nat (length (qs_candidates q)))
          then hs ← mapM (scan_shard q) (shards_of threads ord); mret (merge_heaps (qs_W q) hs)
          else scan_shard q ord);
  mret (strip_sentinels heap).

(** *** [finalize_query_] *)

Definition materialize q (e : HeapEntry) : res HeapEntryFull :=
  c ← vec_get (qs_candidates q) (leaf_slot e);
  leaf ← candidate_leaf c;
  row ← leaf_row_id leaf (local_idx e);
  mret (mkHeapEntryFull e row (lc_page c) leaf).

(** The survivors, leaf by leaf: the columns are parsed again when the leaf changes. *)
Fixpoint filter_survivors q (cur : option (Z * (list Z * list ColumnView))) (es : list HeapEntryFull) : res (list HeapEntryFull) :=
  match es with
  | [] => mret []
  | e :: es' =>
      cols ← (match cur with
              | Some (page, cols) => if page =? hf_page e then mret cols else leaf_columns schema (hf_leaf e)
              | None => leaf_columns schema (hf_leaf e)
              end);
      b ← row_passes q cols (local_idx (hf_entry e));
      rest ← filter_survivors q (Some (hf_page e, cols)) es';
      mret (if (b : bool) then e :: rest else rest)
  end.

Definition score q (e : HeapEntryFull) : res Candidate :=
  d ← (if rerank (sc_cut config) then
         match sc_exact config with
         | Some exact => mret (exact (qs_setup q) (hf_row_id e))
         | None => coder_rerank (qs_setup q) (hf_leaf e) (local_idx (hf_entry e))
         end
       else mret (float_of_u32 (pq_dist (hf_entry e))));
  mret (mkCandidate (hf_row_id e) d).

Definition finalize_query (k : Z) q (heap : list HeapEntry) : res (list Candidate) :=
  hf ← mapM (materialize q) heap;
  hf ← (match qs_predicates q, hf with
        | [], _ | _, [] => mret hf
        | _, _ => filter_survivors q None (std_sort (λ a b, hf_page a <? hf_page b) hf)
        end);
  results ← mapM (score q) (hf : list HeapEntryFull);
  cut_topk_results results k (sc_cut config).

Definition search_routed (k threads : Z) (ord : list Z) q : res (list Candidate) :=
  heap ← search_scan threads ord q; finalize_query k q heap.

(** *** [search_brute_force_filtered] *)

(** The leaves the walk of the tree from the root collects, and the coder's rerank
    without a query's tables. *)
Context (summary_size : Z) (all_leaves : list LeafCandidate) (decode_rerank : Setup → list Z → Z → res float).

Definition brute_row q (leaf : list Z) (cols : list Z * list ColumnView) (i : Z) : res (option Candidate) :=
  b ← row_passes q cols i;
  if (b : bool) then
    row ← leaf_row_id leaf i;
    d ← (match sc_exact config with
         | Some exact => mret (exact (qs_setup q) row)
         | None => decode_rerank (qs_setup q) leaf i
         end);
    mret (Some (mkCandidate row d))
  else mret None.

Definition brute_leaf q (c : LeafCandidate) : res (list Candidate) :=
  leaf ← candidate_leaf c;
  lh ← leaf_header leaf;
  if lh_count lh =? 0 then mret []
  else
    keep ← summary_may_match (drop (Z.to_nat leaf_filter_offset) leaf) summary_size schema
      (qs_predicates q) (qs_pred_cols q) (qs_geo_cols q);
    if negb keep then mret []
    else
      cols ← leaf_columns schema leaf;
      rows ← mapM (brute_row q leaf cols) (seqZ 0 (lh_count lh));
      mret (omap id rows).

(** [std::nth_element] and [std::sort] compare distances only; which of several rows at
    the [k]-th distance stays is the library's choice, here the first met. *)
Definition search_brute_force_filtered (k : Z) q : res (list Candidate) :=
  rows ← mapM (brute_leaf q) all_leaves;
  mret (take (Z.to_nat k) (std_sort (λ a b, SFltb (dist a) (dist b)) (concat rows))).

(** [search] of a routed query. *)
Definition search (k threads : Z) (ord : list Z) q : res (list Candidate) :=
  if qs_fallback q then search_brute_force_filtered k q else search_routed k threads ord q.
End search.

(** *** [search_batch] *)

(** [qs] are the queries routed under their own settings, [base] the same queries routed
    under the base configuration: what [search(s.query, k, config)] does for a query
    whose own routing gave up.  That search runs on [search_threads] workers, in [order]. *)
Section batch.
Context {Setup : Type} `{LeafCoder Setup} `{RapidHash} `{LibM}.
Context (schema : Schema) (config : SweepConfig Setup) (supports_batch_scan : bool) (leaves : Z → Z → option (list Z)).
Context (summary_size : Z) (all_leaves : list LeafCandidate) (decode_rerank : Setup → list Z → Z → res float).
Context (search_threads : Z) (order : QueryState Setup → list Z) (qs base : list (QueryState Setup)).

Definition query_answer (k : Z) (partials : list (gmap Z Partial)) (i : Z) : res (list Candidate) :=
  q ← vec_get qs i;
  if qs_fallback q then
    b ← vec_get base i; search schema config leaves summary_size all_leaves decode_rerank k search_threads (order b) b
  else swept_answer config k partials i q.

Definition search_batch (k : Z) (schedule : list (list nat)) : res (list (list Candidate)) :=
  let refs := probe_refs qs in
  uls ← unique_leaves qs;
  partials ← mapM (sweep_worker schema config supports_batch_scan leaves qs refs uls) schedule;
  mapM (query_answer k partials) (seqZ 0 (Z.of_nat (length qs))).
End batch.

(** ** Looking up a slot in a sorted pool *)

#[export] Instance slot_less_swo {A} (key : A → Z * Z) : StrictWeakOrder (λ x y, slot_less (key x) (key y)).
Proof.
  split.
  - intros x. unfold slot_less. by rewrite Z.eqb_refl, !Z.ltb_irrefl.
  - intros x y z. unfold slot_less. repeat match goal with |- context [?a =? ?b] => destruct (Z.eqb_spec a b) end; cbn [negb]; rewrite ?Z.ltb_lt; lia.
  - intros x y z. unfold slot_less. repeat match goal with |- context [?a =? ?b] => destruct (Z.eqb_spec a b) end; cbn [negb]; rewrite ?Z.ltb_lt; lia.
Qed.

Lemma slot_less_antisym a b : slot_less a b = false → slot_less b a = false → a = b.
Proof.
  destruct a as [a1 a2], b as [b1 b2]. unfold slot_less. cbn [fst snd].
  repeat match goal with |- context [?a =? ?b] => destruct (Z.eqb_spec a b) end; cbn [negb]; rewrite ?Z.ltb_ge; intros; f_equal; lia.
Qed.

Lemma lower_bound_finds pool p :
  StronglySorted (le (λ a b, slot_less (pool_slot a) (pool_slot b))) pool → p ∈ pool →
  (∀ p', p' ∈ pool → pool_slot p' = pool_slot p → p' = p) → lower_bound pool (pool_slot p) = Some p.
Proof.
  induction 1 as [|x pool Hs IH Hx]; intros Hp Huniq; [by apply not_elem_of_nil in Hp|]. cbn [lower_bound].
  destruct (slot_less (pool_slot x) (pool_slot p)) eqn:E.
  - apply elem_of_cons in Hp as [->|Hp]; [unfold slot_less in E; rewrite Z.eqb_refl, !Z.ltb_irrefl in E; done|].
    apply IH; [done|]. intros p' Hp'. apply Huniq. by right.
  - f_equal. apply Huniq; [by left|]. apply elem_of_cons in Hp as [->|Hp]; [done|]. rewrite Forall_forall in Hx. specialize (Hx p Hp).
    apply slot_less_antisym; [done|]. exact Hx.
Qed.

(** ** What an entry answers *)

Section answers.
Context {Setup : Type} {HLC : LeafCoder Setup} {HLS : LeafCoderScan Setup} {HRH : RapidHash} {HLM : LibM}.
Context (schema : Schema) (config : SweepConfig Setup) (supports_batch_scan : bool).
Context (leaves : Z → Z → option (list Z)) (qs : list (QueryState Setup)).
Context (Hok : batch_ok schema config leaves qs).

(** The candidate an entry becomes, if it passes the predicates. *)
Definition entry_result (q : QueryState Setup) (e : HeapEntry) : option Candidate :=
  let p := harvested schema config leaves q e in
  if pe_pred_ok p then Some (mkCandidate (pe_row_id p) (pool_dist config q e p)) else None.

Section query.
Context (i : nat) (q : QueryState Setup) (Hq : qs !! i = Some q).
Abbreviation entries := (all_entries leaves q).

(** An entry is a lane of the leaf in its slot, with the verdicts the harvest gave it. *)
Lemma entry_leaf e :
  e ∈ entries →
  ∃ c leaf, 0 ≤ leaf_slot e ∧ qs_candidates q !! Z.to_nat (leaf_slot e) = Some c ∧ lc_page c ≠ kInvalidPage ∧
    leaves (lc_page c) (lc_pages c) = Some leaf ∧ leaf_ok (qs_setup q) leaf ∧
    e ∈ scan_entries (qs_setup q) leaf (leaf_slot e) ∧ real e ∧ 0 < qs_W q < 2 ^ 31 ∧
    harvest_of schema config q leaf e = Ok (harvested schema config leaves q e).
Proof.
  unfold all_entries. intros He. apply list_elem_of_In, in_concat in He as (es & Hes & He).
  apply list_elem_of_In, list_elem_of_fmap in Hes as (s & -> & (Hs & c & Hc & Hi)%elem_of_probed). apply list_elem_of_In in He.
  destruct (ref_leaf schema config leaves qs Hok (mkProbeRef (lc_page c) (Z.of_nat i) s) q) as (leaf & El & Hl & _ & Hh & HW & _ & _).
  { split_and!; [cbn; lia|done|]. exists q, c. cbn [pr_qidx pr_slot pr_page]. by rewrite Nat2Z.id. }
  { cbn [pr_qidx]. by rewrite Nat2Z.id. }
  cbn [pr_slot] in El. unfold entries_at in He. rewrite El in He. destruct (scan_entries_real (qs_setup q) leaf s e Hl He) as (Hr & Es & Hidx).
  exists c, leaf. rewrite Es. destruct (Hh e Hidx) as [p Hp]. split_and!; try done; try apply HW.
  - unfold slot_leaf in El. rewrite Hc in El. cbn [mbind option_bind] in El. destruct (Z.eqb_spec (lc_page c) kInvalidPage); [done|]. exact El.
  - rewrite Hp. unfold harvested. by rewrite Es, El, Hp.
Qed.

Lemma entry_slot_leaf e c leaf :
  qs_candidates q !! Z.to_nat (leaf_slot e) = Some c → lc_page c ≠ kInvalidPage → leaves (lc_page c) (lc_pages c) = Some leaf →
  slot_leaf leaves q (leaf_slot e) = Some leaf.
Proof. intros Hc Hi Hl. unfold slot_leaf. rewrite Hc. cbn [mbind option_bind]. by destruct (Z.eqb_spec (lc_page c) kInvalidPage). Qed.

(** Slot and lane name one entry. *)
Lemma entry_unique e e' : e ∈ entries → e' ∈ entries → heap_slot e = heap_slot e' → e = e'.
Proof.
  intros He He' [= Es Ei].
  destruct (entry_leaf e He) as (c & leaf & _ & Hc & Hi & Hl & Hlo & Hin & _).
  destruct (entry_leaf e' He') as (c' & leaf' & _ & Hc' & Hi' & Hl' & _ & Hin' & _).
  rewrite <- Es in Hc', Hin'. assert (c' = c) as -> by congruence. assert (leaf' = leaf) as -> by congruence.
  pose proof (scan_entries_nodup (qs_setup q) leaf (leaf_slot e) Hlo) as Hn. revert Hn Hin Hin'. clear -Ei.
  induction (scan_entries _ _ _) as [|x es IH]; [by intros _ []%not_elem_of_nil|]. cbn [fmap list_fmap]. intros [Hx Hn]%NoDup_cons.
  assert (∀ y, y ∈ es → local_idx y ≠ local_idx x) as Hne.
  { intros y Hy E. apply Hx. rewrite <- E. by apply list_elem_of_fmap_2. }
  intros [->|Hin]%elem_of_cons [->|Hin']%elem_of_cons; [done|by destruct (Hne e' Hin')|by destruct (Hne e Hin)|by apply IH].
Qed.

(** ** The pool has every entry the heap has *)

Lemma pool_result_entry pool e :
  (∀ p, p ∈ pool → ∃ e', e' ∈ entries ∧ p = harvested schema config leaves q e') →
  e ∈ entries → harvested schema config leaves q e ∈ pool →
  pool_result config q (std_sort (λ a b, slot_less (pool_slot a) (pool_slot b)) pool) e = entry_result q e.
Proof.
  intros Hall He Hin. assert (∀ e, pool_slot (harvested schema config leaves q e) = heap_slot e) as Hslot.
  { intros x. pose proof (harvested_key schema config leaves q x) as E. unfold pool_slot, heap_slot. rewrite <- E at 3 4. done. }
  unfold pool_result. rewrite <- Hslot, (lower_bound_finds _ (harvested schema config leaves q e)).
  - cbn [mbind option_bind]. rewrite bool_decide_true by done. reflexivity.
  - apply (std_sort_sorted (λ a b, slot_less (pool_slot a) (pool_slot b))).
  - by rewrite (std_sort_perm (λ a b, slot_less (pool_slot a) (pool_slot b))).
  - intros p Hp. rewrite (std_sort_perm (λ a b, slot_less (pool_slot a) (pool_slot b))) in Hp. destruct (Hall p Hp) as (e' & He' & ->).
    rewrite !Hslot. intros E. by rewrite (entry_unique e' e He' He E).
Qed.
End query.

(** ** What the sweep leaves of a query *)

Section merged.
Context (i : nat) (q : QueryState Setup) (Hq : qs !! i = Some q).
Context (HW : 0 < qs_W q < 2 ^ 31).

Lemma partial_bounds D p :
  partial_ok schema config leaves q D [] p →
  topw heap_entry_less (Z.to_nat (qs_W q)) (concat (entries_at leaves q <$> D)) (strip_sentinels (p_heap p)) ∧
  (∀ e, e ∈ strip_sentinels (p_heap p) → harvested schema config leaves q e ∈ p_pool p) ∧
  (∀ pe, pe ∈ p_pool p → pool_entry_is_sentinel pe = false →
    ∃ e, e ∈ concat (entries_at leaves q <$> D) ∧ pe = harvested schema config leaves q e).
Proof.
  intros (P & Hd & Hinv & Hreal & Hlane). split_and!.
  - rewrite <- Hreal. apply strip_topw; [|apply (pi_heap _ _ _ _ _ _ _ _ Hinv)]. eapply Forall_impl; [exact Hlane|]. by intros e [].
  - intros e [Hr He]%list_elem_of_filter. refine (partial_contained _ _ _ (harvested_key schema config leaves q) _ _ _ _ _ _ Hinv He _); [lia|]. intros ->. discriminate Hr.
  - intros pe Hpe Hs. destruct (pi_pool _ _ _ _ _ _ _ _ Hinv) as [_ Ht]. destruct (pi_sub _ _ _ _ _ _ _ _ Hinv) as (r & Hsub).
    apply (topw_elem _ _ _ _ _ Ht), elem_of_app in Hpe as [[-> _]%elem_of_replicate|Hpe]; [discriminate Hs|].
    apply list_elem_of_fmap in Hpe as (e & -> & He). exists e. split; [|done]. rewrite <- Hreal. apply list_elem_of_filter. split.
    + unfold real, heap_entry_is_sentinel. unfold pool_entry_is_sentinel in Hs. pose proof (harvested_key schema config leaves q e) as Ek.
      by rewrite <- Ek.
    + rewrite Hsub. apply elem_of_app. by left.
Qed.

Lemma query_partials_ok schedule ms uls segs :
  Forall2 (λ claims m, worker_inv schema config leaves qs (worker_refs uls segs claims) [] m) schedule ms →
  ∃ Ds, Forall2 (λ D p, partial_ok schema config leaves q D [] p) Ds (query_partials ms (Z.of_nat i)) ∧
    concat Ds = slots i (concat (worker_refs uls segs <$> schedule)).
Proof.
  induction 1 as [|claims m schedule ms Hm _ (Ds & HDs & E)]; [by exists []|]. specialize (Hm i q Hq).
  unfold query_partials in *. cbn [omap list_omap fmap list_fmap concat]. unfold slots in *. rewrite filter_app, fmap_app.
  destruct (m !! Z.of_nat i) as [p|].
  - exists (slots i (worker_refs uls segs claims) :: Ds). split; [by constructor|]. cbn [concat]. by rewrite E.
  - exists Ds. split; [done|]. by rewrite Hm, E.
Qed.

Lemma merge_partials Ds ps :
  Forall2 (λ D p, partial_ok schema config leaves q D [] p) Ds ps →
  topw heap_entry_less (Z.to_nat (qs_W q)) (concat (entries_at leaves q <$> concat Ds)) (merge_heap (qs_W q) ps) ∧
  (∀ e, e ∈ merge_heap (qs_W q) ps → harvested schema config leaves q e ∈ merge_pool ps) ∧
  (∀ pe, pe ∈ merge_pool ps → ∃ e, e ∈ concat (entries_at leaves q <$> concat Ds) ∧ pe = harvested schema config leaves q e).
Proof.
  intros Hps.
  assert (strip_sentinels (concat (p_heap <$> ps)) = concat (strip_sentinels <$> (p_heap <$> ps))) as Estrip by apply filter_concat.
  assert (merge_heap (qs_W q) ps = merge_heaps (qs_W q) (strip_sentinels <$> (p_heap <$> ps))) as Em.
  { unfold merge_heap, merge_heaps. by rewrite Estrip. }
  assert (concat (entries_at leaves q <$> concat Ds) = concat ((λ D, concat (entries_at leaves q <$> D)) <$> Ds)) as Ec.
  { clear. induction Ds as [|D Ds IH]; [done|]. cbn [concat fmap list_fmap]. by rewrite fmap_app, concat_app, IH. }
  split_and!.
  - rewrite Em, Ec. eapply topw_shards; [apply _| |apply merge_heaps_topw; lia].
    clear Estrip Em Ec. induction Hps as [|D p Ds ps Hp _ IH]; [constructor|]. constructor; [|exact IH]. by apply partial_bounds.
  - intros e He. rewrite Em in He. apply (topw_elem heap_entry_less _ _ _ e (merge_heaps_topw (qs_W q) _ ltac:(lia))) in He.
    apply list_elem_of_In, in_concat in He as (h & Hh & He). apply list_elem_of_In in He.
    apply list_elem_of_In, list_elem_of_fmap in Hh as (h0 & -> & (p & -> & Hp)%list_elem_of_fmap).
    assert (∃ D, partial_ok schema config leaves q D [] p) as (D & HD).
    { apply list_elem_of_lookup_1 in Hp as [j Hj]. destruct (Forall2_lookup_r _ _ _ _ _ Hps Hj) as (D & _ & HD). by exists D. }
    apply partial_bounds in HD as (_ & Hin & _). specialize (Hin e He). unfold merge_pool. apply list_elem_of_filter. split.
    + apply list_elem_of_filter in He as [Hr _]. unfold pool_entry_is_sentinel. pose proof (harvested_key schema config leaves q e) as Ek.
      unfold real, heap_entry_is_sentinel in Hr. by rewrite <- Ek in Hr.
    + apply list_elem_of_In, in_concat. exists (p_pool p). split; [|by apply list_elem_of_In]. apply list_elem_of_In. by apply list_elem_of_fmap_2.
  - intros pe [Hs Hpe]%list_elem_of_filter. apply list_elem_of_In, in_concat in Hpe as (l & Hl & Hpe). apply list_elem_of_In in Hpe.
    apply list_elem_of_In, list_elem_of_fmap in Hl as (p & -> & Hp).
    apply list_elem_of_lookup_1 in Hp as [j Hj]. destruct (Forall2_lookup_r _ _ _ _ _ Hps Hj) as (D & HDj & HD).
    apply partial_bounds in HD as (_ & _ & Hpool). destruct (Hpool pe Hpe Hs) as (e & He & ->). exists e. split; [|done].
    rewrite Ec. apply list_elem_of_In, in_concat. eexists. split; [|apply list_elem_of_In, He]. apply list_elem_of_In.
    apply list_elem_of_fmap. exists D. split; [done|]. by eapply list_elem_of_lookup_2.
Qed.
End merged.

(** ** The heap of a single search *)

Lemma topw_strip w l h : Forall entry_ok l → topw heap_entry_less w l h → topw heap_entry_less w (filter real l) (strip_sentinels h).
Proof.
  intros Hl. apply (topw_filter heap_entry_less w l h real). intros x y Hx Hy Hle Hr. rewrite Forall_forall in Hl.
  pose proof (Hl x Hx). pose proof (Hl y Hy). unfold real, heap_entry_is_sentinel, entry_ok, le, heap_entry_less in *.
  destruct (Z.eqb_spec (pq_dist y) 0xFFFFFFFF), (Z.eqb_spec (pq_dist x) 0xFFFFFFFF), (Z.eqb_spec (pq_dist y) (pq_dist x)); cbn [negb] in *; try done; lia.
Qed.

Lemma strip_fresh n : strip_sentinels (replicate n sentinel) = [].
Proof. induction n as [|n IH]; [done|]. unfold strip_sentinels in *. cbn [replicate]. rewrite filter_cons_False; [exact IH|]. intros Hs. discriminate Hs. Qed.

Lemma mapM_eq {A B} (f : A → res B) (g : A → B) l : (∀ x, x ∈ l → f x = Ok (g x)) → mapM f l = Ok (g <$> l).
Proof.
  induction l as [|x l IH]; intros Hl; [done|]. cbn [mapM]. rewrite Hl, bind_Ok by (by left). rewrite IH; [done|].
  intros y Hy. apply Hl. by right.
Qed.

Lemma shards_cover threads (ord : list Z) : 0 < threads → (0 < length ord)%nat → concat (shards_of threads ord) = ord.
Proof.
  intros Ht Hn. unfold shards_of. set (n := Z.of_nat (length ord)). set (T := Z.min threads n). set (per := (n + T - 1) / T).
  assert (0 < T) as HT by lia. assert (0 < per) as Hper by (apply Z.div_str_pos; lia). assert (n ≤ T * per) as Hcover.
  { pose proof (Z.div_mod (n + T - 1) T ltac:(lia)). pose proof (Z.mod_pos_bound (n + T - 1) T HT). fold per in H. lia. }
  assert (∀ k : nat, concat ((λ t, take (Z.to_nat (Z.min (t * per + per) n - t * per)) (drop (Z.to_nat (t * per)) ord)) <$>
    filter (λ t, t * per < Z.min (t * per + per) n) (seqZ 0 (Z.of_nat k))) = take (Z.to_nat (Z.of_nat k * per)) ord) as Hk.
  { induction k as [|k IH]; [done|]. rewrite Nat2Z.inj_succ, <- Z.add_1_r, seqZ_app, filter_app, fmap_app, concat_app, IH by lia.
    rewrite Z.add_0_l. change (seqZ (Z.of_nat k) 1) with [Z.of_nat k].
    replace (Z.to_nat ((Z.of_nat k + 1) * per)) with (Z.to_nat (Z.of_nat k * per) + Z.to_nat per)%nat by lia. rewrite <- take_take_drop. f_equal.
    destruct (decide (Z.of_nat k * per < n)).
    - rewrite filter_cons_True by lia. cbn [fmap list_fmap concat]. rewrite filter_nil. cbn [fmap list_fmap concat]. rewrite app_nil_r.
      destruct (decide (Z.of_nat k * per + per ≤ n)); [f_equal; lia|]. rewrite !take_ge; [done|rewrite length_drop; lia..].
    - rewrite filter_cons_False by lia. rewrite drop_ge by lia. by rewrite take_nil. }
  specialize (Hk (Z.to_nat T)). rewrite Z2Nat.id in Hk by lia. rewrite Hk, take_ge; [done|]. lia.
Qed.

Section single.
Context (i : nat) (q : QueryState Setup) (Hq : qs !! i = Some q).
Context (HW : 0 < qs_W q < 2 ^ 31).
Abbreviation w := (Z.to_nat (qs_W q)).

Lemma scan_shard_ok shard :
  (∀ s, s ∈ shard → 0 ≤ s < Z.of_nat (length (qs_candidates q))) →
  ∃ h l, scan_shard leaves q shard = Ok h ∧ topw heap_entry_less w l h ∧ Forall entry_ok l ∧
    filter real l ≡ₚ concat (entries_at leaves q <$> shard).
Proof.
  intros Hs. unfold scan_shard.
  destruct (fold_res_ok (λ pre h, ∃ P, bounded_heap heap_entry_less sentinel w P h ∧ Forall entry_ok P ∧
    filter real P ≡ₚ concat (entries_at leaves q <$> pre)) (scan_slot leaves q) shard (heap_init (qs_W q))) as (h & -> & P & [Hh Ht] & HP & Hr).
  - exists []. split_and!; [|constructor|done]. apply bounded_init, _.
  - intros pre s post h -> (P & Hb & HP & Hr). assert (0 ≤ s < Z.of_nat (length (qs_candidates q))) as Hrange.
    { apply Hs, elem_of_app. right. by left. }
    destruct (vec_get_Ok (qs_candidates q) s Hrange) as (c & Hc & Ec). unfold scan_slot. rewrite Ec, bind_Ok.
    destruct (Z.eqb_spec (lc_page c) kInvalidPage) as [Ei|Ei].
    + exists h. split; [done|]. exists P. split_and!; [done..|]. rewrite fmap_app, concat_app, Hr.
      cbn [fmap list_fmap concat]. unfold entries_at, slot_leaf. rewrite Hc. cbn [mbind option_bind].
      destruct (Z.eqb_spec (lc_page c) kInvalidPage); [|done]. by rewrite !app_nil_r.
    + destruct (bo_leaf _ _ _ _ Hok i q c Hq) as (leaf & El & Hlo & _); [by eapply list_elem_of_lookup_2|done|].
      unfold candidate_leaf. rewrite El, bind_Ok.
      destruct (coder_scan_entries (qs_setup q) leaf w s P (mkRawScanHeap h (qs_W q) s)) as (s' & new & Es & (_ & _ & Hb') & Hoff & Hnew);
        [done|lia|lia|split_and!; [cbn; lia|done|done]|].
      rewrite Es, bind_Ok. eexists. split; [done|]. exists (new ++ P). split_and!; [done| |].
      * apply Forall_app. split; [|done]. eapply Forall_impl; [exact Hnew|]. by intros e [].
      * rewrite filter_app, Hoff, fmap_app, concat_app, Hr. cbn [fmap list_fmap concat]. rewrite app_nil_r.
        assert (entries_at leaves q s = scan_entries (qs_setup q) leaf s) as ->.
        { unfold entries_at, slot_leaf. rewrite Hc. cbn [mbind option_bind]. destruct (Z.eqb_spec (lc_page c) kInvalidPage); [done|]. by rewrite El. }
        rewrite filter_keep; [apply Permutation_app_comm|]. intros e He. by apply (scan_entries_real (qs_setup q) leaf s).
  - exists h, (replicate w sentinel ++ P). split_and!; [done..| |].
    + apply Forall_app. split; [|done]. apply Forall_replicate. unfold entry_ok. cbn. lia.
    + rewrite filter_app. assert (filter real (replicate w sentinel) = []) as -> by apply strip_fresh. done.
Qed.

Lemma all_slots ord : ord ≡ₚ seqZ 0 (Z.of_nat (length (qs_candidates q))) → concat (entries_at leaves q <$> ord) ≡ₚ all_entries leaves q.
Proof.
  intros ->. unfold all_entries, probed. assert (∀ l n, Forall2 (λ k c, qs_candidates q !! k = Some c) (seq n (length l)) l →
    concat (entries_at leaves q <$> (Z.of_nat <$> seq n (length l))) =
    concat (entries_at leaves q <$> concat (imap (λ s c, if lc_page c =? kInvalidPage then [] else [Z.of_nat (n + s)]) l))) as Hgen.
  { induction l as [|c l IH]; intros n Hl; [done|]. cbn [length seq] in *. apply Forall2_cons_1 in Hl as [Hc Hl].
    rewrite imap_cons. cbn [fmap list_fmap concat]. rewrite fmap_app, concat_app, (IH (S n)) by done. f_equal.
    - rewrite Nat.add_0_r. destruct (Z.eqb_spec (lc_page c) kInvalidPage) as [E|E]; cbn [fmap list_fmap concat]; [|by rewrite app_nil_r].
      unfold entries_at, slot_leaf. rewrite Nat2Z.id, Hc. cbn [mbind option_bind]. by destruct (Z.eqb_spec (lc_page c) kInvalidPage).
    - do 3 f_equal. apply imap_ext. intros k c' _. cbn [compose]. by replace (S n + k)%nat with (n + S k)%nat by lia. }
  transitivity (concat (entries_at leaves q <$> (Z.of_nat <$> seq 0 (length (qs_candidates q))))).
  - assert (Z.of_nat <$> seq 0 (length (qs_candidates q)) = seqZ 0 (Z.of_nat (length (qs_candidates q)))) as ->; [|done].
    unfold seqZ. rewrite Nat2Z.id. apply list_fmap_ext. intros ? k _. lia.
  - rewrite Hgen; [done|]. apply Forall2_same_length_lookup. split; [by rewrite length_seq|]. intros k a c Ha Hc. apply lookup_seq in Ha as [-> _]. done.
Qed.

Lemma search_scan_ok threads ord :
  ord ≡ₚ seqZ 0 (Z.of_nat (length (qs_candidates q))) →
  ∃ heap, search_scan leaves threads ord q = Ok heap ∧ topw heap_entry_less w (all_entries leaves q) heap.
Proof.
  intros Hord. assert (∀ s, s ∈ ord → 0 ≤ s < Z.of_nat (length (qs_candidates q))) as Hs.
  { intros s Hin. rewrite Hord in Hin. apply elem_of_seqZ in Hin. lia. }
  enough (∃ heap, search_scan leaves threads ord q = Ok heap ∧ topw heap_entry_less w (concat (entries_at leaves q <$> ord)) heap)
    as (heap & E & Ht) by (exists heap; split; [done|]; by rewrite <- (all_slots ord Hord)).
  unfold search_scan.
  destruct ((1 <? threads) && (2 <=? Z.of_nat (length (qs_candidates q)))) eqn:Et.
  - apply andb_true_iff in Et as [Et1%Z.ltb_lt Et2%Z.leb_le].
    assert (concat (shards_of threads ord) = ord) as Esh.
    { apply shards_cover; [lia|]. rewrite Hord, length_seqZ. lia. }
    destruct (mapM_res (scan_shard leaves q) (λ shard h, ∃ l, topw heap_entry_less w l h ∧ Forall entry_ok l ∧
      filter real l ≡ₚ concat (entries_at leaves q <$> shard)) (shards_of threads ord)) as (hs & -> & Hhs).
    { intros shard Hsh. destruct (scan_shard_ok shard) as (h & l & E & Hh); [|by eauto].
      intros s Hin. apply Hs. rewrite <- Esh. apply list_elem_of_In, in_concat. exists shard. by rewrite <- !list_elem_of_In. }
    rewrite !bind_Ok. eexists. split; [done|].
    assert (∃ ls, Forall2 (topw heap_entry_less w) ls hs ∧ Forall entry_ok (concat ls) ∧
      filter real (concat ls) ≡ₚ concat (entries_at leaves q <$> concat (shards_of threads ord))) as (ls & Hls & Hlok & Hlr).
    { clear Esh Hs Hord. induction Hhs as [|shard h shards hs (l & Hl & Hlo & Hlr) _ (ls & Hls & Hlok & Hlsr)]; [by exists []|].
      exists (l :: ls). cbn [concat]. split_and!; [by constructor|by apply Forall_app|]. by rewrite filter_app, fmap_app, concat_app, Hlr, Hlsr. }
    rewrite <- Esh at 1. rewrite <- Hlr. apply topw_strip; [done|]. eapply topw_shards; [apply _|exact Hls|]. apply merge_heaps_topw. lia.
  - destruct (scan_shard_ok ord Hs) as (h & l & -> & Ht & Hl & Hr). rewrite bind_Ok. eexists. split; [done|].
    rewrite <- Hr. by apply topw_strip.
Qed.

(** ** [finalize_query] scores the entries as the harvest did *)

#[local] Abbreviation hv := (harvested schema config leaves q).

Lemma harvest_parts leaf e p :
  harvest_of schema config q leaf e = Ok p →
  leaf_row_id leaf (local_idx e) = Ok (pe_row_id p) ∧ pe_reranked p = eager_rerank config ∧
  (eager_rerank config = true → coder_rerank (qs_setup q) leaf (local_idx e) = Ok (pe_dist p)) ∧
  (qs_predicates q = [] → pe_pred_ok p = true) ∧
  (qs_predicates q ≠ [] → ∃ cols, leaf_columns schema leaf = Ok cols ∧ row_passes q cols (local_idx e) = Ok (pe_pred_ok p)).
Proof.
  unfold harvest_of, harvest_entry. intros E. apply bind_Ok_inv in E as (cols & Ec & E).
  apply bind_Ok_inv in E as (row & -> & E). apply bind_Ok_inv in E as (d & Ed & E). apply bind_Ok_inv in E as (b & Eb & E).
  injection E as <-. cbn [pe_row_id pe_dist pe_reranked pe_pred_ok]. unfold query_columns in Ec.
  split_and!; [done|done| | |].
  - intros Ee. by rewrite Ee in Ed.
  - intros Ep. rewrite Ep in Eb. by injection Eb.
  - intros Ep. exists cols. by destruct (qs_predicates q).
Qed.

(** The candidate of an entry, by its slot. *)
Definition full_entry (e : HeapEntry) : HeapEntryFull :=
  match qs_candidates q !! Z.to_nat (leaf_slot e) with
  | Some c => mkHeapEntryFull e (pe_row_id (hv e)) (lc_page c) (default [] (leaves (lc_page c) (lc_pages c)))
  | None => mkHeapEntryFull e 0 0 []
  end.

Lemma full_entry_ok e :
  e ∈ all_entries leaves q →
  materialize leaves q e = Ok (full_entry e) ∧ hf_row_id (full_entry e) = pe_row_id (hv e) ∧
  (∃ c, c ∈ qs_candidates q ∧ lc_page c = hf_page (full_entry e) ∧ lc_page c ≠ kInvalidPage ∧ leaves (lc_page c) (lc_pages c) = Some (hf_leaf (full_entry e))) ∧
  harvest_of schema config q (hf_leaf (full_entry e)) e = Ok (hv e).
Proof.
  intros He. destruct (entry_leaf i q Hq e He) as (c & leaf & Hs & Hc & Hi & Hl & _ & _ & _ & _ & Hh). unfold materialize, full_entry. rewrite Hc.
  cbn [hf_row_id hf_page hf_leaf]. rewrite Hl. cbn [default]. split_and!; [|done|exists c; split_and!; [by eapply list_elem_of_lookup_2|done..]|done].
  unfold vec_get. destruct (Z.ltb_spec (leaf_slot e) 0); [lia|]. rewrite Hc, bind_Ok. unfold candidate_leaf. rewrite Hl, bind_Ok.
  by rewrite (proj1 (harvest_parts leaf e _ Hh)).
Qed.

Lemma full_entry_entry e : hf_entry (full_entry e) = e.
Proof. unfold full_entry. by destruct (qs_candidates q !! Z.to_nat (leaf_slot e)). Qed.

Lemma same_page_leaf e e' :
  e ∈ all_entries leaves q → e' ∈ all_entries leaves q → hf_page (full_entry e) = hf_page (full_entry e') →
  hf_leaf (full_entry e) = hf_leaf (full_entry e').
Proof.
  intros He He' Ep. destruct (full_entry_ok e He) as (_ & _ & (c & Hc & E & _ & Hl) & _).
  destruct (full_entry_ok e' He') as (_ & _ & (c' & Hc' & E' & _ & Hl') & _).
  rewrite (bo_pages _ _ _ _ Hok i q c i q c') in Hl by (done || congruence). rewrite E, Ep, <- E' in Hl. congruence.
Qed.

Lemma score_ok e : e ∈ all_entries leaves q → score config q (full_entry e) = Ok (mkCandidate (pe_row_id (hv e)) (pool_dist config q e (hv e))).
Proof.
  intros He. destruct (full_entry_ok e He) as (_ & Er & _ & Hh). destruct (harvest_parts _ _ _ Hh) as (_ & Hre & Hd & _).
  unfold score, pool_dist. rewrite full_entry_entry, Er, Hre. unfold eager_rerank in *.
  destruct (rerank (sc_cut config)), (sc_exact config); cbn [andb] in *; [done| |done|done]. by rewrite Hd.
Qed.

Lemma filter_survivors_ok es cur :
  qs_predicates q ≠ [] → (∀ e, e ∈ es → e ∈ all_entries leaves q) →
  (∀ page cols, cur = Some (page, cols) → ∃ e, e ∈ all_entries leaves q ∧ page = hf_page (full_entry e) ∧ leaf_columns schema (hf_leaf (full_entry e)) = Ok cols) →
  filter_survivors schema q cur (full_entry <$> es) = Ok (full_entry <$> filter (λ e, pe_pred_ok (hv e) = true) es).
Proof.
  intros Hp. revert cur. induction es as [|e es IH]; intros cur Hes Hcur; [done|]. cbn [fmap list_fmap filter_survivors].
  assert (e ∈ all_entries leaves q) as He by (apply Hes; by left). destruct (full_entry_ok e He) as (_ & _ & _ & Hh).
  destruct (harvest_parts _ _ _ Hh) as (_ & _ & _ & _ & Hcols). destruct (Hcols Hp) as (cols & Ec & Eb).
  assert ((match cur with
           | Some (page, cols) => if page =? hf_page (full_entry e) then mret cols else leaf_columns schema (hf_leaf (full_entry e))
           | None => leaf_columns schema (hf_leaf (full_entry e)) end) = Ok cols) as ->.
  { destruct cur as [[page cols']|]; [|done]. destruct (Z.eqb_spec page (hf_page (full_entry e))) as [E|]; [|done].
    destruct (Hcur page cols' eq_refl) as (e' & He' & E' & Ec'). rewrite (same_page_leaf e' e He' He) in Ec' by congruence.
    rewrite Ec in Ec'. by injection Ec' as ->. }
  rewrite bind_Ok, full_entry_entry, Eb, bind_Ok, IH.
  - rewrite bind_Ok, filter_cons. destruct (pe_pred_ok (hv e)) eqn:Epo; [by rewrite decide_True|by rewrite decide_False].
  - intros x Hx. apply Hes. by right.
  - intros page cols' [= <- <-]. by exists e.
Qed.

Lemma omap_filtered (es : list HeapEntry) :
  (λ e, mkCandidate (pe_row_id (hv e)) (pool_dist config q e (hv e))) <$> filter (λ e, pe_pred_ok (hv e) = true) es = omap (entry_result q) es.
Proof.
  induction es as [|e es IH]; [done|]. rewrite filter_cons. cbn [omap list_omap]. unfold entry_result at 1. cbv zeta.
  destruct (pe_pred_ok (hv e)); [rewrite decide_True by done; cbn [fmap list_fmap]; by rewrite <- IH|rewrite decide_False by done; exact IH].
Qed.

Lemma finalize_query_ok k heap :
  (∀ e, e ∈ heap → e ∈ all_entries leaves q) →
  ∃ es, es ≡ₚ heap ∧ finalize_query schema config leaves k q heap = cut_topk_results (omap (entry_result q) es) k (sc_cut config).
Proof.
  intros Hheap. unfold finalize_query. rewrite (mapM_eq _ full_entry) by (intros e He; apply (proj1 (full_entry_ok e (Hheap e He)))). rewrite bind_Ok.
  assert (∀ es, (∀ e, e ∈ es → e ∈ all_entries leaves q) → mapM (score config q) (full_entry <$> es) =
    Ok ((λ e, mkCandidate (pe_row_id (hv e)) (pool_dist config q e (hv e))) <$> es)) as Hscore.
  { intros es Hes. induction es as [|e es IH]; [done|]. rewrite fmap_cons. cbn [mapM]. rewrite score_ok, bind_Ok by (apply Hes; by left).
    rewrite IH; [done|]. intros x Hx. apply Hes. by right. }
  destruct (decide (qs_predicates q = [])) as [Ep|Ep].
  - exists heap. split; [done|]. rewrite Ep. unfold mret, res_ret. rewrite bind_Ok, Hscore, bind_Ok, <- omap_filtered by done. rewrite filter_keep; [done|].
    intros e He. destruct (full_entry_ok e (Hheap e He)) as (_ & _ & _ & Hh). by apply (harvest_parts _ _ _ Hh).
  - set (sorted := std_sort (λ a b, hf_page a <? hf_page b) (full_entry <$> heap)).
    assert (sorted ≡ₚ full_entry <$> heap) as Es by apply std_sort_perm.
    assert (sorted = full_entry <$> (hf_entry <$> sorted)) as Ef.
    { rewrite <- list_fmap_compose. rewrite <- (list_fmap_id sorted) at 1. apply list_fmap_ext. intros j x Hx. cbn [compose].
      assert (x ∈ full_entry <$> heap) as Hin by (rewrite <- Es; by eapply list_elem_of_lookup_2).
      apply list_elem_of_fmap in Hin as (e & -> & _). by rewrite full_entry_entry. }
    assert (hf_entry <$> sorted ≡ₚ heap) as Eh.
    { rewrite Es, <- list_fmap_compose. rewrite (list_fmap_ext _ id); [by rewrite list_fmap_id|]. intros j e _. apply full_entry_entry. }
    exists (hf_entry <$> sorted). split; [done|]. assert (∀ e, e ∈ hf_entry <$> sorted → e ∈ all_entries leaves q) as Hes.
    { intros e He. apply Hheap. by rewrite <- Eh. }
    assert (filter_survivors schema q None sorted = Ok (full_entry <$> filter (λ e, pe_pred_ok (hv e) = true) (hf_entry <$> sorted))) as Efs.
    { transitivity (filter_survivors schema q None (full_entry <$> (hf_entry <$> sorted))); [by rewrite <- Ef|].
      by apply filter_survivors_ok. }
    assert ((match qs_predicates q, full_entry <$> heap with
             | [], _ | _, [] => mret (full_entry <$> heap)
             | _, _ => filter_survivors schema q None sorted end) = Ok (full_entry <$> filter (λ e, pe_pred_ok (hv e) = true) (hf_entry <$> sorted))) as ->.
    { rewrite Efs. unfold sorted. destruct (qs_predicates q); [done|]. by destruct heap. }
    rewrite bind_Ok, Hscore; [by rewrite bind_Ok, omap_filtered|]. intros e [_ He]%list_elem_of_filter. by apply Hes.
Qed.
End single.

Lemma cut_nil k config' : 0 ≤ k → cut_topk_results [] k config' = Ok [].
Proof.
  intros Hk. unfold cut_topk_results. change (unique_rows (std_sort by_row [])) with (@nil Candidate). cbn [length].
  change (Z.of_nat 0) with 0. assert ((k <? 0) = false) as -> by (apply Z.ltb_ge; lia).
  rewrite andb_false_r. unfold mret, res_ret. by rewrite bind_Ok.
Qed.

Lemma omap_perm {A B} (f : A → option B) l l' : l ≡ₚ l' → omap f l ≡ₚ omap f l'.
Proof.
  induction 1 as [|x l l' _ IH|x y l|l l' l'' _ IH1 _ IH2]; cbn [omap list_omap]; [done|by destruct (f x); [f_equiv|]| |by rewrite IH1].
  destruct (f x), (f y); try done. constructor.
Qed.

(** The distances of a query's entries are comparable. *)
Definition scores_ok (q : QueryState Setup) : Prop :=
  no_nan (omap (entry_result q) (all_entries leaves q)) ∧ one_zero (omap (entry_result q) (all_entries leaves q)).

Lemma omap_sub (q : QueryState Setup) es : (∀ e, e ∈ es → e ∈ all_entries leaves q) → scores_ok q →
  no_nan (omap (entry_result q) es) ∧ one_zero (omap (entry_result q) es).
Proof.
  intros Hes [Hn Hz]. assert (∀ c, c ∈ omap (entry_result q) es → c ∈ omap (entry_result q) (all_entries leaves q)) as Hsub.
  { intros c (e & He & Hc)%list_elem_of_omap. apply list_elem_of_omap. exists e. split; [by apply Hes|done]. }
  split; [intros c Hc; by apply Hn, Hsub|intros x y Hx Hy; apply Hz; by apply Hsub].
Qed.

(** The answer of the batch, from partials that cover the query's slots. *)
Lemma swept_answer_ok i q k ms Ds :
  qs !! i = Some q → 0 ≤ k → (qs_candidates q ≠ [] → 0 < qs_W q < 2 ^ 31) →
  Forall2 (λ D p, partial_ok schema config leaves q D [] p) Ds (query_partials ms (Z.of_nat i)) → concat Ds ≡ₚ probed q →
  ∃ heap, swept_answer config k ms (Z.of_nat i) q = cut_topk_results (omap (entry_result q) heap) k (sc_cut config) ∧
    (qs_candidates q = [] → heap = []) ∧ (qs_candidates q ≠ [] → topw heap_entry_less (Z.to_nat (qs_W q)) (all_entries leaves q) heap).
Proof.
  intros Hq Hk HW Hps HD. unfold swept_answer. set (ps := query_partials ms (Z.of_nat i)) in *.
  destruct (qs_candidates q) as [|c0 cs] eqn:Ecand; [exists []; split_and!; [by rewrite cut_nil|done|done]|].
  destruct (merge_partials q (HW ltac:(done)) Ds ps Hps) as (Ht & Hin & Hpool).
  assert (concat (entries_at leaves q <$> concat Ds) ≡ₚ all_entries leaves q) as Ee by (apply concat_perm, fmap_Permutation, HD).
  rewrite Ee in Ht. exists (merge_heap (qs_W q) ps). split_and!; [|done|done].
  assert (omap (pool_result config q (std_sort (λ a b, slot_less (pool_slot a) (pool_slot b)) (merge_pool ps))) (merge_heap (qs_W q) ps) =
    omap (entry_result q) (merge_heap (qs_W q) ps)) as Eres.
  { assert (∀ e, e ∈ merge_heap (qs_W q) ps → pool_result config q (std_sort (λ a b, slot_less (pool_slot a) (pool_slot b)) (merge_pool ps)) e = entry_result q e) as He.
    { intros e He. eapply pool_result_entry; [exact Hq| |by apply (topw_elem heap_entry_less _ _ _ e Ht)|by apply Hin].
      intros p Hp. destruct (Hpool p Hp) as (e' & He' & ->). exists e'. by rewrite <- Ee. }
    clear -He. induction (merge_heap (qs_W q) ps) as [|e heap IH]; [done|]. cbn [omap list_omap]. rewrite He by (by left).
    rewrite IH; [done|]. intros x Hx. apply He. by right. }
  destruct (merge_heap (qs_W q) ps) as [|e heap] eqn:Em; [by rewrite cut_nil|]. unfold finalize_pool_query. by rewrite Eres.
Qed.

(** Scoring the same entries in any order cuts to the same answer. *)
Lemma cut_same q es es' k :
  (∀ e, e ∈ es → e ∈ all_entries leaves q) → scores_ok q → es ≡ₚ es' →
  cut_topk_results (omap (entry_result q) es) k (sc_cut config) = cut_topk_results (omap (entry_result q) es') k (sc_cut config).
Proof. intros Hes Hs E. destruct (omap_sub q es Hes Hs) as [Hn Hz]. apply cut_topk_perm; [done..|]. by apply omap_perm. Qed.

(** The routed search answers from the least entries, whatever the order and the threads. *)
Lemma search_routed_ok i q k threads ord heap :
  qs !! i = Some q → 0 ≤ k → scores_ok q → ord ≡ₚ seqZ 0 (Z.of_nat (length (qs_candidates q))) →
  (qs_candidates q = [] → heap = []) →
  (qs_candidates q ≠ [] → 0 < qs_W q < 2 ^ 31 ∧ topw heap_entry_less (Z.to_nat (qs_W q)) (all_entries leaves q) heap) →
  search_routed schema config leaves k threads ord q = cut_topk_results (omap (entry_result q) heap) k (sc_cut config).
Proof.
  intros Hq Hk Hs Hord Hnil Hne. unfold search_routed. destruct (decide (qs_candidates q = [])) as [Ec|Ec].
  - rewrite (Hnil Ec). rewrite Ec in Hord. apply Permutation_nil_r in Hord as ->.
    assert (search_scan leaves threads [] q = Ok []) as ->.
    { unfold search_scan. rewrite Ec, andb_false_r. unfold scan_shard, fold_res. rewrite bind_Ok. unfold mret, res_ret. f_equal.
      apply strip_fresh. }
    rewrite bind_Ok. cbn [omap list_omap]. rewrite cut_nil by done.
    unfold finalize_query. cbn [mapM]. unfold mret, res_ret. rewrite bind_Ok.
    assert ((match qs_predicates q, @nil HeapEntryFull with
             | [], _ | _, [] => Ok []
             | _, _ => filter_survivors schema q None (std_sort (λ a b, hf_page a <? hf_page b) []) end) = Ok []) as -> by by destruct (qs_predicates q).
    rewrite bind_Ok. cbn [mapM]. unfold mret, res_ret. by rewrite bind_Ok, cut_nil.
  - destruct (Hne Ec) as [HW Ht]. destruct (search_scan_ok i q Hq HW threads ord Hord) as (heap' & -> & Ht'). rewrite bind_Ok.
    destruct (finalize_query_ok i q Hq k heap') as (es & Ees & ->); [intros e He; by apply (topw_elem heap_entry_less _ _ _ e Ht')|].
    symmetry. apply cut_same; [|done|].
    + intros e He. by apply (topw_elem heap_entry_less _ _ _ e Ht).
    + rewrite Ees. by apply (topw_unique heap_entry_less _ _ _ _ _ Ht Ht').
Qed.

(** The least entries of a routed query are answered, once and for all. *)
Lemma least_answered i q k :
  qs !! i = Some q → 0 ≤ k < 2 ^ 32 → 1 ≤ k ∨ is_adaptive (sc_cut config) = false → scores_ok q →
  ∃ r, (∀ heap, (qs_candidates q = [] → heap = []) →
      (qs_candidates q ≠ [] → topw heap_entry_less (Z.to_nat (qs_W q)) (all_entries leaves q) heap) →
      cut_topk_results (omap (entry_result q) heap) k (sc_cut config) = Ok r) ∧
    ∀ threads ord, ord ≡ₚ seqZ 0 (Z.of_nat (length (qs_candidates q))) → search_routed schema config leaves k threads ord q = Ok r.
Proof.
  intros Hq Hk Hka Hs. set (w := Z.to_nat (qs_W q)).
  set (h0 := if decide (qs_candidates q = []) then [] else take w (std_sort heap_entry_less (all_entries leaves q))).
  assert ((qs_candidates q = [] → h0 = []) ∧ (qs_candidates q ≠ [] → topw heap_entry_less w (all_entries leaves q) h0)) as [H0nil H0].
  { subst h0. destruct (decide (qs_candidates q = [])); split; try done. intros _. apply topw_take_sort, _. }
  assert (∀ e, e ∈ h0 → e ∈ all_entries leaves q) as Hin.
  { intros e He. destruct (decide (qs_candidates q = [])) as [Ec|Ec]; [rewrite (H0nil Ec) in He; by apply not_elem_of_nil in He|].
    by apply (topw_elem heap_entry_less _ _ _ e (H0 Ec)). }
  destruct (cut_nearest (omap (entry_result q) h0) (proj1 (omap_sub q h0 Hin Hs)) k (sc_cut config) Hk Hka) as (keep & E & _).
  eexists. split.
  - intros heap Hnil Hne. rewrite <- E. symmetry. apply cut_same; [done..|]. destruct (decide (qs_candidates q = [])) as [Ec|Ec].
    + by rewrite (Hnil Ec), (H0nil Ec).
    + by apply (topw_unique heap_entry_less w (all_entries leaves q) (all_entries leaves q) _ _ (H0 Ec) (Hne Ec)).
  - intros threads ord Hord. rewrite <- E. apply (search_routed_ok i); [done|lia|done|done|done|].
    intros Ec. split; [by apply (bo_w _ _ _ _ Hok i)|by apply H0].
Qed.
End answers.

(** ** The batch answers as the search *)

Section batch_answers.
Context {Setup : Type} {HLC : LeafCoder Setup} {HLS : LeafCoderScan Setup} {HRH : RapidHash} {HLM : LibM}.
Context (schema : Schema) (config : SweepConfig Setup) (supports_batch_scan : bool) (leaves : Z → Z → option (list Z)).
Context (summary_size : Z) (all_leaves : list LeafCandidate) (decode_rerank : Setup → list Z → Z → res float).
Context (search_threads : Z) (order : QueryState Setup → list Z).
Context (Horder : ∀ q, order q ≡ₚ seqZ 0 (Z.of_nat (length (qs_candidates q)))).
Implicit Types (q b : QueryState Setup).

(** [r] is what [search] returns for the routed query, on any number of threads and in
    any order of its leaves. *)
Definition search_gives (k : Z) q (r : list Candidate) : Prop :=
  ∀ threads ord, ord ≡ₚ seqZ 0 (Z.of_nat (length (qs_candidates q))) →
    search schema config leaves summary_size all_leaves decode_rerank k threads ord q = Ok r.

(** What a routed query needs to be searched: leaves that can be scanned and comparable
    distances, or a pass over all leaves that does not fault. *)
Definition searchable (k : Z) q : Prop :=
  if qs_fallback q then ∃ r, search_brute_force_filtered schema config leaves summary_size all_leaves decode_rerank k q = Ok r
  else batch_ok schema config leaves [q] ∧ scores_ok schema config leaves q.

Lemma searchable_gives k q :
  0 ≤ k < 2 ^ 32 → 1 ≤ k ∨ is_adaptive (sc_cut config) = false → searchable k q → ∃ r, search_gives k q r.
Proof.
  intros Hk Hka Hq. unfold searchable, search_gives, search in *. destruct (qs_fallback q); [destruct Hq as [r ->]; by exists r|].
  destruct Hq as [Hok Hs]. destruct (least_answered schema config leaves [q] Hok 0 q k eq_refl Hk Hka Hs) as (r & _ & Hr). by exists r.
Qed.

Context (qs base : list (QueryState Setup)) (Hok : batch_ok schema config leaves qs).
Context (Hscores : ∀ i q, qs !! i = Some q → qs_fallback q = false → scores_ok schema config leaves q).
Context (k : Z) (Hk : 0 ≤ k < 2 ^ 32) (Hka : 1 ≤ k ∨ is_adaptive (sc_cut config) = false).
Context (Hbase : ∀ i q, qs !! i = Some q → qs_fallback q = true → ∃ b, base !! i = Some b ∧ searchable k b).

(** The sweep of a batch under one schedule. *)
Lemma batch_answers uls schedule :
  unique_leaves qs = Ok uls → schedule_ok (length uls) schedule →
  ∃ out, search_batch schema config supports_batch_scan leaves summary_size all_leaves decode_rerank search_threads order qs base k schedule = Ok out ∧
    length out = length qs ∧
    ∀ i q, qs !! i = Some q → ∃ r, out !! i = Some r ∧
      if qs_fallback q then ∃ b, base !! i = Some b ∧ search_gives k b r else search_gives k q r.
Proof.
  intros Eu Hsch. destruct (unique_leaves_ok qs) as (uls' & segs & Eu' & Er & Hsegs).
  rewrite Eu in Eu'. injection Eu' as <-.
  destruct (schedule_sweeps schema config supports_batch_scan leaves qs Hok uls segs Er Hsegs schedule Hsch) as (ms & Ems & Hms & Hrefs).
  unfold search_batch. rewrite Eu, bind_Ok, Ems, bind_Ok. set (ans := query_answer _ _ _ _ _ _ _ _ _ _ _ ms).
  assert (∀ i q, qs !! i = Some q → ∃ r, ans (Z.of_nat i) = Ok r ∧
    if qs_fallback q then ∃ b, base !! i = Some b ∧ search_gives k b r else search_gives k q r) as Hans.
  { intros i q Hq. unfold ans, query_answer. pose proof (vec_get_lookup qs i q Hq) as Eq. rewrite Eq, bind_Ok.
    destruct (qs_fallback q) eqn:Ef.
    - destruct (Hbase i q Hq Ef) as (b & Hb & Hsb). destruct (searchable_gives k b Hk Hka Hsb) as [r Hr]. exists r.
      rewrite (vec_get_lookup base i b Hb), bind_Ok. split; [by apply Hr|by exists b].
    - destruct (query_partials_ok schema config leaves qs i q Hq schedule ms uls segs Hms) as (Ds & HDs & ED).
      assert (concat Ds ≡ₚ probed q) as EDp by (rewrite ED, Hrefs; by apply probe_refs_slots).
      destruct (least_answered schema config leaves qs Hok i q k Hq Hk Hka (Hscores i q Hq Ef)) as (r & Hr & Hsr). exists r.
      destruct (swept_answer_ok schema config leaves qs Hok i q k ms Ds Hq ltac:(lia) (bo_w _ _ _ _ Hok i q Hq) HDs EDp) as (heap & -> & Hnil & Hne).
      split; [by apply Hr|]. intros threads ord Hord. unfold search. rewrite Ef. by apply Hsr. }
  destruct (mapM_res ans (λ i r, ∀ q, qs !! Z.to_nat i = Some q →
    if qs_fallback q then ∃ b, base !! Z.to_nat i = Some b ∧ search_gives k b r else search_gives k q r)
    (seqZ 0 (Z.of_nat (length qs)))) as (out & -> & Hout).
  { intros i Hi%elem_of_seqZ. destruct (lookup_lt_is_Some_2 qs (Z.to_nat i)) as [q Hq]; [lia|].
    destruct (Hans _ q Hq) as (r & Hr & Hall). rewrite Z2Nat.id in Hr by lia. exists r. split; [done|]. intros q' Hq'. by simplify_eq. }
  exists out. split_and!; [done|by rewrite <- (Forall2_length _ _ _ Hout), length_seqZ, Nat2Z.id|]. intros i q Hq.
  assert (seqZ 0 (Z.of_nat (length qs)) !! i = Some (Z.of_nat i)) as Hi.
  { apply lookup_seqZ. apply lookup_lt_Some in Hq. lia. }
  destruct (Forall2_lookup_l _ _ _ _ _ Hout Hi) as (r & Hr & Hall). exists r. split; [done|].
  rewrite Nat2Z.id in Hall. by apply Hall.
Qed.

(** C3: a batch is swept without fault under every schedule of its chunks over workers.
    Each query whose routing did not give up gets the answer [search] gives it under its
    own settings, whatever the number of threads that search uses and the order it scans
    the leaves in: the bounded pools lose no row the answer needs.  A query whose routing
    gave up gets the answer [search] gives it under the base configuration [base]: its
    own predicates and probe fraction play no part in it.

    The conditions: the leaves can be scanned and harvested ([batch_ok]); the distances
    of a query's entries are comparable, with no NaN and one sign of zero ([scores_ok]);
    the base search of a query that falls back is possible ([searchable]). *)
Theorem batch_is_search :
  ∃ uls, unique_leaves qs = Ok uls ∧ ∀ schedule, schedule_ok (length uls) schedule →
    ∃ out, search_batch schema config supports_batch_scan leaves summary_size all_leaves decode_rerank search_threads order qs base k schedule = Ok out ∧
      length out = length qs ∧
      ∀ i q, qs !! i = Some q → ∃ r, out !! i = Some r ∧
        if qs_fallback q then ∃ b, base !! i = Some b ∧ search_gives k b r else search_gives k q r.
Proof.
  destruct (unique_leaves_ok qs) as (uls & segs & Eu & _). exists uls. split; [done|]. intros schedule Hsch.
  by apply (batch_answers uls).
Qed.
End batch_answers.
