(* ===== verification/BatchRuns.v ===== *)
(** * BatchRuns: the global product quantizer under the batch sweep
    ([src/tree/coders/global_pq_coder.cpp])

    The global coder implements the coder interface of SweepPool: its scan is the one
    of LeafScan, and its rerank sums floats of the query's tables.  A batch of three
    queries over two leaves is run through it; the third one falls back. *)
From stdpp Require Import sorting.
From S2P Require Import Prelude Doubles Schema FilterHash FilterColumns FilterScan FilterSummary PageFile TreeNodes FastScanCodes FastScanLeaves TopW ScanKernels LeafScan CutTopk CompactLeaf DeleteBatch SweepPool BatchSweep BatchSweepInv BatchSearch.

(** ** The coder *)

(** The tables of a query: for the scan, and for the rerank. *)
Record GlobalSetup := mkGlobalSetup {
  gs_lut : list Z;
  gs_rerank_dot : list float;
  gs_rerank_nrm : list float;
  gs_K : Z;
  gs_query_sq : float;
  gs_inner_product : bool;
}.

(** The code of a segment, in the byte of its lane. *)
Definition lane_code (pq_bits slot sg : Z) (blk : list Z) : res Z :=
  if pq_bits =? 8 then vec_get blk (sg * 16 + slot)
  else
    b ← vec_get blk (sg * 16 + slot mod 16);
    mret (if 16 <=? slot then Z.shiftr b 4 else Z.land b 0x0F).

(** [GlobalPqCoder::rerank] through the tables (the families without residual splits). *)
Definition global_rerank (s : GlobalSetup) (leaf : list Z) (local_idx : Z) : res float :=
  hdr ← mem_read leaf 0 sizeof_TreeLeafHeader;
  let lh := leaf_header_of_bytes hdr in
  let codes_per_block := if lh_pq_bits lh =? 8 then 16 else 32 in
  let block_bytes := lh_m4 lh * 16 in
  let block := local_idx / codes_per_block in
  let slot := local_idx mod codes_per_block in
  let blk := drop (Z.to_nat (leaf_codes_offset (lh_summary_size lh) + block * block_bytes)) leaf in
  '(acc, nacc) ← for_range (Z.to_nat (lh_m4 lh)) 0 (λ sg '(acc, nacc),
      c ← lane_code (lh_pq_bits lh) slot sg blk;
      d ← vec_get (gs_rerank_dot s) (sg * gs_K s + c);
      n ← vec_get (gs_rerank_nrm s) (sg * gs_K s + c);
      mret (SFadd 24 128 acc d, SFadd 24 128 nacc n)) (S754_zero false, S754_zero false);
  mret (if gs_inner_product s then SFopp acc
        else SFadd 24 128 (SFsub 24 128 (gs_query_sq s) (SFmul 24 128 (float_of_u32 2) acc)) nacc).

#[export] Instance GlobalCoder : LeafCoder GlobalSetup := {
  coder_geometry := geometry;
  coder_scan s leaf heap := global_scan_leaf (gs_lut s) leaf heap;
  coder_rerank := global_rerank;
}.

(** ** What its scan promises *)

Definition header_of (leaf : list Z) : TreeLeafHeader :=
  match mem_read leaf 0 sizeof_TreeLeafHeader with Ok hdr => leaf_header_of_bytes hdr | Err _ => leaf_header_of_bytes [] end.

Section global.
Context (s : GlobalSetup) (leaf : list Z).
Abbreviation h := (header_of leaf).
Abbreviation base := (leaf_codes_offset (lh_summary_size h)).

Definition global_leaf_ok : Prop :=
  (∃ hdr, mem_read leaf 0 sizeof_TreeLeafHeader = Ok hdr) ∧
  scannable base (lh_m4 h) (lh_pq_bits h) (lh_count h) leaf (gs_lut s) (λ raw, raw).

Definition global_entries (slot : Z) : list HeapEntry :=
  leaf_entries base (lh_m4 h) (lh_pq_bits h) (lh_count h) leaf (gs_lut s) (λ raw, raw) slot.

Definition global_lanes : Z := n_code_blocks (lh_pq_bits h) (lh_count h) * codes_per_block (lh_pq_bits h).
End global.

#[export] Instance GlobalCoderScan : LeafCoderScan GlobalSetup.
Proof.
  refine {| leaf_ok := global_leaf_ok; scan_entries s leaf slot := global_entries s leaf slot; scan_lanes s leaf := global_lanes leaf |}.
  - intros s leaf w slot pushed heap [[hdr Eh] Hsc] Hw0 Hw Hs. unfold global_entries, global_lanes.
    assert (header_of leaf = leaf_header_of_bytes hdr) as E by (unfold header_of; by rewrite Eh). rewrite E in *.
    by apply (scan_leaf_entries _ _ _ _ _ _ _ Hsc w Hw0 Hw _ hdr).
  - intros s leaf slot e [_ Hsc] (j & -> & Hj%elem_of_seqZ)%list_elem_of_fmap. unfold leaf_entry. cbn [leaf_slot local_idx].
    pose proof (leaf_dist_range _ _ _ _ _ _ _ Hsc j) as Hd. split_and!; [|done|lia|].
    + unfold real, heap_entry_is_sentinel. cbn [pq_dist]. apply Z.eqb_neq. lia.
    + unfold global_lanes, n_code_blocks. destruct (cpb_bounds _ _ _ _ _ _ _ Hsc) as [[_ ->]|[_ ->]]; Z.div_mod_to_equations; lia.
  - intros s leaf slot _. unfold global_entries, leaf_entries. rewrite <- list_fmap_compose.
    rewrite (list_fmap_ext _ id); [rewrite list_fmap_id; apply NoDup_seqZ|]. done.
Defined.

(** ** Three queries, two leaves *)

(** The second leaf has the same codes under other row ids. *)
Definition ex_leaf2 : list Z := match mem_write w_leaf 160 (arr 8 [15; 16; 17]) with Ok l => l | Err _ => [] end.
Definition ex_leaves (page pages : Z) : option (list Z) :=
  if page =? 3 then Some w_leaf else if page =? 7 then Some ex_leaf2 else None.

Definition ex_setup (k : Z) : GlobalSetup := mkGlobalSetup ((λ i, (k * i) mod 16) <$> seqZ 0 48) [] [] 16 (S754_zero false) false.
Definition ex_query (k : Z) (pages : list Z) : QueryState GlobalSetup :=
  mkQueryState _ (ex_setup k) ((λ p, mkLeafCandidate p 1) <$> pages) [] [] [] 4 false.
(** A query for a value so rare that routing leaves it to the base configuration. *)
Definition ex_gave_up : QueryState GlobalSetup :=
  mkQueryState _ (ex_setup 3) [] [w_pred OpEq (double_of_Z 99) [] []] [0] [] 4 true.
Definition ex_qs : list (QueryState GlobalSetup) := [ex_query 1 [7; 3]; ex_query 3 [3]; ex_gave_up].
(** Without predicates. *)
Definition ex_base : list (QueryState GlobalSetup) := [ex_query 1 [7; 3]; ex_query 3 [3]; ex_query 3 [3]].
Definition ex_order (q : QueryState GlobalSetup) : list Z := seqZ 0 (Z.of_nat (length (qs_candidates q))).
Definition ex_decode_rerank (s : GlobalSetup) (leaf : list Z) (i : Z) : res float := mret (S754_zero false).
Definition ex_config : SweepConfig GlobalSetup := mkSweepConfig _ (mkCutConfig (S754_zero false) false) None.

Lemma ex_leaf_scans k l : k = 1 ∨ k = 3 → l = w_leaf ∨ l = ex_leaf2 → leaf_ok (ex_setup k) l.
Proof.
  intros Hk Hl. assert (header_of l = w_leaf_header) as Eh by (destruct Hl as [-> | ->]; by vm_compute).
  assert (length l = 4096%nat) as Hlen by (destruct Hl as [-> | ->]; by vm_compute).
  split; [destruct Hl as [-> | ->]; eexists; by vm_compute|]. rewrite Eh. split.
  - by vm_compute.
  - done.
  - by left.
  - done.
  - destruct Hl as [-> | ->]; apply (bool_decide_unpack _); by vm_compute.
  - destruct Hk as [-> | ->]; apply (bool_decide_unpack _); by vm_compute.
  - rewrite Hlen. by vm_compute.
  - by vm_compute.
  - split; [done|]. intros x Hx. unfold key_ok. lia.
Qed.

Lemma ex_leaf_rows l idx : l = w_leaf ∨ l = ex_leaf2 → 0 ≤ idx < 32 → ∃ r, leaf_row_id l idx = Ok r.
Proof.
  intros Hl Hi. assert (forallb (λ j, match leaf_row_id l j with Ok _ => true | Err _ => false end) (seqZ 0 32) = true) as Hall
    by (destruct Hl as [-> | ->]; by vm_compute).
  rewrite forallb_forall in Hall. specialize (Hall idx). destruct (leaf_row_id l idx) as [r|]; [by exists r|].
  discriminate Hall. apply list_elem_of_In, elem_of_seqZ. lia.
Qed.

Lemma ex_leaf_columns l : l = w_leaf ∨ l = ex_leaf2 → ∃ cols, @leaf_columns _ _ w_schema1 l = Ok cols.
Proof. intros [-> | ->]; eexists; by vm_compute. Qed.

Lemma ex_queries_ok qs : (∀ i q, qs !! i = Some q → q = ex_query 1 [7; 3] ∨ q = ex_query 3 [3] ∨ q = ex_gave_up) →
  @batch_ok _ _ _ w_hash w_libm w_schema1 ex_config ex_leaves qs.
Proof.
  intros Hqs.
  assert (∀ i q c, qs !! i = Some q → c ∈ qs_candidates q → c = mkLeafCandidate 7 1 ∨ c = mkLeafCandidate 3 1) as Hcs.
  { intros i q c E Hc. destruct (Hqs i q E) as [-> | [-> | ->]]; cbn in Hc; rewrite ?elem_of_cons in Hc.
    - destruct Hc as [->|[->|[]%not_elem_of_nil]]; auto.
    - destruct Hc as [->|[]%not_elem_of_nil]; auto.
    - by apply not_elem_of_nil in Hc. }
  split.
  - intros i q E _. by destruct (Hqs i q E) as [-> | [-> | ->]].
  - intros i q E. by destruct (Hqs i q E) as [-> | [-> | ->]].
  - intros i q c i' q' c' E E' Hc Hc' _. by destruct (Hcs i q c E Hc) as [-> | ->], (Hcs i' q' c' E' Hc') as [-> | ->].
  - intros i q c E Hc _. assert (∃ k, (k = 1 ∨ k = 3) ∧ qs_setup q = ex_setup k ∧ qs_predicates q = []) as (k & Hk & Es & Ep).
    { destruct (Hqs i q E) as [-> | [-> | ->]]; [exists 1|exists 3|by apply not_elem_of_nil in Hc]; auto. }
    assert (∃ l, ex_leaves (lc_page c) (lc_pages c) = Some l ∧ (l = w_leaf ∨ l = ex_leaf2)) as (l & El & Hl).
    { destruct (Hcs i q c E Hc) as [-> | ->]; eexists; (split; [reflexivity|]); auto. }
    exists l. split_and!; [done|rewrite Es; by apply ex_leaf_scans| |].
    { intros _. by apply ex_leaf_columns. }
    intros e He. unfold harvest_of, query_columns. rewrite Ep. unfold mret, res_ret. rewrite bind_Ok. unfold harvest_entry.
    assert (scan_lanes (qs_setup q) l = 32) as Elanes by (destruct Hl as [-> | ->]; by vm_compute).
    rewrite Elanes in He. destruct (ex_leaf_rows l (local_idx e) Hl He) as [r ->]. rewrite bind_Ok, Ep. by eexists.
Qed.

Lemma ex_batch_ok : @batch_ok _ _ _ w_hash w_libm w_schema1 ex_config ex_leaves ex_qs.
Proof. apply ex_queries_ok. intros [|[|[|i]]] q E; [left|right; left|right; right|done]; by injection E. Qed.

(** Distances given as integers are comparable. *)
Lemma ints_comparable l : (∃ ds : list (Z * Z), l = (λ d, mkCandidate d.1 (float_of_u32 d.2)) <$> ds ∧ Forall (λ d, d.2 ∈ [6; 16; 18; 30; 42]) ds) →
  no_nan l ∧ one_zero l.
Proof.
  intros (ds & -> & Hds). rewrite Forall_forall in Hds. assert (∀ c, c ∈ (λ d, mkCandidate d.1 (float_of_u32 d.2)) <$> ds →
    dist c ∈ float_of_u32 <$> [6; 16; 18; 30; 42]) as Hd.
  { intros c (d & -> & Hin)%list_elem_of_fmap. cbn [dist]. apply list_elem_of_fmap_2. by apply Hds. }
  split.
  - intros c Hc. apply Hd in Hc. cbn [fmap list_fmap] in Hc. rewrite !elem_of_cons in Hc.
    destruct Hc as [->|[->|[->|[->|[->|[]%not_elem_of_nil]]]]]; by vm_compute.
  - intros x y Hx Hy. apply Hd in Hx, Hy. cbn [fmap list_fmap] in Hx, Hy. rewrite !elem_of_cons in Hx, Hy.
    destruct Hx as [->|[->|[->|[->|[->|[]%not_elem_of_nil]]]]], Hy as [->|[->|[->|[->|[->|[]%not_elem_of_nil]]]]]; vm_compute; congruence.
Qed.

Lemma ex_query_scores q : q = ex_query 1 [7; 3] ∨ q = ex_query 3 [3] → @scores_ok _ _ _ w_hash w_libm w_schema1 ex_config ex_leaves q.
Proof.
  intros Hq. apply ints_comparable. destruct Hq as [-> | ->].
  - exists [(15, 6); (16, 42); (17, 16); (5, 6); (6, 42); (7, 16)]. split; [by vm_compute|]. apply (bool_decide_unpack _). by vm_compute.
  - exists [(5, 18); (6, 30); (7, 16)]. split; [by vm_compute|]. apply (bool_decide_unpack _). by vm_compute.
Qed.

Lemma ex_scores i q : ex_qs !! i = Some q → qs_fallback q = false → @scores_ok _ _ _ w_hash w_libm w_schema1 ex_config ex_leaves q.
Proof. intros E Hf. destruct i as [|[|[|i]]]; [| | |done]; injection E as <-; [apply ex_query_scores; auto..|done]. Qed.

Abbreviation ex_searchable := (@searchable _ _ _ w_hash w_libm w_schema1 ex_config ex_leaves 24 [] ex_decode_rerank).

Lemma ex_query_searchable k q : q = ex_query 1 [7; 3] ∨ q = ex_query 3 [3] → ex_searchable k q.
Proof.
  intros Hq. assert (qs_fallback q = false) as Ef by (by destruct Hq as [-> | ->]). unfold searchable. rewrite Ef. split.
  - apply ex_queries_ok. intros i q' E%list_elem_of_lookup_2%list_elem_of_singleton. subst q'. tauto.
  - by apply ex_query_scores.
Qed.

(** The third query's rows: its predicate asks for rows whose column is 99, and the rows
    it gets have 30, 10 and 20 there. *)
Lemma batch_is_search_witness :
  ∃ out, @search_batch _ _ w_hash w_libm w_schema1 ex_config false ex_leaves 24 [] ex_decode_rerank 1 ex_order ex_qs ex_base 3 [[]; [0%nat]] = Ok out ∧
    map row_id <$> out !! 0%nat = Some [15; 5; 17] ∧ map row_id <$> out !! 1%nat = Some [7; 5; 6] ∧ map row_id <$> out !! 2%nat = Some [7; 5; 6].
Proof.
  destruct (@batch_is_search _ _ _ w_hash w_libm w_schema1 ex_config false ex_leaves 24 [] ex_decode_rerank 1 ex_order
    (λ q, Permutation_refl _) ex_qs ex_base ex_batch_ok ex_scores 3) as (uls & Eu & Hall).
  - lia.
  - by right.
  - intros [|[|[|i]]] q E Hf; [| | |done]; injection E as <-; [done|done|]. exists (ex_query 3 [3]). split; [done|]. apply ex_query_searchable. auto.
  - assert (Ok uls = Ok [mkUniqueLeaf 3 1 0; mkUniqueLeaf 7 1 2]) as [= ->] by (rewrite <- Eu; by vm_compute).
    destruct (Hall [[]; [0%nat]]) as (out & E & _ & Hans); [by vm_compute|].
    exists out. split; [exact E|].
    destruct (Hans 0%nat _ eq_refl) as (r0 & E0 & H0). specialize (H0 2 [1; 0] ltac:(by constructor)).
    destruct (Hans 1%nat _ eq_refl) as (r1 & E1 & H1). specialize (H1 1 [0] ltac:(done)).
    destruct (Hans 2%nat _ eq_refl) as (r2 & E2 & b & [= <-] & H2). specialize (H2 1 [0] ltac:(done)).
    rewrite E0, E1, E2. split_and!.
    + change (match Ok r0 with Ok r => Some (map row_id r) | Err _ => None end = Some [15; 5; 17]). rewrite <- H0. by vm_compute.
    + change (match Ok r1 with Ok r => Some (map row_id r) | Err _ => None end = Some [7; 5; 6]). rewrite <- H1. by vm_compute.
    + change (match Ok r2 with Ok r => Some (map row_id r) | Err _ => None end = Some [7; 5; 6]). rewrite <- H2. by vm_compute.
Defined.

(** The verdicts of the fallen-back query's predicate on the rows of a leaf. *)
Definition ex_verdicts (c : LeafCandidate) : res (list bool) :=
  leaf ← candidate_leaf ex_leaves c; cols ← @leaf_columns _ _ w_schema1 leaf;
  mapM (@row_passes _ w_hash w_libm ex_gave_up cols) [0; 1; 2].

(** What the fallback should have returned, and does not: its own predicate leaves no
    row of any leaf. *)
Lemma fallback_ignores_predicates :
  (∃ out, @search_batch _ _ w_hash w_libm w_schema1 ex_config false ex_leaves 24 [] ex_decode_rerank 1 ex_order ex_qs ex_base 3 [[0%nat]] = Ok out ∧
    map row_id <$> out !! 2%nat = Some [7; 5; 6]) ∧
  Forall (λ c, ex_verdicts c = Ok [false; false; false]) [mkLeafCandidate 3 1; mkLeafCandidate 7 1].
Proof.
  split; [eexists; split; by vm_compute|]. repeat constructor; by vm_compute.
Qed.
