(* ===== verification/BatchScheduler.v ===== *)
(** * BatchScheduler: windows of queries, swept together
    ([src/tree/batch_scheduler.hpp], [src/tree/batch_scheduler.cpp])

    Callers submit queries and get futures; a sweeper thread closes windows of the
    queue and each window is swept by one [search_batch] on a thread of its own.  One
    definition per critical section of the mutex; the threads and their program
    counters are the [World], and the [Inductive]s [work] and [env] interleave them.
    Times are nanoseconds of the steady clock; a section that reads the clock more
    than once takes its readings from a monotone sequence. *)
From stdpp Require Import sorting.
From S2P Require Import Prelude Doubles Schema TopW CutTopk.

(** ** Data *)

Record Config := mkConfig {
  window_max_us : Z;
  idle_close_us : Z;
  config_max_window_queries : Z;
  result_cache_entries : Z;
  search_threads : Z;
  max_inflight_windows : Z;
}.

Record Stats := mkStats {
  windows : Z; queries : Z; cache_hits : Z; sweep_ns : Z; peak_inflight : Z; delay_ns : list Z;
}.

(** A promise is known by the number of its [submit] call. *)
Record Entry := mkEntry {
  e_id : Z;
  e_query : list float;
  e_k : Z;
  e_predicates : list Predicate;
  e_probe_fraction : float;
  e_submitted : Z;
  e_deadline : Z;
}.

Record CacheEntry := mkCacheEntry {
  ce_query : list float;
  ce_k : Z;
  ce_predicates : list Predicate;
  ce_probe_fraction : float;
  ce_results : list Candidate;
}.

(** What the mutex protects. *)
Record Sched := mkSched {
  queue_ : list Entry;
  stopped_ : bool;
  inflight_ : Z;
  cache_ : list CacheEntry;
  stats_ : Stats;
}.

Definition set_queue (q : list Entry) (s : Sched) : Sched := mkSched q (stopped_ s) (inflight_ s) (cache_ s) (stats_ s).
Definition set_inflight (n : Z) (s : Sched) : Sched := mkSched (queue_ s) (stopped_ s) n (cache_ s) (stats_ s).
Definition set_cache (c : list CacheEntry) (s : Sched) : Sched := mkSched (queue_ s) (stopped_ s) (inflight_ s) c (stats_ s).
Definition set_stats (st : Stats) (s : Sched) : Sched := mkSched (queue_ s) (stopped_ s) (inflight_ s) (cache_ s) st.

Definition no_stats : Stats := mkStats 0 0 0 0 0 [].
Definition fresh_sched : Sched := mkSched [] false 0 [] no_stats.

(** What the scheduler asks of the index: a query vector has [index_dim] floats, and
    [search_batch queries nq k threads predicates fractions].  An index can serve some
    numbers of neighbours only (its shortlists have to be addressable): [index_max_k] is
    the largest its users ask for. *)
Class BatchIndex := {
  index_dim : nat;
  index_max_k : Z;
  index_search_batch : list float → Z → Z → Z → option (list (list Predicate)) → option (list float) → res (list (list Candidate));
}.

(** And what the index promises: one row per query, the answer to that query alone.
    An empty predicate list and a fraction that is not positive stand for the base
    configuration's. *)
Definition preds_at (ps : option (list (list Predicate))) (i : nat) : list Predicate := default [] (ps ≫= (.!! i)).
Definition frac_at (fs : option (list float)) (i : nat) : float := default (S754_zero false) (fs ≫= (.!! i)).
Definition pos_fraction (f : float) : float := if SFltb (S754_zero false) f then f else S754_zero false.

Definition k_ok `{BatchIndex} (k : Z) : Prop := 1 ≤ k < 2 ^ 32 ∧ k ≤ index_max_k.

Class BatchIndexLaws `{BatchIndex} (answer : list float → list Predicate → float → Z → list Candidate) : Prop :=
  index_search_batch_ok qs rest k threads ps fs :
    Forall (λ q, length q = index_dim) qs → 0 ≤ k < 2 ^ 32 → (qs ≠ [] → k_ok k) → Z.of_nat (length qs) < 2 ^ 32 →
    (∀ l, ps = Some l → (length qs ≤ length l)%nat) →
    (∀ l, fs = Some l → (length qs ≤ length l)%nat ∧ Forall (λ f, is_nan f = false) l) →
    ∃ rows, index_search_batch (concat qs ++ rest) (Z.of_nat (length qs)) k threads ps fs = Ok rows ∧
      length rows = length qs ∧
      ∀ i q, qs !! i = Some q → rows !! i = Some (answer q (preds_at ps i) (pos_fraction (frac_at fs i)) k).

(** ** Equality of cache keys *)

Definition predicate_equal (x y : Predicate) : bool :=
  bool_decide (column x = column y) && bool_decide (op x = op y) &&
  bool_decide (geo_lng_column x = geo_lng_column y) &&
  SFeqb (value x) (value y) && SFeqb (value2 x) (value2 y) && SFeqb (value3 x) (value3 y) && SFeqb (value4 x) (value4 y) &&
  SFeqb (radius_km x) (radius_km y) && bool_decide (values x = values y).

Definition predicates_equal (a b : list Predicate) : bool :=
  if negb (length a =? length b)%nat then false else forallb (λ xy, predicate_equal xy.1 xy.2) (zip a b).

Definition floats_equal (a b : list float) : bool :=
  (length a =? length b)%nat && forallb (λ xy, SFeqb xy.1 xy.2) (zip a b).

Definition cache_matches (e : Entry) (c : CacheEntry) : bool :=
  (ce_k c =? e_k e) && predicates_equal (ce_predicates c) (e_predicates e) &&
  SFeqb (ce_probe_fraction c) (e_probe_fraction e) && floats_equal (ce_query c) (e_query e).

(** ** Times *)

Definition i64 (x : Z) : Z := let r := u64 x in if r <? 2 ^ 63 then r else r - 2 ^ 64.

(** Signed arithmetic on the clock's representation. *)
Definition time_check (x : Z) : res Z := if (- 2 ^ 63 <=? x) && (x <? 2 ^ 63) then Ok x else Err UndefinedBehaviour.

(** The readings of the clock one section makes, in order, between two instants. *)
Definition readings (from to : Z) (clock : nat → Z) : Prop :=
  from ≤ clock 0%nat ∧ (∀ i j, (i ≤ j)%nat → clock i ≤ clock j) ∧ ∀ i, clock i ≤ to.
Definition later (clock : nat → Z) (i : nat) : Z := clock (S i).

Section scheduler.
Context `{BatchIndex} (config_ : Config) (search_config_ : CutConfig).

(** *** The constructor's derived constants *)

Definition window_max_ns_ : Z := if 0 <? window_max_us config_ then u64 (window_max_us config_ * 1000) else 100000000.
Definition max_window_queries_ : Z := if 0 <? config_max_window_queries config_ then config_max_window_queries config_ else 4096.
Definition max_inflight_ : Z := Z.max 1 (max_inflight_windows config_).

(** ** [submit] *)

Definition make_entry (id now : Z) (query : list float) (k : Z) (predicates : list Predicate) (max_delay_us : Z)
    (probe_fraction : float) : res Entry :=
  let delay_ns := if 0 <? max_delay_us then u64 (max_delay_us * 1000) else window_max_ns_ in
  deadline ← time_check (now + i64 delay_ns);
  mret (mkEntry id query k predicates probe_fraction now deadline).

(** The first section: a hit is copied, counted and moved to the front. *)
Definition submit_lookup (e : Entry) (s : Sched) : option (list Candidate) * Sched :=
  if 0 <? result_cache_entries config_ then
    match list_find (λ c, cache_matches e c = true) (cache_ s) with
    | Some (i, c) =>
        let st := stats_ s in
        (Some (ce_results c),
         set_cache (c :: take i (cache_ s) ++ drop (S i) (cache_ s))
           (set_stats (mkStats (windows st) (u64 (queries st + 1)) (u64 (cache_hits st + 1)) (sweep_ns st) (peak_inflight st) (delay_ns st)) s))
    | None => (None, s)
    end
  else (None, s).

Fixpoint deadline_insert (e : Entry) (q : list Entry) : list Entry :=
  match q with
  | [] => [e]
  | x :: q' => if e_deadline x <=? e_deadline e then x :: deadline_insert e q' else e :: q
  end.

(** The second: nothing is queued once the scheduler has stopped. *)
Definition submit_insert (e : Entry) (s : Sched) : option Sched :=
  if stopped_ s then None else Some (set_queue (deadline_insert e (queue_ s)) s).

(** ** [stats] *)

Definition stats (s : Sched) : Stats * Sched :=
  let st := stats_ s in
  (mkStats (windows st) (queries st) (cache_hits st) (sweep_ns st) (peak_inflight st) (std_sort Z.ltb (delay_ns st)), set_stats no_stats s).

(** ** [sweeper_loop_] *)

(** What a sleeping sweeper waits for. *)
Inductive Why := Arrival | Slot | Until (t : Z).

Inductive Sweeper :=
  | Evaluate                            (* about to take the mutex, at the top of the loop *)
  | Waiting (why : Why) (woken : bool)  (* in a wait of the condition variable *)
  | Launch (window : list Entry)        (* past [lk.unlock()] *)
  | Reap (i : nat)                      (* in the loop over [futs_] *)
  | Returned
  | Terminated.                         (* an exception left the thread: [std::terminate] *)

Fixpoint take_due (clock : nat → Z) (q : list Entry) : list Entry * list Entry :=
  match q with
  | [] => ([], [])
  | e :: q' => if e_deadline e <=? clock 0%nat then let '(w, rest) := take_due (later clock) q' in (e :: w, rest) else ([], q)
  end.

Definition close_window (clock : nat → Z) (s : Sched) : res (Sweeper * Sched) :=
  match queue_ s with
  | [] => Err UndefinedBehaviour
  | front :: _ =>
      let '(window, rest) := if e_deadline front <=? clock 0%nat then take_due (later clock) (queue_ s) else (queue_ s, []) in
      let n := u32 (inflight_ s + 1) in
      let st := stats_ s in
      mret (Launch window,
        set_stats (mkStats (windows st) (queries st) (cache_hits st) (sweep_ns st) (Z.max (peak_inflight st) n) (delay_ns st))
          (set_inflight n (set_queue rest s)))
  end.

Definition sleep_until (now deadline : Z) : res Z :=
  if 0 <? idle_close_us config_ then
    idle ← time_check (i64 (idle_close_us config_) * 1000);
    t ← time_check (now + idle);
    mret (Z.min deadline t)
  else mret deadline.

(** One pass of the loop, from the mutex to the next wait or unlock. *)
Definition evaluate (clock : nat → Z) (s : Sched) : res (Sweeper * Sched) :=
  match queue_ s with
  | [] => mret (if stopped_ s then Returned else Waiting Arrival false, s)
  | front :: _ =>
      if negb (stopped_ s) && (max_inflight_ <=? inflight_ s) then mret (Waiting Slot false, s)
      else if stopped_ s || (max_window_queries_ <=? Z.of_nat (length (queue_ s))) then close_window clock s
      else if e_deadline front <=? clock 0%nat then close_window (later clock) s
      else t ← sleep_until (clock 0%nat) (e_deadline front); mret (Waiting (Until t) false, s)
  end.

(** A woken wait looks at its condition and sleeps again or goes on. *)
Definition resume (clock : nat → Z) (why : Why) (s : Sched) : res (Sweeper * Sched) :=
  match why with
  | Arrival => if bool_decide (queue_ s ≠ []) || stopped_ s then evaluate clock s else mret (Waiting Arrival false, s)
  | Slot => if (inflight_ s <? max_inflight_) || stopped_ s then evaluate clock s else mret (Waiting Slot false, s)
  | Until _ => evaluate clock s
  end.

Definition notify (pc : Sweeper) : Sweeper := match pc with Waiting why _ => Waiting why true | _ => pc end.

(** ** [dispatch_] *)

Definition window_k (w : list Entry) : Z := foldl (λ k e, Z.max k (e_k e)) 0 w.
Definition window_preds (w : list Entry) : option (list (list Predicate)) :=
  if existsb (λ e, bool_decide (e_predicates e ≠ [])) w then Some (e_predicates <$> w) else None.
Definition window_fracs (w : list Entry) : option (list float) :=
  if existsb (λ e, SFltb (S754_zero false) (e_probe_fraction e)) w then Some (e_probe_fraction <$> w) else None.

Definition window_nq (w : list Entry) : Z := u32 (Z.of_nat (length w)).

Definition dispatch_sweep (w : list Entry) : res (list (list Candidate)) :=
  index_search_batch (concat (e_query <$> w)) (window_nq w) (window_k w) (search_threads config_) (window_preds w) (window_fracs w).

Definition adaptive : bool := SFltb (S754_zero false) (adaptive_w_gap search_config_).

Definition kMaxDelaySamples : Z := 2 ^ 20.

Definition count_delay (t0 : Z) (e : Entry) (s : Sched) : Sched :=
  let st := stats_ s in
  if Z.of_nat (length (delay_ns st)) <? kMaxDelaySamples then
    set_stats (mkStats (windows st) (queries st) (cache_hits st) (sweep_ns st) (peak_inflight st) (delay_ns st ++ [u64 (t0 - e_submitted e)])) s
  else s.

Definition cut_to (k : Z) (r : list Candidate) : list Candidate := if k <? Z.of_nat (length r) then take (Z.to_nat k) r else r.

(** [pop_back] of a deque: its last element goes. *)
Definition cache_insert (e : Entry) (r : list Candidate) (s : Sched) : Sched :=
  if 0 <? result_cache_entries config_ then
    let c := if result_cache_entries config_ <=? Z.of_nat (length (cache_ s)) then take (length (cache_ s) - 1) (cache_ s) else cache_ s in
    set_cache (mkCacheEntry (e_query e) (e_k e) (e_predicates e) (e_probe_fraction e) (cut_to (e_k e) r) :: c) s
  else s.

Definition own_answer (e : Entry) (r : list Candidate) : list Candidate := if adaptive then r else cut_to (e_k e) r.

Fixpoint deliver_each (t0 : Z) (w : list Entry) (rows : list (list Candidate)) (s : Sched) : res (Sched * list (Entry * list Candidate)) :=
  match w, rows with
  | [], _ => mret (s, [])
  | e :: _, [] => Err UndefinedBehaviour
  | e :: w', r :: rows' =>
      '(s', answers) ← deliver_each t0 w' rows' (cache_insert e r (count_delay t0 e s));
      mret (s', (e, own_answer e r) :: answers)
  end.

(** The section after the sweep, for the first [nq] entries. *)
Definition deliver (t0 t1 : Z) (w : list Entry) (rows : list (list Candidate)) (s : Sched) : res (Sched * list (Entry * list Candidate)) :=
  let st := stats_ s in
  let st' := mkStats (u64 (windows st + 1)) (u64 (queries st + window_nq w)) (cache_hits st) (u64 (sweep_ns st + u64 (t1 - t0)))
               (peak_inflight st) (delay_ns st) in
  deliver_each t0 (take (Z.to_nat (window_nq w)) w) rows (set_stats st' s).

(** ** The threads *)

(** A call of [submit] between its sections. *)
Inductive Submit := SLookup (e : Entry) | SInsert (e : Entry) | SNotify.

(** The state of a future of [futs_] and of the thread behind it. *)
Inductive Task :=
  | TLaunched (w : list Entry)
  | TSweeping (w : list Entry) (t0 : Z)
  | TDelivered                       (* about to decrement [inflight_] *)
  | TNotify
  | TDone
  | TFailed.                         (* holds an exception *)

(** The thread in [stop]. *)
Inductive Stopper := StopIdle | StopNotify | StopJoin | StopDrain (i : nat) | StopReturned | StopThrew.

Inductive Outcome := Answered (r : list Candidate) | Rejected | Broken.

Record World := mkWorld {
  w_sched : Sched;
  w_sweeper : Sweeper;
  w_submits : list Submit;
  w_futs : list Task;
  w_stopper : Stopper;
  w_now : Z;
  w_outcomes : list (Entry * Outcome);
  w_next : Z;
}.

Definition world0 (now : Z) : World := mkWorld fresh_sched Evaluate [] [] StopIdle now [] 0.

Definition with_outcome (o : Outcome) (es : list Entry) : list (Entry * Outcome) := (λ e, (e, o)) <$> es.
Definition answered (l : list (Entry * list Candidate)) : list (Entry * Outcome) := (λ p, (p.1, Answered p.2)) <$> l.

(** What the threads do by themselves, each constructor one critical section or one
    action outside the mutex. *)
Inductive work : World → World → Prop :=
  | work_hit s pc l1 e l2 fs sp now out n r s' :
      submit_lookup e s = (Some r, s') →
      work (mkWorld s pc (l1 ++ SLookup e :: l2) fs sp now out n) (mkWorld s' pc (l1 ++ l2) fs sp now ((e, Answered r) :: out) n)
  | work_miss s pc l1 e l2 fs sp now out n s' :
      submit_lookup e s = (None, s') →
      work (mkWorld s pc (l1 ++ SLookup e :: l2) fs sp now out n) (mkWorld s' pc (l1 ++ SInsert e :: l2) fs sp now out n)
  | work_insert s pc l1 e l2 fs sp now out n s' :
      submit_insert e s = Some s' →
      work (mkWorld s pc (l1 ++ SInsert e :: l2) fs sp now out n) (mkWorld s' pc (l1 ++ SNotify :: l2) fs sp now out n)
  | work_reject s pc l1 e l2 fs sp now out n :
      submit_insert e s = None →
      work (mkWorld s pc (l1 ++ SInsert e :: l2) fs sp now out n) (mkWorld s pc (l1 ++ l2) fs sp now ((e, Rejected) :: out) n)
  | work_submit_notify s pc l1 l2 fs sp now out n :
      work (mkWorld s pc (l1 ++ SNotify :: l2) fs sp now out n) (mkWorld s (notify pc) (l1 ++ l2) fs sp now out n)
  | work_evaluate s l fs sp now out n clock now' pc' s' :
      readings now now' clock → evaluate clock s = Ok (pc', s') →
      work (mkWorld s Evaluate l fs sp now out n) (mkWorld s' pc' l fs sp now' out n)
  | work_resume s why l fs sp now out n clock now' pc' s' :
      readings now now' clock → resume clock why s = Ok (pc', s') →
      work (mkWorld s (Waiting why true) l fs sp now out n) (mkWorld s' pc' l fs sp now' out n)
  | work_timeout s t b l fs sp now out n clock now' pc' s' :
      readings now now' clock → t ≤ clock 0%nat → close_window (later clock) s = Ok (pc', s') →
      work (mkWorld s (Waiting (Until t) b) l fs sp now out n) (mkWorld s' pc' l fs sp now' out n)
  | work_launch s w l fs sp now out n :
      work (mkWorld s (Launch w) l fs sp now out n) (mkWorld s (Reap 0) l (fs ++ [TLaunched w]) sp now out n)
  | work_reap s i l fs sp now out n :
      fs !! i = Some TDone →
      work (mkWorld s (Reap i) l fs sp now out n) (mkWorld s (Reap i) l (delete i fs) sp now out n)
  | work_reap_throws s i l fs sp now out n :
      fs !! i = Some TFailed →
      work (mkWorld s (Reap i) l fs sp now out n) (mkWorld s Terminated l fs sp now out n)
  | work_skip s i l fs sp now out n t :
      fs !! i = Some t → t ≠ TDone → t ≠ TFailed →
      work (mkWorld s (Reap i) l fs sp now out n) (mkWorld s (Reap (S i)) l fs sp now out n)
  | work_reaped s i l fs sp now out n :
      (length fs ≤ i)%nat →
      work (mkWorld s (Reap i) l fs sp now out n) (mkWorld s Evaluate l fs sp now out n)
  | work_start s pc l f1 w f2 sp now out n t0 :
      now ≤ t0 →
      work (mkWorld s pc l (f1 ++ TLaunched w :: f2) sp now out n) (mkWorld s pc l (f1 ++ TSweeping w t0 :: f2) sp t0 out n)
  | work_deliver s pc l f1 w t0 f2 sp now out n t1 now' rows s' answers :
      t0 ≤ t1 ≤ now' → now ≤ now' →
      dispatch_sweep w = Ok rows → deliver t0 t1 w rows s = Ok (s', answers) →
      work (mkWorld s pc l (f1 ++ TSweeping w t0 :: f2) sp now out n)
        (mkWorld s' pc l (f1 ++ TDelivered :: f2) sp now'
           (answered answers ++ with_outcome Broken (drop (Z.to_nat (window_nq w)) w) ++ out) n)
  | work_decrement s pc l f1 f2 sp now out n :
      work (mkWorld s pc l (f1 ++ TDelivered :: f2) sp now out n)
        (mkWorld (set_inflight (u32 (inflight_ s - 1)) s) pc l (f1 ++ TNotify :: f2) sp now out n)
  | work_task_notify s pc l f1 f2 sp now out n :
      work (mkWorld s pc l (f1 ++ TNotify :: f2) sp now out n) (mkWorld s (notify pc) l (f1 ++ TDone :: f2) sp now out n)
  | work_stop_notify s pc l fs now out n :
      work (mkWorld s pc l fs StopNotify now out n) (mkWorld s (notify pc) l fs StopJoin now out n)
  | work_join s l fs now out n :
      work (mkWorld s Returned l fs StopJoin now out n) (mkWorld s Returned l fs (StopDrain 0) now out n)
  | work_get s pc l fs i now out n :
      fs !! i = Some TDone →
      work (mkWorld s pc l fs (StopDrain i) now out n) (mkWorld s pc l fs (StopDrain (S i)) now out n)
  | work_get_throws s pc l fs i now out n :
      fs !! i = Some TFailed →
      work (mkWorld s pc l fs (StopDrain i) now out n) (mkWorld s pc l fs StopThrew now out n)
  | work_clear s pc l fs i now out n :
      (length fs ≤ i)%nat →
      work (mkWorld s pc l fs (StopDrain i) now out n) (mkWorld s pc l [] StopReturned now out n).

(** What comes from outside: calls, spurious wake-ups, a sweep that throws. *)
Inductive env : World → World → Prop :=
  | env_submit s pc l fs sp now out n t e now' query k predicates max_delay_us fraction :
      now ≤ t ≤ now' → length query = index_dim → k_ok k → is_nan fraction = false →
      make_entry n t query k predicates max_delay_us fraction = Ok e →
      env (mkWorld s pc l fs sp now out n) (mkWorld s pc (l ++ [SLookup e]) fs sp now' out (n + 1))
  | env_stop s pc l fs sp now out n :
      sp = StopIdle ∨ sp = StopReturned →
      env (mkWorld s pc l fs sp now out n)
        (mkWorld (mkSched (queue_ s) true (inflight_ s) (cache_ s) (stats_ s)) pc l fs StopNotify now out n)
  | env_stats s pc l fs sp now out n st s' :
      stats s = (st, s') → env (mkWorld s pc l fs sp now out n) (mkWorld s' pc l fs sp now out n)
  | env_spurious s why l fs sp now out n :
      env (mkWorld s (Waiting why false) l fs sp now out n) (mkWorld s (Waiting why true) l fs sp now out n)
  | env_sweep_throws s pc l f1 w t0 f2 sp now out n :
      env (mkWorld s pc l (f1 ++ TSweeping w t0 :: f2) sp now out n)
        (mkWorld s pc l (f1 ++ TFailed :: f2) sp now (with_outcome Broken w ++ out) n).

Inductive step (w w' : World) : Prop :=
  | step_work : w_sweeper w ≠ Terminated → work w w' → step w w'
  | step_env : w_sweeper w ≠ Terminated → env w w' → step w w'.

Definition reachable (w : World) : Prop := ∃ now, rtc step (world0 now) w.
End scheduler.
