(* ===== verification/SchedulerInv.v ===== *)
(** * SchedulerInv: the invariant of the batch scheduler

    What the critical sections do, and the invariant every interleaving of the
    threads keeps: the queue is sorted by deadline, every submitted query is in
    exactly one place, [inflight_] counts the windows in flight and the sweeps that have
    thrown and is bounded, and no wake-up is lost while no sweep has thrown. *)
From stdpp Require Import sorting.
From S2P Require Import Prelude Doubles Schema TopW CutTopk BatchScheduler.

(** ** Counting the occurrences of a number *)

Definition cnt (x : Z) (l : list Z) : nat := length (filter (λ y, y = x) l).
Definition one (x y : Z) : nat := if decide (y = x) then 1 else 0.

Lemma cnt_cons x y l : cnt x (y :: l) = (one x y + cnt x l)%nat.
Proof. unfold cnt, one. rewrite filter_cons. by destruct (decide (y = x)). Qed.

Lemma cnt_nil x : cnt x [] = 0%nat.
Proof. done. Qed.

Lemma cnt_app x l l' : cnt x (l ++ l') = (cnt x l + cnt x l')%nat.
Proof. unfold cnt. by rewrite filter_app, length_app. Qed.

Lemma cnt_perm l l' : (∀ x, cnt x l = cnt x l') → l ≡ₚ l'.
Proof.
  revert l'. induction l as [|y l IH]; intros l' Hc.
  - destruct l' as [|y l']; [done|]. specialize (Hc y). rewrite cnt_cons in Hc. unfold one in Hc. by rewrite decide_True in Hc.
  - assert (y ∈ l') as (l1 & l2 & ->)%list_elem_of_split.
    { specialize (Hc y). rewrite cnt_cons in Hc. unfold one in Hc. rewrite decide_True in Hc by done. unfold cnt in Hc.
      destruct (filter (λ z, z = y) l') as [|z t] eqn:E; [done|]. assert (z ∈ filter (λ z, z = y) l') as [-> Hz]%list_elem_of_filter by (rewrite E; left).
      done. }
    rewrite <- Permutation_middle. f_equiv. apply IH. intros x. specialize (Hc x). rewrite cnt_app, !cnt_cons in Hc. rewrite cnt_app. lia.
Qed.

Lemma perm_cnt l l' x : l ≡ₚ l' → cnt x l = cnt x l'.
Proof. intros HP. unfold cnt. by rewrite HP. Qed.

(** ** The sections *)

Section sections.
Context `{BatchIndex} (config_ : Config) (search_config_ : CutConfig).

Definition due_before (a b : Entry) : Prop := e_deadline a ≤ e_deadline b.
Abbreviation sorted := (StronglySorted due_before).

Lemma deadline_insert_split e q :
  ∃ q1 q2, q = q1 ++ q2 ∧ deadline_insert e q = q1 ++ e :: q2 ∧ Forall (λ x, e_deadline x ≤ e_deadline e) q1 ∧
    ∀ y, head q2 = Some y → e_deadline e < e_deadline y.
Proof.
  induction q as [|x q (q1 & q2 & -> & E & H1 & H2)]; cbn [deadline_insert].
  - by exists [], [].
  - destruct (Z.leb_spec (e_deadline x) (e_deadline e)).
    + exists (x :: q1), q2. rewrite E. split_and!; [done|done|by constructor|done].
    + exists [], (x :: q1 ++ q2). split_and!; [done|done|done|]. intros y [= <-]. done.
Qed.

Lemma deadline_insert_perm e q : deadline_insert e q ≡ₚ e :: q.
Proof. destruct (deadline_insert_split e q) as (q1 & q2 & -> & -> & _). by rewrite Permutation_middle. Qed.

Lemma deadline_insert_sorted e q : sorted q → sorted (deadline_insert e q).
Proof.
  induction 1 as [|x q Hq IH Hx]; cbn [deadline_insert]; [by repeat constructor|].
  destruct (Z.leb_spec (e_deadline x) (e_deadline e)).
  - constructor; [done|]. rewrite deadline_insert_perm. constructor; [done|done].
  - constructor; [by constructor|]. constructor; [unfold due_before; lia|]. eapply Forall_impl; [exact Hx|]. unfold due_before. intros; lia.
Qed.

Lemma take_due_split clock q w rest : take_due clock q = (w, rest) → q = w ++ rest.
Proof.
  revert clock w rest. induction q as [|e q IH]; intros clock w rest; cbn [take_due]; [by intros [= <- <-]|].
  destruct (e_deadline e <=? clock 0%nat); [|by intros [= <- <-]].
  destruct (take_due (later clock) q) as [w' r'] eqn:E. intros [= <- <-]. cbn [app]. f_equal. by eapply IH.
Qed.

(** A split takes what is due: everything due at its first reading, nothing that is
    not due at its last. *)
Lemma take_due_due clock q w rest :
  sorted q → (∀ i j, (i ≤ j)%nat → clock i ≤ clock j) → take_due clock q = (w, rest) →
  Forall (λ e, ∃ i, e_deadline e ≤ clock i) w ∧ Forall (λ e, clock 0%nat < e_deadline e) rest.
Proof.
  intros Hq. revert clock w rest. induction Hq as [|e q Hq IH He]; intros clock w rest Hc; cbn [take_due]; [by intros [= <- <-]|].
  destruct (Z.leb_spec (e_deadline e) (clock 0%nat)).
  - destruct (take_due (later clock) q) as [w' r'] eqn:E. intros [= <- <-].
    destruct (IH (later clock) w' r') as [Hw Hr]; [intros i j ?; apply Hc; lia|done|]. split.
    + constructor; [by exists 0%nat|]. eapply Forall_impl; [exact Hw|]. intros x [i Hi]. by exists (S i).
    + eapply Forall_impl; [exact Hr|]. intros x Hx. cbn beta in Hx. pose proof (Hc 0%nat 1%nat ltac:(lia)). unfold later in Hx. lia.
  - intros [= <- <-]. split; [done|]. constructor; [done|]. eapply Forall_impl; [exact He|]. unfold due_before. intros; lia.
Qed.

(** What closing a window does to the state. *)
Record closed (s s' : Sched) (w rest : list Entry) : Prop := {
  cl_nonempty : w ≠ [];
  cl_queue : queue_ s = w ++ rest;
  cl_rest : queue_ s' = rest;
  cl_stopped : stopped_ s' = stopped_ s;
  cl_inflight : inflight_ s' = u32 (inflight_ s + 1);
  cl_cache : cache_ s' = cache_ s;
}.

Lemma close_window_closed clock s pc s' :
  (∀ i j, (i ≤ j)%nat → clock i ≤ clock j) → close_window clock s = Ok (pc, s') → ∃ w rest, pc = Launch w ∧ closed s s' w rest.
Proof.
  intros Hc. unfold close_window. destruct (queue_ s) as [|front q] eqn:Eq; [done|].
  destruct (Z.leb_spec (e_deadline front) (clock 0%nat)) as [Hf|Hf].
  - destruct (take_due (later clock) (front :: q)) as [w rest] eqn:Et. intros [= <- <-]. exists w, rest. split; [done|].
    split; try done.
    + cbn [take_due] in Et. destruct (Z.leb_spec (e_deadline front) (later clock 0%nat)) as [|Hl].
      * destruct (take_due _ q). by injection Et as <- _.
      * pose proof (Hc 0%nat 1%nat ltac:(lia)). unfold later in Hl. lia.
    + rewrite Eq. by apply take_due_split in Et.
  - intros [= <- <-]. exists (front :: q), []. split; [done|]. split; try done. by rewrite app_nil_r.
Qed.

Lemma close_window_due clock s front w s' :
  (∀ i j, (i ≤ j)%nat → clock i ≤ clock j) → close_window clock s = Ok (Launch w, s') → head (queue_ s) = Some front →
  clock 0%nat < e_deadline front ∧ queue_ s' = [] ∨
  e_deadline front ≤ clock 0%nat ∧ ∃ rest, take_due (later clock) (queue_ s) = (w, rest).
Proof.
  intros Hc. unfold close_window. destruct (queue_ s) as [|front' q] eqn:Eq; [done|]. intros E [= ->]. revert E.
  destruct (Z.leb_spec (e_deadline front) (clock 0%nat)); [|intros [= <- <-]; by left].
  destruct (take_due (later clock) (front :: q)) as [w' rest] eqn:Et. intros [= <- <-]. right. split; [done|]. by exists rest.
Qed.

Lemma close_window_ok clock s : queue_ s ≠ [] → ∃ r, close_window clock s = Ok r.
Proof.
  unfold close_window. destruct (queue_ s); [done|]. intros _. destruct (if _ <=? _ then _ else _). by eexists.
Qed.

(** Where a section of the sweeper can end. *)
Inductive section_end (s : Sched) : Sweeper → Sched → Prop :=
  | end_arrival : queue_ s = [] → stopped_ s = false → section_end s (Waiting Arrival false) s
  | end_return : queue_ s = [] → stopped_ s = true → section_end s Returned s
  | end_slot : stopped_ s = false → max_inflight_ config_ ≤ inflight_ s → section_end s (Waiting Slot false) s
  | end_until t front : stopped_ s = false → inflight_ s < max_inflight_ config_ → head (queue_ s) = Some front → t ≤ e_deadline front →
      Z.of_nat (length (queue_ s)) < max_window_queries_ config_ → section_end s (Waiting (Until t) false) s
  | end_close w rest s' : stopped_ s = true ∨ inflight_ s < max_inflight_ config_ → closed s s' w rest → section_end s (Launch w) s'.

Lemma sleep_until_le now d t : sleep_until config_ now d = Ok t → t ≤ d.
Proof.
  unfold sleep_until. destruct (0 <? idle_close_us config_); [|by intros [= ->]]. intros E. res_inv. lia.
Qed.

Lemma evaluate_end clock s pc s' :
  (∀ i j, (i ≤ j)%nat → clock i ≤ clock j) → evaluate config_ clock s = Ok (pc, s') → section_end s pc s'.
Proof.
  intros Hc. unfold evaluate. destruct (queue_ s) as [|front q] eqn:Eq.
  { destruct (stopped_ s) eqn:Es; intros [= <- <-]; by constructor. }
  destruct (negb (stopped_ s) && (max_inflight_ config_ <=? inflight_ s)) eqn:Eg.
  { apply andb_true_iff in Eg as [Hs%negb_true_iff Hg%Z.leb_le]. intros [= <- <-]. by constructor. }
  assert (stopped_ s = true ∨ inflight_ s < max_inflight_ config_) as Hg.
  { apply andb_false_iff in Eg as [?%negb_false_iff|?%Z.leb_gt]; auto. }
  assert (∀ c, (∀ i j, (i ≤ j)%nat → c i ≤ c j) → close_window c s = Ok (pc, s') → section_end s pc s') as Hclose.
  { intros c Hc' E. apply close_window_closed in E as (w & rest & -> & Hcl); [|done]. by eapply end_close. }
  destruct (stopped_ s || (max_window_queries_ config_ <=? Z.of_nat (length (front :: q)))) eqn:Ew; [by apply Hclose|].
  apply orb_false_iff in Ew as [Hs Hw%Z.leb_gt].
  destruct (Z.leb_spec (e_deadline front) (clock 0%nat)); [apply Hclose; intros i j ?; apply Hc; lia|].
  intros E. apply bind_Ok_inv in E as (t & Et%sleep_until_le & [= <- <-]).
  destruct Hg as [Hg|Hg]; [congruence|]. eapply end_until; try done; rewrite Eq; done.
Qed.

Lemma resume_end clock why s pc s' :
  (∀ i j, (i ≤ j)%nat → clock i ≤ clock j) → resume config_ clock why s = Ok (pc, s') → section_end s pc s'.
Proof.
  intros Hc. unfold resume. destruct why; [| |by apply evaluate_end].
  - destruct (bool_decide (queue_ s ≠ []) || stopped_ s) eqn:E; [by apply evaluate_end|].
    apply orb_false_iff in E as [Eq Es]. apply bool_decide_eq_false, dec_stable in Eq. intros [= <- <-]. by constructor.
  - destruct ((inflight_ s <? max_inflight_ config_) || stopped_ s) eqn:E; [by apply evaluate_end|].
    apply orb_false_iff in E as [Ei%Z.ltb_ge Es]. intros [= <- <-]. by constructor.
Qed.

Lemma submit_lookup_state e s r s' : submit_lookup config_ e s = (r, s') →
  queue_ s' = queue_ s ∧ stopped_ s' = stopped_ s ∧ inflight_ s' = inflight_ s ∧ cache_ s' ≡ₚ cache_ s ∧
  (r = None → s' = s) ∧ ∀ l, r = Some l → 0 < result_cache_entries config_ ∧ ∃ c, c ∈ cache_ s ∧ cache_matches e c = true ∧ l = ce_results c.
Proof.
  unfold submit_lookup. destruct (Z.ltb_spec 0 (result_cache_entries config_)) as [Hcap|_].
  2: { intros [= <- <-]. by split_and!. }
  destruct (list_find _ _) as [[i c]|] eqn:E; intros [= <- <-]; split_and!; try done.
  - apply list_find_Some in E as (Ei & _ & _). cbn [cache_ set_cache]. rewrite Permutation_middle. by rewrite take_drop_middle.
  - intros l [= <-]. split; [done|]. apply list_find_Some in E as (Ei & Em & _). exists c. split_and!; [by eapply list_elem_of_lookup_2|done|done].
Qed.

Lemma deliver_each_state t0 w rows s s' answers :
  deliver_each config_ search_config_ t0 w rows s = Ok (s', answers) →
  queue_ s' = queue_ s ∧ stopped_ s' = stopped_ s ∧ inflight_ s' = inflight_ s ∧ (answers.*1) = w.
Proof.
  revert rows s answers. induction w as [|e w IH]; intros rows s answers; cbn [deliver_each]; [by intros [= <- <-]|].
  destruct rows as [|r rows]; [done|]. intros E. apply bind_Ok_inv in E as ([s1 a1] & E1 & [= <- <-]).
  destruct (IH _ _ _ E1) as (Eq & Es & Ei & Ea). rewrite Eq, Es, Ei. cbn [fmap list_fmap fst]. rewrite Ea.
  unfold cache_insert, count_delay. destruct (0 <? _), (_ <? kMaxDelaySamples); by split_and!.
Qed.

Lemma deliver_state t0 t1 w rows s s' answers :
  deliver config_ search_config_ t0 t1 w rows s = Ok (s', answers) →
  queue_ s' = queue_ s ∧ stopped_ s' = stopped_ s ∧ inflight_ s' = inflight_ s ∧ (answers.*1) = take (Z.to_nat (window_nq w)) w.
Proof. unfold deliver. intros E. by apply deliver_each_state in E. Qed.
End sections.

(** ** The invariant of the world *)

Definition submit_entries (u : Submit) : list Entry := match u with SLookup e | SInsert e => [e] | SNotify => [] end.
Definition sweeper_entries (pc : Sweeper) : list Entry := match pc with Launch w => w | _ => [] end.
Definition task_entries (t : Task) : list Entry := match t with TLaunched w | TSweeping w _ => w | _ => [] end.

(** The queries nobody has answered yet, where they are. *)
Definition pending_entries (w : World) : list Entry :=
  flat_map submit_entries (w_submits w) ++ queue_ (w_sched w) ++ sweeper_entries (w_sweeper w) ++ flat_map task_entries (w_futs w).

Definition numbers (w : World) : list Z := (e_id <$> pending_entries w) ++ (e_id <$> (w_outcomes w).*1).

(** The windows in flight: launched, and their sweep neither taken off nor ended by an
    exception; and the sweeps an exception ended. *)
Definition task_busy (t : Task) : nat := match t with TLaunched _ | TSweeping _ _ | TDelivered => 1 | _ => 0 end.
Definition task_failed (t : Task) : nat := match t with TFailed => 1 | _ => 0 end.
Definition sweeper_busy (pc : Sweeper) : nat := match pc with Launch _ => 1 | _ => 0 end.
Definition busy (w : World) : nat := sweeper_busy (w_sweeper w) + sum_list_with task_busy (w_futs w).
Definition failed (w : World) : nat := sum_list_with task_failed (w_futs w).

(** What [inflight_] counts: both, since a sweep that throws is never taken off. *)
Definition task_slot (t : Task) : nat := match t with TLaunched _ | TSweeping _ _ | TDelivered | TFailed => 1 | _ => 0 end.
Definition slots_taken (w : World) : nat := sweeper_busy (w_sweeper w) + sum_list_with task_slot (w_futs w).

Lemma slots_taken_split w : slots_taken w = (busy w + failed w)%nat.
Proof.
  unfold slots_taken, busy, failed. enough (∀ fs, sum_list_with task_slot fs = sum_list_with task_busy fs + sum_list_with task_failed fs)%nat as -> by lia.
  induction fs as [|t fs IH]; [done|]. cbn [sum_list_with]. rewrite IH. destruct t; cbn; lia.
Qed.

(** A sweeper waiting for a deadline has a slot for its next window. *)
Definition slot_reserved (pc : Sweeper) : nat := match pc with Waiting (Until _) _ => 1 | _ => 0 end.

(** Somebody is about to notify. *)
Definition notify_pending (w : World) : Prop := SNotify ∈ w_submits w ∨ TNotify ∈ w_futs w ∨ w_stopper w = StopNotify.

Lemma flat_map_middle {A B} (f : A → list B) l1 x l2 : flat_map f (l1 ++ x :: l2) = flat_map f l1 ++ f x ++ flat_map f l2.
Proof. by rewrite flat_map_app. Qed.

Lemma flat_map_delete {A B} (f : A → list B) l i x : l !! i = Some x → f x = [] → flat_map f (delete i l) = flat_map f l.
Proof.
  intros (l1 & l2 & -> & ->)%list_elem_of_split_length Hx. rewrite delete_middle, flat_map_middle, Hx. apply flat_map_app.
Qed.

Lemma sum_list_delete {A} (f : A → nat) l i x : l !! i = Some x → f x = 0%nat → sum_list_with f (delete i l) = sum_list_with f l.
Proof.
  intros (l1 & l2 & -> & ->)%list_elem_of_split_length Hx. rewrite delete_middle, !sum_list_with_app. cbn. lia.
Qed.

(** Replacing an element that is not among the first [i]. *)
Lemma Forall_take_replace {A} (P : A → Prop) i l1 x y l2 :
  Forall P (take i (l1 ++ x :: l2)) → ¬ P x → Forall P (take i (l1 ++ y :: l2)).
Proof.
  intros HP Hx. rewrite take_app in *. apply Forall_app in HP as [H1 H2]. apply Forall_app. split; [done|].
  destruct (i - length l1)%nat; [done|]. cbn [take] in H2. by apply Forall_cons_1 in H2 as [? _].
Qed.

Section world.
Context `{BatchIndex} (config_ : Config) (search_config_ : CutConfig).
Abbreviation work := (work config_ search_config_).
Abbreviation env := (env config_).
Abbreviation step := (step config_ search_config_).

Definition entry_ok (e : Entry) : Prop :=
  length (e_query e) = index_dim ∧ k_ok (e_k e) ∧ is_nan (e_probe_fraction e) = false.

(** A sleeping sweeper has nothing to do, or is about to be notified. *)
Definition nothing_to_do (why : Why) (s : Sched) : Prop :=
  stopped_ s = false ∧
  match why with
  | Arrival => queue_ s = []
  | Slot => max_inflight_ config_ ≤ inflight_ s
  | Until t => (∃ front, head (queue_ s) = Some front ∧ t ≤ e_deadline front) ∧ Z.of_nat (length (queue_ s)) < max_window_queries_ config_
  end.

(** The same in terms of the world: a sweeper asleep for a slot has [max_inflight_]
    windows in flight, whose sweeps will notify. *)
Definition rightly_asleep (why : Why) (w : World) : Prop :=
  stopped_ (w_sched w) = false ∧
  match why with
  | Arrival => queue_ (w_sched w) = []
  | Slot => max_inflight_ config_ ≤ Z.of_nat (busy w)
  | Until t => (∃ front, head (queue_ (w_sched w)) = Some front ∧ t ≤ e_deadline front) ∧
      Z.of_nat (length (queue_ (w_sched w))) < max_window_queries_ config_
  end.

Definition wake_ok (w : World) : Prop :=
  ∀ why, w_sweeper w = Waiting why false → notify_pending w ∨ nothing_to_do why (w_sched w).

(** Where [stop] stands. *)
Definition stop_ok (w : World) : Prop :=
  (stopped_ (w_sched w) = false ↔ w_stopper w = StopIdle) ∧
  (w_sweeper w = Returned → stopped_ (w_sched w) = true ∧ queue_ (w_sched w) = []) ∧
  match w_stopper w with
  | StopDrain i => w_sweeper w = Returned ∧ Forall (λ t, t = TDone) (take i (w_futs w))
  | StopReturned => w_sweeper w = Returned ∧ w_futs w = []
  | _ => True
  end.

Record sched_inv (w : World) : Prop := {
  inv_next : 0 ≤ w_next w;
  inv_numbers : numbers w ≡ₚ seqZ 0 (w_next w);
  inv_sorted : StronglySorted due_before (queue_ (w_sched w));
  inv_inflight : inflight_ (w_sched w) = u32 (Z.of_nat (slots_taken w));
  inv_slots : stopped_ (w_sched w) = false → Z.of_nat (slots_taken w + slot_reserved (w_sweeper w)) ≤ max_inflight_ config_;
  inv_until t b : w_sweeper w = Waiting (Until t) b → queue_ (w_sched w) ≠ [];
  inv_entries : Forall entry_ok (pending_entries w);
  inv_cache : Z.of_nat (length (cache_ (w_sched w))) ≤ Z.max 0 (result_cache_entries config_);
  inv_stop : stop_ok w;
  inv_wake : wake_ok w;
}.
Context (Hcfg : max_inflight_windows config_ < 2 ^ 32).

(** *** Its parts, one step at a time *)

Lemma timeout_end s t b l fs sp now out n now' clock pc' s' :
  sched_inv (mkWorld s (Waiting (Until t) b) l fs sp now out n) → readings now now' clock →
  close_window (later clock) s = Ok (pc', s') → section_end config_ s pc' s'.
Proof.
  intros HI (_ & Hc & _) E. apply close_window_closed in E as (w & rest & -> & Hcl); [|intros i j ?; apply Hc; lia].
  eapply end_close; [|done]. destruct (stopped_ s) eqn:Es; [by left|right].
  pose proof (inv_slots _ HI Es) as Hb. pose proof (inv_inflight _ HI) as Hi. cbn [w_sweeper slot_reserved w_sched] in *.
  rewrite Hi. set (bz := slots_taken _) in *. unfold u32, max_inflight_ in *. rewrite Z.mod_small; lia.
Qed.

End world.

Arguments inv_next {H config_} w s.
Arguments inv_numbers {H config_} w s.
Arguments inv_sorted {H config_} w s.
Arguments inv_inflight {H config_} w s.
Arguments inv_slots {H config_} w s.
Arguments inv_entries {H config_} w s.
Arguments inv_cache {H config_} w s.
Arguments inv_stop {H config_} w s.
Arguments inv_wake {H config_} w s.
Arguments inv_until {H config_} w s t b.

(** *** Tactics for the steps *)

Ltac section_ends HI :=
  match goal with
  | Hr : readings _ _ _, E : evaluate _ _ _ = Ok _ |- _ => apply evaluate_end in E; [|apply Hr]
  | Hr : readings _ _ _, E : resume _ _ _ _ = Ok _ |- _ => apply resume_end in E; [|apply Hr]
  | Hr : readings _ _ _, E : close_window _ _ = Ok _ |- _ => eapply timeout_end in E; [|eassumption|exact HI|exact Hr]
  | _ => idtac
  end.

Lemma fst_answered l : (answered l).*1 = l.*1.
Proof. unfold answered. rewrite <- list_fmap_compose. by apply list_fmap_ext. Qed.

Lemma fst_with_outcome o es : (with_outcome o es).*1 = es.
Proof. unfold with_outcome. rewrite <- list_fmap_compose. apply list_fmap_id. Qed.

Ltac world_cbn := cbn [w_sched w_sweeper w_submits w_futs w_stopper w_now w_outcomes w_next] in *.

Ltac count_numbers :=
  unfold numbers, pending_entries; world_cbn;
  rewrite ?flat_map_app, ?flat_map_middle, ?fmap_app, ?fst_answered, ?fst_with_outcome; apply cnt_perm; intros x;
  cbn [flat_map submit_entries sweeper_entries task_entries app]; rewrite ?app_nil_r, ?fmap_app, ?cnt_app;
  cbn [fmap list_fmap fst e_id]; rewrite ?cnt_cons, ?cnt_app;
  repeat match goal with E : queue_ ?s' = _ |- context [queue_ ?s'] => rewrite E end; rewrite ?fmap_app, ?cnt_app, ?cnt_nil.

(** What the sections leave as it was. *)
Ltac sections :=
  try match goal with E : submit_lookup _ _ _ = _ |- _ => apply submit_lookup_state in E as (?Eq & ?Es & ?Ei & ?Ec & _) end;
  try match goal with E : deliver _ _ _ _ _ _ _ = _ |- _ => apply deliver_state in E as (?Eq & ?Es & ?Ei & _) end;
  try match goal with
  | E : submit_insert _ ?s = Some _ |- _ =>
      unfold submit_insert in E; let Hs := fresh "Hs" in destruct (stopped_ s) eqn:Hs; [discriminate E|injection E as <-]
  end;
  try match goal with E : stats _ = _ |- _ => unfold stats in E; injection E as _ <- end.

Ltac busy_cbn := unfold slots_taken in *; world_cbn; rewrite ?sum_list_with_app in *; cbn [sum_list_with task_slot sweeper_busy slot_reserved] in *.

Section steps.
Context `{BatchIndex} (config_ : Config) (search_config_ : CutConfig).
Abbreviation work := (work config_ search_config_).
Abbreviation env := (env config_).
Abbreviation step := (step config_ search_config_).
Abbreviation sched_inv := (sched_inv config_).
Abbreviation nothing_to_do := (nothing_to_do config_).
Abbreviation rightly_asleep := (rightly_asleep config_).
Abbreviation wake_ok := (wake_ok config_).
Context (Hcfg : max_inflight_windows config_ < 2 ^ 32).

(** Every query is in one place. *)
Lemma work_numbers w w' : sched_inv w → work w w' → numbers w' ≡ₚ numbers w ∧ w_next w' = w_next w.
Proof.
  intros HI Hw. destruct Hw; section_ends HI; (split; [|done]).
  - apply submit_lookup_state in H0 as (Eq & _). count_numbers. lia.
  - apply submit_lookup_state in H0 as (Eq & _). count_numbers. lia.
  - unfold submit_insert in H0. destruct (stopped_ s); [done|]. injection H0 as <-. count_numbers. cbn [queue_ set_queue].
    rewrite (perm_cnt _ _ x (fmap_Permutation _ _ _ (deadline_insert_perm e (queue_ s)))). cbn [fmap list_fmap]. rewrite cnt_cons. lia.
  - count_numbers. lia.
  - count_numbers. destruct pc; cbn [notify sweeper_entries]; lia.
  - destruct H1; count_numbers; try lia. destruct H2 as [_ -> -> _ _ _]. rewrite fmap_app, !cnt_app. lia.
  - destruct H1; count_numbers; try lia. destruct H2 as [_ -> -> _ _ _]. rewrite fmap_app, !cnt_app. lia.
  - destruct H2; count_numbers; try lia. destruct H3 as [_ -> -> _ _ _]. rewrite fmap_app, !cnt_app. lia.
  - count_numbers. lia.
  - count_numbers. by rewrite (flat_map_delete _ _ _ _ H0).
  - count_numbers. lia.
  - count_numbers. lia.
  - count_numbers. lia.
  - count_numbers. lia.
  - apply deliver_state in H3 as (Eq & _ & _ & Ea). count_numbers. rewrite Ea.
    pose proof (f_equal (λ l, cnt x (e_id <$> l)) (take_drop (Z.to_nat (window_nq w)) w)) as Ew. cbn beta in Ew. rewrite fmap_app, cnt_app in Ew. lia.
  - count_numbers. cbn [queue_ set_inflight]. lia.
  - count_numbers. destruct pc; cbn [notify sweeper_entries]; lia.
  - count_numbers. destruct pc; cbn [notify sweeper_entries]; lia.
  - count_numbers. lia.
  - count_numbers. lia.
  - count_numbers. lia.
  - destruct (inv_stop _ HI) as (_ & _ & Hs). world_cbn. destruct Hs as [_ Hs]. rewrite firstn_all2 in Hs by done.
    count_numbers. assert (flat_map task_entries fs = []) as ->; [|cbn; lia].
    clear -Hs. induction Hs as [|t fs -> _ IH]; [done|]. by cbn.
Qed.

Lemma env_numbers w w' : sched_inv w → env w w' → numbers w' ≡ₚ seqZ 0 (w_next w') ∧ 0 ≤ w_next w'.
Proof.
  intros HI Hw. pose proof (inv_next _ HI) as Hn. pose proof (inv_numbers _ HI) as HN. destruct Hw.
  - world_cbn. split; [|lia]. rewrite (seqZ_app 0 n 1), Z.add_0_l by lia. rewrite <- HN. count_numbers.
    unfold make_entry in *. res_inv. subst. cbn [e_id]. replace (seqZ n 1) with [n] by (cbn; f_equal; lia). rewrite cnt_cons, cnt_nil. lia.
  - split; [|done]. rewrite <- HN. count_numbers. cbn [queue_]. lia.
  - split; [|done]. rewrite <- HN. unfold stats in *. injection H0 as _ <-. count_numbers. cbn [queue_ set_stats]. lia.
  - split; [|done]. rewrite <- HN. count_numbers. lia.
  - split; [|done]. rewrite <- HN. count_numbers. lia.
Qed.

Lemma work_sorted w w' : sched_inv w → work w w' → StronglySorted due_before (queue_ (w_sched w')).
Proof.
  intros HI Hw. pose proof (inv_sorted _ HI) as Hs. destruct Hw; section_ends HI; sections; world_cbn; try done; try congruence.
  all: try (match goal with E : section_end _ _ _ _ |- _ => destruct E as [| | | |w rest s' _ []]; try done end;
    subst rest; rewrite cl_queue0 in Hs; by apply StronglySorted_app in Hs as (_ & _ & Hs)).
  by apply deadline_insert_sorted.
Qed.

Lemma u32_add a b : u32 (u32 a + b) = u32 (a + b).
Proof. unfold u32. by rewrite Zplus_mod_idemp_l. Qed.

Lemma notify_busy pc : sweeper_busy (notify pc) = sweeper_busy pc.
Proof. by destruct pc. Qed.
Lemma notify_reserved pc : slot_reserved (notify pc) = slot_reserved pc.
Proof. by destruct pc. Qed.

Lemma work_inflight w w' : sched_inv w → work w w' → inflight_ (w_sched w') = u32 (Z.of_nat (slots_taken w')).
Proof.
  intros HI Hw. pose proof (inv_inflight _ HI) as Hi. destruct Hw; section_ends HI; sections; busy_cbn; rewrite ?notify_busy; try congruence.
  all: try (match goal with E : section_end _ _ _ _ |- _ => destruct E as [| | | |w rest s' _ []]; try done end;
    cbn [sweeper_busy]; rewrite cl_inflight0, Hi, u32_add; f_equal; lia).
  - exact Hi.
  - rewrite Hi. f_equal. lia.
  - by rewrite (sum_list_delete _ _ _ _ H0).
  - cbn [inflight_ set_inflight]. rewrite Hi, <- Z.add_opp_r, u32_add. f_equal. lia.
  - destruct (inv_stop _ HI) as (_ & _ & Hs). world_cbn. destruct Hs as [_ Hs]. rewrite firstn_all2 in Hs by done.
    rewrite Hi. do 3 f_equal. clear -Hs. induction Hs as [|t fs -> _ IH]; [done|]. cbn. lia.
Qed.

Lemma work_slots w w' :
  sched_inv w → work w w' → stopped_ (w_sched w') = false → Z.of_nat (slots_taken w' + slot_reserved (w_sweeper w')) ≤ max_inflight_ config_.
Proof.
  intros HI Hw. pose proof (inv_slots _ HI) as Hb. pose proof (inv_inflight _ HI) as Hi.
  assert (stopped_ (w_sched w) = false → inflight_ (w_sched w) = Z.of_nat (slots_taken w)) as Hi'.
  { intros Es. rewrite Hi. specialize (Hb Es). unfold u32, max_inflight_ in *. apply Z.mod_small. lia. }
  destruct Hw; section_ends HI; sections; busy_cbn; rewrite ?notify_busy, ?notify_reserved; intros Es'; cbn [stopped_ set_inflight set_queue] in Es'; try (specialize (Hb ltac:(congruence)); lia).
  all: try (match goal with E : section_end _ _ _ _ |- _ => destruct E as [| | | |w rest s' Hg []] end;
    cbn [sweeper_busy slot_reserved]; assert (stopped_ s = false) as Es by congruence; specialize (Hb Es); specialize (Hi' Es);
    rewrite ?Es in *; try destruct Hg; try done; lia).
  - rewrite (sum_list_delete _ _ _ _ H0) by done. apply Hb, Es'.
Qed.

Lemma work_until w w' t b : sched_inv w → work w w' → w_sweeper w' = Waiting (Until t) b → queue_ (w_sched w') ≠ [].
Proof.
  intros HI Hw. pose proof (inv_until _ HI) as Hu. destruct Hw; section_ends HI; sections; world_cbn; intros Epc; try done;
    try (rewrite ?Eq; by eapply Hu).
  all: try (destruct pc as [|why wk| | | |]; cbn [notify] in Epc; try done; injection Epc as -> _; by eapply Hu).
  all: try (match goal with E : section_end _ _ _ _ |- _ => destruct E as [| | |t' front|w rest s' _ []] end; try done; by destruct (queue_ s)).
  intros E. cbn [queue_ set_queue] in E. pose proof (deadline_insert_perm e (queue_ s)) as HP. rewrite E in HP. by apply Permutation_nil_cons in HP.
Qed.

Lemma work_pending w w' : sched_inv w → work w w' → pending_entries w' ⊆ pending_entries w.
Proof.
  intros HI Hw x. destruct Hw; section_ends HI; sections; unfold pending_entries; world_cbn; rewrite ?flat_map_app; cbn [flat_map submit_entries task_entries];
    rewrite ?Eq, !elem_of_app, ?elem_of_nil, ?list_elem_of_singleton; cbn [sweeper_entries]; rewrite ?elem_of_nil; try tauto.
  all: try (destruct pc; cbn [notify sweeper_entries]; rewrite ?elem_of_nil; tauto).
  all: try (match goal with E : section_end _ _ _ _ |- _ => destruct E as [| | | |w rest s' _ []] end; cbn [sweeper_entries];
    rewrite ?elem_of_nil; try tauto; subst rest; rewrite cl_queue0, elem_of_app; tauto).
  - cbn [queue_ set_queue]. rewrite deadline_insert_perm, elem_of_cons. tauto.
  - rewrite (flat_map_delete _ _ _ _ H0) by done. tauto.
Qed.

Definition env_new_entries (w w' : World) : Prop :=
  (∃ e, entry_ok e ∧ pending_entries w' ≡ₚ e :: pending_entries w) ∨ pending_entries w' ⊆ pending_entries w.

Lemma env_pending w w' : env w w' → env_new_entries w w'.
Proof.
  intros Hw. destruct Hw; sections; [left|right; intros x..]; unfold pending_entries; world_cbn; rewrite ?flat_map_app; cbn [flat_map submit_entries task_entries];
    rewrite ?elem_of_app, ?elem_of_nil; try tauto.
  exists e. split.
  - unfold make_entry in *. res_inv. subst. done.
  - rewrite app_nil_r, <- app_assoc. by rewrite Permutation_middle.
Qed.

Lemma step_entries w w' : sched_inv w → step w w' → Forall entry_ok (pending_entries w').
Proof.
  intros HI Hw. pose proof (inv_entries _ HI) as He. rewrite Forall_forall in He. destruct Hw as [_ Hw|_ Hw].
  - apply Forall_forall. intros x Hx. apply He. by apply (work_pending _ _ HI Hw).
  - destruct (env_pending _ _ Hw) as [(e & Hok & ->)|Hsub]; [constructor; [done|by apply Forall_forall]|].
    apply Forall_forall. intros x Hx. by apply He, Hsub.
Qed.

(** The cache never holds more than its capacity. *)
Lemma deliver_each_cache t0 w rows s s' answers :
  deliver_each config_ search_config_ t0 w rows s = Ok (s', answers) →
  Z.of_nat (length (cache_ s)) ≤ Z.max 0 (result_cache_entries config_) →
  Z.of_nat (length (cache_ s')) ≤ Z.max 0 (result_cache_entries config_).
Proof.
  revert rows s answers. induction w as [|e w IH]; intros rows s answers; cbn [deliver_each]; [by intros [= <- <-]|].
  destruct rows as [|r rows]; [done|]. intros E Hs. apply bind_Ok_inv in E as ([s1 a1] & E1 & [= <- <-]).
  apply (IH _ _ _ E1). unfold cache_insert, count_delay.
  assert (cache_ (if Z.of_nat (length (delay_ns (stats_ s))) <? kMaxDelaySamples then
    set_stats (mkStats (windows (stats_ s)) (queries (stats_ s)) (cache_hits (stats_ s)) (sweep_ns (stats_ s)) (peak_inflight (stats_ s))
      (delay_ns (stats_ s) ++ [u64 (t0 - e_submitted e)])) s else s) = cache_ s) as Ec by by destruct (_ <? _).
  destruct (Z.ltb_spec 0 (result_cache_entries config_)); rewrite ?Ec; [|lia].
  cbn [cache_ set_cache length]. destruct (Z.leb_spec (result_cache_entries config_) (Z.of_nat (length (cache_ s)))); [|lia].
  rewrite length_take. lia.
Qed.

Lemma step_cache w w' :
  sched_inv w → step w w' → Z.of_nat (length (cache_ (w_sched w'))) ≤ Z.max 0 (result_cache_entries config_).
Proof.
  intros HI Hw. pose proof (inv_cache _ HI) as Hc. destruct Hw as [_ Hw|_ Hw].
  - destruct Hw; section_ends HI; world_cbn; try done.
    1-2: apply submit_lookup_state in H0 as (_ & _ & _ & -> & _); done.
    all: try (match goal with E : section_end _ _ _ _ |- _ => destruct E as [| | | |w rest s' _ []] end; try done; by rewrite cl_cache0).
    + sections. done.
    + unfold deliver in H3. by apply deliver_each_cache in H3.
  - destruct Hw; sections; done.
Qed.

Lemma notify_returned pc : notify pc = Returned ↔ pc = Returned.
Proof. by destruct pc. Qed.

Lemma work_stop w w' : sched_inv w → work w w' → stop_ok w'.
Proof.
  intros HI Hw. destruct (inv_stop _ HI) as (H1 & H2 & H3). destruct Hw; section_ends HI; sections; unfold stop_ok in *; world_cbn; rewrite ?notify_returned.
  all: try match goal with E : section_end _ _ _ _ |- _ => destruct E as [| | | |w rest s' _ []] end.
  all: split; [cbn [stopped_ set_inflight set_queue]; rewrite ?Es, ?cl_stopped0; first [done|intuition congruence]|].
  all: split; [cbn [stopped_ set_inflight set_queue queue_]; rewrite ?Es, ?Eq; first [done|intuition congruence]|].
  all: rewrite ?notify_returned; try done; try (destruct sp; intuition congruence).
  all: try (destruct sp; try done; destruct H3 as [Hpc Hfs]; rewrite ?notify_returned; split; try done;
    first [eapply Forall_take_replace; [exact Hfs|cbn; congruence]|by destruct f1]).
  - destruct H3 as [-> H3]. split; [done|]. rewrite (take_S_r _ _ _ H0). apply Forall_app. split; [done|by constructor].
  - split; [apply H3|done].
Qed.

Lemma env_stop_ok w w' : sched_inv w → env w w' → stop_ok w'.
Proof.
  intros HI Hw. destruct (inv_stop _ HI) as (H1 & H2 & H3). destruct Hw; sections; unfold stop_ok in *; world_cbn.
  all: split; [cbn [stopped_ set_stats]; first [done|intuition congruence]|].
  all: split; [cbn [stopped_ queue_ set_stats]; first [done|intuition congruence]|]; try done.
  - destruct sp; try done; by destruct H3.
  - destruct sp; try done; destruct H3 as [Hpc Hfs]; split; try done; first [eapply Forall_take_replace; [exact Hfs|cbn; congruence]|by destruct f1].
Qed.

Lemma notify_woken pc why : notify pc ≠ Waiting why false.
Proof. by destruct pc. Qed.

Lemma nothing_to_do_ext why s s' :
  queue_ s' = queue_ s → stopped_ s' = stopped_ s → inflight_ s' = inflight_ s → nothing_to_do why s → nothing_to_do why s'.
Proof. unfold nothing_to_do. by intros -> -> ->. Qed.

Lemma section_end_idle s why s' : section_end config_ s (Waiting why false) s' → nothing_to_do why s'.
Proof. inversion 1; subst; split; try done. split; [by eexists|done]. Qed.

Lemma work_wake w w' : sched_inv w → work w w' → wake_ok w'.
Proof.
  intros HI Hw why. pose proof (inv_wake _ HI) as Hk. destruct Hw; section_ends HI; sections; unfold wake_ok, notify_pending in *; world_cbn; intros Epc;
    try by destruct (notify_woken _ _ Epc).
  all: try match goal with E : section_end _ _ _ _ |- _ => right; subst; by apply section_end_idle in E end.
  all: rewrite ?elem_of_app, ?elem_of_cons; try tauto; try done.
  all: try (destruct (Hk _ Epc) as [Hp|Hp]; [rewrite ?elem_of_app, ?elem_of_cons in Hp; intuition congruence|right; try done; by eapply nothing_to_do_ext]).
  destruct (inv_stop _ HI) as (_ & _ & Hs). world_cbn. destruct Hs as [-> _]. done.
Qed.

Lemma env_wake w w' : sched_inv w → env w w' → wake_ok w'.
Proof.
  intros HI Hw why. pose proof (inv_wake _ HI) as Hk. destruct Hw; sections; unfold wake_ok, notify_pending in *; world_cbn; intros Epc; try done; try tauto.
  all: destruct (Hk _ Epc) as [Hp|Hp]; [rewrite ?elem_of_app, ?elem_of_cons in *; intuition congruence|right; try done; by eapply nothing_to_do_ext].
Qed.

(** *** The invariant *)

Lemma env_rest w w' : sched_inv w → env w w' →
  StronglySorted due_before (queue_ (w_sched w')) ∧ inflight_ (w_sched w') = u32 (Z.of_nat (slots_taken w')) ∧
  (stopped_ (w_sched w') = false → Z.of_nat (slots_taken w' + slot_reserved (w_sweeper w')) ≤ max_inflight_ config_) ∧
  ∀ t b, w_sweeper w' = Waiting (Until t) b → queue_ (w_sched w') ≠ [].
Proof.
  intros HI Hw. pose proof (inv_sorted _ HI). pose proof (inv_inflight _ HI) as Hi. pose proof (inv_slots _ HI) as Hb. pose proof (inv_until _ HI) as Hu.
  destruct Hw; sections; busy_cbn; split_and!; try done.
  intros t b [= -> _]. by eapply Hu.
Qed.

Lemma step_inv w w' : sched_inv w → step w w' → sched_inv w'.
Proof.
  intros HI Hst. pose proof (step_entries _ _ HI Hst). pose proof (step_cache _ _ HI Hst). pose proof (inv_next _ HI). destruct Hst as [_ Hw|_ Hw].
  - destruct (work_numbers _ _ HI Hw) as [HN En]. split; try done.
    + by rewrite En.
    + rewrite HN, En. apply HI.
    + by eapply work_sorted.
    + by eapply work_inflight.
    + by eapply work_slots.
    + intros t b. by eapply work_until.
    + by eapply work_stop.
    + by eapply work_wake.
  - destruct (env_numbers _ _ HI Hw) as [HN Hn]. destruct (env_rest _ _ HI Hw) as (? & ? & ? & ?). split; try done.
    + by eapply env_stop_ok.
    + by eapply env_wake.
Qed.

Lemma world0_inv now : sched_inv (world0 now).
Proof.
  split; try done.
  - by constructor.
  - intros _. cbn. unfold max_inflight_. lia.
  - cbn. lia.
Qed.

Lemma reachable_inv w : reachable config_ search_config_ w → sched_inv w.
Proof. intros [now Hrun]. eapply rtc_invariant; [|exact Hrun|apply world0_inv]. intros ?? ?. by apply step_inv. Qed.

(** C9: In every reachable state, whatever the interleaving of submitters, sweeper,
    sweeps, [stats] and [stop], spurious wake-ups and sweeps that throw: every query
    submitted is in exactly one place, or its promise has been resolved, exactly once;
    the queue is in the order of the deadlines; before [stop], [inflight_] is the number
    of windows in flight plus that of the sweeps that have thrown, together at most
    [max_inflight_]; the cache is within its capacity; and a sweeper asleep has nothing to
    do (an empty queue, a deadline to come, or [max_inflight_] windows really in flight),
    or a notification is coming, or it waits for a slot that a sweep that has thrown
    keeps.  So as long as no sweep has thrown, [inflight_] counts the windows in flight
    and no wake-up is lost; a sweep that throws never gives its slot back, and the last
    case can be a deadlock ([failed_sweep_stalls]). *)
Theorem scheduler_invariant w :
  reachable config_ search_config_ w →
  (numbers w ≡ₚ seqZ 0 (w_next w) ∧ NoDup (numbers w)) ∧
  StronglySorted due_before (queue_ (w_sched w)) ∧
  (stopped_ (w_sched w) = false → inflight_ (w_sched w) = Z.of_nat (busy w + failed w) ∧ Z.of_nat (busy w + failed w) ≤ max_inflight_ config_) ∧
  Z.of_nat (length (cache_ (w_sched w))) ≤ Z.max 0 (result_cache_entries config_) ∧
  ∀ why, w_sweeper w = Waiting why false →
    notify_pending w ∨ rightly_asleep why w ∨
    why = Slot ∧ (0 < failed w)%nat ∧ max_inflight_ config_ ≤ Z.of_nat (busy w + failed w).
Proof.
  intros HI%reachable_inv. pose proof (inv_numbers _ HI) as HN.
  assert (stopped_ (w_sched w) = false → inflight_ (w_sched w) = Z.of_nat (busy w + failed w) ∧
    Z.of_nat (busy w + failed w) ≤ max_inflight_ config_) as Hif.
  { intros Hs. pose proof (inv_slots _ HI Hs) as Hb. rewrite (inv_inflight _ HI), <- slots_taken_split. unfold u32, max_inflight_ in *.
    rewrite Z.mod_small by lia. lia. }
  split_and!; try apply HI; [|exact Hif|].
  - rewrite HN. apply NoDup_seqZ.
  - intros why Hw. destruct (inv_wake _ HI why Hw) as [?|[Hs Hwhy]]; [by left|right]. destruct (Hif Hs) as [Ei _].
    destruct why; [by left| |by left]. rewrite Ei in Hwhy. destruct (failed w) as [|n]; [left|right; split_and!; [done|lia|done]].
    split; [done|]. by rewrite Nat.add_0_r in Hwhy.
Qed.

End steps.
