(* ===== verification/SchedulerAnswers.v ===== *)
(** * SchedulerAnswers: what the futures of the batch scheduler resolve to

    An answer is the index's answer to the query itself, whatever the window it was
    swept with, at the largest [k] of that window; or a cached answer to a query with
    the same key. *)
From S2P Require Import Prelude Doubles Schema TopW CutTopk BatchScheduler SchedulerInv.

Section answers.
Context `{BatchIndex} (answer : list float → list Predicate → float → Z → list Candidate) `{!BatchIndexLaws answer}.
Context (config_ : Config) (search_config_ : CutConfig).
Abbreviation work := (work config_ search_config_).
Abbreviation env := (env config_).
Abbreviation step := (step config_ search_config_).

(** The index's answer to an entry alone, asked for [k]. *)
Definition direct (e : Entry) (k : Z) : list Candidate :=
  answer (e_query e) (e_predicates e) (pos_fraction (e_probe_fraction e)) k.

Definition row_of (e : Entry) (r : list Candidate) : Prop := ∃ k, k_ok k ∧ e_k e ≤ k ∧ r = direct e k.

Definition cached_ok (c : CacheEntry) : Prop :=
  ∃ k, k_ok k ∧ ce_k c ≤ k ∧
    ce_results c = cut_to (ce_k c) (answer (ce_query c) (ce_predicates c) (pos_fraction (ce_probe_fraction c)) k).

Definition outcome_ok (p : Entry * Outcome) : Prop :=
  match p.2 with
  | Answered r => (∃ r0, row_of p.1 r0 ∧ r = own_answer search_config_ p.1 r0) ∨
                  (0 < result_cache_entries config_ ∧ ∃ c, cache_matches p.1 c = true ∧ cached_ok c ∧ r = ce_results c)
  | Rejected | Broken => True
  end.

(** ** One sweep *)

Lemma foldl_max_ge w k e : e ∈ w → e_k e ≤ foldl (λ k e, Z.max k (e_k e)) k w.
Proof.
  assert (∀ w k, k ≤ foldl (λ k e, Z.max k (e_k e)) k w) as Hge.
  { clear. induction w as [|x w IH]; intros k; cbn [foldl]; [lia|]. specialize (IH (Z.max k (e_k x))). lia. }
  revert k. induction w as [|x w IH]; intros k; [by intros ?%elem_of_nil|]. cbn [foldl]. intros [->|He]%elem_of_cons; [|by apply IH].
  specialize (Hge w (Z.max k (e_k x))). lia.
Qed.

Lemma window_k_ge w e : e ∈ w → e_k e ≤ window_k w.
Proof. apply foldl_max_ge. Qed.

Lemma window_k_range w : Forall entry_ok w → window_k w = 0 ∨ k_ok (window_k w).
Proof.
  intros Hw. unfold window_k. assert (∀ k, k = 0 ∨ k_ok k → let r := foldl (λ k e, Z.max k (e_k e)) k w in r = 0 ∨ k_ok r) as Hk; [|apply Hk; by left].
  induction Hw as [|e w (_ & He & _) _ IH]; intros k Hk; cbn [foldl]; [done|]. apply IH. unfold k_ok in *.
  destruct (Z.max_spec k (e_k e)) as [[? ->]|[? ->]]; lia.
Qed.

Lemma window_k_ok w e : Forall entry_ok w → e ∈ w → k_ok (window_k w).
Proof.
  intros Hw He. pose proof (window_k_ge w e He) as Hge. rewrite Forall_forall in Hw. destruct (Hw e He) as (_ & [? _] & _).
  rewrite <- Forall_forall in Hw. destruct (window_k_range w Hw); [lia|done].
Qed.

Lemma preds_at_window w i e : w !! i = Some e → preds_at (window_preds w) i = e_predicates e.
Proof.
  intros He. unfold preds_at, window_preds. destruct (existsb _ w) eqn:E; cbn [mbind option_bind default].
  - by rewrite list_lookup_fmap, He.
  - destruct (decide (e_predicates e = [])) as [->|Hne]; [done|]. exfalso. apply not_true_iff_false in E. apply E, existsb_exists. exists e.
    split; [by eapply list_elem_of_In, list_elem_of_lookup_2|by apply bool_decide_eq_true].
Qed.

Lemma frac_at_window w i e : w !! i = Some e → pos_fraction (frac_at (window_fracs w) i) = pos_fraction (e_probe_fraction e).
Proof.
  intros He. unfold frac_at, window_fracs. destruct (existsb _ w) eqn:E; cbn [mbind option_bind default].
  - by rewrite list_lookup_fmap, He.
  - unfold pos_fraction. destruct (SFltb (S754_zero false) (e_probe_fraction e)) eqn:Ef; [|done]. exfalso.
    apply not_true_iff_false in E. apply E, existsb_exists. exists e. split; [by eapply list_elem_of_In, list_elem_of_lookup_2|done].
Qed.

(** The sweep of a window answers its entries one by one. *)
Lemma dispatch_sweep_ok w : Forall entry_ok w →
  ∃ rows, dispatch_sweep config_ w = Ok rows ∧ length rows = length (take (Z.to_nat (window_nq w)) w) ∧
    ∀ i e, take (Z.to_nat (window_nq w)) w !! i = Some e → rows !! i = Some (direct e (window_k w)).
Proof.
  intros Hw. assert (0 ≤ window_nq w < 2 ^ 32) as Hn by (unfold window_nq, u32; by apply Z.mod_pos_bound).
  assert (window_nq w ≤ Z.of_nat (length w)) as Hle by (unfold window_nq, u32; apply Z.mod_le; lia).
  set (n := Z.to_nat (window_nq w)). assert (Z.of_nat (length (e_query <$> take n w)) = window_nq w) as En.
  { rewrite length_fmap, length_take. lia. }
  edestruct (index_search_batch_ok (e_query <$> take n w) (concat (e_query <$> drop n w)) (window_k w) (search_threads config_)
    (window_preds w) (window_fracs w)) as (rows & E & El & Hrows).
  - apply Forall_fmap, Forall_take. eapply Forall_impl; [exact Hw|]. by intros e [? _].
  - destruct (window_k_range w Hw) as [->|[]]; lia.
  - intros Hne. destruct w as [|e w]; [by destruct n|]. apply (window_k_ok _ e Hw). by left.
  - lia.
  - intros l. unfold window_preds. destruct (existsb _ w); [|done]. intros [= <-]. rewrite !length_fmap, length_take. lia.
  - intros l. unfold window_fracs. destruct (existsb _ w); [|done]. intros [= <-]. rewrite !length_fmap, length_take. split; [lia|].
    apply Forall_fmap. eapply Forall_impl; [exact Hw|]. by intros e (_ & _ & ?).
  - exists rows. split_and!.
    + unfold dispatch_sweep. rewrite <- E. rewrite En, <- concat_app, <- fmap_app, take_drop. done.
    + by rewrite El, length_fmap.
    + intros i e He. rewrite (Hrows i (e_query e)) by by rewrite list_lookup_fmap, He.
      apply lookup_take_Some in He as [He _]. unfold direct. by rewrite (preds_at_window _ _ _ He), (frac_at_window _ _ _ He).
Qed.

Lemma deliver_each_ok t0 w rows s : length rows = length w → ∃ r, deliver_each config_ search_config_ t0 w rows s = Ok r.
Proof.
  revert rows s. induction w as [|e w IH]; intros rows s El; cbn [deliver_each]; [by eexists|].
  destruct rows as [|r rows]; [done|]. destruct (IH rows (cache_insert config_ e r (count_delay t0 e s)) ltac:(cbn in El; lia)) as [[s1 a1] ->].
  by eexists.
Qed.

Lemma deliver_each_answers t0 w rows s s' answers :
  deliver_each config_ search_config_ t0 w rows s = Ok (s', answers) →
  (∀ i e r, w !! i = Some e → rows !! i = Some r → row_of e r) → Forall cached_ok (cache_ s) →
  Forall (λ a, outcome_ok (a.1, Answered a.2)) answers ∧ Forall cached_ok (cache_ s').
Proof.
  revert rows s answers. induction w as [|e w IH]; intros rows s answers; cbn [deliver_each]; [by intros [= <- <-]|].
  destruct rows as [|r rows]; [done|]. intros E Hrows Hs. apply bind_Ok_inv in E as ([s1 a1] & E1 & [= <- <-]).
  pose proof (Hrows 0%nat e r eq_refl eq_refl) as Hr.
  destruct (IH _ _ _ E1) as [Ha Hs'].
  - intros i. apply (Hrows (S i)).
  - assert (cache_ (count_delay t0 e s) = cache_ s) as Ec by (unfold count_delay; by destruct (_ <? _)).
    unfold cache_insert. rewrite Ec. destruct (0 <? result_cache_entries config_); [|by rewrite Ec].
    cbn [cache_ set_cache]. constructor; [by destruct Hr as (k & Hk & Hke & ->); exists k|]. destruct (_ <=? _); [by apply Forall_take|done].
  - split; [|done]. constructor; [|done]. left. by exists r.
Qed.

(** ** Along a run *)

Record answers_inv (w : World) : Prop := {
  ans_outcomes : Forall outcome_ok (w_outcomes w);
  ans_cache : Forall cached_ok (cache_ (w_sched w));
}.
Context (Hcfg : max_inflight_windows config_ < 2 ^ 32).

Lemma deliver_answers t0 t1 w rows s s' answers :
  Forall entry_ok w → dispatch_sweep config_ w = Ok rows → deliver config_ search_config_ t0 t1 w rows s = Ok (s', answers) →
  Forall cached_ok (cache_ s) → Forall outcome_ok (answered answers) ∧ Forall cached_ok (cache_ s').
Proof.
  intros Hw Hrows E Hs. destruct (dispatch_sweep_ok w Hw) as (rows' & E' & _ & Hr). rewrite E' in Hrows. injection Hrows as <-.
  unfold deliver in E. apply deliver_each_answers in E as [Ha Hs']; [split; [by apply Forall_fmap|done]| |done].
  intros i e r He Hri. rewrite (Hr i e He) in Hri. injection Hri as <-. exists (window_k w).
  apply lookup_take_Some in He as [He%list_elem_of_lookup_2 _]. split_and!; [by apply (window_k_ok w e)|by apply window_k_ge|done].
Qed.

Lemma with_outcome_ok o es : (∀ r, o ≠ Answered r) → Forall outcome_ok (with_outcome o es).
Proof. intros Ho. apply Forall_fmap, Forall_true. intros e. destruct o; [by destruct (Ho r)|done..]. Qed.

Lemma step_answers w w' : sched_inv config_ w → answers_inv w → step w w' → answers_inv w'.
Proof.
  intros HI [Ho Hc] Hst. destruct Hst as [_ Hw|_ Hw].
  - destruct Hw; section_ends HI; world_cbn; try done.
    all: try (match goal with E : section_end _ _ _ _ |- _ => destruct E as [| | | |w rest s' _ [_ _ _ _ _ Ec]] end; split; world_cbn; first [done|by rewrite Ec]).
    + apply submit_lookup_state in H0 as (_ & _ & _ & Ec & _ & Hr). split; world_cbn; [|by rewrite Ec]. constructor; [|done]. right.
      destruct (Hr r eq_refl) as (Hcap & c & Hin & Hm & ->). split; [done|]. exists c. rewrite Forall_forall in Hc. auto.
    + apply submit_lookup_state in H0 as (_ & _ & _ & Ec & _). split; world_cbn; [done|by rewrite Ec].
    + sections. by split.
    + split; [by constructor|done].
    + assert (Forall entry_ok w) as Hw.
      { apply Forall_forall. intros x Hx. pose proof (inv_entries _ HI) as He. rewrite Forall_forall in He. apply He. unfold pending_entries. world_cbn.
        rewrite flat_map_middle, !elem_of_app. cbn [task_entries]. tauto. }
      destruct (deliver_answers _ _ _ _ _ _ _ Hw H2 H3 Hc) as [Ha Hc']. split; [|done]. world_cbn.
      rewrite !Forall_app. split_and!; [done|by apply with_outcome_ok|done].
  - destruct Hw; sections; world_cbn; try (by split).
    split; [|done]. world_cbn. apply Forall_app. split; [by apply with_outcome_ok|done].
Qed.

Lemma reachable_answers w : reachable config_ search_config_ w → sched_inv config_ w ∧ answers_inv w.
Proof.
  intros [now Hrun]. eapply (rtc_invariant (λ w, sched_inv config_ w ∧ answers_inv w)); [|exact Hrun|].
  - intros x y [HI HA] Hst. split; [by eapply step_inv|by eapply step_answers].
  - split; [by apply world0_inv|by split; constructor].
Qed.

(** What a promise was resolved with. *)
Lemma scheduler_answers w e r :
  reachable config_ search_config_ w → (e, Answered r) ∈ w_outcomes w →
  (∃ k, k_ok k ∧ e_k e ≤ k ∧ r = own_answer search_config_ e (direct e k)) ∨
  (0 < result_cache_entries config_ ∧ ∃ q ps f k, k_ok k ∧ e_k e ≤ k ∧
     floats_equal q (e_query e) = true ∧ predicates_equal ps (e_predicates e) = true ∧ SFeqb f (e_probe_fraction e) = true ∧
     r = cut_to (e_k e) (answer q ps (pos_fraction f) k)).
Proof.
  intros Hr Hin. destruct (reachable_answers w Hr) as [_ [Ho _]]. rewrite Forall_forall in Ho.
  destruct (Ho _ Hin) as [(r0 & (k & Hk & Hke & ->) & ->)|(Hcap & c & Hm & (k & Hk & Hke & Ec) & ->)].
  - left. by exists k.
  - right. split; [done|]. cbn [fst] in Hm. unfold cache_matches in Hm. rewrite !andb_true_iff in Hm. destruct Hm as [[[Ek%Z.eqb_eq Hp] Hf] Hq].
    exists (ce_query c), (ce_predicates c), (ce_probe_fraction c), k. rewrite <- Ek. split_and!; first [done|lia].
Qed.
End answers.
