(* ===== verification/SchedulerDrain.v ===== *)
(** * SchedulerDrain: [stop] returns, and by then every future has resolved

    A measure that every action of the threads lowers once the scheduler is stopped,
    and progress: while something is left to do, some thread can do something. *)
From S2P Require Import Prelude Doubles Schema TopW CutTopk BatchScheduler SchedulerInv SchedulerAnswers.

Section drain.
Context `{BatchIndex} (answer : list float → list Predicate → float → Z → list Candidate) `{!BatchIndexLaws answer}.
Context (config_ : Config) (search_config_ : CutConfig) (Hcfg : max_inflight_windows config_ < 2 ^ 32).
Abbreviation work := (work config_ search_config_).


(** ** The measure *)

Definition submit_weight (u : Submit) : nat := match u with SLookup _ => 4 | SInsert _ => 3 | SNotify => 2 end.
Definition task_weight (t : Task) : nat :=
  match t with TLaunched _ => 6 | TSweeping _ _ => 5 | TDelivered => 4 | TNotify => 3 | TDone | TFailed => 1 end.

(** [B] bounds the futures there can be: one for each that is there, for the window
    about to be launched, and for each query still queued. *)
Definition sweeper_weight (B n : nat) (pc : Sweeper) : nat :=
  match pc with
  | Evaluate => 1
  | Waiting _ woken => if woken then 3 else 2
  | Launch _ => 10 + B
  | Reap i => 2 + (n - i)
  | Returned | Terminated => 0
  end.
Definition stopper_weight (B n : nat) (sp : Stopper) : nat :=
  match sp with StopNotify => B + 6 | StopJoin => B + 4 | StopDrain i => 2 + (n - i) | _ => 0 end.

Definition measure (B : nat) (w : World) : nat :=
  sum_list_with submit_weight (w_submits w) + length (queue_ (w_sched w)) * (20 + B) + sweeper_weight B (length (w_futs w)) (w_sweeper w) +
  sum_list_with task_weight (w_futs w) + stopper_weight B (length (w_futs w)) (w_stopper w).

Definition futures_bound (w : World) : nat := length (w_futs w) + length (queue_ (w_sched w)) + sweeper_busy (w_sweeper w).
Definition drain_bound (w : World) : nat := measure (futures_bound w) w.

Lemma notify_weight B n pc : (sweeper_weight B n (notify pc) ≤ S (sweeper_weight B n pc))%nat.
Proof. destruct pc as [|why []| | | |]; cbn; lia. Qed.

Lemma stopper_weight_launch B n sp : (stopper_weight B (n + 1) sp ≤ S (stopper_weight B n sp))%nat.
Proof. destruct sp; cbn; lia. Qed.

Lemma stopper_weight_reap B n sp : (stopper_weight B n sp ≤ stopper_weight B (S n) sp)%nat.
Proof. destruct sp; cbn; lia. Qed.

Lemma section_end_stopped s pc s' : section_end config_ s pc s' → stopped_ s = true →
  stopped_ s' = true ∧ ((pc = Returned ∧ queue_ s' = []) ∨
    ∃ w, pc = Launch w ∧ (length (queue_ s) = length w + length (queue_ s'))%nat ∧ (0 < length w)%nat).
Proof.
  intros E Hs. destruct E as [| | | |w rest s' _ [Hne Eq Er Es _ _]]; try congruence; [auto|].
  split; [congruence|]. right. exists w. rewrite Eq, Er, length_app. split_and!; [done|done|]. destruct w; [done|cbn; lia].
Qed.

Ltac measure_cbn := unfold measure, futures_bound in *; world_cbn;
  rewrite ?sum_list_with_app, ?length_app in *;
  cbn [sum_list_with submit_weight task_weight sweeper_weight stopper_weight length sweeper_busy] in *.

Lemma section_decreases B s n pc pc' s' :
  section_end config_ s pc' s' → stopped_ s = true → (1 ≤ sweeper_weight B n pc)%nat → sweeper_busy pc = 0%nat →
  (length (queue_ s') * (20 + B) + sweeper_weight B n pc' < length (queue_ s) * (20 + B) + sweeper_weight B n pc)%nat ∧
  (length (queue_ s') + sweeper_busy pc' ≤ length (queue_ s) + sweeper_busy pc)%nat ∧ stopped_ s' = true.
Proof.
  intros E Hs Hpc Hb. destruct (section_end_stopped _ _ _ E Hs) as (Hs' & [[-> Hq]|(w & -> & Hq & Hw)]); cbn [sweeper_weight sweeper_busy].
  - rewrite Hq. cbn [length]. split_and!; [nia|lia|done].
  - rewrite Hq. split_and!; [nia|lia|done].
Qed.

(** Each action of a thread of a stopped scheduler takes something off. *)
Lemma work_decreases B w w' :
  sched_inv config_ w → stopped_ (w_sched w) = true → (futures_bound w ≤ B)%nat → work w w' →
  (measure B w' < measure B w)%nat ∧ (futures_bound w' ≤ B)%nat ∧ stopped_ (w_sched w') = true.
Proof.
  intros HI Hs HB Hw. destruct Hw; section_ends HI; sections; world_cbn; try congruence.
  all: try (match goal with E : section_end _ ?s _ _ |- context [mkWorld ?s ?pc _ ?fs] => 
    destruct (section_decreases B s (length fs) pc _ _ E Hs ltac:(try destruct b; cbn; lia) eq_refl) as (? & ? & ?); split_and!; [..|done]; measure_cbn; lia end).
  all: split_and!; [| |first [done|congruence]]; measure_cbn; rewrite ?Eq; try lia.
  all: try (match goal with |- context [sweeper_weight ?B ?n (notify ?pc)] => pose proof (notify_weight B n pc) end; lia).
  all: rewrite ?notify_busy; try lia.
  - pose proof (stopper_weight_launch B (length fs) sp). lia.
  - apply list_elem_of_split_length in H0 as (f1 & f2 & -> & ->). rewrite delete_middle, !sum_list_with_app, !length_app. cbn [sum_list_with task_weight length].
    pose proof (stopper_weight_reap B (length f1 + length f2) sp). rewrite <- Nat.add_succ_r in *. lia.
  - rewrite length_delete by by eexists. lia.
  - apply lookup_lt_Some in H0. lia.
  - cbn [queue_ set_inflight]. lia.
  - cbn [queue_ set_inflight]. lia.
  - apply lookup_lt_Some in H0. lia.
  - destruct (inv_stop _ HI) as (_ & _ & [Hpc _]). cbn in Hpc. subst pc. cbn. lia.
Qed.

(** ** Progress *)

(** No sweep has thrown. *)
Definition healthy (w : World) : Prop :=
  Forall (λ t, t ≠ TFailed) (w_futs w) ∧ w_sweeper w ≠ Terminated ∧ w_stopper w ≠ StopThrew.

Definition settled (w : World) : Prop :=
  w_submits w = [] ∧ queue_ (w_sched w) = [] ∧ w_sweeper w = Returned ∧ w_futs w = [] ∧ w_stopper w = StopReturned.

Lemma work_healthy w w' : sched_inv config_ w → healthy w → work w w' → healthy w'.
Proof.
  intros HI (Hf & Hp & Hs) Hw. destruct Hw; section_ends HI; sections; unfold healthy in *; world_cbn; rewrite ?Forall_app, ?Forall_cons in *; cbn beta in *.
  all: try match goal with E : section_end _ _ _ _ |- _ => destruct E end.
  all: try (split_and!; try done; try tauto; try (destruct Hf as (? & ? & ?); congruence); by destruct pc).
  - split_and!; [|done..]. apply list_elem_of_split_length in H0 as (f1 & f2 & -> & ->). rewrite delete_middle. rewrite Forall_app, Forall_cons in Hf. apply Forall_app. tauto.
  - exfalso. rewrite Forall_forall in Hf. by apply (Hf TFailed); [eapply list_elem_of_lookup_2|].
  - exfalso. rewrite Forall_forall in Hf. by apply (Hf TFailed); [eapply list_elem_of_lookup_2|].
Qed.

Definition still (now : Z) : nat → Z := λ _, now.
Lemma still_readings now : readings now now (still now).
Proof. unfold readings, still. split_and!; [lia|lia|lia]. Qed.

Lemma evaluate_stopped clock s : stopped_ s = true → ∃ r, evaluate config_ clock s = Ok r.
Proof.
  intros Hs. unfold evaluate. rewrite Hs. destruct (queue_ s) eqn:Eq; [by eexists|]. cbn [negb andb orb]. apply close_window_ok. by rewrite Eq.
Qed.

(** A pass of the loop is free of overflow while the clock is far from its end. *)
Lemma evaluate_ok clock s :
  0 ≤ clock 0%nat → 0 ≤ idle_close_us config_ → clock 0%nat + idle_close_us config_ * 1000 < 2 ^ 63 → ∃ r, evaluate config_ clock s = Ok r.
Proof.
  intros Hc Hi Hs. unfold evaluate. destruct (queue_ s) as [|front q] eqn:Eq; [by eexists|].
  assert (∀ c, ∃ r, close_window c s = Ok r) as Hclose by (intros c; apply close_window_ok; by rewrite Eq).
  destruct (negb _ && _); [by eexists|]. destruct (_ || _); [apply Hclose|]. destruct (_ <=? _); [apply Hclose|].
  unfold sleep_until. destruct (0 <? idle_close_us config_); [|by eexists].
  assert (i64 (idle_close_us config_) = idle_close_us config_) as ->.
  { unfold i64, u64. rewrite Z.mod_small by lia. destruct (Z.ltb_spec (idle_close_us config_) (2 ^ 63)); lia. }
  unfold time_check. destruct (Z.leb_spec (- 2 ^ 63) (idle_close_us config_ * 1000)), (Z.ltb_spec (idle_close_us config_ * 1000) (2 ^ 63)); try lia.
  cbn [andb]. rewrite bind_Ok.
  destruct (Z.leb_spec (- 2 ^ 63) (clock 0%nat + idle_close_us config_ * 1000)), (Z.ltb_spec (clock 0%nat + idle_close_us config_ * 1000) (2 ^ 63)); try lia.
  by eexists.
Qed.

(** While a stopped scheduler is not settled, some thread can act: no deadlock. *)
Lemma submits_progress s pc l fs sp now out n : stopped_ s = true → l ≠ [] → ∃ w', work (mkWorld s pc l fs sp now out n) w'.
Proof.
  intros Hs Hl. destruct l as [|[e|e|] l]; [done|..].
  - destruct (submit_lookup config_ e s) as [[r|] s'] eqn:E; eexists; [by eapply (work_hit _ _ _ _ [])|by eapply (work_miss _ _ _ _ [])].
  - eexists. eapply (work_reject _ _ _ _ []). unfold submit_insert. by rewrite Hs.
  - eexists. eapply (work_submit_notify _ _ _ _ []).
Qed.

Lemma all_done_or (fs : list Task) : Forall (λ t, t = TDone) fs ∨ ∃ f1 t f2, fs = f1 ++ t :: f2 ∧ t ≠ TDone.
Proof.
  induction fs as [|t fs [IH|(f1 & t' & f2 & -> & Ht)]]; [by left| |right; by exists (t :: f1), t', f2].
  destruct t; try (left; by constructor); right; eexists [], _, fs; done.
Qed.

Lemma tasks_progress s pc l fs sp now out n :
  sched_inv config_ (mkWorld s pc l fs sp now out n) → Forall (λ t, t ≠ TFailed) fs →
  Forall (λ t, t = TDone) fs ∨ ∃ w', work (mkWorld s pc l fs sp now out n) w'.
Proof.
  intros HI Hf. destruct (all_done_or fs) as [He|(f1 & t & f2 & -> & Ht)]; [by left|right]. destruct t; try done.
  - eexists. by eapply (work_start _ _ _ _ _ _ _ _ _ _ _ _ now).
  - assert (Forall entry_ok w) as Hw.
    { apply Forall_forall. intros x Hx. pose proof (inv_entries _ HI) as He. rewrite Forall_forall in He. apply He. unfold pending_entries. world_cbn.
      rewrite flat_map_middle, !elem_of_app. cbn [task_entries]. tauto. }
    destruct (dispatch_sweep_ok answer config_ w Hw) as (rows & Erows & El & _).
    destruct (deliver_each_ok config_ search_config_ t0 (take (Z.to_nat (window_nq w)) w) rows
      (set_stats (mkStats (u64 (windows (stats_ s) + 1)) (u64 (queries (stats_ s) + window_nq w)) (cache_hits (stats_ s))
        (u64 (sweep_ns (stats_ s) + u64 (Z.max now t0 - t0))) (peak_inflight (stats_ s)) (delay_ns (stats_ s))) s) El) as [[s' a] E].
    eexists. eapply (work_deliver _ _ _ _ _ _ _ _ _ _ _ _ _ (Z.max now t0) (Z.max now t0)); [lia|lia|exact Erows|exact E].
  - eexists. eapply work_decrement.
  - eexists. eapply work_task_notify.
  - apply Forall_app in Hf as [_ Hf]. by apply Forall_cons_1 in Hf as [? _].
Qed.

Lemma sweeper_progress s pc fs sp now out n :
  sched_inv config_ (mkWorld s pc [] fs sp now out n) → stopped_ s = true → Forall (λ t, t = TDone) fs → pc ≠ Terminated →
  pc = Returned ∨ ∃ w', work (mkWorld s pc [] fs sp now out n) w'.
Proof.
  intros HI Hs Hf Hpc. destruct pc as [|why [|]|w|i| |]; [right|right|right|right|right|by left|done].
  - destruct (evaluate_stopped (still now) s Hs) as [[pc' s'] E]. eexists. eapply work_evaluate; [apply still_readings|exact E].
  - assert (∃ r, resume config_ (still now) why s = Ok r) as [[pc' s'] E].
    { unfold resume. rewrite Hs, !orb_true_r. destruct why; by apply evaluate_stopped. }
    eexists. eapply work_resume; [apply still_readings|exact E].
  - destruct (inv_wake _ HI why eq_refl) as [Hn|[Hn _]]; [|cbn in Hn; congruence].
    destruct Hn as [Hn|[Hn|Hn]]; cbn in Hn; [by apply elem_of_nil in Hn| |].
    + rewrite Forall_forall in Hf. by apply Hf in Hn.
    + subst sp. eexists. eapply work_stop_notify.
  - eexists. eapply work_launch.
  - destruct (fs !! i) as [t|] eqn:Et.
    + rewrite Forall_lookup in Hf. rewrite (Hf _ _ Et) in Et. eexists. by eapply work_reap.
    + eexists. eapply work_reaped. by apply lookup_ge_None.
Qed.

Lemma work_progress w : sched_inv config_ w → healthy w → stopped_ (w_sched w) = true → settled w ∨ ∃ w', work w w'.
Proof.
  destruct w as [s pc l fs sp now out n]. intros HI (Hf & Hpc & Hsp) Hs. world_cbn.
  destruct (decide (l = [])) as [->|Hl]; [|right; by apply submits_progress].
  destruct (tasks_progress _ _ _ _ _ _ _ _ HI Hf) as [Hd|?]; [|by right].
  destruct (sweeper_progress _ _ _ _ _ _ _ HI Hs Hd Hpc) as [->|?]; [|by right].
  destruct (inv_stop _ HI) as (Hidle & Hret & Hst). cbn in Hidle, Hret, Hst. destruct sp as [| | |i| |]; [|right|right|right| |done].
  - destruct Hidle as [_ Hidle]. rewrite Hidle in Hs by done. done.
  - eexists. eapply work_stop_notify.
  - eexists. eapply work_join.
  - destruct (fs !! i) as [t|] eqn:Et.
    + rewrite Forall_lookup in Hd. rewrite (Hd _ _ Et) in Et. eexists. by eapply work_get.
    + eexists. eapply work_clear. by apply lookup_ge_None.
  - left. destruct Hst as [_ ->]. split_and!; try done. by apply Hret.
Qed.

(** ** Draining *)

Lemma work_run n w w' :
  sched_inv config_ w → healthy w → stopped_ (w_sched w) = true → nsteps work n w w' →
  sched_inv config_ w' ∧ healthy w' ∧ stopped_ (w_sched w') = true ∧ w_next w' = w_next w ∧
  ∀ B, (futures_bound w ≤ B)%nat → (n + measure B w' ≤ measure B w)%nat ∧ (futures_bound w' ≤ B)%nat.
Proof.
  intros HI Hh Hs Hrun. induction Hrun as [w|n w w1 w' Hst Hrun IH]; [split_and!; [done..|]; intros; lia|].
  assert (w_sweeper w ≠ Terminated) as Hpc by apply Hh.
  destruct (work_decreases _ _ _ HI Hs (Nat.le_refl _) Hst) as (_ & _ & Hs1).
  destruct IH as (HI' & Hh' & Hs' & En & HB); [eapply step_inv; [done..|by apply step_work]|by eapply work_healthy|done|].
  split_and!; [done..| |].
  - rewrite En. by apply (work_numbers config_ search_config_ Hcfg _ _ HI Hst).
  - intros B Hle. destruct (work_decreases B _ _ HI Hs Hle Hst) as (Hlt & Hle1 & _). destruct (HB B Hle1). lia.
Qed.

(** C8: Once [stop] has been called and no sweep has thrown, the threads run at most
    [drain_bound] more steps, whatever the interleaving; they never get stuck before the
    end, at which [stop] has returned, nothing is queued or in flight, and the promise of
    every query ever submitted has been resolved, exactly once. *)
Theorem stop_drains w :
  reachable config_ search_config_ w → healthy w → stopped_ (w_sched w) = true →
  (∀ n w', nsteps work n w w' → (n ≤ drain_bound w)%nat) ∧
  (∀ w', rtc work w w' → settled w' ∨ ∃ w'', work w' w'') ∧
  (∀ w', rtc work w w' → settled w' → e_id <$> (w_outcomes w').*1 ≡ₚ seqZ 0 (w_next w)) ∧
  ∃ w', rtc work w w' ∧ settled w'.
Proof.
  intros Hr Hh Hs. assert (sched_inv config_ w) as HI by by apply (reachable_inv config_ search_config_ Hcfg).
  assert (∀ w', rtc work w w' → settled w' ∨ ∃ w'', work w' w'') as Hprog.
  { intros w' [n Hn]%rtc_nsteps. destruct (work_run _ _ _ HI Hh Hs Hn) as (HI' & Hh' & Hs' & _). by apply work_progress. }
  assert (∀ n w', nsteps work n w w' → (n ≤ drain_bound w)%nat) as Hbound.
  { intros n w' Hn. destruct (work_run _ _ _ HI Hh Hs Hn) as (_ & _ & _ & _ & HB). destruct (HB (futures_bound w) (Nat.le_refl _)).
    unfold drain_bound. lia. }
  split_and!; [done..| |].
  - intros w' [n Hn]%rtc_nsteps (El & Eq & Epc & Ef & _). destruct (work_run _ _ _ HI Hh Hs Hn) as (HI' & _ & _ & En & _).
    rewrite <- En, <- (inv_numbers _ HI'). unfold numbers, pending_entries. by rewrite El, Eq, Epc, Ef.
  - assert (∀ m n w1, nsteps work n w w1 → (drain_bound w < n + m)%nat → ∃ w', rtc work w1 w' ∧ settled w') as Hend.
    { induction m as [|m IH]; intros n w1 Hn Hm; [specialize (Hbound _ _ Hn); lia|].
      destruct (Hprog w1) as [?|[w2 H2]]; [apply rtc_nsteps; by exists n|by exists w1|].
      destruct (IH (S n) w2) as (w' & Hw' & Hset); [by eapply nsteps_r|lia|]. exists w'. split; [by eapply rtc_l|done]. }
    apply (Hend (S (drain_bound w)) 0%nat w); [by constructor|lia].
Qed.
End drain.
