(* ===== verification/SchedulerRuns.v ===== *)
(** * SchedulerRuns: the scheduler over the batch sweep, and runs of it

    The index the scheduler is proved against is [search_batch] of BatchSearch.v, with
    routing as a parameter that may give up on a query; its laws are those of the
    equivalence with the single search.  So what a future resolves to is what a search
    of that query returns, or a search under the base configuration when routing gave
    up on it. *)
From stdpp Require Import sorting.
From S2P Require Import Prelude Doubles Schema FilterHash FilterColumns FilterScan PageFile TreeNodes TopW LeafScan CutTopk CompactLeaf DeleteBatch SweepPool BatchSweep BatchSweepInv BatchRefs BatchSearch BatchRuns BatchScheduler SchedulerInv SchedulerAnswers SchedulerDrain.

(** ** The index *)

(** The settings of [SearchConfig] a query of a batch can override. *)
Record RouteConfig := mkRouteConfig { rc_predicates : list Predicate; rc_probe_fraction : float; rc_n_probe : Z }.

(** The base configuration with the predicates and the probe fraction of one query. *)
Definition effective (base : RouteConfig) (ps : list Predicate) (f : float) : RouteConfig :=
  mkRouteConfig (match ps with [] => rc_predicates base | _ => ps end)
    (if SFltb (S754_zero false) f then f else rc_probe_fraction base)
    (if SFltb (S754_zero false) f then 0 else rc_n_probe base).

Lemma effective_pos base ps f : effective base ps (pos_fraction f) = effective base ps f.
Proof. unfold effective, pos_fraction. by destruct (SFltb (S754_zero false) f) eqn:E; rewrite ?E. Qed.

Section engine.
Context {Setup : Type} {HLC : LeafCoder Setup} {HLS : LeafCoderScan Setup} {HRH : RapidHash} {HLM : LibM}.
Context (schema : Schema) (config : SweepConfig Setup) (supports_batch_scan : bool) (leaves : Z → Z → option (list Z)).
Context (summary_size : Z) (all_leaves : list LeafCandidate) (decode_rerank : Setup → list Z → Z → res float).
Context (order : QueryState Setup → list Z) (Horder : ∀ q, order q ≡ₚ seqZ 0 (Z.of_nat (length (qs_candidates q)))).

(** Routing turns a query, its settings and the number of neighbours into the leaves to
    scan and their tables, or gives up on it ([qs_fallback]); the threads of a batch claim
    its chunks in some way.  For at most [max_k] neighbours the shortlists of routed
    queries are addressable ([bo_w]): routing makes them at least as long as [k]. *)
Context (dim : nat) (max_k : Z) (base : RouteConfig) (route : list float → RouteConfig → Z → QueryState Setup).
Context (schedule : list (QueryState Setup) → list (list nat)).
Context (Hroute : ∀ k qs, 1 ≤ k ≤ max_k → (∀ q, q ∈ qs → ∃ v c, q = route v c k) → batch_ok schema config leaves qs).
Context (Hscores : ∀ v c k, 1 ≤ k ≤ max_k → qs_fallback (route v c k) = false → scores_ok schema config leaves (route v c k)).
Context (Hbrute : ∀ v k, 1 ≤ k ≤ max_k → qs_fallback (route v base k) = true →
  ∃ r, search_brute_force_filtered schema config leaves summary_size all_leaves decode_rerank k (route v base k) = Ok r).
Context (Hschedule : ∀ qs uls, unique_leaves qs = Ok uls → schedule_ok (length uls) (schedule qs)).

Definition query_at (queries : list float) (i : nat) : list float := take dim (drop (i * dim) queries).

(** The queries of a call of [search_batch], with what each overrides. *)
Definition call_queries (queries : list float) (nq : Z) (ps : option (list (list Predicate))) (fs : option (list float)) :
    list (list float * list Predicate * float) :=
  (λ i, (query_at queries i, preds_at ps i, frac_at fs i)) <$> seq 0 (Z.to_nat nq).

(** Routed under their own settings, and under the base configuration. *)
Definition routed_queries (k : Z) (calls : list (list float * list Predicate * float)) : list (QueryState Setup) :=
  (λ c, route c.1.1 (effective base c.1.2 c.2) k) <$> calls.
Definition base_queries (k : Z) (calls : list (list float * list Predicate * float)) : list (QueryState Setup) :=
  (λ c, route c.1.1 base k) <$> calls.

#[local] Instance engine_index : BatchIndex := {|
  index_dim := dim;
  index_max_k := max_k;
  index_search_batch queries nq k threads ps fs :=
    if nq =? 0 then mret []
    else let calls := call_queries queries nq ps fs in
         let qs := routed_queries k calls in
         search_batch schema config supports_batch_scan leaves summary_size all_leaves decode_rerank threads order
           qs (base_queries k calls) k (schedule qs)
|}.

(** What is searched for a query: itself under its own settings, or, when routing gives
    up on it, itself under the base configuration. *)
Definition engine_query (v : list float) (ps : list Predicate) (f : float) (k : Z) : QueryState Setup :=
  let q := route v (effective base ps f) k in if qs_fallback q then route v base k else q.

(** [r] is what [search] returns for it, on any number of threads and in any order of its
    leaves. *)
Definition search_returns (v : list float) (ps : list Predicate) (f : float) (k : Z) (r : list Candidate) : Prop :=
  search_gives schema config leaves summary_size all_leaves decode_rerank k (engine_query v ps f k) r.

(** The answer of [search] on one thread. *)
Definition engine_answer (v : list float) (ps : list Predicate) (f : float) (k : Z) : list Candidate :=
  let q := engine_query v ps f k in
  match search schema config leaves summary_size all_leaves decode_rerank k 1 (order q) q with Ok r => r | Err _ => [] end.

Lemma engine_pos v ps f k :
  engine_query v ps (pos_fraction f) k = engine_query v ps f k ∧ engine_answer v ps (pos_fraction f) k = engine_answer v ps f k.
Proof.
  assert (engine_query v ps (pos_fraction f) k = engine_query v ps f k) as E by (unfold engine_query; by rewrite effective_pos).
  split; [done|]. unfold engine_answer. by rewrite E.
Qed.

Lemma query_at_concat (qs : list (list float)) rest i q :
  Forall (λ q, length q = dim) qs → qs !! i = Some q → query_at (concat qs ++ rest) i = q.
Proof.
  intros Hqs. unfold query_at. revert i. induction Hqs as [|x qs Hx _ IH]; intros i; [done|]. cbn [concat]. rewrite <- app_assoc.
  destruct i as [|i]; cbn [lookup list_lookup Nat.mul].
  - intros [= <-]. rewrite drop_0, <- Hx. apply take_app_length.
  - intros Hi. rewrite <- drop_drop. replace (drop dim (x ++ concat qs ++ rest)) with (concat qs ++ rest); [by apply IH|].
    by rewrite <- Hx, drop_app_length.
Qed.

Lemma routed_batch calls k threads : k_ok k →
  ∃ out, search_batch schema config supports_batch_scan leaves summary_size all_leaves decode_rerank threads order
      (routed_queries k calls) (base_queries k calls) k (schedule (routed_queries k calls)) = Ok out ∧ length out = length calls ∧
    ∀ i v ps f, calls !! i = Some (v, ps, f) → out !! i = Some (engine_answer v ps f k) ∧ search_returns v ps f k (engine_answer v ps f k).
Proof.
  intros [Hk Hmax]. cbn [index_max_k engine_index] in Hmax. set (qs := routed_queries k calls).
  assert (∀ i q, qs !! i = Some q → ∃ v ps f, calls !! i = Some (v, ps, f) ∧ q = route v (effective base ps f) k) as Hqs.
  { intros i q Hi. unfold qs, routed_queries in Hi. rewrite list_lookup_fmap in Hi. destruct (calls !! i) as [[[v ps] f]|]; [|done].
    injection Hi as <-. by exists v, ps, f. }
  destruct (unique_leaves_ok qs) as (uls & segs & Eu & _).
  destruct (batch_answers schema config supports_batch_scan leaves summary_size all_leaves decode_rerank threads order Horder qs (base_queries k calls))
    with (k := k) (uls := uls) (schedule := schedule qs) as (out & E & El & Hout); [| |lia|left; lia| |done|by apply Hschedule|].
  - apply (Hroute k); [lia|]. intros q [i Hi]%list_elem_of_lookup. destruct (Hqs i q Hi) as (v & ps & f & _ & ->). by eexists _, _.
  - intros i q (v & ps & f & _ & ->)%Hqs Hf. by apply Hscores; [lia|].
  - intros i q Hi Hf. destruct (Hqs i q Hi) as (v & ps & f & Hc & ->). exists (route v base k). split.
    { unfold base_queries. by rewrite list_lookup_fmap, Hc. }
    unfold searchable. destruct (qs_fallback (route v base k)) eqn:Eb; [apply Hbrute; [lia|done]|]. split; [|apply Hscores; [lia|done]].
    apply (Hroute k); [lia|]. intros q ->%list_elem_of_singleton. by eexists _, _.
  - exists out. split_and!; [done|by rewrite El; unfold qs, routed_queries; rewrite length_fmap|]. intros i v ps f Hc.
    destruct (Hout i (route v (effective base ps f) k)) as (r & Er & Hr).
    { unfold qs, routed_queries. by rewrite list_lookup_fmap, Hc. }
    assert (search_returns v ps f k r) as Hret.
    { unfold search_returns, engine_query. destruct (qs_fallback _); [|done]. destruct Hr as (b & Hb & Hr).
      unfold base_queries in Hb. rewrite list_lookup_fmap, Hc in Hb. by injection Hb as <-. }
    assert (engine_answer v ps f k = r) as ->; [|by split]. unfold engine_answer. by rewrite Hret by apply Horder.
Qed.

#[local] Instance engine_laws : BatchIndexLaws engine_answer.
Proof.
  intros qs rest k threads ps fs Hqs Hk Hk1 Hlen _ _. cbn [index_search_batch engine_index].
  destruct (Z.eqb_spec (Z.of_nat (length qs)) 0) as [Hl|Hl]; [destruct qs; [by exists []|done]|].
  destruct (routed_batch (call_queries (concat qs ++ rest) (Z.of_nat (length qs)) ps fs) k threads) as (out & E & El & Hout).
  { apply Hk1. by destruct qs. }
  exists out. split_and!; [exact E|by rewrite El; unfold call_queries; rewrite length_fmap, length_seq, Nat2Z.id|].
  intros i q Hi. rewrite (proj2 (engine_pos _ _ _ _)). apply Hout. unfold call_queries. rewrite list_lookup_fmap, Nat2Z.id, lookup_seq_lt by by eapply lookup_lt_Some.
  cbn [fmap option_fmap option_map Nat.add]. by rewrite (query_at_concat _ _ _ _ Hqs Hi).
Qed.

End engine.

(** ** A run *)

Definition ex_sched_config : Config := mkConfig 0 200 0 0 1 1.
Definition ex_entry (id now : Z) (v : float) (k delay_us : Z) : Entry :=
  mkEntry id [v] k [] (S754_zero false) now (now + (if 0 <? delay_us then delay_us * 1000 else 100000000)).
Definition ex_e0 : Entry := ex_entry 0 10 (S754_zero false) 2 5.
Definition ex_e1 : Entry := ex_entry 1 20 (S754_zero true) 3 0.

(** One query is due and its window is swept; the other waits for the slot. *)
Definition ex_world (results : list Candidate) (cache : list CacheEntry) (st : Stats) : World :=
  mkWorld (mkSched [ex_e1] false 1 cache st) (Waiting Slot false) [] [TDelivered] StopIdle 8000 [(ex_e0, Answered results)] 2.

Section run.
Context `{BatchIndex} (answer : list float → list Predicate → float → Z → list Candidate) `{!BatchIndexLaws answer}.
Context (search_config_ : CutConfig) (Hdim : index_dim = 1%nat) (Hmax : 3 ≤ index_max_k).

(** Two submissions, and the first window launched. *)
Lemma ex_run : rtc (step ex_sched_config search_config_) (world0 0)
  (mkWorld (mkSched [ex_e1] false 1 [] (mkStats 0 0 0 0 1 [])) (Waiting Slot false) [] [TLaunched [ex_e0]] StopIdle 6000 [] 2).
Proof.
  eapply rtc_l. { apply step_env; [done|]. eapply (env_submit _ _ _ _ _ _ _ _ _ 10 ex_e0 10 [S754_zero false] 2 [] 5 (S754_zero false)); [lia|done|split; lia|done|by vm_compute]. }
  eapply rtc_l. { apply step_work; [done|]. eapply (work_miss _ _ _ _ []). by vm_compute. }
  eapply rtc_l. { apply step_work; [done|]. eapply (work_insert _ _ _ _ []). by vm_compute. }
  eapply rtc_l. { apply step_work; [done|]. eapply (work_submit_notify _ _ _ _ []). }
  eapply rtc_l. { apply step_env; [done|]. eapply (env_submit _ _ _ _ _ _ _ _ _ 20 ex_e1 20 [S754_zero true] 3 [] 0 (S754_zero false)); [lia|done|split; lia|done|by vm_compute]. }
  eapply rtc_l. { apply step_work; [done|]. eapply (work_miss _ _ _ _ []). by vm_compute. }
  eapply rtc_l. { apply step_work; [done|]. eapply (work_insert _ _ _ _ []). by vm_compute. }
  eapply rtc_l. { apply step_work; [done|]. eapply (work_submit_notify _ _ _ _ []). }
  eapply rtc_l. { apply step_work; [done|]. eapply (work_evaluate _ _ _ _ _ _ _ _ _ (still 6000) 6000); [|by vm_compute].
    unfold readings, still. split_and!; lia. }
  eapply rtc_l. { apply step_work; [done|]. eapply work_launch. }
  eapply rtc_l. { apply step_work; [done|]. by eapply work_skip. }
  eapply rtc_l. { apply step_work; [done|]. eapply work_reaped. cbn. lia. }
  eapply rtc_l. { apply step_work; [done|]. eapply (work_evaluate _ _ _ _ _ _ _ _ _ (still 6000) 6000); [apply still_readings|by vm_compute]. }
  apply rtc_refl.
Qed.

Lemma ex_reachable : ∃ r cache st, reachable ex_sched_config search_config_ (ex_world r cache st).
Proof.
  destruct (dispatch_sweep_ok answer ex_sched_config [ex_e0]) as (rows & E & El & _).
  { constructor; [|done]. split_and!; [done|split; cbn; lia|done]. }
  destruct rows as [|row [|]]; try done.
  eexists (own_answer search_config_ ex_e0 row), _, _. exists 0. eapply (transitivity (R:=rtc _)); [apply ex_run|].
  eapply rtc_l. { apply step_work; [done|]. by eapply (work_start _ _ _ _ _ [] _ [] _ _ _ _ 7000). }
  eapply rtc_l. { apply step_work; [done|]. eapply (work_deliver _ _ _ _ _ [] _ _ [] _ _ _ _ 8000 8000); [lia|lia|exact E|reflexivity]. }
  cbn -[own_answer cut_to]. apply rtc_refl.
Qed.

(** The same run with a sweep that throws: its future breaks, and nothing gives the slot
    back.  The other query waits for it with no window in flight, and no thread has
    anything left to do. *)
Definition ex_stalled : World :=
  mkWorld (mkSched [ex_e1] false 1 [] (mkStats 0 0 0 0 1 [])) (Waiting Slot false) [] [TFailed] StopIdle 7000 [(ex_e0, Broken)] 2.

Lemma failed_sweep_stalls :
  reachable ex_sched_config search_config_ ex_stalled ∧ busy ex_stalled = 0%nat ∧ failed ex_stalled = 1%nat ∧
  ∀ w, ¬ work ex_sched_config search_config_ ex_stalled w.
Proof.
  split_and!; [|done|done|].
  - exists 0. eapply (transitivity (R:=rtc _)); [apply ex_run|].
    eapply rtc_l. { apply step_work; [done|]. by eapply (work_start _ _ _ _ _ [] _ [] _ _ _ _ 7000). }
    eapply rtc_l. { apply step_env; [done|]. eapply (env_sweep_throws _ _ _ _ [] _ _ []). }
    apply rtc_refl.
  - intros w Hw. unfold ex_stalled in Hw. inversion Hw; subst; try match goal with E : _ ++ _ = _ |- _ => by destruct (app_eq_nil _ _ E) end.
    all: repeat match goal with
    | E : _ ++ _ :: _ = [] |- _ => by apply app_eq_nil in E as []
    | E : ?f1 ++ _ :: _ = [_] |- _ => destruct f1 as [|? [|]]; [discriminate E|discriminate E|discriminate E]
    end.
Qed.
End run.

(** ** The theorems on the run *)

Definition ex_route (v : list float) (c : RouteConfig) (k : Z) : QueryState GlobalSetup :=
  match rc_predicates c, v with
  | [], [S754_zero true] => ex_query 3 [3]
  | [], _ => ex_query 1 [7; 3]
  | _, _ => ex_gave_up
  end.
Definition ex_base_config : RouteConfig := mkRouteConfig [] (S754_zero false) 0.
Definition ex_schedule (qs : list (QueryState GlobalSetup)) : list (list nat) :=
  match unique_leaves qs with Ok uls => [chunk_starts (length uls)] | Err _ => [] end.

Lemma ex_route_queries v c k : ex_route v c k = ex_query 1 [7; 3] ∨ ex_route v c k = ex_query 3 [3] ∨ ex_route v c k = ex_gave_up.
Proof. unfold ex_route. destruct (rc_predicates c); [|auto]. destruct v as [|[[]| | |] [|]]; auto. Qed.

Definition ex_index : BatchIndex :=
  @engine_index _ _ w_hash w_libm w_schema1 ex_config false ex_leaves 24 [] ex_decode_rerank ex_order 1 1000 ex_base_config ex_route ex_schedule.
Definition ex_answer : list float → list Predicate → float → Z → list Candidate :=
  @engine_answer _ _ w_hash w_libm w_schema1 ex_config ex_leaves 24 [] ex_decode_rerank ex_order ex_base_config ex_route.

Lemma ex_order_ok q : ex_order q ≡ₚ seqZ 0 (Z.of_nat (length (qs_candidates q))).
Proof. done. Qed.

Lemma ex_routed_ok k qs : 1 ≤ k ≤ 1000 → (∀ q, q ∈ qs → ∃ v c, q = ex_route v c k) →
  @batch_ok _ _ _ w_hash w_libm w_schema1 ex_config ex_leaves qs.
Proof. intros _ Hqs. apply ex_queries_ok. intros i q Hq%list_elem_of_lookup_2. apply Hqs in Hq as (v & c & ->). apply ex_route_queries. Qed.

Lemma ex_route_scores v c k : 1 ≤ k ≤ 1000 → qs_fallback (ex_route v c k) = false →
  @scores_ok _ _ _ w_hash w_libm w_schema1 ex_config ex_leaves (ex_route v c k).
Proof. intros _ Hf. destruct (ex_route_queries v c k) as [E|[E|E]]; rewrite E in *; [apply ex_query_scores; auto..|done]. Qed.

(** The base configuration has no predicates, and routing never gives up under it. *)
Lemma ex_base_brute (v : list float) k : 1 ≤ k ≤ 1000 → qs_fallback (ex_route v ex_base_config k) = true →
  ∃ r, @search_brute_force_filtered _ _ w_hash w_libm w_schema1 ex_config ex_leaves 24 [] ex_decode_rerank k (ex_route v ex_base_config k) = Ok r.
Proof. unfold ex_route. cbn [rc_predicates ex_base_config]. intros _ Hf. by destruct v as [|[[]| | |] [|]]. Qed.

Lemma ex_schedule_ok qs uls : unique_leaves qs = Ok uls → schedule_ok (length uls) (ex_schedule qs).
Proof. intros E. unfold schedule_ok, ex_schedule. rewrite E. cbn [concat]. by rewrite app_nil_r. Qed.

Lemma ex_laws : @BatchIndexLaws ex_index ex_answer.
Proof. apply engine_laws; [exact ex_order_ok|exact ex_routed_ok|exact ex_route_scores|exact ex_base_brute|exact ex_schedule_ok]. Qed.

Lemma ex_max_k : 3 ≤ @index_max_k ex_index.
Proof. cbn. lia. Qed.

Abbreviation ex_runs w := (@reachable ex_index ex_sched_config (sc_cut ex_config) w).


Lemma scheduler_invariant_witness : ∃ r cache st, ex_runs (ex_world r cache st) ∧
  Permutation (numbers (ex_world r cache st)) [0; 1] ∧ StronglySorted due_before [ex_e1] ∧
  1 = Z.of_nat (busy (ex_world r cache st) + failed (ex_world r cache st)) ∧
  (notify_pending (ex_world r cache st) ∨ rightly_asleep ex_sched_config Slot (ex_world r cache st)).
Proof.
  destruct (@ex_reachable ex_index ex_answer ex_laws (sc_cut ex_config) eq_refl ex_max_k) as (r & cache & st & Hr). exists r, cache, st. split; [exact Hr|].
  destruct (@scheduler_invariant ex_index ex_sched_config (sc_cut ex_config) ltac:(cbn; lia) _ Hr) as ((HN & _) & Hs & Hi & _ & Hw).
  split; [exact HN|]. split; [exact Hs|]. split; [apply (Hi eq_refl)|].
  destruct (Hw Slot eq_refl) as [?|[?|(_ & Hf & _)]]; [by left|by right|]. cbn in Hf. lia.
Defined.


(** After [stop], the waiting query is swept too. *)
Lemma stop_drains_witness : ∃ w w', ex_runs w ∧ stopped_ (w_sched w) = true ∧
  rtc (@work ex_index ex_sched_config (sc_cut ex_config)) w w' ∧ settled w' ∧ e_id <$> (w_outcomes w').*1 ≡ₚ [0; 1].
Proof.
  destruct (@ex_reachable ex_index ex_answer ex_laws (sc_cut ex_config) eq_refl ex_max_k) as (r & cache & st & now & Hr).
  assert (ex_runs (mkWorld (mkSched [ex_e1] true 1 cache st) (Waiting Slot false) [] [TDelivered] StopNotify 8000 [(ex_e0, Answered r)] 2)) as Hr'.
  { exists now. eapply rtc_r; [exact Hr|]. apply step_env; [done|]. apply (env_stop _ (mkSched [ex_e1] false 1 cache st)). by left. }
  destruct (@stop_drains ex_index ex_answer ex_laws ex_sched_config (sc_cut ex_config) ltac:(cbn; lia) _ Hr') as (_ & _ & Hall & w' & Hw' & Hset).
  - split_and!; [by repeat constructor|done|done].
  - done.
  - eexists _, w'. split; [exact Hr'|]. split; [done|]. split; [exact Hw'|]. split; [exact Hset|]. apply (Hall w' Hw' Hset).
Defined.

(** ** Corners *)

Definition ex_string_pred (s : list Z) : Predicate :=
  mkPredicate [116] OpEq (S754_zero false) (S754_zero false) (S754_zero false) (S754_zero false) (S754_zero false) [] s [].

(** The cache key leaves out the string of a string predicate: a query for rows whose
    column is "b" is answered with the rows whose column is "a". *)
Lemma cache_ignores_strings results st :
  fst (submit_lookup (mkConfig 0 200 0 4 1 1) (mkEntry 1 [S754_zero false] 2 [ex_string_pred [98]] (S754_zero false) 20 30)
    (mkSched [] false 0 [mkCacheEntry [S754_zero false] 2 [ex_string_pred [97]] (S754_zero false) results] st)) = Some results.
Proof. reflexivity. Qed.

(** With a gap and no rerank the search cuts to the window's largest [k], and nothing
    cuts to the query's own. *)
Lemma gap_without_rerank_uncut e r :
  let sc := mkCutConfig (S754_finite false 8388608 (-23)) false in is_adaptive sc = false ∧ own_answer sc e r = r.
Proof. by split. Qed.

(** The most patient of requests is due before it was submitted. *)
Lemma patience_wraps v f : fmap e_deadline (make_entry ex_sched_config 0 5000 v 1 [] (2 ^ 64 - 1) f) = Ok 4000.
Proof. by vm_compute. Qed.

(** What queued up while the slots were taken is one window, whatever its size. *)
Lemma window_over_cap : ∃ s', evaluate (mkConfig 0 200 1 0 1 1) (still 6) (mkSched [ex_e0; ex_e1] false 0 [] no_stats) = Ok (Launch [ex_e0; ex_e1], s').
Proof. eexists. by vm_compute. Qed.
